(* ===== verification/_CoqProject ===== *)
-Q . S2P
Prelude.v
Float64.v
Audio.v
Utf8.v
Vad.v
Config.v
Provider.v
Types.v
Buffer.v
Sentencer.v
Turn.v
Truncate.v
Conversation.v
Response.v
Pipeline.v
SessionState.v
Session.v
SessionStep.v
SessionConv.v
SessionCore.v
SessionTimers.v
SessionGrows.v
Stages.v
Decode.v
Wire.v
Adapter.v
Echo.v
Demo.v
Actor.v
ActorProps.v
SessionProps.v
AdapterProps.v
AdapterIds.v
AdapterCalls.v
Admin.v
AdminProps.v
Gate.v
Chat.v
ChatRequest.v
Qwen.v
QwenAsr.v
QwenAsrProps.v
Deepgram.v
QwenTts.v
OpenaiTts.v
RealtimeTts.v
Server.v
StrictJson.v
ConfigDecode.v
ConfigLoad.v
Mock.v
