(* ===== verification/Prelude.v ===== *)
(** * Cascade realtime gateway: a verification development

    Cascade is a realtime voice gateway: a client speaks the GA realtime
    protocol over a WebSocket, and a session turns its audio into text (ASR),
    the text into an answer (LLM) and the answer into speech (TTS). This
    library models the session core of [internal/session] with everything it
    computes with ([internal/audio], [internal/vad], [internal/config],
    [internal/provider]), the protocol layer between it and the client
    ([internal/protocol]), the connection that carries it ([internal/server]),
    the providers of every vendor (the packages under [internal/provider]), and
    the configuration, loaded and stored ([internal/config], [internal/admin]),
    and proves what makes them correct. Definitions keep the
    names of the Go code and are executable; integers a client or an operator
    chooses wrap at 64 bits ([Prelude.i64]); a Go panic is [None].

    ** The parts

    - [Prelude]: Go slices, 64-bit integers, automation; [Float64]: binary64
      arithmetic as correctly rounded rationals; [Audio] (internal/audio): PCM
      conversions and samples; [Utf8]: the decoding and character classes the
      session uses.
    - [Vad] (internal/vad/vad.go): the energy detector.
    - [Config] (internal/config: config.go, types.go, runtime.go, validate.go):
      the session object, limits, profiles, defaulting and validation.
    - [Provider] (internal/provider/provider.go): the values that cross the
      provider interfaces, [ASRStream] as a class, errors, the registry.
    - [Types] (internal/session/types.go): items, commands, events.
    - [Buffer], [Sentencer], [Turn], [Truncate], [Conversation], [Response]: the
      files of the same names under internal/session, each a pure component
      with its state, operations, invariant and properties.
    - [Pipeline] and [Stages] (internal/session/pipeline.go): the data of a
      launched pipeline, and its goroutines as a step relation ([pstep]) over
      bounded channels; what a provider answers and how a select resolves are
      labels of the steps.
    - [SessionState], [Session] (internal/session/session.go): the actor's state
      and every handler, each a function from state to state ([None] when the
      code panics). [out] are the events emitted, [sent] those that reached the
      events channel: once the context is done the select of [emit] may drop one,
      as a list of choices of the environment says ([takes]).
    - [SessionStep]: what the actor's select can receive ([input], [enabled]),
      the dispatch ([handle]), the reachable states ([reachable]) and the order
      in which the events of a response are emitted ([trace]).
    - [Actor]: [Post], [PostAudio], the two queues with their sequence numbers,
      the stashes and the loop ([Session.run], [drainAudioBefore],
      [drainCommandsBefore], [cleanup]) as a step relation in which the
      connection's reader, the loop and cancellation interleave.
    - [Decode], [Wire], [Adapter] (internal/protocol: decode.go, wire.go,
      adapter.go, ids.go): decoding of client events over parsed JSON, the server
      frames and their rendering, and the adapter's tables and operations in a
      state monad.
    - [Admin] (internal/admin): the copy-on-write configuration store, its state
      file call by call, and the API's routes.
    - [StrictJson], [ConfigDecode], [ConfigLoad] (internal/config: decode.go,
      load.go, config.go): strict decoding over defaults as encoding/json does it,
      the documents of the runtime configuration and their encoding, and the
      static configuration with its expansion of the environment and its validator.
    - [Server] (internal/server/server.go): the admission of requests, and a
      connection: writer, pump and read loop as a step relation over their queue.
    - [Gate], [Chat], [ChatRequest], [OpenaiTts], [RealtimeTts]
      (internal/provider/openai; the chat client of internal/provider/qwen is the
      same code and is an instance of [Chat.chat_vendor]): the silence gate, the
      chat stream line by line, the request it posts, and the two synthesizers.
    - [Deepgram] (internal/provider/deepgram): the transcription stream with the
      timers of Finalize.
    - [Qwen], [QwenAsr], [QwenAsrProps], [QwenTts] (internal/provider/qwen): the
      framing of tasks, the transcription stream with its writer and reader, and
      the synthesis stream.
    - [Mock] (internal/provider/mock): the scripted providers.
    - [SessionConv], [SessionCore], [SessionTimers], [SessionGrows]: the
      invariants of the reachable states, one lemma per handler.
    - [Demo], [SessionProps], [ActorProps]: concrete sessions, and the theorems
      about the session and its loop; [Echo], [AdapterProps], [AdapterIds],
      [AdapterCalls]: about the protocol layer; [AdminProps]: about the store.

    The parts meet as in the code: handlers call [Turn.Step] and act on its
    decision ([Session.apply]), move audio through [Buffer] and [Vad]
    ([handleAudio]), append to [Conversation], start pipelines
    ([startPipeline]) and receive their facts ([handleResponseEvent]). A
    pipeline fact is an input of the session admitted by [SessionStep.sent_by];
    [Stages.pipeline_facts_well_formed] shows that is what pipelines send, and
    [ActorProps.loop_refines_session] that the loop only produces states of the
    step relation until it exits, so the theorems of [SessionProps] hold of the
    running actor. The adapter posts [Types.Command]s to the session and projects
    its [Types.Event]s: [AdapterProps.projection_panics_on_orphans] runs the
    projection on what the consumer of any reachable session is given. [Admin.Resolve] gives a connection the
    [SessionDefaults] its session and its adapter start from. A connection
    ([Server.conn]) calls the adapter for the greeting, for every event the session
    delivers, of which nothing is assumed, and for every frame of the client. The vendor streams are what answers the pipeline
    and the session: each is a step relation over the calls of its interface and
    what the network answers, with the values of [Provider]. [ConfigLoad.Parse]
    yields the limits and the seed; [ConfigDecode] reads what [Admin] is given,
    writes and reads again.

    ** What is shown

    - The session ([SessionProps]): the order of the emitted events up to
      session.closed, and that the consumer gets all of them until the
      cancellation and a part of the rest; at most one live pipeline, and silence of cancelled ones;
      barge-in; a response that waits for a transcript resolves; timers are
      armed whenever a turn waits for them; the conversation invariant;
      configuration and voice-lock invariants; deferred triggers; bounds of
      truncation; and two defects, each as a theorem about a concrete run.
    - The loop ([ActorProps]): items are handled in posted order and none is
      skipped; refinement of the step relation; drains end.
    - The pipeline ([Stages]): its facts are well formed and each stream ends
      once; its segments tile its text and audio; it can always stop once
      cancelled.
    - The protocol layer: the projection panics exactly on an event of a response
      whose response.created was lost, which a run shows can happen after a
      cancellation; every client frame has one answer ([AdapterProps]); the ids of
      items as they are added resolve ([AdapterIds]); provider call ids
      stay inside ([AdapterCalls]); a told session object is accepted back
      unchanged ([Echo]); an accepted session.update is exact, audio survives
      base64 ([Decode]); and more defects.
    - The store ([AdminProps]): what is live is valid, built and on disk; a crash
      leaves the old or the new configuration; sessions resolve; secrets stay.
    - The connection ([Server]): at most max_sessions are served; what the client
      gets is a complete, ordered part of what the adapter made, and with a close
      frame all of it; it can wind down exactly if the session delivered no event of
      a response it had not announced.
    - The vendors: a chat stream is well formed and says what a reference assembles
      from its lines ([Chat]), its request reads back as the conversation
      ([ChatRequest]); audio pushed to DashScope is conserved and its tasks
      are disciplined ([QwenAsrProps]); every Finalize of Deepgram is answered
      ([Deepgram]); text is spoken once and in order ([QwenTts], [RealtimeTts]);
      the pipeline hears the samples of the body ([OpenaiTts]), what the gate
      keeps of them ([Gate]), or the script ([Mock]); and the concrete runs that
      show defects, at the end of the files.
    - The configuration: a stored one is read back exactly ([ConfigDecode]); the
      seed is loaded verbatim, expansion fails exactly on unset variables, and what
      validation accepts ([ConfigLoad]).
    - The components: turn decisions ([Turn]), committed audio and memory bound
      ([Buffer]), sentences tile the text ([Sentencer]), truncated text is a
      monotone prefix ([Truncate]), chat messages keep every turn and tool call
      ([Conversation]), detector events and chunk independence ([Vad]), exact
      validation and defaulting ([Config]), registry, samples, durations.

    ** Fuel and bounds

    Loops that consume a list use its length as fuel ([Vad.process_loop],
    [Sentencer.push_loop], [scan_loop]); that it is enough is part of the lemmas
    ([process_loop_fuel], [push_loop_spec]). Sizes of data the process holds
    ([zlen]) are unbounded integers; the physical bound a lemma needs (less than
    [2^56] ms of audio, say) is a hypothesis named in the statement.

    ** Not modelled

    Telemetry, logging, the recorder, tracing and the time stamps that only feed
    them (internal/observability, internal/recorder); the text of error messages;
    real time (a timer is armed with its duration and may fire at any later step);
    the text of JSON and of other encodings (events, chunks and documents are
    parsed values, a URL's query is its list of parameters; the text of a float is
    a parameter of the rendering, and drawn identifiers are distinct only as far as
    a theorem assumes it); the HTTP mux, the WebSocket handshake and the transport
    below a frame, so that what a socket or a body yields is a label of a step; the
    wait of [Shutdown] and the wiring of cmd/cascade; the decoding of a mock script
    and the counters tests read from it; and the developer tools (hack). The
    session's theorems do not assume the vendors': there, providers appear as any
    answers they may give. *)

From stdpp Require Export base tactics list gmap strings.
From Stdlib Require Export ZArith Lia Btauto.
#[global] Open Scope Z_scope.

(** ** Notation *)

(** Length of a Go slice or string, as the [int] the code computes with. *)
Definition zlen {A} (l : list A) : Z := Z.of_nat (length l).

(** [l[i:j]] of Go: [None] is the run-time panic "slice bounds out of range". *)
Definition gslice {A} (l : list A) (i j : Z) : option (list A) :=
  if (0 <=? i) && (i <=? j) && (j <=? zlen l)
  then Some (take (Z.to_nat (j - i)) (drop (Z.to_nat i) l))
  else None.

(** ** 64-bit integers

    Go's [int] is 64 bits wide on every platform the gateway runs on. Values
    that a client or a configuration document chooses are wrapped where they
    enter arithmetic; positions and lengths of data the process actually holds
    stay far below [2^63] and are plain integers. *)
Definition i64 (z : Z) : Z := (z + 2 ^ 63) mod 2 ^ 64 - 2 ^ 63.

Definition in_i64 (z : Z) : Prop := - 2 ^ 63 <= z < 2 ^ 63.

Lemma i64_id z : in_i64 z -> i64 z = z.
Proof. unfold in_i64, i64. intros. rewrite Z.mod_small; lia. Qed.

Lemma i64_range z : in_i64 (i64 z).
Proof. unfold in_i64, i64. pose proof (Z.mod_pos_bound (z + 2 ^ 63) (2 ^ 64)). lia. Qed.

(** ** Automation *)

Create HintDb cascade.
Create Rewrite HintDb zlen.
#[export] Hint Resolve i64_range : cascade.

(** Case analysis on the scrutinee of the innermost [if] or [match]. *)
Ltac case_step :=
  match goal with
  | |- context [match ?x with _ => _ end] =>
      lazymatch x with context [match _ with _ => _ end] => fail | _ => destruct x eqn:? end
  | H : context [match ?x with _ => _ end] |- _ =>
      lazymatch x with context [match _ with _ => _ end] => fail | _ => destruct x eqn:? end
  end.

(** Turn boolean tests on integers into (in)equalities. *)
Ltac bool_arith :=
  repeat match goal with
  | H : (_ && _)%bool = true |- _ => apply andb_true_iff in H as [? ?]
  | H : (_ || _)%bool = false |- _ => apply orb_false_iff in H as [? ?]
  | H : (_ <=? _) = true |- _ => apply Z.leb_le in H
  | H : (_ <=? _) = false |- _ => apply Z.leb_gt in H
  | H : (_ <? _) = true |- _ => apply Z.ltb_lt in H
  | H : (_ <? _) = false |- _ => apply Z.ltb_ge in H
  | H : (_ =? _) = true |- _ => apply Z.eqb_eq in H
  | H : (_ =? _) = false |- _ => apply Z.eqb_neq in H
  end.

Ltac zlia := unfold in_i64 in *; bool_arith; lia.

(** ** Lists *)

Section lists.
Context {A : Type}.
Implicit Types l : list A.

Lemma zlen_nil : zlen (@nil A) = 0.
Proof. reflexivity. Qed.

Lemma zlen_cons x l : zlen (x :: l) = 1 + zlen l.
Proof. unfold zlen. simpl length. lia. Qed.

Lemma zlen_app l1 l2 : zlen (l1 ++ l2) = zlen l1 + zlen l2.
Proof. unfold zlen. rewrite length_app. lia. Qed.

Lemma zlen_nonneg l : 0 <= zlen l.
Proof. unfold zlen. lia. Qed.

Lemma zlen_drop n l : 0 <= n -> zlen (drop (Z.to_nat n) l) = Z.max 0 (zlen l - n).
Proof. intros. unfold zlen. rewrite length_drop. lia. Qed.

Lemma zlen_take n l : 0 <= n -> zlen (take (Z.to_nat n) l) = Z.min n (zlen l).
Proof. intros. unfold zlen. rewrite length_take. lia. Qed.

Lemma zlen_0_nil l : zlen l = 0 -> l = [].
Proof. destruct l; [done|]. rewrite zlen_cons. pose proof (zlen_nonneg l). lia. Qed.

Lemma gslice_Some l i j :
  0 <= i <= j -> j <= zlen l ->
  gslice l i j = Some (take (Z.to_nat (j - i)) (drop (Z.to_nat i) l)).
Proof.
  intros [? ?] ?. unfold gslice.
  by rewrite !(proj2 (Z.leb_le _ _)) by lia.
Qed.

Lemma gslice_is_Some l i j s : gslice l i j = Some s -> 0 <= i <= j /\ j <= zlen l.
Proof. unfold gslice. case_match; [|done]. intros. bool_arith. lia. Qed.

Lemma gslice_None l i j : gslice l i j = None <-> i < 0 \/ j < i \/ zlen l < j.
Proof.
  unfold gslice. split.
  - case_match; [done|]. intros _.
    destruct (0 <=? i) eqn:?, (i <=? j) eqn:?, (j <=? zlen l) eqn:?; simpl in *; zlia.
  - intros Hb. case_match; [|done]. zlia.
Qed.

Lemma gslice_length l i j s : gslice l i j = Some s -> zlen s = j - i.
Proof.
  intros H. pose proof (gslice_is_Some _ _ _ _ H) as [? ?].
  rewrite gslice_Some in H by lia. simplify_eq.
  rewrite zlen_take, zlen_drop by lia. lia.
Qed.

Lemma gslice_full l : gslice l 0 (zlen l) = Some l.
Proof.
  pose proof (zlen_nonneg l). rewrite gslice_Some by lia. f_equal.
  rewrite drop_0. apply take_ge. unfold zlen. lia.
Qed.

Lemma head_elem_of x l : head l = Some x -> x ∈ l.
Proof. destruct l; [done|]. intros [= ->]. by left. Qed.

(** The prefix order on lists, decided by [take]. *)
Lemma take_prefix_mono (n m : nat) l : (n <= m)%nat -> take n l `prefix_of` take m l.
Proof.
  intros. exists (take (m - n) (drop n l)).
  rewrite <- (take_drop n (take m l)) at 1.
  rewrite take_take, Nat.min_l by lia. f_equal.
  rewrite skipn_firstn_comm. done.
Qed.
End lists.

#[export] Hint Resolve zlen_nonneg : cascade.
Global Hint Rewrite @zlen_nil @zlen_cons @zlen_app : zlen.

(** ** Strings as byte sequences

    A Go string is a sequence of bytes; [string] is exactly that, and its
    literals are UTF-8 encoded source text. *)
Definition bytes_of (s : string) : list Z :=
  map (fun a => Z.of_nat (Ascii.nat_of_ascii a)) (String.list_ascii_of_string s).

Definition string_of (b : list Z) : string :=
  String.string_of_list_ascii (map (fun z => Ascii.ascii_of_nat (Z.to_nat z)) b).

Lemma string_of_bytes_of s : string_of (bytes_of s) = s.
Proof.
  unfold string_of, bytes_of. rewrite map_map.
  erewrite map_ext with (g := fun a => a).
  { rewrite map_id. apply String.string_of_list_ascii_of_string. }
  intros a. simpl. rewrite Nat2Z.id. apply Ascii.ascii_nat_embedding.
Qed.

Lemma string_of_app a b : string_of (a ++ b) = (string_of a +:+ string_of b)%string.
Proof.
  unfold string_of. rewrite map_app.
  generalize (map (fun z => Ascii.ascii_of_nat (Z.to_nat z)) b) as l2.
  intros l2. induction (map (fun z => Ascii.ascii_of_nat (Z.to_nat z)) a) as [|x l IH]; [done|]. simpl. by rewrite IH.
Qed.

Lemma bytes_of_app a b : bytes_of (a +:+ b)%string = bytes_of a ++ bytes_of b.
Proof.
  unfold bytes_of. rewrite <- map_app. f_equal.
  induction a; simpl; [done|]. by f_equal.
Qed.

Lemma bytes_of_inj a b : bytes_of a = bytes_of b -> a = b.
Proof. intros H. rewrite <- (string_of_bytes_of a), H. apply string_of_bytes_of. Qed.

Lemma bytes_of_nil_inv s : bytes_of s = [] -> s = EmptyString.
Proof. intros H. apply bytes_of_inj. by rewrite H. Qed.

(** Length of a Go string in bytes. *)
Definition slen (s : string) : Z := zlen (bytes_of s).

Lemma slen_app a b : slen (a +:+ b)%string = slen a + slen b.
Proof. unfold slen. rewrite bytes_of_app. apply zlen_app. Qed.

Lemma bytes_of_range s : Forall (fun b => 0 <= b < 256) (bytes_of s).
Proof.
  unfold bytes_of. induction (String.list_ascii_of_string s) as [|a l IH]; simpl; constructor; [|done].
  pose proof (Ascii.nat_ascii_bounded a). lia.
Qed.

Lemma bytes_of_string_of b : Forall (fun z => 0 <= z < 256) b -> bytes_of (string_of b) = b.
Proof.
  unfold bytes_of, string_of. rewrite String.list_ascii_of_string_of_list_ascii, map_map.
  induction 1 as [|z b Hz _ IH]; simpl; [done|]. rewrite IH. f_equal.
  rewrite Ascii.nat_ascii_embedding by lia. lia.
Qed.

(** ** Option monad: [None] is a Go run-time panic *)

Lemma bind_Some_inv {A B} (x : option A) (f : A -> option B) b :
  (x ≫= f) = Some b -> exists a, x = Some a /\ f a = Some b.
Proof. intros. apply bind_Some in H. done. Qed.

(** ** Booleans as propositions *)
Lemma bool_decide_String_eqb (a b : string) : String.eqb a b = bool_decide (a = b).
Proof.
  destruct (String.eqb_spec a b); [by rewrite bool_decide_eq_true_2|by rewrite bool_decide_eq_false_2].
Qed.
