(* ===== verification/Float64.v ===== *)
(** * IEEE 754 double precision on the values the gateway computes with

    Go's [float64] operations round the exact result to nearest, ties to even.
    The gateway uses them on finite, moderate values only (RMS levels, volume
    thresholds, fractions of an audio segment), so a [float64] is represented
    by its exact rational value and every operation by the exact rational
    operation followed by [rnd]. Overflow to infinity and NaN do not occur (a
    literal that overflows is a range error, [ParseFloat]) and are not represented; gradual underflow is ([emin]).

    The lemmas are the two facts arguments about floating point code need:
    [rnd] is monotone, and exact on every integer below [2^53]. *)

From S2P Require Export Prelude.
From Stdlib Require Import QArith Qround Ascii.
#[local] Open Scope Z_scope.

(** A finite [float64], as the rational it denotes. *)
Abbreviation float64 := Q.

Definition prec : Z := 53.
Definition emin : Z := -1074.

(** [p / q] rounded to an integer, ties to even ([0 <= p], [0 < q]). *)
Definition rne (p q : Z) : Z :=
  let f := p / q in
  let r2 := 2 * (p mod q) in
  if r2 <? q then f
  else if q <? r2 then f + 1
  else if Z.even f then f else f + 1.

(** [p/q] scaled by [2^-e], as a numerator and a denominator. *)
Definition snum (p e : Z) : Z := p * 2 ^ Z.max 0 (- e).
Definition sden (q e : Z) : Z := q * 2 ^ Z.max 0 e.

(** The exponent that scales [p/q] into [2^52, 2^53), or [emin]. *)
Definition fexp (p q : Z) : Z :=
  let e := Z.log2 p - Z.log2 q - (prec - 1) in
  Z.max emin (if snum p e <? 2 ^ (prec - 1) * sden q e then e - 1 else e).

(** [m * 2^e]. *)
Definition dyadic (m e : Z) : Q :=
  if 0 <=? e then (m * 2 ^ e # 1)%Q else (m # Z.to_pos (2 ^ (- e)))%Q.

(** Rounding a rational to the nearest [float64]. *)
Definition rnd_pos (p q : Z) : Q :=
  let e := fexp p q in dyadic (rne (snum p e) (sden q e)) e.

Definition rnd (x : Q) : float64 :=
  match Qnum x with
  | Z0 => 0%Q
  | Zpos _ => rnd_pos (Qnum x) (Zpos (Qden x))
  | Zneg _ => (- rnd_pos (- Qnum x) (Zpos (Qden x)))%Q
  end.

Definition fadd (x y : float64) : float64 := rnd (x + y)%Q.
Definition fmul (x y : float64) : float64 := rnd (x * y)%Q.
Definition fdiv (x y : float64) : float64 := rnd (x / y)%Q.
Definition of_int (n : Z) : float64 := rnd (n # 1)%Q.

(** Correctly rounded square root of a non-negative value: the integer square
    root of [x * 4^k] with at least two digits beyond the precision, made odd
    in its last place when inexact, rounded once. *)
Definition fsqrt (x : float64) : float64 :=
  match Qnum x with
  | Zpos _ =>
      let p := Qnum x in let q := Zpos (Qden x) in
      let k := Z.max 0 (prec + 3 - (Z.log2 p - Z.log2 q) / 2) in
      let n := p * 4 ^ k / q in
      let s := Z.sqrt n in
      let exact := (s * s =? n) && (n * q =? p * 4 ^ k) in
      rnd ((if exact then 2 * s else 2 * s + 1) # Z.to_pos (2 ^ (k + 1)))%Q
  | _ => 0%Q
  end.

(** [int(x)] of Go: truncation toward zero. *)
Definition to_int (x : float64) : Z := Z.quot (Qnum x) (Zpos (Qden x)).

Definition fle (x y : float64) : bool := Qle_bool x y.
Definition flt (x y : float64) : bool := negb (Qle_bool y x).

(** ** Rounding to an integer *)

Lemma rne_bounds p q : 0 <= p -> 0 < q -> p / q <= rne p q <= p / q + 1.
Proof. intros. unfold rne. repeat case_match; lia. Qed.

Lemma rne_exact k q : 0 < q -> rne (k * q) q = k.
Proof.
  intros. unfold rne. rewrite Z.div_mul, Z.mod_mul by lia.
  case_match; [done|]. zlia.
Qed.

Lemma rne_mono p q p' q' :
  0 <= p -> 0 < q -> 0 <= p' -> 0 < q' -> p * q' <= p' * q -> rne p q <= rne p' q'.
Proof.
  intros ? Hq ? Hq' Hle.
  pose proof (Z.div_mod p q ltac:(lia)) as E. pose proof (Z.mod_pos_bound p q Hq).
  pose proof (Z.div_mod p' q' ltac:(lia)) as E'. pose proof (Z.mod_pos_bound p' q' Hq').
  assert (Hf : p / q <= p' / q').
  { apply Z.div_le_lower_bound; [lia|]. nia. }
  pose proof (rne_bounds p q). pose proof (rne_bounds p' q').
  destruct (Z.eq_dec (p / q) (p' / q')) as [Heq|]; [|lia].
  assert (Hr : (p mod q) * q' <= (p' mod q') * q) by nia.
  unfold rne. rewrite <- Heq. set (r := p mod q) in *. set (r' := p' mod q') in *.
  repeat case_match; bool_arith; try lia; exfalso; try nia; congruence.
Qed.

Lemma rne_ge k p q : 0 <= p -> 0 < q -> 0 <= k -> k * q <= p -> k <= rne p q.
Proof.
  intros. rewrite <- (rne_exact k 1) by lia. apply rne_mono; lia.
Qed.

Lemma rne_le k p q : 0 <= p -> 0 < q -> 0 <= k -> p <= k * q -> rne p q <= k.
Proof.
  intros. rewrite <- (rne_exact k 1) by lia. apply rne_mono; lia.
Qed.

(** ** The scaling exponent *)

Lemma pow2_pos e : 0 <= e -> 0 < 2 ^ e.
Proof. intros. by apply Z.pow_pos_nonneg. Qed.

Lemma snum_pos p e : 0 < p -> 0 < snum p e.
Proof. intros. unfold snum. pose proof (pow2_pos (Z.max 0 (- e))). nia. Qed.

Lemma sden_pos q e : 0 < q -> 0 < sden q e.
Proof. intros. unfold sden. pose proof (pow2_pos (Z.max 0 e)). nia. Qed.

#[export] Hint Resolve snum_pos sden_pos : cascade.

(** Rescaling: dividing by one more power of two. *)
Lemma snum_sden_shift p q e k :
  0 <= k -> snum p e * sden q (e + k) = 2 ^ k * snum p (e + k) * sden q e.
Proof.
  intros. unfold snum, sden.
  replace (p * 2 ^ Z.max 0 (- e) * (q * 2 ^ Z.max 0 (e + k)))
    with (p * q * (2 ^ Z.max 0 (- e) * 2 ^ Z.max 0 (e + k))) by ring.
  replace (2 ^ k * (p * 2 ^ Z.max 0 (- (e + k))) * (q * 2 ^ Z.max 0 e))
    with (p * q * (2 ^ k * 2 ^ Z.max 0 (- (e + k)) * 2 ^ Z.max 0 e)) by ring.
  f_equal. rewrite <- !Z.pow_add_r by lia. f_equal. lia.
Qed.

Lemma cross_lt a b c d k m :
  a * d = k * b * c -> a < m * c -> 0 < b -> 0 < c -> 0 < d -> 1 <= k -> b < m * d.
Proof.
  intros He Hlt Hb Hc Hd Hk.
  apply (Z.mul_lt_mono_pos_r c); [done|].
  apply Z.le_lt_trans with (k * b * c); [nia|]. rewrite <- He.
  replace (m * d * c) with (m * c * d) by ring. by apply Z.mul_lt_mono_pos_r.
Qed.

Lemma fexp_upper p q : 0 < p -> 0 < q ->
  snum p (fexp p q) < 2 ^ prec * sden q (fexp p q).
Proof.
  intros Hp Hq. unfold fexp. set (e0 := Z.log2 p - Z.log2 q - (prec - 1)).
  assert (Hbase : snum p e0 < 2 ^ prec * sden q e0).
  { unfold snum, sden.
    pose proof (Z.log2_spec p Hp). pose proof (Z.log2_spec q Hq).
    pose proof (Z.log2_nonneg p). pose proof (Z.log2_nonneg q).
    apply Z.lt_le_trans with (2 ^ Z.succ (Z.log2 p) * 2 ^ Z.max 0 (- e0)).
    { apply Z.mul_lt_mono_pos_r; [apply pow2_pos; lia|tauto]. }
    apply Z.le_trans with (2 ^ prec * (2 ^ Z.log2 q * 2 ^ Z.max 0 e0)).
    { rewrite <- !Z.pow_add_r by (unfold prec; lia). apply Z.pow_le_mono_r; [lia|].
      subst e0. unfold prec. lia. }
    apply Z.mul_le_mono_nonneg_l; [apply Z.pow_nonneg; lia|].
    apply Z.mul_le_mono_nonneg_r; [apply Z.pow_nonneg; lia|tauto]. }
  set (e1 := if snum p e0 <? 2 ^ (prec - 1) * sden q e0 then e0 - 1 else e0).
  assert (H1 : snum p e1 < 2 ^ prec * sden q e1).
  { subst e1. case_match; [|done]. bool_arith.
    pose proof (snum_sden_shift p q (e0 - 1) 1 ltac:(lia)) as Hs.
    replace (e0 - 1 + 1) with e0 in Hs by lia.
    pose proof (sden_pos q e0 Hq). pose proof (sden_pos q (e0 - 1) Hq).
    change (2 ^ prec) with (2 * 2 ^ (prec - 1)).
    set (M := 2 ^ (prec - 1)) in *. clearbody M. change (2 ^ 1) with 2 in Hs. nia. }
  destruct (Z.max_spec emin e1) as [[? ->]|[? ->]]; [done|].
  pose proof (snum_sden_shift p q e1 (emin - e1) ltac:(lia)) as Hs.
  replace (e1 + (emin - e1)) with emin in Hs by lia.
  pose proof (pow2_pos (emin - e1) ltac:(lia)).
  eapply cross_lt; [exact Hs|exact H1|auto with cascade..|lia].
Qed.

Lemma fexp_lower p q : 0 < p -> 0 < q -> emin < fexp p q ->
  2 ^ (prec - 1) * sden q (fexp p q) <= snum p (fexp p q).
Proof.
  intros Hp Hq. unfold fexp. set (e0 := Z.log2 p - Z.log2 q - (prec - 1)).
  case_match eqn:Hc; intros Hm; bool_arith.
  - rewrite Z.max_r in * by lia.
    unfold snum, sden.
    pose proof (Z.log2_spec p Hp). pose proof (Z.log2_spec q Hq).
    pose proof (Z.log2_nonneg p). pose proof (Z.log2_nonneg q).
    apply Z.le_trans with (2 ^ (prec - 1) * (2 ^ Z.succ (Z.log2 q) * 2 ^ Z.max 0 (e0 - 1))).
    { apply Z.mul_le_mono_nonneg_l; [apply Z.pow_nonneg; lia|].
      apply Z.mul_le_mono_nonneg_r; [apply Z.pow_nonneg; lia|lia]. }
    apply Z.le_trans with (2 ^ Z.log2 p * 2 ^ Z.max 0 (- (e0 - 1))).
    { rewrite <- !Z.pow_add_r by (unfold prec; lia). apply Z.pow_le_mono_r; [lia|].
      subst e0. unfold prec. lia. }
    apply Z.mul_le_mono_nonneg_r; [apply Z.pow_nonneg; lia|tauto].
  - rewrite Z.max_r in * by lia. lia.
Qed.

(** ** Dyadic values *)

Lemma dyadic_mono m m' e : m <= m' -> (dyadic m e <= dyadic m' e)%Q.
Proof.
  intros. unfold dyadic. case_match; bool_arith; unfold Qle; simpl.
  - pose proof (pow2_pos e). nia.
  - nia.
Qed.

Lemma dyadic_shift m e k : 0 <= k -> (dyadic m (e + k) == dyadic (m * 2 ^ k) e)%Q.
Proof.
  intros. unfold dyadic, Qeq.
  destruct (0 <=? e) eqn:He; bool_arith; destruct (0 <=? e + k) eqn:Hek; bool_arith; simpl; try lia.
  - rewrite Z.pow_add_r by lia. ring.
  - rewrite Z2Pos.id by (apply pow2_pos; lia).
    rewrite <- !Z.mul_assoc, <- Z.pow_add_r by lia. rewrite Z.mul_1_r. do 2 f_equal. lia.
  - rewrite !Z2Pos.id by (apply pow2_pos; lia).
    rewrite <- Z.mul_assoc, <- Z.pow_add_r by lia. do 2 f_equal. lia.
Qed.

Lemma dyadic_le m e m' e' :
  e <= e' -> m <= m' * 2 ^ (e' - e) -> (dyadic m e <= dyadic m' e')%Q.
Proof.
  intros. replace e' with (e + (e' - e)) by lia.
  rewrite dyadic_shift by lia. by apply dyadic_mono.
Qed.

(** ** Monotonicity of rounding *)

Lemma snum_sden_mono p q p' q' e :
  0 <= p -> 0 < q -> 0 <= p' -> 0 < q' -> p * q' <= p' * q -> snum p e * sden q' e <= snum p' e * sden q e.
Proof.
  intros. unfold snum, sden.
  pose proof (pow2_pos (Z.max 0 (- e)) ltac:(lia)). pose proof (pow2_pos (Z.max 0 e) ltac:(lia)).
  replace (p * 2 ^ Z.max 0 (- e) * (q' * 2 ^ Z.max 0 e))
    with (p * q' * (2 ^ Z.max 0 (- e) * 2 ^ Z.max 0 e)) by ring.
  replace (p' * 2 ^ Z.max 0 (- e) * (q * 2 ^ Z.max 0 e))
    with (p' * q * (2 ^ Z.max 0 (- e) * 2 ^ Z.max 0 e)) by ring.
  apply Z.mul_le_mono_nonneg_r; nia.
Qed.

Lemma fexp_mono p q p' q' :
  0 < p -> 0 < q -> 0 < p' -> 0 < q' -> p * q' <= p' * q -> fexp p q <= fexp p' q'.
Proof.
  intros Hp Hq Hp' Hq' Hle. destruct (Z.le_gt_cases (fexp p q) (fexp p' q')) as [|Hgt]; [done|].
  exfalso. set (e := fexp p q) in *. set (e' := fexp p' q') in *.
  assert (emin <= e') by (unfold e', fexp; lia).
  pose proof (fexp_lower p q Hp Hq ltac:(fold e; lia)) as Hlo. fold e in Hlo.
  pose proof (fexp_upper p' q' Hp' Hq') as Hup. fold e' in Hup.
  pose proof (snum_sden_mono p q p' q' e ltac:(lia) Hq ltac:(lia) Hq' Hle) as Hm.
  pose proof (snum_sden_shift p' q' e' (e - e') ltac:(lia)) as Hs.
  replace (e' + (e - e')) with e in Hs by lia.
  pose proof (sden_pos q e Hq). pose proof (sden_pos q' e Hq'). pose proof (sden_pos q' e' Hq').
  pose proof (snum_pos p' e Hp'). pose proof (snum_pos p' e' Hp').
  assert (Hk : 1 <= 2 ^ (e - e' - 1)) by (pose proof (pow2_pos (e - e' - 1)); lia).
  replace (2 ^ (e - e')) with (2 * 2 ^ (e - e' - 1)) in Hs
    by (rewrite <- Z.pow_succ_r by lia; f_equal; lia).
  change (2 ^ prec) with (2 * 2 ^ (prec - 1)) in Hup.
  set (M := 2 ^ (prec - 1)) in *. clearbody M. set (K := 2 ^ (e - e' - 1)) in *. clearbody K.
  assert (Hge : M * sden q' e <= snum p' e).
  { apply (Z.mul_le_mono_pos_r _ _ (sden q e)); [done|].
    apply Z.le_trans with (snum p e * sden q' e); [|done].
    replace (M * sden q' e * sden q e) with (M * sden q e * sden q' e) by ring.
    apply Z.mul_le_mono_nonneg_r; lia. }
  assert (2 * snum p' e < 2 * M * sden q' e); [|lia].
  eapply (cross_lt _ _ (sden q' e') (sden q' e) K); [|exact Hup|lia..].
  rewrite Hs. ring.
Qed.

Lemma rnd_pos_mono p q p' q' :
  0 < p -> 0 < q -> 0 < p' -> 0 < q' -> p * q' <= p' * q -> (rnd_pos p q <= rnd_pos p' q')%Q.
Proof.
  intros Hp Hq Hp' Hq' Hle. unfold rnd_pos.
  pose proof (fexp_mono _ _ _ _ Hp Hq Hp' Hq' Hle) as He.
  destruct (Z.eq_dec (fexp p q) (fexp p' q')) as [Heq|Hne].
  - rewrite <- Heq. apply dyadic_mono, rne_mono; auto using Z.lt_le_incl with cascade.
    apply snum_sden_mono; lia.
  - set (e := fexp p q) in *. set (e' := fexp p' q') in *.
    assert (emin <= e) by (unfold e, fexp; lia).
    pose proof (fexp_lower p' q' Hp' Hq' ltac:(fold e'; lia)) as Hlo. fold e' in Hlo.
    pose proof (fexp_upper p q Hp Hq) as Hup. fold e in Hup.
    assert (0 < 2 ^ prec) by (apply pow2_pos; unfold prec; lia).
    assert (0 < 2 ^ (prec - 1)) by (apply pow2_pos; unfold prec; lia).
    pose proof (snum_pos p e Hp). pose proof (sden_pos q e Hq).
    pose proof (snum_pos p' e' Hp'). pose proof (sden_pos q' e' Hq').
    apply dyadic_le; [lia|].
    apply Z.le_trans with (2 ^ prec); [apply rne_le; lia|].
    apply Z.le_trans with (2 ^ (prec - 1) * 2 ^ (e' - e)).
    + rewrite <- Z.pow_add_r by (unfold prec; lia). apply Z.pow_le_mono_r; lia.
    + apply Z.mul_le_mono_nonneg_r; [apply Z.pow_nonneg; lia|]. apply rne_ge; lia.
Qed.

Lemma rnd_pos_nonneg p q : 0 < p -> 0 < q -> (0 <= rnd_pos p q)%Q.
Proof.
  intros. unfold rnd_pos, dyadic.
  assert (0 <= rne (snum p (fexp p q)) (sden q (fexp p q))).
  { pose proof (snum_pos p (fexp p q)). pose proof (sden_pos q (fexp p q)).
    apply rne_ge; lia. }
  case_match; unfold Qle; simpl; [pose proof (pow2_pos (fexp p q)); nia|nia].
Qed.

Lemma rnd_nonneg x : (0 <= x)%Q -> (0 <= rnd x)%Q.
Proof.
  unfold Qle. simpl. intros Hx. unfold rnd. destruct (Qnum x) eqn:E; [done| |lia].
  apply rnd_pos_nonneg; lia.
Qed.

(** Rounding preserves the order of non-negative values. *)
Lemma rnd_mono x y : (0 <= x)%Q -> (x <= y)%Q -> (rnd x <= rnd y)%Q.
Proof.
  intros Hx Hxy. unfold Qle in Hx, Hxy. simpl in Hx.
  destruct (Qnum x) as [|px|px] eqn:Ex; [| |lia].
  - unfold rnd at 1. rewrite Ex. apply rnd_nonneg. unfold Qle. simpl in *. lia.
  - unfold rnd. rewrite Ex. destruct (Qnum y) as [|py|py] eqn:Ey; [nia| |nia].
    apply rnd_pos_mono; lia.
Qed.

(** ** Exactness on 53-bit integers *)

Lemma rnd_of_int n : 0 <= n < 2 ^ prec -> (of_int n == n # 1)%Q.
Proof.
  intros [Hn Hlt]. unfold of_int, rnd. simpl. destruct n as [|p|p]; [done| |lia].
  unfold rnd_pos.
  assert (He : fexp (Zpos p) 1 <= 0).
  { unfold fexp. change (Z.log2 1) with 0.
    assert (Z.log2 (Zpos p) < prec) by (apply Z.log2_lt_pow2; lia).
    unfold prec, emin in *. case_match; lia. }
  set (e := fexp (Zpos p) 1) in *.
  assert (Hs : sden 1 e = 1) by (unfold sden; rewrite Z.max_l by lia; reflexivity).
  rewrite Hs. rewrite <- (Z.mul_1_r (snum _ _)), rne_exact by lia.
  unfold snum. rewrite Z.max_r by lia.
  rewrite <- dyadic_shift by lia. replace (e + - e) with 0 by lia.
  unfold dyadic. simpl. by rewrite Z.mul_1_r.
Qed.

#[export] Instance rnd_proper : Proper (Qeq ==> Qeq) rnd.
Proof.
  intros x y Hxy.
  destruct (Qlt_le_dec x 0) as [Hneg|Hnn].
  - assert (Hy : (y < 0)%Q) by (by rewrite <- Hxy).
    unfold Qlt in Hneg, Hy. simpl in *. unfold rnd.
    unfold Qeq in Hxy.
    destruct (Qnum x) as [|px|px] eqn:Ex; [lia|lia|].
    destruct (Qnum y) as [|py|py] eqn:Ey; [lia|lia|].
    apply Qopp_comp. simpl. apply Qle_antisym; apply rnd_pos_mono; lia.
  - assert (Hy : (0 <= y)%Q) by (by rewrite <- Hxy).
    apply Qle_antisym; apply rnd_mono; auto; rewrite Hxy; apply Qle_refl.
Qed.

Lemma to_int_mono x y : (0 <= x)%Q -> (x <= y)%Q -> to_int x <= to_int y.
Proof.
  unfold Qle, to_int. simpl. intros Hx Hxy.
  rewrite !Z.quot_div_nonneg by nia. apply Z.div_le_lower_bound; [lia|].
  pose proof (Z.mul_div_le (Qnum x) (Zpos (Qden x)) ltac:(lia)). nia.
Qed.

Lemma to_int_nonneg x : (0 <= x)%Q -> 0 <= to_int x.
Proof. intros. change 0 with (to_int 0). by apply to_int_mono. Qed.

Lemma to_int_int n : 0 <= n -> to_int (n # 1) = n.
Proof. intros. unfold to_int. simpl. by rewrite Z.quot_1_r. Qed.

(** ** The fraction of a segment

    [int(float64(n) * (float64(a) / float64(b)))], the expression text
    trimming uses, never exceeds [n] and grows with [a]. *)
Definition scale (n a b : Z) : Z := to_int (fmul (of_int n) (fdiv (of_int a) (of_int b))).

Section scale.
Variables (n b : Z).
Hypotheses (Hn : 0 <= n < 2 ^ prec) (Hb : 0 < b < 2 ^ prec).

Lemma fdiv_frac a : 0 <= a <= b -> (0 <= fdiv (of_int a) (of_int b) <= 1)%Q.
Proof.
  intros Ha. unfold fdiv.
  assert (Hq : (of_int a / of_int b == a # Z.to_pos b)%Q).
  { rewrite !rnd_of_int by lia. unfold Qeq, Qdiv, Qinv, Qmult. simpl.
    destruct b; simpl; lia. }
  rewrite Hq. split.
  - apply rnd_nonneg. unfold Qle. simpl. lia.
  - apply Qle_trans with (rnd (1 # 1)).
    + apply rnd_mono; unfold Qle; simpl; [lia|]. rewrite Z2Pos.id by lia. lia.
    + pose proof (rnd_of_int 1) as H1. unfold of_int in H1. rewrite H1; [apply Qle_refl|].
      unfold prec. lia.
Qed.

Lemma fdiv_frac_mono a a' : 0 <= a -> a <= a' -> a' <= b ->
  (fdiv (of_int a) (of_int b) <= fdiv (of_int a') (of_int b))%Q.
Proof.
  intros. unfold fdiv. apply rnd_mono.
  - rewrite !rnd_of_int by lia. apply Qle_shift_div_l; unfold Qlt, Qle; simpl; lia.
  - rewrite !rnd_of_int by lia. apply Qle_shift_div_l; [unfold Qlt; simpl; lia|].
    unfold Qdiv. rewrite <- Qmult_assoc, (Qmult_comm (/ _)), Qmult_inv_r, Qmult_1_r.
    + unfold Qle. simpl. lia.
    + unfold Qeq. simpl. lia.
Qed.

Lemma scale_bounds a : 0 <= a <= b -> 0 <= scale n a b <= n.
Proof.
  intros Ha. pose proof (fdiv_frac a Ha) as [Hf0 Hf1]. unfold scale, fmul.
  assert (Hm : (0 <= of_int n * fdiv (of_int a) (of_int b))%Q).
  { apply Qmult_le_0_compat; [|done]. rewrite rnd_of_int by lia. unfold Qle. simpl. lia. }
  split; [by apply to_int_nonneg, rnd_nonneg|].
  rewrite <- (to_int_int n) at 2 by lia.
  apply to_int_mono; [by apply rnd_nonneg|].
  apply Qle_trans with (of_int n); [|rewrite rnd_of_int by lia; apply Qle_refl].
  apply rnd_mono; [done|]. rewrite rnd_of_int by lia.
  rewrite <- (Qmult_1_r (n # 1)) at 2. rewrite !(Qmult_comm (n # 1)).
  apply Qmult_le_compat_r; [done|]. unfold Qle. simpl. lia.
Qed.

Lemma scale_mono a a' : 0 <= a -> a <= a' -> a' <= b -> scale n a b <= scale n a' b.
Proof.
  intros. pose proof (fdiv_frac a ltac:(lia)) as [? ?]. unfold scale, fmul.
  assert (Hn0 : (0 <= of_int n)%Q) by (rewrite rnd_of_int by lia; unfold Qle; simpl; lia).
  assert (0 <= of_int n * fdiv (of_int a) (of_int b))%Q by (by apply Qmult_le_0_compat).
  apply to_int_mono; [by apply rnd_nonneg|]. apply rnd_mono; [done|].
  rewrite !(Qmult_comm (of_int n)). apply Qmult_le_compat_r; [|done].
  by apply fdiv_frac_mono.
Qed.
End scale.

(** ** Decimal literals *)

Definition digit (c : Ascii.ascii) : option Z :=
  let n := Z.of_nat (nat_of_ascii c) in if (48 <=? n) && (n <=? 57) then Some (n - 48) else None.

(** A run of digits: its value, its length and what follows. *)
Fixpoint digits (s : string) (acc n : Z) : Z * Z * string :=
  match s with
  | String c s' => match digit c with Some d => digits s' (acc * 10 + d) (n + 1) | None => (acc, n, s) end
  | EmptyString => (acc, n, EmptyString)
  end.

(** The exact value of a JSON number literal. *)
Definition literal_value (lit : string) : Q :=
  let '(neg, s) := match lit with String "-" s => (true, s) | _ => (false, lit) end in
  let '(whole, _, s) := digits s 0 0 in
  let '(mant, frac, s) :=
    match s with String "." s => let '(v, n, s) := digits s whole 0 in (v, n, s) | _ => (whole, 0, s) end in
  let exp :=
    match s with
    | String _ (String "-" s) => - (digits s 0 0).1.1
    | String _ (String "+" s) => (digits s 0 0).1.1
    | String _ s => (digits s 0 0).1.1
    | EmptyString => 0
    end in
  let mant := if neg : bool then - mant else mant in
  let e := exp - frac in
  if 0 <=? e then (mant * 10 ^ e # 1)%Q else (mant # Z.to_pos (10 ^ (- e)))%Q.

(** [strconv.ParseFloat] of a JSON number; [None] is a range error. *)
Definition ParseFloat (lit : string) : option float64 :=
  let f := rnd (literal_value lit) in
  if fle ((2 ^ 1024) # 1)%Q f || fle f ((- 2 ^ 1024) # 1)%Q then None else Some f.
