(* ===== verification/Audio.v ===== *)
(** * PCM constants and conversions ([internal/audio])

    The single audio format of the gateway: 16-bit little-endian mono PCM at
    24 kHz. A PCM buffer is a list of byte values. *)

From S2P Require Export Prelude.

Definition SampleRate : Z := 24000.
Definition BytesPerSample : Z := 2.
Definition BytesPerMs : Z := SampleRate * BytesPerSample / 1000.

(** The argument may come from a client ([audio_end_ms]) or a configuration
    document, so the product wraps at 64 bits as Go's does. *)
Definition MsToBytes (ms : Z) : Z := i64 (ms * BytesPerMs).

Definition BytesToMs (n : Z) : Z := Z.quot n BytesPerMs.

Definition AlignDown (n : Z) : Z := n - Z.rem n BytesPerSample.

(** [int16] of an unsigned 16-bit value. *)
Definition int16 (z : Z) : Z := (z + 2 ^ 15) mod 2 ^ 16 - 2 ^ 15.
Definition uint16 (z : Z) : Z := z mod 2 ^ 16.

(** [None]: index out of range. *)
Definition Sample (pcm : list Z) (i : Z) : option Z :=
  if i <? 0 then None
  else
    b0 ← pcm !! Z.to_nat (i * BytesPerSample);
    b1 ← pcm !! Z.to_nat (i * BytesPerSample + 1);
    Some (int16 (Z.lor b0 (Z.shiftl b1 8))).

Definition PutSample (pcm : list Z) (i v : Z) : option (list Z) :=
  if (i <? 0) || (zlen pcm <? i * BytesPerSample + 2) then None
  else
    Some (<[Z.to_nat (i * BytesPerSample + 1) := Z.shiftr (uint16 v) 8]>
            (<[Z.to_nat (i * BytesPerSample) := Z.land (uint16 v) 255]> pcm)).

(** All samples of a buffer, as a loop over [Sample] reads them. *)
Fixpoint samples (pcm : list Z) : list Z :=
  match pcm with
  | b0 :: b1 :: rest => int16 (Z.lor b0 (Z.shiftl b1 8)) :: samples rest
  | _ => []
  end.

(** ** Conversions *)

Lemma BytesPerMs_eq : BytesPerMs = 48.
Proof. reflexivity. Qed.

Lemma MsToBytes_small ms : in_i64 (ms * 48) -> MsToBytes ms = ms * 48.
Proof. unfold MsToBytes. rewrite BytesPerMs_eq. apply i64_id. Qed.

Lemma BytesToMs_div n : 0 <= n -> BytesToMs n = n / 48.
Proof. intros. unfold BytesToMs. rewrite BytesPerMs_eq. apply Z.quot_div_nonneg; lia. Qed.

Lemma BytesToMs_bounds n : 0 <= n -> 48 * BytesToMs n <= n < 48 * BytesToMs n + 48.
Proof. intros. rewrite BytesToMs_div by done. pose proof (Z.div_mod n 48). pose proof (Z.mod_pos_bound n 48). lia. Qed.

Lemma BytesToMs_nonneg n : 0 <= n -> 0 <= BytesToMs n.
Proof. intros. pose proof (BytesToMs_bounds n). lia. Qed.

Lemma BytesToMs_mono n m : 0 <= n -> n <= m -> BytesToMs n <= BytesToMs m.
Proof. intros. rewrite !BytesToMs_div by lia. apply Z.div_le_mono; lia. Qed.

Lemma BytesToMs_exact ms : 0 <= ms -> BytesToMs (ms * 48) = ms.
Proof. intros. rewrite BytesToMs_div by lia. apply Z.div_mul. lia. Qed.

#[export] Hint Resolve BytesToMs_nonneg BytesToMs_mono : cascade.

(** Milliseconds to bytes and back is the identity wherever the byte count
    fits an [int]. *)
Lemma BytesToMs_MsToBytes ms : 0 <= ms -> ms * 48 < 2 ^ 63 -> BytesToMs (MsToBytes ms) = ms.
Proof. intros. rewrite MsToBytes_small by (unfold in_i64; lia). by apply BytesToMs_exact. Qed.

Lemma AlignDown_spec n : 0 <= n -> AlignDown n <= n < AlignDown n + 2 /\ Z.even (AlignDown n) = true.
Proof.
  intros. unfold AlignDown, BytesPerSample. rewrite Z.rem_mod_nonneg by lia.
  pose proof (Z.mod_pos_bound n 2). split; [lia|].
  rewrite Zmod_even. destruct (Z.even n) eqn:E; [by rewrite Z.sub_0_r|].
  rewrite Z.even_sub, E. done.
Qed.

(** ** Samples *)

Lemma samples_lookup pcm (i : nat) : samples pcm !! i = Sample pcm (Z.of_nat i).
Proof.
  revert i. assert (forall n pcm, (length pcm <= n)%nat -> forall i, samples pcm !! i = Sample pcm (Z.of_nat i)) as Hn;
    [|by intros; eapply Hn].
  clear pcm. unfold Sample, BytesPerSample. induction n as [|n IH]; intros pcm Hl i.
  - destruct pcm; [|simpl in Hl; lia]. simpl. case_match; [zlia|done].
  - destruct (Z.of_nat i <? 0) eqn:Hi; [zlia|].
    destruct pcm as [|b0 [|b1 rest]]; [done| |].
    + simpl. destruct i as [|i]; [done|].
      replace (Z.to_nat (Z.of_nat (S i) * 2)) with (S (S (2 * i))) by lia. done.
    + simpl. destruct i as [|i]; [done|].
      replace (Z.to_nat (Z.of_nat (S i) * 2)) with (S (S (2 * i))) by lia.
      replace (Z.to_nat (Z.of_nat (S i) * 2 + 1)) with (S (S (2 * i + 1))) by lia.
      simpl. rewrite IH by (simpl in Hl; lia).
      destruct (Z.of_nat i <? 0) eqn:Hi'; [zlia|].
      replace (Z.to_nat (Z.of_nat i * 2)) with (i + (i + 0))%nat by lia.
      replace (Z.to_nat (Z.of_nat i * 2 + 1)) with (i + (i + 0) + 1)%nat by lia. done.
Qed.

Lemma length_samples pcm : Z.of_nat (length (samples pcm)) = zlen pcm / 2.
Proof.
  assert (forall n pcm, (length pcm <= n)%nat -> Z.of_nat (length (samples pcm)) = zlen pcm / 2) as Hn;
    [|by intros; eapply Hn].
  clear pcm. induction n as [|n IH]; intros pcm Hl.
  - destruct pcm; [done|simpl in Hl; lia].
  - destruct pcm as [|b0 [|b1 rest]]; [done..|]. simpl length. simpl in Hl.
    rewrite Nat2Z.inj_succ, IH by lia. rewrite !zlen_cons.
    replace (1 + (1 + zlen rest)) with (zlen rest + 1 * 2) by lia. rewrite Z.div_add; lia.
Qed.

Lemma uint16_split v :
  Z.lor (Z.land (uint16 v) 255) (Z.shiftl (Z.shiftr (uint16 v) 8) 8) = uint16 v.
Proof.
  apply Z.bits_inj'. intros k Hk. rewrite Z.lor_spec, Z.land_spec, Z.shiftl_spec by done.
  change 255 with (Z.ones 8). destruct (Z.ltb_spec k 8).
  - rewrite Z.ones_spec_low by lia. rewrite (Z.testbit_neg_r _ (k - 8)) by lia. btauto.
  - rewrite Z.ones_spec_high by lia. rewrite Z.shiftr_spec by lia.
    replace (k - 8 + 8) with k by lia. btauto.
Qed.

Lemma int16_uint16 v : - 2 ^ 15 <= v < 2 ^ 15 -> int16 (uint16 v) = v.
Proof.
  intros. unfold int16, uint16. rewrite Zplus_mod_idemp_l.
  change (2 ^ 15) with 32768 in *. change (2 ^ 16) with 65536 in *. rewrite Z.mod_small; lia.
Qed.

(** Writing a sample and reading it back. *)
Lemma Sample_PutSample pcm i v pcm' :
  - 2 ^ 15 <= v < 2 ^ 15 -> PutSample pcm i v = Some pcm' -> Sample pcm' i = Some v.
Proof.
  unfold PutSample, Sample, BytesPerSample. intros Hv H.
  destruct (i <? 0) eqn:Hi; simpl in H; [done|].
  destruct (zlen pcm <? i * 2 + 2) eqn:Hl; [done|]. simplify_eq. bool_arith. unfold zlen in *.
  set (lo := Z.land _ _). set (hi := Z.shiftr _ _).
  rewrite (list_lookup_insert_eq _ (Z.to_nat (i * 2 + 1))) by (rewrite length_insert; lia).
  rewrite list_lookup_insert_ne by lia. rewrite list_lookup_insert_eq by lia. simpl.
  unfold lo, hi. by rewrite uint16_split, int16_uint16.
Qed.

(** Writing sample [i] leaves every other sample and the length alone. *)
Lemma PutSample_frame pcm i v pcm' j :
  PutSample pcm i v = Some pcm' -> i <> j -> Sample pcm' j = Sample pcm j.
Proof.
  unfold PutSample, Sample, BytesPerSample. intros H Hij.
  destruct ((i <? 0) || (zlen pcm <? i * 2 + 2)) eqn:Hc; [done|]. simplify_eq. bool_arith.
  destruct (j <? 0) eqn:Hj; [done|]. bool_arith.
  by rewrite !list_lookup_insert_ne by lia.
Qed.

Lemma PutSample_length pcm i v pcm' : PutSample pcm i v = Some pcm' -> zlen pcm' = zlen pcm.
Proof. unfold PutSample, zlen. case_match; [done|]. intros [= <-]. by rewrite !length_insert. Qed.

(** ** Main results *)

(** Samples round trip: a 16-bit sample written at an index reads back at
    that index with its sign, every other sample and the length are untouched,
    and the write succeeds exactly when the index lies in the buffer (Go's
    bounds check panics otherwise). *)
Theorem sample_roundtrip pcm i v : - 2 ^ 15 <= v < 2 ^ 15 ->
  match PutSample pcm i v with
  | Some pcm' =>
      Sample pcm' i = Some v /\ zlen pcm' = zlen pcm /\
      forall j, i <> j -> Sample pcm' j = Sample pcm j
  | None => i < 0 \/ zlen pcm < 2 * i + 2
  end.
Proof.
  intros Hv. destruct (PutSample pcm i v) as [pcm'|] eqn:Hp.
  - split; [by eapply Sample_PutSample|]. split; [by eapply PutSample_length|].
    intros j. by eapply PutSample_frame.
  - unfold PutSample in Hp. case_match; [|done].
    repeat match goal with H : (_ || _)%bool = true |- _ => apply orb_true_iff in H as [?|?] end; bool_arith;
      unfold BytesPerSample in *; lia.
Qed.

Lemma sample_roundtrip_witness : exists pcm', PutSample [0; 0; 0; 0] 1 (-2) = Some pcm' /\ Sample pcm' 1 = Some (-2).
Proof.
  exists [0; 0; 254; 255]. split; [reflexivity|].
  apply (sample_roundtrip [0; 0; 0; 0] 1 (-2)). lia.
Defined.

(** Durations round trip through byte counts, and byte counts through
    durations lose less than a millisecond: [BytesToMs (MsToBytes ms) = ms]
    as long as the byte count fits Go's [int], and [MsToBytes (BytesToMs n)]
    rounds [n] down to a whole millisecond, which keeps it sample aligned. *)
Theorem ms_bytes_roundtrip ms n : 0 <= ms -> ms * 48 < 2 ^ 63 -> 0 <= n < 2 ^ 63 ->
  BytesToMs (MsToBytes ms) = ms /\
  n - 48 < MsToBytes (BytesToMs n) <= n /\
  AlignDown (MsToBytes (BytesToMs n)) = MsToBytes (BytesToMs n).
Proof.
  intros. split; [by apply BytesToMs_MsToBytes|].
  pose proof (BytesToMs_bounds n) as Hb. pose proof (BytesToMs_nonneg n).
  rewrite MsToBytes_small by (unfold in_i64; lia). split; [lia|].
  unfold AlignDown, BytesPerSample. replace (BytesToMs n * 48) with (BytesToMs n * 24 * 2) by lia.
  rewrite Z.rem_mul by lia. lia.
Qed.

Lemma ms_bytes_roundtrip_witness : BytesToMs (MsToBytes 20) = 20 /\ MsToBytes (BytesToMs 1000) = 960.
Proof. split; [apply (ms_bytes_roundtrip 20 1000); lia|reflexivity]. Defined.
