(* ===== verification/Utf8.v ===== *)
(** * UTF-8 and the character classes the session code uses

    Go's [unicode/utf8] decoding on byte lists ([DecodeRune], [FullRune],
    [DecodeLastRune], conversion to and from [[]rune]) and [unicode.IsSpace],
    [unicode.IsLetter], [strings.TrimSpace].

    The facts shown are what text slicing needs: sizes, and that on valid
    UTF-8 a prefix of the runes re-encodes to a prefix of the bytes. *)

From S2P Require Export Prelude.

Definition RuneError : Z := 65533.
Definition RuneSelf : Z := 128.

(** A rune and its width in bytes. *)
Definition cont (b : Z) : bool := (128 <=? b) && (b <=? 191).

(** Sequence length announced by a first byte (1 for ASCII and for bytes that
    start nothing) and the accepted range of the second byte. *)
Definition first (b : Z) : Z * Z * Z :=
  if b <? 128 then (1, 128, 191)
  else if b <? 194 then (1, 128, 191)
  else if b <? 224 then (2, 128, 191)
  else if b =? 224 then (3, 160, 191)
  else if b =? 237 then (3, 128, 159)
  else if b <? 240 then (3, 128, 191)
  else if b =? 240 then (4, 144, 191)
  else if b <? 244 then (4, 128, 191)
  else if b =? 244 then (4, 128, 143)
  else (1, 128, 191).

Definition DecodeRune (p : list Z) : Z * Z :=
  match p with
  | [] => (RuneError, 0)
  | b0 :: p1 =>
      let '(sz, lo, hi) := first b0 in
      if b0 <? RuneSelf then (b0, 1)
      else if sz =? 1 then (RuneError, 1)
      else match p1 with
      | [] => (RuneError, 1)
      | b1 :: p2 =>
          if negb ((lo <=? b1) && (b1 <=? hi)) then (RuneError, 1)
          else if sz =? 2 then ((b0 - 192) * 64 + (b1 - 128), 2)
          else match p2 with
          | [] => (RuneError, 1)
          | b2 :: p3 =>
              if negb (cont b2) then (RuneError, 1)
              else if sz =? 3 then ((b0 - 224) * 4096 + (b1 - 128) * 64 + (b2 - 128), 3)
              else match p3 with
              | [] => (RuneError, 1)
              | b3 :: _ =>
                  if negb (cont b3) then (RuneError, 1)
                  else ((b0 - 240) * 262144 + (b1 - 128) * 4096 + (b2 - 128) * 64 + (b3 - 128), 4)
              end
          end
      end
  end.

(** Whether the bytes begin with a full encoding (an invalid one counts as a
    full width-1 error rune). *)
Definition FullRune (p : list Z) : bool :=
  match p with
  | [] => false
  | b0 :: p1 =>
      let '(sz, lo, hi) := first b0 in
      if sz <=? zlen p then true
      else match p1 with
      | [] => false
      | b1 :: p2 =>
          if negb ((lo <=? b1) && (b1 <=? hi)) then true
          else match p2 with
          | [] => false
          | b2 :: _ => negb (cont b2)
          end
      end
  end.

Definition RuneStart (b : Z) : bool := negb (cont b).

(** Offset of the last rune start within the last four bytes. *)
Fixpoint last_start (fuel : nat) (p : list Z) (start : Z) : Z :=
  match fuel with
  | O => start
  | S fuel =>
      if start <? 0 then start
      else match p !! Z.to_nat start with
      | Some b => if RuneStart b then start else last_start fuel p (start - 1)
      | None => start
      end
  end.

Definition DecodeLastRune (p : list Z) : Z * Z :=
  match last p with
  | None => (RuneError, 0)
  | Some r =>
      if r <? RuneSelf then (r, 1)
      else
        let e := zlen p in
        let start := Z.max 0 (last_start 3 p (e - 2)) in
        let '(r, size) := DecodeRune (drop (Z.to_nat start) p) in
        if negb (start + size =? e) then (RuneError, 1) else (r, size)
  end.

(** [[]rune(s)]; every rune is at least one byte wide, so the length of the
    bytes is fuel enough. *)
Fixpoint runes_loop (fuel : nat) (p : list Z) : list Z :=
  match fuel with
  | O => []
  | S fuel =>
      match p with
      | [] => []
      | _ => let '(r, size) := DecodeRune p in r :: runes_loop fuel (drop (Z.to_nat size) p)
      end
  end.

Definition runes (p : list Z) : list Z := runes_loop (length p) p.

Definition RuneCount (p : list Z) : Z := zlen (runes p).

(** Encoding; surrogates and out-of-range values become U+FFFD. *)
Definition encode_rune (r : Z) : list Z :=
  let enc r :=
    if r <? 128 then [r]
    else if r <? 2048 then [192 + r / 64; 128 + r mod 64]
    else if r <? 65536 then [224 + r / 4096; 128 + (r / 64) mod 64; 128 + r mod 64]
    else [240 + r / 262144; 128 + (r / 4096) mod 64; 128 + (r / 64) mod 64; 128 + r mod 64] in
  if (r <? 0) || (1114111 <? r) || ((55296 <=? r) && (r <=? 57343)) then enc RuneError else enc r.

(** [string(runes)]. *)
Definition encode (rs : list Z) : list Z := mjoin (map encode_rune rs).

(** ** Character classes *)

Definition IsSpace (r : Z) : bool :=
  bool_decide (r ∈ [9; 10; 11; 12; 13; 32; 133; 160; 5760; 8232; 8233; 8239; 8287; 12288])
  || ((8192 <=? r) && (r <=? 8202)).

(** Ranges of the Unicode 15.0 letter categories above ASCII. *)
Definition letter_ranges : list (Z * Z) := [
  (170, 170); (181, 181); (186, 186); (192, 214); (216, 246); (248, 705); (710, 721); (736, 740); (748, 748);
  (750, 750); (880, 884); (886, 887); (890, 893); (895, 895); (902, 902); (904, 906); (908, 908); (910, 929);
  (931, 1013); (1015, 1153); (1162, 1327); (1329, 1366); (1369, 1369); (1376, 1416); (1488, 1514);
  (1519, 1522); (1568, 1610); (1646, 1647); (1649, 1747); (1749, 1749); (1765, 1766); (1774, 1775);
  (1786, 1788); (1791, 1791); (1808, 1808); (1810, 1839); (1869, 1957); (1969, 1969); (1994, 2026);
  (2036, 2037); (2042, 2042); (2048, 2069); (2074, 2074); (2084, 2084); (2088, 2088); (2112, 2136);
  (2144, 2154); (2160, 2183); (2185, 2190); (2208, 2249); (2308, 2361); (2365, 2365); (2384, 2384);
  (2392, 2401); (2417, 2432); (2437, 2444); (2447, 2448); (2451, 2472); (2474, 2480); (2482, 2482);
  (2486, 2489); (2493, 2493); (2510, 2510); (2524, 2525); (2527, 2529); (2544, 2545); (2556, 2556);
  (2565, 2570); (2575, 2576); (2579, 2600); (2602, 2608); (2610, 2611); (2613, 2614); (2616, 2617);
  (2649, 2652); (2654, 2654); (2674, 2676); (2693, 2701); (2703, 2705); (2707, 2728); (2730, 2736);
  (2738, 2739); (2741, 2745); (2749, 2749); (2768, 2768); (2784, 2785); (2809, 2809); (2821, 2828);
  (2831, 2832); (2835, 2856); (2858, 2864); (2866, 2867); (2869, 2873); (2877, 2877); (2908, 2909);
  (2911, 2913); (2929, 2929); (2947, 2947); (2949, 2954); (2958, 2960); (2962, 2965); (2969, 2970);
  (2972, 2972); (2974, 2975); (2979, 2980); (2984, 2986); (2990, 3001); (3024, 3024); (3077, 3084);
  (3086, 3088); (3090, 3112); (3114, 3129); (3133, 3133); (3160, 3162); (3165, 3165); (3168, 3169);
  (3200, 3200); (3205, 3212); (3214, 3216); (3218, 3240); (3242, 3251); (3253, 3257); (3261, 3261);
  (3293, 3294); (3296, 3297); (3313, 3314); (3332, 3340); (3342, 3344); (3346, 3386); (3389, 3389);
  (3406, 3406); (3412, 3414); (3423, 3425); (3450, 3455); (3461, 3478); (3482, 3505); (3507, 3515);
  (3517, 3517); (3520, 3526); (3585, 3632); (3634, 3635); (3648, 3654); (3713, 3714); (3716, 3716);
  (3718, 3722); (3724, 3747); (3749, 3749); (3751, 3760); (3762, 3763); (3773, 3773); (3776, 3780);
  (3782, 3782); (3804, 3807); (3840, 3840); (3904, 3911); (3913, 3948); (3976, 3980); (4096, 4138);
  (4159, 4159); (4176, 4181); (4186, 4189); (4193, 4193); (4197, 4198); (4206, 4208); (4213, 4225);
  (4238, 4238); (4256, 4293); (4295, 4295); (4301, 4301); (4304, 4346); (4348, 4680); (4682, 4685);
  (4688, 4694); (4696, 4696); (4698, 4701); (4704, 4744); (4746, 4749); (4752, 4784); (4786, 4789);
  (4792, 4798); (4800, 4800); (4802, 4805); (4808, 4822); (4824, 4880); (4882, 4885); (4888, 4954);
  (4992, 5007); (5024, 5109); (5112, 5117); (5121, 5740); (5743, 5759); (5761, 5786); (5792, 5866);
  (5873, 5880); (5888, 5905); (5919, 5937); (5952, 5969); (5984, 5996); (5998, 6000); (6016, 6067);
  (6103, 6103); (6108, 6108); (6176, 6264); (6272, 6276); (6279, 6312); (6314, 6314); (6320, 6389);
  (6400, 6430); (6480, 6509); (6512, 6516); (6528, 6571); (6576, 6601); (6656, 6678); (6688, 6740);
  (6823, 6823); (6917, 6963); (6981, 6988); (7043, 7072); (7086, 7087); (7098, 7141); (7168, 7203);
  (7245, 7247); (7258, 7293); (7296, 7304); (7312, 7354); (7357, 7359); (7401, 7404); (7406, 7411);
  (7413, 7414); (7418, 7418); (7424, 7615); (7680, 7957); (7960, 7965); (7968, 8005); (8008, 8013);
  (8016, 8023); (8025, 8025); (8027, 8027); (8029, 8029); (8031, 8061); (8064, 8116); (8118, 8124);
  (8126, 8126); (8130, 8132); (8134, 8140); (8144, 8147); (8150, 8155); (8160, 8172); (8178, 8180);
  (8182, 8188); (8305, 8305); (8319, 8319); (8336, 8348); (8450, 8450); (8455, 8455); (8458, 8467);
  (8469, 8469); (8473, 8477); (8484, 8484); (8486, 8486); (8488, 8488); (8490, 8493); (8495, 8505);
  (8508, 8511); (8517, 8521); (8526, 8526); (8579, 8580); (11264, 11492); (11499, 11502); (11506, 11507);
  (11520, 11557); (11559, 11559); (11565, 11565); (11568, 11623); (11631, 11631); (11648, 11670);
  (11680, 11686); (11688, 11694); (11696, 11702); (11704, 11710); (11712, 11718); (11720, 11726);
  (11728, 11734); (11736, 11742); (11823, 11823); (12293, 12294); (12337, 12341); (12347, 12348);
  (12353, 12438); (12445, 12447); (12449, 12538); (12540, 12543); (12549, 12591); (12593, 12686);
  (12704, 12735); (12784, 12799); (13312, 19903); (19968, 42124); (42192, 42237); (42240, 42508);
  (42512, 42527); (42538, 42539); (42560, 42606); (42623, 42653); (42656, 42725); (42775, 42783);
  (42786, 42888); (42891, 42954); (42960, 42961); (42963, 42963); (42965, 42969); (42994, 43009);
  (43011, 43013); (43015, 43018); (43020, 43042); (43072, 43123); (43138, 43187); (43250, 43255);
  (43259, 43259); (43261, 43262); (43274, 43301); (43312, 43334); (43360, 43388); (43396, 43442);
  (43471, 43471); (43488, 43492); (43494, 43503); (43514, 43518); (43520, 43560); (43584, 43586);
  (43588, 43595); (43616, 43638); (43642, 43642); (43646, 43695); (43697, 43697); (43701, 43702);
  (43705, 43709); (43712, 43712); (43714, 43714); (43739, 43741); (43744, 43754); (43762, 43764);
  (43777, 43782); (43785, 43790); (43793, 43798); (43808, 43814); (43816, 43822); (43824, 43866);
  (43868, 43881); (43888, 44002); (44032, 55203); (55216, 55238); (55243, 55291); (63744, 64109);
  (64112, 64217); (64256, 64262); (64275, 64279); (64285, 64285); (64287, 64296); (64298, 64310);
  (64312, 64316); (64318, 64318); (64320, 64321); (64323, 64324); (64326, 64433); (64467, 64829);
  (64848, 64911); (64914, 64967); (65008, 65019); (65136, 65140); (65142, 65276); (65313, 65338);
  (65345, 65370); (65382, 65470); (65474, 65479); (65482, 65487); (65490, 65495); (65498, 65500);
  (65536, 65547); (65549, 65574); (65576, 65594); (65596, 65597); (65599, 65613); (65616, 65629);
  (65664, 65786); (66176, 66204); (66208, 66256); (66304, 66335); (66349, 66368); (66370, 66377);
  (66384, 66421); (66432, 66461); (66464, 66499); (66504, 66511); (66560, 66717); (66736, 66771);
  (66776, 66811); (66816, 66855); (66864, 66915); (66928, 66938); (66940, 66954); (66956, 66962);
  (66964, 66965); (66967, 66977); (66979, 66993); (66995, 67001); (67003, 67004); (67072, 67382);
  (67392, 67413); (67424, 67431); (67456, 67461); (67463, 67504); (67506, 67514); (67584, 67589);
  (67592, 67592); (67594, 67637); (67639, 67640); (67644, 67644); (67647, 67669); (67680, 67702);
  (67712, 67742); (67808, 67826); (67828, 67829); (67840, 67861); (67872, 67897); (67968, 68023);
  (68030, 68031); (68096, 68096); (68112, 68115); (68117, 68119); (68121, 68149); (68192, 68220);
  (68224, 68252); (68288, 68295); (68297, 68324); (68352, 68405); (68416, 68437); (68448, 68466);
  (68480, 68497); (68608, 68680); (68736, 68786); (68800, 68850); (68864, 68899); (69248, 69289);
  (69296, 69297); (69376, 69404); (69415, 69415); (69424, 69445); (69488, 69505); (69552, 69572);
  (69600, 69622); (69635, 69687); (69745, 69746); (69749, 69749); (69763, 69807); (69840, 69864);
  (69891, 69926); (69956, 69956); (69959, 69959); (69968, 70002); (70006, 70006); (70019, 70066);
  (70081, 70084); (70106, 70106); (70108, 70108); (70144, 70161); (70163, 70187); (70207, 70208);
  (70272, 70278); (70280, 70280); (70282, 70285); (70287, 70301); (70303, 70312); (70320, 70366);
  (70405, 70412); (70415, 70416); (70419, 70440); (70442, 70448); (70450, 70451); (70453, 70457);
  (70461, 70461); (70480, 70480); (70493, 70497); (70656, 70708); (70727, 70730); (70751, 70753);
  (70784, 70831); (70852, 70853); (70855, 70855); (71040, 71086); (71128, 71131); (71168, 71215);
  (71236, 71236); (71296, 71338); (71352, 71352); (71424, 71450); (71488, 71494); (71680, 71723);
  (71840, 71903); (71935, 71942); (71945, 71945); (71948, 71955); (71957, 71958); (71960, 71983);
  (71999, 71999); (72001, 72001); (72096, 72103); (72106, 72144); (72161, 72161); (72163, 72163);
  (72192, 72192); (72203, 72242); (72250, 72250); (72272, 72272); (72284, 72329); (72349, 72349);
  (72368, 72440); (72704, 72712); (72714, 72750); (72768, 72768); (72818, 72847); (72960, 72966);
  (72968, 72969); (72971, 73008); (73030, 73030); (73056, 73061); (73063, 73064); (73066, 73097);
  (73112, 73112); (73440, 73458); (73474, 73474); (73476, 73488); (73490, 73523); (73648, 73648);
  (73728, 74649); (74880, 75075); (77712, 77808); (77824, 78895); (78913, 78918); (82944, 83526);
  (92160, 92728); (92736, 92766); (92784, 92862); (92880, 92909); (92928, 92975); (92992, 92995);
  (93027, 93047); (93053, 93071); (93760, 93823); (93952, 94026); (94032, 94032); (94099, 94111);
  (94176, 94177); (94179, 94179); (94208, 100343); (100352, 101589); (101632, 101640); (110576, 110579);
  (110581, 110587); (110589, 110590); (110592, 110882); (110898, 110898); (110928, 110930); (110933, 110933);
  (110948, 110951); (110960, 111355); (113664, 113770); (113776, 113788); (113792, 113800); (113808, 113817);
  (119808, 119892); (119894, 119964); (119966, 119967); (119970, 119970); (119973, 119974); (119977, 119980);
  (119982, 119993); (119995, 119995); (119997, 120003); (120005, 120069); (120071, 120074); (120077, 120084);
  (120086, 120092); (120094, 120121); (120123, 120126); (120128, 120132); (120134, 120134); (120138, 120144);
  (120146, 120485); (120488, 120512); (120514, 120538); (120540, 120570); (120572, 120596); (120598, 120628);
  (120630, 120654); (120656, 120686); (120688, 120712); (120714, 120744); (120746, 120770); (120772, 120779);
  (122624, 122654); (122661, 122666); (122928, 122989); (123136, 123180); (123191, 123197); (123214, 123214);
  (123536, 123565); (123584, 123627); (124112, 124139); (124896, 124902); (124904, 124907); (124909, 124910);
  (124912, 124926); (124928, 125124); (125184, 125251); (125259, 125259); (126464, 126467); (126469, 126495);
  (126497, 126498); (126500, 126500); (126503, 126503); (126505, 126514); (126516, 126519); (126521, 126521);
  (126523, 126523); (126530, 126530); (126535, 126535); (126537, 126537); (126539, 126539); (126541, 126543);
  (126545, 126546); (126548, 126548); (126551, 126551); (126553, 126553); (126555, 126555); (126557, 126557);
  (126559, 126559); (126561, 126562); (126564, 126564); (126567, 126570); (126572, 126578); (126580, 126583);
  (126585, 126588); (126590, 126590); (126592, 126601); (126603, 126619); (126625, 126627); (126629, 126633);
  (126635, 126651); (131072, 173791); (173824, 177976); (177984, 178205); (178208, 183969); (183984, 191456);
  (194560, 195101); (196608, 201546); (201552, 205743)].

Definition IsLetter (r : Z) : bool :=
  ((65 <=? r) && (r <=? 90)) || ((97 <=? r) && (r <=? 122))
  || existsb (fun '(lo, hi) => (lo <=? r) && (r <=? hi)) letter_ranges.

(** ** Trimming *)

Fixpoint trim_right_loop (fuel : nat) (f : Z -> bool) (p : list Z) : list Z :=
  match fuel with
  | O => p
  | S fuel =>
      let '(r, size) := DecodeLastRune p in
      if (0 <? size) && f r then trim_right_loop fuel f (take (Z.to_nat (zlen p - size)) p) else p
  end.

(** [strings.TrimRightFunc]. *)
Definition TrimRightFunc (f : Z -> bool) (p : list Z) : list Z := trim_right_loop (length p) f p.

Fixpoint trim_left_loop (fuel : nat) (f : Z -> bool) (p : list Z) : list Z :=
  match fuel with
  | O => p
  | S fuel =>
      let '(r, size) := DecodeRune p in
      if (0 <? size) && f r then trim_left_loop fuel f (drop (Z.to_nat size) p) else p
  end.

(** [strings.TrimSpace]. *)
Definition TrimSpace_bytes (p : list Z) : list Z :=
  TrimRightFunc IsSpace (trim_left_loop (length p) IsSpace p).

Definition TrimSpace (s : string) : string := string_of (TrimSpace_bytes (bytes_of s)).

(** ** Sizes *)

#[global] Arguments DecodeRune : simpl never.

Definition byte_range (b : Z) : Prop := 0 <= b < 256.

Lemma DecodeRune_size p : p <> [] -> 1 <= (DecodeRune p).2 <= zlen p.
Proof.
  destruct p as [|b0 p1]; [done|]. intros _. pose proof (zlen_nonneg p1).
  unfold DecodeRune. destruct (first b0) as [[sz lo] hi].
  repeat case_match; subst; simpl; rewrite ?zlen_cons; repeat match goal with
    | |- context [zlen ?l] => lazymatch goal with H : 0 <= zlen l |- _ => fail | _ => pose proof (zlen_nonneg l) end
    end; lia.
Qed.

Lemma DecodeRune_size_cons b p : 1 <= (DecodeRune (b :: p)).2 <= 1 + zlen p.
Proof. rewrite <- (zlen_cons b). by apply DecodeRune_size. Qed.

Lemma DecodeLastRune_size p : p <> [] -> 1 <= (DecodeLastRune p).2 <= zlen p.
Proof.
  intros Hp. unfold DecodeLastRune. destruct (last p) as [b|] eqn:Hl; [|by apply last_None in Hl].
  assert (1 <= zlen p) by (destruct p; [done|]; rewrite zlen_cons; pose proof (zlen_nonneg p); lia).
  case_match; [simpl; lia|]. set (start := Z.max 0 _).
  destruct (DecodeRune _) as [r size] eqn:Hd. case_match eqn:Hc; [simpl; lia|].
  apply negb_false_iff, Z.eqb_eq in Hc. simpl. split; [|lia].
  destruct (drop (Z.to_nat start) p) as [|b0 q] eqn:Hdr.
  - injection Hd as <- <-.
    assert (length (drop (Z.to_nat start) p) = 0%nat) as Hz by (by rewrite Hdr).
    rewrite length_drop in Hz. unfold zlen in *.
    assert (start <= Z.of_nat (length p) - 1); [|lia].
    assert (Hls : forall n s, s <= zlen p - 1 -> last_start n p s <= zlen p - 1).
    { induction n as [|n IH]; intros s Hs; simpl; repeat case_match; try done. apply IH. lia. }
    unfold start. apply Z.max_lub; [lia|]. apply Hls. unfold zlen. lia.
  - pose proof (DecodeRune_size_cons b0 q) as Hs. rewrite Hd in Hs. simpl in Hs. lia.
Qed.

Lemma runes_loop_fuel n m p :
  (length p <= n)%nat -> (length p <= m)%nat -> runes_loop n p = runes_loop m p.
Proof.
  revert m p. induction n as [|n IH]; intros m p Hn Hm.
  - destruct p; [|simpl in Hn; lia]. by destruct m.
  - destruct m as [|m]; [destruct p; [done|simpl in Hm; lia]|].
    destruct p as [|b p]; [done|]. cbn [runes_loop].
    pose proof (DecodeRune_size_cons b p) as Hs.
    destruct (DecodeRune (b :: p)) as [r size]. simpl in Hs, Hn, Hm.
    f_equal. apply IH; rewrite length_drop; simpl length; lia.
Qed.

Lemma runes_cons p : p <> [] ->
  runes p = (DecodeRune p).1 :: runes (drop (Z.to_nat (DecodeRune p).2) p).
Proof.
  intros Hp. unfold runes. destruct p as [|b p]; [done|].
  pose proof (DecodeRune_size_cons b p) as Hs.
  cbn [length runes_loop]. destruct (DecodeRune (b :: p)) as [r size]. simpl in Hs. simpl fst. simpl snd.
  f_equal. apply runes_loop_fuel; [|done]. rewrite length_drop. simpl length. lia.
Qed.

Lemma runes_length p : (length (runes p) <= length p)%nat.
Proof.
  remember (length p) as n eqn:Hn. revert p Hn.
  induction n as [n IH] using lt_wf_ind. intros p ->.
  destruct p as [|b p]; [done|]. rewrite runes_cons by done.
  pose proof (DecodeRune_size_cons b p) as Hs. simpl.
  set (size := (DecodeRune (b :: p)).2) in *.
  assert (Hl : length (drop (Z.to_nat size) (b :: p)) = (S (length p) - Z.to_nat size)%nat) by (by rewrite length_drop).
  specialize (IH (length (drop (Z.to_nat size) (b :: p))) ltac:(rewrite Hl; simpl; lia) _ eq_refl).
  lia.
Qed.

(** ** Valid UTF-8 *)

(** No decoding step reports a width-1 error. *)
Inductive valid : list Z -> Prop :=
| valid_nil : valid []
| valid_step p :
    p <> [] -> DecodeRune p <> (RuneError, 1) ->
    valid (drop (Z.to_nat (DecodeRune p).2) p) -> valid p.

Lemma first_range b sz lo hi :
  first b = (sz, lo, hi) -> 1 < sz ->
  (sz = 2 /\ 194 <= b <= 223 /\ lo = 128 /\ hi = 191) \/
  (sz = 3 /\ 224 <= b <= 239 /\ 128 <= lo /\ hi <= 191 /\ (b = 224 -> lo = 160) /\ (b = 237 -> hi = 159)) \/
  (sz = 4 /\ 240 <= b <= 244 /\ 128 <= lo /\ hi <= 191 /\ (b = 240 -> lo = 144) /\ (b = 244 -> hi = 143)).
Proof. unfold first. intros H ?. repeat case_match; simplify_eq; bool_arith; try lia; intuition lia. Qed.

Lemma split64 r b : 0 <= b - 128 < 64 -> (r * 64 + (b - 128)) / 64 = r /\ (r * 64 + (b - 128)) mod 64 = b - 128.
Proof.
  intros. split.
  - rewrite Z.div_add_l by lia. rewrite Z.div_small by lia. lia.
  - rewrite Z.add_comm, Z.mod_add by lia. apply Z.mod_small. lia.
Qed.

(** Re-encoding a decoded rune gives back the bytes it was decoded from. *)
Lemma encode_DecodeRune p :
  Forall byte_range p -> p <> [] -> DecodeRune p <> (RuneError, 1) ->
  encode_rune (DecodeRune p).1 = take (Z.to_nat (DecodeRune p).2) p.
Proof.
  intros HF Hp Hv. destruct p as [|b0 p1]; [done|]. inversion HF as [|? ? Hb0 HF1]; subst.
  unfold byte_range in Hb0. unfold DecodeRune in *. destruct (first b0) as [[sz lo] hi] eqn:Hfirst.
  destruct (b0 <? RuneSelf) eqn:Hascii.
  { unfold RuneSelf in Hascii. bool_arith. simpl. unfold encode_rune.
    rewrite (proj2 (Z.ltb_ge b0 0)), (proj2 (Z.ltb_ge 1114111 b0)), (proj2 (Z.leb_gt 55296 b0)) by lia.
    simpl. by rewrite (proj2 (Z.ltb_lt b0 128)) by lia. }
  destruct (sz =? 1) eqn:Hsz1; [done|].
  assert (Hszlt : 1 < sz).
  { unfold first in Hfirst. repeat case_match; simplify_eq; bool_arith; lia. }
  pose proof (first_range _ _ _ _ Hfirst Hszlt) as Hr.
  destruct p1 as [|b1 p2]; [done|].
  destruct (negb _) eqn:Hb1 in Hv |- *; [done|]. apply negb_false_iff in Hb1. bool_arith.
  destruct (sz =? 2) eqn:Hsz2; bool_arith.
  { assert (194 <= b0 <= 223 /\ 128 <= b1 <= 191) as [? ?] by lia. simpl. unfold encode_rune.
    pose proof (split64 (b0 - 192) b1 ltac:(lia)) as [Hd Hm].
    set (r := (b0 - 192) * 64 + (b1 - 128)) in *.
    rewrite (proj2 (Z.ltb_ge r 0)), (proj2 (Z.ltb_ge 1114111 r)), (proj2 (Z.leb_gt 55296 r)) by lia. simpl.
    rewrite (proj2 (Z.ltb_ge r 128)), (proj2 (Z.ltb_lt r 2048)) by lia. rewrite Hd, Hm.
    repeat f_equal; lia. }
  destruct p2 as [|b2 p3]; [done|].
  destruct (negb (cont b2)) eqn:Hb2 in Hv |- *; [done|]. apply negb_false_iff in Hb2. unfold cont in Hb2. bool_arith.
  destruct (sz =? 3) eqn:Hsz3; bool_arith.
  { assert (224 <= b0 <= 239 /\ 128 <= b1 <= 191) as [? ?] by lia. simpl. unfold encode_rune.
    pose proof (split64 ((b0 - 224) * 64 + (b1 - 128)) b2 ltac:(lia)) as [Hd Hm].
    pose proof (split64 (b0 - 224) b1 ltac:(lia)) as [Hd1 Hm1].
    replace ((b0 - 224) * 4096 + (b1 - 128) * 64 + (b2 - 128))
      with (((b0 - 224) * 64 + (b1 - 128)) * 64 + (b2 - 128)) by ring.
    set (q := (b0 - 224) * 64 + (b1 - 128)) in *. set (r := q * 64 + (b2 - 128)) in *.
    rewrite (proj2 (Z.ltb_ge r 0)), (proj2 (Z.ltb_ge 1114111 r)) by lia.
    replace ((55296 <=? r) && (r <=? 57343)) with false by
      (symmetry; apply andb_false_iff; rewrite !Z.leb_gt; lia). simpl.
    rewrite (proj2 (Z.ltb_ge r 128)), (proj2 (Z.ltb_ge r 2048)), (proj2 (Z.ltb_lt r 65536)) by lia.
    replace (r / 4096) with (r / 64 / 64) by (rewrite Z.div_div by lia; done).
    rewrite Hd, Hm, Hd1, Hm1. repeat f_equal; lia. }
  destruct p3 as [|b3 p4]; [done|].
  destruct (negb (cont b3)) eqn:Hb3 in Hv |- *; [done|]. apply negb_false_iff in Hb3. unfold cont in Hb3. bool_arith.
  assert (240 <= b0 <= 244 /\ 128 <= b1 <= 191) as [? ?] by lia. simpl. unfold encode_rune.
  pose proof (split64 (((b0 - 240) * 64 + (b1 - 128)) * 64 + (b2 - 128)) b3 ltac:(lia)) as [Hd Hm].
  pose proof (split64 ((b0 - 240) * 64 + (b1 - 128)) b2 ltac:(lia)) as [Hd1 Hm1].
  pose proof (split64 (b0 - 240) b1 ltac:(lia)) as [Hd2 Hm2].
  replace ((b0 - 240) * 262144 + (b1 - 128) * 4096 + (b2 - 128) * 64 + (b3 - 128))
    with ((((b0 - 240) * 64 + (b1 - 128)) * 64 + (b2 - 128)) * 64 + (b3 - 128)) by ring.
  set (q1 := (b0 - 240) * 64 + (b1 - 128)) in *. set (q := q1 * 64 + (b2 - 128)) in *.
  set (r := q * 64 + (b3 - 128)) in *.
  rewrite (proj2 (Z.ltb_ge r 0)), (proj2 (Z.ltb_ge 1114111 r)) by lia.
  replace ((55296 <=? r) && (r <=? 57343)) with false by
    (symmetry; apply andb_false_iff; rewrite !Z.leb_gt; lia). simpl.
  rewrite (proj2 (Z.ltb_ge r 128)), (proj2 (Z.ltb_ge r 2048)), (proj2 (Z.ltb_ge r 65536)) by lia.
  replace (r / 4096) with (r / 64 / 64) by (rewrite Z.div_div by lia; done).
  replace (r / 262144) with (r / 64 / 64 / 64) by (rewrite !Z.div_div by lia; done).
  rewrite Hd, Hm, Hd1, Hm1, Hd2, Hm2. repeat f_equal; lia.
Qed.

Lemma Forall_drop_byte n p : Forall byte_range p -> Forall byte_range (drop n p).
Proof. intros. by apply Forall_drop. Qed.

(** A prefix of the runes of valid text re-encodes to a prefix of its bytes. *)
Lemma encode_take_prefix p k :
  valid p -> Forall byte_range p -> encode (take k (runes p)) `prefix_of` p.
Proof.
  intros Hv. revert k. induction Hv as [|p Hp Hd Hv IH]; intros k HF.
  - unfold runes. simpl. rewrite take_nil. by exists [].
  - destruct k as [|k]; [by exists p|].
    rewrite runes_cons by done. unfold encode. simpl take. simpl map. simpl mjoin.
    rewrite encode_DecodeRune by done.
    destruct (IH k (Forall_drop_byte _ _ HF)) as [rest Hrest]. unfold encode in Hrest.
    exists rest. rewrite <- app_assoc, <- Hrest. by rewrite take_drop.
Qed.

Lemma encode_app a b : encode (a ++ b) = encode a ++ encode b.
Proof. unfold encode. by rewrite map_app, join_app. Qed.

Lemma encode_take_mono p k k' :
  (k <= k')%nat -> zlen (encode (take k (runes p))) <= zlen (encode (take k' (runes p))).
Proof.
  intros. destruct (take_prefix_mono k k' (runes p)) as [r Hr]; [done|].
  rewrite Hr, encode_app, zlen_app. pose proof (zlen_nonneg (encode r)). lia.
Qed.

Lemma encode_take_length p k :
  valid p -> Forall byte_range p -> 0 <= zlen (encode (take k (runes p))) <= zlen p.
Proof.
  intros Hv HF. destruct (encode_take_prefix p k Hv HF) as [r Hr].
  split; [apply zlen_nonneg|]. rewrite Hr at 2. rewrite zlen_app.
  pose proof (zlen_nonneg r). lia.
Qed.

Lemma encode_runes p : valid p -> Forall byte_range p -> encode (runes p) = p.
Proof.
  intros Hv. induction Hv as [|p Hp Hd Hv IH]; intros HF; [done|].
  rewrite runes_cons by done. unfold encode in *. simpl map. simpl mjoin.
  rewrite encode_DecodeRune, IH by auto using Forall_drop_byte. apply take_drop.
Qed.

(** Decoding looks only at the bytes of the rune it returns. *)
Lemma DecodeRune_app p q :
  p <> [] -> DecodeRune p <> (RuneError, 1) -> DecodeRune (p ++ q) = DecodeRune p.
Proof.
  intros Hp Hv. destruct p as [|b0 p1]; [done|]. unfold DecodeRune in *. cbn [app] in *.
  destruct (first b0) as [[sz lo] hi].
  destruct (b0 <? RuneSelf) in Hv |- *; [done|]. destruct (sz =? 1) in Hv |- *; [done|].
  destruct p1 as [|b1 p2]; [done|]. cbn [app] in *.
  destruct (negb _) in Hv |- *; [done|]. destruct (sz =? 2) in Hv |- *; [done|].
  destruct p2 as [|b2 p3]; [done|]. cbn [app] in *.
  destruct (negb _) in Hv |- *; [done|]. destruct (sz =? 3) in Hv |- *; [done|].
  by destruct p3.
Qed.

Lemma valid_app p q : valid p -> valid q -> valid (p ++ q).
Proof.
  intros Hp Hq. induction Hp as [|p Hne Hd Hv IH]; [done|].
  apply valid_step.
  - by destruct p.
  - by rewrite DecodeRune_app.
  - rewrite DecodeRune_app by done. pose proof (DecodeRune_size p Hne) as Hs.
    rewrite drop_app_le by (unfold zlen in Hs; lia). done.
Qed.

(** Boolean decision of validity, used on concrete texts. *)
Fixpoint valid_loop (fuel : nat) (p : list Z) : bool :=
  match fuel with
  | O => bool_decide (p = [])
  | S fuel =>
      match p with
      | [] => true
      | _ =>
          let '(r, size) := DecodeRune p in
          negb ((r =? RuneError) && (size =? 1)) && valid_loop fuel (drop (Z.to_nat size) p)
      end
  end.

Definition ValidString (s : string) : bool := valid_loop (length (bytes_of s)) (bytes_of s).

Lemma valid_loop_sound fuel p : valid_loop fuel p = true -> valid p.
Proof.
  revert p. induction fuel as [|fuel IH]; intros p; simpl.
  - intros H. apply bool_decide_eq_true in H. subst. constructor.
  - destruct p as [|b p]; [constructor|]. destruct (DecodeRune (b :: p)) as [r size] eqn:Hd.
    intros H. apply andb_true_iff in H as [Hn Hl]. apply valid_step; [done| |].
    + rewrite Hd. intros [= -> ->]. done.
    + rewrite Hd. by apply IH.
Qed.

Lemma ValidString_sound s : ValidString s = true -> valid (bytes_of s).
Proof. apply valid_loop_sound. Qed.
