(* ===== verification/Vad.v ===== *)
(** * The acoustic voice activity detector ([internal/vad/vad.go])

    An RMS energy detector with hysteresis and a silence window over 20 ms
    frames. State: [Energy]. Operations: [NewEnergy], [Reset], [Process].

    Shown here: chunking independence (feeding a buffer whole or in pieces
    gives the same events and state), the alternation and ordering of the
    events, the position of every reported offset inside the audio fed, and
    that an end of speech is reported only after the configured silence. *)

From S2P Require Export Audio Float64.
From Stdlib Require Import QArith.
#[local] Open Scope Z_scope.

(** ** Data *)

Inductive EventKind := SpeechStart | SpeechEnd.

#[export] Instance EventKind_eq_dec : EqDecision EventKind.
Proof. solve_decision. Defined.

Record Event := MkEvent { Kind : EventKind; OffsetMs : Z }.

#[export] Instance Event_eq_dec : EqDecision Event.
Proof. solve_decision. Defined.

Record Config := MkConfig { Threshold : float64; SilenceDurationMs : Z }.

Definition FrameMs : Z := 20.
Definition hysteresisRatio : float64 := rnd (6 # 10).
Definition thresholdScale : float64 := rnd (1 # 10).
Definition frameBytes : Z := MsToBytes FrameMs.
Definition MaxInt16 : Z := 32767.

Record Energy := MkEnergy {
  enter : float64;
  exit : float64;
  silenceMs : Z;
  pending : list Z;
  elapsedMs : Z;
  speaking : bool;
  lastVoiced : Z
}.

(** ** Operations *)

Definition NewEnergy (cfg : Config) : Energy :=
  let en := fmul (Threshold cfg) thresholdScale in
  {| enter := en; exit := fmul en hysteresisRatio; silenceMs := SilenceDurationMs cfg;
     pending := []; elapsedMs := 0; speaking := false; lastVoiced := 0 |}.

Definition Reset (e : Energy) : Energy :=
  {| enter := enter e; exit := exit e; silenceMs := silenceMs e;
     pending := []; elapsedMs := 0; speaking := false; lastVoiced := 0 |}.

(** The sum is accumulated in sample order, each operation rounded (no fused
    multiply-add). *)
Definition rms (frame : list Z) : float64 :=
  let n := Z.quot (zlen frame) BytesPerSample in
  if n =? 0 then 0%Q
  else
    let sum := foldl (fun sum v =>
      let s := fdiv (of_int v) (of_int MaxInt16) in fadd sum (fmul s s)) 0%Q (samples frame) in
    fsqrt (fdiv sum (of_int n)).

(** The body of the frame loop, after the frame has been taken off [pending]. *)
Definition frame_step (e : Energy) (frame : list Z) : Energy * list Event :=
  let frameStart := elapsedMs e in
  let elapsed := elapsedMs e + FrameMs in
  let upd sp lv :=
    {| enter := enter e; exit := exit e; silenceMs := silenceMs e; pending := pending e;
       elapsedMs := elapsed; speaking := sp; lastVoiced := lv |} in
  let level := rms frame in
  if negb (speaking e) && fle (enter e) level then
    (upd true elapsed, [MkEvent SpeechStart frameStart])
  else if speaking e && fle (exit e) level then
    (upd true elapsed, [])
  else if speaking e && (silenceMs e <=? elapsed - lastVoiced e) then
    (upd false (lastVoiced e), [MkEvent SpeechEnd (lastVoiced e)])
  else (upd (speaking e) (lastVoiced e), []).

Definition set_pending (p : list Z) (e : Energy) : Energy :=
  {| enter := enter e; exit := exit e; silenceMs := silenceMs e; pending := p;
     elapsedMs := elapsedMs e; speaking := speaking e; lastVoiced := lastVoiced e |}.

(** The loop of [Process]; one frame leaves [pending] per iteration, so the
    length of [pending] is fuel enough ([process_loop_fuel]). *)
Fixpoint process_loop (fuel : nat) (e : Energy) : Energy * list Event :=
  match fuel with
  | O => (e, [])
  | S fuel =>
      if frameBytes <=? zlen (pending e) then
        let frame := take (Z.to_nat frameBytes) (pending e) in
        let '(e1, evs1) := frame_step (set_pending (drop (Z.to_nat frameBytes) (pending e)) e) frame in
        let '(e2, evs2) := process_loop fuel e1 in
        (e2, evs1 ++ evs2)
      else (e, [])
  end.

Definition Process (e : Energy) (pcm : list Z) : Energy * list Event :=
  let e0 := set_pending (pending e ++ pcm) e in
  process_loop (length (pending e0)) e0.

(** ** The frame loop *)

Lemma frameBytes_eq : frameBytes = 960.
Proof. reflexivity. Qed.

Lemma frame_step_pending e frame : pending (frame_step e frame).1 = pending e.
Proof. unfold frame_step. repeat case_match; done. Qed.

Lemma frame_step_set_pending e frame p :
  frame_step (set_pending p e) frame = (set_pending p (frame_step e frame).1, (frame_step e frame).2).
Proof. unfold frame_step. simpl. repeat case_match; done. Qed.

Lemma frame_step_elapsed e frame : elapsedMs (frame_step e frame).1 = elapsedMs e + FrameMs.
Proof. unfold frame_step. repeat case_match; done. Qed.

Lemma set_pending_eta e : set_pending (pending e) e = e.
Proof. by destruct e. Qed.

Lemma set_pending_twice p q e : set_pending p (set_pending q e) = set_pending p e.
Proof. done. Qed.

(** Induction over the frames of [pending]. *)
Lemma process_ind (P : Energy -> Energy * list Event -> Prop) :
  (forall e, zlen (pending e) < 960 -> P e (e, [])) ->
  (forall e e2 evs2,
     960 <= zlen (pending e) ->
     let frame := take 960 (pending e) in
     let r := frame_step (set_pending (drop 960 (pending e)) e) frame in
     P r.1 (e2, evs2) -> P e (e2, r.2 ++ evs2)) ->
  forall fuel e, (length (pending e) <= fuel)%nat -> P e (process_loop fuel e).
Proof.
  intros Hbase Hstep. induction fuel as [|fuel IH]; intros e Hf.
  - simpl. apply Hbase. unfold zlen. lia.
  - cbn [process_loop]. rewrite frameBytes_eq. change (Z.to_nat 960) with 960%nat.
    case_match eqn:Hc; bool_arith; [|by apply Hbase].
    destruct (frame_step _ _) as [e1 evs1] eqn:Hs.
    specialize (IH e1). destruct (process_loop fuel e1) as [e2 evs2].
    specialize (Hstep e e2 evs2 Hc). simpl in Hstep. rewrite Hs in Hstep. apply Hstep, IH.
    pose proof (frame_step_pending (set_pending (drop 960 (pending e)) e) (take 960 (pending e))) as Hp.
    rewrite Hs in Hp. simpl in Hp. rewrite Hp, length_drop. unfold zlen in Hc. lia.
Qed.

Lemma process_loop_fuel fuel fuel' e :
  (length (pending e) <= fuel)%nat -> (length (pending e) <= fuel')%nat ->
  process_loop fuel e = process_loop fuel' e.
Proof.
  intros Hf. revert fuel'.
  apply (process_ind (fun e r => forall fuel', (length (pending e) <= fuel')%nat -> r = process_loop fuel' e));
    [| |done].
  - intros e0 Hl [|fuel'] _; [done|]. simpl. rewrite frameBytes_eq. by rewrite (proj2 (Z.leb_gt _ _)).
  - intros e0 e2 evs2 Hl frame r IH [|fuel'] Hf'; [unfold zlen in Hl; lia|].
    cbn [process_loop]. rewrite frameBytes_eq. change (Z.to_nat 960) with 960%nat.
    rewrite (proj2 (Z.leb_le _ _)) by done. fold frame. fold r.
    destruct r as [e1 evs1] eqn:Hr. simpl in *. rewrite <- IH; [done|].
    assert (pending e1 = drop 960 (pending e0)) as ->.
    { change e1 with (e1, evs1).1. rewrite <- Hr. unfold r. by rewrite frame_step_pending. }
    rewrite length_drop. unfold zlen in Hl. lia.
Qed.

Lemma process_loop_app fuel e b :
  (length (pending e) <= fuel)%nat ->
  forall fuel', (length (pending e ++ b) <= fuel')%nat ->
  process_loop fuel' (set_pending (pending e ++ b) e)
  = let r := process_loop fuel e in
    let r2 := Process r.1 b in (r2.1, r.2 ++ r2.2).
Proof.
  intros Hf. apply (process_ind (fun e r => forall fuel', (length (pending e ++ b) <= fuel')%nat ->
    process_loop fuel' (set_pending (pending e ++ b) e) = let r2 := Process r.1 b in (r2.1, r.2 ++ r2.2)));
    [| |done].
  - intros e0 Hl fuel' Hf'. simpl. unfold Process.
    rewrite (process_loop_fuel fuel' (length (pending (set_pending (pending e0 ++ b) e0)))) by done.
    by destruct (process_loop _ _).
  - intros e0 e2 evs2 Hl frame r IH [|fuel'] Hf'.
    { rewrite length_app in Hf'. unfold zlen in Hl. lia. }
    cbn [process_loop]. rewrite frameBytes_eq. change (Z.to_nat 960) with 960%nat.
    cbn [pending set_pending]. rewrite zlen_app. pose proof (zlen_nonneg b).
    rewrite (proj2 (Z.leb_le _ _)) by lia.
    unfold zlen in Hl. rewrite take_app_le, drop_app_le by lia. fold frame.
    rewrite set_pending_twice.
    rewrite <- (set_pending_twice _ (drop 960 (pending e0)) e0), frame_step_set_pending. fold r.
    assert (Hp : pending r.1 = drop 960 (pending e0)) by (unfold r; by rewrite frame_step_pending).
    rewrite <- Hp. rewrite IH.
    + simpl. by rewrite app_assoc.
    + rewrite length_app, Hp, length_drop. rewrite length_app in Hf'. lia.
Qed.

(** ** Invariant *)

(** Offsets and the carry-over: the detector never holds a whole frame, and
    the last voiced instant lies in the consumed audio. *)
Record wf (e : Energy) : Prop := {
  wf_pending : zlen (pending e) < 960;
  wf_elapsed : 0 <= elapsedMs e;
  wf_voiced : 0 <= lastVoiced e <= elapsedMs e
}.

Lemma wf_NewEnergy cfg : wf (NewEnergy cfg).
Proof. split; simpl; rewrite ?zlen_nil; lia. Qed.

Lemma wf_Reset e : wf (Reset e).
Proof. split; simpl; rewrite ?zlen_nil; lia. Qed.

#[export] Hint Resolve wf_NewEnergy wf_Reset : cascade.

(** Everything one frame does to the clock: the parts of [wf] that do not
    concern [pending], and the bounds of the reported offsets. *)
Lemma frame_step_bounds e frame :
  0 <= elapsedMs e -> 0 <= lastVoiced e <= elapsedMs e ->
  let r := frame_step e frame in
  lastVoiced e <= lastVoiced r.1 <= elapsedMs r.1 /\
  Forall (fun ev => lastVoiced e <= OffsetMs ev <= lastVoiced r.1) r.2.
Proof.
  intros. unfold r, frame_step, FrameMs. repeat case_match; simpl; split; try lia;
    repeat constructor; simpl; lia.
Qed.

(** The audio consumed in whole frames plus the carry-over is the audio fed. *)
Definition fed_bytes (e : Energy) : Z := elapsedMs e * 48 + zlen (pending e).

Lemma process_loop_fed fuel e :
  (length (pending e) <= fuel)%nat -> fed_bytes (process_loop fuel e).1 = fed_bytes e.
Proof.
  apply (process_ind (fun e r => fed_bytes r.1 = fed_bytes e)); [done|].
  intros e0 e2 evs2 Hl frame r IH. simpl in *. rewrite IH. unfold fed_bytes, r.
  rewrite frame_step_elapsed, frame_step_pending. simpl. unfold zlen in *. rewrite length_drop.
  unfold FrameMs. lia.
Qed.

Lemma process_loop_wf fuel e :
  (length (pending e) <= fuel)%nat ->
  0 <= elapsedMs e -> 0 <= lastVoiced e <= elapsedMs e -> wf (process_loop fuel e).1.
Proof.
  apply (process_ind (fun e r => 0 <= elapsedMs e -> 0 <= lastVoiced e <= elapsedMs e -> wf r.1)).
  - intros e0 ? ? ?. by split.
  - intros e0 e2 evs2 Hl frame r IH He Hv. simpl in *. apply IH.
    + unfold r. rewrite frame_step_elapsed. simpl. unfold FrameMs. lia.
    + pose proof (frame_step_bounds (set_pending (drop 960 (pending e0)) e0) frame He Hv) as [? _].
      fold r in H. simpl in H. lia.
Qed.

Lemma wf_Process e pcm : wf e -> wf (Process e pcm).1.
Proof. intros [? ? ?]. unfold Process. by apply process_loop_wf. Qed.

#[export] Hint Resolve wf_Process : cascade.

Lemma fed_bytes_Process e pcm : fed_bytes (Process e pcm).1 = fed_bytes e + zlen pcm.
Proof.
  unfold Process. rewrite process_loop_fed by done. unfold fed_bytes. simpl.
  rewrite zlen_app. lia.
Qed.

(** ** Sequences of events *)

(** The kinds alternate, starting from whether speech is in progress, and the
    offsets never decrease from [lb]. *)
Fixpoint events_ok (sp : bool) (lb : Z) (evs : list Event) (sp' : bool) (lb' : Z) : Prop :=
  match evs with
  | [] => sp = sp' /\ lb <= lb'
  | ev :: evs =>
      Kind ev = (if sp then SpeechEnd else SpeechStart) /\ lb <= OffsetMs ev /\
      events_ok (negb sp) (OffsetMs ev) evs sp' lb'
  end.

Lemma events_ok_weaken sp lb evs sp' lb' lb0 :
  events_ok sp lb evs sp' lb' -> lb0 <= lb -> events_ok sp lb0 evs sp' lb'.
Proof. destruct evs; simpl; intuition lia. Qed.

Lemma events_ok_app sp lb evs1 sp1 lb1 evs2 sp2 lb2 :
  events_ok sp lb evs1 sp1 lb1 -> events_ok sp1 lb1 evs2 sp2 lb2 ->
  events_ok sp lb (evs1 ++ evs2) sp2 lb2.
Proof.
  revert sp lb. induction evs1 as [|ev evs1 IH]; simpl; intros sp lb.
  - intros [-> ?] ?. by eapply events_ok_weaken.
  - intros (? & ? & ?) ?. eauto.
Qed.

Lemma events_ok_last sp lb evs sp' lb' : events_ok sp lb evs sp' lb' ->
  lb <= lb' /\ Forall (fun ev => lb <= OffsetMs ev <= lb') evs.
Proof.
  revert sp lb. induction evs as [|ev evs IH]; simpl; intros sp lb.
  - intros [_ ?]. split; [done|constructor].
  - intros (_ & ? & H). destruct (IH _ _ H) as [? HF]. split; [lia|].
    constructor; [lia|]. eapply Forall_impl; [exact HF|]. simpl. lia.
Qed.

Lemma frame_step_events_ok e frame :
  0 <= elapsedMs e -> 0 <= lastVoiced e <= elapsedMs e ->
  let r := frame_step e frame in
  events_ok (speaking e) (lastVoiced e) r.2 (speaking r.1) (lastVoiced r.1).
Proof.
  intros. unfold r, frame_step, FrameMs. destruct (speaking e); simpl;
    repeat case_match; simpl; repeat split; lia.
Qed.

Lemma process_loop_events_ok fuel e :
  (length (pending e) <= fuel)%nat ->
  0 <= elapsedMs e -> 0 <= lastVoiced e <= elapsedMs e ->
  let r := process_loop fuel e in
  events_ok (speaking e) (lastVoiced e) r.2 (speaking r.1) (lastVoiced r.1).
Proof.
  apply (process_ind (fun e r => 0 <= elapsedMs e -> 0 <= lastVoiced e <= elapsedMs e ->
    events_ok (speaking e) (lastVoiced e) r.2 (speaking r.1) (lastVoiced r.1))).
  - intros e0 ? ? ?. simpl. split; [done|lia].
  - intros e0 e2 evs2 Hl frame r IH He Hv. cbn [fst snd] in *.
    pose proof (frame_step_bounds (set_pending (drop 960 (pending e0)) e0) frame He Hv) as [Hb _].
    pose proof (frame_step_events_ok (set_pending (drop 960 (pending e0)) e0) frame He Hv) as Ho.
    fold r in Hb, Ho. eapply events_ok_app; [exact Ho|apply IH].
    + unfold r. rewrite frame_step_elapsed. simpl. unfold FrameMs. lia.
    + simpl in Hb. lia.
Qed.

(** ** Main results *)

(** Chunking independence: the events and the final state do not depend on
    how the audio is cut into appends. Feeding [a ++ b] at once is feeding [a],
    then [b], whatever whole or partial frames the pieces hold. *)
Theorem Process_app e a b :
  Process e (a ++ b)
  = let r1 := Process e a in
    let r2 := Process r1.1 b in
    (r2.1, r1.2 ++ r2.2).
Proof.
  unfold Process at 1. rewrite app_assoc.
  apply (process_loop_app _ (set_pending (pending e ++ a) e) b); simpl; reflexivity.
Qed.

(** Silence before an end of speech: no frame reports one earlier than the
    configured silence after the last voiced frame. *)
Lemma frame_step_end_silence e frame ev :
  ev ∈ (frame_step e frame).2 -> Kind ev = SpeechEnd ->
  OffsetMs ev = lastVoiced e /\ silenceMs e <= elapsedMs e + FrameMs - OffsetMs ev.
Proof.
  unfold frame_step. intros Hin Hk. repeat case_match; simpl in Hin; try by apply elem_of_nil in Hin.
  - apply list_elem_of_singleton in Hin. by subst.
  - apply list_elem_of_singleton in Hin. subst ev. simpl. zlia.
Qed.

(** The exit threshold never exceeds the entry threshold. *)
Lemma NewEnergy_hysteresis cfg :
  (0 <= Threshold cfg)%Q -> (exit (NewEnergy cfg) <= rnd (enter (NewEnergy cfg)))%Q.
Proof.
  intros Hn. simpl. unfold fmul at 1.
  assert (0 <= fmul (Threshold cfg) thresholdScale)%Q.
  { apply rnd_nonneg, Qmult_le_0_compat; [done|]. by vm_compute. }
  apply rnd_mono.
  - apply Qmult_le_0_compat; [done|]. by vm_compute.
  - rewrite <- (Qmult_1_r (fmul (Threshold cfg) thresholdScale)) at 2.
    rewrite !(Qmult_comm (fmul _ _)). apply Qmult_le_compat_r; [|done]. by vm_compute.
Qed.

Lemma process_loop_end_silence fuel e :
  (length (pending e) <= fuel)%nat ->
  let r := process_loop fuel e in
  elapsedMs e <= elapsedMs r.1 /\
  Forall (fun ev => Kind ev = SpeechEnd -> (silenceMs e <= elapsedMs r.1 - OffsetMs ev)%Z) r.2.
Proof.
  apply (process_ind (fun e r => (elapsedMs e <= elapsedMs r.1) /\
    Forall (fun ev => Kind ev = SpeechEnd -> (silenceMs e <= elapsedMs r.1 - OffsetMs ev)%Z) r.2)).
  - intros e0 _. split; [simpl; lia|constructor].
  - intros e0 e2 evs2 Hl frame r [Hle HF]. cbn [fst snd] in *.
    assert (He : elapsedMs r.1 = elapsedMs e0 + FrameMs) by (unfold r; by rewrite frame_step_elapsed).
    assert (Hsil : silenceMs r.1 = silenceMs e0) by (unfold r, frame_step; repeat case_match; done).
    rewrite He, Hsil in *. split; [unfold FrameMs in *; lia|]. apply Forall_app. split; [|done].
    apply Forall_forall. intros ev Hin Hk.
    destruct (frame_step_end_silence _ _ _ Hin Hk) as [_ Hs]. simpl in Hs. lia.
Qed.

(** ** Events *)

(** The detector's facts are well formed on any audio: starts and ends
    alternate, beginning with what the state says is in progress; their offsets
    never decrease and lie inside the audio fed since the origin; and an end of
    speech is reported only once the configured silence has elapsed after it. *)
Theorem Process_events e pcm : wf e ->
  let r := Process e pcm in
  events_ok (speaking e) (lastVoiced e) r.2 (speaking r.1) (lastVoiced r.1) /\
  Forall (fun ev => 0 <= OffsetMs ev /\ OffsetMs ev * 48 <= fed_bytes e + zlen pcm) r.2 /\
  Forall (fun ev => Kind ev = SpeechEnd -> (silenceMs e <= elapsedMs r.1 - OffsetMs ev)%Z) r.2.
Proof.
  intros Hwf r.
  assert (Ho : events_ok (speaking e) (lastVoiced e) r.2 (speaking r.1) (lastVoiced r.1)).
  { apply (process_loop_events_ok _ (set_pending (pending e ++ pcm) e)); [done|apply Hwf..]. }
  split; [done|]. split.
  2: { by apply (process_loop_end_silence _ (set_pending (pending e ++ pcm) e)). }
  pose proof (wf_Process e pcm Hwf) as [? ? Hv]. fold r in Hv.
  pose proof (fed_bytes_Process e pcm) as Hf. fold r in Hf.
  destruct (events_ok_last _ _ _ _ _ Ho) as [_ HF].
  pose proof (wf_voiced e Hwf). pose proof (zlen_nonneg (pending r.1)). unfold fed_bytes in *.
  eapply Forall_impl; [exact HF|]. simpl. lia.
Qed.

Lemma Process_events_witness :
  let r := Process (NewEnergy (MkConfig 0 500)) (replicate 1000 0) in
  events_ok false 0 r.2 (speaking r.1) (lastVoiced r.1).
Proof. apply (Process_events (NewEnergy (MkConfig 0 500)) (replicate 1000 0)), wf_NewEnergy. Defined.
