(* ===== verification/Config.v ===== *)
(** * Configuration model and validation ([internal/config])

    The GA-shaped session object ([SessionDefaults]), the limits, the runtime
    configuration the Admin API owns ([RuntimeConfig]: provider instances,
    profiles, settings), defaulting ([ApplyDefaults]), projection of a profile
    on a session object, and every [Validate]/[validate] of
    [validate.go].

    A validation error is a [FieldError]; its human-readable message is not
    modelled, its dotted field path is. A [json.RawMessage] is the JSON value
    it holds. Values are immutable here, so the Go [Clone] methods are the
    identity and are not repeated. *)

From S2P Require Export Float64.
From stdpp Require Export pretty sorting.
From Stdlib Require Import QArith.
#[local] Open Scope Z_scope.
#[local] Open Scope string_scope.

(** ** JSON values *)

(** A number keeps its source literal; an object keeps its members in
    document order. *)
#[warnings="-register-all"]
Inductive json :=
| JNull
| JBool (b : bool)
| JNum (lit : string)
| JStr (s : string)
| JArr (l : list json)
| JObj (m : list (string * json)).

(** ** Constants *)

Definition AudioFormatPCM := "audio/pcm".
Definition AudioSampleRate : Z := 24000.
Definition TurnDetectionServerVAD := "server_vad".
Definition TurnDetectionSemanticVAD := "semantic_vad".
Definition ModalityAudio := "audio".
Definition ModalityText := "text".
Definition SpeedMin : float64 := 1 # 4.
Definition SpeedMax : float64 := 3 # 2.
Definition MaxOutputTokensLimit : Z := 4096.
Definition ToolTypeFunction := "function".
Definition ToolChoiceAuto := "auto".
Definition ToolChoiceNone := "none".
Definition ToolChoiceRequired := "required".
Definition ToolChoiceFunction := "function".
Definition DefaultVADThreshold : float64 := 1 # 2.
Definition DefaultVADPrefixPaddingMs : Z := 300.
Definition DefaultVADSilenceDurationMs : Z := 500.
Definition defaultSemanticEagerness := "auto".
Definition TemperatureMin : float64 := 0 # 1.
Definition TemperatureMax : float64 := 2 # 1.

(** ** The session object *)

Record MaxOutputTokens := MkMaxOutputTokens { Inf : bool; N : Z }.

Record Tool := MkTool {
  Tool_Type : string;
  Tool_Name : string;
  Tool_Description : string;
  Tool_Parameters : option json
}.

Record ToolChoice := MkToolChoice { Mode : string; TC_Name : string }.

Record AudioFormat := MkAudioFormat { AF_Type : string; Rate : Z }.

Record Transcription := MkTranscription {
  Tr_Model : string;
  Tr_Language : string;
  Tr_Prompt : string
}.

Record TurnDetection := MkTurnDetection {
  TD_Type : string;
  TD_Threshold : option float64;
  TD_PrefixPaddingMs : option Z;
  TD_SilenceDurationMs : option Z;
  TD_Eagerness : option string;
  CreateResponse : bool;
  InterruptResponse : bool
}.

Record AudioInput := MkAudioInput {
  In_Format : AudioFormat;
  In_Transcription : option Transcription;
  In_TurnDetection : option TurnDetection
}.

Record AudioOutput := MkAudioOutput {
  Out_Format : AudioFormat;
  Out_Voice : string;
  Out_Speed : float64
}.

Record SessionDefaults := MkSessionDefaults {
  SD_Instructions : string;
  SD_OutputModalities : list string;
  SD_Input : AudioInput;
  SD_Output : AudioOutput;
  SD_MaxOutputTokens : MaxOutputTokens;
  SD_Tools : list Tool;
  SD_ToolChoice : ToolChoice
}.

(** Durations are nanoseconds. *)
Record Limits := MkLimits {
  MaxSessions : Z;
  SessionTimeout : Z;
  InputAudioQueueFrames : Z;
  InputAudioBufferMaxMs : Z;
  ASRFinalTimeout : Z;
  OutputEventQueue : Z;
  ClientWriteTimeout : Z;
  ClientMaxMessageBytes : Z
}.

(** ** The runtime configuration *)

Record ProviderInstance := MkProviderInstance {
  PI_Name : string;
  PI_Type : string;
  PI_APIKey : string;
  PI_Options : option json
}.

Record Profile := MkProfile {
  P_Name : string;
  P_ASR : string;
  P_LLM : string;
  P_TTS : string;
  P_Instructions : string;
  P_Temperature : option float64;
  P_MaxOutputTokens : MaxOutputTokens;
  P_OutputModalities : list string;
  P_Voice : string;
  P_Speed : float64;
  P_ASRLanguage : string;
  P_ASRModel : string;
  P_Transcription : option Transcription;
  P_TurnDetection : option TurnDetection;
  P_ToolChoice : ToolChoice
}.

Record RuntimeConfig := MkRuntimeConfig {
  Providers : gmap string ProviderInstance;
  Profiles : gmap string Profile;
  DefaultProfileName : string
}.

(** [ProviderLookup]: whether a provider type is registered for a role; a nil
    lookup skips the check. *)
Definition ProviderLookup := option (string -> string -> bool).

(** ** Defaults *)

Definition or_default {A} (o : option A) (d : A) : option A :=
  match o with Some _ => o | None => Some d end.

Definition ApplyDefaults (td : TurnDetection) : TurnDetection :=
  if bool_decide (TD_Type td = TurnDetectionServerVAD) then
    {| TD_Type := TD_Type td;
       TD_Threshold := or_default (TD_Threshold td) DefaultVADThreshold;
       TD_PrefixPaddingMs := or_default (TD_PrefixPaddingMs td) DefaultVADPrefixPaddingMs;
       TD_SilenceDurationMs := or_default (TD_SilenceDurationMs td) DefaultVADSilenceDurationMs;
       TD_Eagerness := TD_Eagerness td;
       CreateResponse := CreateResponse td; InterruptResponse := InterruptResponse td |}
  else if bool_decide (TD_Type td = TurnDetectionSemanticVAD) then
    {| TD_Type := TD_Type td;
       TD_Threshold := TD_Threshold td;
       TD_PrefixPaddingMs := TD_PrefixPaddingMs td;
       TD_SilenceDurationMs := TD_SilenceDurationMs td;
       TD_Eagerness := or_default (TD_Eagerness td) defaultSemanticEagerness;
       CreateResponse := CreateResponse td; InterruptResponse := InterruptResponse td |}
  else td.

Definition DefaultProfile : Profile :=
  {| P_Name := EmptyString; P_ASR := EmptyString; P_LLM := EmptyString; P_TTS := EmptyString;
     P_Instructions := "You are a helpful assistant.";
     P_Temperature := None;
     P_MaxOutputTokens := {| Inf := true; N := 0 |};
     P_OutputModalities := [ModalityAudio];
     P_Voice := "alloy"; P_Speed := 1 # 1;
     P_ASRLanguage := EmptyString; P_ASRModel := EmptyString;
     P_Transcription := Some {| Tr_Model := EmptyString; Tr_Language := EmptyString; Tr_Prompt := EmptyString |};
     P_TurnDetection := Some {| TD_Type := TurnDetectionServerVAD; TD_Threshold := None;
       TD_PrefixPaddingMs := None; TD_SilenceDurationMs := None; TD_Eagerness := None;
       CreateResponse := true; InterruptResponse := true |};
     P_ToolChoice := {| Mode := ToolChoiceAuto; TC_Name := EmptyString |} |}.

Definition pcmFormat : AudioFormat := {| AF_Type := AudioFormatPCM; Rate := AudioSampleRate |}.

(** [Profile.SessionDefaults]. *)
Definition ProfileSession (p : Profile) : SessionDefaults :=
  {| SD_Instructions := P_Instructions p;
     SD_OutputModalities := P_OutputModalities p;
     SD_Input :=
       {| In_Format := pcmFormat;
          In_Transcription :=
            t ← P_Transcription p;
            Some {| Tr_Model := P_ASRModel p; Tr_Language := P_ASRLanguage p; Tr_Prompt := Tr_Prompt t |};
          In_TurnDetection := P_TurnDetection p |};
     SD_Output := {| Out_Format := pcmFormat; Out_Voice := P_Voice p; Out_Speed := P_Speed p |};
     SD_MaxOutputTokens := P_MaxOutputTokens p;
     SD_Tools := [];
     SD_ToolChoice := P_ToolChoice p |}.

(** ** Validation *)

Record FieldError := MkFieldError { Field : string }.

#[export] Instance FieldError_eq_dec : EqDecision FieldError.
Proof. solve_decision. Defined.

(** [None] is a nil error. *)
Abbreviation verdict := (option FieldError).

Definition fieldErrorf (field : string) : verdict := Some {| Field := field |}.

(** "if err := a; err != nil { return err }; b" *)
Definition and_then (a b : verdict) : verdict :=
  match a with Some e => Some e | None => b end.
Notation "a ;! b" := (and_then a b) (at level 62, right associativity).

(** "if bad { return fieldErrorf(field, ...) }" *)
Definition reject_if (bad : bool) (field : string) : verdict :=
  if bad then fieldErrorf field else None.

Definition validateModalities (field : string) (mods : list string) : verdict :=
  match mods with
  | [m] => reject_if (negb (bool_decide (m = ModalityAudio)) && negb (bool_decide (m = ModalityText))) field
  | _ => fieldErrorf field
  end.

Definition validateSpeed (field : string) (speed : float64) : verdict :=
  reject_if (flt speed SpeedMin || flt SpeedMax speed) field.

Definition validateMaxOutputTokens (field : string) (m : MaxOutputTokens) : verdict :=
  reject_if (negb (Inf m) && ((N m <? 1)%Z || (MaxOutputTokensLimit <? N m)%Z)) field.

Definition validateFormat (prefix : string) (f : AudioFormat) : verdict :=
  reject_if (negb (bool_decide (AF_Type f = AudioFormatPCM))) (prefix ++ ".type") ;!
  reject_if (negb (Rate f =? AudioSampleRate)%Z) (prefix ++ ".rate").

Definition eagernessValues := ["low"; "medium"; "high"; "auto"].

Definition is_some {A} (o : option A) : bool := match o with Some _ => true | None => false end.

Definition validateTurnDetection (prefix : string) (td : TurnDetection) : verdict :=
  if bool_decide (TD_Type td = TurnDetectionServerVAD) then
    reject_if (is_some (TD_Eagerness td)) (prefix ++ ".eagerness") ;!
    reject_if (match TD_Threshold td with None => true | Some t => flt t 0 || flt 1 t end)
      (prefix ++ ".threshold") ;!
    reject_if (match TD_PrefixPaddingMs td with None => true | Some v => (v <? 0)%Z end)
      (prefix ++ ".prefix_padding_ms") ;!
    reject_if (match TD_SilenceDurationMs td with None => true | Some v => (v <=? 0)%Z end)
      (prefix ++ ".silence_duration_ms")
  else if bool_decide (TD_Type td = TurnDetectionSemanticVAD) then
    reject_if (is_some (TD_Threshold td)) (prefix ++ ".threshold") ;!
    reject_if (is_some (TD_PrefixPaddingMs td)) (prefix ++ ".prefix_padding_ms") ;!
    reject_if (is_some (TD_SilenceDurationMs td)) (prefix ++ ".silence_duration_ms") ;!
    reject_if (match TD_Eagerness td with None => true | Some e => negb (bool_decide (e ∈ eagernessValues)) end)
      (prefix ++ ".eagerness")
  else fieldErrorf (prefix ++ ".type").

(** What [json.Unmarshal] into an [any] accepts: every number becomes a float64. *)
Fixpoint unmarshals (v : json) : bool :=
  match v with
  | JNum lit => is_some (ParseFloat lit)
  | JArr l => forallb unmarshals l
  | JObj m => forallb (fun kv => unmarshals kv.2) m
  | JNull | JBool _ | JStr _ => true
  end.

Definition isJSONObject (v : json) : bool := unmarshals v && match v with JObj _ => true | _ => false end.

Fixpoint validateTools_loop (field : string) (i : Z) (seen : list string) (tools : list Tool) : verdict :=
  match tools with
  | [] => None
  | t :: tools =>
      let at_ := field ++ "[" ++ pretty i ++ "]" in
      reject_if (negb (bool_decide (Tool_Type t = ToolTypeFunction))) (at_ ++ ".type") ;!
      reject_if (bool_decide (Tool_Name t = EmptyString)) (at_ ++ ".name") ;!
      reject_if (bool_decide (Tool_Name t ∈ seen)) (at_ ++ ".name") ;!
      reject_if (match Tool_Parameters t with Some v => negb (isJSONObject v) | None => false end)
        (at_ ++ ".parameters") ;!
      validateTools_loop field (i + 1)%Z (Tool_Name t :: seen) tools
  end.

Definition validateTools (field : string) (tools : list Tool) : verdict :=
  validateTools_loop field 0 [] tools.

Definition validateToolChoice (field : string) (tc : ToolChoice) (tools : list Tool) : verdict :=
  if bool_decide (Mode tc ∈ [ToolChoiceAuto; ToolChoiceNone; ToolChoiceRequired; EmptyString]) then None
  else if bool_decide (Mode tc = ToolChoiceFunction) then
    reject_if (negb (existsb (fun t => bool_decide (Tool_Name t = TC_Name tc)) tools)) (field ++ ".name")
  else fieldErrorf field.

Definition opt_check {A} (o : option A) (f : A -> verdict) : verdict :=
  match o with Some v => f v | None => None end.

(** [SessionDefaults.Validate]. *)
Definition Validate (prefix : string) (s : SessionDefaults) : verdict :=
  validateModalities (prefix ++ ".output_modalities") (SD_OutputModalities s) ;!
  validateFormat (prefix ++ ".audio.input.format") (In_Format (SD_Input s)) ;!
  validateFormat (prefix ++ ".audio.output.format") (Out_Format (SD_Output s)) ;!
  opt_check (In_TurnDetection (SD_Input s)) (validateTurnDetection (prefix ++ ".audio.input.turn_detection")) ;!
  validateSpeed (prefix ++ ".audio.output.speed") (Out_Speed (SD_Output s)) ;!
  validateTools (prefix ++ ".tools") (SD_Tools s) ;!
  validateToolChoice (prefix ++ ".tool_choice") (SD_ToolChoice s) (SD_Tools s) ;!
  validateMaxOutputTokens (prefix ++ ".max_output_tokens") (SD_MaxOutputTokens s).

Definition validateProfile (field key : string) (p : Profile) : verdict :=
  reject_if (negb (bool_decide (P_Name p = key))) (field ++ ".name") ;!
  validateModalities (field ++ ".output_modalities") (P_OutputModalities p) ;!
  validateMaxOutputTokens (field ++ ".max_output_tokens") (P_MaxOutputTokens p) ;!
  validateSpeed (field ++ ".speed") (P_Speed p) ;!
  reject_if (bool_decide (P_Voice p = EmptyString)) (field ++ ".voice") ;!
  reject_if (negb (bool_decide (Mode (P_ToolChoice p) ∈ [ToolChoiceAuto; ToolChoiceNone; ToolChoiceRequired])))
    (field ++ ".tool_choice") ;!
  opt_check (P_Temperature p) (fun t =>
    reject_if (flt t TemperatureMin || flt TemperatureMax t) (field ++ ".temperature")) ;!
  opt_check (P_Transcription p) (fun t =>
    reject_if (negb (bool_decide (Tr_Language t = EmptyString))) (field ++ ".transcription.language") ;!
    reject_if (negb (bool_decide (Tr_Model t = EmptyString))) (field ++ ".transcription.model")) ;!
  opt_check (P_TurnDetection p) (validateTurnDetection (field ++ ".turn_detection")).

Definition providerKinds := ["asr"; "llm"; "tts"].

Definition validateProvider (field key : string) (p : ProviderInstance) (known : ProviderLookup) : verdict :=
  reject_if (negb (bool_decide (PI_Name p = key))) (field ++ ".name") ;!
  reject_if (bool_decide (PI_Type p = EmptyString)) (field ++ ".type") ;!
  reject_if (match known with Some k => negb (existsb (fun kind => k kind (PI_Type p)) providerKinds) | None => false end)
    (field ++ ".type") ;!
  reject_if (bool_decide (PI_APIKey p = EmptyString)) (field ++ ".api_key").

Definition validateRef (c : RuntimeConfig) (field kind instance : string) (known : ProviderLookup) : verdict :=
  reject_if (bool_decide (instance = EmptyString)) field ;!
  match Providers c !! instance with
  | None => fieldErrorf field
  | Some inst =>
      reject_if (match known with Some k => negb (k kind (PI_Type inst)) | None => false end) field
  end.

(** [slices.Sorted(maps.Keys(m))]: keys in byte order. *)
Definition str_le (a b : string) : Prop := String.leb a b = true.
#[export] Instance str_le_dec a b : Decision (str_le a b).
Proof. unfold str_le. apply _. Defined.

Definition sortedKeys {A} (m : gmap string A) : list string :=
  merge_sort str_le (map_to_list m).*1.

Definition ProviderNames (c : RuntimeConfig) : list string := sortedKeys (Providers c).
Definition ProfileNames (c : RuntimeConfig) : list string := sortedKeys (Profiles c).

(** First error over a list, in order. *)
Fixpoint first_error {A} (f : A -> verdict) (l : list A) : verdict :=
  match l with
  | [] => None
  | x :: l => f x ;! first_error f l
  end.

Definition validateProfileRefs (c : RuntimeConfig) (field : string) (p : Profile) (known : ProviderLookup) : verdict :=
  first_error (fun '(kind, instance) => validateRef c (field ++ "." ++ kind) kind instance known)
    [("asr", P_ASR p); ("llm", P_LLM p); ("tts", P_TTS p)].

(** [RuntimeConfig.validate]. *)
Definition validateRuntime (prefix : string) (known : ProviderLookup) (c : RuntimeConfig) : verdict :=
  first_error (fun name =>
    opt_check (Providers c !! name) (fun p =>
      validateProvider (prefix ++ "providers." ++ name) name p known)) (ProviderNames c) ;!
  first_error (fun name =>
    opt_check (Profiles c !! name) (fun p =>
      let field := prefix ++ "profiles." ++ name in
      validateProfile field name p ;!
      validateProfileRefs c field p known)) (ProfileNames c) ;!
  (if bool_decide (DefaultProfileName c = EmptyString) then None
   else reject_if (negb (is_some (Profiles c !! DefaultProfileName c))) (prefix ++ "settings.default_profile")).

Definition validateLimits (prefix : string) (l : Limits) : verdict :=
  first_error (fun '(name, v) => reject_if (v <=? 0)%Z (prefix ++ "." ++ name))
    [("max_sessions", MaxSessions l); ("input_audio_queue_frames", InputAudioQueueFrames l);
     ("input_audio_buffer_max_ms", InputAudioBufferMaxMs l); ("output_event_queue", OutputEventQueue l);
     ("client_max_message_bytes", ClientMaxMessageBytes l)] ;!
  first_error (fun '(name, v) => reject_if (v <=? 0)%Z (prefix ++ "." ++ name))
    [("session_timeout", SessionTimeout l); ("asr_final_timeout", ASRFinalTimeout l);
     ("client_write_timeout", ClientWriteTimeout l)].

(** ** Reasoning about verdicts *)

Lemma and_then_None a b : (a ;! b) = None <-> a = None /\ b = None.
Proof. destruct a; simpl; naive_solver. Qed.

Lemma reject_if_None b f : reject_if b f = None <-> b = false.
Proof. destruct b; simpl; naive_solver. Qed.

Lemma fieldErrorf_None f : fieldErrorf f = None <-> False.
Proof. done. Qed.

Lemma opt_check_None {A} (o : option A) f : opt_check o f = None <-> forall v, o = Some v -> f v = None.
Proof. destruct o; simpl; naive_solver. Qed.

Lemma first_error_None {A} (f : A -> verdict) l : first_error f l = None <-> Forall (fun x => f x = None) l.
Proof. induction l; simpl; [by rewrite Forall_nil|]. by rewrite and_then_None, Forall_cons, IHl. Qed.

Lemma flt_false x y : flt x y = false <-> (y <= x)%Q.
Proof. unfold flt. rewrite negb_false_iff. apply Qle_bool_iff. Qed.

Lemma negb_bool_decide_false (P : Prop) `{Decision P} : negb (bool_decide P) = false <-> P.
Proof. rewrite negb_false_iff. apply bool_decide_eq_true. Qed.

Create Rewrite HintDb verdict.
Global Hint Rewrite and_then_None reject_if_None fieldErrorf_None @opt_check_None @first_error_None
  flt_false negb_bool_decide_false bool_decide_eq_false orb_false_iff andb_false_iff : verdict.

(** Unfold a verdict equation to the propositions it tests. *)
Ltac verdict := autorewrite with verdict in *.

(** ** Declarative specification *)

Definition turn_detection_ok (td : TurnDetection) : Prop :=
  match TD_Threshold td, TD_PrefixPaddingMs td, TD_SilenceDurationMs td, TD_Eagerness td with
  | Some t, Some p, Some s, None =>
      TD_Type td = TurnDetectionServerVAD /\ (0 <= t <= 1)%Q /\ 0 <= p /\ 0 < s
  | None, None, None, Some e =>
      TD_Type td = TurnDetectionSemanticVAD /\ e ∈ eagernessValues
  | _, _, _, _ => False
  end.

(** A literal occurs in a value. *)
Inductive occurs (lit : string) : json -> Prop :=
| occurs_here : occurs lit (JNum lit)
| occurs_arr v l : v ∈ l -> occurs lit v -> occurs lit (JArr l)
| occurs_obj k v m : (k, v) ∈ m -> occurs lit v -> occurs lit (JObj m).

(** Parameters are an object in which no number overflows. *)
Definition tool_ok (t : Tool) : Prop :=
  Tool_Type t = ToolTypeFunction /\ Tool_Name t <> EmptyString /\
  (forall v, Tool_Parameters t = Some v ->
     (exists m, v = JObj m) /\
     forall lit, occurs lit v -> (- 2 ^ 1024 # 1 < rnd (literal_value lit) < 2 ^ 1024 # 1)%Q).

Definition tools_ok (tools : list Tool) : Prop :=
  Forall tool_ok tools /\ NoDup (Tool_Name <$> tools).

Definition tool_choice_ok (tc : ToolChoice) (tools : list Tool) : Prop :=
  Mode tc ∈ [ToolChoiceAuto; ToolChoiceNone; ToolChoiceRequired; EmptyString] \/
  (Mode tc = ToolChoiceFunction /\ TC_Name tc ∈ Tool_Name <$> tools).

Definition max_tokens_ok (m : MaxOutputTokens) : Prop :=
  Inf m = true \/ 1 <= N m <= MaxOutputTokensLimit.

Record session_ok (s : SessionDefaults) : Prop := {
  ok_modalities : SD_OutputModalities s = [ModalityAudio] \/ SD_OutputModalities s = [ModalityText];
  ok_in_format : In_Format (SD_Input s) = pcmFormat;
  ok_out_format : Out_Format (SD_Output s) = pcmFormat;
  ok_turn_detection : forall td, In_TurnDetection (SD_Input s) = Some td -> turn_detection_ok td;
  ok_speed : (SpeedMin <= Out_Speed (SD_Output s) <= SpeedMax)%Q;
  ok_tools : tools_ok (SD_Tools s);
  ok_tool_choice : tool_choice_ok (SD_ToolChoice s) (SD_Tools s);
  ok_max_tokens : max_tokens_ok (SD_MaxOutputTokens s)
}.

(** ** Each validator decides its part of the specification *)

Lemma validateModalities_spec f mods :
  validateModalities f mods = None <-> mods = [ModalityAudio] \/ mods = [ModalityText].
Proof.
  destruct mods as [|m [|m' l]]; simpl; verdict; naive_solver.
Qed.

Lemma validateFormat_spec f af : validateFormat f af = None <-> af = pcmFormat.
Proof.
  unfold validateFormat. verdict. rewrite negb_false_iff, Z.eqb_eq. unfold pcmFormat.
  destruct af. simpl. naive_solver.
Qed.

Lemma validateSpeed_spec f s : validateSpeed f s = None <-> (SpeedMin <= s <= SpeedMax)%Q.
Proof. unfold validateSpeed. verdict. tauto. Qed.

Lemma validateMaxOutputTokens_spec f m : validateMaxOutputTokens f m = None <-> max_tokens_ok m.
Proof.
  unfold validateMaxOutputTokens, max_tokens_ok. verdict.
  rewrite negb_false_iff, !Z.ltb_ge. tauto.
Qed.

Lemma validateTurnDetection_spec f td : validateTurnDetection f td = None <-> turn_detection_ok td.
Proof.
  unfold validateTurnDetection, turn_detection_ok.
  destruct td as [ty th pp sd eg cr ir]; simpl.
  destruct (bool_decide (ty = TurnDetectionServerVAD)) eqn:Hs.
  - apply bool_decide_eq_true in Hs. verdict. subst.
    destruct th, pp, sd, eg; simpl; verdict; rewrite ?Z.ltb_ge, ?Z.leb_gt; naive_solver.
  - apply bool_decide_eq_false in Hs. case_bool_decide; verdict.
    + destruct th, pp, sd, eg; simpl; verdict; naive_solver.
    + destruct th, pp, sd, eg; naive_solver.
Qed.

Lemma ParseFloat_spec lit :
  is_some (ParseFloat lit) = true <-> (- 2 ^ 1024 # 1 < rnd (literal_value lit) < 2 ^ 1024 # 1)%Q.
Proof.
  unfold ParseFloat. cbv zeta. generalize (rnd (literal_value lit)). intros f.
  transitivity (fle (2 ^ 1024 # 1) f = false /\ fle f (- 2 ^ 1024 # 1) = false);
    [by destruct (fle _ f), (fle f _); simpl; split; intros; repeat split; destruct_and?|].
  unfold fle. rewrite <- !not_true_iff_false, !Qle_bool_iff. split.
  - intros [H1%Qnot_le_lt H2%Qnot_le_lt]. by split.
  - intros [H1 H2]. split; by apply Qlt_not_le.
Qed.

(** Induction that reaches into arrays and objects. *)
Lemma json_nested_ind (P : json -> Prop) :
  P JNull -> (forall b, P (JBool b)) -> (forall lit, P (JNum lit)) -> (forall s, P (JStr s)) ->
  (forall l, Forall P l -> P (JArr l)) -> (forall m, Forall (fun kv => P kv.2) m -> P (JObj m)) -> forall v, P v.
Proof.
  intros H1 H2 H3 H4 H5 H6. fix IH 1. intros [|b|lit|s|l|m]; [done|done|done|done|apply H5|apply H6].
  - induction l as [|v l IHl]; constructor; [apply IH|exact IHl].
  - induction m as [|[k v] m IHm]; constructor; [apply IH|exact IHm].
Qed.

Lemma unmarshals_spec v :
  unmarshals v = true <-> forall lit, occurs lit v -> (- 2 ^ 1024 # 1 < rnd (literal_value lit) < 2 ^ 1024 # 1)%Q.
Proof.
  induction v as [|b|lit|s|l IH|m IH] using json_nested_ind; cbn [unmarshals];
    try (split; [intros _ lit Ho; inversion Ho|done]).
  - rewrite ParseFloat_spec. split; [intros H lit' Ho; by inversion Ho|intros H; apply H; constructor].
  - rewrite forallb_forall. rewrite Forall_forall in IH. setoid_rewrite <- list_elem_of_In. split.
    + intros H lit Ho. inversion Ho as [|v l' Hv Ho'|]; subst. apply (IH v Hv); [by apply H|done].
    + intros H v Hv. apply (IH v Hv). intros lit Ho. apply H. by apply (occurs_arr _ v).
  - rewrite forallb_forall. rewrite Forall_forall in IH. setoid_rewrite <- list_elem_of_In. split.
    + intros H lit Ho. inversion Ho as [| |k v m' Hv Ho']; subst. apply (IH _ Hv); [by apply H|done].
    + intros H [k v] Hv. apply (IH _ Hv). intros lit Ho. apply H. by apply (occurs_obj _ k v).
Qed.

Lemma validateTools_loop_spec f i seen tools :
  validateTools_loop f i seen tools = None <->
  Forall tool_ok tools /\ NoDup (Tool_Name <$> tools) /\ Forall (fun t => Tool_Name t ∉ seen) tools.
Proof.
  revert i seen. induction tools as [|t tools IH]; intros i seen; cbn [validateTools_loop].
  - rewrite !Forall_nil, fmap_nil, NoDup_nil. tauto.
  - verdict. rewrite IH, !Forall_cons, fmap_cons, NoDup_cons. unfold tool_ok at 2.
    assert (Hp : (match Tool_Parameters t with Some v => negb (isJSONObject v) | None => false end = false)
      <-> forall v, Tool_Parameters t = Some v -> (exists m, v = JObj m) /\
        forall lit, occurs lit v -> (- 2 ^ 1024 # 1 < rnd (literal_value lit) < 2 ^ 1024 # 1)%Q).
    { destruct (Tool_Parameters t) as [v|]; [|naive_solver]. unfold isJSONObject.
      rewrite negb_false_iff, andb_true_iff, unmarshals_spec. destruct v; naive_solver. }
    rewrite Hp. rewrite list_elem_of_fmap.
    rewrite !Forall_forall. setoid_rewrite not_elem_of_cons. naive_solver.
Qed.

Lemma validateTools_spec f tools : validateTools f tools = None <-> tools_ok tools.
Proof.
  unfold validateTools, tools_ok. rewrite validateTools_loop_spec.
  split; [tauto|]. intros [? ?]. repeat split; try done. apply Forall_true. intros ? ?%elem_of_nil. done.
Qed.

Lemma validateToolChoice_spec f tc tools :
  validateToolChoice f tc tools = None <-> tool_choice_ok tc tools.
Proof.
  unfold validateToolChoice, tool_choice_ok. case_bool_decide as Hm; [tauto|].
  case_bool_decide as Hf; verdict.
  - rewrite negb_false_iff, existsb_exists. rewrite list_elem_of_fmap.
    split.
    + intros (t & Hin & Ht). right. apply bool_decide_eq_true in Ht. apply list_elem_of_In in Hin. eauto.
    + intros [?|(_ & t & ? & Hin)]; [done|]. exists t. rewrite <- list_elem_of_In, bool_decide_eq_true. done.
  - naive_solver.
Qed.

(** The session validator accepts exactly the well-formed session objects. *)
Lemma Validate_session_ok prefix s : Validate prefix s = None <-> session_ok s.
Proof.
  unfold Validate.
  rewrite !and_then_None, validateModalities_spec, !validateFormat_spec, opt_check_None,
    validateSpeed_spec, validateTools_spec, validateToolChoice_spec, validateMaxOutputTokens_spec.
  setoid_rewrite validateTurnDetection_spec.
  split; [intros; constructor; tauto|]. intros []. tauto.
Qed.

(** ** Defaults make an omitted block valid *)

Lemma ApplyDefaults_idempotent td : ApplyDefaults (ApplyDefaults td) = ApplyDefaults td.
Proof.
  unfold ApplyDefaults. destruct td as [ty th pp sd eg cr ir]; simpl.
  repeat (case_bool_decide; simpl; try done); destruct th, pp, sd, eg; done.
Qed.

(** A block that only names its type, with any choice of fields that belong to
    that type left out, is valid once defaulted. *)
Lemma ApplyDefaults_server_ok cr ir :
  turn_detection_ok (ApplyDefaults
    {| TD_Type := TurnDetectionServerVAD; TD_Threshold := None; TD_PrefixPaddingMs := None;
       TD_SilenceDurationMs := None; TD_Eagerness := None; CreateResponse := cr; InterruptResponse := ir |}).
Proof. vm_compute. repeat split; discriminate. Qed.

Lemma ApplyDefaults_ok_stable td : turn_detection_ok td -> ApplyDefaults td = td.
Proof.
  unfold turn_detection_ok, ApplyDefaults. destruct td as [ty th pp sd eg cr ir]; simpl.
  destruct th, pp, sd, eg; try done; intros (-> & ?); done.
Qed.

(** ** Profiles *)

Lemma validateProfile_modalities f k p : validateProfile f k p = None ->
  P_OutputModalities p = [ModalityAudio] \/ P_OutputModalities p = [ModalityText].
Proof.
  unfold validateProfile. rewrite !and_then_None. intros (_ & H & _).
  by apply validateModalities_spec in H.
Qed.

(** A profile the Admin API accepts projects to a session object the session
    layer accepts. *)
Lemma profile_projection_valid field key p prefix :
  validateProfile field key p = None -> Validate prefix (ProfileSession p) = None.
Proof.
  unfold validateProfile. rewrite !and_then_None. intros (_ & Hm & Ht & Hs & _ & Hc & _ & _ & Htd).
  apply Validate_session_ok. constructor; simpl.
  - by apply validateModalities_spec in Hm.
  - done.
  - done.
  - rewrite opt_check_None in Htd. intros td Heq.
    by eapply validateTurnDetection_spec, Htd.
  - by apply validateSpeed_spec in Hs.
  - split; constructor.
  - left. rewrite reject_if_None, negb_bool_decide_false in Hc. set_solver.
  - by apply validateMaxOutputTokens_spec in Ht.
Qed.

(** ** Runtime configurations *)

Lemma elem_of_sortedKeys {A} (m : gmap string A) k : k ∈ sortedKeys m <-> is_Some (m !! k).
Proof.
  unfold sortedKeys. rewrite merge_sort_Permutation, list_elem_of_fmap. split.
  - intros ([k' v] & -> & Hin). apply elem_of_map_to_list in Hin. eauto.
  - intros [v Hv]. exists (k, v). split; [done|]. by apply elem_of_map_to_list.
Qed.

(** What a validated runtime configuration promises a new session: every
    reference resolves to an instance of a type registered for the role. *)
Definition ref_ok (c : RuntimeConfig) (known : ProviderLookup) (kind instance : string) : Prop :=
  exists inst, Providers c !! instance = Some inst /\
    PI_Name inst = instance /\ PI_APIKey inst <> EmptyString /\
    (forall k, known = Some k -> k kind (PI_Type inst) = true).

Lemma validateRef_ok c f kind instance known :
  (forall name p, Providers c !! name = Some p -> exists f', validateProvider f' name p known = None) ->
  validateRef c f kind instance known = None -> ref_ok c known kind instance.
Proof.
  intros Hp. unfold validateRef, ref_ok. verdict. intros [_ H].
  destruct (Providers c !! instance) as [inst|] eqn:Hi; [|done]. verdict.
  destruct (Hp _ _ Hi) as [f' Hv]. unfold validateProvider in Hv. verdict.
  destruct Hv as (Hn & _ & _ & Hk). exists inst. repeat split; [done..|].
  intros k ->. by apply negb_false_iff in H.
Qed.

Lemma first_error_keys {A} (f : string -> A -> verdict) (m : gmap string A) :
  first_error (fun name => opt_check (m !! name) (f name)) (sortedKeys m) = None ->
  forall name x, m !! name = Some x -> f name x = None.
Proof.
  rewrite first_error_None, Forall_forall. intros H name x Hx.
  specialize (H name). rewrite elem_of_sortedKeys, Hx in H. apply H. eauto.
Qed.

(** The content of validation, for every profile. *)
Lemma runtime_refs prefix known c : validateRuntime prefix known c = None ->
  (forall name p, Profiles c !! name = Some p ->
     P_Name p = name /\
     ref_ok c known "asr" (P_ASR p) /\ ref_ok c known "llm" (P_LLM p) /\ ref_ok c known "tts" (P_TTS p) /\
     Validate "session" (ProfileSession p) = None) /\
  (DefaultProfileName c <> EmptyString -> is_Some (Profiles c !! DefaultProfileName c)).
Proof.
  unfold validateRuntime. rewrite !and_then_None. intros (Hprov & Hprof & Hdef).
  assert (Hp : forall name p, Providers c !! name = Some p -> exists f', validateProvider f' name p known = None).
  { intros name p Hp. exists (prefix ++ "providers." ++ name).
    by apply (first_error_keys (fun name p =>
      validateProvider (prefix ++ "providers." ++ name) name p known) (Providers c)). }
  split.
  - intros name p Hpr.
    pose proof (first_error_keys (fun name p =>
      let field := prefix ++ "profiles." ++ name in
      validateProfile field name p ;! validateProfileRefs c field p known) (Profiles c) Hprof name p Hpr) as Hv.
    simpl in Hv. apply and_then_None in Hv as [Hv Hr].
    assert (P_Name p = name) as Hn.
    { unfold validateProfile in Hv. apply and_then_None in Hv as [Hv _]. by verdict. }
    unfold validateProfileRefs in Hr. simpl in Hr. rewrite !and_then_None in Hr.
    destruct Hr as (Ha & Hl & Ht & _).
    split; [done|]. split; [by eapply validateRef_ok|]. split; [by eapply validateRef_ok|].
    split; [by eapply validateRef_ok|]. by eapply profile_projection_valid.
  - intros Hne. case_bool_decide; [done|]. rewrite reject_if_None, negb_false_iff in Hdef.
    destruct (Profiles c !! _); [eauto|done].
Qed.

(** What the Admin API accepts, the session layer can run: in a runtime
    configuration that validates, every profile is stored under its own name,
    each of its three roles resolves to a configured instance that has a
    credential and whose type is registered for that role, the session object
    it projects to passes the session validator, and a named default profile
    exists. *)
Theorem validateRuntime_refs prefix known c : validateRuntime prefix known c = None ->
  (forall name p, Profiles c !! name = Some p ->
     P_Name p = name /\
     ref_ok c known "asr" (P_ASR p) /\ ref_ok c known "llm" (P_LLM p) /\ ref_ok c known "tts" (P_TTS p) /\
     Validate "session" (ProfileSession p) = None) /\
  (DefaultProfileName c <> EmptyString -> is_Some (Profiles c !! DefaultProfileName c)).
Proof. apply runtime_refs. Qed.

Definition demo_runtime : RuntimeConfig :=
  let inst name := {| PI_Name := name; PI_Type := "mock"; PI_APIKey := "key"; PI_Options := None |} in
  let p := {| P_Name := "front"; P_ASR := "ears"; P_LLM := "brain"; P_TTS := "mouth";
     P_Instructions := P_Instructions DefaultProfile; P_Temperature := Some (1 # 2);
     P_MaxOutputTokens := P_MaxOutputTokens DefaultProfile; P_OutputModalities := [ModalityAudio];
     P_Voice := "alloy"; P_Speed := 1 # 1; P_ASRLanguage := EmptyString; P_ASRModel := EmptyString;
     P_Transcription := P_Transcription DefaultProfile;
     P_TurnDetection := ApplyDefaults <$> P_TurnDetection DefaultProfile;
     P_ToolChoice := P_ToolChoice DefaultProfile |} in
  {| Providers := {["ears" := inst "ears"; "brain" := inst "brain"; "mouth" := inst "mouth"]};
     Profiles := {["front" := p]}; DefaultProfileName := "front" |}.

Lemma validateRuntime_refs_witness :
  validateRuntime EmptyString (Some (fun _ ty => String.eqb ty "mock")) demo_runtime = None /\
  is_Some (Profiles demo_runtime !! "front").
Proof.
  split; [by vm_compute|].
  apply (validateRuntime_refs EmptyString (Some (fun _ ty => String.eqb ty "mock")) demo_runtime); by vm_compute.
Defined.

(** C23. The session validator is exact: it accepts a session object if and only
    if the object satisfies the declarative specification [session_ok] (single
    modality, PCM at 24 kHz, the turn detection fields of the right mode in
    range, unique well-formed tools whose parameters are objects without a number
    that overflows a float64, a tool choice that names one of them, speed and token
    limits in range). *)
Theorem session_validator_exact prefix s : Validate prefix s = None <-> session_ok s.
Proof. apply Validate_session_ok. Qed.

(** A parameter schema with a number outside the range of float64 is refused. *)
Example overflowing_schema_refused :
  isJSONObject (JObj [("maximum", JNum "1e999")]) = false /\ isJSONObject (JObj [("maximum", JNum "1e308")]) = true.
Proof. split; by vm_compute. Qed.

(** Defaulting makes every partial turn detection block of the two known
    types valid, provided the fields the client did set are valid for the type,
    changes nothing in a block that is already complete, and is idempotent. *)
Theorem defaults_complete td :
  (TD_Type td = TurnDetectionServerVAD -> TD_Eagerness td = None ->
   (forall t, TD_Threshold td = Some t -> (0 <= t <= 1)%Q) ->
   (forall p, TD_PrefixPaddingMs td = Some p -> 0 <= p) ->
   (forall s, TD_SilenceDurationMs td = Some s -> 0 < s) ->
   turn_detection_ok (ApplyDefaults td)) /\
  (TD_Type td = TurnDetectionSemanticVAD ->
   TD_Threshold td = None -> TD_PrefixPaddingMs td = None -> TD_SilenceDurationMs td = None ->
   (forall e, TD_Eagerness td = Some e -> e ∈ eagernessValues) ->
   turn_detection_ok (ApplyDefaults td)) /\
  (turn_detection_ok td -> ApplyDefaults td = td) /\
  ApplyDefaults (ApplyDefaults td) = ApplyDefaults td.
Proof.
  split; [|split; [|split; [apply ApplyDefaults_ok_stable|apply ApplyDefaults_idempotent]]];
    destruct td as [ty th pp sd eg cr ir]; simpl; intros ->.
  - intros -> Ht Hp Hs. unfold ApplyDefaults, turn_detection_ok; simpl.
    assert (Hd : (0 <= DefaultVADThreshold <= 1)%Q) by (split; by vm_compute).
    unfold DefaultVADPrefixPaddingMs, DefaultVADSilenceDurationMs.
    destruct th as [t|], pp as [p|], sd as [s|]; simpl;
      repeat split; try (by (apply Hd || apply (Ht _ eq_refl))); try (by apply (Hp _ eq_refl)); try (by apply (Hs _ eq_refl)); lia.
  - intros -> -> -> He. unfold ApplyDefaults, turn_detection_ok; simpl.
    destruct eg as [e|]; simpl; (split; [done|]); [by apply He|].
    unfold defaultSemanticEagerness, eagernessValues. set_solver.
Qed.
