(* ===== verification/Provider.v ===== *)
(** * Provider interfaces and value types ([internal/provider/provider.go])

    The values that cross the ASR, LLM and TTS interfaces, the interfaces
    themselves as type classes over an implementation's state, the error
    classification and the registry. The vendor implementations are behind
    these interfaces; a client's theorems are proved for every instance. *)

From S2P Require Export Config.
#[local] Open Scope string_scope.

Inductive Kind := KindASR | KindLLM | KindTTS.

#[export] Instance Kind_eq_dec : EqDecision Kind.
Proof. solve_decision. Defined.
#[export] Instance Kind_countable : Countable Kind.
Proof.
  refine (inj_countable' (fun k => match k with KindASR => 0 | KindLLM => 1 | KindTTS => 2 end)%nat
    (fun n => match n with 0 => KindASR | 1 => KindLLM | _ => KindTTS end)%nat _).
  by intros [].
Defined.

(** ** ASR *)

Record ASRConfig := MkASRConfig {
  ASR_SampleRate : Z;
  ASR_Language : string;
  ASR_Prompt : string;
  ASR_Model : string
}.

Inductive ASREventKind := ASRPartial | ASRFinal | ASREndOfTurn | ASRError.

Record ASREvent := MkASREvent {
  AE_Kind : ASREventKind;
  AE_Text : string;
  AE_StartMs : Z;
  AE_EndMs : Z;
  AE_Err : string
}.

(** An error value is the text it renders to; [None] is nil. *)
Abbreviation error := (option string).

(** [ASRStream], as operations on the implementation's state. [Events] is the
    channel of facts the session receives and [Close] ends the stream; both
    are inputs of the session's step relation rather than calls. *)
Class ASRStream (A : Type) := {
  PushAudio : A -> list Z -> A * error;
  Finalize : A -> A * error
}.

(** ** LLM *)

Definition RoleSystem := "system".
Definition RoleUser := "user".
Definition RoleAssistant := "assistant".
Definition RoleTool := "tool".

Record ToolDef := MkToolDef {
  Def_Name : string;
  Def_Description : string;
  Def_Parameters : option json
}.

(** [provider.ToolChoice] has the shape of the configuration type. *)
Abbreviation PToolChoice := Config.ToolChoice.

Record ToolCall := MkToolCall {
  Call_ID : string;
  Call_Name : string;
  Call_Arguments : string
}.

#[export] Instance ToolCall_eq_dec : EqDecision ToolCall.
Proof. solve_decision. Defined.

(** [ToolCalls] distinguishes nil from a list. *)
Record Message := MkMessage {
  Msg_Role : string;
  Msg_Content : string;
  Msg_ToolCalls : option (list ToolCall);
  Msg_ToolCallID : string
}.

#[export] Instance Message_eq_dec : EqDecision Message.
Proof. solve_decision. Defined.

Record ChatRequest := MkChatRequest {
  Req_Instructions : string;
  Req_Messages : list Message;
  Req_MaxOutputTokens : Z;
  Req_Temperature : option float64;
  Req_Tools : option (list ToolDef);
  Req_ToolChoice : PToolChoice
}.

(** The empty string is the zero value. *)
Definition FinishReason := string.
Definition FinishStop : FinishReason := "stop".
Definition FinishLength : FinishReason := "length".
Definition FinishContentFilter : FinishReason := "content_filter".

Record Usage := MkUsage { InputTokens : Z; OutputTokens : Z }.

#[export] Instance Usage_eq_dec : EqDecision Usage.
Proof. solve_decision. Defined.

Inductive LLMChunk :=
| LLMTextDelta (text : string)
| LLMToolCall (call : ToolCall)
| LLMDone (finish : FinishReason) (usage : Usage)
| LLMError (err : string).

(** ** TTS *)

Record TTSConfig := MkTTSConfig {
  TTS_Voice : string;
  TTS_Speed : float64;
  TTS_SampleRate : Z
}.

Record TTSCaps := MkTTSCaps { IncrementalText : bool; Alignment : bool }.

Record CharTiming := MkCharTiming { CharIndex : Z; CT_StartMs : Z }.

#[export] Instance CharTiming_eq_dec : EqDecision CharTiming.
Proof. solve_decision. Defined.

Record AudioChunk := MkAudioChunk { PCM : list Z; Chunk_Alignment : list CharTiming }.

(** ** Errors *)

Inductive ErrorKind := ErrAuth | ErrRateLimit | ErrTransient | ErrFatal.

#[export] Instance ErrorKind_eq_dec : EqDecision ErrorKind.
Proof. solve_decision. Defined.

Definition ErrorKind_String (k : ErrorKind) : string :=
  match k with
  | ErrAuth => "auth"
  | ErrRateLimit => "rate_limit"
  | ErrTransient => "transient"
  | ErrFatal => "fatal"
  end.

Record Error := MkError { Err_Provider : string; Err_Kind : ErrorKind; Err_Text : string }.

Definition maxBody : Z := 200.

(** The body is cut at 200 bytes. *)
Definition ErrorFromStatus (name : string) (status : Z) (body : string) : Error :=
  let kind :=
    if (status =? 401)%Z || (status =? 403)%Z then ErrAuth
    else if (status =? 429)%Z then ErrRateLimit
    else if (500 <=? status)%Z || (status =? 408)%Z then ErrTransient
    else ErrFatal in
  let body :=
    if (maxBody <? slen body)%Z then string_of (take (Z.to_nat maxBody) (bytes_of body)) ++ "…" else body in
  {| Err_Provider := name; Err_Kind := kind; Err_Text := "http " ++ pretty status ++ ": " ++ body |}.

(** ** Registry *)

(** A factory's result: a built provider of type [P], or an error. [None] of
    [Register] is the panic on a duplicate name. *)
Section registry.
Context {P : Type} (kind_of : P -> Kind).

Abbreviation Factory := (string -> option json -> P + string).
Abbreviation registry := (gmap (Kind * string) Factory).

Definition Register (kind : Kind) (name : string) (f : Factory) (r : registry) : option registry :=
  match r !! (kind, name) with
  | Some _ => None
  | None => Some (<[(kind, name) := f]> r)
  end.

Definition Known (r : registry) (kind : Kind) (name : string) : bool := is_some (r !! (kind, name)).

Definition New (r : registry) (kind : Kind) (name apiKey : string) (options : option json) : P + string :=
  match r !! (kind, name) with
  | None => inr ("provider: unknown " ++ name)
  | Some f =>
      match f apiKey options with
      | inr err => inr err
      | inl p => if bool_decide (kind_of p = kind) then inl p else inr ("provider: wrong kind for " ++ name)
      end
  end.

(** A provider that [New] returns plays the role it was asked for. *)
Lemma New_kind r kind name apiKey options p : New r kind name apiKey options = inl p -> kind_of p = kind.
Proof.
  unfold New. destruct (r !! _) as [f|]; [|done]. destruct (f _ _); [|done].
  case_bool_decide; [|done]. by intros [= ->].
Qed.

(** Only registered names build. *)
Lemma New_known r kind name apiKey options p :
  New r kind name apiKey options = inl p -> Known r kind name = true.
Proof. unfold New, Known. by destruct (r !! _). Qed.

(** Registration is permanent and never replaces a factory. *)
Lemma Register_preserves r r' kind name f kind' name' :
  Register kind name f r = Some r' ->
  Known r' kind' name' = Known r kind' name' || bool_decide ((kind', name') = (kind, name)).
Proof.
  unfold Register, Known. destruct (r !! (kind, name)) eqn:Hr; [done|]. intros [= <-].
  rewrite lookup_insert. case_decide as Hd.
  - rewrite <- Hd, Hr. by rewrite bool_decide_eq_true_2.
  - rewrite bool_decide_eq_false_2 by congruence. by rewrite orb_false_r.
Qed.
End registry.

(** ** Classification *)

Lemma ErrorFromStatus_kind name status body :
  Err_Kind (ErrorFromStatus name status body) =
    if bool_decide (status = 401 \/ status = 403)%Z then ErrAuth
    else if bool_decide (status = 429)%Z then ErrRateLimit
    else if bool_decide (500 <= status \/ status = 408)%Z then ErrTransient
    else ErrFatal.
Proof.
  unfold ErrorFromStatus. simpl.
  repeat case_bool_decide; repeat case_match; try done; bool_arith;
    repeat match goal with H : (_ || _)%bool = true |- _ => apply orb_true_iff in H as [?|?] end;
    zlia.
Qed.

(** ** Main results *)

(** The registry resolves by role and name, permanently: registering a name
    twice for a role is refused (the code panics), a registration leaves every
    other entry as it was, and a provider that [New] returns was built by the
    factory registered for that role and name and plays that role. *)
Theorem registry_resolves {P : Type} (kind_of : P -> Kind)
    (r r' : gmap (Kind * string) (string -> option json -> P + string)) kind name f :
  Register kind name f r = Some r' ->
  Register kind name f r' = None /\
  (forall key opts p, New kind_of r' kind name key opts = inl p <-> f key opts = inl p /\ kind_of p = kind) /\
  (forall kind' name' key opts, (kind', name') <> (kind, name) ->
    New kind_of r' kind' name' key opts = New kind_of r kind' name' key opts) /\
  (forall kind' name' key opts p, New kind_of r' kind' name' key opts = inl p ->
    kind_of p = kind' /\ Known r' kind' name' = true).
Proof.
  unfold Register at 1. destruct (r !! (kind, name)) eqn:Hr; [done|]. intros [= <-].
  split; [unfold Register; by rewrite lookup_insert_eq|]. split; [|split].
  - intros key opts p. unfold New. rewrite lookup_insert_eq. destruct (f key opts) as [q|]; [|naive_solver].
    case_bool_decide; naive_solver.
  - intros kind' name' key opts Hne. unfold New. by rewrite lookup_insert_ne by congruence.
  - intros kind' name' key opts p Hn. split; [by eapply New_kind|by eapply New_known].
Qed.

Lemma registry_resolves_witness :
  New (fun k : Kind => k) {[(KindASR, "mock") := fun _ _ => inl KindASR]} KindASR "mock" "key" None = inl KindASR.
Proof.
  apply (registry_resolves (fun k : Kind => k) ∅ {[(KindASR, "mock") := fun _ _ => inl KindASR]}
    KindASR "mock" (fun _ _ => inl KindASR)); [reflexivity|]. split; reflexivity.
Defined.
