(* ===== verification/Types.v ===== *)
(** * Session facts and commands ([internal/session/types.go])

    Items, the command set that enters the actor, and the event set that
    leaves it. References are opaque positive integers, 0 meaning none. The
    message text of an [EvError] is not modelled; its tag, code, offending
    parameter and fatality are. *)

From S2P Require Export Provider.
#[local] Open Scope string_scope.

Abbreviation ItemRef := Z.
Abbreviation ResponseRef := Z.
Abbreviation Generation := Z.

Inductive CloseReason :=
| CloseClient
| CloseInputOverflow
| CloseBufferOverflow
| CloseProviderError
| CloseSessionTimeout
| CloseContextCancelled.

#[export] Instance CloseReason_eq_dec : EqDecision CloseReason.
Proof. solve_decision. Defined.

(** [ContentNone] is the zero value of [ContentKind]. *)
Inductive ContentKind := ContentNone | ContentText | ContentAudio | ContentToolCall | ContentToolOutput.

#[export] Instance ContentKind_eq_dec : EqDecision ContentKind.
Proof. solve_decision. Defined.

Inductive ItemStatus := ItemInProgress | ItemCompleted | ItemIncomplete.

#[export] Instance ItemStatus_eq_dec : EqDecision ItemStatus.
Proof. solve_decision. Defined.

Record Item := MkItem {
  Ref : ItemRef;
  ClientID : string;
  Role : string;
  Content : ContentKind;
  Status : ItemStatus;
  Text : string;
  AudioMs : Z;
  TranscriptDone : bool;
  Name : string;
  CallID : string
}.

#[export] Instance Item_eq_dec : EqDecision Item.
Proof. solve_decision. Defined.

Record ItemSpec := MkItemSpec {
  Spec_Role : string;
  Spec_Content : ContentKind;
  Spec_Text : string;
  Spec_ClientID : string;
  Spec_CallItem : ItemRef
}.

Inductive ResponseStatus :=
| ResponseInProgress
| ResponseCompleted
| ResponseCancelled
| ResponseIncomplete
| ResponseFailed.

#[export] Instance ResponseStatus_eq_dec : EqDecision ResponseStatus.
Proof. solve_decision. Defined.

Inductive StatusReason :=
| ReasonNone
| ReasonTurnDetected
| ReasonClientCancelled
| ReasonMaxOutputTokens
| ReasonContentFilter.

#[export] Instance StatusReason_eq_dec : EqDecision StatusReason.
Proof. solve_decision. Defined.

(** Tri-state patch value: unset, or set to a possibly-null value. *)
Inductive Nullable (A : Type) :=
| Unset
| SetTo (v : option A).
Arguments Unset {A}.
Arguments SetTo {A} v.

Record SessionPatch := MkSessionPatch {
  Patch_Instructions : option string;
  Patch_OutputModalities : option (list string);
  Patch_Voice : option string;
  Patch_Speed : option float64;
  Patch_MaxOutputTokens : option MaxOutputTokens;
  Patch_Transcription : Nullable Transcription;
  Patch_TurnDetection : Nullable TurnDetection;
  Patch_Tools : option (list Tool);
  Patch_ToolChoice : option ToolChoice
}.

Record ResponseOverrides := MkResponseOverrides {
  Ov_Instructions : option string;
  Ov_OutputModalities : option (list string);
  Ov_MaxOutputTokens : option MaxOutputTokens;
  Ov_Voice : option string;
  Ov_Metadata : option (list (string * string))
}.

(** [ResponseOverrides{}]. *)
Definition no_overrides : ResponseOverrides :=
  {| Ov_Instructions := None; Ov_OutputModalities := None; Ov_MaxOutputTokens := None;
     Ov_Voice := None; Ov_Metadata := None |}.

(** ** Commands *)

Inductive Command :=
| CmdUpdateSession (tag : string) (patch : SessionPatch)
| CmdCommitAudio (tag : string)
| CmdClearAudio (tag : string)
| CmdCreateItem (tag : string) (item : ItemSpec) (previous : ItemRef) (atRoot : bool)
| CmdDeleteItem (tag : string) (id : ItemRef)
| CmdTruncateItem (tag : string) (id : ItemRef) (contentIndex audioEndMs : Z)
| CmdCreateResponse (tag : string) (overrides : ResponseOverrides)
| CmdCancelResponse (tag : string) (resp : ResponseRef)
| CmdClose (tag : string) (reason : CloseReason).

Definition CommandTag (c : Command) : string :=
  match c with
  | CmdUpdateSession t _ | CmdCommitAudio t | CmdClearAudio t | CmdCreateItem t _ _ _
  | CmdDeleteItem t _ | CmdTruncateItem t _ _ _ | CmdCreateResponse t _
  | CmdCancelResponse t _ | CmdClose t _ => t
  end.

(** ** Error codes *)

Inductive ErrCode :=
| ErrCodeNone
| ErrCodeInvalidSession
| ErrCodeBufferEmpty
| ErrCodeBufferOverflow
| ErrCodeInputQueueOverflow
| ErrCodeItemNotFound
| ErrCodeItemNotTruncatable
| ErrCodeInvalidItem
| ErrCodeResponseInProgress
| ErrCodeResponseFailed
| ErrCodeProviderError
| ErrCodeInvalidOverrides
| ErrCodeTranscriptTimeout
| ErrCodeResponseCancelNotActive
| ErrCodeTruncateOutOfRange
| ErrCodeVoiceLocked.

#[export] Instance ErrCode_eq_dec : EqDecision ErrCode.
Proof. solve_decision. Defined.

(** ** Events *)

(** A segment of response text and the audio it produced (offsets in bytes). *)
Record audioSegment := MkSegment { textStart : Z; textEnd : Z; audioStart : Z; audioEnd : Z }.

#[export] Instance audioSegment_eq_dec : EqDecision audioSegment.
Proof. solve_decision. Defined.

(** The public events, then the pipeline's internal progress facts; the facts
    produced by pipeline goroutines carry a generation. *)
Inductive Event :=
| EvSessionUpdated (cfg : SessionDefaults)
| EvError (tag : string) (code : ErrCode) (param : string) (fatal : bool)
| EvAudioBufferCommitted (item previous : ItemRef)
| EvAudioBufferCleared
| EvSpeechStarted (audioStartMs : Z) (item : ItemRef)
| EvSpeechStopped (audioEndMs : Z) (item : ItemRef)
| EvItemAdded (item : Item) (previous : ItemRef)
| EvItemDone (item : Item)
| EvItemDeleted (id : ItemRef)
| EvItemTruncated (id : ItemRef) (contentIndex audioEndMs : Z)
| EvInputTranscriptDelta (item : ItemRef) (delta : string)
| EvInputTranscriptDone (item : ItemRef) (text : string)
| EvResponseCreated (resp : ResponseRef) (modalities : list string) (voice : string)
    (maxTokens : MaxOutputTokens) (metadata : option (list (string * string)))
| EvOutputItemAdded (resp : ResponseRef) (item : Item) (previous : ItemRef)
| EvOutputTextDelta (resp : ResponseRef) (item : ItemRef) (gen : Generation) (delta : string)
| EvOutputAudioTranscriptDelta (resp : ResponseRef) (item : ItemRef) (gen : Generation) (delta : string)
| EvOutputAudioDelta (resp : ResponseRef) (item : ItemRef) (gen : Generation) (pcm : list Z)
| EvToolCallArguments (resp : ResponseRef) (item : ItemRef) (arguments : string)
| EvOutputTextDone (resp : ResponseRef) (item : ItemRef) (text : string)
| EvOutputAudioTranscriptDone (resp : ResponseRef) (item : ItemRef) (text : string)
| EvOutputAudioDone (resp : ResponseRef) (item : ItemRef)
| EvOutputItemDone (resp : ResponseRef) (item : Item)
| EvResponseDone (resp : ResponseRef) (status : ResponseStatus) (reason : StatusReason)
    (errCode : ErrCode) (err : error) (usage : Usage) (output : list Item)
| EvSessionClosed (reason : CloseReason)
| pipeLLMDone (gen : Generation) (finish : FinishReason) (usage : Usage)
| pipeToolCall (gen : Generation) (call : ToolCall)
| pipeTTSDone (gen : Generation)
| pipeTTSStart (gen : Generation)
| pipeSegment (gen : Generation) (seg : audioSegment)
| pipeAlignment (gen : Generation) (timings : list CharTiming)
| pipeError (gen : Generation) (stage : string) (err : string).

(** [stamped.generation()]; [None] when the event is not [stamped]. *)
Definition generation (ev : Event) : option Generation :=
  match ev with
  | EvOutputTextDelta _ _ g _ | EvOutputAudioTranscriptDelta _ _ g _ | EvOutputAudioDelta _ _ g _
  | pipeLLMDone g _ _ | pipeToolCall g _ | pipeTTSDone g | pipeTTSStart g | pipeSegment g _
  | pipeAlignment g _ | pipeError g _ _ => Some g
  | _ => None
  end.
