(* ===== verification/Buffer.v ===== *)
(** * The uncommitted audio buffer ([internal/session/buffer.go])

    State: [inputAudioBuffer]. Operations: [append], [markSpeechStart],
    [markSpeechEnd], [commit], [clear], [trimIdle]. [commit] and [trimIdle]
    slice the buffer; their result is [None] when the Go slice expression
    panics.

    Shown: the size and timeline invariants and their preservation, exactly
    when [commit] panics and exactly what it returns otherwise, that the timeline is
    continuous across clear, commit and trimming, and that an idle caller can
    stay on the line forever without reaching the memory cap. *)

From S2P Require Export Audio.

Record inputAudioBuffer := MkBuffer {
  pcm : list Z;
  baseMs : Z;
  headMs : Z;
  maxBytes : Z;
  segStartMs : Z;
  segEndMs : Z
}.

Definition newInputAudioBuffer (maxMs : Z) : inputAudioBuffer :=
  {| pcm := []; baseMs := 0; headMs := 0; maxBytes := MsToBytes maxMs; segStartMs := -1; segEndMs := -1 |}.

Section operations.
Implicit Types b : inputAudioBuffer.

Definition set_pcm (p : list Z) b : inputAudioBuffer :=
  {| pcm := p; baseMs := baseMs b; headMs := headMs b; maxBytes := maxBytes b;
     segStartMs := segStartMs b; segEndMs := segEndMs b |}.

Definition set_segment (s e : Z) b : inputAudioBuffer :=
  {| pcm := pcm b; baseMs := baseMs b; headMs := headMs b; maxBytes := maxBytes b;
     segStartMs := s; segEndMs := e |}.

(** [None] in the result is [errBufferOverflow]; the buffer is unchanged. *)
Definition append b (p : list Z) : option inputAudioBuffer :=
  if maxBytes b <? zlen (pcm b) + zlen p then None else Some (set_pcm (pcm b ++ p) b).

Definition totalMs b : Z := headMs b + BytesToMs (zlen (pcm b)).

(** The padding is configuration, so the subtraction wraps at 64 bits. *)
Definition markSpeechStart b (offsetMs prefixPaddingMs : Z) : inputAudioBuffer * Z :=
  let start := i64 (baseMs b + offsetMs - prefixPaddingMs) in
  let start := if start <? headMs b then headMs b else start in
  (set_segment start (-1) b, start).

Definition markSpeechEnd b (offsetMs silenceMs : Z) : inputAudioBuffer * Z :=
  let e := i64 (baseMs b + offsetMs + silenceMs) in
  let total := totalMs b in
  let e := if total <? e then total else e in
  (set_segment (segStartMs b) e b, e).

Definition clear b : inputAudioBuffer :=
  let base := totalMs b in
  {| pcm := []; baseMs := base; headMs := base; maxBytes := maxBytes b; segStartMs := -1; segEndMs := -1 |}.

(** The committed interval, in milliseconds of the session timeline. *)
Definition commit_interval b : Z * Z :=
  let startMs := if 0 <=? segStartMs b then segStartMs b else headMs b in
  let endMs := if (0 <=? segEndMs b) && (startMs <? segEndMs b) then segEndMs b else totalMs b in
  (startMs, endMs).

Definition commit_from b : Z := MsToBytes ((commit_interval b).1 - headMs b).
Definition commit_to b : Z :=
  let to := MsToBytes ((commit_interval b).2 - headMs b) in
  if zlen (pcm b) <? to then zlen (pcm b) else to.

(** Outer [None]: the slice expression panics. Inner [None]: nothing to
    commit ([ok] is false). *)
Definition commit b : option (inputAudioBuffer * option (list Z * Z * Z)) :=
  if zlen (pcm b) =? 0 then Some (b, None)
  else
    p ← gslice (pcm b) (commit_from b) (commit_to b);
    Some (clear b, Some (p, (commit_interval b).1, (commit_interval b).2)).

(** [None]: the slice expression panics. *)
Definition trimIdle b (keepMs : Z) : option inputAudioBuffer :=
  if 0 <=? segStartMs b then Some b
  else
    let d := i64 (BytesToMs (zlen (pcm b)) - keepMs) in
    if d <=? 0 then Some b
    else
      p ← gslice (pcm b) (MsToBytes d) (zlen (pcm b));
      Some {| pcm := p; baseMs := baseMs b; headMs := headMs b + d; maxBytes := maxBytes b;
              segStartMs := segStartMs b; segEndMs := segEndMs b |}.
End operations.

(** ** Invariant *)

(** Sizes and timeline. The upper bound is physical: less than [2^56] ms of
    audio (two million years) has passed. *)
Record wf (b : inputAudioBuffer) : Prop := {
  wf_len : zlen (pcm b) <= maxBytes b;
  wf_max : maxBytes b < 2 ^ 62;
  wf_base : 0 <= baseMs b <= headMs b;
  wf_seg : 0 <= segStartMs b -> headMs b <= segStartMs b
}.

Definition in_time (b : inputAudioBuffer) : Prop := totalMs b < 2 ^ 56.

(** The marked segment lies in the audio received so far. *)
Definition segment_in_audio (b : inputAudioBuffer) : Prop :=
  segStartMs b <= totalMs b /\ segEndMs b <= totalMs b.

Lemma totalMs_ge_head b : headMs b <= totalMs b.
Proof. unfold totalMs. pose proof (BytesToMs_nonneg (zlen (pcm b))). pose proof (zlen_nonneg (pcm b)). lia. Qed.

#[export] Hint Resolve totalMs_ge_head : cascade.

Lemma buffer_wf_new maxMs : 0 <= maxMs * 48 < 2 ^ 62 -> wf (newInputAudioBuffer maxMs).
Proof.
  intros. unfold newInputAudioBuffer. rewrite MsToBytes_small by (unfold in_i64; lia).
  split; simpl; rewrite ?zlen_nil; lia.
Qed.

Lemma buffer_append_wf b p b' : wf b -> append b p = Some b' -> wf b'.
Proof.
  intros [? ? ? ?]. unfold append. case_match; [done|]. intros [= <-]. bool_arith.
  split; simpl; rewrite ?zlen_app; done.
Qed.

Lemma append_Some b p b' : append b p = Some b' <->
  zlen (pcm b) + zlen p <= maxBytes b /\ b' = set_pcm (pcm b ++ p) b.
Proof. unfold append. case_match; bool_arith; naive_solver lia. Qed.

Lemma append_None b p : append b p = None <-> maxBytes b < zlen (pcm b) + zlen p.
Proof. unfold append. case_match; bool_arith; naive_solver lia. Qed.

(** The timeline only moves forward. *)
Lemma append_totalMs b p b' : append b p = Some b' -> totalMs b <= totalMs b'.
Proof.
  rewrite append_Some. intros [_ ->]. unfold totalMs. simpl.
  pose proof (zlen_nonneg p). pose proof (zlen_nonneg (pcm b)).
  pose proof (BytesToMs_mono (zlen (pcm b)) (zlen (pcm b ++ p))). rewrite zlen_app in *. lia.
Qed.

Lemma append_segment b p b' : append b p = Some b' -> segment_in_audio b -> segment_in_audio b'.
Proof.
  intros Ha. pose proof (append_totalMs _ _ _ Ha). rewrite append_Some in Ha. destruct Ha as [_ ->].
  unfold segment_in_audio. simpl. lia.
Qed.

Lemma clear_wf b : wf b -> wf (clear b).
Proof.
  intros [? ? ? ?]. pose proof (totalMs_ge_head b). pose proof (zlen_nonneg (pcm b)).
  split; simpl; rewrite ?zlen_nil; lia.
Qed.

(** Clearing continues the timeline from the current position. *)
Lemma clear_totalMs b : totalMs (clear b) = totalMs b.
Proof. unfold totalMs at 1. simpl. change (BytesToMs (zlen [])) with 0. lia. Qed.

Lemma clear_segment b : 0 <= totalMs b -> segment_in_audio (clear b).
Proof. intros. unfold segment_in_audio. rewrite clear_totalMs. simpl. lia. Qed.

Lemma markSpeechStart_wf b o pp : wf b -> wf (markSpeechStart b o pp).1.
Proof. intros [? ? ? ?]. split; simpl; try done. intros _. case_match; bool_arith; lia. Qed.

Lemma markSpeechEnd_wf b o sl : wf b -> wf (markSpeechEnd b o sl).1.
Proof. intros [? ? ? ?]. split; simpl; done. Qed.

#[export] Hint Resolve buffer_append_wf clear_wf markSpeechStart_wf markSpeechEnd_wf : cascade.

(** A start reported inside the audio since the detector's origin marks a
    segment inside the buffered audio. *)
Lemma markSpeechStart_segment b o pp :
  wf b -> in_time b -> 0 <= pp < 2 ^ 63 -> 0 <= o -> baseMs b + o <= totalMs b ->
  segment_in_audio (markSpeechStart b o pp).1 /\
  (markSpeechStart b o pp).2 = Z.max (headMs b) (baseMs b + o - pp).
Proof.
  intros [? ? ? ?] ? ? ? ?. unfold in_time in *. pose proof (totalMs_ge_head b).
  unfold markSpeechStart, segment_in_audio. rewrite i64_id by (unfold in_i64; lia).
  change (totalMs _) with (totalMs b). simpl. case_match; bool_arith; lia.
Qed.

Lemma markSpeechEnd_segment b o sl :
  segment_in_audio b -> segment_in_audio (markSpeechEnd b o sl).1 /\ (markSpeechEnd b o sl).2 <= totalMs b.
Proof.
  intros [? ?]. unfold markSpeechEnd, segment_in_audio. simpl.
  change (totalMs (set_segment _ _ b)) with (totalMs b). case_match; bool_arith; lia.
Qed.

(** ** Commit *)

Lemma commit_cases b r : commit b = Some r ->
  (pcm b = [] /\ r = (b, None)) \/
  (pcm b <> [] /\ exists p s e, r = (clear b, Some (p, s, e)) /\ (s, e) = commit_interval b).
Proof.
  unfold commit. case_match eqn:Hl; bool_arith.
  - intros [= <-]. left. split; [by apply zlen_0_nil|done].
  - intros (p & Hp & Hr)%bind_Some. injection Hr as <-. right.
    split; [intros Hn; by rewrite Hn in Hl|]. destruct (commit_interval b) as [s e] eqn:Hi. eauto 10.
Qed.

Lemma commit_wf b b' r : wf b -> commit b = Some (b', r) -> wf b'.
Proof.
  intros Hwf [[_ [= -> _]]|(_ & p & s & e & [= -> _] & _)]%commit_cases; [done|by apply clear_wf].
Qed.

Lemma commit_totalMs b b' r : commit b = Some (b', r) -> totalMs b' = totalMs b.
Proof.
  intros [[_ [= -> _]]|(_ & p & s & e & [= -> _] & _)]%commit_cases; [done|apply clear_totalMs].
Qed.

#[export] Hint Resolve commit_wf : cascade.

(** ** Trimming *)

Record trimmed (b : inputAudioBuffer) (keep : Z) (b' : inputAudioBuffer) : Prop := {
  tr_wf : wf b';
  tr_total : totalMs b' = totalMs b;
  tr_seg : segStartMs b' = segStartMs b /\ segEndMs b' = segEndMs b;
  tr_suffix : exists n, pcm b' = drop n (pcm b);
  tr_bound : segStartMs b < 0 -> BytesToMs (zlen (pcm b')) <= keep;
  tr_marked : 0 <= segStartMs b -> b' = b;
  tr_base : baseMs b' = baseMs b /\ maxBytes b' = maxBytes b
}.

Lemma trimmed_refl b keep :
  wf b -> (segStartMs b < 0 -> BytesToMs (zlen (pcm b)) <= keep) -> trimmed b keep b.
Proof. intros. split; try done. by exists 0%nat. Qed.

Lemma trimIdle_ok b keep : wf b -> in_time b -> 0 <= keep < 2 ^ 63 ->
  exists b', trimIdle b keep = Some b' /\ trimmed b keep b'.
Proof.
  intros Hwf Ht Hk. pose proof Hwf as [? ? ? ?]. unfold in_time, trimIdle in *.
  pose proof (BytesToMs_bounds (zlen (pcm b)) (zlen_nonneg _)) as Hb.
  pose proof (BytesToMs_nonneg (zlen (pcm b)) (zlen_nonneg _)).
  destruct (0 <=? segStartMs b) eqn:Hseg; bool_arith.
  { exists b. split; [done|]. apply trimmed_refl; [done|lia]. }
  rewrite i64_id by (unfold in_i64, totalMs in *; lia).
  case_match; bool_arith.
  { exists b. split; [done|]. apply trimmed_refl; [done|lia]. }
  rewrite MsToBytes_small by (unfold in_i64, totalMs in *; lia).
  set (d := BytesToMs (zlen (pcm b)) - keep) in *.
  rewrite gslice_Some by lia. simpl.
  assert (Hlen : zlen (take (Z.to_nat (zlen (pcm b) - d * 48)) (drop (Z.to_nat (d * 48)) (pcm b))) = zlen (pcm b) - d * 48).
  { rewrite zlen_take, zlen_drop by lia. lia. }
  assert (Hms : BytesToMs (zlen (pcm b) - d * 48) = keep).
  { rewrite BytesToMs_div by lia. replace (zlen (pcm b) - d * 48) with (zlen (pcm b) + (- d) * 48) by lia.
    rewrite Z.div_add by lia. unfold d. rewrite (BytesToMs_div (zlen (pcm b))) by apply zlen_nonneg. lia. }
  eexists. split; [done|]. split; simpl; try done.
  - split; simpl; try lia.
  - unfold totalMs. simpl. rewrite Hlen, Hms. unfold d. lia.
  - exists (Z.to_nat (d * 48)). apply take_ge. rewrite length_drop. unfold zlen. lia.
  - rewrite Hlen, Hms. lia.
  - lia.
Qed.

(** ** An idle caller never reaches the cap *)

(** Audio frames fed in a VAD mode with no speech segment marked: each is
    appended, then the head is trimmed. *)
Fixpoint feed_idle (keep : Z) (frames : list (list Z)) (b : inputAudioBuffer) : option inputAudioBuffer :=
  match frames with
  | [] => Some b
  | p :: frames => b1 ← append b p; b2 ← trimIdle b1 keep; feed_idle keep frames b2
  end.

Lemma feed_idle_ok keep k frames b :
  wf b -> segStartMs b < 0 -> 0 <= keep -> 48 * (keep + 1) + k <= maxBytes b ->
  BytesToMs (zlen (pcm b)) <= keep -> Forall (fun p => zlen p <= k) frames ->
  totalMs b + foldr (fun p n => BytesToMs (zlen p) + 1 + n) 0 frames < 2 ^ 56 ->
  exists b', feed_idle keep frames b = Some b' /\ BytesToMs (zlen (pcm b')) <= keep.
Proof.
  intros Hwf Hs Hk Hmax Hb HF Ht. revert b Hwf Hs Hmax Hb Ht.
  induction HF as [|p frames Hp HF IH]; intros b Hwf Hs Hmax Hb Ht; simpl in *; [eauto|].
  pose proof (BytesToMs_bounds (zlen (pcm b)) (zlen_nonneg _)).
  assert (Ha : append b p = Some (set_pcm (pcm b ++ p) b)) by (apply append_Some; split; [lia|done]).
  rewrite Ha. simpl. pose proof (buffer_append_wf _ _ _ Hwf Ha) as Hwf1.
  set (b1 := set_pcm (pcm b ++ p) b) in *.
  pose proof (zlen_nonneg (pcm b)). pose proof (zlen_nonneg p).
  assert (Ht1 : totalMs b1 <= totalMs b + BytesToMs (zlen p) + 1).
  { unfold totalMs, b1. simpl. rewrite zlen_app.
    pose proof (BytesToMs_bounds (zlen p)). pose proof (BytesToMs_bounds (zlen (pcm b) + zlen p)). lia. }
  assert (0 <= foldr (fun p n => BytesToMs (zlen p) + 1 + n) 0 frames).
  { clear. induction frames as [|q frames IH]; simpl; [lia|].
    pose proof (BytesToMs_nonneg (zlen q) (zlen_nonneg q)). lia. }
  destruct (trimIdle_ok b1 keep Hwf1) as (b2 & Htr & [Hwf2 Htot [Hs2 _] _ Hbd _ [_ Hm]]).
  { unfold in_time. lia. }
  { destruct Hwf. lia. }
  rewrite Htr. simpl. specialize (Hbd Hs). apply IH; try done.
  - by rewrite Hs2.
  - by rewrite Hm.
  - rewrite Htot. lia.
Qed.

(** ** Main results *)

(** The offsets of the slice where the marks are in time, whether or not they
    lie in the audio. *)
Lemma commit_offsets_any b : wf b -> in_time b -> segStartMs b < 2 ^ 56 -> segEndMs b < 2 ^ 56 ->
  headMs b <= (commit_interval b).1 /\ commit_from b = 48 * ((commit_interval b).1 - headMs b) /\
  commit_to b = Z.min (zlen (pcm b)) (48 * ((commit_interval b).2 - headMs b)) /\
  (totalMs b < (commit_interval b).1 <-> totalMs b < segStartMs b) /\
  ((commit_interval b).2 = totalMs b \/ (commit_interval b).1 < (commit_interval b).2 /\ (commit_interval b).2 = segEndMs b).
Proof.
  intros [? ? ? Hs] Ht ? ?. unfold in_time in Ht. pose proof (totalMs_ge_head b) as Hh.
  assert (H1 : headMs b <= (commit_interval b).1 < 2 ^ 56 /\ (commit_interval b).2 < 2 ^ 56 /\
    (totalMs b < (commit_interval b).1 <-> totalMs b < segStartMs b) /\
    ((commit_interval b).2 = totalMs b \/ (commit_interval b).1 < (commit_interval b).2 /\ (commit_interval b).2 = segEndMs b)).
  { unfold commit_interval. simpl. destruct (0 <=? segStartMs b) eqn:E; bool_arith;
      destruct (0 <=? segEndMs b) eqn:E'; bool_arith; simpl; try case_match; bool_arith; split_and!; try lia;
      (by left) || (right; lia). }
  destruct H1 as (H1 & H2 & H3 & H4). split; [lia|]. unfold commit_from, commit_to.
  rewrite !MsToBytes_small by (unfold in_i64; lia). split; [lia|]. split; [case_match; bool_arith; lia|]. by split.
Qed.

(** A slice that starts beyond the audio held: its end is before its start. *)
Lemma commit_reversed b : wf b -> in_time b -> segStartMs b < 2 ^ 56 -> segEndMs b < 2 ^ 56 ->
  commit_to b < commit_from b <-> totalMs b < segStartMs b.
Proof.
  intros Hwf Ht H1 H2. destruct (commit_offsets_any b Hwf Ht H1 H2) as (Hh & -> & -> & <- & He).
  pose proof (BytesToMs_bounds (zlen (pcm b)) (zlen_nonneg _)). unfold totalMs in *. destruct He; lia.
Qed.

(** C21. What commit does with the buffer. An empty buffer commits nothing. A
    non-empty one panics exactly when the marked start lies beyond the audio it
    holds; otherwise it returns exactly the audio of the marked segment: the
    interval starts at the marked start (the buffer's head when no speech is
    marked) and ends at the marked end, or at the end of the audio when the segment
    is still open; the payload is the stretch of bytes of that interval, all 48 per
    millisecond of it that the buffer holds; and the timeline continues where it
    was, with nothing buffered and nothing marked. Times are taken below 2^56 ms,
    where the byte offsets fit 64 bits. *)
Theorem commit_returns_marked_audio b :
  wf b -> in_time b -> segStartMs b < 2 ^ 56 -> segEndMs b < 2 ^ 56 ->
  (pcm b = [] -> commit b = Some (b, None)) /\
  (pcm b <> [] -> (commit b = None <-> totalMs b < segStartMs b)) /\
  (pcm b <> [] -> segStartMs b <= totalMs b ->
   exists audio s e b', commit b = Some (b', Some (audio, s, e)) /\
    headMs b <= s <= e /\ (segEndMs b <= totalMs b -> e <= totalMs b) /\
    s = (if 0 <=? segStartMs b then segStartMs b else headMs b) /\
    e = (if (0 <=? segEndMs b) && (s <? segEndMs b) then segEndMs b else totalMs b) /\
    (exists before after, pcm b = before ++ audio ++ after /\ zlen before = 48 * (s - headMs b) /\
       zlen audio = Z.min (48 * (e - s)) (zlen (pcm b) - zlen before) /\
       (segEndMs b <= totalMs b -> zlen audio = 48 * (e - s))) /\
    wf b' /\ pcm b' = [] /\ segStartMs b' < 0 /\ segEndMs b' < 0 /\ headMs b' = totalMs b /\ totalMs b' = totalMs b).
Proof.
  intros Hwf Ht H1 H2. pose proof (commit_reversed b Hwf Ht H1 H2) as Hrev.
  destruct (commit_offsets_any b Hwf Ht H1 H2) as (Hh & Hfrom & Hto & Hst & Hend).
  assert (Hz : pcm b <> [] -> (zlen (pcm b) =? 0) = false)
    by (intros Hne; apply Z.eqb_neq; intros Hz0; by apply Hne, zlen_0_nil).
  pose proof (zlen_nonneg (pcm b)) as Hlen. split; [|split].
  - intros He. unfold commit. by rewrite He.
  - intros Hne%Hz. unfold commit. rewrite Hne, <- Hrev.
    destruct (gslice (pcm b) (commit_from b) (commit_to b)) as [q|] eqn:Hg; simpl.
    + split; [done|]. intros Hlt. assert (Hn : gslice (pcm b) (commit_from b) (commit_to b) = None)
        by (apply gslice_None; lia). congruence.
    + split; [|done]. intros _. apply gslice_None in Hg. lia.
  - intros Hne%Hz Hle. assert (Hft : commit_from b <= commit_to b) by lia.
    pose proof (BytesToMs_bounds (zlen (pcm b)) (zlen_nonneg _)) as Hms.
    unfold commit. rewrite Hne, gslice_Some by lia. cbn [mbind option_bind].
    do 4 eexists. split; [reflexivity|]. split; [unfold totalMs in *; destruct Hend; lia|].
    split; [unfold totalMs in *; destruct Hend; lia|]. split; [done|]. split; [done|]. split.
    + exists (take (Z.to_nat (commit_from b)) (pcm b)), (drop (Z.to_nat (commit_to b)) (pcm b)).
      rewrite !zlen_take, zlen_drop by (rewrite ?zlen_drop; lia). split; [|unfold totalMs in *; destruct Hend; lia].
      replace (Z.to_nat (commit_to b)) with (Z.to_nat (commit_from b) + Z.to_nat (commit_to b - commit_from b))%nat by lia.
      by rewrite <- drop_drop, !take_drop.
    + split; [by apply clear_wf|]. simpl. rewrite clear_totalMs. split; [done|]. split; [lia|]. split; [lia|done].
Qed.

(** Three milliseconds of which the second is marked; and a start that is beyond
    them. *)
Definition held : inputAudioBuffer := set_pcm (replicate 96 7 ++ replicate 48 0) (newInputAudioBuffer 1000).

Lemma commit_returns_marked_audio_witness :
  (exists audio b', commit (set_segment 1 2 held) = Some (b', Some (audio, 1, 2)) /\ zlen audio = 48) /\
  commit (set_segment 4 (-1) held) = None.
Proof.
  assert (Hw : forall s e, 0 <= s < 10 -> wf (set_segment s e held)).
  { intros s e Hs. split; [by vm_compute|by vm_compute|split; by vm_compute|]. intros _. change (0 <= s). lia. }
  split.
  - destruct (commit_returns_marked_audio (set_segment 1 2 held)) as (_ & _ & H);
      [apply Hw; split; [discriminate|done]|by vm_compute..|].
    destruct H as (audio & s & e & b' & Hc & _ & _ & -> & -> & (before & after & _ & _ & _ & Hl) & _);
      [by vm_compute|by vm_compute|]. exists audio, b'. split; [exact Hc|]. apply Hl. by vm_compute.
  - apply (commit_returns_marked_audio (set_segment 4 (-1) held));
      [apply Hw; split; [discriminate|done]|by vm_compute..].
Defined.

(** An idle caller can stay on the line: whatever frames arrive while no
    speech is marked, appending each and trimming the head to [keep]
    milliseconds never overflows the memory cap and never panics, and no more
    than [keep] milliseconds stay buffered. *)
Theorem idle_caller_never_overflows keep k frames b :
  wf b -> segStartMs b < 0 -> 0 <= keep -> 48 * (keep + 1) + k <= maxBytes b ->
  BytesToMs (zlen (pcm b)) <= keep -> Forall (fun p => zlen p <= k) frames ->
  totalMs b + foldr (fun p n => BytesToMs (zlen p) + 1 + n) 0 frames < 2 ^ 56 ->
  exists b', feed_idle keep frames b = Some b' /\ BytesToMs (zlen (pcm b')) <= keep.
Proof. apply feed_idle_ok. Qed.

Lemma idle_caller_never_overflows_witness :
  exists b', feed_idle 0 [[1; 2; 3; 4]; [5; 6]] (newInputAudioBuffer 10) = Some b' /\
    BytesToMs (zlen (pcm b')) <= 0.
Proof.
  apply (idle_caller_never_overflows 0 4).
  - apply buffer_wf_new. clear. lia.
  - by vm_compute.
  - done.
  - by vm_compute.
  - by vm_compute.
  - repeat constructor; by vm_compute.
  - by vm_compute.
Defined.
