(* ===== verification/Sentencer.v ===== *)
(** * The sentencer ([internal/session/sentencer.go])

    Splits streaming text into TTS-sized sentences by punctuation. State:
    [sentencer]. Operations: [push], [flush]; [findBoundary] is their scanner.

    Shown: the scanner's bounds and the termination of both loops (each has
    fuel that is proved sufficient), that the sentences tile the text exactly
    however it is cut into chunks, and that only the last one may be short. *)

From S2P Require Export Utf8.

Definition minSentenceRunes : Z := 6.

(** [S_Text] is the span as bytes. *)
Record sentence := MkSentence { S_Text : list Z; Start : Z; End : Z }.

#[export] Instance sentence_eq_dec : EqDecision sentence.
Proof. solve_decision. Defined.

Record sentencer := MkSentencer { buf : list Z; base : Z; scan : Z }.

(** ** Character classes *)

Definition isCJKTerminator (r : Z) : bool := (r =? 12290) || (r =? 65281) || (r =? 65311).
Definition isTerminator (r : Z) : bool := (r =? 46) || (r =? 33) || (r =? 63) || isCJKTerminator r.
Definition isClosingQuote (r : Z) : bool :=
  (r =? 34) || (r =? 39) || (r =? 41) || (r =? 8221) || (r =? 8217) || (r =? 12301) || (r =? 12303).

(** [strings.ContainsAny(string(b), ...)]. *)
Definition cjkInRun (b : list Z) : bool := existsb isCJKTerminator (runes b).

Definition abbreviations : list string := ["dr"; "mr"; "mrs"; "ms"; "prof"; "st"; "vs"]%string.

(** [strings.ToLower], on the ASCII letters; no other rune lowers to a letter
    of an abbreviation. *)
Definition to_lower (b : list Z) : list Z :=
  map (fun c => if (65 <=? c) && (c <=? 90) then c + 32 else c) b.

(** Start of the letters that end [b[:e]]. *)
Fixpoint word_start (fuel : nat) (b : list Z) (start : Z) : Z :=
  match fuel with
  | O => start
  | S fuel =>
      if 0 <? start then
        let '(r, size) := DecodeLastRune (take (Z.to_nat start) b) in
        if negb (IsLetter r) then start else word_start fuel b (start - size)
      else start
  end.

Definition isAbbreviation (b : list Z) : bool :=
  let start := word_start (length b) b (zlen b) in
  let word := drop (Z.to_nat start) b in
  if zlen word =? 0 then false
  else if RuneCount word =? 1 then true
  else existsb (fun a => bool_decide (bytes_of a = to_lower word)) abbreviations.

(** ** Scanning *)

(** An encoding cut off at the end of the chunk. *)
Definition incomplete (p : list Z) (r size : Z) : bool :=
  (r =? RuneError) && (size =? 1) && negb (FullRune p).

Definition at_ (b : list Z) (i : Z) : list Z := drop (Z.to_nat i) b.

(** End of the run of terminators and closing quotes at [j]; [None] when the
    run ends in an incomplete rune. *)
Fixpoint run_end (fuel : nat) (b : list Z) (j : Z) : option Z :=
  match fuel with
  | O => Some j
  | S fuel =>
      if j <? zlen b then
        let '(r, size) := DecodeRune (at_ b j) in
        if incomplete (at_ b j) r size then None
        else if negb (isTerminator r) && negb (isClosingQuote r) then Some j
        else run_end fuel b (j + size)
      else Some j
  end.

(** The loop of [findBoundary] from [i]: the final [scan] (unchanged on the
    early "need more text" returns) and the boundary found. *)
Fixpoint scan_loop (fuel : nat) (b : list Z) (scan0 i : Z) : Z * option Z :=
  match fuel with
  | O => (i, None)
  | S fuel =>
      if i <? zlen b then
        let '(r, size) := DecodeRune (at_ b i) in
        if incomplete (at_ b i) r size then (scan0, None)
        else if r =? 10 then (i + size, Some (i + size))
        else if negb (isTerminator r) then scan_loop fuel b scan0 (i + size)
        else
          match run_end (length b) b (i + size) with
          | None => (scan0, None)
          | Some j =>
              if isCJKTerminator r || cjkInRun (take (Z.to_nat (j - i)) (at_ b i)) then (j, Some j)
              else if zlen b <=? j then (scan0, None)
              else
                let '(next, _) := DecodeRune (at_ b j) in
                if IsSpace next && negb (isAbbreviation (take (Z.to_nat i) b)) then (j, Some j)
                else scan_loop fuel b scan0 j
          end
      else (i, None)
  end.

Definition set_scan (n : Z) (s : sentencer) : sentencer :=
  {| buf := buf s; base := base s; scan := n |}.

Definition findBoundary (s : sentencer) : sentencer * option Z :=
  let '(sc, e) := scan_loop (S (length (buf s))) (buf s) (scan s) (scan s) in
  (set_scan sc s, e).

Definition take_ (s : sentencer) (e : Z) : sentencer * sentence :=
  ({| buf := drop (Z.to_nat e) (buf s); base := base s + e; scan := 0 |},
   {| S_Text := take (Z.to_nat e) (buf s); Start := base s; End := base s + e |}).

Fixpoint push_loop (fuel : nat) (s : sentencer) : sentencer * list sentence :=
  match fuel with
  | O => (s, [])
  | S fuel =>
      let '(s1, b) := findBoundary s in
      match b with
      | None => (s1, [])
      | Some e =>
          if RuneCount (take (Z.to_nat e) (buf s1)) <? minSentenceRunes
          then push_loop fuel (set_scan e s1)
          else
            let '(s2, sn) := take_ s1 e in
            let '(s3, out) := push_loop fuel s2 in
            (s3, sn :: out)
      end
  end.

Definition push (s : sentencer) (chunk : list Z) : sentencer * list sentence :=
  let s1 := {| buf := buf s ++ chunk; base := base s; scan := scan s |} in
  push_loop (S (length (buf s1))) s1.

Definition flush (s : sentencer) : sentencer * option sentence :=
  if zlen (buf s) =? 0 then (s, None)
  else let '(s1, sn) := take_ s (zlen (buf s)) in (s1, Some sn).

Definition newSentencer : sentencer := {| buf := []; base := 0; scan := 0 |}.

(** The whole stage: push every chunk, then flush. *)
Fixpoint push_all (s : sentencer) (chunks : list (list Z)) : sentencer * list sentence :=
  match chunks with
  | [] => (s, [])
  | c :: chunks =>
      let '(s1, o1) := push s c in
      let '(s2, o2) := push_all s1 chunks in
      (s2, o1 ++ o2)
  end.

Definition split_stream (chunks : list (list Z)) : list sentence :=
  let '(s, out) := push_all newSentencer chunks in
  let '(_, last) := flush s in
  out ++ option_list last.

(** ** Bounds of the scanner *)

Lemma at_size b i : 0 <= i -> i < zlen b ->
  1 <= (DecodeRune (at_ b i)).2 /\ i + (DecodeRune (at_ b i)).2 <= zlen b.
Proof.
  intros. assert (at_ b i <> []) as Hne.
  { intros Hn. assert (zlen (at_ b i) = 0) by (by rewrite Hn).
    unfold at_ in *. rewrite zlen_drop in * by lia. lia. }
  pose proof (DecodeRune_size _ Hne) as Hs. unfold at_ in *. rewrite zlen_drop in Hs by lia. lia.
Qed.

Lemma run_end_bounds fuel b j e : 0 <= j <= zlen b -> run_end fuel b j = Some e -> j <= e <= zlen b.
Proof.
  revert j. induction fuel as [|fuel IH]; intros j Hj; simpl; [intros [= <-]; lia|].
  case_match; bool_arith; [|intros [= <-]; lia].
  pose proof (at_size b j ltac:(lia) ltac:(lia)) as Hs.
  destruct (DecodeRune (at_ b j)) as [r size]. simpl in Hs.
  case_match; [done|]. case_match; [intros [= <-]; lia|]. intros He.
  apply IH in He; lia.
Qed.

Lemma run_end_fuel fuel fuel' b j : 0 <= j <= zlen b ->
  zlen b - j <= Z.of_nat fuel -> zlen b - j <= Z.of_nat fuel' -> run_end fuel b j = run_end fuel' b j.
Proof.
  revert j fuel'. induction fuel as [|fuel IH]; intros j fuel' Hj Hf Hf'.
  - destruct fuel'; simpl; [done|]. by rewrite (proj2 (Z.ltb_ge _ _)) by lia.
  - destruct fuel'; simpl.
    + by rewrite (proj2 (Z.ltb_ge _ _)) by lia.
    + destruct (j <? zlen b) eqn:Hlt; bool_arith; [|done].
      pose proof (at_size b j ltac:(lia) ltac:(lia)) as Hs.
      destruct (DecodeRune (at_ b j)) as [r size]. simpl in Hs.
      do 2 (case_match; [done|]). apply IH; lia.
Qed.

(** A boundary lies strictly beyond where the scan began; [scan] never moves
    back. *)
Lemma scan_loop_bounds fuel b scan0 i sc e :
  0 <= scan0 <= i -> i <= zlen b -> scan_loop fuel b scan0 i = (sc, e) ->
  scan0 <= sc <= zlen b /\ (forall x, e = Some x -> i < x <= zlen b /\ sc = x).
Proof.
  revert i. induction fuel as [|fuel IH]; intros i H0 Hi; simpl.
  { intros [= <- <-]. split; [lia|done]. }
  destruct (i <? zlen b) eqn:Hlt; bool_arith; [|intros [= <- <-]; split; [lia|done]].
  pose proof (at_size b i ltac:(lia) ltac:(lia)) as Hs.
  destruct (DecodeRune (at_ b i)) as [r size]. simpl in Hs.
  case_match; [intros [= <- <-]; split; [lia|done]|].
  case_match; [intros [= <- <-]; split; [lia|intros ? [= <-]; lia]|].
  case_match; [intros Hl; apply IH in Hl; [destruct Hl as [? Hx]; split; [lia|]; intros x Hex; specialize (Hx x Hex); lia|lia|lia]|].
  destruct (run_end _ _ _) as [j|] eqn:Hr; [|intros [= <- <-]; split; [lia|done]].
  apply run_end_bounds in Hr; [|lia].
  case_match; [intros [= <- <-]; split; [lia|intros ? [= <-]; lia]|].
  case_match; [intros [= <- <-]; split; [lia|done]|].
  destruct (DecodeRune (at_ b j)) as [next ?].
  case_match; [intros [= <- <-]; split; [lia|intros ? [= <-]; lia]|].
  intros Hl; apply IH in Hl; [destruct Hl as [? Hx]; split; [lia|]; intros x Hex; specialize (Hx x Hex); lia|lia|bool_arith; lia].
Qed.

Lemma scan_loop_fuel fuel fuel' b scan0 i : 0 <= i <= zlen b ->
  zlen b - i < Z.of_nat fuel -> zlen b - i < Z.of_nat fuel' ->
  scan_loop fuel b scan0 i = scan_loop fuel' b scan0 i.
Proof.
  revert i fuel'. induction fuel as [|fuel IH]; intros i [|fuel'] Hi Hf Hf'; [lia..|]. simpl.
  destruct (i <? zlen b) eqn:Hlt; bool_arith; [|done].
  pose proof (at_size b i ltac:(lia) ltac:(lia)) as Hs.
  destruct (DecodeRune (at_ b i)) as [r size]. simpl in Hs.
  do 2 (case_match; [done|]). case_match; [apply IH; lia|].
  destruct (run_end _ _ _) as [j|] eqn:Hr; [|done]. apply run_end_bounds in Hr; [|lia].
  do 2 (case_match; [done|]). destruct (DecodeRune (at_ b j)). case_match; [done|]. apply IH; lia.
Qed.

(** ** Invariant and tiling *)

Definition wf (s : sentencer) : Prop := 0 <= scan s <= zlen (buf s) /\ 0 <= base s.

Lemma findBoundary_spec s s1 e : wf s -> findBoundary s = (s1, e) ->
  buf s1 = buf s /\ base s1 = base s /\ wf s1 /\
  (forall x, e = Some x -> scan s < x <= zlen (buf s)) /\ scan s <= scan s1.
Proof.
  intros [Hw ?]. unfold findBoundary. destruct (scan_loop _ _ _ _) as [sc b] eqn:Hl. intros [= <- <-].
  apply scan_loop_bounds in Hl; [|lia|lia]. destruct Hl as [? Hx].
  repeat split; simpl; try lia; destruct (Hx _ H1); lia.
Qed.

(** [tile pos sns txt]: consecutive sentences starting at byte [pos] whose
    texts concatenate to [txt]. *)
Fixpoint tile (pos : Z) (sns : list sentence) (txt : list Z) : Prop :=
  match sns with
  | [] => txt = []
  | sn :: sns =>
      Start sn = pos /\ End sn = pos + zlen (S_Text sn) /\ 1 <= zlen (S_Text sn) /\
      exists rest, txt = S_Text sn ++ rest /\ tile (End sn) sns rest
  end.

Lemma tile_app pos sns1 sns2 t1 t2 :
  tile pos sns1 t1 -> tile (pos + zlen t1) sns2 t2 -> tile pos (sns1 ++ sns2) (t1 ++ t2).
Proof.
  revert pos t1. induction sns1 as [|sn sns1 IH]; intros pos t1; simpl.
  - intros -> H. by rewrite zlen_nil, Z.add_0_r in H.
  - intros (? & He & ? & rest & -> & Ht) H2. repeat split; try done.
    exists (rest ++ t2). rewrite app_assoc. split; [done|]. apply IH; [done|].
    rewrite He. rewrite zlen_app in H2. by rewrite <- Z.add_assoc.
Qed.

(** What one push does: the sentences it returns tile a prefix of the text
    not yet consumed, and the rest stays buffered. *)
Lemma take_length_e (l : list Z) e : 0 <= e <= zlen l -> zlen (take (Z.to_nat e) l) = e.
Proof. intros. rewrite zlen_take by lia. lia. Qed.

Lemma push_loop_spec fuel s s' out :
  wf s -> zlen (buf s) - scan s < Z.of_nat fuel -> push_loop fuel s = (s', out) ->
  wf s' /\ Forall (fun sn => minSentenceRunes <= RuneCount (S_Text sn)) out /\
  exists t, buf s = t ++ buf s' /\ tile (base s) out t /\ base s' = base s + zlen t.
Proof.
  revert s s' out. induction fuel as [|fuel IH]; intros s s' out Hw Hf; [destruct Hw; lia|]. simpl.
  destruct (findBoundary s) as [s1 e] eqn:Hb.
  pose proof (findBoundary_spec _ _ _ Hw Hb) as (Hbuf & Hbase & Hw1 & He & Hsc).
  destruct s as [b bs sc], s1 as [b1 bs1 sc1]. simpl in *. subst b1 bs1.
  destruct Hw as [Hw Hw'], Hw1 as [Hw1 _]. simpl in *.
  destruct e as [e|]; [specialize (He e eq_refl); case_match; bool_arith|].
  - intros Hl. apply IH in Hl; simpl; [done|split; simpl; lia|lia].
  - destruct (push_loop fuel _) as [s3 out'] eqn:Hl. intros [= <- <-].
    pose proof (take_length_e b e ltac:(lia)) as Hlt.
    apply IH in Hl; simpl; [|split; simpl; [pose proof (zlen_nonneg (drop (Z.to_nat e) b))|]; lia
      |rewrite zlen_drop by lia; lia].
    destruct Hl as (Hw3 & HF & t & Ht & Htile & Hb3). simpl in *.
    split; [done|]. split; [by constructor|].
    exists (take (Z.to_nat e) b ++ t). rewrite Hlt, zlen_app, Hlt. repeat split; try lia.
    + by rewrite <- app_assoc, <- Ht, take_drop.
    + exists t. done.
  - intros [= <- <-]. simpl. split; [by split|]. split; [constructor|]. exists [].
    rewrite zlen_nil. repeat split; lia.
Qed.

Lemma push_spec s chunk s' out : wf s -> push s chunk = (s', out) ->
  wf s' /\ Forall (fun sn => minSentenceRunes <= RuneCount (S_Text sn)) out /\
  exists t, buf s ++ chunk = t ++ buf s' /\ tile (base s) out t /\ base s' = base s + zlen t.
Proof.
  intros [? ?] Hp. unfold push in Hp. apply push_loop_spec in Hp; [done| |].
  - split; simpl; [|done]. rewrite zlen_app. pose proof (zlen_nonneg chunk). lia.
  - simpl. unfold zlen. lia.
Qed.

Lemma push_all_spec chunks : forall s s' out, wf s -> push_all s chunks = (s', out) ->
  wf s' /\ Forall (fun sn => minSentenceRunes <= RuneCount (S_Text sn)) out /\
  exists t, buf s ++ mjoin chunks = t ++ buf s' /\ tile (base s) out t /\ base s' = base s + zlen t.
Proof.
  induction chunks as [|c chunks IH]; intros s s' out Hw; simpl.
  - intros [= <- <-]. split; [done|]. split; [constructor|]. exists [].
    rewrite app_nil_r, zlen_nil. repeat split; lia.
  - destruct (push s c) as [s1 o1] eqn:H1. destruct (push_all s1 chunks) as [s2 o2] eqn:H2.
    intros [= <- <-]. apply push_spec in H1 as (Hw1 & HF1 & t1 & Ht1 & Hti1 & Hb1); [|done].
    apply IH in H2 as (Hw2 & HF2 & t2 & Ht2 & Hti2 & Hb2); [|done].
    split; [done|]. split; [by apply Forall_app|]. exists (t1 ++ t2). repeat split.
    + by rewrite app_assoc, Ht1, <- !app_assoc, Ht2.
    + apply tile_app; [done|]. by rewrite <- Hb1.
    + rewrite zlen_app. lia.
Qed.

Lemma sentencer_wf_new : wf newSentencer.
Proof. split; vm_compute; repeat split; discriminate. Qed.

(** The sentences of a stream tile its text, whatever the chunks. *)
Lemma split_stream_tile chunks : tile 0 (split_stream chunks) (mjoin chunks).
Proof.
  unfold split_stream. destruct (push_all newSentencer chunks) as [s out] eqn:Hp.
  apply push_all_spec in Hp as (Hw & _ & t & Ht & Htile & Hb); [|apply sentencer_wf_new].
  simpl in *. rewrite Ht. unfold flush. destruct (zlen (buf s) =? 0) eqn:Hz; bool_arith.
  - apply zlen_0_nil in Hz. rewrite Hz, !app_nil_r. done.
  - simpl. apply tile_app; [done|]. simpl. rewrite Hb.
    assert (Hfull : take (Z.to_nat (zlen (buf s))) (buf s) = buf s) by (apply take_ge; unfold zlen; lia).
    rewrite Hfull. pose proof (zlen_nonneg (buf s)). repeat split; try lia.
    exists []. by rewrite app_nil_r.
Qed.

Lemma split_stream_min chunks : exists out last, split_stream chunks = out ++ option_list last /\
  Forall (fun sn => minSentenceRunes <= RuneCount (S_Text sn)) out.
Proof.
  unfold split_stream. destruct (push_all newSentencer chunks) as [s out] eqn:Hp.
  apply push_all_spec in Hp as (_ & HF & _); [|apply sentencer_wf_new].
  destruct (flush s) as [s' last]. eauto.
Qed.

Lemma tile_concat pos sns t : tile pos sns t -> t = mjoin (map S_Text sns).
Proof.
  revert pos t. induction sns as [|sn sns IH]; simpl; intros pos t; [done|].
  intros (_ & _ & _ & rest & -> & Ht). f_equal. eauto.
Qed.

(** ** Main result *)

(** C22. However a model's text is cut into deltas, the sentences handed to the
    synthesizer concatenate to exactly the text (no byte lost, repeated or
    reordered); each sentence records the byte span it occupies, the spans are
    contiguous from 0, and every sentence but the last flushed one has at least
    [minSentenceRunes] characters. *)
Theorem sentences_tile_the_text chunks :
  mjoin (map S_Text (split_stream chunks)) = mjoin chunks /\
  tile 0 (split_stream chunks) (mjoin chunks) /\
  exists out last, split_stream chunks = out ++ option_list last /\
    Forall (fun sn => minSentenceRunes <= RuneCount (S_Text sn)) out.
Proof.
  pose proof (split_stream_tile chunks) as Ht. split; [by rewrite (tile_concat _ _ _ Ht)|].
  split; [done|apply split_stream_min].
Qed.
