(* ===== verification/Turn.v ===== *)
(** * The turn manager ([internal/session/turn.go])

    A pure state machine that turns speech, transcript and client facts into
    decisions for the session. State: [TurnManager]; inputs: [TurnInput]; one
    operation, [Step].

    Shown: mode by mode what can and cannot be decided, that the two timers and
    the two triggers are exclusive, that a turn is committed at most once per
    speech segment, and that every segment of a VAD mode that starts is settled
    by a bounded number of inputs. *)

From S2P Require Export Config.
From S2P Require Import Utf8 Sentencer.

Inductive turnMode := modeManual | modeServerVAD | modeSemanticVAD.

#[export] Instance turnMode_eq_dec : EqDecision turnMode.
Proof. solve_decision. Defined.

Inductive TurnInput :=
| vadSpeechStart
| vadSpeechEnd
| asrFinal (text : string)
| asrEndOfTurn
| clientCommit
| clientCreateResponse
| responseStarted
| responseEnded.

Record TurnDecision := MkTurnDecision {
  EmitSpeechStarted : bool;
  EmitSpeechStopped : bool;
  Interrupt : bool;
  Commit : bool;
  Trigger : bool;
  DeferTrigger : bool;
  ArmEndOfTurnTimer : bool;
  ArmFinalWaitTimer : bool
}.

#[export] Instance TurnDecision_eq_dec : EqDecision TurnDecision.
Proof. solve_decision. Defined.

Definition no_decision : TurnDecision := MkTurnDecision false false false false false false false false.

Record TurnManager := MkTurnManager {
  mode : turnMode;
  createResponse : bool;
  interruptResponse : bool;
  responseActive : bool;
  speaking : bool;
  pendingEOT : bool;
  finalPending : bool;
  finalTerminal : bool
}.

#[export] Instance TurnManager_eq_dec : EqDecision TurnManager.
Proof. solve_decision. Defined.

(** ** Operations *)

Definition newTurnManager (td : option TurnDetection) : TurnManager :=
  match td with
  | None => MkTurnManager modeManual false false false false false false false
  | Some td =>
      let m :=
        if String.eqb (TD_Type td) TurnDetectionServerVAD then modeServerVAD
        else if String.eqb (TD_Type td) TurnDetectionSemanticVAD then modeSemanticVAD
        else modeManual in
      MkTurnManager m (CreateResponse td) (InterruptResponse td) false false false false false
  end.

Definition vadEnabled (t : TurnManager) : bool := bool_decide (mode t <> modeManual).

(** The text is trimmed of spaces and closing quotes; the last rune left
    decides. *)
Definition endsSentence (text : string) : bool :=
  let s := TrimRightFunc (fun r => IsSpace r || isClosingQuote r) (bytes_of text) in
  match last (runes s) with
  | None => false
  | Some r => isTerminator r
  end.

Definition set_turn (sp pe fp ft : bool) (t : TurnManager) : TurnManager :=
  MkTurnManager (mode t) (createResponse t) (interruptResponse t) (responseActive t) sp pe fp ft.

Definition resetTurn (t : TurnManager) : TurnManager := set_turn false false false (finalTerminal t) t.

Definition endTurn (t : TurnManager) (d : TurnDecision) : TurnManager * TurnDecision :=
  let semantic := bool_decide (mode t = modeSemanticVAD) in
  (resetTurn t,
   MkTurnDecision (EmitSpeechStarted d) (EmitSpeechStopped d) (Interrupt d) true
     (if semantic then Trigger d else createResponse t)
     (if semantic then createResponse t else DeferTrigger d)
     (ArmEndOfTurnTimer d) (ArmFinalWaitTimer d)).

Definition judge (t : TurnManager) (terminal : bool) (d : TurnDecision) : TurnManager * TurnDecision :=
  if terminal then endTurn t d
  else (t, MkTurnDecision (EmitSpeechStarted d) (EmitSpeechStopped d) (Interrupt d) (Commit d)
          (Trigger d) (DeferTrigger d) true (ArmFinalWaitTimer d)).

Definition set_responseActive (v : bool) (t : TurnManager) : TurnManager :=
  MkTurnManager (mode t) (createResponse t) (interruptResponse t) v
    (speaking t) (pendingEOT t) (finalPending t) (finalTerminal t).

Definition Step (t : TurnManager) (input : TurnInput) : TurnManager * TurnDecision :=
  let d := no_decision in
  match input with
  | responseStarted => (set_responseActive true t, d)
  | responseEnded => (set_responseActive false t, d)
  | clientCommit => (resetTurn t, MkTurnDecision false false false true false false false false)
  | clientCreateResponse => (t, MkTurnDecision false false false false true false false false)
  | vadSpeechStart =>
      if bool_decide (mode t = modeManual) then (t, d)
      else (set_turn true false false (finalTerminal t) t,
            MkTurnDecision true false (interruptResponse t && responseActive t)
              false false false false false)
  | vadSpeechEnd =>
      if bool_decide (mode t = modeManual) || negb (speaking t) then (t, d)
      else
        let t1 := set_turn false (pendingEOT t) (finalPending t) (finalTerminal t) t in
        let d1 := MkTurnDecision false true false false false false false false in
        match mode t with
        | modeManual => (t1, d1)
        | modeServerVAD => endTurn t1 d1
        | modeSemanticVAD =>
            let t2 := set_turn (speaking t1) true (finalPending t1) (finalTerminal t1) t1 in
            if finalPending t2 then
              judge (set_turn (speaking t2) (pendingEOT t2) false (finalTerminal t2) t2)
                (finalTerminal t2) d1
            else (t2, MkTurnDecision false true false false false false false true)
        end
  | asrFinal text =>
      if negb (bool_decide (mode t = modeSemanticVAD)) then (t, d)
      else
        let terminal := endsSentence text in
        if pendingEOT t then judge t terminal d
        else if speaking t then (set_turn (speaking t) (pendingEOT t) true terminal t, d)
        else (t, d)
  | asrEndOfTurn =>
      if bool_decide (mode t = modeSemanticVAD) && pendingEOT t then endTurn t d
      else (t, d)
  end.

(** A run of the machine. *)
Fixpoint steps (t : TurnManager) (ins : list TurnInput) : TurnManager * list TurnDecision :=
  match ins with
  | [] => (t, [])
  | i :: ins =>
      let '(t1, d) := Step t i in
      let '(t2, ds) := steps t1 ins in
      (t2, d :: ds)
  end.

(** ** Invariant *)

(** Speaking and waiting for the end of the turn are exclusive, a pending
    Final belongs to speech under way, and only semantic_vad waits. *)
Definition wf (t : TurnManager) : Prop :=
  (speaking t = true -> pendingEOT t = false) /\
  (finalPending t = true -> speaking t = true) /\
  (pendingEOT t = true -> mode t = modeSemanticVAD) /\
  (mode t = modeManual -> speaking t = false) /\
  (finalPending t = true -> mode t = modeSemanticVAD).

(** Case analysis on the mode and on the tests a step makes, then
    propositional reasoning. *)
Ltac turn_cases :=
  unfold Step, endTurn, judge, resetTurn, set_turn, set_responseActive, no_decision in *;
  repeat match goal with t : TurnManager |- _ => destruct t as [[] ?cr ?ir ?ra ?sp ?pe ?fp ?ft] end;
  simpl in *;
  repeat match goal with
  | |- context [bool_decide (?a = ?b)] => rewrite (bool_decide_eq_true_2 (a = b)) by done
  | |- context [bool_decide (?a = ?b)] => rewrite (bool_decide_eq_false_2 (a = b)) by done
  | |- context [if ?b then _ else _] => is_var b; destruct b; simpl in *
  | |- context [if negb ?b then _ else _] => destruct b; simpl in *
  | |- context [if ?b || _ then _ else _] => destruct b; simpl in *
  | |- context [if ?b && _ then _ else _] => destruct b; simpl in *
  | |- context [if ?b then _ else _] => destruct b eqn:?
  end; simpl in *; try solve [intuition (first [congruence|lia])].

Lemma turn_wf_new td : wf (newTurnManager td).
Proof. unfold wf, newTurnManager. destruct td; simpl; naive_solver. Qed.

Lemma Step_mode t i : mode (Step t i).1 = mode t.
Proof. destruct i; turn_cases. Qed.

Lemma Step_switches t i :
  createResponse (Step t i).1 = createResponse t /\ interruptResponse (Step t i).1 = interruptResponse t.
Proof. destruct i; turn_cases. Qed.

Lemma wf_Step t i : wf t -> wf (Step t i).1.
Proof. unfold wf. destruct i; turn_cases. Qed.

(** Only the session's own facts change [responseActive]. *)
Definition is_response (i : TurnInput) : bool :=
  match i with responseStarted | responseEnded => true | _ => false end.

Lemma Step_responseActive t i : is_response i = false -> responseActive (Step t i).1 = responseActive t.
Proof. destruct i; turn_cases. Qed.

Lemma wf_steps ins : forall t, wf t -> wf (steps t ins).1.
Proof.
  induction ins as [|i ins IH]; intros t Hw; simpl; [done|].
  pose proof (wf_Step t i Hw) as Hw1. destruct (Step t i) as [t1 d].
  specialize (IH t1 Hw1). by destruct (steps t1 ins).
Qed.

(** ** Exclusion *)

Lemma Step_exclusive t i : let d := (Step t i).2 in
  (Trigger d = true -> DeferTrigger d = false) /\
  (ArmEndOfTurnTimer d = true -> ArmFinalWaitTimer d = false) /\
  (Commit d = true -> ArmEndOfTurnTimer d = false /\ ArmFinalWaitTimer d = false).
Proof. destruct i; turn_cases. Qed.

(** A timer is armed exactly when the step leaves the turn waiting for its
    end, or a non-terminal Final is judged while it waits. *)
Lemma Step_timer t i : wf t -> let '(t', d) := Step t i in
  (ArmEndOfTurnTimer d || ArmFinalWaitTimer d = true -> pendingEOT t' = true) /\
  (pendingEOT t = false -> pendingEOT t' = true ->
     ArmEndOfTurnTimer d || ArmFinalWaitTimer d = true).
Proof. unfold wf. destruct i; turn_cases. Qed.

(** ** Commits are tied to speech

    [opened t] is 1 while a speech segment awaits its commit; [count_if]
    counts the decisions of a run that satisfy a predicate. *)
Definition opened (t : TurnManager) : Z := if speaking t || pendingEOT t then 1 else 0.

Fixpoint count_if (f : TurnDecision -> bool) (ds : list TurnDecision) : Z :=
  match ds with
  | [] => 0
  | d :: ds => (if f d then 1 else 0) + count_if f ds
  end.

Definition is_client (i : TurnInput) : bool :=
  match i with clientCommit | clientCreateResponse => true | _ => false end.

Lemma Step_balance t i : is_client i = false -> wf t -> let '(t', d) := Step t i in
  (if Commit d then 1 else 0) + opened t' <= (if EmitSpeechStarted d then 1 else 0) + opened t.
Proof. unfold wf, opened. destruct i; turn_cases; intros; simpl; lia. Qed.

Lemma steps_balance ins : forall t, wf t -> Forall (fun i => is_client i = false) ins ->
  let '(t', ds) := steps t ins in
  count_if Commit ds + opened t' <= count_if EmitSpeechStarted ds + opened t.
Proof.
  induction ins as [|i ins IH]; intros t Hw HF; simpl; [lia|].
  inversion HF as [|? ? Hi HF']; subst. pose proof (Step_balance t i Hi Hw) as Hb.
  pose proof (wf_Step t i Hw) as Hw1. destruct (Step t i) as [t1 d]. simpl in *.
  specialize (IH t1 Hw1 HF'). destruct (steps t1 ins) as [t2 ds].
  simpl. lia.
Qed.

(** ** Settling a segment

    Once speech has ended, the end-of-turn fact (which the armed timer
    delivers if nothing else does) commits the turn. *)
Definition settled (t : TurnManager) : Prop := speaking t = false /\ pendingEOT t = false.

Lemma speech_end_settles t : wf t -> speaking t = true ->
  let '(t1, d1) := Step t vadSpeechEnd in
  EmitSpeechStopped d1 = true /\
  (Commit d1 = true /\ settled t1 \/
   Commit d1 = false /\ ArmEndOfTurnTimer d1 || ArmFinalWaitTimer d1 = true /\
   let '(t2, d2) := Step t1 asrEndOfTurn in Commit d2 = true /\ settled t2).
Proof. unfold wf, settled. turn_cases; intuition congruence. Qed.

(** ** Properties *)

(** The inputs that end the turn in semantic_vad. *)
Definition ends_turn (t : TurnManager) (i : TurnInput) : bool :=
  match i with
  | vadSpeechEnd => speaking t && finalPending t && finalTerminal t
  | asrFinal text => pendingEOT t && endsSentence text
  | asrEndOfTurn => pendingEOT t
  | _ => false
  end.

(** The turn manager decides to respond in exactly these cases: a response
    is triggered by the client's request or by the end of speech in
    server_vad with create_response set; it is deferred to the transcript
    exactly when semantic_vad ends a turn with create_response set; an
    interruption is asked for exactly when speech starts in a VAD mode with
    interrupt_response set while a response is active. *)
Theorem Step_triggers t i : let d := (Step t i).2 in
  (Trigger d = true <->
     i = clientCreateResponse \/
     i = vadSpeechEnd /\ mode t = modeServerVAD /\ speaking t = true /\ createResponse t = true) /\
  (DeferTrigger d = true <->
     mode t = modeSemanticVAD /\ ends_turn t i = true /\ createResponse t = true) /\
  (Interrupt d = true <->
     i = vadSpeechStart /\ mode t <> modeManual /\ interruptResponse t = true /\ responseActive t = true).
Proof.
  destruct i; turn_cases; unfold ends_turn; simpl;
    repeat match goal with
    | |- context [?b || _] => destruct b; simpl
    | |- context [?b && _] => destruct b; simpl
    end; simplify_eq; intuition congruence.
Qed.

(** No decision sets both triggers, or both timers, or arms a timer for a
    turn it commits. *)
Theorem Step_exclusive_decisions t i : let d := (Step t i).2 in
  (Trigger d = true -> DeferTrigger d = false) /\
  (ArmEndOfTurnTimer d = true -> ArmFinalWaitTimer d = false) /\
  (Commit d = true -> ArmEndOfTurnTimer d = false /\ ArmFinalWaitTimer d = false).
Proof. apply Step_exclusive. Qed.

(** On every run without client commits the manager commits at most one
    turn per segment of speech it announced, from any point of a run: commits
    never exceed the segments opened since. *)
Theorem commits_follow_speech td ins :
  Forall (fun i => is_client i = false) ins ->
  count_if Commit (steps (newTurnManager td) ins).2 <=
  count_if EmitSpeechStarted (steps (newTurnManager td) ins).2.
Proof.
  intros HF. pose proof (steps_balance ins (newTurnManager td) (turn_wf_new td) HF) as Hb.
  destruct (steps (newTurnManager td) ins) as [t ds]. unfold opened in Hb at 2.
  replace (speaking (newTurnManager td) || pendingEOT (newTurnManager td)) with false in Hb by by destruct td.
  simpl. assert (0 <= opened t) by (unfold opened; case_match; lia). lia.
Qed.

Definition server_vad_td : TurnDetection :=
  ApplyDefaults {| TD_Type := TurnDetectionServerVAD; TD_Threshold := None; TD_PrefixPaddingMs := None;
    TD_SilenceDurationMs := None; TD_Eagerness := None; CreateResponse := true; InterruptResponse := true |}.

Lemma commits_follow_speech_witness :
  count_if Commit (steps (newTurnManager (Some server_vad_td))
    [vadSpeechStart; vadSpeechEnd; vadSpeechEnd; vadSpeechStart]).2 <=
  count_if EmitSpeechStarted (steps (newTurnManager (Some server_vad_td))
    [vadSpeechStart; vadSpeechEnd; vadSpeechEnd; vadSpeechStart]).2.
Proof. apply (commits_follow_speech (Some server_vad_td)). repeat constructor. Defined.

(** A segment of speech always settles: at its end the turn is committed at
    once, or a timer is armed whose end-of-turn fact commits it. *)
Theorem segment_settles td ins :
  let t := (steps (newTurnManager td) ins).1 in
  speaking t = true ->
  let '(t1, d1) := Step t vadSpeechEnd in
  EmitSpeechStopped d1 = true /\
  (Commit d1 = true /\ settled t1 \/
   Commit d1 = false /\ ArmEndOfTurnTimer d1 || ArmFinalWaitTimer d1 = true /\
   let '(t2, d2) := Step t1 asrEndOfTurn in Commit d2 = true /\ settled t2).
Proof. intros t Hs. apply speech_end_settles; [|done]. apply wf_steps, turn_wf_new. Qed.

Lemma segment_settles_witness :
  let t := (steps (newTurnManager (Some server_vad_td)) [vadSpeechStart]).1 in
  speaking t = true /\ EmitSpeechStopped (Step t vadSpeechEnd).2 = true.
Proof.
  split; [reflexivity|].
  exact (proj1 (segment_settles (Some server_vad_td) [vadSpeechStart] eq_refl)).
Defined.
