(* ===== verification/Truncate.v ===== *)
(** * Truncation text ([internal/session/truncate.go])

    [trimText] estimates the prefix of a response's text the user heard when
    playback stopped. Three tiers: character timings, per-sentence audio
    segments, and a proportional cut of the whole. [None] is a Go panic
    (slice out of range). Texts are byte sequences; a straddled segment is cut
    by [int(float64(n) * frac)] runes in IEEE doubles ([Float64.scale]).

    Shown: on valid UTF-8 text with the segments the pipeline records, the
    result exists, is a prefix, is the whole text at or beyond the end of the
    audio, and grows with the cut. *)

From S2P Require Export Types.
From S2P Require Import Audio Float64.
From S2P Require Export Utf8.

Definition trimByAlignment (text : list Z) (align : list CharTiming) (cutBytes : Z) : option (list Z) :=
  let cutMs := BytesToMs cutBytes in
  let keep :=
    fold_left (fun keep ct =>
      if cutMs <=? CT_StartMs ct then (if CharIndex ct <? keep then CharIndex ct else keep) else keep)
      align (zlen (runes text)) in
  option_map encode (gslice (runes text) 0 keep).

(** The loop of [trimBySegments]: the final [keepBytes]. *)
Fixpoint keep_loop (text : list Z) (cutBytes : Z) (segs : list audioSegment) (keepBytes : Z) : option Z :=
  match segs with
  | [] => Some keepBytes
  | seg :: segs =>
      if audioEnd seg <=? cutBytes then keep_loop text cutBytes segs (textEnd seg)
      else if cutBytes <=? audioStart seg then Some keepBytes
      else
        span ← gslice text (textStart seg) (textEnd seg);
        let n := RuneCount span in
        let keepRunes := scale n (cutBytes - audioStart seg) (audioEnd seg - audioStart seg) in
        head ← gslice (runes span) 0 keepRunes;
        Some (textStart seg + zlen (encode head))
  end.

Definition trimBySegments (text : list Z) (segs : list audioSegment) (cutBytes : Z) : option (list Z) :=
  keepBytes ← keep_loop text cutBytes segs 0;
  gslice text 0 keepBytes.

Definition trimText (text : list Z) (segs : list audioSegment) (align : list CharTiming)
    (cutBytes totalAudioBytes : Z) : option (list Z) :=
  if (totalAudioBytes <=? cutBytes) || (zlen text =? 0) then Some text
  else if cutBytes <=? 0 then Some []
  else match align with
  | _ :: _ => trimByAlignment text align cutBytes
  | [] =>
      let segs := match segs with
        | [] => [{| textStart := 0; textEnd := zlen text; audioStart := 0; audioEnd := totalAudioBytes |}]
        | _ => segs
        end in
      trimBySegments text segs cutBytes
  end.

(** ** Well-formed segments

    The pipeline records one segment per sentence, in order: each starts where
    the previous one ended, in the text and in the audio, and spans whole
    characters. *)
Fixpoint chain (text : list Z) (tpos apos : Z) (segs : list audioSegment) : Prop :=
  match segs with
  | [] => True
  | seg :: segs =>
      textStart seg = tpos /\ audioStart seg = apos /\
      tpos <= textEnd seg <= zlen text /\ apos <= audioEnd seg < 2 ^ prec /\
      (exists span, gslice text tpos (textEnd seg) = Some span /\ valid span) /\
      chain text (textEnd seg) (audioEnd seg) segs
  end.

Section segments.
Variable text : list Z.
Hypotheses (Hbytes : Forall byte_range text) (Hlen : zlen text < 2 ^ prec).

Lemma gslice_byte_range i j s : gslice text i j = Some s -> Forall byte_range s.
Proof. unfold gslice. case_match; [|done]. intros [= <-]. by apply Forall_take, Forall_drop. Qed.

Lemma RuneCount_bound s : 0 <= RuneCount s <= zlen s.
Proof. unfold RuneCount, zlen. pose proof (runes_length s). lia. Qed.

(** The cut of one straddled segment. *)
Definition seg_keep (seg : audioSegment) (cut : Z) : option Z :=
  span ← gslice text (textStart seg) (textEnd seg);
  head ← gslice (runes span) 0
           (scale (RuneCount span) (cut - audioStart seg) (audioEnd seg - audioStart seg));
  Some (textStart seg + zlen (encode head)).

Lemma seg_keep_ok seg cut span :
  gslice text (textStart seg) (textEnd seg) = Some span -> valid span ->
  0 <= audioStart seg <= cut -> cut < audioEnd seg < 2 ^ prec ->
  exists k : nat, seg_keep seg cut = Some (textStart seg + zlen (encode (take k (runes span)))) /\
    Z.of_nat k = scale (RuneCount span) (cut - audioStart seg) (audioEnd seg - audioStart seg).
Proof.
  intros Hs Hv Hc He. pose proof (gslice_length _ _ _ _ Hs) as Hl.
  pose proof (gslice_is_Some _ _ _ _ Hs) as [? ?]. pose proof (RuneCount_bound span) as Hn.
  pose proof (scale_bounds (RuneCount span) (audioEnd seg - audioStart seg)
    ltac:(lia) ltac:(lia) (cut - audioStart seg) ltac:(lia)) as Hb.
  unfold seg_keep. rewrite Hs. simpl.
  rewrite gslice_Some by (unfold RuneCount in *; lia). simpl. rewrite drop_0, Z.sub_0_r.
  eexists. split; [done|]. lia.
Qed.

Lemma keep_loop_straddle seg segs cut keep :
  cut < audioEnd seg -> audioStart seg < cut -> keep_loop text cut (seg :: segs) keep = seg_keep seg cut.
Proof.
  intros. simpl. rewrite (proj2 (Z.leb_gt _ _)) by lia. by rewrite (proj2 (Z.leb_gt _ _)) by lia.
Qed.

Lemma seg_keep_bounds seg cut k :
  (exists span, gslice text (textStart seg) (textEnd seg) = Some span /\ valid span) ->
  0 <= audioStart seg <= cut -> cut < audioEnd seg < 2 ^ prec ->
  seg_keep seg cut = Some k -> textStart seg <= k <= textEnd seg.
Proof.
  intros (span & Hs & Hv) Hc He Hk. destruct (seg_keep_ok seg cut span Hs Hv Hc He) as (m & Hm & _).
  rewrite Hm in Hk. simplify_eq. pose proof (gslice_length _ _ _ _ Hs).
  pose proof (encode_take_length span m Hv (gslice_byte_range _ _ _ Hs)). lia.
Qed.

Lemma keep_loop_ok segs : forall tpos apos cut,
  chain text tpos apos segs -> 0 <= apos <= cut -> 0 <= tpos <= zlen text ->
  exists k, keep_loop text cut segs tpos = Some k /\ tpos <= k <= zlen text.
Proof.
  induction segs as [|seg segs IH]; intros tpos apos cut Hch Ha Ht; [exists tpos; split; [done|lia]|].
  destruct Hch as (Hts & Has & Hte & Hae & Hsp & Hch). subst tpos apos.
  destruct (Z.le_gt_cases (audioEnd seg) cut) as [Hle|Hgt].
  - simpl. rewrite (proj2 (Z.leb_le _ _)) by lia.
    destruct (IH _ _ cut Hch) as (k & Hk & Hkb); [lia..|]. exists k. split; [done|lia].
  - destruct (Z.eq_dec cut (audioStart seg)) as [->|Hne].
    + simpl. rewrite (proj2 (Z.leb_gt _ _)) by lia. rewrite Z.leb_refl.
      eexists. split; [done|lia].
    + rewrite keep_loop_straddle by lia. destruct Hsp as (span & Hs & Hv).
      destruct (seg_keep_ok seg cut span Hs Hv) as (m & Hm & _); [lia..|].
      eexists. split; [done|].
      assert (textStart seg <= textStart seg + zlen (encode (take m (runes span))) <= textEnd seg)
        by (apply (seg_keep_bounds seg cut); eauto; lia). lia.
Qed.

Lemma keep_loop_mono segs : forall tpos apos cut cut' k k',
  chain text tpos apos segs -> 0 <= apos <= cut -> cut <= cut' -> 0 <= tpos <= zlen text ->
  keep_loop text cut segs tpos = Some k -> keep_loop text cut' segs tpos = Some k' -> k <= k'.
Proof.
  induction segs as [|seg segs IH]; intros tpos apos cut cut' k k' Hch Ha Hc Ht; [simpl; intros; simplify_eq; lia|].
  destruct (keep_loop_ok (seg :: segs) tpos apos cut' Hch) as (k2 & Hk2 & Hk2b); [lia..|].
  intros Hk Hk'. rewrite Hk2 in Hk'. simplify_eq.
  destruct Hch as (Hts & Has & Hte & Hae & Hsp & Hch). subst tpos apos.
  destruct (Z.le_gt_cases (audioEnd seg) cut) as [Hle|Hgt].
  { simpl in Hk, Hk2. rewrite (proj2 (Z.leb_le _ _)) in Hk by lia. rewrite (proj2 (Z.leb_le _ _)) in Hk2 by lia.
    eapply (IH _ _ cut cut'); [done|lia..|done|done]. }
  destruct (Z.eq_dec cut (audioStart seg)) as [Heq|Hne].
  { simpl in Hk. rewrite (proj2 (Z.leb_gt _ _)) in Hk by lia.
    rewrite (proj2 (Z.leb_le cut _)) in Hk by lia. simplify_eq. lia. }
  rewrite keep_loop_straddle in Hk by lia.
  destruct (Z.le_gt_cases (audioEnd seg) cut') as [Hle'|Hgt'].
  - pose proof (seg_keep_bounds seg cut k Hsp ltac:(lia) ltac:(lia) Hk).
    simpl in Hk2. rewrite (proj2 (Z.leb_le _ _)) in Hk2 by lia.
    destruct (keep_loop_ok segs _ _ cut' Hch) as (k3 & Hk3 & ?); [lia..|]. simplify_eq. lia.
  - rewrite keep_loop_straddle in Hk2 by lia. destruct Hsp as (span & Hs & Hv).
    destruct (seg_keep_ok seg cut span Hs Hv) as (m & Hm & Hsc); [lia..|].
    destruct (seg_keep_ok seg cut' span Hs Hv) as (m' & Hm' & Hsc'); [lia..|].
    simplify_eq. pose proof (RuneCount_bound span). pose proof (gslice_length _ _ _ _ Hs).
    pose proof (gslice_is_Some _ _ _ _ Hs).
    pose proof (scale_mono (RuneCount span) (audioEnd seg - audioStart seg) ltac:(lia) ltac:(lia)
      (cut - audioStart seg) (cut' - audioStart seg) ltac:(lia) ltac:(lia) ltac:(lia)).
    pose proof (encode_take_mono span m m' ltac:(lia)). lia.
Qed.
End segments.

(** ** Alignment *)

Definition align_step (cutMs keep : Z) (ct : CharTiming) : Z :=
  if cutMs <=? CT_StartMs ct then (if CharIndex ct <? keep then CharIndex ct else keep) else keep.

Definition align_ok (align : list CharTiming) : Prop := Forall (fun ct => 0 <= CharIndex ct) align.

Lemma align_keep_bounds align cutMs n : align_ok align -> 0 <= n ->
  0 <= fold_left (align_step cutMs) align n <= n.
Proof.
  revert n. induction align as [|ct align IH]; intros n Hok Hn; simpl; [lia|].
  inversion Hok; subst.
  assert (0 <= align_step cutMs n ct <= n) by (unfold align_step; repeat case_match; bool_arith; lia).
  pose proof (IH (align_step cutMs n ct) ltac:(done) ltac:(lia)). lia.
Qed.

Lemma align_keep_mono align cutMs cutMs' : forall n n', cutMs <= cutMs' -> n <= n' ->
  fold_left (align_step cutMs) align n <= fold_left (align_step cutMs') align n'.
Proof.
  induction align as [|ct align IH]; intros n n' Hc Hn; simpl; [done|].
  apply IH; [done|]. unfold align_step. repeat case_match; bool_arith; lia.
Qed.

Lemma trimByAlignment_eq text align cut : align_ok align ->
  exists k : nat, trimByAlignment text align cut = Some (encode (take k (runes text))) /\
    Z.of_nat k = fold_left (align_step (BytesToMs cut)) align (zlen (runes text)).
Proof.
  intros Hok. pose proof (align_keep_bounds align (BytesToMs cut) (zlen (runes text)) Hok (zlen_nonneg _)) as Hb.
  set (keep := fold_left (align_step (BytesToMs cut)) align (zlen (runes text))) in *.
  exists (Z.to_nat keep). split; [|lia].
  change (trimByAlignment text align cut) with (option_map encode (gslice (runes text) 0 keep)).
  rewrite gslice_Some by lia. simpl. by rewrite drop_0, Z.sub_0_r.
Qed.

(** ** The whole function *)

(** What the conversation holds for an item: valid text, timings with
    non-negative indices, and the chain of segments recorded so far. *)
Record trimmable (text : list Z) (segs : list audioSegment) (align : list CharTiming) (total : Z) : Prop := {
  tr_valid : valid text;
  tr_bytes : Forall byte_range text;
  tr_len : zlen text < 2 ^ prec;
  tr_total : total < 2 ^ prec;
  tr_align : align_ok align;
  tr_segs : chain text 0 0 segs
}.

Section trim.
Variables (text : list Z) (segs : list audioSegment) (align : list CharTiming) (total : Z).
Hypothesis Hok : trimmable text segs align total.

Definition segs_or_whole : list audioSegment :=
  match segs with
  | [] => [{| textStart := 0; textEnd := zlen text; audioStart := 0; audioEnd := total |}]
  | _ => segs
  end.

Lemma segs_or_whole_chain : 0 <= total -> chain text 0 0 segs_or_whole.
Proof.
  destruct Hok. intros. unfold segs_or_whole. case_match; [|done]. simpl.
  pose proof (zlen_nonneg text). repeat split; try lia.
  exists text. split; [apply gslice_full|done].
Qed.

(** The interior tiers: a byte count [k] that is kept. *)
Lemma trimBySegments_ok cut : 0 <= cut -> 0 <= total ->
  exists k, keep_loop text cut segs_or_whole 0 = Some k /\ 0 <= k <= zlen text /\
    trimBySegments text segs_or_whole cut = Some (take (Z.to_nat k) text).
Proof.
  intros Hc Ht. pose proof (zlen_nonneg text). destruct Hok.
  destruct (keep_loop_ok text ltac:(done) ltac:(done) segs_or_whole 0 0 cut
    (segs_or_whole_chain Ht)) as (k & Hk & Hb); [lia..|].
  exists k. split; [done|]. split; [lia|]. unfold trimBySegments. rewrite Hk. simpl.
  rewrite gslice_Some by lia. by rewrite drop_0, Z.sub_0_r.
Qed.

End trim.

Lemma trimText_prefix_mono text segs align total cut cut' : trimmable text segs align total -> cut <= cut' ->
    exists t t', trimText text segs align cut total = Some t /\
    trimText text segs align cut' total = Some t' /\
    t `prefix_of` t' /\ t' `prefix_of` text.
Proof.
  intros Hok Hc. pose proof Hok as [Hv Hby Hl Ht Hal Hch]. unfold trimText.
  fold (segs_or_whole text segs total). destruct (zlen text =? 0) eqn:Hz; bool_arith.
  { rewrite !orb_true_r. by exists text, text. }
  rewrite !orb_false_r.
  destruct (total <=? cut) eqn:Htc; bool_arith.
  { rewrite (proj2 (Z.leb_le _ _)) by lia. by exists text, text. }
  assert (exists t', (if total <=? cut' then Some text else if cut' <=? 0 then Some []
      else match align with _ :: _ => trimByAlignment text align cut' | [] => trimBySegments text (segs_or_whole text segs total) cut' end)
      = Some t' /\ t' `prefix_of` text /\
      (0 < cut -> exists t, (match align with _ :: _ => trimByAlignment text align cut | [] => trimBySegments text (segs_or_whole text segs total) cut end)
         = Some t /\ t `prefix_of` t')) as (t' & Ht' & Hp & Hrest).
  { destruct align as [|ct al].
    - destruct (total <=? cut') eqn:?; bool_arith.
      { exists text. split; [done|]. split; [done|]. intros.
        destruct (trimBySegments_ok text segs [] total Hok cut) as (k & _ & _ & Hk); [lia..|].
        eexists. split; [done|]. apply prefix_take. }
      destruct (cut' <=? 0) eqn:?; bool_arith.
      { exists []. split; [done|]. split; [apply prefix_nil|]. lia. }
      destruct (trimBySegments_ok text segs [] total Hok cut') as (k' & Hk' & ? & Hk2); [lia..|].
      eexists. split; [done|]. split; [apply prefix_take|]. intros.
      destruct (trimBySegments_ok text segs [] total Hok cut) as (k & Hk & ? & Hk1); [lia..|].
      eexists. split; [done|]. apply take_prefix_mono.
      enough (k <= k') by lia.
      apply (keep_loop_mono text ltac:(done) ltac:(done) (segs_or_whole text segs total) 0 0 cut cut'); try done; try lia.
      apply (segs_or_whole_chain text segs [] total Hok). lia.
    - destruct (trimByAlignment_eq text (ct :: al) cut Hal) as (k & Hk & Hke).
      destruct (trimByAlignment_eq text (ct :: al) cut' Hal) as (k' & Hk' & Hke').
      destruct (total <=? cut') eqn:?; bool_arith.
      { exists text. split; [done|]. split; [done|]. intros. eexists. split; [done|].
        by apply encode_take_prefix. }
      destruct (cut' <=? 0) eqn:?; bool_arith.
      { exists []. split; [done|]. split; [apply prefix_nil|]. lia. }
      eexists. split; [done|]. split; [by apply encode_take_prefix|]. intros.
      eexists. split; [done|].
      assert (k <= k')%nat as Hkk.
      { apply Nat2Z.inj_le. rewrite Hke, Hke'. apply align_keep_mono; [|lia].
        apply BytesToMs_mono; lia. }
      destruct (take_prefix_mono k k' (runes text) Hkk) as [r Hr].
      exists (encode r). by rewrite Hr, encode_app. }
  rewrite Ht'. destruct (cut <=? 0) eqn:?; bool_arith.
  - exists [], t'. repeat split; try done. apply prefix_nil.
  - destruct Hrest as (t & Hte & Htp); [lia|]. by exists t, t'.
Qed.

Lemma trimText_whole text segs align cut total : total <= cut -> trimText text segs align cut total = Some text.
Proof. intros. unfold trimText. by rewrite (proj2 (Z.leb_le _ _)) by lia. Qed.

(** ** Properties *)

(** [trimText] on what a conversation item holds never panics; its result
    is a prefix of the text, it is the whole text when the cut is at or beyond
    the generated audio, and a later cut keeps at least as much. *)
Theorem trimText_spec text segs align total : trimmable text segs align total ->
  (forall cut, exists t, trimText text segs align cut total = Some t /\ t `prefix_of` text /\
     (total <= cut -> t = text)) /\
  (forall cut cut' t t', cut <= cut' ->
     trimText text segs align cut total = Some t -> trimText text segs align cut' total = Some t' ->
     t `prefix_of` t').
Proof.
  intros Hok. split.
  - intros cut. destruct (trimText_prefix_mono _ _ _ _ cut cut Hok ltac:(lia)) as (t & t' & Ht & Ht' & _ & Hp).
    simplify_eq. exists t. split; [done|]. split; [done|]. intros Hc.
    rewrite trimText_whole in Ht by done. by simplify_eq.
  - intros cut cut' t t' Hc Ht Ht'.
    destruct (trimText_prefix_mono _ _ _ _ cut cut' Hok Hc) as (u & u' & ? & ? & ? & _). by simplify_eq.
Qed.

Definition hello : list Z := bytes_of "Hello there. Bye."%string.
Definition hello_segs : list audioSegment :=
  [ {| textStart := 0; textEnd := 12; audioStart := 0; audioEnd := 4800 |};
    {| textStart := 12; textEnd := 17; audioStart := 4800; audioEnd := 9600 |} ].

Lemma trimText_spec_witness : trimmable hello hello_segs [] 9600 /\
  exists t, trimText hello hello_segs [] 7200 9600 = Some t /\ t = bytes_of "Hello there. B"%string.
Proof.
  assert (Hv : trimmable hello hello_segs [] 9600).
  { split.
    - apply ValidString_sound. by vm_compute.
    - apply bytes_of_range.
    - by vm_compute.
    - by vm_compute.
    - constructor.
    - simpl. repeat split; try by vm_compute.
      + eexists. split; [reflexivity|]. apply (valid_loop_sound 12). by vm_compute.
      + eexists. split; [reflexivity|]. apply (valid_loop_sound 5). by vm_compute. }
  split; [exact Hv|].
  destruct (trimText_spec hello hello_segs [] 9600 Hv) as [H _].
  destruct (H 7200) as (t & Ht & _). exists t. split; [exact Ht|].
  vm_compute in Ht. injection Ht as <-. by vm_compute.
Defined.
