(* ===== verification/Conversation.v ===== *)
(** * The conversation ([internal/session/conversation.go])

    State: [conversation], an ordered list of items with lookup by ref.
    Operations: [newRef], [insert], [append], [position], [get], [remove],
    [last], [count], [messages], [answered], [snapshot]. An [*item] pointer is
    the ref of the item it points to: refs are assigned before an item is
    linked, never change and are never reused, and [modify] writes through one.

    Shown: the invariant that ties the list to the index, kept by every
    operation; insertion and removal as list operations; that the projection
    to chat messages neither drops, duplicates nor reorders anything. *)

From S2P Require Export Types.
#[local] Open Scope Z_scope.

Record item := MkItem_ {
  base : Item;
  segments : list audioSegment;
  alignment : list CharTiming;
  audioB : Z
}.

#[export] Instance item_eq_dec : EqDecision item.
Proof. solve_decision. Defined.

(** [&item{Item: i}]. *)
Definition fresh_item (i : Item) : item :=
  {| base := i; segments := []; alignment := []; audioB := 0 |}.

Definition set_base (f : Item -> Item) (it : item) : item :=
  {| base := f (base it); segments := segments it; alignment := alignment it; audioB := audioB it |}.

Definition with_ref (ref : ItemRef) (i : Item) : Item :=
  {| Ref := ref; ClientID := ClientID i; Role := Role i; Content := Content i; Status := Status i;
     Text := Text i; AudioMs := AudioMs i; TranscriptDone := TranscriptDone i; Name := Name i;
     CallID := CallID i |}.

(** Field assignments on the public part. *)
Definition set_Status v (i : Item) : Item :=
  {| Ref := Ref i; ClientID := ClientID i; Role := Role i; Content := Content i; Status := v; Text := Text i;
     AudioMs := AudioMs i; TranscriptDone := TranscriptDone i; Name := Name i; CallID := CallID i |}.

Definition set_Text v (i : Item) : Item :=
  {| Ref := Ref i; ClientID := ClientID i; Role := Role i; Content := Content i; Status := Status i; Text := v;
     AudioMs := AudioMs i; TranscriptDone := TranscriptDone i; Name := Name i; CallID := CallID i |}.

Definition set_AudioMs v (i : Item) : Item :=
  {| Ref := Ref i; ClientID := ClientID i; Role := Role i; Content := Content i; Status := Status i;
     Text := Text i; AudioMs := v; TranscriptDone := TranscriptDone i; Name := Name i; CallID := CallID i |}.

Definition set_TranscriptDone v (i : Item) : Item :=
  {| Ref := Ref i; ClientID := ClientID i; Role := Role i; Content := Content i; Status := Status i;
     Text := Text i; AudioMs := AudioMs i; TranscriptDone := v; Name := Name i; CallID := CallID i |}.

Definition set_segments v (it : item) : item :=
  {| base := base it; segments := v; alignment := alignment it; audioB := audioB it |}.

Definition set_alignment v (it : item) : item :=
  {| base := base it; segments := segments it; alignment := v; audioB := audioB it |}.

Definition set_audioB v (it : item) : item :=
  {| base := base it; segments := segments it; alignment := alignment it; audioB := v |}.

Record conversation := MkConversation {
  items : list ItemRef;
  index : gmap ItemRef item;
  next : ItemRef
}.

Definition newConversation : conversation := {| items := []; index := ∅; next := 0 |}.

(** ** Operations *)

Definition newRef (c : conversation) : conversation * ItemRef :=
  ({| items := items c; index := index c; next := next c + 1 |}, next c + 1).

(** Index of the item in the list, -1 when absent. *)
Fixpoint position_in (l : list ItemRef) (ref : ItemRef) : Z :=
  match l with
  | [] => -1
  | x :: l =>
      if x =? ref then 0
      else let p := position_in l ref in if p <? 0 then -1 else p + 1
  end.

Definition position (c : conversation) (ref : ItemRef) : Z := position_in (items c) ref.

Definition get (c : conversation) (ref : ItemRef) : option item := index c !! ref.

(** A write through the pointer to item [ref]. *)
Definition modify (ref : ItemRef) (f : item -> item) (c : conversation) : conversation :=
  {| items := items c; index := alter f ref (index c); next := next c |}.

(** Links [it] at [pos]; the ref of the item it follows. *)
Definition link (c : conversation) (it : item) (pos : Z) : conversation * ItemRef :=
  let ref := Ref (base it) in
  let l := take (Z.to_nat pos) (items c) ++ ref :: drop (Z.to_nat pos) (items c) in
  ({| items := l; index := <[ref := it]> (index c); next := next c |},
   if pos =? 0 then 0 else default 0 (items c !! Z.to_nat (pos - 1))).

(** The ref [it] is known by, and the ref it follows; [None] when [previous]
    does not exist ([ok] is false). A ref is assigned either way. *)
Definition insert (c : conversation) (it : item) (previous : ItemRef) (atRoot : bool)
    : conversation * ItemRef * option ItemRef :=
  let '(c, it) :=
    if Ref (base it) =? 0
    then let '(c', ref) := newRef c in (c', set_base (with_ref ref) it)
    else (c, it) in
  let ref := Ref (base it) in
  if atRoot then let '(c', prev) := link c it 0 in (c', ref, Some prev)
  else if negb (previous =? 0) then
    match index c !! previous with
    | None => (c, ref, None)
    | Some _ => let '(c', prev) := link c it (position c previous + 1) in (c', ref, Some prev)
    end
  else let '(c', prev) := link c it (zlen (items c)) in (c', ref, Some prev).

(** The ref of the item and the ref it follows. *)
Definition append (c : conversation) (it : item) : conversation * ItemRef * ItemRef :=
  let '(c', ref, prev) := insert c it 0 false in (c', ref, default 0 prev).

(** Outer [None]: slicing at position -1 panics. The boolean is the result. *)
Definition remove (c : conversation) (ref : ItemRef) : option (conversation * bool) :=
  match index c !! ref with
  | None => Some (c, false)
  | Some it =>
      let pos := position c (Ref (base it)) in
      before ← gslice (items c) 0 pos;
      after ← gslice (items c) (pos + 1) (zlen (items c));
      Some ({| items := before ++ after; index := delete ref (index c); next := next c |}, true)
  end.

Definition deref (c : conversation) : list item := omap (get c) (items c).

Definition last_with (c : conversation) (role : string) : option item :=
  last (List.filter (fun it => String.eqb (Role (base it)) role) (deref c)).

Definition count (c : conversation) : Z := zlen (items c).

Definition answered (c : conversation) (callID : string) : bool :=
  existsb (fun it => bool_decide (Content (base it) = ContentToolOutput) && String.eqb (CallID (base it)) callID)
    (deref c).

Definition snapshot (it : item) : Item := base it.

(** ** The projection to chat messages *)

Definition call_of (i : Item) : ToolCall :=
  {| Call_ID := CallID i; Call_Name := Name i; Call_Arguments := Text i |}.

(** One iteration of the loop of [messages]; [out] is kept in order. *)
Definition push_message (out : list Message) (i : Item) : list Message :=
  match Content i with
  | ContentToolCall =>
      let call := call_of i in
      match last out with
      | Some m =>
          if String.eqb (Msg_Role m) RoleAssistant && bool_decide (Msg_ToolCalls m = None)
          then removelast out ++ [ {| Msg_Role := Msg_Role m; Msg_Content := Msg_Content m;
                 Msg_ToolCalls := Some [call]; Msg_ToolCallID := Msg_ToolCallID m |} ]
          else out ++ [ {| Msg_Role := RoleAssistant; Msg_Content := EmptyString; Msg_ToolCalls := Some [call]; Msg_ToolCallID := EmptyString |} ]
      | None => out ++ [ {| Msg_Role := RoleAssistant; Msg_Content := EmptyString; Msg_ToolCalls := Some [call]; Msg_ToolCallID := EmptyString |} ]
      end
  | ContentToolOutput =>
      out ++ [ {| Msg_Role := RoleTool; Msg_Content := Text i; Msg_ToolCalls := None; Msg_ToolCallID := CallID i |} ]
  | _ =>
      if String.eqb (Text i) EmptyString then out
      else out ++ [ {| Msg_Role := Role i; Msg_Content := Text i; Msg_ToolCalls := None; Msg_ToolCallID := EmptyString |} ]
  end.

Definition messages (c : conversation) : list Message :=
  fold_left push_message (map base (deref c)) [].

(** ** Invariant *)

Record wf (c : conversation) : Prop := {
  wf_nodup : NoDup (items c);
  wf_index : forall ref, ref ∈ items c <-> is_Some (index c !! ref);
  wf_ref : forall ref it, index c !! ref = Some it -> Ref (base it) = ref /\ 0 < ref <= next c;
  wf_next : 0 <= next c
}.

Lemma wf_newConversation : wf newConversation.
Proof.
  split; simpl.
  - constructor.
  - intros ref. rewrite lookup_empty. split; [by intros ?%elem_of_nil|by intros [? [=]]].
  - intros ref it. by rewrite lookup_empty.
  - lia.
Qed.

Lemma wf_newRef c : wf c -> wf (newRef c).1.
Proof. intros [? ? Hr ?]. split; simpl; try done; [|lia]. intros ref it Hi. destruct (Hr _ _ Hi). split; [done|lia]. Qed.

Lemma wf_modify c ref f : wf c ->
  (forall it, get c ref = Some it -> Ref (base (f it)) = Ref (base it)) -> wf (modify ref f c).
Proof.
  intros [? Hi Hr ?] Hf. split; simpl; try done.
  - intros x. rewrite Hi. destruct (decide (x = ref)) as [->|].
    + rewrite lookup_alter_eq, fmap_is_Some. done.
    + by rewrite lookup_alter_ne.
  - intros x it. destruct (decide (x = ref)) as [->|].
    + rewrite lookup_alter_eq. intros (it0 & H0 & ->)%fmap_Some.
      rewrite (Hf it0 H0). by apply Hr.
    + rewrite lookup_alter_ne by done. apply Hr.
Qed.

(** Linking a ref that is not in use keeps the invariant. *)
Lemma wf_link c it pos : wf c -> index c !! Ref (base it) = None -> 0 < Ref (base it) <= next c ->
  wf (link c it pos).1.
Proof.
  intros [Hn Hi Hr ?] Hnew Hb. set (ref := Ref (base it)) in *.
  assert (Hni : ref ∉ items c) by (rewrite Hi, Hnew; by intros [? [=]]).
  split; simpl; fold ref; try done.
  - rewrite <- (take_drop (Z.to_nat pos) (items c)) in Hn, Hni.
    apply NoDup_app in Hn as (Hn1 & Hd & Hn2). apply not_elem_of_app in Hni as [? ?].
    apply NoDup_app. split; [done|]. split; [|by constructor].
    intros x Hx. apply not_elem_of_cons. split; [congruence|by apply Hd].
  - intros x. rewrite elem_of_app, elem_of_cons.
    destruct (decide (x = ref)) as [->|]; [rewrite lookup_insert_eq; naive_solver|].
    rewrite lookup_insert_ne, <- Hi by done.
    rewrite <- (take_drop (Z.to_nat pos) (items c)) at 3. rewrite elem_of_app. naive_solver.
  - intros x it'. destruct (decide (x = ref)) as [->|].
    + rewrite lookup_insert_eq. intros [= <-]. done.
    + rewrite lookup_insert_ne by done. apply Hr.
Qed.

Lemma wf_fresh c ref : wf c -> ref <= 0 \/ next c < ref -> index c !! ref = None.
Proof.
  intros Hw Hb. destruct (index c !! ref) eqn:He; [|done].
  destruct (wf_ref c Hw _ _ He). lia.
Qed.

(** An item that may be linked: it has no ref yet, or one allocated in advance
    and not in use. *)
Definition linkable (c : conversation) (it : item) : Prop :=
  Ref (base it) = 0 \/ (index c !! Ref (base it) = None /\ 0 < Ref (base it) <= next c).

(** The ref an item is linked under. *)
Definition ref_for (c : conversation) (it : item) : ItemRef :=
  if Ref (base it) =? 0 then next c + 1 else Ref (base it).

(** The position the arguments of [insert] ask for. *)
Definition insert_pos (c : conversation) (previous : ItemRef) (atRoot : bool) : Z :=
  if atRoot then 0 else if previous =? 0 then zlen (items c) else position c previous + 1.

Definition insert_ok (c : conversation) (previous : ItemRef) (atRoot : bool) : bool :=
  atRoot || (previous =? 0) || bool_decide (is_Some (index c !! previous)).

(** [insert] as list operations. *)
Lemma insert_spec c it previous atRoot :
  let ref := ref_for c it in
  let pos := insert_pos c previous atRoot in
  insert c it previous atRoot =
    if insert_ok c previous atRoot then
      ({| items := take (Z.to_nat pos) (items c) ++ ref :: drop (Z.to_nat pos) (items c);
          index := <[ref := set_base (with_ref ref) it]> (index c);
          next := Z.max (next c) (if Ref (base it) =? 0 then ref else next c) |}, ref,
       Some (if pos =? 0 then 0 else default 0 (items c !! Z.to_nat (pos - 1))))
    else ({| items := items c; index := index c;
             next := Z.max (next c) (if Ref (base it) =? 0 then ref else next c) |}, ref, None).
Proof.
  unfold insert, ref_for, insert_pos, insert_ok, position, link, newRef.
  assert (Hself : set_base (with_ref (Ref (base it))) it = it) by (by destruct it as [[]]).
  destruct c as [l m n]. simpl.
  destruct (Ref (base it) =? 0); simpl; [|rewrite Hself]; destruct atRoot; simpl;
    rewrite ?Z.max_r, ?Z.max_l by lia; try done; destruct (previous =? 0); simpl; try done;
    destruct (m !! previous); simpl; done.
Qed.

Lemma insert_wf c it previous atRoot :
  wf c -> linkable c it -> wf (insert c it previous atRoot).1.1.
Proof.
  intros Hw Hl. unfold insert.
  assert (exists c1 it1, (if Ref (base it) =? 0
    then let '(c', ref) := newRef c in (c', set_base (with_ref ref) it) else (c, it)) = (c1, it1) /\
    wf c1 /\ index c1 !! Ref (base it1) = None /\ 0 < Ref (base it1) <= next c1)
    as (c1 & it1 & -> & Hw1 & Hn & Hb).
  { destruct (Ref (base it) =? 0) eqn:Hz; bool_arith.
    - eexists _, _. split; [reflexivity|]. split; [by apply (wf_newRef c)|]. simpl.
      pose proof (wf_next c Hw). split; [apply wf_fresh; [done|lia]|lia].
    - exists c, it. destruct Hl as [?|[? ?]]; [done|]. split_and!; (done || tauto). }
  pose proof (fun pos => wf_link c1 it1 pos Hw1 Hn Hb) as Hlink.
  destruct atRoot.
  { specialize (Hlink 0). exact Hlink. }
  destruct (previous =? 0).
  { specialize (Hlink (zlen (items c1))). exact Hlink. }
  destruct (index c1 !! previous); [|done].
  specialize (Hlink (position c1 previous + 1)). exact Hlink.
Qed.

(** Appending: at the end, after the last item. *)
Lemma append_spec c it :
  append c it =
    ({| items := items c ++ [ref_for c it];
        index := <[ref_for c it := set_base (with_ref (ref_for c it)) it]> (index c);
        next := Z.max (next c) (if Ref (base it) =? 0 then ref_for c it else next c) |},
     ref_for c it, default 0 (last (items c))).
Proof.
  unfold append. rewrite insert_spec. unfold insert_ok, insert_pos. simpl.
  assert (Hn : Z.to_nat (zlen (items c)) = length (items c)) by (unfold zlen; lia).
  rewrite Hn, firstn_all, drop_all. f_equal. simpl.
  rewrite last_lookup. destruct (zlen (items c) =? 0) eqn:Hz; bool_arith.
  - apply zlen_0_nil in Hz. by rewrite Hz.
  - f_equal. f_equal. unfold zlen. lia.
Qed.

Lemma conversation_append_wf c it : wf c -> linkable c it -> wf (append c it).1.1.
Proof.
  intros Hw Hl. pose proof (insert_wf c it 0 false Hw Hl) as H. unfold append.
  by destruct (insert c it 0 false) as [[c' ref] prev].
Qed.

Lemma append_get c it : get (append c it).1.1 (append c it).1.2 =
  Some (set_base (with_ref (append c it).1.2) it).
Proof. rewrite append_spec. unfold get. simpl. apply lookup_insert_eq. Qed.

Lemma get_modify c ref f : get (modify ref f c) ref = option_map f (get c ref).
Proof. unfold get, modify. simpl. by rewrite lookup_alter_eq. Qed.

Lemma get_modify_ne c ref ref' f : ref <> ref' -> get (modify ref f c) ref' = get c ref'.
Proof. intros. unfold get, modify. simpl. by rewrite lookup_alter_ne. Qed.

Lemma get_0 c : wf c -> get c 0 = None.
Proof. intros. apply wf_fresh; [done|lia]. Qed.

(** ** Removal *)

Lemma position_in_spec l ref : ref ∈ l -> exists l1 l2,
  l = l1 ++ (ref :: l2) /\ ref ∉ l1 /\ position_in l ref = zlen l1.
Proof.
  induction l as [|x l IH]; intros Hin; [by apply elem_of_nil in Hin|]. simpl.
  destruct (x =? ref) eqn:Hx; bool_arith.
  - subst. exists [], l. split; [done|]. split; [apply not_elem_of_nil|done].
  - apply elem_of_cons in Hin as [?|Hin]; [congruence|].
    destruct (IH Hin) as (l1 & l2 & -> & Hni & Hp). exists (x :: l1), l2. split; [done|].
    split; [by apply not_elem_of_cons; split|]. rewrite Hp, zlen_cons.
    pose proof (zlen_nonneg l1). rewrite (proj2 (Z.ltb_ge _ _)) by lia. lia.
Qed.

Lemma gslice_prefix {A} (l1 l2 : list A) : gslice (l1 ++ l2) 0 (zlen l1) = Some l1.
Proof.
  pose proof (zlen_nonneg l1). pose proof (zlen_nonneg l2).
  rewrite gslice_Some by (rewrite ?zlen_app; lia). f_equal.
  rewrite drop_0, Z.sub_0_r. replace (Z.to_nat (zlen l1)) with (length l1) by (unfold zlen; lia).
  by rewrite take_app_length.
Qed.

Lemma gslice_suffix {A} (l1 l2 : list A) : gslice (l1 ++ l2) (zlen l1) (zlen (l1 ++ l2)) = Some l2.
Proof.
  pose proof (zlen_nonneg l1). pose proof (zlen_nonneg l2).
  rewrite zlen_app, gslice_Some by (rewrite ?zlen_app; lia). f_equal.
  replace (Z.to_nat (zlen l1)) with (length l1) by (unfold zlen; lia).
  rewrite drop_app_length. apply take_ge. unfold zlen. lia.
Qed.

(** [remove] never panics; it takes out exactly the item asked for. *)
Lemma remove_spec c ref : wf c -> exists c' ok, remove c ref = Some (c', ok) /\ wf c' /\
  index c' = delete ref (index c) /\ next c' = next c /\
  ok = bool_decide (ref ∈ items c) /\
  (ok = true -> exists l1 l2, items c = l1 ++ ref :: l2 /\ ref ∉ l1 /\ items c' = l1 ++ l2) /\
  (ok = false -> c' = c).
Proof.
  intros Hw. unfold remove. destruct (index c !! ref) as [it|] eqn:He.
  - pose proof (proj2 (wf_index c Hw ref) (ex_intro _ _ He)) as Hin.
    destruct (wf_ref c Hw _ _ He) as [-> Hb]. unfold position.
    destruct (position_in_spec _ _ Hin) as (l1 & l2 & Heq & Hni & ->).
    assert (gslice (items c) 0 (zlen l1) = Some l1) as -> by (rewrite Heq; apply gslice_prefix).
    assert (gslice (items c) (zlen l1 + 1) (zlen (items c)) = Some l2) as ->.
    { rewrite Heq. rewrite (app_assoc l1 [ref] l2 : l1 ++ ref :: l2 = _).
      replace (zlen l1 + 1) with (zlen (l1 ++ [ref])) by (rewrite zlen_app; done).
      apply gslice_suffix. }
    simpl. eexists _, true. split; [reflexivity|].
    pose proof (wf_nodup c Hw) as Hnd. rewrite Heq in Hnd.
    apply NoDup_app in Hnd as (Hn1 & Hd & Hn2). apply NoDup_cons in Hn2 as [Hni2 Hn2].
    split; [split; simpl|].
    + apply NoDup_app. split; [done|]. split; [|done]. intros x Hx Hx2. by apply (Hd x Hx), elem_of_cons; right.
    + intros x. destruct (decide (x = ref)) as [->|].
      * rewrite lookup_delete_eq, elem_of_app. split; [intros [?|?]; done|by intros [? [=]]].
      * rewrite lookup_delete_ne, <- (wf_index c Hw), Heq by done.
        rewrite !elem_of_app, elem_of_cons. naive_solver.
    + intros x it' Hx. apply lookup_delete_Some in Hx as [? Hx]. by apply (wf_ref c Hw).
    + apply (wf_next c Hw).
    + simpl. repeat split; [by rewrite bool_decide_eq_true_2|eauto|done].
  - exists c, false. split; [done|]. split; [done|]. rewrite delete_id by done. repeat split; try done.
    rewrite bool_decide_eq_false_2; [done|]. rewrite (wf_index c Hw), He. by intros [? [=]].
Qed.

(** ** What the projection preserves

    A message stands for units in order: its text, then its calls. *)
Inductive unit_ :=
| UText (role callID text : string)
| UCall (call : ToolCall).

Definition item_units (i : Item) : list unit_ :=
  match Content i with
  | ContentToolCall => [UCall (call_of i)]
  | ContentToolOutput => [UText RoleTool (CallID i) (Text i)]
  | _ => if String.eqb (Text i) EmptyString then [] else [UText (Role i) EmptyString (Text i)]
  end.

Definition message_units (m : Message) : list unit_ :=
  match Msg_ToolCalls m with
  | None => [UText (Msg_Role m) (Msg_ToolCallID m) (Msg_Content m)]
  | Some calls =>
      (if String.eqb (Msg_Content m) EmptyString then []
       else [UText (Msg_Role m) (Msg_ToolCallID m) (Msg_Content m)]) ++ map UCall calls
  end.

(** Each message carries at most one call; one without text is a call or a
    tool result. *)
Definition message_ok (m : Message) : Prop :=
  match Msg_ToolCalls m with
  | None => Msg_Content m = EmptyString -> Msg_Role m = RoleTool
  | Some calls => length calls = 1%nat /\ Msg_Role m = RoleAssistant
  end.

Lemma push_message_spec out i : Forall message_ok out ->
  Forall message_ok (push_message out i) /\
  mjoin (map message_units (push_message out i)) = mjoin (map message_units out) ++ item_units i.
Proof.
  intros HF.
  assert (Hsnoc : forall m, message_ok m -> message_units m = item_units i ->
    Forall message_ok (out ++ [m]) /\
    mjoin (map message_units (out ++ [m])) = mjoin (map message_units out) ++ item_units i).
  { intros m Hm Hu. split; [apply Forall_app; by repeat constructor|].
    rewrite map_app, join_app. simpl. by rewrite app_nil_r, Hu. }
  unfold push_message, item_units in *.
  destruct (Content i); try (by apply Hsnoc);
    try (destruct (String.eqb_spec (Text i) EmptyString) as [|Hne] in Hsnoc |- *;
           [by rewrite app_nil_r|by apply Hsnoc; [intros ?|]]).
  destruct (last out) as [m|] eqn:Hlast; [|by apply Hsnoc].
  destruct (_ && _)%bool eqn:Hc; [|by apply Hsnoc].
  apply andb_true_iff in Hc as [Hr Hn]. apply String.eqb_eq in Hr. apply bool_decide_eq_true in Hn.
  apply last_Some in Hlast as [l ->]. rewrite removelast_last.
  apply Forall_app in HF as [HF Hm]. inversion Hm as [|? ? Hm' _]; subst.
  unfold message_ok in Hm'. rewrite Hn in Hm'. split.
  - apply Forall_app. split; [done|]. repeat constructor. done.
  - rewrite !map_app, !join_app. simpl. rewrite !app_nil_r, <- app_assoc. f_equal.
    unfold message_units. simpl. rewrite Hn. destruct (String.eqb_spec (Msg_Content m) EmptyString) as [He|]; [|done].
    specialize (Hm' He). rewrite Hr in Hm'. discriminate.
Qed.

Lemma fold_push_message its : forall out, Forall message_ok out ->
  Forall message_ok (fold_left push_message its out) /\
  mjoin (map message_units (fold_left push_message its out)) =
    mjoin (map message_units out) ++ mjoin (map item_units its).
Proof.
  induction its as [|i its IH]; intros out HF; simpl; [by rewrite app_nil_r|].
  destruct (push_message_spec out i HF) as [HF1 Hu1].
  destruct (IH _ HF1) as [HF2 Hu2]. split; [done|]. by rewrite Hu2, Hu1, <- app_assoc.
Qed.

(** ** Tool outputs *)

Definition is_output (callID : string) (it : item) : Prop :=
  Content (base it) = ContentToolOutput /\ CallID (base it) = callID.

(** Every call is answered at most once. *)
Definition outputs_unique (c : conversation) : Prop :=
  forall r1 r2 it1 it2 id, index c !! r1 = Some it1 -> index c !! r2 = Some it2 ->
    is_output id it1 -> is_output id it2 -> r1 = r2.

Lemma answered_false c callID : wf c -> answered c callID = false ->
  forall ref it, index c !! ref = Some it -> ~ is_output callID it.
Proof.
  intros Hw Ha ref it Hi [Hc Hid].
  assert (answered c callID = true); [|congruence].
  apply existsb_exists. exists it. split.
  - apply list_elem_of_In, list_elem_of_omap. exists ref.
    split; [apply (wf_index c Hw); eauto|done].
  - rewrite bool_decide_eq_true_2 by done. by rewrite Hid, String.eqb_refl.
Qed.

Lemma outputs_unique_insert c ref it :
  outputs_unique c ->
  (forall id, is_output id it -> forall r x, index c !! r = Some x -> ~ is_output id x) ->
  forall l n, outputs_unique {| items := l; index := <[ref := it]> (index c); next := n |}.
Proof.
  intros Hu Hnew l n r1 r2 it1 it2 id. simpl. intros H1 H2 Ho1 Ho2.
  apply lookup_insert_Some in H1 as [[<- <-]|[? H1]], H2 as [[<- <-]|[? H2]]; [done|..].
  - exfalso. by apply (Hnew id Ho1 r2 it2).
  - exfalso. by apply (Hnew id Ho2 r1 it1).
  - by apply (Hu r1 r2 it1 it2 id).
Qed.

Lemma outputs_unique_modify c ref f :
  outputs_unique c ->
  (forall it, get c ref = Some it ->
     Content (base (f it)) = Content (base it) /\ CallID (base (f it)) = CallID (base it)) ->
  outputs_unique (modify ref f c).
Proof.
  intros Hu Hf r1 r2 it1 it2 id H1 H2 Ho1 Ho2. unfold modify in *. simpl in *.
  assert (Hback : forall r it, alter f ref (index c) !! r = Some it -> is_output id it ->
    exists it0, index c !! r = Some it0 /\ is_output id it0).
  { intros r it Hr Ho. destruct (decide (ref = r)) as [<-|].
    - rewrite lookup_alter_eq in Hr. apply fmap_Some in Hr as (it0 & H0 & ->).
      exists it0. destruct (Hf it0 H0) as [Hc Hi]. unfold is_output in *. by rewrite <- Hc, <- Hi.
    - rewrite lookup_alter_ne in Hr by done. eauto. }
  destruct (Hback _ _ H1 Ho1) as (x1 & ? & ?), (Hback _ _ H2 Ho2) as (x2 & ? & ?).
  by apply (Hu r1 r2 x1 x2 id).
Qed.

Lemma outputs_unique_delete c ref l n :
  outputs_unique c -> outputs_unique {| items := l; index := delete ref (index c); next := n |}.
Proof.
  intros Hu r1 r2 it1 it2 id. simpl. intros [_ H1]%lookup_delete_Some [_ H2]%lookup_delete_Some.
  by apply Hu.
Qed.

(** ** Properties *)

(** The projection to chat messages preserves the conversation: read as
    texts and calls in order, the messages are exactly the items (only items
    without text that are not tool items are skipped); a message carries at
    most one call, and only a call or a tool result may have empty text. *)
Theorem messages_preserve c :
  mjoin (map message_units (messages c)) = mjoin (map item_units (map base (deref c))) /\
  Forall message_ok (messages c).
Proof.
  destruct (fold_push_message (map base (deref c)) [] (Forall_nil_2 _)) as [HF Hu]. by split.
Qed.

(** Where [insert] links an item: after [previous], first, or last. *)
Lemma insert_pos_spec c previous atRoot : wf c -> insert_ok c previous atRoot = true ->
  let pos := insert_pos c previous atRoot in
  0 <= pos <= zlen (items c) /\ (atRoot = true -> pos = 0) /\
  (atRoot = false -> if previous =? 0 then pos = zlen (items c)
     else 0 < pos /\ items c !! Z.to_nat (pos - 1) = Some previous).
Proof.
  intros Hw Hok. unfold insert_pos, insert_ok in *. pose proof (zlen_nonneg (items c)).
  destruct atRoot; [lia|]. destruct (previous =? 0) eqn:?; [lia|]. simpl in Hok.
  apply bool_decide_eq_true, (wf_index c Hw), position_in_spec in Hok as (l1 & l2 & Heq & _ & Hp).
  unfold position. rewrite Hp, Heq, zlen_app, zlen_cons.
  pose proof (zlen_nonneg l1). pose proof (zlen_nonneg l2). split_and!; [lia..|done|]. intros _. split; [lia|].
  rewrite lookup_app_r by (unfold zlen; lia).
  by replace (Z.to_nat (zlen l1 + 1 - 1) - length l1)%nat with 0%nat by (unfold zlen; lia).
Qed.

Lemma last_take (l : list ItemRef) pos : 0 <= pos <= zlen l ->
  last (take (Z.to_nat pos) l) = if pos =? 0 then None else l !! Z.to_nat (pos - 1).
Proof.
  intros. destruct (pos =? 0) eqn:?; bool_arith; [by subst pos|].
  rewrite last_lookup, length_take, lookup_take_lt; [f_equal|]; unfold zlen in *; lia.
Qed.

Lemma split_unique (x : ItemRef) l1 l2 a b :
  l1 ++ x :: l2 = a ++ x :: b -> x ∉ l1 -> x ∉ a -> a = l1 /\ b = l2.
Proof.
  revert a. induction l1 as [|y l1 IH]; intros [|z a]; simpl; intros Heq H1 H2.
  - by injection Heq as ->.
  - injection Heq as -> _. by destruct H2; left.
  - injection Heq as -> _. by destruct H1; left.
  - injection Heq as -> Heq. apply not_elem_of_cons in H1 as [_ H1], H2 as [_ H2].
    by destruct (IH a Heq H1 H2) as [-> ->].
Qed.

Lemma ref_for_new c it : wf c -> linkable c it -> index c !! ref_for c it = None.
Proof.
  intros Hw Hl. unfold ref_for. destruct (Ref (base it) =? 0) eqn:?; bool_arith.
  - apply wf_fresh; [done|lia].
  - by destruct Hl as [?|[? _]].
Qed.

(** Removing the item just linked restores the list and the index. *)
Lemma link_remove c c' ref l1 l2 x : wf c -> wf c' -> index c !! ref = None ->
  items c = l1 ++ l2 -> items c' = l1 ++ ref :: l2 -> index c' = <[ref := x]> (index c) ->
  exists c2, remove c' ref = Some (c2, true) /\ items c2 = items c /\ index c2 = index c.
Proof.
  intros Hw Hw' Hnew Hl Hl' Hi'.
  assert (Hni : ref ∉ items c) by (rewrite (wf_index c Hw), Hnew; by intros [? [=]]).
  destruct (remove_spec c' ref Hw') as (c2 & ok & Hrm & _ & Hidx & _ & Hok & Htrue & _).
  assert (Hin : ref ∈ items c') by (rewrite Hl'; apply elem_of_app; right; by left).
  rewrite bool_decide_eq_true_2 in Hok by done. subst ok. exists c2. split; [done|].
  destruct (Htrue eq_refl) as (a & b & Ha & Hna & Hb). split.
  - rewrite Hl' in Ha. apply split_unique in Ha as [-> ->]; [by rewrite Hb, Hl| |done].
    intros Hx. apply Hni. rewrite Hl. by apply elem_of_app; left.
  - by rewrite Hidx, Hi', delete_insert_id.
Qed.

(** A successful insert links the item directly after [previous] (first
    with [atRoot], last without either) and reports its predecessor; removing
    it again gives back the same list and index. *)
Theorem insert_remove c it previous atRoot c' ref prev :
  wf c -> linkable c it -> insert c it previous atRoot = (c', ref, Some prev) ->
  wf c' /\ get c' ref = Some (set_base (with_ref ref) it) /\
  (exists l1 l2, items c = l1 ++ l2 /\ items c' = l1 ++ ref :: l2 /\
     prev = default 0 (last l1) /\
     (atRoot = true -> l1 = []) /\
     (atRoot = false -> if previous =? 0 then l2 = [] else last l1 = Some previous)) /\
  exists c2, remove c' ref = Some (c2, true) /\ items c2 = items c /\ index c2 = index c.
Proof.
  intros Hw Hl Hins. pose proof (insert_wf c it previous atRoot Hw Hl) as Hw'.
  rewrite Hins in Hw'. simpl in Hw'. pose proof (ref_for_new c it Hw Hl) as Hnew.
  rewrite insert_spec in Hins. destruct (insert_ok c previous atRoot) eqn:Hok; [|done].
  destruct (insert_pos_spec c previous atRoot Hw Hok) as (Hb & Hroot & Hnroot).
  set (pos := insert_pos c previous atRoot) in *. injection Hins as Hc' Href Hprev.
  rewrite Href in Hc', Hnew. pose proof (last_take (items c) pos Hb) as Hlast.
  assert (Hi : index c' = <[ref := set_base (with_ref ref) it]> (index c)) by by subst c'.
  assert (Hit : items c' = take (Z.to_nat pos) (items c) ++ ref :: drop (Z.to_nat pos) (items c)) by by subst c'.
  split; [done|]. split; [unfold get; rewrite Hi; apply lookup_insert_eq|]. split.
  - eexists _, _. split; [symmetry; apply (take_drop (Z.to_nat pos))|]. split; [exact Hit|]. split_and!.
    + rewrite Hlast, <- Hprev. by destruct (pos =? 0).
    + intros Hr. by rewrite (Hroot Hr).
    + intros Hr. specialize (Hnroot Hr). destruct (previous =? 0).
      * apply drop_ge. unfold zlen in *. lia.
      * rewrite Hlast. destruct Hnroot as [? ->]. destruct (pos =? 0) eqn:?; bool_arith; [lia|done].
  - eapply (link_remove c c'); try done. by rewrite take_drop.
Qed.

Definition two_items : conversation :=
  (append (append newConversation (fresh_item
     {| Ref := 0; ClientID := "a"; Role := "user"; Content := ContentText; Status := ItemCompleted;
        Text := "hi"; AudioMs := 0; TranscriptDone := true; Name := EmptyString; CallID := EmptyString |})).1.1
   (fresh_item
     {| Ref := 0; ClientID := "b"; Role := "assistant"; Content := ContentText; Status := ItemCompleted;
        Text := "hello"; AudioMs := 0; TranscriptDone := true; Name := EmptyString; CallID := EmptyString |})).1.1%string.

Definition third_item : item := fresh_item
  {| Ref := 0; ClientID := "c"; Role := "system"; Content := ContentText; Status := ItemCompleted;
     Text := "be kind"; AudioMs := 0; TranscriptDone := true; Name := EmptyString; CallID := EmptyString |}%string.

Lemma insert_remove_witness :
  items two_items = [1; 2] /\
  let c' := (insert two_items third_item 1 false).1.1 in
  items c' = [1; 3; 2] /\
  exists c2, remove c' 3 = Some (c2, true) /\ items c2 = items two_items /\ index c2 = index two_items.
Proof.
  split; [reflexivity|]. split; [reflexivity|].
  refine (proj2 (proj2 (proj2 (insert_remove two_items third_item 1 false _ 3 1 _ _ eq_refl)))).
  - apply conversation_append_wf; [|by left]. apply conversation_append_wf; [|by left]. exact wf_newConversation.
  - by left.
Defined.
