(* ===== verification/Response.v ===== *)
(** * Responses ([internal/session/response.go])

    State: [response], the actor's record of one generation, with one setter
    per field the session assigns. [r_cancel] says that the pipeline's cancel
    function exists. Operations: [terminal], [outcome], [done], and the
    projections [toolDefs] and [toolChoice_of] of the session's tools.

    Shown: which finish reasons complete a response, and exactly when the
    progress flags let it end. *)

From S2P Require Export Types.

Record response := MkResponse {
  r_ref : ResponseRef;
  r_gen : Generation;
  r_status : ResponseStatus;
  awaiting : bool;
  llmDone : bool;
  ttsDone : bool;
  audioFlushed : bool;
  r_cancel : bool;
  r_item : ItemRef;
  dependsOn : ItemRef;
  textOnly : bool;
  instructions : string;
  maxTokens : Z;
  r_voice : string;
  failCode : ErrCode;
  r_finish : FinishReason;
  r_usage : Usage;
  r_tag : string;
  tools : option (list ToolDef);
  toolChoice : PToolChoice;
  spoke : bool;
  toolItem : ItemRef
}.

Definition set_r_gen v (r : response) : response :=
  {| r_ref := r_ref r; r_gen := v; r_status := r_status r; awaiting := awaiting r; llmDone := llmDone r;
     ttsDone := ttsDone r; audioFlushed := audioFlushed r; r_cancel := r_cancel r; r_item := r_item r;
     dependsOn := dependsOn r; textOnly := textOnly r; instructions := instructions r; maxTokens := maxTokens r;
     r_voice := r_voice r; failCode := failCode r; r_finish := r_finish r; r_usage := r_usage r;
     r_tag := r_tag r; tools := tools r; toolChoice := toolChoice r; spoke := spoke r; toolItem := toolItem r |}.

Definition set_r_status v (r : response) : response :=
  {| r_ref := r_ref r; r_gen := r_gen r; r_status := v; awaiting := awaiting r; llmDone := llmDone r;
     ttsDone := ttsDone r; audioFlushed := audioFlushed r; r_cancel := r_cancel r; r_item := r_item r;
     dependsOn := dependsOn r; textOnly := textOnly r; instructions := instructions r; maxTokens := maxTokens r;
     r_voice := r_voice r; failCode := failCode r; r_finish := r_finish r; r_usage := r_usage r;
     r_tag := r_tag r; tools := tools r; toolChoice := toolChoice r; spoke := spoke r; toolItem := toolItem r |}.

Definition set_awaiting v (r : response) : response :=
  {| r_ref := r_ref r; r_gen := r_gen r; r_status := r_status r; awaiting := v; llmDone := llmDone r;
     ttsDone := ttsDone r; audioFlushed := audioFlushed r; r_cancel := r_cancel r; r_item := r_item r;
     dependsOn := dependsOn r; textOnly := textOnly r; instructions := instructions r; maxTokens := maxTokens r;
     r_voice := r_voice r; failCode := failCode r; r_finish := r_finish r; r_usage := r_usage r;
     r_tag := r_tag r; tools := tools r; toolChoice := toolChoice r; spoke := spoke r; toolItem := toolItem r |}.

Definition set_llmDone v (r : response) : response :=
  {| r_ref := r_ref r; r_gen := r_gen r; r_status := r_status r; awaiting := awaiting r; llmDone := v;
     ttsDone := ttsDone r; audioFlushed := audioFlushed r; r_cancel := r_cancel r; r_item := r_item r;
     dependsOn := dependsOn r; textOnly := textOnly r; instructions := instructions r; maxTokens := maxTokens r;
     r_voice := r_voice r; failCode := failCode r; r_finish := r_finish r; r_usage := r_usage r;
     r_tag := r_tag r; tools := tools r; toolChoice := toolChoice r; spoke := spoke r; toolItem := toolItem r |}.

Definition set_ttsDone v (r : response) : response :=
  {| r_ref := r_ref r; r_gen := r_gen r; r_status := r_status r; awaiting := awaiting r; llmDone := llmDone r;
     ttsDone := v; audioFlushed := audioFlushed r; r_cancel := r_cancel r; r_item := r_item r;
     dependsOn := dependsOn r; textOnly := textOnly r; instructions := instructions r; maxTokens := maxTokens r;
     r_voice := r_voice r; failCode := failCode r; r_finish := r_finish r; r_usage := r_usage r;
     r_tag := r_tag r; tools := tools r; toolChoice := toolChoice r; spoke := spoke r; toolItem := toolItem r |}.

Definition set_audioFlushed v (r : response) : response :=
  {| r_ref := r_ref r; r_gen := r_gen r; r_status := r_status r; awaiting := awaiting r; llmDone := llmDone r;
     ttsDone := ttsDone r; audioFlushed := v; r_cancel := r_cancel r; r_item := r_item r;
     dependsOn := dependsOn r; textOnly := textOnly r; instructions := instructions r; maxTokens := maxTokens r;
     r_voice := r_voice r; failCode := failCode r; r_finish := r_finish r; r_usage := r_usage r;
     r_tag := r_tag r; tools := tools r; toolChoice := toolChoice r; spoke := spoke r; toolItem := toolItem r |}.

Definition set_r_cancel v (r : response) : response :=
  {| r_ref := r_ref r; r_gen := r_gen r; r_status := r_status r; awaiting := awaiting r; llmDone := llmDone r;
     ttsDone := ttsDone r; audioFlushed := audioFlushed r; r_cancel := v; r_item := r_item r;
     dependsOn := dependsOn r; textOnly := textOnly r; instructions := instructions r; maxTokens := maxTokens r;
     r_voice := r_voice r; failCode := failCode r; r_finish := r_finish r; r_usage := r_usage r;
     r_tag := r_tag r; tools := tools r; toolChoice := toolChoice r; spoke := spoke r; toolItem := toolItem r |}.

Definition set_r_item v (r : response) : response :=
  {| r_ref := r_ref r; r_gen := r_gen r; r_status := r_status r; awaiting := awaiting r; llmDone := llmDone r;
     ttsDone := ttsDone r; audioFlushed := audioFlushed r; r_cancel := r_cancel r; r_item := v;
     dependsOn := dependsOn r; textOnly := textOnly r; instructions := instructions r; maxTokens := maxTokens r;
     r_voice := r_voice r; failCode := failCode r; r_finish := r_finish r; r_usage := r_usage r;
     r_tag := r_tag r; tools := tools r; toolChoice := toolChoice r; spoke := spoke r; toolItem := toolItem r |}.

Definition set_dependsOn v (r : response) : response :=
  {| r_ref := r_ref r; r_gen := r_gen r; r_status := r_status r; awaiting := awaiting r; llmDone := llmDone r;
     ttsDone := ttsDone r; audioFlushed := audioFlushed r; r_cancel := r_cancel r; r_item := r_item r;
     dependsOn := v; textOnly := textOnly r; instructions := instructions r; maxTokens := maxTokens r;
     r_voice := r_voice r; failCode := failCode r; r_finish := r_finish r; r_usage := r_usage r;
     r_tag := r_tag r; tools := tools r; toolChoice := toolChoice r; spoke := spoke r; toolItem := toolItem r |}.

Definition set_failCode v (r : response) : response :=
  {| r_ref := r_ref r; r_gen := r_gen r; r_status := r_status r; awaiting := awaiting r; llmDone := llmDone r;
     ttsDone := ttsDone r; audioFlushed := audioFlushed r; r_cancel := r_cancel r; r_item := r_item r;
     dependsOn := dependsOn r; textOnly := textOnly r; instructions := instructions r; maxTokens := maxTokens r;
     r_voice := r_voice r; failCode := v; r_finish := r_finish r; r_usage := r_usage r; r_tag := r_tag r;
     tools := tools r; toolChoice := toolChoice r; spoke := spoke r; toolItem := toolItem r |}.

Definition set_r_finish v (r : response) : response :=
  {| r_ref := r_ref r; r_gen := r_gen r; r_status := r_status r; awaiting := awaiting r; llmDone := llmDone r;
     ttsDone := ttsDone r; audioFlushed := audioFlushed r; r_cancel := r_cancel r; r_item := r_item r;
     dependsOn := dependsOn r; textOnly := textOnly r; instructions := instructions r; maxTokens := maxTokens r;
     r_voice := r_voice r; failCode := failCode r; r_finish := v; r_usage := r_usage r; r_tag := r_tag r;
     tools := tools r; toolChoice := toolChoice r; spoke := spoke r; toolItem := toolItem r |}.

Definition set_r_usage v (r : response) : response :=
  {| r_ref := r_ref r; r_gen := r_gen r; r_status := r_status r; awaiting := awaiting r; llmDone := llmDone r;
     ttsDone := ttsDone r; audioFlushed := audioFlushed r; r_cancel := r_cancel r; r_item := r_item r;
     dependsOn := dependsOn r; textOnly := textOnly r; instructions := instructions r; maxTokens := maxTokens r;
     r_voice := r_voice r; failCode := failCode r; r_finish := r_finish r; r_usage := v; r_tag := r_tag r;
     tools := tools r; toolChoice := toolChoice r; spoke := spoke r; toolItem := toolItem r |}.

Definition set_spoke v (r : response) : response :=
  {| r_ref := r_ref r; r_gen := r_gen r; r_status := r_status r; awaiting := awaiting r; llmDone := llmDone r;
     ttsDone := ttsDone r; audioFlushed := audioFlushed r; r_cancel := r_cancel r; r_item := r_item r;
     dependsOn := dependsOn r; textOnly := textOnly r; instructions := instructions r; maxTokens := maxTokens r;
     r_voice := r_voice r; failCode := failCode r; r_finish := r_finish r; r_usage := r_usage r;
     r_tag := r_tag r; tools := tools r; toolChoice := toolChoice r; spoke := v; toolItem := toolItem r |}.

Definition set_toolItem v (r : response) : response :=
  {| r_ref := r_ref r; r_gen := r_gen r; r_status := r_status r; awaiting := awaiting r; llmDone := llmDone r;
     ttsDone := ttsDone r; audioFlushed := audioFlushed r; r_cancel := r_cancel r; r_item := r_item r;
     dependsOn := dependsOn r; textOnly := textOnly r; instructions := instructions r; maxTokens := maxTokens r;
     r_voice := r_voice r; failCode := failCode r; r_finish := r_finish r; r_usage := r_usage r;
     r_tag := r_tag r; tools := tools r; toolChoice := toolChoice r; spoke := spoke r; toolItem := v |}.

(** ** Operations *)

Definition terminal (r : response) : bool := negb (bool_decide (r_status r = ResponseInProgress)).

Definition outcome (r : response) : ResponseStatus * StatusReason :=
  if String.eqb (r_finish r) FinishLength then (ResponseIncomplete, ReasonMaxOutputTokens)
  else if String.eqb (r_finish r) FinishContentFilter then (ResponseIncomplete, ReasonContentFilter)
  else (ResponseCompleted, ReasonNone).

Definition done_ (r : response) : bool :=
  if negb (llmDone r) then false
  else textOnly r || negb (spoke r) || (ttsDone r && audioFlushed r).

(** nil for no tools. *)
Definition toolDefs (ts : list Tool) : option (list ToolDef) :=
  match ts with
  | [] => None
  | _ => Some (map (fun t => {| Def_Name := Tool_Name t; Def_Description := Tool_Description t;
                               Def_Parameters := Tool_Parameters t |}) ts)
  end.

(** The empty mode resolves to "auto". *)
Definition toolChoice_of (tc : Config.ToolChoice) : PToolChoice :=
  if String.eqb (Mode tc) EmptyString then {| Mode := ToolChoiceAuto; TC_Name := EmptyString |}
  else {| Mode := Mode tc; TC_Name := TC_Name tc |}.

(** ** Properties *)

(** A response may end exactly when the model is done and the modality owes
    nothing more: a text response or a turn without text needs no audio, a
    spoken turn needs its synthesis finished and flushed; and only the length
    and content-filter finish reasons make the outcome incomplete. *)
Theorem done_outcome r :
  (done_ r = true <->
     llmDone r = true /\
     (textOnly r = true \/ spoke r = false \/ ttsDone r = true /\ audioFlushed r = true)) /\
  (outcome r = (ResponseCompleted, ReasonNone) <->
     r_finish r <> FinishLength /\ r_finish r <> FinishContentFilter) /\
  (r_finish r = FinishLength -> outcome r = (ResponseIncomplete, ReasonMaxOutputTokens)) /\
  (r_finish r = FinishContentFilter -> outcome r = (ResponseIncomplete, ReasonContentFilter)).
Proof.
  unfold done_, outcome. split.
  - destruct (llmDone r), (textOnly r), (spoke r), (ttsDone r), (audioFlushed r); simpl; naive_solver.
  - destruct (String.eqb_spec (r_finish r) FinishLength) as [->|?];
      [split_and!; try done; naive_solver|].
    destruct (String.eqb_spec (r_finish r) FinishContentFilter) as [->|?];
      split_and!; try done; naive_solver.
Qed.
