(* ===== verification/Pipeline.v ===== *)
(** * The response pipeline ([internal/session/pipeline.go])

    The per-response goroutine group, LLM to sentencer to TTS. *)

From S2P Require Export Types.

(** The LLM and TTS handles are the session's; the channel and the context
    are the session's too. *)
Record pipeline := MkPipeline {
  p_gen : Generation;
  p_resp : ResponseRef;
  p_textOnly : bool;
  p_req : ChatRequest;
  p_ttsCfg : TTSConfig
}.
