(* ===== verification/SessionState.v ===== *)
(** * The session's state ([Session] of [internal/session/session.go])

    [session] holds the actor-owned fields, with one setter per field.
    [asrWait], [eot] and [deferWait] are the timers: the duration they were
    armed with (nanoseconds), [None] when stopped. [closed] is the cancellation
    cause of the session context (the first one wins), [pipelines] the pipelines
    launched and [cancelled] the generations whose context was cancelled.
    [out] are the events [emit] was called with so far, in order, and [sent]
    those that reached the events channel: once the context is done, the select
    in [emit] may drop an event. [takes] says how the coming selects choose
    between the send and the done context (at its end they send). Identity,
    logging, tracing, metrics and the time stamps that only feed them are left
    out. *)

From S2P Require Export Types Response Pipeline.
From S2P Require Vad Buffer Turn Conversation.

(** [A] is the state of the ASR stream. *)
Record session {A : Type} := MkSession {
  cfg : SessionDefaults;
  limits : Limits;
  temp : option float64;
  asrStream : A;
  buffer : Buffer.inputAudioBuffer;
  detector : option Vad.Energy;
  turns : Turn.TurnManager;
  conv : Conversation.conversation;
  active : option response;
  activeGen : Generation;
  nextResp : ResponseRef;
  audioEmitted : bool;
  speechItem : ItemRef;
  pendingItem : option ItemRef;
  transcriptAcc : string;
  partial : string;
  asrWait : option Z;
  eot : option Z;
  deferItem : ItemRef;
  deferWait : option Z;
  pipelines : list pipeline;
  cancelled : list Generation;
  responses : Z;
  closed : option CloseReason;
  out : list Event;
  takes : list bool;
  sent : list Event
}.
Arguments session : clear implicits.

Section setters.
Context {A : Type}.

Definition set_cfg v (s : session A) : session A :=
  {| cfg := v; limits := limits s; temp := temp s; asrStream := asrStream s; buffer := buffer s;
     detector := detector s; turns := turns s; conv := conv s; active := active s; activeGen := activeGen s;
     nextResp := nextResp s; audioEmitted := audioEmitted s; speechItem := speechItem s;
     pendingItem := pendingItem s; transcriptAcc := transcriptAcc s; partial := partial s; asrWait := asrWait s;
     eot := eot s; deferItem := deferItem s; deferWait := deferWait s; pipelines := pipelines s;
     cancelled := cancelled s; responses := responses s; closed := closed s; out := out s; takes := takes s;
     sent := sent s |}.

Definition set_asrStream v (s : session A) : session A :=
  {| cfg := cfg s; limits := limits s; temp := temp s; asrStream := v; buffer := buffer s;
     detector := detector s; turns := turns s; conv := conv s; active := active s; activeGen := activeGen s;
     nextResp := nextResp s; audioEmitted := audioEmitted s; speechItem := speechItem s;
     pendingItem := pendingItem s; transcriptAcc := transcriptAcc s; partial := partial s; asrWait := asrWait s;
     eot := eot s; deferItem := deferItem s; deferWait := deferWait s; pipelines := pipelines s;
     cancelled := cancelled s; responses := responses s; closed := closed s; out := out s; takes := takes s;
     sent := sent s |}.

Definition set_buffer v (s : session A) : session A :=
  {| cfg := cfg s; limits := limits s; temp := temp s; asrStream := asrStream s; buffer := v;
     detector := detector s; turns := turns s; conv := conv s; active := active s; activeGen := activeGen s;
     nextResp := nextResp s; audioEmitted := audioEmitted s; speechItem := speechItem s;
     pendingItem := pendingItem s; transcriptAcc := transcriptAcc s; partial := partial s; asrWait := asrWait s;
     eot := eot s; deferItem := deferItem s; deferWait := deferWait s; pipelines := pipelines s;
     cancelled := cancelled s; responses := responses s; closed := closed s; out := out s; takes := takes s;
     sent := sent s |}.

Definition set_detector v (s : session A) : session A :=
  {| cfg := cfg s; limits := limits s; temp := temp s; asrStream := asrStream s; buffer := buffer s;
     detector := v; turns := turns s; conv := conv s; active := active s; activeGen := activeGen s;
     nextResp := nextResp s; audioEmitted := audioEmitted s; speechItem := speechItem s;
     pendingItem := pendingItem s; transcriptAcc := transcriptAcc s; partial := partial s; asrWait := asrWait s;
     eot := eot s; deferItem := deferItem s; deferWait := deferWait s; pipelines := pipelines s;
     cancelled := cancelled s; responses := responses s; closed := closed s; out := out s; takes := takes s;
     sent := sent s |}.

Definition set_turns v (s : session A) : session A :=
  {| cfg := cfg s; limits := limits s; temp := temp s; asrStream := asrStream s; buffer := buffer s;
     detector := detector s; turns := v; conv := conv s; active := active s; activeGen := activeGen s;
     nextResp := nextResp s; audioEmitted := audioEmitted s; speechItem := speechItem s;
     pendingItem := pendingItem s; transcriptAcc := transcriptAcc s; partial := partial s; asrWait := asrWait s;
     eot := eot s; deferItem := deferItem s; deferWait := deferWait s; pipelines := pipelines s;
     cancelled := cancelled s; responses := responses s; closed := closed s; out := out s; takes := takes s;
     sent := sent s |}.

Definition set_conv v (s : session A) : session A :=
  {| cfg := cfg s; limits := limits s; temp := temp s; asrStream := asrStream s; buffer := buffer s;
     detector := detector s; turns := turns s; conv := v; active := active s; activeGen := activeGen s;
     nextResp := nextResp s; audioEmitted := audioEmitted s; speechItem := speechItem s;
     pendingItem := pendingItem s; transcriptAcc := transcriptAcc s; partial := partial s; asrWait := asrWait s;
     eot := eot s; deferItem := deferItem s; deferWait := deferWait s; pipelines := pipelines s;
     cancelled := cancelled s; responses := responses s; closed := closed s; out := out s; takes := takes s;
     sent := sent s |}.

Definition set_active v (s : session A) : session A :=
  {| cfg := cfg s; limits := limits s; temp := temp s; asrStream := asrStream s; buffer := buffer s;
     detector := detector s; turns := turns s; conv := conv s; active := v; activeGen := activeGen s;
     nextResp := nextResp s; audioEmitted := audioEmitted s; speechItem := speechItem s;
     pendingItem := pendingItem s; transcriptAcc := transcriptAcc s; partial := partial s; asrWait := asrWait s;
     eot := eot s; deferItem := deferItem s; deferWait := deferWait s; pipelines := pipelines s;
     cancelled := cancelled s; responses := responses s; closed := closed s; out := out s; takes := takes s;
     sent := sent s |}.

Definition set_activeGen v (s : session A) : session A :=
  {| cfg := cfg s; limits := limits s; temp := temp s; asrStream := asrStream s; buffer := buffer s;
     detector := detector s; turns := turns s; conv := conv s; active := active s; activeGen := v;
     nextResp := nextResp s; audioEmitted := audioEmitted s; speechItem := speechItem s;
     pendingItem := pendingItem s; transcriptAcc := transcriptAcc s; partial := partial s; asrWait := asrWait s;
     eot := eot s; deferItem := deferItem s; deferWait := deferWait s; pipelines := pipelines s;
     cancelled := cancelled s; responses := responses s; closed := closed s; out := out s; takes := takes s;
     sent := sent s |}.

Definition set_nextResp v (s : session A) : session A :=
  {| cfg := cfg s; limits := limits s; temp := temp s; asrStream := asrStream s; buffer := buffer s;
     detector := detector s; turns := turns s; conv := conv s; active := active s; activeGen := activeGen s;
     nextResp := v; audioEmitted := audioEmitted s; speechItem := speechItem s; pendingItem := pendingItem s;
     transcriptAcc := transcriptAcc s; partial := partial s; asrWait := asrWait s; eot := eot s;
     deferItem := deferItem s; deferWait := deferWait s; pipelines := pipelines s; cancelled := cancelled s;
     responses := responses s; closed := closed s; out := out s; takes := takes s;
     sent := sent s |}.

Definition set_audioEmitted v (s : session A) : session A :=
  {| cfg := cfg s; limits := limits s; temp := temp s; asrStream := asrStream s; buffer := buffer s;
     detector := detector s; turns := turns s; conv := conv s; active := active s; activeGen := activeGen s;
     nextResp := nextResp s; audioEmitted := v; speechItem := speechItem s; pendingItem := pendingItem s;
     transcriptAcc := transcriptAcc s; partial := partial s; asrWait := asrWait s; eot := eot s;
     deferItem := deferItem s; deferWait := deferWait s; pipelines := pipelines s; cancelled := cancelled s;
     responses := responses s; closed := closed s; out := out s; takes := takes s;
     sent := sent s |}.

Definition set_speechItem v (s : session A) : session A :=
  {| cfg := cfg s; limits := limits s; temp := temp s; asrStream := asrStream s; buffer := buffer s;
     detector := detector s; turns := turns s; conv := conv s; active := active s; activeGen := activeGen s;
     nextResp := nextResp s; audioEmitted := audioEmitted s; speechItem := v; pendingItem := pendingItem s;
     transcriptAcc := transcriptAcc s; partial := partial s; asrWait := asrWait s; eot := eot s;
     deferItem := deferItem s; deferWait := deferWait s; pipelines := pipelines s; cancelled := cancelled s;
     responses := responses s; closed := closed s; out := out s; takes := takes s;
     sent := sent s |}.

Definition set_pendingItem v (s : session A) : session A :=
  {| cfg := cfg s; limits := limits s; temp := temp s; asrStream := asrStream s; buffer := buffer s;
     detector := detector s; turns := turns s; conv := conv s; active := active s; activeGen := activeGen s;
     nextResp := nextResp s; audioEmitted := audioEmitted s; speechItem := speechItem s; pendingItem := v;
     transcriptAcc := transcriptAcc s; partial := partial s; asrWait := asrWait s; eot := eot s;
     deferItem := deferItem s; deferWait := deferWait s; pipelines := pipelines s; cancelled := cancelled s;
     responses := responses s; closed := closed s; out := out s; takes := takes s;
     sent := sent s |}.

Definition set_transcriptAcc v (s : session A) : session A :=
  {| cfg := cfg s; limits := limits s; temp := temp s; asrStream := asrStream s; buffer := buffer s;
     detector := detector s; turns := turns s; conv := conv s; active := active s; activeGen := activeGen s;
     nextResp := nextResp s; audioEmitted := audioEmitted s; speechItem := speechItem s;
     pendingItem := pendingItem s; transcriptAcc := v; partial := partial s; asrWait := asrWait s; eot := eot s;
     deferItem := deferItem s; deferWait := deferWait s; pipelines := pipelines s; cancelled := cancelled s;
     responses := responses s; closed := closed s; out := out s; takes := takes s;
     sent := sent s |}.

Definition set_partial v (s : session A) : session A :=
  {| cfg := cfg s; limits := limits s; temp := temp s; asrStream := asrStream s; buffer := buffer s;
     detector := detector s; turns := turns s; conv := conv s; active := active s; activeGen := activeGen s;
     nextResp := nextResp s; audioEmitted := audioEmitted s; speechItem := speechItem s;
     pendingItem := pendingItem s; transcriptAcc := transcriptAcc s; partial := v; asrWait := asrWait s;
     eot := eot s; deferItem := deferItem s; deferWait := deferWait s; pipelines := pipelines s;
     cancelled := cancelled s; responses := responses s; closed := closed s; out := out s; takes := takes s;
     sent := sent s |}.

Definition set_asrWait v (s : session A) : session A :=
  {| cfg := cfg s; limits := limits s; temp := temp s; asrStream := asrStream s; buffer := buffer s;
     detector := detector s; turns := turns s; conv := conv s; active := active s; activeGen := activeGen s;
     nextResp := nextResp s; audioEmitted := audioEmitted s; speechItem := speechItem s;
     pendingItem := pendingItem s; transcriptAcc := transcriptAcc s; partial := partial s; asrWait := v;
     eot := eot s; deferItem := deferItem s; deferWait := deferWait s; pipelines := pipelines s;
     cancelled := cancelled s; responses := responses s; closed := closed s; out := out s; takes := takes s;
     sent := sent s |}.

Definition set_eot v (s : session A) : session A :=
  {| cfg := cfg s; limits := limits s; temp := temp s; asrStream := asrStream s; buffer := buffer s;
     detector := detector s; turns := turns s; conv := conv s; active := active s; activeGen := activeGen s;
     nextResp := nextResp s; audioEmitted := audioEmitted s; speechItem := speechItem s;
     pendingItem := pendingItem s; transcriptAcc := transcriptAcc s; partial := partial s; asrWait := asrWait s;
     eot := v; deferItem := deferItem s; deferWait := deferWait s; pipelines := pipelines s;
     cancelled := cancelled s; responses := responses s; closed := closed s; out := out s; takes := takes s;
     sent := sent s |}.

Definition set_deferItem v (s : session A) : session A :=
  {| cfg := cfg s; limits := limits s; temp := temp s; asrStream := asrStream s; buffer := buffer s;
     detector := detector s; turns := turns s; conv := conv s; active := active s; activeGen := activeGen s;
     nextResp := nextResp s; audioEmitted := audioEmitted s; speechItem := speechItem s;
     pendingItem := pendingItem s; transcriptAcc := transcriptAcc s; partial := partial s; asrWait := asrWait s;
     eot := eot s; deferItem := v; deferWait := deferWait s; pipelines := pipelines s; cancelled := cancelled s;
     responses := responses s; closed := closed s; out := out s; takes := takes s;
     sent := sent s |}.

Definition set_deferWait v (s : session A) : session A :=
  {| cfg := cfg s; limits := limits s; temp := temp s; asrStream := asrStream s; buffer := buffer s;
     detector := detector s; turns := turns s; conv := conv s; active := active s; activeGen := activeGen s;
     nextResp := nextResp s; audioEmitted := audioEmitted s; speechItem := speechItem s;
     pendingItem := pendingItem s; transcriptAcc := transcriptAcc s; partial := partial s; asrWait := asrWait s;
     eot := eot s; deferItem := deferItem s; deferWait := v; pipelines := pipelines s; cancelled := cancelled s;
     responses := responses s; closed := closed s; out := out s; takes := takes s;
     sent := sent s |}.

Definition set_pipelines v (s : session A) : session A :=
  {| cfg := cfg s; limits := limits s; temp := temp s; asrStream := asrStream s; buffer := buffer s;
     detector := detector s; turns := turns s; conv := conv s; active := active s; activeGen := activeGen s;
     nextResp := nextResp s; audioEmitted := audioEmitted s; speechItem := speechItem s;
     pendingItem := pendingItem s; transcriptAcc := transcriptAcc s; partial := partial s; asrWait := asrWait s;
     eot := eot s; deferItem := deferItem s; deferWait := deferWait s; pipelines := v; cancelled := cancelled s;
     responses := responses s; closed := closed s; out := out s; takes := takes s;
     sent := sent s |}.

Definition set_cancelled v (s : session A) : session A :=
  {| cfg := cfg s; limits := limits s; temp := temp s; asrStream := asrStream s; buffer := buffer s;
     detector := detector s; turns := turns s; conv := conv s; active := active s; activeGen := activeGen s;
     nextResp := nextResp s; audioEmitted := audioEmitted s; speechItem := speechItem s;
     pendingItem := pendingItem s; transcriptAcc := transcriptAcc s; partial := partial s; asrWait := asrWait s;
     eot := eot s; deferItem := deferItem s; deferWait := deferWait s; pipelines := pipelines s; cancelled := v;
     responses := responses s; closed := closed s; out := out s; takes := takes s;
     sent := sent s |}.

Definition set_responses v (s : session A) : session A :=
  {| cfg := cfg s; limits := limits s; temp := temp s; asrStream := asrStream s; buffer := buffer s;
     detector := detector s; turns := turns s; conv := conv s; active := active s; activeGen := activeGen s;
     nextResp := nextResp s; audioEmitted := audioEmitted s; speechItem := speechItem s;
     pendingItem := pendingItem s; transcriptAcc := transcriptAcc s; partial := partial s; asrWait := asrWait s;
     eot := eot s; deferItem := deferItem s; deferWait := deferWait s; pipelines := pipelines s;
     cancelled := cancelled s; responses := v; closed := closed s; out := out s; takes := takes s;
     sent := sent s |}.

Definition set_closed v (s : session A) : session A :=
  {| cfg := cfg s; limits := limits s; temp := temp s; asrStream := asrStream s; buffer := buffer s;
     detector := detector s; turns := turns s; conv := conv s; active := active s; activeGen := activeGen s;
     nextResp := nextResp s; audioEmitted := audioEmitted s; speechItem := speechItem s;
     pendingItem := pendingItem s; transcriptAcc := transcriptAcc s; partial := partial s; asrWait := asrWait s;
     eot := eot s; deferItem := deferItem s; deferWait := deferWait s; pipelines := pipelines s;
     cancelled := cancelled s; responses := responses s; closed := v; out := out s; takes := takes s; sent := sent s |}.

Definition set_takes v (s : session A) : session A :=
  {| cfg := cfg s; limits := limits s; temp := temp s; asrStream := asrStream s; buffer := buffer s;
     detector := detector s; turns := turns s; conv := conv s; active := active s; activeGen := activeGen s;
     nextResp := nextResp s; audioEmitted := audioEmitted s; speechItem := speechItem s;
     pendingItem := pendingItem s; transcriptAcc := transcriptAcc s; partial := partial s; asrWait := asrWait s;
     eot := eot s; deferItem := deferItem s; deferWait := deferWait s; pipelines := pipelines s;
     cancelled := cancelled s; responses := responses s; closed := closed s; out := out s; takes := v;
     sent := sent s |}.

(** The fields [emit] changes, at once. *)
Definition set_events o t e (s : session A) : session A :=
  {| cfg := cfg s; limits := limits s; temp := temp s; asrStream := asrStream s; buffer := buffer s;
     detector := detector s; turns := turns s; conv := conv s; active := active s; activeGen := activeGen s;
     nextResp := nextResp s; audioEmitted := audioEmitted s; speechItem := speechItem s;
     pendingItem := pendingItem s; transcriptAcc := transcriptAcc s; partial := partial s; asrWait := asrWait s;
     eot := eot s; deferItem := deferItem s; deferWait := deferWait s; pipelines := pipelines s;
     cancelled := cancelled s; responses := responses s; closed := closed s; out := o; takes := t;
     sent := e |}.

End setters.
