(* ===== verification/Session.v ===== *)
(** * The session actor ([internal/session/session.go])

    Every handler the actor loop dispatches to, as a function on
    [SessionState.session]. A handler returns [None] when the Go code panics
    (a slice out of range in [commit], [trimIdle], [trimText] or [remove]);
    handlers that cannot panic return the state itself. Sending to the ASR
    stream goes through the [ASRStream] interface. [emit] delivers an event as long
    as the context is not done, and may drop it after. The dispatcher [handle] and
    the reachable states are in [SessionStep]. *)

From S2P Require Export SessionState.
From S2P Require Import Audio.
From S2P Require Vad Buffer Turn Conversation Truncate Utf8.
Import Turn (TurnInput(..), TurnDecision, EmitSpeechStarted, EmitSpeechStopped, Interrupt, Commit,
  Trigger, DeferTrigger, ArmEndOfTurnTimer, ArmFinalWaitTimer).

Definition eagernessHighMs : Z := 400.
Definition eagernessMediumMs : Z := 800.
Definition eagernessLowMs : Z := 1500.
Definition Millisecond : Z := 1000000.

Section session.
Context {A : Type} `{ASRStream A}.
Implicit Types s : session A.

(** ** Effects *)

(** The select of [emit] takes the send: always before the context is done,
    as the environment has it after. *)
Definition taken s : bool :=
  match closed s with
  | None => true
  | Some _ => default true (head (takes s))
  end.

Definition emit (ev : Event) s : session A :=
  set_events (out s ++ [ev]) (match closed s with None => takes s | Some _ => tail (takes s) end)
    (sent s ++ (if taken s then [ev] else [])) s.

(** [s.cancel(closeError{reason})]: the first cause wins. *)
Definition cancel_ctx (reason : CloseReason) s : session A :=
  match closed s with
  | None => set_closed (Some reason) s
  | Some _ => s
  end.

Definition emitError (tag : string) (code : ErrCode) s : session A :=
  emit (EvError tag code EmptyString false) s.

Definition emitParamError (tag : string) (code : ErrCode) (param : string) s : session A :=
  emit (EvError tag code param false) s.

Definition fatal (code : ErrCode) (reason : CloseReason) s : session A :=
  cancel_ctx reason (emit (EvError EmptyString code EmptyString true) s).

(** [s.turns.Step(in)]. *)
Definition turn (input : TurnInput) s : session A * TurnDecision :=
  let '(t, d) := Turn.Step (turns s) input in (set_turns t s, d).

(** ** Timers *)

Definition armEndOfTurn (d : Z) s : session A := set_eot (Some d) s.
Definition disarmEndOfTurn s : session A := set_eot None s.
Definition stopASRWait s : session A := set_asrWait None s.
Definition dropDeferredTrigger s : session A := set_deferItem 0 (set_deferWait None s).
Definition stopTimers s : session A := dropDeferredTrigger (disarmEndOfTurn (stopASRWait s)).

(** ** Configuration *)

Definition turn_detection s : option TurnDetection := In_TurnDetection (SD_Input (cfg s)).

Definition ttsConfig (voice : string) s : TTSConfig :=
  {| TTS_Voice := voice; TTS_Speed := Out_Speed (SD_Output (cfg s)); TTS_SampleRate := SampleRate |}.

Definition vadThreshold s : float64 :=
  match turn_detection s with
  | Some td => default DefaultVADThreshold (TD_Threshold td)
  | None => DefaultVADThreshold
  end.

Definition vadPrefixMs s : Z :=
  match turn_detection s with
  | Some td => default DefaultVADPrefixPaddingMs (TD_PrefixPaddingMs td)
  | None => DefaultVADPrefixPaddingMs
  end.

Definition vadSilenceMs s : Z :=
  match turn_detection s with
  | Some td => default DefaultVADSilenceDurationMs (TD_SilenceDurationMs td)
  | None => DefaultVADSilenceDurationMs
  end.

Definition eagernessMs s : Z :=
  match turn_detection s with
  | Some td =>
      match TD_Eagerness td with
      | None => eagernessMediumMs
      | Some e =>
          if String.eqb e "high" then eagernessHighMs
          else if String.eqb e "low" then eagernessLowMs
          else eagernessMediumMs
      end
  | None => eagernessMediumMs
  end.

Definition finalWait s : Z := Z.max (ASRFinalTimeout (limits s)) (eagernessMs s * Millisecond).

Definition transcriptionEnabled s : bool := is_some (In_Transcription (SD_Input (cfg s))).

(** [mods] is [None] for nil. *)
Definition textOnly_ (mods : option (list string)) s : bool :=
  match default (SD_OutputModalities (cfg s)) mods with
  | [m] => String.eqb m ModalityText
  | _ => false
  end.

(** (Re)builds the VAD and the turn manager from the configuration. *)
Definition applyTurnDetection s : session A :=
  let tm := Turn.set_responseActive (Turn.responseActive (turns s)) (Turn.newTurnManager (turn_detection s)) in
  let s := set_turns tm s in
  let s := set_detector
    (if Turn.vadEnabled tm
     then Some (Vad.NewEnergy {| Vad.Threshold := vadThreshold s; Vad.SilenceDurationMs := vadSilenceMs s |})
     else None) s in
  set_speechItem 0 (disarmEndOfTurn s).

(** ** Construction *)

Definition with_input (f : AudioInput -> AudioInput) (c : SessionDefaults) : SessionDefaults :=
  {| SD_Instructions := SD_Instructions c; SD_OutputModalities := SD_OutputModalities c;
     SD_Input := f (SD_Input c); SD_Output := SD_Output c; SD_MaxOutputTokens := SD_MaxOutputTokens c;
     SD_Tools := SD_Tools c; SD_ToolChoice := SD_ToolChoice c |}.

Definition with_turn_detection (td : option TurnDetection) : SessionDefaults -> SessionDefaults :=
  with_input (fun i => {| In_Format := In_Format i; In_Transcription := In_Transcription i; In_TurnDetection := td |}).

Definition with_transcription (tr : option Transcription) : SessionDefaults -> SessionDefaults :=
  with_input (fun i => {| In_Format := In_Format i; In_Transcription := tr; In_TurnDetection := In_TurnDetection i |}).

(** [New] followed by a successful [Start], which opened [stream]. *)
Definition New (c : SessionDefaults) (lim : Limits) (temperature : option float64) (stream : A) : session A :=
  let c := match In_TurnDetection (SD_Input c) with
           | Some td => with_turn_detection (Some (ApplyDefaults td)) c
           | None => c
           end in
  applyTurnDetection
    {| cfg := c; limits := lim; temp := temperature; asrStream := stream;
       buffer := Buffer.newInputAudioBuffer (InputAudioBufferMaxMs lim); detector := None;
       turns := Turn.newTurnManager None; conv := Conversation.newConversation;
       active := None; activeGen := 0; nextResp := 0; audioEmitted := false;
       speechItem := 0; pendingItem := None; transcriptAcc := EmptyString; partial := EmptyString;
       asrWait := None; eot := None; deferItem := 0; deferWait := None;
       pipelines := []; cancelled := []; responses := 0; closed := None; out := []; takes := []; sent := [] |}.

(** ** Ending a response *)

(** The message item's final status and events, and the item as listed in the
    response's output. *)
Definition close_item (r : response) (status : ResponseStatus) s : session A * list Item :=
  match Conversation.get (conv s) (r_item r) with
  | Some o =>
      let st := if bool_decide (status = ResponseCompleted) then ItemCompleted else ItemIncomplete in
      let o := Conversation.set_base (Conversation.set_Status st) o in
      let s := set_conv (Conversation.modify (r_item r)
                 (Conversation.set_base (Conversation.set_Status st)) (conv s)) s in
      let s :=
        if textOnly r then emit (EvOutputTextDone (r_ref r) (r_item r) (Text (Conversation.base o))) s
        else emit (EvOutputAudioTranscriptDone (r_ref r) (r_item r) (Text (Conversation.base o)))
               (emit (EvOutputAudioDone (r_ref r) (r_item r)) s) in
      (emit (EvOutputItemDone (r_ref r) (Conversation.snapshot o)) s, [Conversation.snapshot o])
  | None => (s, [])
  end.

(** [finish]: [r] is the active response. *)
Definition finish (r : response) (status : ResponseStatus) (reason : StatusReason) (err : error) s : session A :=
  if terminal r then s
  else
    let s := if r_cancel r then set_cancelled (cancelled s ++ [r_gen r]) s else s in
    let '(s, output) := close_item r status (stopASRWait s) in
    let output := output ++
      match Conversation.get (conv s) (toolItem r) with
      | Some call => [Conversation.snapshot call]
      | None => []
      end in
    let s := emit (EvResponseDone (r_ref r) status reason (failCode r) err (r_usage r) output) s in
    let s := set_active None s in
    let s := (turn responseEnded s).1 in
    set_activeGen (activeGen s + 1) s.

Definition interrupt (reason : StatusReason) s : session A :=
  match active s with
  | None => s
  | Some r => finish r ResponseCancelled reason None s
  end.

Definition failResponse (r : response) (code : ErrCode) (err : string) s : session A :=
  let r := set_failCode code r in
  let s := set_active (Some r) s in
  let s := emitError (r_tag r) code s in
  finish r ResponseFailed ReasonNone (Some err) s.

Definition maybeComplete (r : response) s : session A :=
  if done_ r then let '(status, reason) := outcome r in finish r status reason None s else s.

(** ** Starting a response *)

Definition startPipeline (r : response) s : session A :=
  let s := set_activeGen (activeGen s + 1) s in
  let r := set_r_cancel true (set_r_gen (activeGen s) (set_awaiting false r)) in
  let s := set_active (Some r) s in
  set_pipelines (pipelines s ++
    [ {| p_gen := r_gen r; p_resp := r_ref r; p_textOnly := textOnly r;
         p_req := {| Req_Instructions := instructions r; Req_Messages := Conversation.messages (conv s);
                     Req_MaxOutputTokens := maxTokens r; Req_Temperature := temp s;
                     Req_Tools := tools r; Req_ToolChoice := toolChoice r |};
         p_ttsCfg := ttsConfig (r_voice r) s |} ]) s.

Definition with_output (f : AudioOutput -> AudioOutput) (c : SessionDefaults) : SessionDefaults :=
  {| SD_Instructions := SD_Instructions c; SD_OutputModalities := SD_OutputModalities c;
     SD_Input := SD_Input c; SD_Output := f (SD_Output c); SD_MaxOutputTokens := SD_MaxOutputTokens c;
     SD_Tools := SD_Tools c; SD_ToolChoice := SD_ToolChoice c |}.

Definition with_voice (v : string) : SessionDefaults -> SessionDefaults :=
  with_output (fun o => {| Out_Format := Out_Format o; Out_Voice := v; Out_Speed := Out_Speed o |}).

Definition with_speed (v : float64) : SessionDefaults -> SessionDefaults :=
  with_output (fun o => {| Out_Format := Out_Format o; Out_Voice := Out_Voice o; Out_Speed := v |}).

Definition with_modalities (v : list string) (c : SessionDefaults) : SessionDefaults :=
  {| SD_Instructions := SD_Instructions c; SD_OutputModalities := v;
     SD_Input := SD_Input c; SD_Output := SD_Output c; SD_MaxOutputTokens := SD_MaxOutputTokens c;
     SD_Tools := SD_Tools c; SD_ToolChoice := SD_ToolChoice c |}.

Definition with_max_tokens (v : MaxOutputTokens) (c : SessionDefaults) : SessionDefaults :=
  {| SD_Instructions := SD_Instructions c; SD_OutputModalities := SD_OutputModalities c;
     SD_Input := SD_Input c; SD_Output := SD_Output c; SD_MaxOutputTokens := v;
     SD_Tools := SD_Tools c; SD_ToolChoice := SD_ToolChoice c |}.

Definition with_instructions (v : string) (c : SessionDefaults) : SessionDefaults :=
  {| SD_Instructions := v; SD_OutputModalities := SD_OutputModalities c;
     SD_Input := SD_Input c; SD_Output := SD_Output c; SD_MaxOutputTokens := SD_MaxOutputTokens c;
     SD_Tools := SD_Tools c; SD_ToolChoice := SD_ToolChoice c |}.

Definition with_tools (v : list Tool) (c : SessionDefaults) : SessionDefaults :=
  {| SD_Instructions := SD_Instructions c; SD_OutputModalities := SD_OutputModalities c;
     SD_Input := SD_Input c; SD_Output := SD_Output c; SD_MaxOutputTokens := SD_MaxOutputTokens c;
     SD_Tools := v; SD_ToolChoice := SD_ToolChoice c |}.

Definition with_tool_choice (v : Config.ToolChoice) (c : SessionDefaults) : SessionDefaults :=
  {| SD_Instructions := SD_Instructions c; SD_OutputModalities := SD_OutputModalities c;
     SD_Input := SD_Input c; SD_Output := SD_Output c; SD_MaxOutputTokens := SD_MaxOutputTokens c;
     SD_Tools := SD_Tools c; SD_ToolChoice := v |}.

(** Applies [f] to the value of a non-nil pointer. *)
Definition patch {V C} (o : option V) (f : V -> C -> C) (c : C) : C :=
  match o with Some v => f v c | None => c end.

Definition voice s : string := Out_Voice (SD_Output (cfg s)).

(** A voice other than the session's, after audio was sent. *)
Definition voice_locked (v : option string) s : bool :=
  match v with
  | Some v => negb (String.eqb v (voice s)) && audioEmitted s
  | None => false
  end.

Definition createResponse (ov : ResponseOverrides) (tag : string) s : session A :=
  if voice_locked (Ov_Voice ov) s then emitParamError tag ErrCodeVoiceLocked "response.audio.output.voice" s
  else
    let probe := patch (Ov_Voice ov) with_voice (patch (Ov_MaxOutputTokens ov) with_max_tokens
                   (patch (Ov_OutputModalities ov) with_modalities (cfg s))) in
    match Validate "response" probe with
    | Some e => emitParamError tag ErrCodeInvalidOverrides (Field e) s
    | None =>
        let s := set_nextResp (nextResp s + 1) s in
        let r :=
          {| r_ref := nextResp s; r_gen := 0; r_status := ResponseInProgress; awaiting := true;
             llmDone := false; ttsDone := false; audioFlushed := false; r_cancel := false;
             r_item := 0; dependsOn := 0;
             textOnly := textOnly_ (Some (SD_OutputModalities probe)) s;
             instructions := default (SD_Instructions (cfg s)) (Ov_Instructions ov);
             maxTokens := if Inf (SD_MaxOutputTokens probe) then 0 else Config.N (SD_MaxOutputTokens probe);
             r_voice := Out_Voice (SD_Output probe); failCode := ErrCodeNone; r_finish := EmptyString;
             r_usage := {| InputTokens := 0; OutputTokens := 0 |}; r_tag := tag;
             tools := toolDefs (SD_Tools (cfg s)); toolChoice := toolChoice_of (SD_ToolChoice (cfg s));
             spoke := false; toolItem := 0 |} in
        let s := set_responses (responses s + 1) (set_active (Some r) s) in
        let s := emit (EvResponseCreated (r_ref r) (SD_OutputModalities probe) (r_voice r)
                   (SD_MaxOutputTokens probe) (Ov_Metadata ov)) s in
        let s := (turn responseStarted s).1 in
        match pendingItem s ≫= Conversation.get (conv s) with
        | Some p =>
            if negb (TranscriptDone (Conversation.base p)) then
              set_asrWait (Some (ASRFinalTimeout (limits s)))
                (set_active (Some (set_dependsOn (Ref (Conversation.base p)) r)) s)
            else startPipeline r s
        | None => startPipeline r s
        end
    end.

(** ** Turns *)

Definition is_blank (text : string) : bool := String.eqb (Utf8.TrimSpace text) EmptyString.

Definition joinTranscript (acc text : string) : string :=
  if String.eqb text EmptyString then acc
  else if String.eqb acc EmptyString then text
  else (acc +:+ " " +:+ text)%string.

Definition deferTrigger s : session A :=
  match pendingItem s with
  | None => s
  | Some ref =>
      set_deferWait (Some (ASRFinalTimeout (limits s))) (set_deferItem ref (dropDeferredTrigger s))
  end.

(** The ref of the item a commit creates: the one announced at speech start,
    or a new one. *)
Definition commit_ref s : session A * ItemRef :=
  if speechItem s =? 0
  then let '(c, ref) := Conversation.newRef (conv s) in (set_conv c s, ref)
  else (s, speechItem s).

(** The item a commit of [startMs, endMs) adds, and its events. *)
Definition commit_item (startMs endMs : Z) s : session A :=
  let s := set_detector (option_map Vad.Reset (detector s)) s in
  let '(s, ref) := commit_ref s in
  let it := Conversation.fresh_item
    {| Ref := ref; ClientID := EmptyString; Role := RoleUser; Content := ContentAudio;
       Status := ItemInProgress; Text := transcriptAcc s; AudioMs := endMs - startMs;
       TranscriptDone := false; Name := EmptyString; CallID := EmptyString |} in
  let '(c, _, prev) := Conversation.append (conv s) it in
  let s := set_pendingItem (Some ref) (set_conv c (set_speechItem 0 s)) in
  emit (EvItemAdded (Conversation.snapshot it) prev) (emit (EvAudioBufferCommitted ref prev) s).

(** The boolean says whether an item was committed. *)
Definition commit (tag : string) s : option (session A * bool) :=
  '(b, r) ← Buffer.commit (buffer s);
  let s := set_buffer b s in
  Some match r with
  | None => (emitError tag ErrCodeBufferEmpty s, false)
  | Some (_, startMs, endMs) =>
      let s := commit_item startMs endMs s in
      let '(a, err) := Finalize (asrStream s) in
      let s := set_asrStream a s in
      match err with
      | Some _ => (fatal ErrCodeProviderError CloseProviderError s, false)
      | None => (s, true)
      end
  end.

Definition apply (d : TurnDecision) (tag : string) s : option (session A) :=
  let s := if ArmEndOfTurnTimer d then armEndOfTurn (eagernessMs s * Millisecond) s else s in
  let s := if ArmFinalWaitTimer d then armEndOfTurn (finalWait s) s else s in
  s ← (if Commit d then
         '(s, ok) ← commit tag s;
         Some (if ok && DeferTrigger d then deferTrigger s else s)
       else Some s);
  Some (if Trigger d then
          match active s with
          | Some _ => s
          | None => createResponse no_overrides tag s
          end
        else s).

(** [turn] then [apply]. *)
Definition turn_apply (input : TurnInput) (tag : string) s : option (session A) :=
  let '(s, d) := turn input s in apply d tag s.

Definition resolveDeferredTrigger (ref : ItemRef) (text : string) s : session A :=
  if (deferItem s =? 0) || negb (deferItem s =? ref) then s
  else
    let s := dropDeferredTrigger s in
    if is_blank text then s
    else match active s with
    | Some _ => s
    | None => createResponse no_overrides EmptyString s
    end.

Definition handleDeferredTimeout s : session A :=
  let ref := deferItem s in
  let s := dropDeferredTrigger s in
  match pendingItem s with
  | None => s
  | Some it =>
      if (ref =? 0) || negb (it =? ref) then s
      else
        let best := joinTranscript (transcriptAcc s) (partial s) in
        if is_blank best then s
        else match active s with
        | Some _ => s
        | None =>
            let s := set_conv (Conversation.modify it
                       (Conversation.set_base (Conversation.set_Text best)) (conv s)) s in
            let s := createResponse no_overrides EmptyString s in
            match active s with
            | Some r => if awaiting r then startPipeline r (stopASRWait s) else s
            | None => s
            end
        end
  end.

(** ** Transcripts *)

(** [completePendingItem]: [ref] is the pending item. *)
Definition completePendingItem (ref : ItemRef) (text delta : string) s : session A :=
  let s := set_transcriptAcc EmptyString (set_pendingItem None s) in
  let s := set_conv (Conversation.modify ref (Conversation.set_base (fun i =>
             Conversation.set_Status ItemCompleted (Conversation.set_TranscriptDone true
               (Conversation.set_Text text i)))) (conv s)) s in
  let s :=
    if transcriptionEnabled s then
      let s := if negb (String.eqb delta EmptyString) then emit (EvInputTranscriptDelta ref delta) s else s in
      emit (EvInputTranscriptDone ref text) s
    else s in
  let s := match Conversation.get (conv s) ref with
           | Some it => emit (EvItemDone (Conversation.snapshot it)) s
           | None => s
           end in
  let s := match active s with
           | Some r =>
               if awaiting r && (dependsOn r =? ref) then startPipeline r (stopASRWait s) else s
           | None => s
           end in
  resolveDeferredTrigger ref text s.

Definition handleASR (ev : ASREvent) s : option (session A) :=
  match AE_Kind ev with
  | ASRPartial => Some (set_partial (AE_Text ev) s)
  | ASRFinal =>
      let s := set_partial EmptyString s in
      let s := match pendingItem s with
               | Some ref => completePendingItem ref (joinTranscript (transcriptAcc s) (AE_Text ev)) (AE_Text ev) s
               | None => set_transcriptAcc (joinTranscript (transcriptAcc s) (AE_Text ev)) s
               end in
      turn_apply (asrFinal (AE_Text ev)) EmptyString s
  | ASREndOfTurn =>
      let s := match pendingItem s with
               | Some ref => completePendingItem ref (transcriptAcc s) EmptyString s
               | None => s
               end in
      turn_apply asrEndOfTurn EmptyString s
  | ASRError => Some (fatal ErrCodeProviderError CloseProviderError s)
  end.

Definition handleTranscriptTimeout s : session A :=
  match active s with
  | None => s
  | Some r =>
      if negb (awaiting r) then s
      else
        let best := joinTranscript (transcriptAcc s) (partial s) in
        if String.eqb best EmptyString
        then failResponse r ErrCodeTranscriptTimeout "no transcript before asr_final_timeout" s
        else
          let s := match pendingItem s with
                   | Some ref => set_conv (Conversation.modify ref
                                   (Conversation.set_base (Conversation.set_Text best)) (conv s)) s
                   | None => s
                   end in
          startPipeline r s
  end.

(** ** Inbound audio *)

Definition alloc_speech s : session A :=
  if speechItem s =? 0
  then let '(c, ref) := Conversation.newRef (conv s) in set_speechItem ref (set_conv c s)
  else s.

Definition speech_started (offsetMs : Z) s : option (session A) :=
  let s := alloc_speech s in
  let '(b, startMs) := Buffer.markSpeechStart (buffer s) offsetMs (vadPrefixMs s) in
  let s := disarmEndOfTurn (set_buffer b s) in
  let '(s, d) := turn vadSpeechStart s in
  let s := if EmitSpeechStarted d then emit (EvSpeechStarted startMs (speechItem s)) s else s in
  let s := if Interrupt d then interrupt ReasonTurnDetected s else s in
  let s := if EmitSpeechStarted d && Turn.interruptResponse (turns s) && negb (deferItem s =? 0)
           then dropDeferredTrigger s else s in
  apply d EmptyString s.

Definition speech_ended (offsetMs : Z) s : option (session A) :=
  let '(b, endMs) := Buffer.markSpeechEnd (buffer s) offsetMs (vadSilenceMs s) in
  let s := set_buffer b s in
  let '(s, d) := turn vadSpeechEnd s in
  let s := if EmitSpeechStopped d then emit (EvSpeechStopped endMs (speechItem s)) s else s in
  apply d EmptyString s.

Fixpoint vad_events (evs : list Vad.Event) s : option (session A) :=
  match evs with
  | [] => Some s
  | ev :: evs =>
      s ← match Vad.Kind ev with
          | Vad.SpeechStart => speech_started (Vad.OffsetMs ev) s
          | Vad.SpeechEnd => speech_ended (Vad.OffsetMs ev) s
          end;
      vad_events evs s
  end.

Definition handleAudio (pcm : list Z) s : option (session A) :=
  match Buffer.append (buffer s) pcm with
  | None => Some (fatal ErrCodeBufferOverflow CloseBufferOverflow s)
  | Some b =>
      let s := set_buffer b s in
      let '(a, err) := PushAudio (asrStream s) pcm in
      let s := set_asrStream a s in
      match err with
      | Some _ => Some (fatal ErrCodeProviderError CloseProviderError s)
      | None =>
          match detector s with
          | None => Some s
          | Some e =>
              let '(e, evs) := Vad.Process e pcm in
              s ← vad_events evs (set_detector (Some e) s);
              b ← Buffer.trimIdle (buffer s) (i64 (vadPrefixMs s + Vad.FrameMs));
              Some (set_buffer b s)
          end
      end
  end.

(** ** Commands *)

Definition apply_patch (p : SessionPatch) (c : SessionDefaults) : SessionDefaults :=
  let c := patch (Patch_Instructions p) with_instructions c in
  let c := patch (Patch_OutputModalities p) with_modalities c in
  let c := patch (Patch_Voice p) with_voice c in
  let c := patch (Patch_Speed p) with_speed c in
  let c := patch (Patch_MaxOutputTokens p) with_max_tokens c in
  let c := match Patch_Transcription p with SetTo tr => with_transcription tr c | Unset => c end in
  let c := match Patch_TurnDetection p with
           | SetTo td => with_turn_detection (option_map ApplyDefaults td) c
           | Unset => c
           end in
  let c := patch (Patch_Tools p) with_tools c in
  patch (Patch_ToolChoice p) with_tool_choice c.

Definition updateSession (p : SessionPatch) (tag : string) s : session A :=
  if voice_locked (Patch_Voice p) s then emitParamError tag ErrCodeVoiceLocked "session.audio.output.voice" s
  else
    let next := apply_patch p (cfg s) in
    match Validate "session" next with
    | Some e => emitParamError tag ErrCodeInvalidSession (Field e) s
    | None =>
        let s := set_cfg next s in
        let s := match Patch_TurnDetection p with SetTo _ => applyTurnDetection s | Unset => s end in
        emit (EvSessionUpdated (cfg s)) s
    end.

(** A client item, or the rejected parameter. *)
Definition newToolOutputItem (spec : ItemSpec) s : string + Conversation.item :=
  match Conversation.get (conv s) (Spec_CallItem spec) with
  | None => inl "item.call_id"%string
  | Some call =>
      if negb (bool_decide (Content (Conversation.base call) = ContentToolCall)) then inl "item.call_id"%string
      else if Conversation.answered (conv s) (CallID (Conversation.base call)) then inl "item.call_id"%string
      else inr (Conversation.fresh_item
        {| Ref := 0; ClientID := Spec_ClientID spec; Role := EmptyString; Content := ContentToolOutput;
           Status := ItemCompleted; Text := Spec_Text spec; AudioMs := 0; TranscriptDone := true;
           Name := Name (Conversation.base call); CallID := CallID (Conversation.base call) |})
  end.

Definition newClientItem (spec : ItemSpec) s : string + Conversation.item :=
  if bool_decide (Spec_Content spec = ContentToolOutput) then newToolOutputItem spec s
  else if negb (bool_decide (Spec_Role spec ∈ [RoleUser; RoleAssistant; RoleSystem])) then inl "item.role"%string
  else if String.eqb (Spec_Text spec) EmptyString then inl "item.content"%string
  else inr (Conversation.fresh_item
    {| Ref := 0; ClientID := Spec_ClientID spec; Role := Spec_Role spec; Content := ContentText;
       Status := ItemCompleted; Text := Spec_Text spec; AudioMs := 0; TranscriptDone := true;
       Name := EmptyString; CallID := EmptyString |}).

Definition createItem (spec : ItemSpec) (previous : ItemRef) (atRoot : bool) (tag : string) s : session A :=
  match newClientItem spec s with
  | inl param => emitParamError tag ErrCodeInvalidItem param s
  | inr it =>
      let '(c, ref, prev) := Conversation.insert (conv s) it previous atRoot in
      let s := set_conv c s in
      match prev with
      | None => emitParamError tag ErrCodeItemNotFound "previous_item_id" s
      | Some prev =>
          let i := Conversation.with_ref ref (Conversation.snapshot it) in
          emit (EvItemDone i) (emit (EvItemAdded i prev) s)
      end
  end.

Definition deleteItem (ref : ItemRef) (tag : string) s : option (session A) :=
  if match active s with Some r => r_item r =? ref | None => false end
  then Some (emitParamError tag ErrCodeInvalidItem "item_id" s)
  else
    '(c, ok) ← Conversation.remove (conv s) ref;
    Some (if negb (ok : bool) then emitParamError tag ErrCodeItemNotFound "item_id" s
          else
            let s := set_conv c s in
            let s := if bool_decide (pendingItem s = Some ref) then set_pendingItem None s else s in
            emit (EvItemDeleted ref) s).

Definition truncateItem (id : ItemRef) (contentIndex audioEndMs : Z) (tag : string) s : option (session A) :=
  match Conversation.get (conv s) id with
  | None => Some (emitParamError tag ErrCodeItemNotFound "item_id" s)
  | Some it =>
      let i := Conversation.base it in
      if negb (String.eqb (Role i) RoleAssistant) || negb (bool_decide (Content i = ContentAudio))
      then Some (emitParamError tag ErrCodeItemNotTruncatable "item_id" s)
      else if negb (contentIndex =? 0)
      then Some (emitParamError tag ErrCodeInvalidItem "content_index" s)
      else
        let cut := MsToBytes audioEndMs in
        if (audioEndMs <? 0) || (Conversation.audioB it <? cut)
        then Some (emitParamError tag ErrCodeTruncateOutOfRange "audio_end_ms" s)
        else
          text ← Truncate.trimText (bytes_of (Text i)) (Conversation.segments it)
                   (Conversation.alignment it) cut (Conversation.audioB it);
          let it := Conversation.set_base (Conversation.set_Text (string_of text)) it in
          let it := if cut <? Conversation.audioB it
                    then Conversation.set_base (Conversation.set_AudioMs audioEndMs)
                           (Conversation.set_audioB cut it)
                    else it in
          let s := set_conv (Conversation.modify id (fun _ => it) (conv s)) s in
          Some (emit (EvItemTruncated id contentIndex audioEndMs) s)
  end.

Definition clearAudio s : session A :=
  let s := set_buffer (Buffer.clear (buffer s)) s in
  let s := set_detector (option_map Vad.Reset (detector s)) s in
  let s := set_turns (Turn.resetTurn (turns s)) s in
  emit EvAudioBufferCleared (set_speechItem 0 (disarmEndOfTurn s)).

Definition handleCommand (cmd : Command) s : option (session A) :=
  let tag := CommandTag cmd in
  match cmd with
  | CmdUpdateSession _ p => Some (updateSession p tag s)
  | CmdCommitAudio _ => turn_apply clientCommit tag s
  | CmdClearAudio _ => Some (clearAudio s)
  | CmdCreateItem _ item previous atRoot => Some (createItem item previous atRoot tag s)
  | CmdDeleteItem _ id => deleteItem id tag s
  | CmdTruncateItem _ id contentIndex audioEndMs => truncateItem id contentIndex audioEndMs tag s
  | CmdCreateResponse _ overrides =>
      Some match active s with
      | Some _ => emitError tag ErrCodeResponseInProgress s
      | None =>
          let '(s, d) := turn clientCreateResponse s in
          if Trigger d then createResponse overrides tag s else s
      end
  | CmdCancelResponse _ resp =>
      Some match active s with
      | None => emitError tag ErrCodeResponseCancelNotActive s
      | Some r =>
          if negb (resp =? 0) && negb (resp =? r_ref r)
          then emitParamError tag ErrCodeResponseCancelNotActive "response_id" s
          else interrupt ReasonClientCancelled s
      end
  | CmdClose _ reason => Some (cancel_ctx reason s)
  end.

(** ** Pipeline facts *)

(** The response's message item, created on the first piece of output; the
    response with that item. *)
Definition ensureOutputItem (r : response) s : session A * response :=
  match Conversation.get (conv s) (r_item r) with
  | Some _ => (s, r)
  | None =>
      let content := if textOnly r then ContentText else ContentAudio in
      let o := Conversation.fresh_item
        {| Ref := 0; ClientID := EmptyString; Role := RoleAssistant; Content := content;
           Status := ItemInProgress; Text := EmptyString; AudioMs := 0; TranscriptDone := true;
           Name := EmptyString; CallID := EmptyString |} in
      let '(c, ref, prev) := Conversation.append (conv s) o in
      let r := set_r_item ref r in
      let s := set_active (Some r) (set_conv c s) in
      (emit (EvOutputItemAdded (r_ref r)
               (Conversation.with_ref ref (Conversation.snapshot o)) prev) s, r)
  end.

(** A text delta: the item's text grows, and the turn has spoken. *)
Definition text_delta (r : response) (delta : string) s : session A * response :=
  let '(s, r) := ensureOutputItem r s in
  let s := set_conv (Conversation.modify (r_item r) (Conversation.set_base (fun i =>
             Conversation.set_Text (Text i +:+ delta)%string i)) (conv s)) s in
  let r := set_spoke true r in
  (set_active (Some r) s, r).

Definition deliverToolCall (r : response) (call : ToolCall) s : session A :=
  if negb (toolItem r =? 0) then s
  else
    let it := Conversation.fresh_item
      {| Ref := 0; ClientID := EmptyString; Role := EmptyString; Content := ContentToolCall;
         Status := ItemInProgress; Text := Call_Arguments call; AudioMs := 0; TranscriptDone := true;
         Name := Call_Name call; CallID := Call_ID call |} in
    let '(c, ref, prev) := Conversation.append (conv s) it in
    let i := Conversation.with_ref ref (Conversation.snapshot it) in
    let s := set_active (Some (set_toolItem ref r)) (set_conv c s) in
    let s := emit (EvOutputItemAdded (r_ref r) i prev) s in
    let s := emit (EvToolCallArguments (r_ref r) ref (Call_Arguments call)) s in
    let s := set_conv (Conversation.modify ref
               (Conversation.set_base (Conversation.set_Status ItemCompleted)) (conv s)) s in
    emit (EvOutputItemDone (r_ref r) (Conversation.set_Status ItemCompleted i)) s.

Definition handleResponseEvent (ev : Event) s : session A :=
  match active s, generation ev with
  | Some r, Some g =>
      if awaiting r || negb (g =? activeGen s) then s
      else match ev with
      | EvOutputTextDelta resp _ g delta =>
          let '(s, r) := text_delta r delta s in
          emit (EvOutputTextDelta resp (r_item r) g delta) s
      | EvOutputAudioTranscriptDelta resp _ g delta =>
          let '(s, r) := text_delta r delta s in
          emit (EvOutputAudioTranscriptDelta resp (r_item r) g delta) s
      | pipeToolCall _ call => deliverToolCall r call s
      | EvOutputAudioDelta resp _ g pcm =>
          let '(s, r) := ensureOutputItem r s in
          let s := set_conv (Conversation.modify (r_item r) (fun o =>
                     let o := Conversation.set_audioB (Conversation.audioB o + zlen pcm) o in
                     Conversation.set_base (Conversation.set_AudioMs (BytesToMs (Conversation.audioB o))) o)
                     (conv s)) s in
          let s := set_audioEmitted true s in
          emit (EvOutputAudioDelta resp (r_item r) g pcm) s
      | pipeAlignment _ timings =>
          set_conv (Conversation.modify (r_item r) (fun o =>
            Conversation.set_alignment (Conversation.alignment o ++ timings) o) (conv s)) s
      | pipeSegment _ seg =>
          set_conv (Conversation.modify (r_item r) (fun o =>
            Conversation.set_segments (Conversation.segments o ++ [seg]) o) (conv s)) s
      | pipeLLMDone _ finish usage =>
          let r := set_r_usage usage (set_r_finish finish (set_llmDone true r)) in
          maybeComplete r (set_active (Some r) s)
      | pipeTTSDone _ =>
          let r := set_audioFlushed true (set_ttsDone true r) in
          maybeComplete r (set_active (Some r) s)
      | pipeError _ _ err => failResponse r ErrCodeProviderError err s
      | _ => s
      end
  | _, _ => s
  end.

(** ** Shutdown *)

Definition reasonOf s : CloseReason := default CloseContextCancelled (closed s).

(** The select of the last event, between the send and the write timeout. *)
Definition emitLast (ev : Event) s : session A :=
  set_events (out s ++ [ev]) (tail (takes s)) (sent s ++ (if default true (head (takes s)) then [ev] else [])) s.

(** [cleanup]; the wait for the pipelines is not modelled. *)
Definition cleanup s : session A :=
  let reason := reasonOf s in
  let s := match active s with
           | Some r => finish r ResponseCancelled ReasonNone None s
           | None => s
           end in
  emitLast (EvSessionClosed reason) (stopTimers s).
End session.
