(* ===== verification/SessionStep.v ===== *)
(** * The actor loop's dispatch and the reachable states

    One iteration of [run] ([internal/session/session.go]) takes one input and
    handles it. [input] is the set of things the select can receive, [enabled]
    says when: a timer is armed, a pipeline fact comes from a pipeline that was
    launched. [IClose] is a cancellation from outside the actor ([Close], an
    input overflow, the server's context). Cancellation disables nothing here:
    a select whose context is done may still pick another ready case, and a
    drain finishes the item in hand, so what is shown of the reachable states
    also holds between the cancellation and the loop's exit. A cancellation in
    the middle of a handler is one before it whose first selects in [emit] all
    send: nothing else in a handler depends on the session's context. Before
    any input the environment may decide how the coming selects choose
    ([reach_takes]).

    [trace] is the order of a response's events: its acceptance of [out] is what
    the actor emits; of [sent], a subsequence of it once the context is done,
    it says less. *)

From S2P Require Export Session.
#[local] Open Scope Z_scope.

Inductive input :=
| ICommand (cmd : Command)
| IAudio (pcm : list Z)
| IASR (ev : ASREvent)
| IResp (ev : Event)
| IAsrWait
| IEot
| IDeferWait
| IClose (reason : CloseReason).

Section step.
Context {A : Type} `{ASRStream A}.
Implicit Types s : session A.

Definition handle (i : input) s : option (session A) :=
  match i with
  | ICommand cmd => handleCommand cmd s
  | IAudio pcm => handleAudio pcm s
  | IASR ev => handleASR ev s
  | IResp ev => Some (handleResponseEvent ev s)
  | IAsrWait => Some (handleTranscriptTimeout (set_asrWait None s))
  | IEot => turn_apply Turn.asrEndOfTurn EmptyString (set_eot None s)
  | IDeferWait => Some (handleDeferredTimeout (set_deferWait None s))
  | IClose reason => Some (cancel_ctx reason s)
  end.

(** The response a pipeline stamps on its deltas. *)
Definition event_resp (ev : Event) : option ResponseRef :=
  match ev with
  | EvOutputTextDelta resp _ _ _ | EvOutputAudioTranscriptDelta resp _ _ _
  | EvOutputAudioDelta resp _ _ _ => Some resp
  | _ => None
  end.

(** [ev] is a fact that pipeline [p] sends. *)
Definition sent_by (p : pipeline) (ev : Event) : bool :=
  bool_decide (generation ev = Some (p_gen p)) &&
  match event_resp ev with Some resp => resp =? p_resp p | None => true end.

Definition enabled (i : input) s : bool :=
  match i with
  | IResp ev => existsb (fun p => sent_by p ev) (pipelines s)
  | IAsrWait => is_some (asrWait s)
  | IEot => is_some (eot s)
  | IDeferWait => is_some (deferWait s)
  | _ => true
  end.

(** A run from [s]: [None] when some input is not enabled or panics. *)
Fixpoint run (is_ : list input) s : option (session A) :=
  match is_ with
  | [] => Some s
  | i :: is_ => if enabled i s then handle i s ≫= run is_ else None
  end.

(** The states the actor can be in. *)
Inductive reachable (c : SessionDefaults) (lim : Limits) (t : option float64) (stream : A) : session A -> Prop :=
| reach_new : reachable c lim t stream (New c lim t stream)
| reach_takes s l : reachable c lim t stream s -> reachable c lim t stream (set_takes l s)
| reach_step s i s' : reachable c lim t stream s ->
    enabled i s = true -> handle i s = Some s' -> reachable c lim t stream s'.

Lemma run_reachable c lim t stream is_ : forall s s',
  reachable c lim t stream s -> run is_ s = Some s' -> reachable c lim t stream s'.
Proof.
  induction is_ as [|i is_ IH]; intros s s' Hr; simpl; [by intros [= <-]|].
  destruct (enabled i s) eqn:He; [|done]. intros (s1 & Hh & Hrun)%bind_Some_inv.
  apply (IH s1 s'); [|done]. by apply (reach_step c lim t stream s i s1).
Qed.
End step.

(** ** The order of a response's events *)

(** [Open n i]: response [n] is under way and its message item is [i] (0 for
    none yet); [Closing n]: that item is done. *)
Inductive phase :=
| Idle (n : ResponseRef)
| Open (n : ResponseRef) (item : ItemRef)
| Closing (n : ResponseRef)
| Ended.

#[export] Instance phase_eq_dec : EqDecision phase.
Proof. solve_decision. Defined.

Definition is_call (i : Item) : bool := bool_decide (Content i = ContentToolCall).

Definition phase_step (ph : phase) (ev : Event) : option phase :=
  match ev with
  | EvResponseCreated ref _ _ _ _ =>
      match ph with Idle n => if ref =? n + 1 then Some (Open ref 0) else None | _ => None end
  | EvOutputItemAdded ref it _ =>
      match ph with
      | Open n i =>
          if negb (ref =? n) then None
          else if is_call it then Some ph
          else if (i =? 0) && negb (Ref it =? 0) then Some (Open n (Ref it)) else None
      | _ => None
      end
  | EvOutputTextDelta ref item _ _ | EvOutputAudioTranscriptDelta ref item _ _
  | EvOutputAudioDelta ref item _ _
  | EvOutputTextDone ref item _ | EvOutputAudioTranscriptDone ref item _ | EvOutputAudioDone ref item =>
      match ph with
      | Open n i => if (ref =? n) && (item =? i) && negb (i =? 0) then Some ph else None
      | _ => None
      end
  | EvToolCallArguments ref _ _ =>
      match ph with Open n _ => if ref =? n then Some ph else None | _ => None end
  | EvOutputItemDone ref it =>
      match ph with
      | Open n i =>
          if negb (ref =? n) then None
          else if is_call it then Some ph
          else if (Ref it =? i) && negb (i =? 0) then Some (Closing n) else None
      | _ => None
      end
  | EvResponseDone ref _ _ _ _ _ _ =>
      match ph with
      | Open n i => if (ref =? n) && (i =? 0) then Some (Idle n) else None
      | Closing n => if ref =? n then Some (Idle n) else None
      | _ => None
      end
  | EvSessionClosed _ => match ph with Idle _ => Some Ended | _ => None end
  | _ => match ph with Ended => None | _ => Some ph end
  end.

Definition trace (evs : list Event) : option phase :=
  fold_left (fun ph ev => ph ≫= fun p => phase_step p ev) evs (Some (Idle 0)).

Lemma trace_snoc evs ev : trace (evs ++ [ev]) = trace evs ≫= fun p => phase_step p ev.
Proof. unfold trace. by rewrite fold_left_app. Qed.

(** Events that do not belong to a response. *)
Definition neutral (ev : Event) : bool :=
  match ev with
  | EvResponseCreated _ _ _ _ _ | EvOutputItemAdded _ _ _ | EvOutputTextDelta _ _ _ _
  | EvOutputAudioTranscriptDelta _ _ _ _ | EvOutputAudioDelta _ _ _ _ | EvOutputTextDone _ _ _
  | EvOutputAudioTranscriptDone _ _ _ | EvOutputAudioDone _ _ | EvToolCallArguments _ _ _
  | EvOutputItemDone _ _ | EvResponseDone _ _ _ _ _ _ _ | EvSessionClosed _ => false
  | _ => true
  end.

Lemma trace_neutral evs ev ph : neutral ev = true -> ph <> Ended ->
  trace evs = Some ph -> trace (evs ++ [ev]) = Some ph.
Proof. intros Hn Hp Ht. rewrite trace_snoc, Ht. simpl. by destruct ev, ph. Qed.
