(* ===== verification/SessionConv.v ===== *)
(** * The conversation as the session uses it

    [conv_ok] ties the conversation to the three handles the session keeps
    into it: the ref allocated at speech start, the committed item that waits
    for its transcript, and the message item of the active response. Each
    conversation operation a handler performs keeps it. *)

From S2P Require Export Types.
From S2P Require Import Conversation.
#[local] Open Scope Z_scope.

(** The committed audio item before its transcript. *)
Definition user_pending (i : Item) : Prop :=
  Role i = RoleUser /\ Content i = ContentAudio /\ Status i = ItemInProgress /\ TranscriptDone i = false.

(** The message item of a response under way; [t] for a text response. *)
Definition message_of (t : bool) (i : Item) : Prop :=
  Role i = RoleAssistant /\ Content i = (if t then ContentText else ContentAudio) /\ Status i = ItemInProgress.

Record conv_ok (c : conversation) (speech : ItemRef) (pend : option ItemRef) (msg : option (ItemRef * bool))
    : Prop := {
  co_wf : wf c;
  co_outputs : outputs_unique c;
  co_speech : speech = 0 \/ (get c speech = None /\ 0 < speech <= next c);
  co_pend : forall ref, pend = Some ref -> exists it, get c ref = Some it /\ user_pending (base it);
  co_msg : forall ref t, msg = Some (ref, t) -> ref <> 0 -> exists it, get c ref = Some it /\ message_of t (base it)
}.

Section conv_ok.
Implicit Types (c : conversation) (speech : ItemRef) (pend : option ItemRef) (msg : option (ItemRef * bool)).

Lemma conv_ok_new : conv_ok newConversation 0 None None.
Proof.
  split; [apply wf_newConversation| |by left|done|done].
  intros r1 r2 it1 it2 id. simpl. by rewrite lookup_empty.
Qed.

(** Dropping a handle. *)
Lemma conv_ok_weaken c speech pend msg speech' pend' msg' :
  conv_ok c speech pend msg ->
  speech' = 0 \/ speech' = speech -> pend' = None \/ pend' = pend ->
  msg' = None \/ msg' = msg \/ (exists t, msg' = Some (0, t)) ->
  conv_ok c speech' pend' msg'.
Proof.
  intros [] [->| ->] [->| ->] [->|[->|[t ->]]]; split; try done; try (by left); naive_solver.
Qed.

(** A ref allocated in advance. *)
Lemma conv_ok_newRef c speech pend msg : conv_ok c speech pend msg ->
  conv_ok (newRef c).1 (newRef c).2 pend msg.
Proof.
  intros []. split; simpl; try done.
  - by apply wf_newRef.
  - right. split; [apply (wf_fresh c); [done|lia]|]. pose proof (wf_next c co_wf0). lia.
Qed.

(** Any item linked under a new ref or the one allocated at speech start. *)
Lemma conv_ok_insert c speech pend msg it previous atRoot :
  conv_ok c speech pend msg ->
  (Ref (base it) = 0 \/ Ref (base it) = speech) ->
  (forall id, is_output id it -> answered c id = false) ->
  let '(c', ref, prev) := insert c it previous atRoot in
  conv_ok c' (if Ref (base it) =? 0 then speech else 0) pend msg /\ 0 < ref /\
  (is_Some prev -> get c' ref = Some (set_base (with_ref ref) it)) /\
  (forall x, x <> ref -> get c' x = get c x).
Proof.
  intros [] Hr Hout.
  assert (Hl : linkable c it).
  { unfold linkable. destruct (Z.eq_dec (Ref (base it)) 0) as [|Hn]; [by left|]. right.
    destruct Hr as [?|Hr]; [done|]. rewrite Hr in *. destruct co_speech0 as [?|?]; [lia|done]. }
  pose proof (insert_wf c it previous atRoot co_wf0 Hl) as Hw'.
  pose proof (ref_for_new c it co_wf0 Hl) as Hnew.
  assert (Hpos : 0 < ref_for c it).
  { unfold ref_for. pose proof (wf_next c co_wf0).
    destruct (Ref (base it) =? 0) eqn:?; bool_arith; [lia|]. destruct Hl as [?|[_ ?]]; lia. }
  rewrite insert_spec in *. destruct (insert_ok c previous atRoot); simpl in *.
  - assert (Hne : forall x, x <> ref_for c it ->
      <[ref_for c it := set_base (with_ref (ref_for c it)) it]> (index c) !! x = index c !! x)
      by (intros x Hx; by rewrite lookup_insert_ne).
    assert (Hold : forall ref x, get c ref = Some x -> ref <> ref_for c it)
      by (intros ref x Hg ->; unfold get in Hg; congruence).
    split; [|split; [done|split; [intros _; apply lookup_insert_eq|done]]].
    split; simpl; try done.
    + apply outputs_unique_insert; [done|]. intros id Hid. apply answered_false; [done|].
      apply Hout. destruct Hid. by split.
    + destruct (Ref (base it) =? 0) eqn:Hz; bool_arith; [|by left].
      destruct co_speech0 as [?|[Hs ?]]; [by left|right]. split; [|lia].
      unfold get. simpl. rewrite Hne; [done|]. unfold ref_for. rewrite Hz, Z.eqb_refl. lia.
    + intros ref Hp. destruct (co_pend0 ref Hp) as (x & Hg & Hx). exists x. split; [|done].
      unfold get. simpl. rewrite Hne; [done|]. by eapply Hold.
    + intros ref t Hp Hn. destruct (co_msg0 ref t Hp Hn) as (x & Hg & Hx). exists x. split; [|done].
      unfold get. simpl. rewrite Hne; [done|]. by eapply Hold.
  - split; [|split; [done|split; [by intros [? [=]]|done]]]. split; simpl; try done.
    destruct (Ref (base it) =? 0); [|by left].
    destruct co_speech0 as [?|[Hs ?]]; [by left|right]. split; [done|lia].
Qed.

Lemma conv_ok_append c speech pend msg it :
  conv_ok c speech pend msg ->
  (Ref (base it) = 0 \/ Ref (base it) = speech) ->
  Content (base it) <> ContentToolOutput ->
  let '(c', ref, prev) := append c it in
  conv_ok c' (if Ref (base it) =? 0 then speech else 0) pend msg /\ 0 < ref /\
  get c' ref = Some (set_base (with_ref ref) it) /\ (forall x, x <> ref -> get c' x = get c x) /\
  (Ref (base it) <> 0 -> ref = Ref (base it)).
Proof.
  intros Hok Hr Hc.
  pose proof (conv_ok_insert c speech pend msg it 0 false Hok Hr) as H.
  pose proof (append_get c it) as Hg. pose proof (append_spec c it) as Hs. unfold append in *.
  destruct (insert c it 0 false) as [[c' ref] prev]. injection Hs as _ Href _.
  destruct H as (Hok' & Hp & _ & Hne); [intros id [? _]; done|].
  split_and!; try done. intros Hn. rewrite Href. unfold ref_for. by rewrite (proj2 (Z.eqb_neq _ _)).
Qed.

(** A write that keeps what the session relies on. *)
Lemma conv_ok_modify c speech pend msg ref f :
  conv_ok c speech pend msg ->
  (forall it, get c ref = Some it -> Ref (base (f it)) = Ref (base it)) ->
  (forall it, get c ref = Some it ->
     Content (base (f it)) = Content (base it) /\ CallID (base (f it)) = CallID (base it)) ->
  (forall it, pend = Some ref -> get c ref = Some it -> user_pending (base it) -> user_pending (base (f it))) ->
  (forall it t, msg = Some (ref, t) -> get c ref = Some it -> message_of t (base it) -> message_of t (base (f it))) ->
  conv_ok (modify ref f c) speech pend msg.
Proof.
  intros [] Hf Hcc Hpend Hmsg. split; try done.
  - by apply wf_modify.
  - by apply outputs_unique_modify.
  - destruct co_speech0 as [?|[Hs ?]]; [by left|right]. split; [|done].
    destruct (decide (ref = speech)) as [->|]; [by rewrite get_modify, Hs|by rewrite get_modify_ne].
  - intros x Hx. destruct (co_pend0 x Hx) as (it & Hg & Hi).
    destruct (decide (ref = x)) as [->|]; [|exists it; by rewrite get_modify_ne].
    exists (f it). rewrite get_modify, Hg. split; [done|]. by apply Hpend.
  - intros x t Hx Hn. destruct (co_msg0 x t Hx Hn) as (it & Hg & Hi).
    destruct (decide (ref = x)) as [->|]; [|exists it; by rewrite get_modify_ne].
    exists (f it). rewrite get_modify, Hg. split; [done|]. by apply Hmsg.
Qed.

(** The pending item and a response's message are different items. *)
Lemma pend_not_msg c speech ref ref' t : conv_ok c speech (Some ref) (Some (ref', t)) -> ref <> ref'.
Proof.
  intros [] <-. destruct (co_pend0 ref eq_refl) as (it & Hg & Hr & _).
  destruct (Z.eq_dec ref 0) as [->|Hn]; [by rewrite get_0 in Hg|].
  destruct (co_msg0 ref t eq_refl Hn) as (it' & Hg' & Hr' & _). rewrite Hg in Hg'. injection Hg' as <-. rewrite Hr in Hr'. discriminate.
Qed.

Lemma conv_ok_remove c c' ok speech pend msg ref :
  conv_ok c speech pend msg -> remove c ref = Some (c', ok) ->
  (forall t, msg <> Some (ref, t)) ->
  conv_ok c' speech (if bool_decide (pend = Some ref) then None else pend) msg /\
  next c' = next c /\ (ok = false -> c' = c).
Proof.
  intros [] Hrm Hm. destruct (remove_spec c ref co_wf0) as (c2 & ok2 & Hrm2 & Hw & Hi & Hn & _ & _ & Hf).
  rewrite Hrm2 in Hrm. injection Hrm as -> ->. split; [|done].
  assert (Hget : forall x, x <> ref -> get c' x = get c x)
    by (intros x Hx; unfold get; by rewrite Hi, lookup_delete_ne).
  split; try done.
  - destruct c'. simpl in *. subst. by apply outputs_unique_delete.
  - destruct co_speech0 as [?|[Hs ?]]; [by left|right]. rewrite Hn. split; [|done].
    unfold get in *. rewrite Hi. by apply lookup_delete_None; right.
  - intros x Hx. case_bool_decide; [done|]. destruct (co_pend0 x Hx) as (it & Hg & Hp).
    exists it. split; [|done]. rewrite Hget; [done|congruence].
  - intros x t Hx Hnz. destruct (co_msg0 x t Hx Hnz) as (it & Hg & Hp). exists it. split; [|done].
    rewrite Hget; [done|]. intros ->. by apply (Hm t).
Qed.

(** A new pending item or message. *)
Lemma conv_ok_set_pend c speech pend msg ref it :
  conv_ok c speech pend msg -> get c ref = Some it -> user_pending (base it) ->
  conv_ok c speech (Some ref) msg.
Proof. intros [] ? ?. split; try done. intros x [= <-]. eauto. Qed.

Lemma conv_ok_set_msg c speech pend msg ref t it :
  conv_ok c speech pend msg -> get c ref = Some it -> message_of t (base it) ->
  conv_ok c speech pend (Some (ref, t)).
Proof. intros [] ? ?. split; try done. intros x t' [= <- <-]. eauto. Qed.
End conv_ok.
