(* ===== verification/SessionCore.v ===== *)
(** * The core invariant of the session

    What ties the active response to the conversation, the turn manager, the
    pipelines and the events already sent. [core_ok] ranges over the fields it
    depends on, so an update of any other field keeps it by conversion. *)

From S2P Require Export SessionStep SessionConv.
From S2P Require Import Response.
From S2P Require Turn Conversation.
From S2P Require Import Session.
Import Turn (TurnInput(..), TurnDecision, EmitSpeechStarted, EmitSpeechStopped, Interrupt, Commit,
  Trigger, DeferTrigger, ArmEndOfTurnTimer, ArmFinalWaitTimer).
#[local] Open Scope Z_scope.

(** The active response as the rest of the state sees it. *)
Definition active_ok (activeGen : Generation) (nextResp : ResponseRef) (r : response) : Prop :=
  r_status r = ResponseInProgress /\ r_ref r = nextResp /\
  (if awaiting r then r_cancel r = false /\ r_item r = 0 else r_cancel r = true /\ r_gen r = activeGen).

(** Whose pipeline may still run. *)
Definition live (active : option response) (p : pipeline) : Prop :=
  exists r, active = Some r /\ awaiting r = false /\ p_gen p = r_gen r /\ p_resp p = r_ref r.

Definition phase_of (active : option response) (nextResp : ResponseRef) : phase :=
  match active with
  | None => Idle nextResp
  | Some r => Open nextResp (r_item r)
  end.

Definition msg_of (active : option response) : option (ItemRef * bool) :=
  option_map (fun r => (r_item r, textOnly r)) active.

Record core_ok (c : Conversation.conversation) (speech : ItemRef) (pend : option ItemRef)
    (active : option response) (activeGen : Generation) (nextResp : ResponseRef)
    (pipes : list pipeline) (canc : list Generation) (out : list Event) (turnActive : bool) : Prop := {
  k_conv : conv_ok c speech pend (msg_of active);
  k_active : forall r, active = Some r -> active_ok activeGen nextResp r;
  k_turn : turnActive = is_some active;
  k_canc : Forall (fun g => g < activeGen) canc;
  k_pipes : Forall (fun p => p_gen p <= activeGen /\ (p_gen p ∈ canc \/ live active p)) pipes;
  k_trace : trace out = Some (phase_of active nextResp)
}.

Definition core {A} (s : session A) : Prop :=
  core_ok (conv s) (speechItem s) (pendingItem s) (active s) (activeGen s) (nextResp s)
    (pipelines s) (cancelled s) (out s) (Turn.responseActive (turns s)).

Lemma phase_of_not_ended a n : phase_of a n <> Ended.
Proof. by destruct a. Qed.

Section core.
Context {A : Type} `{ASRStream A}.
Implicit Types s : session A.

Lemma turn_eq i s : turn i s = (set_turns (Turn.Step (turns s) i).1 s, (Turn.Step (turns s) i).2).
Proof. unfold turn. by destruct (Turn.Step (turns s) i). Qed.

Lemma core_set_conv c' speech' pend' s :
  core s -> conv_ok c' speech' pend' (msg_of (active s)) ->
  core (set_conv c' (set_speechItem speech' (set_pendingItem pend' s))).
Proof. intros [] Hc. by split. Qed.

Lemma core_emit ev s : neutral ev = true -> core s -> core (emit ev s).
Proof.
  intros Hn []. split; simpl; try done. apply trace_neutral; [done|apply phase_of_not_ended|done].
Qed.

Lemma core_turn i s : Turn.is_response i = false -> core s -> core (turn i s).1.
Proof.
  intros Hi []. rewrite turn_eq. split; simpl; try done. by rewrite Turn.Step_responseActive.
Qed.

Lemma core_cancel reason s : core s -> core (cancel_ctx reason s).
Proof. unfold cancel_ctx. by case_match. Qed.

Lemma core_fatal code reason s : core s -> core (fatal code reason s).
Proof. intros. by apply core_cancel, core_emit. Qed.

Lemma core_applyTurnDetection s : core s -> core (applyTurnDetection s).
Proof.
  intros []. unfold applyTurnDetection. split; simpl; try done.
  eapply conv_ok_weaken; [done|by left|by right|by right; left].
Qed.

(** An update of the active response outside what [active_ok] reads. *)
Definition same_view (r r' : response) : Prop :=
  r_status r' = r_status r /\ r_ref r' = r_ref r /\ awaiting r' = awaiting r /\
  r_cancel r' = r_cancel r /\ r_gen r' = r_gen r /\ r_item r' = r_item r /\ textOnly r' = textOnly r.

Lemma core_set_active r r' s : core s -> active s = Some r -> same_view r r' -> core (set_active (Some r') s).
Proof.
  intros [Hc Hk Ht Hcn Hp Htr] Ha (H1 & H2 & H3 & H4 & H5 & H6 & H7).
  rewrite Ha in *. split; simpl in *; try done.
  - by rewrite H6, H7.
  - intros x [= <-]. destruct (Hk r eq_refl) as (? & ? & Hw). unfold active_ok.
    rewrite H1, H2, H3, H4, H5, H6. by split_and!.
  - eapply Forall_impl; [exact Hp|]. intros p [? [?|(x & [= <-] & ? & ? & ?)]]; split; try done; [by left|].
    right. exists r'. by rewrite H2, H3, H5.
  - by rewrite H6.
Qed.

(** ** Ending a response *)

(** Runs the trace automaton over the events just appended. *)
Lemma is_call_set_Status st i : is_call (Conversation.set_Status st i) = is_call i.
Proof. done. Qed.

Ltac phases :=
  rewrite !trace_snoc;
  match goal with H : trace _ = _ |- _ => rewrite H end;
  repeat (progress (simpl; rewrite ?Z.eqb_refl, ?is_call_set_Status;
    repeat match goal with
    | H : r_ref _ = _ |- _ => rewrite H
    | H : r_item _ = 0 |- _ => rewrite H
    | H : (r_item _ =? 0) = false |- _ => rewrite H
    | H : is_call _ = _ |- _ => rewrite H
    | H : Ref _ = r_item _ |- _ => rewrite H
    end)).

(** What an operation leaves alone: everything but the conversation, the
    response, its generation and timers, and the events. *)
Record same_rest s s' : Prop := {
  sr_cfg : cfg s' = cfg s;
  sr_limits : limits s' = limits s;
  sr_stream : asrStream s' = asrStream s;
  sr_buffer : buffer s' = buffer s;
  sr_detector : detector s' = detector s;
  sr_audioEmitted : audioEmitted s' = audioEmitted s;
  sr_pending : pendingItem s' = pendingItem s;
  sr_acc : transcriptAcc s' = transcriptAcc s;
  sr_partial : partial s' = partial s;
  sr_eot : eot s' = eot s;
  sr_deferItem : deferItem s' = deferItem s;
  sr_deferWait : deferWait s' = deferWait s;
  sr_closed : closed s' = closed s;
  sr_turns : exists b, turns s' = Turn.set_responseActive b (turns s)
}.

Lemma close_item_frame r status s s' outp : close_item r status s = (s', outp) ->
  same_rest s s' /\ turns s' = turns s /\ active s' = active s /\ asrWait s' = asrWait s /\
  activeGen s' = activeGen s /\ cancelled s' = cancelled s /\ nextResp s' = nextResp s /\
  pipelines s' = pipelines s /\ speechItem s' = speechItem s.
Proof.
  unfold close_item. destruct (Conversation.get _ _); [|intros [= <- <-]; split; [|done];
    split; try reflexivity; exists (Turn.responseActive (turns s)); by destruct (turns s)].
  destruct (textOnly r); intros [= <- <-]; (split; [|done]);
    (split; try reflexivity; exists (Turn.responseActive (turns s)); simpl; by destruct (turns s)).
Qed.

(** The message item, if any, ends; the phase is one [EvResponseDone] may end. *)
Lemma core_close_item r status s s' outp :
  conv_ok (conv s) (speechItem s) (pendingItem s) (Some (r_item r, textOnly r)) ->
  r_ref r = nextResp s -> trace (out s) = Some (Open (nextResp s) (r_item r)) ->
  close_item r status s = (s', outp) ->
  conv_ok (conv s') (speechItem s) (pendingItem s) None /\
  exists ph, trace (out s') = Some ph /\ forall st rs c e u o,
    phase_step ph (EvResponseDone (r_ref r) st rs c e u o) = Some (Idle (nextResp s)).
Proof.
  intros Hc Href Htr.
  assert (Hc' : conv_ok (conv s) (speechItem s) (pendingItem s) None)
    by (eapply conv_ok_weaken; [exact Hc|by right|by right|by left]).
  unfold close_item. destruct (Conversation.get (conv s) (r_item r)) as [o|] eqn:Ho.
  - assert (Hne : r_item r <> 0)
      by (intros He; rewrite He, (Conversation.get_0 (conv s)) in Ho; [done|apply (co_wf _ _ _ _ Hc)]).
    destruct (co_msg _ _ _ _ Hc (r_item r) (textOnly r) eq_refl Hne) as (o' & Ho' & Hm).
    rewrite Ho in Ho'. injection Ho' as <-. assert (Hnz : (r_item r =? 0) = false) by (by apply Z.eqb_neq).
    assert (Href_o : Ref (Conversation.base o) = r_item r)
      by (apply (Conversation.wf_ref _ (co_wf _ _ _ _ Hc) _ _ Ho)).
    assert (Hcall : is_call (Conversation.base o) = false)
      by (unfold is_call; rewrite (proj1 (proj2 Hm)); by destruct (textOnly r)).
    intros Heq. split.
    + assert (Hcv : conv s' = Conversation.modify (r_item r) (Conversation.set_base (Conversation.set_Status
        (if bool_decide (status = ResponseCompleted) then ItemCompleted else ItemIncomplete))) (conv s))
        by (destruct (textOnly r); by injection Heq as <- <-).
      rewrite Hcv. apply conv_ok_modify; try done. intros it Hpe. exfalso. rewrite Hpe in Hc.
      by apply (pend_not_msg _ _ _ _ _ Hc).
    + exists (Closing (nextResp s)). split.
      * destruct (textOnly r); injection Heq as <- <-; simpl out; by phases.
      * intros. simpl. by rewrite Href, Z.eqb_refl.
  - intros [= <- <-]. split; [done|]. exists (Open (nextResp s) (r_item r)). split; [done|]. intros. simpl.
    assert (Hz : r_item r = 0).
    { destruct (Z.eq_dec (r_item r) 0) as [|Hne]; [done|].
      destruct (co_msg _ _ _ _ Hc (r_item r) (textOnly r) eq_refl Hne) as (o' & Ho' & _). congruence. }
    by rewrite Href, Hz, !Z.eqb_refl.
Qed.

Lemma finish_frame r status reason err s : r_status r = ResponseInProgress ->
  let s' := finish r status reason err s in
  same_rest s s' /\ active s' = None /\ asrWait s' = None /\ activeGen s' = activeGen s + 1 /\
  cancelled s' = cancelled s ++ (if r_cancel r then [r_gen r] else []).
Proof.
  intros Hst. unfold finish. replace (terminal r) with false by (unfold terminal; by rewrite Hst).
  cbv zeta. set (s0 := stopASRWait _). destruct (close_item r status s0) as [s1 outp] eqn:Hcl.
  apply close_item_frame in Hcl as ([] & Ht & Ha & Hw & Hg & Hcan & _). rewrite turn_eq.
  assert (H0 : same_rest s s0 /\ asrWait s0 = None /\ activeGen s0 = activeGen s /\ turns s0 = turns s /\
    cancelled s0 = cancelled s ++ (if r_cancel r then [r_gen r] else [])).
  { unfold s0. destruct (r_cancel r); simpl; rewrite ?app_nil_r; (split; [|done]);
      (split; try reflexivity; exists (Turn.responseActive (turns s)); simpl; by destruct (turns s)). }
  destruct H0 as ([] & Hw0 & Hg0 & Ht0 & Hc0). clearbody s0. simpl. split; [|by split_and!; congruence].
  split; simpl; try congruence. exists false. by rewrite Ht, Ht0.
Qed.

Lemma core_finish r status reason err s :
  core s -> active s = Some r -> core (finish r status reason err s).
Proof.
  intros [Hc Hk Ht Hcn Hp Htr] Ha. rewrite Ha in *.
  destruct (Hk r eq_refl) as (Hst & Href & Hw). simpl in *.
  unfold finish. replace (terminal r) with false by (unfold terminal; by rewrite Hst).
  cbv zeta. set (s0 := stopASRWait _).
  assert (Hgens : Forall (fun g => g < activeGen s + 1) (cancelled s0) /\
    Forall (fun p => p_gen p <= activeGen s + 1 /\ (p_gen p ∈ cancelled s0 \/ live None p)) (pipelines s0)).
  { replace (cancelled s0) with (cancelled s ++ if r_cancel r then [r_gen r] else [])
      by (unfold s0; destruct (r_cancel r); simpl; by rewrite ?app_nil_r).
    replace (pipelines s0) with (pipelines s) by (unfold s0; by destruct (r_cancel r)). split.
    - apply Forall_app. split; [eapply Forall_impl; [exact Hcn|]; simpl; lia|].
      destruct (awaiting r); destruct Hw as [-> Hg]; [constructor|]. constructor; [lia|constructor].
    - eapply Forall_impl; [exact Hp|]. intros p [Hle [Hin|(x & [= <-] & Haw & Hg & _)]]; split; try lia; left.
      + by apply elem_of_app; left.
      + rewrite Haw in Hw. destruct Hw as [-> _]. apply elem_of_app. right. rewrite Hg. by left. }
  destruct (close_item r status s0) as [s1 outp] eqn:Hcl.
  pose proof (close_item_frame _ _ _ _ _ Hcl) as ([] & Hturn & _ & _ & Hgen & Hcan & Hnr & Hpi & Hsp).
  apply core_close_item in Hcl as (Hc1 & ph & Htr1 & Hph); [|unfold s0; by destruct (r_cancel r)..].
  rewrite turn_eq. destruct Hgens as [Hg1 Hg2].
  assert (Hs0 : speechItem s0 = speechItem s /\ pendingItem s0 = pendingItem s /\ activeGen s0 = activeGen s /\
    nextResp s0 = nextResp s) by (unfold s0; by destruct (r_cancel r)).
  destruct Hs0 as (Hs1 & Hs2 & Hs3 & Hs4). clearbody s0.
  split; simpl; rewrite ?Hcan, ?Hgen, ?Hs3, ?Hpi, ?Hsp, ?sr_pending0, ?Hs1, ?Hs2; try done.
  - by rewrite <- Hs1, <- Hs2.
  - rewrite trace_snoc, Htr1. transitivity (Some (Idle (nextResp s0))); [apply Hph|by rewrite Hnr].
Qed.

Lemma core_interrupt reason s : core s -> core (interrupt reason s).
Proof. intros Hk. unfold interrupt. destruct (active s) eqn:Ha; [by apply core_finish|done]. Qed.

Lemma core_failResponse r code err s : core s -> active s = Some r -> core (failResponse r code err s).
Proof.
  intros Hk Ha. unfold failResponse. apply core_finish; [|done]. apply core_emit; [done|].
  by apply (core_set_active r).
Qed.

Lemma core_maybeComplete r s : core s -> active s = Some r -> core (maybeComplete r s).
Proof.
  intros Hk Ha. unfold maybeComplete. destruct (done_ r); [|done].
  destruct (outcome r). by apply core_finish.
Qed.

(** ** Starting a response *)

Lemma core_startPipeline r s : core s -> active s = Some r -> awaiting r = true -> core (startPipeline r s).
Proof.
  intros [Hc Hk Ht Hcn Hp Htr] Ha Hw. rewrite Ha in *. destruct (Hk r eq_refl) as (Hst & Href & Haw).
  rewrite Hw in Haw. destruct Haw as [Hcan Hit]. split; simpl in *; try done.
  - intros x [= <-]. by repeat split.
  - eapply Forall_impl; [exact Hcn|]. simpl. lia.
  - apply Forall_app. split.
    + eapply Forall_impl; [exact Hp|]. intros p [Hle [?|(x & [= <-] & Haw & _)]]; [|congruence].
      split; [lia|by left].
    + constructor; [|constructor]. simpl. split; [lia|]. right. eexists. split; [done|]. by repeat split.
Qed.

Lemma core_createResponse ov tag s : core s -> active s = None -> core (createResponse ov tag s).
Proof.
  intros Hk Ha. unfold createResponse. destruct (voice_locked _ _); [by apply core_emit|].
  destruct (Validate _ _); [by apply core_emit|].
  set (probe := patch _ _ _). set (s1 := set_nextResp (nextResp s + 1) s). set (r := MkResponse _ _ _ _ _ _ _ _ _ _ _ _ _ _ _ _ _ _ _ _ _ _).
  set (s2 := (turn Turn.responseStarted _).1).
  assert (Hk2 : core s2 /\ active s2 = Some r).
  { unfold s2. rewrite turn_eq. split; [|done]. destruct Hk as [Hc Hk Ht Hcn Hp Htr]. rewrite Ha in *.
    split; simpl in *; try done.
    - eapply conv_ok_weaken; [exact Hc|by right|by right|]. right. right. by eexists.
    - intros x [= <-]. done.
    - eapply Forall_impl; [exact Hp|]. intros p [? [?|(x & ? & _)]]; [|done]. split; [done|by left].
    - rewrite trace_snoc, Htr. simpl. by rewrite Z.eqb_refl. }
  destruct Hk2 as [Hk2 Ha2].
  destruct (pendingItem s2 ≫= _) as [p|]; [|by apply core_startPipeline].
  destruct (negb _); [|by apply core_startPipeline].
  exact (core_set_active r (set_dependsOn (Ref (Conversation.base p)) r) s2 Hk2 Ha2
    ltac:(by repeat split)).
Qed.

(** ** Turns *)

Lemma core_set_buffer b s : core s -> core (set_buffer b s).
Proof. done. Qed.

Lemma core_commit_ref s s' ref : core s -> commit_ref s = (s', ref) ->
  core s' /\ 0 < ref /\ conv_ok (conv s') ref (pendingItem s') (msg_of (active s')).
Proof.
  intros Hk. unfold commit_ref. pose proof (k_conv _ _ _ _ _ _ _ _ _ _ Hk) as Hc.
  destruct (speechItem s =? 0) eqn:Hz; bool_arith.
  - pose proof (conv_ok_newRef _ _ _ _ Hc) as Hn. pose proof (Conversation.wf_next _ (co_wf _ _ _ _ Hc)).
    intros [= <- <-]. split_and!; [|lia|exact Hn].
    apply (core_set_conv _ (speechItem s) (pendingItem s) s Hk).
    eapply conv_ok_weaken; [exact Hn|by left|by right|by right; left].
  - intros [= <- <-]. split_and!; try done. destruct Hc as [? ? [?|[_ ?]]]; lia.
Qed.

Lemma core_commit_item st en s : core s -> core (commit_item st en s).
Proof.
  intros Hk. unfold commit_item. cbv zeta.
  set (s0 := set_detector _ s). assert (Hk0 : core s0) by exact Hk. clearbody s0.
  destruct (commit_ref s0) as [s2 ref] eqn:Hs2. apply core_commit_ref in Hs2 as (Hk2 & Hpos & Hc2); [|done].
  set (it := Conversation.fresh_item _).
  pose proof (conv_ok_append (conv s2) ref (pendingItem s2) _ it Hc2 (or_intror eq_refl) ltac:(done)) as Happ.
  destruct (Conversation.append (conv s2) it) as [[c r] prev] eqn:Hap. simpl in Happ.
  rewrite (proj2 (Z.eqb_neq ref 0)) in Happ by lia.
  destruct Happ as (Hc3 & _ & Hg & _ & Hr). rewrite Hr in Hg by lia.
  do 2 (apply core_emit; [done|]).
  apply (core_set_conv c 0 (Some ref) s2 Hk2). by eapply conv_ok_set_pend.
Qed.

Lemma core_set_asrStream a s : core s -> core (set_asrStream a s).
Proof. done. Qed.

Lemma core_commit tag s s' ok : core s -> commit tag s = Some (s', ok) -> core s'.
Proof.
  intros Hk. unfold commit. destruct (Buffer.commit (buffer s)) as [[b r]|]; [|done]. simpl.
  destruct r as [[[pcm st] en]|]; [|intros [= <- <-]; by apply core_emit].
  pose proof (core_commit_item st en (set_buffer b s) Hk) as Hk1. revert Hk1.
  generalize (commit_item st en (set_buffer b s)). intros s1 Hk1.
  destruct (Finalize _) as [a [e|]]; intros [= <- <-]; [apply core_fatal|]; by apply core_set_asrStream.
Qed.

Lemma core_deferTrigger s : core s -> core (deferTrigger s).
Proof. unfold deferTrigger. by destruct (pendingItem s). Qed.

Lemma core_apply d tag s s' : core s -> apply d tag s = Some s' -> core s'.
Proof.
  intros Hk. unfold Session.apply. set (s1 := if ArmFinalWaitTimer d then _ else _).
  assert (Hk1 : core s1) by (unfold s1; by destruct (ArmFinalWaitTimer d), (ArmEndOfTurnTimer d)).
  intros (s2 & Hs2 & [= <-])%bind_Some_inv.
  assert (Hk2 : core s2).
  { destruct (Commit d); [|by injection Hs2 as <-].
    apply bind_Some_inv in Hs2 as ([s3 ok] & Hc & [= <-]). apply core_commit in Hc; [|done].
    destruct (ok && DeferTrigger d); [by apply core_deferTrigger|done]. }
  destruct (Trigger d); [|done]. destruct (active s2) eqn:Ha; [done|]. by apply core_createResponse.
Qed.

Lemma core_turn_apply i tag s s' : Turn.is_response i = false -> core s -> turn_apply i tag s = Some s' -> core s'.
Proof.
  intros Hi Hk. unfold turn_apply. pose proof (core_turn i s Hi Hk) as Ht. rewrite turn_eq in *.
  by apply core_apply.
Qed.

Lemma core_resolveDeferredTrigger ref text s : core s -> core (resolveDeferredTrigger ref text s).
Proof.
  intros Hk. unfold resolveDeferredTrigger. do 2 (case_match; [done|]).
  case_match eqn:Ha; [done|]. by apply core_createResponse.
Qed.

(** A write through an item pointer. *)
Lemma core_modify ref f s : core s ->
  (forall it, Conversation.get (conv s) ref = Some it ->
     Ref (Conversation.base (f it)) = Ref (Conversation.base it) /\
     Content (Conversation.base (f it)) = Content (Conversation.base it) /\
     CallID (Conversation.base (f it)) = CallID (Conversation.base it) /\
     Role (Conversation.base (f it)) = Role (Conversation.base it) /\
     ((exists r, active s = Some r /\ r_item r = ref) \/ pendingItem s = Some ref ->
        Status (Conversation.base (f it)) = Status (Conversation.base it)) /\
     (pendingItem s = Some ref ->
        TranscriptDone (Conversation.base (f it)) = TranscriptDone (Conversation.base it))) ->
  core (set_conv (Conversation.modify ref f (conv s)) s).
Proof.
  intros Hk Hf. apply (core_set_conv _ (speechItem s) (pendingItem s) s Hk).
  apply conv_ok_modify; [by destruct Hk|naive_solver..| |].
  - intros it Hp Hg (H1 & H2 & H3 & H4). destruct (Hf it Hg) as (_ & Hc & _ & Hr & Hs & Ht).
    unfold user_pending. rewrite Hc, Hr, Hs, Ht by auto. done.
  - intros it t Hm Hg (H1 & H2 & H3). destruct (Hf it Hg) as (_ & Hc & _ & Hr & Hs & _).
    unfold msg_of in Hm. destruct (active s) as [r|] eqn:Ha; [|done]. simpl in Hm. injection Hm as Hi Ht.
    unfold message_of. rewrite Hc, Hr, Hs by eauto. done.
Qed.

Lemma core_set_pending_text ref best s : core s ->
  core (set_conv (Conversation.modify ref (Conversation.set_base (Conversation.set_Text best)) (conv s)) s).
Proof. intros Hk. apply core_modify; [done|]. by intros. Qed.

Lemma core_handleDeferredTimeout s : core s -> core (handleDeferredTimeout s).
Proof.
  intros Hk. unfold handleDeferredTimeout. destruct (pendingItem _) as [it|] eqn:Hp; [|done].
  destruct (_ || _); [done|]. destruct (is_blank _); [done|]. destruct (active (dropDeferredTrigger s)) eqn:Ha; [done|].
  set (s1 := set_conv _ _). assert (Hk1 : core s1) by (by apply core_set_pending_text).
  pose proof (core_createResponse no_overrides EmptyString s1 Hk1 Ha) as Hk2.
  destruct (active (createResponse _ _ _)) as [r|] eqn:Ha2; [|done].
  destruct (awaiting r) eqn:Hw; [|done]. by apply core_startPipeline.
Qed.

(** ** Transcripts *)

Lemma core_completePendingItem ref text delta s : core s -> pendingItem s = Some ref ->
  core (completePendingItem ref text delta s).
Proof.
  intros Hk Hp. unfold completePendingItem.
  set (s1 := set_conv _ _).
  assert (Hk1 : core s1).
  { assert (Hk0 : core (set_pendingItem None s)).
    { apply (core_set_conv (conv s) (speechItem s) None s Hk).
      destruct Hk. eapply conv_ok_weaken; [done|by right|by left|by right; left]. }
    apply core_modify; [exact Hk0|]. intros it _. simpl. split_and!; try done.
    intros [(r & Ha & <-)|?]; [|done]. exfalso. destruct Hk as [Hc _ _ _ _ _].
    rewrite Hp, Ha in Hc. simpl in Hc. by apply pend_not_msg in Hc. }
  set (s2 := if transcriptionEnabled s1 then _ else _).
  assert (Hk2 : core s2).
  { unfold s2. destruct (transcriptionEnabled s1); [|done]. apply core_emit; [done|].
    destruct (negb _); [|done]. by apply core_emit. }
  set (s3 := match Conversation.get (conv s2) ref with Some _ => _ | None => _ end).
  assert (Hk3 : core s3) by (unfold s3; case_match; [by apply core_emit|done]).
  apply core_resolveDeferredTrigger.
  destruct (active s3) as [r|] eqn:Ha; [|done].
  destruct (awaiting r && _) eqn:Hb; [|done]. apply andb_true_iff in Hb as [Hw _].
  by apply core_startPipeline.
Qed.

Lemma core_handleASR ev s s' : core s -> handleASR ev s = Some s' -> core s'.
Proof.
  intros Hk. unfold handleASR. destruct (AE_Kind ev).
  - by intros [= <-].
  - apply core_turn_apply; [done|]. destruct (pendingItem _) eqn:Hp; [|done].
    by apply core_completePendingItem.
  - apply core_turn_apply; [done|]. destruct (pendingItem s) eqn:Hp; [|done].
    by apply core_completePendingItem.
  - intros [= <-]. by apply core_fatal.
Qed.

Lemma core_handleTranscriptTimeout s : core s -> core (handleTranscriptTimeout s).
Proof.
  intros Hk. unfold handleTranscriptTimeout. destruct (active s) as [r|] eqn:Ha; [|done].
  destruct (awaiting r) eqn:Hw; [simpl|done]. case_match; [by apply core_failResponse|].
  apply core_startPipeline; [|by destruct (pendingItem s)|done].
  destruct (pendingItem s); [|done]. by apply core_set_pending_text.
Qed.

(** ** Inbound audio *)

Lemma core_alloc_speech s : core s -> core (alloc_speech s).
Proof.
  intros Hk. unfold alloc_speech. destruct (speechItem s =? 0); [|done].
  apply (core_set_conv (Conversation.newRef (conv s)).1 (Conversation.newRef (conv s)).2 (pendingItem s) s Hk).
  destruct Hk. by eapply conv_ok_newRef.
Qed.

Lemma core_speech_started off s s' : core s -> speech_started off s = Some s' -> core s'.
Proof.
  intros Hk. unfold speech_started. cbv zeta. pose proof (core_alloc_speech s Hk) as Hk1.
  revert Hk1. generalize (alloc_speech s). clear s Hk. intros s1 Hk1.
  destruct (Buffer.markSpeechStart _ _ _) as [b st].
  pose proof (core_turn vadSpeechStart (disarmEndOfTurn (set_buffer b s1)) eq_refl Hk1) as Hk2.
  destruct (turn _ _) as [s2 d]. simpl in Hk2. apply core_apply.
  set (s3 := if EmitSpeechStarted d then _ else s2).
  assert (Hk3 : core s3) by (unfold s3; destruct (EmitSpeechStarted d); [by apply core_emit|done]).
  set (s4 := if Interrupt d then _ else s3).
  assert (Hk4 : core s4) by (unfold s4; destruct (Interrupt d); [by apply core_interrupt|done]).
  by destruct (_ && _).
Qed.

Lemma core_speech_ended off s s' : core s -> speech_ended off s = Some s' -> core s'.
Proof.
  intros Hk. unfold speech_ended. destruct (Buffer.markSpeechEnd _ _ _) as [b en]. rewrite turn_eq.
  pose proof (core_turn vadSpeechEnd (set_buffer b s) eq_refl Hk) as Ht. rewrite turn_eq in Ht.
  apply core_apply. destruct (EmitSpeechStopped _); [by apply core_emit|done].
Qed.

Lemma core_vad_events evs : forall s s', core s -> vad_events evs s = Some s' -> core s'.
Proof.
  induction evs as [|ev evs IH]; intros s s' Hk; simpl; [by intros [= <-]|].
  intros (s1 & H1 & H2)%bind_Some_inv. apply (IH s1 s'); [|done].
  destruct (Vad.Kind ev); [by eapply core_speech_started|by eapply core_speech_ended].
Qed.

Lemma core_handleAudio p s s' : core s -> handleAudio p s = Some s' -> core s'.
Proof.
  intros Hk. unfold handleAudio. destruct (Buffer.append _ _) as [b|]; [|intros [= <-]; by apply core_fatal].
  destruct (PushAudio _ _) as [a [e|]]; [intros [= <-]; by apply core_fatal|].
  destruct (detector _) as [e|]; [|by intros [= <-]]. destruct (Vad.Process e p) as [e' evs].
  intros (s1 & H1 & (b' & _ & [= <-])%bind_Some_inv)%bind_Some_inv.
  by apply core_vad_events in H1.
Qed.

(** ** Commands *)

Lemma core_updateSession p tag s : core s -> core (updateSession p tag s).
Proof.
  intros Hk. unfold updateSession. destruct (voice_locked _ _); [by apply core_emit|].
  destruct (Validate _ _); [by apply core_emit|]. apply core_emit; [done|].
  destruct (Patch_TurnDetection p); [exact Hk|].
  apply (core_applyTurnDetection (set_cfg (apply_patch p (cfg s)) s)). exact Hk.
Qed.

(** A client item has no ref yet and answers only unanswered calls. *)
Lemma newClientItem_spec spec s it : newClientItem spec s = inr it ->
  Ref (Conversation.base it) = 0 /\
  (forall id, Conversation.is_output id it -> Conversation.answered (conv s) id = false) /\
  Content (Conversation.base it) <> ContentToolCall.
Proof.
  unfold newClientItem, newToolOutputItem. case_bool_decide.
  - destruct (Conversation.get _ _) as [call|]; [|done]. destruct (negb _); [done|].
    destruct (Conversation.answered _ _) eqn:Ha; [done|]. intros [= <-]. simpl.
    split_and!; try done. by intros id [_ <-].
  - destruct (negb _); [done|]. destruct (String.eqb _ _); [done|]. intros [= <-]. simpl.
    split_and!; try done. by intros id [? _].
Qed.

Lemma core_createItem spec previous atRoot tag s : core s -> core (createItem spec previous atRoot tag s).
Proof.
  intros Hk. unfold createItem. destruct (newClientItem spec s) as [param|it] eqn:Hi; [by apply core_emit|].
  apply newClientItem_spec in Hi as (Hr & Ho & _).
  pose proof (conv_ok_insert _ _ _ _ it previous atRoot (k_conv _ _ _ _ _ _ _ _ _ _ Hk) (or_introl Hr) Ho) as Hins.
  destruct (Conversation.insert _ _ _ _) as [[c ref] prev]. rewrite Hr in Hins. destruct Hins as (Hc & _).
  pose proof (core_set_conv c (speechItem s) (pendingItem s) s Hk Hc) as Hk2.
  destruct prev; repeat (apply core_emit; [done|]); exact Hk2.
Qed.

Lemma core_deleteItem ref tag s s' : core s -> deleteItem ref tag s = Some s' -> core s'.
Proof.
  intros Hk. unfold deleteItem.
  destruct (match active s with Some r => _ | None => _ end) eqn:Hm; [intros [= <-]; by apply core_emit|].
  intros ([c ok] & Hrm & [= <-])%bind_Some_inv.
  destruct (conv_ok_remove _ _ _ _ _ _ _ (k_conv _ _ _ _ _ _ _ _ _ _ Hk) Hrm) as (Hc & _ & Hf).
  { unfold msg_of. intros t. destruct (active s); simpl; [|done]. bool_arith. congruence. }
  destruct ok; simpl; [|by apply core_emit]. apply core_emit; [done|].
  pose proof (core_set_conv c (speechItem s) _ s Hk Hc) as Hk2.
  by case_bool_decide.
Qed.

Lemma core_truncateItem id ci ms tag s s' : core s -> truncateItem id ci ms tag s = Some s' -> core s'.
Proof.
  intros Hk. unfold truncateItem. destruct (Conversation.get (conv s) id) as [it|] eqn:Hg; [|intros [= <-]; by apply core_emit].
  destruct (_ || _); [intros [= <-]; by apply core_emit|].
  destruct (negb _); [intros [= <-]; by apply core_emit|].
  destruct (_ || _); [intros [= <-]; by apply core_emit|].
  intros (t & _ & [= <-])%bind_Some_inv. apply core_emit; [done|]. apply core_modify; [done|].
  intros it' Hg'. rewrite Hg in Hg'. injection Hg' as <-. destruct (_ <? _); by split_and!.
Qed.

Lemma core_clearAudio s : core s -> core (clearAudio s).
Proof.
  intros Hk. unfold clearAudio. apply core_emit; [done|].
  pose proof (core_set_conv (conv s) 0 (pendingItem s) s Hk) as Hk2. apply Hk2.
  destruct Hk. eapply conv_ok_weaken; [done|by left|by right|by right; left].
Qed.

Lemma core_handleCommand cmd s s' : core s -> handleCommand cmd s = Some s' -> core s'.
Proof.
  intros Hk. destruct cmd; simpl.
  - intros [= <-]. by apply core_updateSession.
  - by apply core_turn_apply.
  - intros [= <-]. by apply core_clearAudio.
  - intros [= <-]. by apply core_createItem.
  - by apply core_deleteItem.
  - by apply core_truncateItem.
  - intros [= <-]. destruct (active s) eqn:Ha; [by apply core_emit|].
    apply core_createResponse; [|done]. by apply (core_turn clientCreateResponse s).
  - intros [= <-]. destruct (active s); [|by apply core_emit].
    destruct (_ && _); [by apply core_emit|by apply core_interrupt].
  - intros [= <-]. by apply core_cancel.
Qed.

(** ** Pipeline facts *)

Lemma core_msg_get r s : core s -> active s = Some r -> r_item r <> 0 ->
  exists it, Conversation.get (conv s) (r_item r) = Some it /\ message_of (textOnly r) (Conversation.base it).
Proof. intros [Hc _ _ _ _ _] Ha Hn. rewrite Ha in Hc. by apply (co_msg _ _ _ _ Hc). Qed.

(** The message item exists after [ensureOutputItem], and the response differs
    from [r] in it only. *)
Lemma core_ensureOutputItem r s s' r' : core s -> active s = Some r -> awaiting r = false ->
  ensureOutputItem r s = (s', r') ->
  core s' /\ active s' = Some r' /\ r_item r' <> 0 /\ r_ref r' = r_ref r /\ awaiting r' = false /\
  pipelines s' = pipelines s /\ activeGen s' = activeGen s /\ cancelled s' = cancelled s.
Proof.
  intros Hk Ha Hw. unfold ensureOutputItem. destruct (Conversation.get (conv s) (r_item r)) eqn:Hg.
  - intros [= <- <-]. split_and!; try done. intros Hz. rewrite Hz, (Conversation.get_0 (conv s)) in Hg; [done|].
    destruct Hk as [[]]. done.
  - assert (Hz : r_item r = 0).
    { destruct (Z.eq_dec (r_item r) 0) as [|Hn]; [done|].
      destruct (core_msg_get r s Hk Ha Hn) as (it & ? & _). congruence. }
    set (o := Conversation.fresh_item _).
    pose proof (conv_ok_append (conv s) _ _ _ o (k_conv _ _ _ _ _ _ _ _ _ _ Hk) (or_introl eq_refl)) as Happ.
    destruct (Conversation.append (conv s) o) as [[c ref] prev]. simpl in Happ.
    destruct Happ as (Hc & Hpos & Hget & _); [by destruct (textOnly r)|]. intros [= <- <-].
    split_and!; try done; try (simpl; lia).
    destruct Hk as [_ Hkk Ht Hcn Hp Htr]. rewrite Ha in *. destruct (Hkk r eq_refl) as (H1 & H2 & H3).
    rewrite Hw in H3. split; simpl; try done.
    + eapply conv_ok_set_msg; [exact Hc|exact Hget|]. by split_and!.
    + intros x [= <-]. unfold active_ok. simpl. by rewrite Hw.
    + eapply Forall_impl; [exact Hp|]. intros p [? [?|(x & [= <-] & ? & ? & ?)]]; split; try done; [by left|].
      right. eexists. split; [done|]. by split_and!.
    + rewrite trace_snoc, Htr. simpl. rewrite H2, Hz, Z.eqb_refl. simpl.
      assert (Hcl : is_call (Conversation.with_ref ref (Conversation.snapshot o)) = false)
        by (simpl; unfold is_call; simpl; by destruct (textOnly r)).
      unfold o in Hcl. simpl in Hcl. rewrite Hcl. by rewrite (proj2 (Z.eqb_neq _ _)) by lia.
Qed.

Lemma core_text_delta r delta s s' r' : core s -> active s = Some r -> awaiting r = false ->
  text_delta r delta s = (s', r') ->
  core s' /\ active s' = Some r' /\ r_item r' <> 0 /\ r_ref r' = r_ref r.
Proof.
  intros Hk Ha Hw. unfold text_delta. destruct (ensureOutputItem r s) as [s1 r1] eqn:He.
  apply core_ensureOutputItem in He as (Hk1 & Ha1 & Hn & Href & Hw1 & _); [|done..].
  intros [= <- <-]. split_and!; try done.
  apply (core_set_active r1); [|done|by repeat split].
  apply core_modify; [done|]. intros it _. by split_and!.
Qed.

(** A delta for the open message keeps the trace in its phase. *)
Lemma core_emit_delta ev r s : core s -> active s = Some r -> r_item r <> 0 ->
  (forall n, phase_step (Open n (r_item r)) ev =
     if (r_ref r =? n) && (r_item r =? r_item r) && negb (r_item r =? 0) then Some (Open n (r_item r)) else None) ->
  core (emit ev s).
Proof.
  intros [Hc Hk Ht Hcn Hp Htr] Ha Hn He. rewrite Ha in *. split; simpl; rewrite ?Ha; try done.
  rewrite trace_snoc, Htr. simpl. rewrite He. destruct (Hk r eq_refl) as (_ & -> & _).
  rewrite !Z.eqb_refl. by rewrite (proj2 (Z.eqb_neq _ _) Hn).
Qed.

Lemma core_deliverToolCall r call s : core s -> active s = Some r -> awaiting r = false ->
  core (deliverToolCall r call s).
Proof.
  intros Hk Ha Hw. unfold deliverToolCall. destruct (negb _); [done|].
  set (o := Conversation.fresh_item _).
  pose proof (conv_ok_append (conv s) _ _ _ o (k_conv _ _ _ _ _ _ _ _ _ _ Hk) (or_introl eq_refl) ltac:(done)) as Happ.
  destruct (Conversation.append (conv s) o) as [[c ref] prev]. simpl in Happ.
  destruct Happ as (Hc & Hpos & Hget & Hne & _).
  pose proof (core_set_conv c (speechItem s) (pendingItem s) s Hk Hc) as Hk1.
  assert (Hk2 : core (set_active (Some (set_toolItem ref r)) (set_conv c s)))
    by (apply (core_set_active r); [exact Hk1|done|by repeat split]).
  set (s2 := set_active _ _) in *. set (s3 := emit _ (emit _ s2)).
  assert (Href : r_ref r = nextResp s) by (destruct Hk as [_ Hkk _ _ _ _]; by destruct (Hkk r Ha) as (_ & ? & _)).
  assert (Hk3 : core s3).
  { destruct Hk2 as [? ? ? ? ? Htr]. split; try done. simpl in *. rewrite !trace_snoc, Htr. simpl.
    rewrite Href, Z.eqb_refl. simpl. by rewrite Z.eqb_refl. }
  assert (Hk4 : core (set_conv (Conversation.modify ref
      (Conversation.set_base (Conversation.set_Status ItemCompleted)) (conv s3)) s3)).
  { apply core_modify; [done|]. intros it Hg. split_and!; try done. intros Hor. exfalso.
    change (Conversation.get c ref = Some it) in Hg. rewrite Hget in Hg. injection Hg as <-.
    destruct Hor as [(r' & Ha' & Hi)|Hp].
    - destruct (core_msg_get r' s3 Hk3 Ha' ltac:(lia)) as (it' & Hg' & _ & Hct & _).
      rewrite Hi in Hg'. change (Conversation.get c ref = Some it') in Hg'. rewrite Hget in Hg'.
      injection Hg' as <-. simpl in Hct. by destruct (textOnly r').
    - destruct Hk3 as [[_ _ _ Hpend _] _ _ _ _ _]. destruct (Hpend ref Hp) as (it' & Hg' & _ & Hct & _).
      change (Conversation.get c ref = Some it') in Hg'. rewrite Hget in Hg'. by injection Hg' as <-. }
  destruct Hk4 as [? ? ? ? ? Htr]. split; try done. simpl in *. rewrite trace_snoc, Htr. simpl. rewrite Href, Z.eqb_refl. reflexivity.
Qed.

(** A fact of the current generation comes from the active response's own
    pipeline. *)
Lemma current_pipeline r s p : core s -> active s = Some r -> awaiting r = false ->
  p ∈ pipelines s -> p_gen p = activeGen s -> p_resp p = r_ref r.
Proof.
  intros [_ _ _ Hcn Hp _] Ha Hw Hin Hg.
  pose proof (proj1 (Forall_forall _ _) Hp p Hin) as [_ [Hc|(x & Hx & _ & _ & Hr)]].
  - pose proof (proj1 (Forall_forall _ _) Hcn _ Hc). simpl in *. lia.
  - rewrite Ha in Hx. by injection Hx as <-.
Qed.

Lemma sent_by_current r s ev : core s -> active s = Some r -> awaiting r = false ->
  existsb (fun p => sent_by p ev) (pipelines s) = true -> generation ev = Some (activeGen s) ->
  forall resp, event_resp ev = Some resp -> resp = r_ref r.
Proof.
  intros Hk Ha Hw He Hg resp Hr. apply existsb_exists in He as (p & Hin & Hs).
  apply list_elem_of_In in Hin. unfold sent_by in Hs. rewrite Hr in Hs.
  apply andb_true_iff in Hs as [Hpg Hpr]. apply bool_decide_eq_true in Hpg. apply Z.eqb_eq in Hpr.
  rewrite Hpr. apply (current_pipeline r s p); try done. congruence.
Qed.

Lemma core_handleResponseEvent ev s : core s ->
  existsb (fun p => sent_by p ev) (pipelines s) = true -> core (handleResponseEvent ev s).
Proof.
  intros Hk He. unfold handleResponseEvent. destruct (active s) as [r|] eqn:Ha; [|done].
  destruct (generation ev) as [g|] eqn:Hg; [|done]. destruct (awaiting r) eqn:Hw; [done|]. simpl.
  destruct (g =? activeGen s) eqn:Hgg; [|done]. simpl. bool_arith. subst g.
  pose proof (sent_by_current r s ev Hk Ha Hw He Hg) as Hresp.
  destruct ev; simpl in *; try done.
  - destruct (text_delta r delta s) as [s1 r1] eqn:Ht.
    apply core_text_delta in Ht as (Hk1 & Ha1 & Hn & Href); [|done..].
    apply (core_emit_delta _ r1); [done..|]. intros n. simpl. by rewrite (Hresp resp eq_refl), Href.
  - destruct (text_delta r delta s) as [s1 r1] eqn:Ht.
    apply core_text_delta in Ht as (Hk1 & Ha1 & Hn & Href); [|done..].
    apply (core_emit_delta _ r1); [done..|]. intros n. simpl. by rewrite (Hresp resp eq_refl), Href.
  - destruct (ensureOutputItem r s) as [s1 r1] eqn:Ht.
    apply core_ensureOutputItem in Ht as (Hk1 & Ha1 & Hn & Href & _); [|done..].
    apply (core_emit_delta _ r1); [|done..|].
    + apply (core_modify (r_item r1) _ s1 Hk1). intros it _. by split_and!.
    + intros n. simpl. by rewrite (Hresp resp eq_refl), Href.
  - apply core_maybeComplete; [|done]. apply (core_set_active r); [done..|by split_and!].
  - by apply core_deliverToolCall.
  - apply core_maybeComplete; [|done]. apply (core_set_active r); [done..|by split_and!].
  - apply core_modify; [done|]. intros it _. by split_and!.
  - apply core_modify; [done|]. intros it _. by split_and!.
  - by apply core_failResponse.
Qed.

(** ** Every reachable state *)

Lemma core_handle i s s' : core s -> enabled i s = true -> handle i s = Some s' -> core s'.
Proof.
  intros Hk He. destruct i; simpl in *.
  - by apply core_handleCommand.
  - by apply core_handleAudio.
  - by apply core_handleASR.
  - intros [= <-]. by apply core_handleResponseEvent.
  - intros [= <-]. by apply core_handleTranscriptTimeout.
  - by apply core_turn_apply.
  - intros [= <-]. by apply core_handleDeferredTimeout.
  - intros [= <-]. by apply core_cancel.
Qed.

Lemma core_New c lim t (stream : A) : core (New c lim t stream).
Proof.
  unfold New. apply core_applyTurnDetection. split; simpl; try done.
  - apply conv_ok_new.
Qed.

Lemma core_reachable c lim t (stream : A) s : reachable c lim t stream s -> core s.
Proof. induction 1; [apply core_New|done|]. by eapply core_handle. Qed.

Lemma core_cleanup s : core s -> trace (out (cleanup s)) = Some Ended /\ active (cleanup s) = None.
Proof.
  intros Hk. unfold cleanup. set (s1 := match active s with Some _ => _ | None => _ end).
  assert (Hk1 : core s1) by (unfold s1; destruct (active s) eqn:Ha; [by apply core_finish|done]).
  assert (Ha1 : active s1 = None).
  { unfold s1. destruct (active s) as [r|] eqn:Ha; [|done].
    destruct Hk as [_ Hkk _ _ _ _]. destruct (Hkk r Ha) as (Hst & _).
    by destruct (finish_frame r ResponseCancelled ReasonNone None s Hst) as (_ & ? & _). }
  split; [|done]. simpl. rewrite trace_snoc. destruct Hk1 as [_ _ _ _ _ Htr]. rewrite Htr, Ha1. done.
Qed.
End core.
