(* ===== verification/SessionTimers.v ===== *)
(** * Timers, turn manager and configuration of the session

    [timed]: a response that waits for a transcript has its timer armed, and
    only then; a deferred trigger has its timer armed, and only then; a turn
    that waits for its end has the end-of-turn timer armed; the turn manager
    and the detector are those of the configuration, which is always valid. *)

From S2P Require Export SessionCore.
From S2P Require Import Response.
From S2P Require Turn Conversation Vad Buffer.
From S2P Require Import Session.
Import Turn (TurnInput(..), TurnDecision, EmitSpeechStarted, EmitSpeechStopped, Interrupt, Commit,
  Trigger, DeferTrigger, ArmEndOfTurnTimer, ArmFinalWaitTimer).
#[local] Open Scope Z_scope.

(** The turn manager's settings come from the configuration. *)
Definition settings_ok (c : SessionDefaults) (t : Turn.TurnManager) : Prop :=
  let t0 := Turn.newTurnManager (In_TurnDetection (SD_Input c)) in
  Turn.mode t = Turn.mode t0 /\ Turn.createResponse t = Turn.createResponse t0 /\
  Turn.interruptResponse t = Turn.interruptResponse t0.

Definition waiting (active : option response) : bool :=
  match active with Some r => awaiting r | None => false end.

Record timed_ok (asrWait : option Z) (active : option response) (deferItem : ItemRef) (deferWait : option Z)
    (t : Turn.TurnManager) (eot : option Z) (c : SessionDefaults) (det : option Vad.Energy) : Prop := {
  t_wait : is_some asrWait = waiting active;
  t_defer : deferItem = 0 <-> deferWait = None;
  t_turns : Turn.wf t;
  t_eot : Turn.pendingEOT t = true -> eot <> None;
  t_settings : settings_ok c t;
  t_detector : det = None <-> Turn.mode t = Turn.modeManual;
  t_cfg : Validate "session" c = None
}.

Definition timed {A} (s : session A) : Prop :=
  timed_ok (asrWait s) (active s) (deferItem s) (deferWait s) (turns s) (eot s) (cfg s) (detector s).

(** The same, were no response active. *)
Definition idle_timed {A} (s : session A) : Prop :=
  timed_ok None None (deferItem s) (deferWait s) (turns s) (eot s) (cfg s) (detector s).

Definition arms (d : TurnDecision) : bool := ArmEndOfTurnTimer d || ArmFinalWaitTimer d.

Section timed.
Context {A : Type} `{ASRStream A}.
Implicit Types s : session A.

Lemma timed_idle s : timed s -> idle_timed s.
Proof. intros []. by split. Qed.

Lemma idle_timed_idle s : idle_timed s -> asrWait s = None -> active s = None -> timed s.
Proof. unfold timed. by intros ? -> ->. Qed.

Lemma timed_no_wait s : timed s -> active s = None -> asrWait s = None.
Proof. intros [Hw _ _ _ _ _ _] Ha. rewrite Ha in Hw. by destruct (asrWait s). Qed.

Lemma timed_emit ev s : timed s -> timed (emit ev s).
Proof. done. Qed.

Lemma timed_cancel reason s : timed s -> timed (cancel_ctx reason s).
Proof. unfold cancel_ctx. by destruct (closed s). Qed.

Lemma timed_fatal code reason s : timed s -> timed (fatal code reason s).
Proof. intros. by apply timed_cancel. Qed.

Lemma timed_drop s : timed s -> timed (dropDeferredTrigger s).
Proof. intros []. by split. Qed.

(** The turn manager after a step that is not a response fact. *)
Lemma Step_settings t i c : settings_ok c t -> settings_ok c (Turn.Step t i).1.
Proof.
  unfold settings_ok. destruct (Turn.Step_switches t i) as [-> ->]. by rewrite Turn.Step_mode.
Qed.

Lemma timed_ok_Step aw act di dw t eo eo' c det i :
  timed_ok aw act di dw t eo c det ->
  (Turn.pendingEOT (Turn.Step t i).1 = true -> eo' <> None) ->
  timed_ok aw act di dw (Turn.Step t i).1 eo' c det.
Proof.
  intros [] He. split; try done; [by apply Turn.wf_Step|by apply Step_settings|]. by rewrite Turn.Step_mode.
Qed.

Lemma timed_turn i s : timed s -> let '(t, d) := Turn.Step (turns s) i in
  (arms d = true -> forall x, timed (set_eot (Some x) (set_turns t s))) /\
  (arms d = false -> timed (set_turns t s)).
Proof.
  intros Ht. pose proof (Turn.Step_timer (turns s) i (t_turns _ _ _ _ _ _ _ _ Ht)) as Hst.
  destruct (Turn.Step (turns s) i) as [t d] eqn:Hs. destruct Hst as [_ Hst].
  replace t with (Turn.Step (turns s) i).1 in * by by rewrite Hs. split.
  - intros _ x. by eapply timed_ok_Step.
  - intros Ha. eapply timed_ok_Step; [exact Ht|]. intros Hp.
    destruct (Turn.pendingEOT (turns s)) eqn:Hp0; [by apply (t_eot _ _ _ _ _ _ _ _ Ht)|].
    specialize (Hst eq_refl Hp). unfold arms in Ha. congruence.
Qed.

Lemma set_responseActive_ok b t c : Turn.wf t -> settings_ok c t ->
  Turn.wf (Turn.set_responseActive b t) /\ settings_ok c (Turn.set_responseActive b t).
Proof. done. Qed.

(** ** Responses *)

Lemma idle_timed_rest s s' b : idle_timed s -> same_rest s s' -> turns s' = Turn.set_responseActive b (turns s) ->
  idle_timed s'.
Proof. intros [] [] Ht. unfold idle_timed. rewrite Ht, sr_deferItem, sr_deferWait, sr_eot, sr_cfg, sr_detector. by split. Qed.

Lemma timed_finish r status reason err s : idle_timed s -> r_status r = ResponseInProgress ->
  timed (finish r status reason err s).
Proof.
  intros Hi Hst. destruct (finish_frame r status reason err s Hst) as (Hr & Ha & Hw & _).
  destruct (sr_turns _ _ Hr) as [b Hb]. apply idle_timed_idle; [by eapply idle_timed_rest|done..].
Qed.

Lemma timed_interrupt reason s : core s -> timed s -> timed (interrupt reason s).
Proof.
  intros [_ Hk _ _ _ _] Ht. unfold interrupt. destruct (active s) as [r|] eqn:Ha; [|done].
  apply timed_finish; [by apply timed_idle|]. by apply (Hk r eq_refl).
Qed.

Lemma timed_startPipeline r s : idle_timed s -> asrWait s = None -> timed (startPipeline r s).
Proof. intros [] Hw. split; simpl; try done. by rewrite Hw. Qed.

Lemma timed_createResponse ov tag s : timed s -> active s = None -> timed (createResponse ov tag s).
Proof.
  intros Ht Ha. pose proof (timed_no_wait s Ht Ha) as Hw. unfold createResponse.
  destruct (voice_locked _ _); [done|]. destruct (Validate _ _); [done|]. cbv zeta.
  set (s2 := (turn Turn.responseStarted _).1).
  assert (Hi : idle_timed s2 /\ asrWait s2 = None) by (unfold s2; rewrite turn_eq; by destruct Ht).
  clearbody s2. destruct Hi as [Hi Hw2].
  destruct (pendingItem s2 ≫= _) as [p|]; [|by apply timed_startPipeline].
  destruct (negb _); [|by apply timed_startPipeline]. by destruct Hi.
Qed.

(** ** Turns *)

Lemma timed_commit tag s s' ok : timed s -> commit tag s = Some (s', ok) -> timed s' /\ (ok = true -> active s' = active s).
Proof.
  intros Ht. unfold commit. destruct (Buffer.commit (buffer s)) as [[b r]|]; [|done]. simpl.
  destruct r as [[[pcm st] en]|]; [|by intros [= <- <-]].
  assert (Hc : timed (commit_item st en (set_buffer b s)) /\
    active (commit_item st en (set_buffer b s)) = active s).
  { unfold commit_item. cbv zeta.
    destruct (commit_ref _) as [s2 ref] eqn:Hr. unfold commit_ref in Hr.
    assert (H2 : timed s2 /\ active s2 = active s).
    { destruct (_ =? 0); injection Hr as <- <-; simpl; (split; [|done]); destruct Ht;
        split; simpl; try done; rewrite <- t_detector0; by destruct (detector s). }
    destruct (Conversation.append _ _) as [[c x] prev]. exact H2. }
  destruct Hc as [Hc Ha]. destruct (Finalize _) as [a [e|]]; intros [= <- <-]; [|done].
  split; [|done]. by apply timed_fatal.
Qed.

Lemma pending_nonzero s ref : core s -> pendingItem s = Some ref -> ref <> 0.
Proof.
  intros [[Hw _ _ Hp _] _ _ _ _ _] Hs ->. destruct (Hp 0 Hs) as (it & Hg & _).
  by rewrite Conversation.get_0 in Hg.
Qed.

Lemma timed_deferTrigger s : core s -> timed s -> timed (deferTrigger s).
Proof.
  intros Hk Ht. unfold deferTrigger. destruct (pendingItem s) as [ref|] eqn:Hp; [|done].
  pose proof (pending_nonzero s ref Hk Hp). destruct Ht. by split.
Qed.

Lemma timed_apply d tag s s' : core s ->
  (arms d = true -> forall x, timed (set_eot (Some x) s)) -> (arms d = false -> timed s) ->
  apply d tag s = Some s' -> timed s'.
Proof.
  intros Hk Harm Hno. unfold Session.apply. set (s1 := if ArmFinalWaitTimer d then _ else _).
  assert (Hk1 : core s1) by (unfold s1; by destruct (ArmFinalWaitTimer d), (ArmEndOfTurnTimer d)).
  assert (Ht1 : timed s1).
  { unfold s1, arms in *. destruct (ArmFinalWaitTimer d), (ArmEndOfTurnTimer d); simpl in *;
      [apply Harm|apply Harm|apply Harm|apply Hno]; done. }
  clearbody s1. clear Harm Hno. intros (s2 & Hs2 & [= <-])%bind_Some_inv.
  assert (Ht2 : timed s2).
  { destruct (Commit d); [|by injection Hs2 as <-].
    apply bind_Some_inv in Hs2 as ([s3 ok] & Hc & [= <-]). pose proof (core_commit _ _ _ _ Hk1 Hc) as Hk3. apply timed_commit in Hc as [Hc _]; [|done].
    destruct (ok && DeferTrigger d); [|done]. by apply timed_deferTrigger. }
  destruct (Trigger d); [|done]. destruct (active s2) eqn:Ha; [done|]. by apply timed_createResponse.
Qed.

Lemma timed_turn_apply i tag s s' : Turn.is_response i = false -> core s -> timed s ->
  turn_apply i tag s = Some s' -> timed s'.
Proof.
  intros Hi Hk Ht. unfold turn_apply. pose proof (timed_turn i s Ht) as Htt.
  pose proof (core_turn i s Hi Hk) as Hk1. rewrite turn_eq in *.
  destruct (Turn.Step (turns s) i) as [t d]. destruct Htt as [H1 H2]. by apply timed_apply.
Qed.

(** The end-of-turn fact leaves no turn waiting, armed or not. *)
Lemma timed_end_of_turn tag s s' : core s -> timed s ->
  turn_apply asrEndOfTurn tag (set_eot None s) = Some s' -> timed s'.
Proof.
  intros Hk Ht. unfold turn_apply. pose proof (core_turn asrEndOfTurn (set_eot None s) eq_refl Hk) as Hk1.
  rewrite turn_eq in *. intros Happ. eapply timed_apply; [exact Hk1| |intros _|exact Happ].
  - intros Ha. exfalso. revert Ha. unfold arms. simpl.
    destruct (_ && _); simpl; by rewrite ?orb_false_r.
  - eapply timed_ok_Step; [exact Ht|]. intros Hp. exfalso. simpl in Hp.
    pose proof (t_turns _ _ _ _ _ _ _ _ Ht) as (_ & _ & Hsem & _).
    destruct (Turn.pendingEOT (turns s)) eqn:Hpe.
    + rewrite (bool_decide_eq_true_2 _ (Hsem eq_refl)) in Hp. simpl in Hp. done.
    + rewrite andb_false_r in Hp. simpl in Hp. congruence.
Qed.

Lemma timed_resolveDeferredTrigger ref text s : timed s -> timed (resolveDeferredTrigger ref text s).
Proof.
  intros Ht. unfold resolveDeferredTrigger. pose proof (timed_drop s Ht) as Hd. destruct (_ || _); [done|].
  destruct (is_blank text); [done|]. destruct (active (dropDeferredTrigger s)) eqn:Ha; [done|].
  by apply timed_createResponse.
Qed.

Lemma timed_handleDeferredTimeout s : timed s -> timed (handleDeferredTimeout (set_deferWait None s)).
Proof.
  intros Ht. unfold handleDeferredTimeout. pose proof (timed_drop s Ht) as Hd.
  change (dropDeferredTrigger (set_deferWait None s)) with (set_deferItem 0 (set_deferWait None (set_deferWait None s))).
  assert (Hd2 : timed (set_deferItem 0 (set_deferWait None (set_deferWait None s)))) by exact Hd.
  revert Hd2. generalize (set_deferItem 0 (set_deferWait None (set_deferWait None s))). intros s1 Ht1.
  destruct (pendingItem s1) as [it|]; [|done]. destruct (_ || _); [done|]. destruct (is_blank _); [done|].
  destruct (active s1) eqn:Ha; [done|]. set (s2 := set_conv _ s1).
  pose proof (timed_createResponse no_overrides EmptyString s2 Ht1 Ha) as Ht2.
  destruct (active (createResponse _ _ _)) as [r|]; [|done]. destruct (awaiting r); [|done].
  apply timed_startPipeline; [|done]. by destruct Ht2.
Qed.

(** ** Transcripts *)

Lemma timed_completePendingItem ref text delta s : timed s -> timed (completePendingItem ref text delta s).
Proof.
  intros Ht. unfold completePendingItem. cbv zeta. apply timed_resolveDeferredTrigger.
  set (s1 := set_conv _ _). set (s2 := if transcriptionEnabled s1 then _ else _).
  assert (Ht2 : timed s2) by (unfold s2; destruct (transcriptionEnabled s1); [destruct (negb _)|]; exact Ht).
  clearbody s2. set (s3 := match Conversation.get (conv s2) ref with Some _ => _ | None => _ end).
  assert (Ht3 : timed s3) by (unfold s3; by destruct (Conversation.get _ _)). clearbody s3.
  destruct (active s3) as [r|]; [|done]. destruct (_ && _); [|done].
  apply timed_startPipeline; [|done]. by destruct Ht3.
Qed.

Lemma timed_handleASR ev s s' : core s -> timed s -> handleASR ev s = Some s' -> timed s'.
Proof.
  intros Hk Ht. unfold handleASR. destruct (AE_Kind ev).
  - by intros [= <-].
  - apply timed_turn_apply; [done| |]; destruct (pendingItem (set_partial EmptyString s)) eqn:Hp; try done.
    + by apply core_completePendingItem.
    + by apply timed_completePendingItem.
  - apply timed_turn_apply; [done| |]; destruct (pendingItem s) eqn:Hp; try done.
    + by apply core_completePendingItem.
    + by apply timed_completePendingItem.
  - intros [= <-]. by apply timed_fatal.
Qed.

Lemma timed_handleTranscriptTimeout s : core s -> timed s -> is_some (asrWait s) = true ->
  timed (handleTranscriptTimeout (set_asrWait None s)).
Proof.
  intros [_ Hk _ _ _ _] Ht Hw. unfold handleTranscriptTimeout. pose proof Ht as [Hw2 _ _ _ _ _ _].
  rewrite Hw in Hw2. unfold waiting in Hw2. simpl active. destruct (active s) as [r|] eqn:Ha; [|done].
  rewrite <- Hw2. simpl negb. cbv iota. pose proof (timed_idle s Ht) as Hi. destruct (String.eqb _ _).
  - unfold failResponse. apply timed_finish; [exact Hi|]. apply (Hk r eq_refl).
  - apply timed_startPipeline; simpl; by destruct (pendingItem s).
Qed.

(** ** Inbound audio *)

Lemma timed_alloc_speech s : timed s -> timed (alloc_speech s).
Proof. intros. unfold alloc_speech. by destruct (_ =? 0). Qed.

Lemma timed_speech_started off s s' : core s -> timed s -> speech_started off s = Some s' -> timed s'.
Proof.
  intros Hk Ht. unfold speech_started. cbv zeta. pose proof (core_alloc_speech s Hk) as Hk1.
  pose proof (timed_alloc_speech s Ht) as Ht1. revert Hk1 Ht1. generalize (alloc_speech s).
  clear s Hk Ht. intros s1 Hk1 Ht1. destruct (Buffer.markSpeechStart _ _ _) as [b st].
  pose proof (core_turn vadSpeechStart (disarmEndOfTurn (set_buffer b s1)) eq_refl Hk1) as Hk2.
  rewrite turn_eq in *. set (s2 := set_turns _ _) in *. set (d := (Turn.Step _ _).2).
  assert (Ht2 : timed s2 /\ arms d = false).
  { pose proof (t_turns _ _ _ _ _ _ _ _ Ht1) as (_ & _ & Hsem & _). split.
    - eapply timed_ok_Step; [exact Ht1|]. simpl. case_bool_decide as Hm; simpl; [|done].
      intros Hp. rewrite (Hsem Hp) in Hm. done.
    - unfold d. simpl. by case_bool_decide. }
  destruct Ht2 as [Ht2 Hd]. clearbody s2 d. clear Hk1 Ht1.
  set (s3 := if EmitSpeechStarted d then _ else s2).
  assert (Hk3 : core s3) by (unfold s3; destruct (EmitSpeechStarted d); [by apply core_emit|done]).
  assert (Ht3 : timed s3) by (unfold s3; by destruct (EmitSpeechStarted d)).
  set (s4 := if Interrupt d then _ else s3).
  assert (Hk4 : core s4) by (unfold s4; destruct (Interrupt d); [by apply core_interrupt|done]).
  assert (Ht4 : timed s4) by (unfold s4; destruct (Interrupt d); [by apply timed_interrupt|done]).
  clearbody s3 s4. apply timed_apply; [by destruct (_ && _)|intros; congruence|].
  intros _. destruct (_ && _); [by apply timed_drop|done].
Qed.

Lemma timed_speech_ended off s s' : core s -> timed s -> speech_ended off s = Some s' -> timed s'.
Proof.
  intros Hk Ht. unfold speech_ended. destruct (Buffer.markSpeechEnd _ _ _) as [b en]. cbv zeta.
  pose proof (core_turn vadSpeechEnd (set_buffer b s) eq_refl Hk) as Hk1.
  pose proof (timed_turn vadSpeechEnd (set_buffer b s) Ht) as Ht1. rewrite turn_eq in *.
  destruct (Turn.Step (turns (set_buffer b s)) vadSpeechEnd) as [t d]. destruct Ht1 as [H1 H2].
  apply timed_apply; simpl fst in *; simpl snd in *; destruct (EmitSpeechStopped d); try done. by apply core_emit.
Qed.

Lemma timed_vad_events evs : forall s s', core s -> timed s -> vad_events evs s = Some s' -> timed s'.
Proof.
  induction evs as [|ev evs IH]; intros s s' Hk Ht; simpl; [by intros [= <-]|].
  intros (s1 & H1 & H2)%bind_Some_inv. apply (IH s1 s'); [| |done]; destruct (Vad.Kind ev).
  - by eapply core_speech_started.
  - by eapply core_speech_ended.
  - by eapply timed_speech_started.
  - by eapply timed_speech_ended.
Qed.

Lemma timed_handleAudio p s s' : core s -> timed s -> handleAudio p s = Some s' -> timed s'.
Proof.
  intros Hk Ht. unfold handleAudio. destruct (Buffer.append _ _) as [b|]; [|intros [= <-]; by apply timed_fatal].
  destruct (PushAudio _ _) as [a [e|]]; [intros [= <-]; by apply timed_fatal|]. cbv zeta. simpl detector.
  destruct (detector s) as [e|] eqn:Hd; [|by intros [= <-]]. destruct (Vad.Process e p) as [e' evs].
  intros (s1 & H1 & (b' & _ & [= <-])%bind_Some_inv)%bind_Some_inv.
  apply timed_vad_events in H1; [exact H1|exact Hk|]. destruct Ht. split; simpl; try done.
  rewrite <- t_detector0, Hd. done.
Qed.

(** ** Commands *)

Lemma timed_applyTurnDetection s : timed_ok (asrWait s) (active s) (deferItem s) (deferWait s)
    (turns s) (eot s) (cfg s) (detector s) \/
  (is_some (asrWait s) = waiting (active s) /\ (deferItem s = 0 <-> deferWait s = None) /\
   Validate "session" (cfg s) = None) -> timed (applyTurnDetection s).
Proof.
  intros Hor. assert (is_some (asrWait s) = waiting (active s) /\ (deferItem s = 0 <-> deferWait s = None) /\
    Validate "session" (cfg s) = None) as (Hw & Hd & Hc) by (destruct Hor as [[]|?]; done).
  unfold applyTurnDetection. split; simpl; try done.
  - apply Turn.turn_wf_new.
  - unfold turn_detection. by destruct (In_TurnDetection _).
  - unfold Turn.vadEnabled. simpl. case_bool_decide as Hm; (split; [|done]); intros;
      [done|by destruct (Turn.turnMode_eq_dec (Turn.mode (Turn.newTurnManager (turn_detection s))) Turn.modeManual)].
Qed.

Lemma patch_field {V X} (fld : SessionDefaults -> X) (o : option V) f c :
  (forall v c, fld (f v c) = fld c) -> fld (patch o f c) = fld c.
Proof. intros Hf. by destruct o; simpl. Qed.

Lemma apply_patch_turn_detection p c :
  In_TurnDetection (SD_Input (apply_patch p c)) =
    match Patch_TurnDetection p with
    | SetTo td => option_map ApplyDefaults td
    | Unset => In_TurnDetection (SD_Input c)
    end.
Proof.
  unfold apply_patch. rewrite !(patch_field (fun c => In_TurnDetection (SD_Input c))) by done.
  destruct (Patch_TurnDetection p), (Patch_Transcription p); simpl; try done;
    by rewrite !(patch_field (fun c => In_TurnDetection (SD_Input c))) by done.
Qed.

Lemma timed_updateSession p tag s : timed s -> timed (updateSession p tag s).
Proof.
  intros Ht. unfold updateSession. destruct (voice_locked _ _); [done|]. cbv zeta.
  pose proof (apply_patch_turn_detection p (cfg s)) as Htd. revert Htd.
  generalize (apply_patch p (cfg s)). intros c Htd. destruct (Validate _ _) eqn:Hv; [done|].
  apply timed_emit. destruct (Patch_TurnDetection p).
  - destruct Ht. split; simpl; try done. unfold settings_ok in *. by rewrite Htd.
  - apply timed_applyTurnDetection. right. by destruct Ht.
Qed.

Lemma timed_deleteItem ref tag s s' : timed s -> deleteItem ref tag s = Some s' -> timed s'.
Proof.
  intros Ht. unfold deleteItem. destruct (match active s with Some _ => _ | None => _ end); [by intros [= <-]|].
  intros ([c ok] & _ & [= <-])%bind_Some_inv. destruct ok; simpl negb; cbv iota; [|exact Ht].
  cbv zeta. by case_bool_decide.
Qed.

Lemma timed_truncateItem id ci ms tag s s' : timed s -> truncateItem id ci ms tag s = Some s' -> timed s'.
Proof.
  intros Ht. unfold truncateItem. destruct (Conversation.get (conv s) id) as [it|]; [|by intros [= <-]].
  destruct (_ || _); [by intros [= <-]|]. destruct (negb _); [by intros [= <-]|].
  destruct (_ || _); [by intros [= <-]|]. by intros (t & _ & [= <-])%bind_Some_inv.
Qed.

Lemma timed_createItem spec previous atRoot tag s : timed s -> timed (createItem spec previous atRoot tag s).
Proof.
  intros Ht. unfold createItem. destruct (newClientItem spec s) as [param|it]; [done|].
  destruct (Conversation.insert _ _ _ _) as [[c ref] prev]. by destruct prev.
Qed.

Lemma timed_clearAudio s : timed s -> timed (clearAudio s).
Proof.
  intros []. split; simpl; try done.
  - rewrite <- t_detector0. by destruct (detector s).
Qed.

Lemma timed_handleCommand cmd s s' : core s -> timed s -> handleCommand cmd s = Some s' -> timed s'.
Proof.
  intros Hk Ht. destruct cmd; simpl.
  - intros [= <-]. by apply timed_updateSession.
  - by apply timed_turn_apply.
  - intros [= <-]. by apply timed_clearAudio.
  - intros [= <-]. by apply timed_createItem.
  - by apply timed_deleteItem.
  - by apply timed_truncateItem.
  - intros [= <-]. destruct (active s) eqn:Ha; [done|]. by apply timed_createResponse.
  - intros [= <-]. destruct (active s); [|done]. destruct (_ && _); [done|by apply timed_interrupt].
  - intros [= <-]. by apply timed_cancel.
Qed.

(** ** Pipeline facts *)

Lemma timed_set_active r' s : timed s -> waiting (Some r') = waiting (active s) -> timed (set_active (Some r') s).
Proof. intros [] Hw. split; simpl; try done. by rewrite t_wait0, <- Hw. Qed.

Lemma timed_ensureOutputItem r s s' r' : timed s -> active s = Some r -> ensureOutputItem r s = (s', r') ->
  timed s' /\ active s' = Some r' /\ awaiting r' = awaiting r.
Proof.
  intros Ht Ha. unfold ensureOutputItem. destruct (Conversation.get _ _); [by intros [= <- <-]|].
  destruct (Conversation.append _ _) as [[c ref] prev]. intros [= <- <-]. split; [|done].
  apply (timed_set_active (set_r_item ref r) s Ht). by rewrite Ha.
Qed.

Lemma timed_text_delta r delta s s' r' : timed s -> active s = Some r -> text_delta r delta s = (s', r') -> timed s'.
Proof.
  intros Ht Ha. unfold text_delta. destruct (ensureOutputItem r s) as [s1 r1] eqn:He.
  apply timed_ensureOutputItem in He as (Ht1 & Ha1 & _); [|done..]. intros [= <- _].
  apply (timed_set_active (set_spoke true r1) s1 Ht1). by rewrite Ha1.
Qed.

Lemma timed_maybeComplete r s : timed s -> r_status r = ResponseInProgress -> timed (maybeComplete r s).
Proof.
  intros Ht Hst. unfold maybeComplete. destruct (done_ r); [|done]. destruct (outcome r).
  apply timed_finish; [by apply timed_idle|done].
Qed.

Lemma timed_handleResponseEvent ev s : core s -> timed s -> timed (handleResponseEvent ev s).
Proof.
  intros [_ Hk _ _ _ _] Ht. unfold handleResponseEvent. destruct (active s) as [r|] eqn:Ha; [|done].
  destruct (Hk r eq_refl) as (Hst & _).
  destruct (generation ev) as [g|]; [|done]. destruct (_ || _); [done|]. destruct ev; try done.
  - destruct (text_delta r delta s) as [s1 r1] eqn:Htd. by apply timed_text_delta in Htd.
  - destruct (text_delta r delta s) as [s1 r1] eqn:Htd. by apply timed_text_delta in Htd.
  - destruct (ensureOutputItem r s) as [s1 r1] eqn:Htd. by apply timed_ensureOutputItem in Htd as [? _].
  - apply timed_maybeComplete; [|done]. apply timed_set_active; [done|by rewrite Ha].
  - unfold deliverToolCall. destruct (negb _); [done|]. destruct (Conversation.append _ _) as [[c ref] prev].
    apply (timed_set_active (set_toolItem ref r) s Ht). by rewrite Ha.
  - apply timed_maybeComplete; [|done]. apply timed_set_active; [done|by rewrite Ha].
  - unfold failResponse. apply timed_finish; [|done]. exact (timed_idle s Ht).
Qed.

(** ** Every reachable state *)

Lemma timed_handle i s s' : core s -> timed s -> enabled i s = true -> handle i s = Some s' -> timed s'.
Proof.
  intros Hk Ht He. destruct i; simpl in *.
  - by apply timed_handleCommand.
  - by apply timed_handleAudio.
  - by apply timed_handleASR.
  - intros [= <-]. by apply timed_handleResponseEvent.
  - intros [= <-]. by apply timed_handleTranscriptTimeout.
  - by apply timed_end_of_turn.
  - intros [= <-]. by apply timed_handleDeferredTimeout.
  - intros [= <-]. by apply timed_cancel.
Qed.

Lemma timed_New c lim t (stream : A) :
  Validate "session" (cfg (New c lim t stream)) = None -> timed (New c lim t stream).
Proof. intros Hv. apply timed_applyTurnDetection. right. by split_and!. Qed.

Lemma timed_reachable c lim t (stream : A) s :
  Validate "session" (cfg (New c lim t stream)) = None -> reachable c lim t stream s -> timed s.
Proof.
  intros Hv. induction 1; [by apply timed_New|done|].
  eapply timed_handle; [|done..]. by eapply core_reachable.
Qed.
End timed.
