(* ===== verification/SessionGrows.v ===== *)
(** * What a step may change: the generation, the events, the voice

    [grows s s'] is a preorder every handler respects: the generation never
    goes back, events are only appended, those the consumer is given are all of
    them while the session lives and a subsequence after ([delivered]), a close
    cause is never replaced, and
    once audio was sent the session's voice is fixed and every new response
    uses it. *)

From S2P Require Export SessionCore.
From S2P Require Import Response.
From S2P Require Turn Conversation Vad Buffer.
From S2P Require Import Session.
Import Turn (TurnInput(..), TurnDecision, EmitSpeechStarted, EmitSpeechStopped, Interrupt, Commit,
  Trigger, DeferTrigger, ArmEndOfTurnTimer, ArmFinalWaitTimer).
#[local] Open Scope Z_scope.

Definition voice_ok (v : string) (ev : Event) : Prop :=
  match ev with EvResponseCreated _ _ v' _ _ => v' = v | _ => True end.

(** What reaches the consumer of the events [evs] of a step: a subsequence, and
    all of them where the session still lives after it. *)
Definition delivered (evs kept : list Event) (cl' : option CloseReason) : Prop :=
  sublist kept evs /\ (cl' = None -> kept = evs).

Record grows_ok (g : Generation) (o sn : list Event) (ae : bool) (v : string) (cl : option CloseReason)
    (g' : Generation) (o' sn' : list Event) (ae' : bool) (v' : string) (cl' : option CloseReason) : Prop := {
  g_gen : g <= g';
  g_out : exists evs kept, o' = o ++ evs /\ (ae = true -> Forall (voice_ok v) evs) /\
            sn' = sn ++ kept /\ delivered evs kept cl';
  g_audio : ae = true -> ae' = true /\ v' = v;
  g_closed : cl <> None -> cl' = cl
}.

Definition grows {A} (s s' : session A) : Prop :=
  grows_ok (activeGen s) (out s) (sent s) (audioEmitted s) (voice s) (closed s)
    (activeGen s') (out s') (sent s') (audioEmitted s') (voice s') (closed s').

Lemma grows_nothing (o sn : list Event) (ae : bool) v cl : exists evs kept, o = o ++ evs /\
  (ae = true -> Forall (voice_ok v) evs) /\ sn = sn ++ kept /\ delivered evs kept cl.
Proof. exists [], []. rewrite !app_nil_r. repeat split; constructor. Qed.

#[export] Instance grows_preorder A : PreOrder (@grows A).
Proof.
  split.
  - intros s. split; try done. apply grows_nothing.
  - intros s1 s2 s3 [G1 (e1 & k1 & O1 & V1 & S1 & D1) A1 C1] [G2 (e2 & k2 & O2 & V2 & S2 & D2) A2 C2]. split.
    + lia.
    + exists (e1 ++ e2), (k1 ++ k2). rewrite O2, O1, S2, S1, !app_assoc. split; [done|]. split; [|split; [done|]].
      * intros Ha. apply Forall_app. destruct (A1 Ha) as [Ha2 Hv]. rewrite <- Hv. split; [rewrite Hv; auto|]. by apply V2.
      * destruct D1 as [D1 E1], D2 as [D2 E2]. split; [by apply sublist_app|]. intros Hc. rewrite E2 by done.
        rewrite E1; [done|]. destruct (closed s2); [|done]. by rewrite C2 in Hc.
    + intros Ha. destruct (A1 Ha) as [Ha2 Hv]. destruct (A2 Ha2) as [? Hv2]. split; congruence.
    + intros Hc. rewrite C2; [auto|]. by rewrite C1.
Qed.

Section grows.
Context {A : Type} `{ASRStream A}.
Implicit Types s : session A.

Lemma grows_refl s : grows s s.
Proof. reflexivity. Qed.

Lemma grows_emit ev s : (audioEmitted s = true -> voice_ok (voice s) ev) -> grows s (emit ev s).
Proof.
  intros Hv. split; simpl; try done. exists [ev], (if taken s then [ev] else []). split; [done|].
  split; [intros; by repeat constructor; auto|]. split; [done|]. unfold taken, delivered.
  split; [destruct (match closed s with Some _ => _ | None => _ end); [done|by repeat constructor]|].
  by intros ->.
Qed.

(** Updates of the other fields change nothing here. *)
Lemma grows_other s s' : grows_ok (activeGen s) (out s) (sent s) (audioEmitted s) (voice s) (closed s)
    (activeGen s') (out s') (sent s') (audioEmitted s') (voice s') (closed s') -> grows s s'.
Proof. done. Qed.

Lemma grows_cancel reason s : grows s (cancel_ctx reason s).
Proof. unfold cancel_ctx. destruct (closed s) eqn:Hc; [done|]. split; simpl; try done; first [congruence|apply grows_nothing]. Qed.

Lemma grows_fatal code reason s : grows s (fatal code reason s).
Proof. unfold fatal. etransitivity; [|apply grows_cancel]. by apply grows_emit. Qed.

Lemma grows_turn i s : grows s (turn i s).1.
Proof. rewrite turn_eq. exact (grows_refl s). Qed.

Lemma grows_set_activeGen s : grows s (set_activeGen (activeGen s + 1) s).
Proof. split; simpl; try done; first [lia|apply grows_nothing]. Qed.

(** ** Responses *)

Lemma grows_close_item r status s : grows s (close_item r status s).1.
Proof.
  unfold close_item. destruct (Conversation.get _ _) as [o|]; [|done]. cbv zeta. set (s1 := set_conv _ s).
  transitivity s1; [exact (grows_refl s)|]. clearbody s1. simpl fst.
  destruct (textOnly r); repeat (etransitivity; [|by apply grows_emit]); done.
Qed.

Lemma grows_finish r status reason err s : grows s (finish r status reason err s).
Proof.
  unfold finish. destruct (terminal r); [done|]. cbv zeta. set (s0 := stopASRWait _).
  transitivity s0; [unfold s0; destruct (r_cancel r); exact (grows_refl s)|]. clearbody s0.
  pose proof (grows_close_item r status s0) as Hc. destruct (close_item r status s0) as [s1 outp].
  transitivity s1; [exact Hc|]. clear Hc s0. set (s2 := emit _ s1).
  transitivity s2; [by apply grows_emit|]. clearbody s2. rewrite turn_eq. simpl fst.
  exact (grows_set_activeGen (set_turns _ (set_active None s2))).
Qed.

Lemma grows_interrupt reason s : grows s (interrupt reason s).
Proof. unfold interrupt. destruct (active s); [apply grows_finish|done]. Qed.

Lemma grows_failResponse r code err s : grows s (failResponse r code err s).
Proof.
  unfold failResponse. cbv zeta. etransitivity; [|apply grows_finish].
  transitivity (set_active (Some (set_failCode code r)) s); [exact (grows_refl s)|]. by apply grows_emit.
Qed.

Lemma grows_maybeComplete r s : grows s (maybeComplete r s).
Proof. unfold maybeComplete. destruct (done_ r); [|done]. destruct (outcome r). apply grows_finish. Qed.

Lemma grows_startPipeline r s : grows s (startPipeline r s).
Proof. exact (grows_set_activeGen s). Qed.

(** The voice of a probe that passed the lock. *)
Lemma probe_voice ov s : voice_locked (Ov_Voice ov) s = false -> audioEmitted s = true ->
  Out_Voice (SD_Output (patch (Ov_Voice ov) with_voice (patch (Ov_MaxOutputTokens ov) with_max_tokens
    (patch (Ov_OutputModalities ov) with_modalities (cfg s))))) = voice s.
Proof.
  unfold voice_locked. intros Hl Ha. rewrite Ha in Hl.
  assert (Hb : forall c, SD_Output c = SD_Output (cfg s) -> Out_Voice (SD_Output (patch (Ov_Voice ov) with_voice c)) = voice s).
  { intros c Hc. destruct (Ov_Voice ov) as [v|]; simpl; [|by rewrite Hc]. rewrite andb_true_r in Hl.
    apply negb_false_iff, String.eqb_eq in Hl. done. }
  apply Hb. by destruct (Ov_MaxOutputTokens ov), (Ov_OutputModalities ov).
Qed.

Lemma grows_createResponse ov tag s : grows s (createResponse ov tag s).
Proof.
  unfold createResponse. destruct (voice_locked (Ov_Voice ov) s) eqn:Hl; [by apply grows_emit|]. cbv zeta.
  pose proof (probe_voice ov s Hl) as Hv. revert Hv. generalize (patch (Ov_Voice ov) with_voice
    (patch (Ov_MaxOutputTokens ov) with_max_tokens (patch (Ov_OutputModalities ov) with_modalities (cfg s)))).
  intros probe Hv. destruct (Validate _ _); [by apply grows_emit|].
  set (s1 := set_responses _ _).
  assert (H1 : grows s s1) by exact (grows_refl s).
  assert (Hae : audioEmitted s1 = audioEmitted s /\ voice s1 = voice s) by done.
  clearbody s1. destruct Hae as [Hae Hvo].
  set (s2 := emit _ s1). assert (H2 : grows s s2).
  { etransitivity; [exact H1|]. apply grows_emit. rewrite Hae, Hvo. simpl. auto. }
  clearbody s2. pose proof (grows_turn Turn.responseStarted s2) as H3.
  destruct (turn _ _) as [s3 d]. simpl fst in *.
  assert (H4 : grows s s3) by (by etransitivity). clear H1 H2 H3.
  destruct (pendingItem s3 ≫= _) as [p|]; [destruct (negb _)|];
    first [exact H4 | by etransitivity; [|apply grows_startPipeline]].
Qed.

(** ** Turns *)

Lemma grows_commit_item st en s : grows s (commit_item st en s).
Proof.
  unfold commit_item. cbv zeta. set (s0 := set_detector _ s).
  transitivity s0; [exact (grows_refl s)|]. clearbody s0.
  destruct (commit_ref s0) as [s2 ref] eqn:Hr.
  transitivity s2; [unfold commit_ref in Hr; destruct (_ =? 0); injection Hr as <- _; exact (grows_refl s0)|].
  clear Hr s0. destruct (Conversation.append _ _) as [[c x] prev].
  set (s3 := set_pendingItem _ _). transitivity s3; [exact (grows_refl s2)|]. clearbody s3.
  etransitivity; [|by apply grows_emit]. by apply grows_emit.
Qed.

Lemma grows_commit tag s s' ok : commit tag s = Some (s', ok) -> grows s s'.
Proof.
  unfold commit. intros ([b r] & _ & Hc)%bind_Some_inv. cbv zeta in Hc.
  transitivity (set_buffer b s); [exact (grows_refl s)|].
  destruct r as [[[pcm st] en]|]; [|injection Hc as <- _; by apply grows_emit].
  transitivity (commit_item st en (set_buffer b s)); [apply grows_commit_item|]. revert Hc.
  generalize (commit_item st en (set_buffer b s)). intros s1.
  destruct (Finalize _) as [a [e|]]; intros [= <- _]; [|exact (grows_refl s1)].
  transitivity (set_asrStream a s1); [exact (grows_refl s1)|apply grows_fatal].
Qed.

Lemma grows_apply d tag s s' : apply d tag s = Some s' -> grows s s'.
Proof.
  unfold Session.apply. set (s1 := if ArmFinalWaitTimer d then _ else _). intros (s2 & Hs2 & [= <-])%bind_Some_inv.
  transitivity s1; [unfold s1; destruct (ArmFinalWaitTimer d), (ArmEndOfTurnTimer d); exact (grows_refl s)|].
  clearbody s1. transitivity s2.
  - destruct (Commit d); [|by injection Hs2 as <-].
    apply bind_Some_inv in Hs2 as ([s3 ok] & Hc & [= <-]). apply grows_commit in Hc. etransitivity; [exact Hc|].
    destruct (_ && _); [|done]. unfold deferTrigger. destruct (pendingItem s3); exact (grows_refl s3).
  - destruct (Trigger d); [|done]. destruct (active s2); [done|]. apply grows_createResponse.
Qed.

Lemma grows_turn_apply i tag s s' : turn_apply i tag s = Some s' -> grows s s'.
Proof.
  unfold turn_apply. pose proof (grows_turn i s) as Ht. destruct (turn i s) as [s1 d]. simpl in Ht.
  intros Ha. etransitivity; [exact Ht|]. by eapply grows_apply.
Qed.

Lemma grows_resolveDeferredTrigger ref text s : grows s (resolveDeferredTrigger ref text s).
Proof.
  unfold resolveDeferredTrigger. destruct (_ || _); [done|]. cbv zeta.
  transitivity (dropDeferredTrigger s); [exact (grows_refl s)|].
  destruct (is_blank _); [done|]. destruct (active _); [done|]. apply grows_createResponse.
Qed.

Lemma grows_handleDeferredTimeout s : grows s (handleDeferredTimeout s).
Proof.
  unfold handleDeferredTimeout. cbv zeta.
  transitivity (dropDeferredTrigger s); [exact (grows_refl s)|]. generalize (dropDeferredTrigger s) as s1. intros s1.
  destruct (pendingItem s1) as [it|]; [|done]. destruct (_ || _); [done|]. destruct (is_blank _); [done|].
  destruct (active s1); [done|]. set (s2 := set_conv _ s1).
  transitivity s2; [exact (grows_refl s1)|]. clearbody s2.
  pose proof (grows_createResponse no_overrides EmptyString s2) as Hc. etransitivity; [exact Hc|].
  generalize (createResponse no_overrides EmptyString s2) as s3. intros s3.
  destruct (active s3) as [r|]; [|done]. destruct (awaiting r); [|done].
  transitivity (stopASRWait s3); [exact (grows_refl s3)|apply grows_startPipeline].
Qed.

(** ** Transcripts *)

Lemma grows_completePendingItem ref text delta s : grows s (completePendingItem ref text delta s).
Proof.
  unfold completePendingItem. cbv zeta. etransitivity; [|apply grows_resolveDeferredTrigger].
  set (s1 := set_conv _ _). transitivity s1; [exact (grows_refl s)|]. clearbody s1.
  set (s2 := if transcriptionEnabled s1 then _ else _).
  transitivity s2.
  { unfold s2. destruct (transcriptionEnabled s1); [|done]. etransitivity; [|by apply grows_emit].
    destruct (negb _); [by apply grows_emit|done]. }
  clearbody s2. set (s3 := match Conversation.get (conv s2) ref with Some _ => _ | None => _ end).
  transitivity s3; [unfold s3; destruct (Conversation.get _ _); [by apply grows_emit|done]|]. clearbody s3.
  destruct (active s3) as [r|]; [|done]. destruct (_ && _); [|done].
  transitivity (stopASRWait s3); [exact (grows_refl s3)|apply grows_startPipeline].
Qed.

Lemma grows_handleASR ev s s' : handleASR ev s = Some s' -> grows s s'.
Proof.
  unfold handleASR. destruct (AE_Kind ev); [intros [= <-]; exact (grows_refl s)| | |intros [= <-]; apply grows_fatal];
    cbv zeta; intros Ht%grows_turn_apply; (etransitivity; [|exact Ht]).
  - destruct (pendingItem _); [|exact (grows_refl s)].
    transitivity (set_partial EmptyString s); [exact (grows_refl s)|apply grows_completePendingItem].
  - destruct (pendingItem s); [apply grows_completePendingItem|done].
Qed.

Lemma grows_handleTranscriptTimeout s : grows s (handleTranscriptTimeout s).
Proof.
  unfold handleTranscriptTimeout. destruct (active s) as [r|]; [|done]. destruct (negb _); [done|]. cbv zeta.
  destruct (String.eqb _ _); [apply grows_failResponse|]. etransitivity; [|apply grows_startPipeline].
  destruct (pendingItem s); exact (grows_refl s).
Qed.

(** ** Inbound audio *)

Lemma grows_speech_started off s s' : speech_started off s = Some s' -> grows s s'.
Proof.
  unfold speech_started. cbv zeta. intros Hs. transitivity (alloc_speech s).
  { unfold alloc_speech. destruct (_ =? 0); exact (grows_refl s). }
  revert Hs. generalize (alloc_speech s). intros s1.
  destruct (Buffer.markSpeechStart _ _ _) as [b st].
  pose proof (grows_turn vadSpeechStart (disarmEndOfTurn (set_buffer b s1))) as Ht.
  destruct (turn _ _) as [s2 d]. simpl fst in Ht. intros Ha%grows_apply.
  etransitivity; [exact Ht|]. etransitivity; [|exact Ha]. clear Ha.
  set (s3 := if EmitSpeechStarted d then _ else s2).
  transitivity s3; [unfold s3; destruct (EmitSpeechStarted d); [by apply grows_emit|done]|]. clearbody s3.
  set (s4 := if Interrupt d then _ else s3).
  transitivity s4; [unfold s4; destruct (Interrupt d); [apply grows_interrupt|done]|]. clearbody s4.
  destruct (_ && _); exact (grows_refl s4).
Qed.

Lemma grows_speech_ended off s s' : speech_ended off s = Some s' -> grows s s'.
Proof.
  unfold speech_ended. destruct (Buffer.markSpeechEnd _ _ _) as [b en]. cbv zeta.
  pose proof (grows_turn vadSpeechEnd (set_buffer b s)) as Ht. destruct (turn _ _) as [s2 d].
  intros Ha%grows_apply. etransitivity; [exact Ht|]. etransitivity; [|exact Ha].
  destruct (EmitSpeechStopped d); [by apply grows_emit|done].
Qed.

Lemma grows_vad_events evs : forall s s', vad_events evs s = Some s' -> grows s s'.
Proof.
  induction evs as [|ev evs IH]; intros s s'; simpl; [by intros [= <-]|].
  intros (s1 & H1 & H2)%bind_Some_inv. transitivity s1; [|by apply IH].
  destruct (Vad.Kind ev); [by eapply grows_speech_started|by eapply grows_speech_ended].
Qed.

Lemma grows_handleAudio p s s' : handleAudio p s = Some s' -> grows s s'.
Proof.
  unfold handleAudio. destruct (Buffer.append _ _) as [b|]; [|intros [= <-]; apply grows_fatal].
  destruct (PushAudio _ _) as [a [e|]]; cbv zeta.
  { intros [= <-]. transitivity (set_asrStream a (set_buffer b s)); [exact (grows_refl s)|apply grows_fatal]. }
  destruct (detector _) as [e|]; [|intros [= <-]; exact (grows_refl s)]. destruct (Vad.Process e p) as [e' evs].
  intros (s1 & H1 & (b' & _ & [= <-])%bind_Some_inv)%bind_Some_inv.
  apply grows_vad_events in H1. transitivity s1; [exact H1|exact (grows_refl s1)].
Qed.

(** ** Commands *)

Lemma patched_voice p s : voice_locked (Patch_Voice p) s = false -> audioEmitted s = true ->
  Out_Voice (SD_Output (apply_patch p (cfg s))) = voice s.
Proof.
  unfold voice_locked, voice. intros Hl Ha. rewrite Ha in Hl.
  assert (Hp : forall {V} (o : option V) f c, (forall v c, Out_Voice (SD_Output (f v c)) = Out_Voice (SD_Output c)) ->
    Out_Voice (SD_Output (patch o f c)) = Out_Voice (SD_Output c)) by (intros V o f c Hf; by destruct o; simpl).
  unfold apply_patch. cbv zeta. rewrite !Hp by done. set (c := patch (Patch_Voice p) _ _).
  assert (Hc : Out_Voice (SD_Output c) = Out_Voice (SD_Output (cfg s))).
  { unfold c. destruct (Patch_Voice p) as [v|]; simpl.
    - rewrite andb_true_r in Hl. by apply negb_false_iff, String.eqb_eq in Hl.
    - by rewrite !Hp. }
  destruct (Patch_TurnDetection p), (Patch_Transcription p); simpl; by rewrite ?Hp.
Qed.

Lemma grows_set_cfg c s : (audioEmitted s = true -> Out_Voice (SD_Output c) = voice s) -> grows s (set_cfg c s).
Proof. intros Hv. split; simpl; try done; first [apply grows_nothing|by split; auto]. Qed.

Lemma grows_updateSession p tag s : grows s (updateSession p tag s).
Proof.
  unfold updateSession. destruct (voice_locked _ _) eqn:Hl; [by apply grows_emit|]. cbv zeta.
  pose proof (patched_voice p s Hl) as Hv. revert Hv. generalize (apply_patch p (cfg s)). intros c Hv.
  destruct (Validate _ _); [by apply grows_emit|]. etransitivity; [|by apply grows_emit].
  pose proof (grows_set_cfg c s Hv) as Hc. by destruct (Patch_TurnDetection p).
Qed.

Lemma grows_createItem spec previous atRoot tag s : grows s (createItem spec previous atRoot tag s).
Proof.
  unfold createItem. destruct (newClientItem spec s) as [param|it]; [by apply grows_emit|].
  destruct (Conversation.insert _ _ _ _) as [[c ref] prev]. cbv zeta.
  transitivity (set_conv c s); [exact (grows_refl s)|].
  destruct prev; [etransitivity; [|by apply grows_emit]|]; by apply grows_emit.
Qed.

Lemma grows_deleteItem ref tag s s' : deleteItem ref tag s = Some s' -> grows s s'.
Proof.
  unfold deleteItem. destruct (match active s with Some _ => _ | None => _ end); [intros [= <-]; by apply grows_emit|].
  intros ([c ok] & _ & [= <-])%bind_Some_inv. destruct ok; simpl negb; cbv iota zeta; [|by apply grows_emit].
  etransitivity; [|by apply grows_emit]. destruct (bool_decide _); exact (grows_refl s).
Qed.

Lemma grows_truncateItem id ci ms tag s s' : truncateItem id ci ms tag s = Some s' -> grows s s'.
Proof.
  unfold truncateItem. destruct (Conversation.get (conv s) id) as [it|]; [|intros [= <-]; by apply grows_emit].
  destruct (_ || _); [intros [= <-]; by apply grows_emit|]. destruct (negb _); [intros [= <-]; by apply grows_emit|].
  destruct (_ || _); [intros [= <-]; by apply grows_emit|]. cbv zeta.
  intros (t & _ & [= <-])%bind_Some_inv. etransitivity; [|by apply grows_emit]. exact (grows_refl s).
Qed.

Lemma grows_handleCommand cmd s s' : handleCommand cmd s = Some s' -> grows s s'.
Proof.
  destruct cmd; simpl.
  - intros [= <-]. apply grows_updateSession.
  - apply grows_turn_apply.
  - intros [= <-]. unfold clearAudio. etransitivity; [|by apply grows_emit]. exact (grows_refl s).
  - intros [= <-]. apply grows_createItem.
  - apply grows_deleteItem.
  - apply grows_truncateItem.
  - intros [= <-]. destruct (active s); [by apply grows_emit|].
    etransitivity; [|apply grows_createResponse]. exact (grows_refl s).
  - intros [= <-]. destruct (active s); [|by apply grows_emit].
    destruct (_ && _); [by apply grows_emit|apply grows_interrupt].
  - intros [= <-]. apply grows_cancel.
Qed.

(** ** Pipeline facts *)

Lemma grows_ensureOutputItem r s : grows s (ensureOutputItem r s).1.
Proof.
  unfold ensureOutputItem. destruct (Conversation.get _ _); [done|].
  destruct (Conversation.append _ _) as [[c ref] prev]. simpl fst.
  etransitivity; [|by apply grows_emit]. exact (grows_refl s).
Qed.

Lemma grows_text_delta r delta s : grows s (text_delta r delta s).1.
Proof.
  unfold text_delta. pose proof (grows_ensureOutputItem r s) as He. destruct (ensureOutputItem r s) as [s1 r1].
  etransitivity; [exact He|]. exact (grows_refl s1).
Qed.

Lemma grows_set_audioEmitted s : grows s (set_audioEmitted true s).
Proof. split; simpl; try done. apply grows_nothing. Qed.

Lemma grows_deliverToolCall r call s : grows s (deliverToolCall r call s).
Proof.
  unfold deliverToolCall. destruct (negb _); [done|]. destruct (Conversation.append _ _) as [[c ref] prev]. cbv zeta.
  etransitivity; [|by apply grows_emit]. set (s1 := emit _ _). transitivity s1; [|exact (grows_refl s1)].
  unfold s1. etransitivity; [|by apply grows_emit]. etransitivity; [|by apply grows_emit]. exact (grows_refl s).
Qed.

Lemma grows_handleResponseEvent ev s : grows s (handleResponseEvent ev s).
Proof.
  unfold handleResponseEvent. destruct (active s) as [r|]; [|done].
  destruct (generation ev) as [g|]; [|done]. destruct (_ || _); [done|]. destruct ev; try done.
  - pose proof (grows_text_delta r delta s) as He. destruct (text_delta r delta s) as [s1 r1].
    etransitivity; [exact He|]. by apply grows_emit.
  - pose proof (grows_text_delta r delta s) as He. destruct (text_delta r delta s) as [s1 r1].
    etransitivity; [exact He|]. by apply grows_emit.
  - pose proof (grows_ensureOutputItem r s) as He. destruct (ensureOutputItem r s) as [s1 r1].
    etransitivity; [exact He|]. cbv zeta. etransitivity; [|by apply grows_emit].
    exact (grows_set_audioEmitted s1).
  - cbv zeta. etransitivity; [|apply grows_maybeComplete]. exact (grows_refl s).
  - apply grows_deliverToolCall.
  - cbv zeta. etransitivity; [|apply grows_maybeComplete]. exact (grows_refl s).
  - exact (grows_refl s).
  - exact (grows_refl s).
  - apply grows_failResponse.
Qed.

Lemma grows_handle i s s' : handle i s = Some s' -> grows s s'.
Proof.
  destruct i; simpl.
  - apply grows_handleCommand.
  - apply grows_handleAudio.
  - apply grows_handleASR.
  - intros [= <-]. apply grows_handleResponseEvent.
  - intros [= <-]. etransitivity; [|apply grows_handleTranscriptTimeout]. exact (grows_refl s).
  - intros Ht%grows_turn_apply. etransitivity; [|exact Ht]. exact (grows_refl s).
  - intros [= <-]. etransitivity; [|apply grows_handleDeferredTimeout]. exact (grows_refl s).
  - intros [= <-]. apply grows_cancel.
Qed.

Lemma grows_run is_ : forall s s', run is_ s = Some s' -> grows s s'.
Proof.
  induction is_ as [|i is_ IH]; intros s s'; simpl; [by intros [= <-]|].
  destruct (enabled i s); [|done]. intros (s1 & Hh & Hr)%bind_Some_inv.
  transitivity s1; [by eapply grows_handle|by apply IH].
Qed.

(** ** What the consumer is given *)

Lemma grows_reachable c lim t (stream : A) s : reachable c lim t stream s -> grows (New c lim t stream) s.
Proof.
  induction 1 as [|s l _ IH|s i s' _ IH _ Hh]; [done|exact IH|]. transitivity s; [exact IH|by eapply grows_handle].
Qed.

(** From a state in which nothing was emitted, the consumer gets a subsequence
    of what is emitted, and all of it while the session lives. *)
Lemma grows_sent s0 s : out s0 = [] -> sent s0 = [] -> grows s0 s ->
  sent s `sublist_of` out s /\ (closed s = None -> sent s = out s).
Proof.
  intros Ho Hs [_ (evs & kept & -> & _ & -> & [Hd Hc]) _ _]. rewrite Ho, Hs. by split.
Qed.

(** Nothing emitted before the cancellation is lost later. *)
Lemma grows_sent_before s s' : sent s = out s -> grows s s' -> out s `prefix_of` sent s'.
Proof. intros He [_ (evs & kept & _ & _ & -> & _) _ _]. rewrite He. by exists kept. Qed.

Lemma grows_cleanup s : closed s <> None -> grows s (cleanup s).
Proof.
  intros Hc. unfold cleanup. cbv zeta. set (s1 := match active s with Some _ => _ | None => _ end).
  assert (H1 : grows s s1) by (unfold s1; destruct (active s); [apply grows_finish|done]).
  transitivity s1; [exact H1|]. assert (Hc1 : closed s1 <> None) by (by rewrite (g_closed _ _ _ _ _ _ _ _ _ _ _ _ H1)).
  generalize (reasonOf s). clearbody s1. clear H1 Hc s. intros reason. split; simpl; try done.
  exists [EvSessionClosed reason], (if default true (head (takes s1)) then [EvSessionClosed reason] else []).
  split; [done|]. split; [intros; by repeat constructor|]. split; [done|]. split; [|done].
  by destruct (default _ _); repeat constructor.
Qed.
End grows.
