(* ===== verification/Stages.v ===== *)
(** * The pipeline's stages ([internal/session/pipeline.go])

    One goroutine reads the model's stream, one cuts its text into sentences,
    one synthesizes them (with a writer of its own for providers that take
    incremental text); bounded channels join them and one context stops them
    all. [prun] is the state of a running pipeline: the program point of each
    goroutine ([lpc], [cpc], [tpc], [wpc]), the channels, and the facts sent to
    the actor so far. A stage that has stopped has closed its channel. [pstep]
    is one action of one goroutine with the answer its environment gives: what
    the provider returned, and whether a select took the send ([true]) or the
    done context ([false], possible only once the context is done).

    Shown: what a pipeline sends is stamped with its generation and response,
    so it is what [SessionStep.enabled] admits; unless it was cancelled, by the
    time it reports the synthesis complete the segments it sent tile exactly
    the text and the audio it sent; completion is reported at most once; and a
    cancelled pipeline can always stop. *)

From S2P Require Export Audio SessionStep Sentencer Utf8.
From S2P Require Import Session.
#[local] Open Scope Z_scope.

Definition textChunkQueue : Z := 16.
Definition sentenceQueue : Z := 4.

(** An error, and whether it wraps [context.Canceled]. *)
Record perr := MkPerr { PE_Text : string; Canceled : bool }.

Inductive llm_pc := LOpen | LRecv | LPush (text : string) | LStop.

(** [CEmit out last]: sentences still to send; [last] after the flush. *)
Inductive cut_pc := CRecv | CEmit (pend : list sentence) (last : bool) | CStop.

(** [TRead] and [TAudio] are [drain], for one sentence or ([None]) for the
    whole response. *)
Inductive tts_pc :=
| TRecv
| TStart (sn : sentence)
| TOpen (sn : sentence)
| TWrite (sn : sentence)
| TEnd (sn : sentence)
| TRead (k : option sentence) (total : Z)
| TAudio (k : option sentence) (total : Z) (pcm : list Z)
| TSegment (sn : sentence) (n : Z)
| IStart
| IOpen
| IWait
| TDrop
| TStop.

Inductive write_pc := WIdle | WRecv | WWrite (text : string) | WEnd | WDone (r : option perr).

Record prun := MkPrun {
  pl : pipeline;
  done : bool;
  sent : list Event;
  lpc : llm_pc;
  chunks : list string;
  cpc : cut_pc;
  cutter : sentencer;
  sentences : list sentence;
  tpc : tts_pc;
  started : bool;
  audioPos : Z;
  wpc : write_pc;
  taken : list sentence
}.

Definition upd_done d r := MkPrun (pl r) d (sent r) (lpc r) (chunks r) (cpc r) (cutter r) (sentences r) (tpc r) (started r) (audioPos r) (wpc r) (taken r).
Definition upd_sent e r := MkPrun (pl r) (done r) e (lpc r) (chunks r) (cpc r) (cutter r) (sentences r) (tpc r) (started r) (audioPos r) (wpc r) (taken r).
Definition upd_lpc l r := MkPrun (pl r) (done r) (sent r) l (chunks r) (cpc r) (cutter r) (sentences r) (tpc r) (started r) (audioPos r) (wpc r) (taken r).
Definition upd_chunks c r := MkPrun (pl r) (done r) (sent r) (lpc r) c (cpc r) (cutter r) (sentences r) (tpc r) (started r) (audioPos r) (wpc r) (taken r).
Definition upd_cut pc s r := MkPrun (pl r) (done r) (sent r) (lpc r) (chunks r) pc s (sentences r) (tpc r) (started r) (audioPos r) (wpc r) (taken r).
Definition upd_sentences q r := MkPrun (pl r) (done r) (sent r) (lpc r) (chunks r) (cpc r) (cutter r) q (tpc r) (started r) (audioPos r) (wpc r) (taken r).
Definition upd_tpc t r := MkPrun (pl r) (done r) (sent r) (lpc r) (chunks r) (cpc r) (cutter r) (sentences r) t (started r) (audioPos r) (wpc r) (taken r).
Definition upd_started b r := MkPrun (pl r) (done r) (sent r) (lpc r) (chunks r) (cpc r) (cutter r) (sentences r) (tpc r) b (audioPos r) (wpc r) (taken r).
Definition upd_audioPos n r := MkPrun (pl r) (done r) (sent r) (lpc r) (chunks r) (cpc r) (cutter r) (sentences r) (tpc r) (started r) n (wpc r) (taken r).
Definition upd_wpc w r := MkPrun (pl r) (done r) (sent r) (lpc r) (chunks r) (cpc r) (cutter r) (sentences r) (tpc r) (started r) (audioPos r) w (taken r).

(** The sentence a receiver takes; [taken] is ghost. *)
Definition take_sentence sn rest r := MkPrun (pl r) (done r) (sent r) (lpc r) (chunks r) (cpc r) (cutter r) rest (tpc r) (started r) (audioPos r) (wpc r) (taken r ++ [sn]).

(** ** Answers of the environment *)

(** [ok] is the outcome of the select of a send. *)
Inductive llm_answer :=
| Opened
| OpenFailed (e : perr) (ok : bool)
| Chunk (c : LLMChunk) (canceled ok : bool)
| StreamEnd (ok : bool)
| Pushed (ok : bool).

Inductive tts_answer :=
| Go (ok : bool)
| Call (r : option perr) (ok : bool)
| Read (c : AudioChunk) (ok : bool)
| ReadEOF
| ReadErr (e : perr) (ok : bool).

Inductive act :=
| ACancel
| ALlm (ans : llm_answer)
| ACut (ok : bool)
| ATts (ans : tts_answer)
| AWriter (r : option perr).

(** ** Sending *)

Definition send (ok : bool) (ev : Event) r : option (prun * bool) :=
  if ok then Some (upd_sent (sent r ++ [ev]) r, true)
  else if done r then Some (r, false) else None.

(** Cancellation is not a failure; the result of the send is ignored. *)
Definition fail (ok : bool) (stage : string) (e : perr) r : option prun :=
  if Canceled e then Some r
  else '(r, _) ← send ok (pipeError (p_gen (pl r)) stage (PE_Text e)) r; Some r.

(** ** The stages *)

Definition delta_event (p : pipeline) (text : string) : Event :=
  if p_textOnly p then EvOutputTextDelta (p_resp p) 0 (p_gen p) text
  else EvOutputAudioTranscriptDelta (p_resp p) 0 (p_gen p) text.

Definition llmStage (ans : llm_answer) r : option prun :=
  let g := p_gen (pl r) in
  let stop_ r := upd_lpc LStop r in
  match lpc r, ans with
  | LOpen, Opened => Some (upd_lpc LRecv r)
  | LOpen, OpenFailed e ok => stop_ <$> fail ok "llm" e r
  | LRecv, Chunk (LLMTextDelta text) _ ok =>
      '(r, delivered) ← send ok (delta_event (pl r) text) r;
      Some (upd_lpc (if delivered : bool then LPush text else LStop) r)
  | LRecv, Chunk (LLMToolCall call) _ ok =>
      '(r, delivered) ← send ok (pipeToolCall g call) r;
      Some (if delivered : bool then r else stop_ r)
  | LRecv, Chunk (LLMDone finish usage) _ ok =>
      '(r, _) ← send ok (pipeLLMDone g finish usage) r; Some (stop_ r)
  | LRecv, Chunk (LLMError err) canceled ok => stop_ <$> fail ok "llm" (MkPerr err canceled) r
  | LRecv, StreamEnd ok => stop_ <$> fail ok "llm" (MkPerr "llm stream ended without a Done chunk" false) r
  | LPush text, Pushed ok =>
      if ok then
        if zlen (chunks r) <? textChunkQueue then Some (upd_lpc LRecv (upd_chunks (chunks r ++ [text]) r)) else None
      else if done r then Some (stop_ r) else None
  | _, _ => None
  end.

Definition llm_stopped r : bool := match lpc r with LStop => true | _ => false end.
Definition cut_stopped r : bool := match cpc r with CStop => true | _ => false end.

Definition sentencerStage (ok : bool) r : option prun :=
  match cpc r with
  | CRecv =>
      match chunks r with
      | chunk :: rest =>
          let '(s, out) := push (cutter r) (bytes_of chunk) in
          Some (upd_cut (CEmit out false) s (upd_chunks rest r))
      | [] =>
          if llm_stopped r then
            let '(s, last) := flush (cutter r) in Some (upd_cut (CEmit (option_list last) true) s r)
          else None
      end
  | CEmit [] last => Some (upd_cut (if last then CStop else CRecv) (cutter r) r)
  | CEmit (sn :: out) last =>
      if ok then
        if zlen (sentences r) <? sentenceQueue
        then Some (upd_cut (CEmit out last) (cutter r) (upd_sentences (sentences r ++ [sn]) r)) else None
      else if done r then Some (upd_cut CStop (cutter r) r) else None
  | CStop => None
  end.

Definition trimmed_text (sn : sentence) : string := TrimSpace (string_of (S_Text sn)).
Definition is_empty (s : string) : bool := String.eqb s EmptyString.

(** [drain], one [ReadAudio] and its sends at a time. *)
Definition drain (k : option sentence) (total : Z) (ans : tts_answer) r : option prun :=
  let g := p_gen (pl r) in
  match ans with
  | ReadEOF => Some (upd_tpc (match k with Some sn => TSegment sn total | None => IWait end) r)
  | ReadErr e ok => upd_tpc TStop <$> fail ok "tts" e r
  | Read c ok =>
      '(r, delivered) ←
        (match Chunk_Alignment c with
         | [] => Some (r, true)
         | timings => send ok (pipeAlignment g timings) r
         end);
      Some (upd_tpc (if negb delivered then TStop
                     else if zlen (PCM c) =? 0 then TRead k total else TAudio k total (PCM c)) r)
  | _ => None
  end.

Definition ttsStage (ans : tts_answer) r : option prun :=
  let g := p_gen (pl r) in
  (* a provider call that may fail *)
  let call (next : prun) (e : option perr) (ok : bool) :=
    match e with None => Some next | Some e => upd_tpc TStop <$> fail ok "tts" e r end in
  (* a send whose failure ends the stage *)
  let send_then (ev : Event) (ok : bool) (next : prun -> prun) :=
    '(r, delivered) ← send ok ev r; Some (if delivered : bool then next r else upd_tpc TStop r) in
  match tpc r, ans with
  | TRecv, Go ok =>
      match sentences r with
      | sn :: rest =>
          let r := take_sentence sn rest r in
          Some (upd_tpc (if is_empty (trimmed_text sn) then TSegment sn 0
                         else if started r then TOpen sn else TStart sn) r)
      | [] => if cut_stopped r then '(r, _) ← send ok (pipeTTSDone g) r; Some (upd_tpc TStop r) else None
      end
  | TStart sn, Go ok => send_then (pipeTTSStart g) ok (fun r => upd_tpc (TOpen sn) (upd_started true r))
  | TOpen sn, Call e ok => call (upd_tpc (TWrite sn) r) e ok
  | TWrite sn, Call e ok => call (upd_tpc (TEnd sn) r) e ok
  | TEnd sn, Call e ok => call (upd_tpc (TRead (Some sn) 0) r) e ok
  | TRead k total, ans => drain k total ans r
  | TAudio k total pcm, Go ok =>
      let pcm := take (Z.to_nat (AlignDown (zlen pcm))) pcm in
      send_then (EvOutputAudioDelta (p_resp (pl r)) 0 g pcm) ok (upd_tpc (TRead k (total + zlen pcm)))
  | TSegment sn n, Go ok =>
      let pos := audioPos r + n in
      send_then (pipeSegment g {| textStart := Start sn; textEnd := End sn; audioStart := audioPos r; audioEnd := pos |})
        ok (fun r => upd_tpc TRecv (upd_audioPos pos r))
  | IStart, Go ok => send_then (pipeTTSStart g) ok (upd_tpc IOpen)
  | IOpen, Call e ok => call (upd_tpc (TRead None 0) (upd_wpc WRecv r)) e ok
  | IWait, Go ok =>
      match wpc r with
      | WDone (Some e) => upd_tpc TStop <$> fail ok "tts" e r
      | WDone None => '(r, _) ← send ok (pipeTTSDone g) r; Some (upd_tpc TStop r)
      | _ => None
      end
  | TDrop, Go _ =>
      match sentences r with
      | sn :: rest => Some (take_sentence sn rest r)
      | [] => if cut_stopped r then Some (upd_tpc TStop r) else None
      end
  | _, _ => None
  end.

(** The writer goroutine of [ttsIncremental]. *)
Definition ttsWriter (answer : option perr) r : option prun :=
  match wpc r with
  | WRecv =>
      match sentences r with
      | sn :: rest =>
          Some (upd_wpc (if is_empty (trimmed_text sn) then WRecv else WWrite (trimmed_text sn)) (take_sentence sn rest r))
      | [] => if cut_stopped r then Some (upd_wpc WEnd r) else None
      end
  | WWrite _ => Some (upd_wpc (match answer with Some e => WDone (Some e) | None => WRecv end) r)
  | WEnd => Some (upd_wpc (WDone answer) r)
  | _ => None
  end.

Definition pstep (a : act) r : option prun :=
  match a with
  | ACancel => Some (upd_done true r)
  | ALlm ans => llmStage ans r
  | ACut ok => sentencerStage ok r
  | ATts ans => ttsStage ans r
  | AWriter e => ttsWriter e r
  end.

(** [startPipeline] launched the goroutines; a text-only response drops its
    sentences. *)
Definition launch (p : pipeline) (caps : TTSCaps) : prun :=
  {| pl := p; done := false; sent := []; lpc := LOpen; chunks := []; cpc := CRecv; cutter := newSentencer;
     sentences := []; tpc := if p_textOnly p then TDrop else if IncrementalText caps then IStart else TRecv;
     started := false; audioPos := 0; wpc := WIdle; taken := [] |}.

Inductive preach (p : pipeline) (caps : TTSCaps) : prun -> Prop :=
| preach_launch : preach p caps (launch p caps)
| preach_step r a r' : preach p caps r -> pstep a r = Some r' -> preach p caps r'.

Fixpoint acts (l : list act) r : option prun :=
  match l with
  | [] => Some r
  | a :: l => pstep a r ≫= acts l
  end.

Lemma acts_preach p caps l : forall r r', preach p caps r -> acts l r = Some r' -> preach p caps r'.
Proof.
  induction l as [|a l IH]; intros r r' Hr; simpl; [by intros [= <-]|].
  intros (r1 & Hs & Hl)%bind_Some_inv. apply (IH r1); [|done]. by eapply preach_step.
Qed.

(** ** What one action sends *)

Lemma send_inv ok ev r r' b : send ok ev r = Some (r', b) ->
  (ok = true /\ b = true /\ r' = upd_sent (sent r ++ [ev]) r) \/ (b = false /\ done r = true /\ r' = r).
Proof. unfold send. destruct ok; [intros [= <- <-]; auto|]. destruct (done r); [intros [= <- <-]; auto|done]. Qed.

Lemma fail_inv ok stage e r r' : fail ok stage e r = Some r' ->
  r' = r \/ r' = upd_sent (sent r ++ [pipeError (p_gen (pl r)) stage (PE_Text e)]) r.
Proof.
  unfold fail. destruct (Canceled e); [intros [= <-]; auto|].
  intros ([r1 b] & Hs & [= <-])%bind_Some_inv. apply send_inv in Hs as [(_ & _ & ->)|(_ & _ & ->)]; auto.
Qed.

(** Case analysis on the outcome of every send and failure of a step. *)
Ltac step_inv :=
  repeat match goal with
  | H : Some _ = Some _ |- _ => injection H as H; subst
  | H : None = Some _ |- _ => discriminate H
  | H : (_ ≫= _) = Some _ |- _ => apply bind_Some_inv in H as (? & ? & ?)
  | H : (_ <$> _) = Some _ |- _ => apply fmap_Some in H as (? & ? & ?); subst
  | H : send _ _ _ = Some (_, _) |- _ => apply send_inv in H as [(? & ? & ?)|(? & ? & ?)]; subst
  | H : fail _ _ _ _ = Some _ |- _ => apply fail_inv in H as [?|?]; subst
  | H : (let '(_, _) := ?x in _) = Some _ |- _ => destruct x as [? ?] eqn:?
  | H : (match ?x with _ => _ end) = Some _ |- _ => destruct x eqn:?
  end.

(** The facts of the model's stream, those that end it, and the same for the
    synthesis. *)
Definition llm_fact (ev : Event) : bool :=
  match ev with
  | EvOutputTextDelta _ _ _ _ | EvOutputAudioTranscriptDelta _ _ _ _ | pipeToolCall _ _ | pipeLLMDone _ _ _ => true
  | pipeError _ stage _ => String.eqb stage "llm"
  | _ => false
  end.
Definition llm_final (ev : Event) : bool :=
  match ev with
  | pipeLLMDone _ _ _ => true
  | pipeError _ stage _ => String.eqb stage "llm"
  | _ => false
  end.
Definition tts_fact (ev : Event) : bool :=
  match ev with
  | EvOutputAudioDelta _ _ _ _ | pipeAlignment _ _ | pipeSegment _ _ | pipeTTSStart _ | pipeTTSDone _ => true
  | pipeError _ stage _ => String.eqb stage "tts"
  | _ => false
  end.
Definition tts_final (ev : Event) : bool :=
  match ev with
  | pipeTTSDone _ => true
  | pipeError _ stage _ => String.eqb stage "tts"
  | _ => false
  end.

Definition tts_stopped r : bool := match tpc r with TStop => true | _ => false end.

(** One action keeps the pipeline, appends at most one fact, and stops a stage
    when the fact is its last. *)
Record one_send r r' : Prop := {
  os_pl : pl r' = pl r;
  os_done : done r = true -> done r' = true;
  os_sent : sent r' = sent r \/ exists ev, sent r' = sent r ++ [ev] /\ sent_by (pl r) ev = true /\
    (llm_fact ev = true -> llm_stopped r = false) /\ (llm_final ev = true -> llm_stopped r' = true) /\
    (tts_fact ev = true -> tts_stopped r = false) /\ (tts_final ev = true -> tts_stopped r' = true);
  os_llm : llm_stopped r = true -> llm_stopped r' = true;
  os_tts : tts_stopped r = true -> tts_stopped r' = true
}.

Lemma sent_by_gen p ev : generation ev = Some (p_gen p) ->
  match event_resp ev with Some resp => resp = p_resp p | None => True end -> sent_by p ev = true.
Proof.
  unfold sent_by. intros Hg Hr. rewrite bool_decide_eq_true_2 by done. simpl.
  destruct (event_resp ev); [subst; apply Z.eqb_refl|done].
Qed.

Lemma delta_event_by p text : sent_by p (delta_event p text) = true /\
  llm_fact (delta_event p text) = true /\ llm_final (delta_event p text) = false /\
  tts_fact (delta_event p text) = false /\ tts_final (delta_event p text) = false.
Proof.
  unfold delta_event. destruct (p_textOnly p); (split; [by apply sent_by_gen|done]).
Qed.

Ltac send_case :=
  split; simpl; try done;
  first [by left | right; eexists; split; [reflexivity|]; (split; [by apply sent_by_gen|]); done].

Lemma llmStage_one_send ans r r' : llmStage ans r = Some r' -> one_send r r'.
Proof.
  unfold llmStage. intros H. destruct (lpc r) eqn:Hl; [| | |done].
  all: destruct ans; try done; step_inv.
  all: try (split; simpl; unfold llm_stopped, tts_stopped; simpl; rewrite ?Hl; try done; by left).
  all: split; simpl; unfold llm_stopped, tts_stopped; simpl; rewrite ?Hl; try done; right; eexists;
    (split; [reflexivity|]); try (split; [by apply sent_by_gen|done]).
  by destruct (delta_event_by (pl r) text) as (-> & -> & -> & -> & ->).
Qed.

Lemma sentencerStage_one_send ok r r' : sentencerStage ok r = Some r' -> one_send r r'.
Proof. unfold sentencerStage. intros H. step_inv; (split; simpl; try done; by left). Qed.

Lemma ttsWriter_one_send e r r' : ttsWriter e r = Some r' -> one_send r r'.
Proof. unfold ttsWriter. intros H. step_inv; (split; simpl; try done; by left). Qed.

Lemma ttsStage_one_send ans r r' : ttsStage ans r = Some r' -> one_send r r'.
Proof.
  unfold ttsStage, drain. intros H. destruct (tpc r) eqn:Ht; try done.
  all: destruct ans; try done; step_inv.
  all: try (split; simpl; unfold llm_stopped, tts_stopped; simpl; rewrite ?Ht; try done; by left).
  all: split; simpl; unfold llm_stopped, tts_stopped; simpl; rewrite ?Ht; try done; right; eexists;
    (split; [reflexivity|]); (split; [by apply sent_by_gen|done]).
Qed.

Lemma pstep_one_send a r r' : pstep a r = Some r' -> one_send r r'.
Proof.
  destruct a; simpl; [|apply llmStage_one_send|apply sentencerStage_one_send|apply ttsStage_one_send|apply ttsWriter_one_send].
  intros [= <-]. split; simpl; try done. by left.
Qed.

(** ** The ends of the two streams *)

(** Nothing of a stream follows its end. *)
Definition final_last (fact final : Event -> bool) (evs : list Event) : Prop :=
  forall pre ev post, evs = pre ++ ev :: post -> final ev = true -> Forall (fun e => fact e = false) post.

Lemma final_last_snoc fact final evs ev : final_last fact final evs ->
  (fact ev = true -> Forall (fun e => final e = false) evs) -> final_last fact final (evs ++ [ev]).
Proof.
  intros Hl Hev pre e post Heq Hf. destruct post as [|p post _] using rev_ind; [constructor|].
  assert (evs = pre ++ e :: post /\ ev = p) as [-> ->].
  { apply app_inj_tail. by rewrite Heq, <- app_assoc. }
  apply Forall_app. split; [by eapply Hl|]. constructor; [|done].
  destruct (fact p) eqn:Hp; [|done]. specialize (Hev eq_refl).
  apply Forall_app in Hev as [_ Hev]. apply Forall_cons in Hev as [Hev _]. congruence.
Qed.

Record ends_ok r : Prop := {
  en_sent : Forall (fun ev => sent_by (pl r) ev = true) (sent r);
  en_llm : final_last llm_fact llm_final (sent r);
  en_tts : final_last tts_fact tts_final (sent r);
  en_llm_open : llm_stopped r = false -> Forall (fun ev => llm_final ev = false) (sent r);
  en_tts_open : tts_stopped r = false -> Forall (fun ev => tts_final ev = false) (sent r)
}.

Lemma ends_ok_step r r' : one_send r r' -> ends_ok r -> ends_ok r'.
Proof.
  intros [Hp _ Hs Hl Ht] [He Hel Het Hlo Hto].
  assert (Hlo' : llm_stopped r' = false -> llm_stopped r = false) by (destruct (llm_stopped r); [rewrite Hl|]; auto).
  assert (Hto' : tts_stopped r' = false -> tts_stopped r = false) by (destruct (tts_stopped r); [rewrite Ht|]; auto).
  destruct Hs as [Hs|(ev & Hs & Hby & H1 & H2 & H3 & H4)]; split; rewrite Hs, ?Hp; auto.
  - apply Forall_app. split; [done|]. by constructor.
  - apply final_last_snoc; auto.
  - apply final_last_snoc; auto.
  - intros Hst. apply Forall_app. split; [auto|]. constructor; [|done].
    destruct (llm_final ev); [by rewrite H2 in Hst|done].
  - intros Hst. apply Forall_app. split; [auto|]. constructor; [|done].
    destruct (tts_final ev); [by rewrite H4 in Hst|done].
Qed.

Lemma ends_ok_preach p caps r : preach p caps r -> ends_ok r /\ pl r = p.
Proof.
  induction 1 as [|r a r' _ [IH Hp] Hs].
  - split; [|done]. split; simpl; try constructor; by intros [|].
  - apply pstep_one_send in Hs. split; [by eapply ends_ok_step|]. by rewrite (os_pl _ _ Hs).
Qed.

(** ** The text: what was sent is what the sentences cover *)

Definition delta_text (ev : Event) : list Z :=
  match ev with
  | EvOutputTextDelta _ _ _ d | EvOutputAudioTranscriptDelta _ _ _ d => bytes_of d
  | _ => []
  end.

(** The text the model produced, as bytes. *)
Definition text_of (evs : list Event) : list Z := concat (map delta_text evs).

Lemma text_of_snoc evs ev : text_of (evs ++ [ev]) = text_of evs ++ delta_text ev.
Proof. unfold text_of. rewrite map_app, concat_app. simpl. by rewrite app_nil_r. Qed.

Definition unpushed (l : llm_pc) : list Z := match l with LPush text => bytes_of text | _ => [] end.
Definition uncut (l : list string) : list Z := concat (map bytes_of l).
Definition unsent (c : cut_pc) : list sentence := match c with CEmit out _ => out | _ => [] end.
Definition flushed (c : cut_pc) : bool := match c with CEmit _ last => last | CStop => true | CRecv => false end.

(** Nothing was dropped: the text is what the sentences cover, then what the
    sentencer still buffers, then what is in the channel or about to be. *)
Record tiled r : Prop := {
  ti_wf : Sentencer.wf (cutter r);
  ti_text : exists t, text_of (sent r) = t ++ buf (cutter r) ++ uncut (chunks r) ++ unpushed (lpc r) /\
    tile 0 (taken r ++ sentences r ++ unsent (cpc r)) t /\ base (cutter r) = zlen t;
  ti_flushed : flushed (cpc r) = true -> llm_stopped r = true /\ buf (cutter r) = [] /\ chunks r = []
}.

(** Steps that do not touch the text. *)
Lemma tiled_frame r r' : tiled r -> cutter r' = cutter r -> text_of (sent r') = text_of (sent r) ->
  chunks r' = chunks r -> unpushed (lpc r') = unpushed (lpc r) -> cpc r' = cpc r ->
  taken r' ++ sentences r' = taken r ++ sentences r ->
  (llm_stopped r = true -> llm_stopped r' = true) -> tiled r'.
Proof.
  intros [Hw (t & Ht & Hti & Hb) Hf] E1 E2 E3 E4 E5 E6 E7. split; rewrite ?E1, ?E2, ?E3, ?E4, ?E5; [done| |].
  - exists t. by rewrite (app_assoc (taken r')), E6, <- (app_assoc (taken r)).
  - intros Hfl. destruct (Hf Hfl) as (? & ? & ?). auto.
Qed.

Lemma flush_spec s s' o : Sentencer.wf s -> flush s = (s', o) ->
  Sentencer.wf s' /\ buf s' = [] /\ tile (base s) (option_list o) (buf s) /\ base s' = base s + zlen (buf s).
Proof.
  intros [? ?]. unfold flush. case_match eqn:Hz; bool_arith; intros [= <- <-].
  - apply zlen_0_nil in Hz. rewrite Hz, zlen_nil, Z.add_0_r. done.
  - assert (Hfull : take (Z.to_nat (zlen (buf s))) (buf s) = buf s) by (apply take_ge; unfold zlen; lia).
    assert (Hd : drop (Z.to_nat (zlen (buf s))) (buf s) = []) by (apply drop_ge; unfold zlen; lia).
    pose proof (zlen_nonneg (buf s)). simpl. rewrite Hfull, Hd. split; [split; simpl; [split; [done|apply zlen_nonneg]|lia]|].
    repeat split; try lia. exists []. by rewrite app_nil_r.
Qed.

Lemma tiled_llm ans r r' : llmStage ans r = Some r' -> done r' = false -> tiled r -> tiled r'.
Proof.
  intros H Hd Ht. pose proof Ht as [Hw (t & Htx & Hti & Hb) Hf]. unfold llmStage in H.
  destruct (lpc r) eqn:Hl; try done; destruct ans; try done; step_inv; simpl in Hd; try congruence.
  all: try (apply (tiled_frame r); try done; simpl; rewrite ?text_of_snoc, ?Hl; simpl; rewrite ?app_nil_r; try done;
    by unfold llm_stopped; rewrite Hl).
  - split; simpl; [done| |intros Hfl; destruct (Hf Hfl) as (Hs & _); unfold llm_stopped in Hs; by rewrite Hl in Hs].
    exists t. rewrite text_of_snoc, Htx. simpl. rewrite app_nil_r, <- !app_assoc. repeat split; try done.
    unfold delta_event. by destruct (p_textOnly (pl r)).
  - split; simpl; [done| |intros Hfl; destruct (Hf Hfl) as (Hs & _); unfold llm_stopped in Hs; by rewrite Hl in Hs].
    exists t. rewrite Htx. unfold uncut. rewrite map_app, concat_app. simpl. by rewrite !app_nil_r.
Qed.

Lemma tiled_cut ok r r' : sentencerStage ok r = Some r' -> done r' = false -> tiled r -> tiled r'.
Proof.
  intros H Hd Ht. pose proof Ht as [Hw (t & Htx & Hti & Hb) Hf]. unfold sentencerStage in H.
  destruct (cpc r) as [|pend last|] eqn:Hc; [| |done]; step_inv; simpl in Hd; try congruence.
  - rewrite app_nil_r in Hti.
    match goal with H : flush _ = _ |- _ => apply flush_spec in H as (Hw' & Hb' & Hto & Hbs); [|done] end.
    split; simpl; [done| |by intros _].
    exists (t ++ buf (cutter r)). rewrite Hb'. simpl. rewrite <- app_assoc. rewrite Htx.
    match goal with H : chunks r = [] |- _ => rewrite H end. split; [done|].
    rewrite app_assoc, Hbs, Hb, zlen_app. split; [|done]. apply tile_app; [done|]. by rewrite <- Hb.
  - rewrite app_nil_r in Hti.
    match goal with H : push _ _ = _ |- _ => apply push_spec in H as (Hw' & _ & t' & Hbt & Hto & Hbs); [|done] end.
    split; simpl; [done| |done].
    exists (t ++ t'). rewrite Htx. change (uncut (s :: l)) with (bytes_of s ++ uncut l). split.
    + rewrite <- !app_assoc, (app_assoc (buf (cutter r))), Hbt. by rewrite <- !app_assoc.
    + rewrite app_assoc, Hbs, Hb, zlen_app. split; [|done]. apply tile_app; [done|]. by rewrite <- Hb.
  - split; simpl; [done| |by destruct last].
    exists t. by destruct last.
  - split; simpl; [done| |done]. exists t. by rewrite <- !app_assoc.
Qed.

Lemma tiled_tts ans r r' : ttsStage ans r = Some r' -> done r' = false -> tiled r -> tiled r'.
Proof.
  intros H Hd Ht. unfold ttsStage, drain in H.
  destruct (tpc r) eqn:Hpc; try done; destruct ans; try done; step_inv; simpl in Hd; try congruence;
    apply (tiled_frame _ _ Ht); try done; simpl; rewrite ?text_of_snoc; simpl; rewrite ?app_nil_r; try done;
    rewrite <- app_assoc; simpl; by match goal with H : sentences _ = _ |- _ => rewrite H end.
Qed.

Lemma tiled_writer e r r' : ttsWriter e r = Some r' -> done r' = false -> tiled r -> tiled r'.
Proof.
  intros H Hd Ht. unfold ttsWriter in H. step_inv; apply (tiled_frame _ _ Ht); try done; simpl;
    rewrite <- app_assoc; simpl; by match goal with H : sentences _ = _ |- _ => rewrite H end.
Qed.

Lemma tiled_preach p caps r : preach p caps r -> done r = false -> tiled r.
Proof.
  induction 1 as [|r a r' Hr IH Hs]; intros Hd.
  - split; simpl; [apply sentencer_wf_new| |done]. by exists [].
  - assert (Hd0 : done r = false).
    { pose proof (os_done _ _ (pstep_one_send _ _ _ Hs)) as Hm. destruct (done r); [by rewrite Hm in Hd|done]. }
    specialize (IH Hd0). destruct a; simpl in Hs;
      [by injection Hs as <-|by eapply tiled_llm|by eapply tiled_cut|by eapply tiled_tts|by eapply tiled_writer].
Qed.

(** ** The segments: text and audio of each sentence *)

Definition seg_of (ev : Event) : list audioSegment := match ev with pipeSegment _ seg => [seg] | _ => [] end.
Definition segs_of (evs : list Event) : list audioSegment := concat (map seg_of evs).
Definition audio_len (ev : Event) : Z := match ev with EvOutputAudioDelta _ _ _ pcm => zlen pcm | _ => 0 end.
Definition audio_bytes (evs : list Event) : Z := foldr (fun ev n => audio_len ev + n) 0 evs.

Lemma segs_of_snoc evs ev : segs_of (evs ++ [ev]) = segs_of evs ++ seg_of ev.
Proof. unfold segs_of. rewrite map_app, concat_app. simpl. by rewrite app_nil_r. Qed.

Lemma audio_bytes_snoc evs ev : audio_bytes (evs ++ [ev]) = audio_bytes evs + audio_len ev.
Proof. induction evs as [|e evs IH]; simpl; [lia|]. rewrite IH. lia. Qed.

(** [covers tpos apos segs tend aend]: contiguous segments from one pair of
    positions to the other. *)
Fixpoint covers (tpos apos : Z) (segs : list audioSegment) (tend aend : Z) : Prop :=
  match segs with
  | [] => tpos = tend /\ apos = aend
  | seg :: segs =>
      textStart seg = tpos /\ audioStart seg = apos /\ tpos <= textEnd seg /\ apos <= audioEnd seg /\
      covers (textEnd seg) (audioEnd seg) segs tend aend
  end.

(** The segments of the sentences [sns], from audio position [apos]. *)
Fixpoint segs_match (apos : Z) (sns : list sentence) (segs : list audioSegment) (aend : Z) : Prop :=
  match sns, segs with
  | [], [] => apos = aend
  | sn :: sns, seg :: segs =>
      textStart seg = Start sn /\ textEnd seg = End sn /\ audioStart seg = apos /\ apos <= audioEnd seg /\
      segs_match (audioEnd seg) sns segs aend
  | _, _ => False
  end.

Lemma segs_match_snoc apos sns segs aend sn n : 0 <= n -> segs_match apos sns segs aend ->
  segs_match apos (sns ++ [sn])
    (segs ++ [{| textStart := Start sn; textEnd := End sn; audioStart := aend; audioEnd := aend + n |}]) (aend + n).
Proof.
  intros Hn. revert apos segs. induction sns as [|sn0 sns IH]; intros apos [|seg segs]; simpl; try done.
  - intros ->. repeat split; lia.
  - intros (? & ? & ? & ? & ?). repeat split; auto.
Qed.

Lemma segs_match_covers sns : forall tpos apos segs aend txt,
  tile tpos sns txt -> segs_match apos sns segs aend -> covers tpos apos segs (tpos + zlen txt) aend.
Proof.
  induction sns as [|sn sns IH]; intros tpos apos [|seg segs] aend txt; simpl; try done.
  - intros -> ->. rewrite zlen_nil. split; lia.
  - intros (Hs & He & Hn & rest & -> & Hti) (H1 & H2 & H3 & H4 & H5).
    split; [congruence|]. split; [done|]. split; [lia|]. split; [done|].
    rewrite H2, zlen_app. replace (tpos + (zlen (S_Text sn) + zlen rest)) with (End sn + zlen rest) by lia. eauto.
Qed.

(** The sentence being synthesized and the audio it has so far, in the
    per-sentence mode; [None] outside that mode. *)
Definition current (t : tts_pc) : option (list sentence * Z) :=
  match t with
  | TRecv => Some ([], 0)
  | TStart sn | TOpen sn | TWrite sn | TEnd sn => Some ([sn], 0)
  | TRead (Some sn) n | TAudio (Some sn) n _ | TSegment sn n => Some ([sn], n)
  | _ => None
  end.

Definition has_done (evs : list Event) : Prop := exists g, pipeTTSDone g ∈ evs.

Record segmented r : Prop := {
  se_writer : wpc r = WIdle;
  se_run : match current (tpc r) with
    | Some (cur, n) => 0 <= n /\ ~ has_done (sent r) /\ audio_bytes (sent r) = audioPos r + n /\
        exists sns, taken r = sns ++ cur /\ segs_match 0 sns (segs_of (sent r)) (audioPos r)
    | None => tpc r = TStop /\ (has_done (sent r) -> audio_bytes (sent r) = audioPos r /\
        segs_match 0 (taken r) (segs_of (sent r)) (audioPos r) /\ cpc r = CStop /\ sentences r = [])
    end
}.

Lemma has_done_snoc evs ev : has_done (evs ++ [ev]) <-> has_done evs \/ exists g, ev = pipeTTSDone g.
Proof. unfold has_done. setoid_rewrite elem_of_app. setoid_rewrite list_elem_of_singleton. naive_solver. Qed.

(** Steps of the other goroutines: they send no fact of the synthesis. *)
Lemma segmented_frame r r' : segmented r -> wpc r' = wpc r -> tpc r' = tpc r -> taken r' = taken r ->
  audioPos r' = audioPos r ->
  (sent r' = sent r \/ exists ev, sent r' = sent r ++ [ev] /\ tts_fact ev = false) ->
  (cpc r = CStop -> cpc r' = CStop /\ sentences r' = sentences r) -> segmented r'.
Proof.
  intros [Hw Hr] E1 E2 E3 E4 Es Ec. split; [by rewrite E1|]. rewrite E2, E3, E4.
  assert (Hs : audio_bytes (sent r') = audio_bytes (sent r) /\ segs_of (sent r') = segs_of (sent r) /\
    (has_done (sent r') <-> has_done (sent r))).
  { destruct Es as [->|(ev & -> & Hf)]; [done|].
    rewrite audio_bytes_snoc, segs_of_snoc, has_done_snoc. destruct ev; try done;
      simpl; rewrite ?app_nil_r, ?Z.add_0_r; naive_solver. }
  destruct Hs as (-> & -> & Hd). destruct (current (tpc r)) as [[cur n]|]; [by rewrite Hd|].
  destruct Hr as [Ht Hr]. split; [done|]. rewrite Hd. intros Hdn. destruct (Hr Hdn) as (? & ? & Hc & Hq).
  destruct (Ec Hc) as [? ->]. done.
Qed.

Lemma segmented_llm ans r r' : llmStage ans r = Some r' -> segmented r -> segmented r'.
Proof.
  intros H Hs. pose proof (llmStage_one_send _ _ _ H) as [_ _ Hse _ _]. unfold llmStage in H.
  destruct (lpc r) eqn:Hl; try done; destruct ans; try done; step_inv;
    apply (segmented_frame _ _ Hs); try done; simpl.
  all: try (by left); right; eexists; (split; [reflexivity|]); try done.
  unfold delta_event. by destruct (p_textOnly _).
Qed.

Lemma segmented_cut ok r r' : sentencerStage ok r = Some r' -> segmented r -> segmented r'.
Proof.
  intros H Hs. unfold sentencerStage in H. destruct (cpc r) eqn:Hc; [| |done]; step_inv;
    (apply (segmented_frame _ _ Hs); try done; simpl; first [by left|by rewrite Hc]).
Qed.

(** A step within the synthesis of a sentence that sends nothing, or a fact
    that is neither audio, a segment nor the end. *)
Lemma segmented_within r r' cur n : segmented r -> current (tpc r) = Some (cur, n) ->
  current (tpc r') = Some (cur, n) -> wpc r' = wpc r -> taken r' = taken r -> audioPos r' = audioPos r ->
  (sent r' = sent r \/ exists ev, sent r' = sent r ++ [ev] /\ audio_len ev = 0 /\ seg_of ev = [] /\ tts_final ev = false) ->
  segmented r'.
Proof.
  intros [Hw Hr] Hc Hc' E1 E2 E3 Es. rewrite Hc in Hr. destruct Hr as (Hn & Hd & Ha & sns & Ht & Hm).
  split; [by rewrite E1|]. rewrite Hc', E2, E3. split; [done|].
  destruct Es as [->|(ev & -> & Hl & Hsg & Hf)]; [eauto 10|].
  rewrite has_done_snoc, audio_bytes_snoc, segs_of_snoc, Hl, Hsg, app_nil_r. split; [|split; [lia|eauto]].
  intros [?|[g ->]]; done.
Qed.

(** Stopping without reporting the end. *)
Lemma segmented_stop r r' cur n : segmented r -> current (tpc r) = Some (cur, n) -> tpc r' = TStop ->
  wpc r' = wpc r -> (sent r' = sent r \/ exists ev, sent r' = sent r ++ [ev] /\ forall g, ev <> pipeTTSDone g) ->
  segmented r'.
Proof.
  intros [Hw Hr] Hc Hc' E1 Es. rewrite Hc in Hr. destruct Hr as (_ & Hd & _).
  split; [by rewrite E1|]. rewrite Hc'. simpl. split; [done|]. intros Hdn. exfalso. apply Hd.
  destruct Es as [<-|(ev & Hs & Hne)]; [done|]. rewrite Hs, has_done_snoc in Hdn. naive_solver.
Qed.

Lemma segmented_drain k sn n ans r r' : current (tpc r) = Some ([sn], n) -> k = Some sn ->
  drain k n ans r = Some r' -> segmented r -> segmented r'.
Proof.
  intros Hc -> H Hs. unfold drain in H. destruct ans; try done; step_inv; simpl in *.
  all: try (by apply (segmented_stop _ _ _ _ Hs Hc); [..|left]);
    try (by apply (segmented_stop _ _ _ _ Hs Hc); [..|right; eexists; split; [reflexivity|]]);
    try (apply (segmented_within _ _ _ _ Hs Hc); try done; simpl; try (by left); by right; eexists).
  all: case_match; apply (segmented_within _ _ _ _ Hs Hc); try done; simpl; try (by left); by right; eexists.
Qed.

Ltac stops Hs Hc := first
  [ by apply (segmented_stop _ _ _ _ Hs Hc); [..|left]
  | by apply (segmented_stop _ _ _ _ Hs Hc); [..|right; eexists; split; [reflexivity|]] ].
Ltac within Hs Hc := apply (segmented_within _ _ _ _ Hs Hc); try done; simpl; first [by left|by right; eexists].

Lemma segmented_audio sn n pcm ok r r' : tpc r = TAudio (Some sn) n pcm -> ttsStage (Go ok) r = Some r' ->
  segmented r -> segmented r'.
Proof.
  intros Hpc H Hs. assert (Hc : current (tpc r) = Some ([sn], n)) by by rewrite Hpc.
  unfold ttsStage in H. rewrite Hpc in H. step_inv; [|by stops Hs Hc].
  destruct Hs as [Hw Hr]. rewrite Hc in Hr. destruct Hr as (Hn & Hd & Ha & sns & Ht & Hm).
  split; [done|]. simpl. rewrite has_done_snoc, audio_bytes_snoc, segs_of_snoc. simpl. rewrite app_nil_r.
  set (p := take _ _). pose proof (zlen_nonneg p). split; [lia|]. split; [naive_solver|]. split; [lia|]. eauto.
Qed.

Lemma segmented_segment sn n ok r r' : tpc r = TSegment sn n -> ttsStage (Go ok) r = Some r' ->
  segmented r -> segmented r'.
Proof.
  intros Hpc H Hs. assert (Hc : current (tpc r) = Some ([sn], n)) by by rewrite Hpc.
  unfold ttsStage in H. rewrite Hpc in H. step_inv; [|by stops Hs Hc].
  destruct Hs as [Hw Hr]. rewrite Hc in Hr. destruct Hr as (Hn & Hd & Ha & sns & Ht & Hm).
  split; [done|]. simpl. rewrite has_done_snoc, audio_bytes_snoc, segs_of_snoc. simpl. rewrite !Z.add_0_r.
  split; [done|]. split; [naive_solver|]. split; [done|].
  exists (sns ++ [sn]). rewrite app_nil_r. split; [done|]. by apply segs_match_snoc.
Qed.

Lemma segmented_recv ok r r' : tpc r = TRecv -> ttsStage (Go ok) r = Some r' -> segmented r -> segmented r'.
Proof.
  intros Hpc H Hs. assert (Hc : current (tpc r) = Some ([], 0)) by by rewrite Hpc.
  unfold ttsStage in H. rewrite Hpc in H. destruct (sentences r) as [|sn rest] eqn:Hq.
  - destruct (cut_stopped r) eqn:Hcs; [|done]. step_inv; [|by stops Hs Hc].
    destruct Hs as [Hw Hr]. rewrite Hc in Hr. destruct Hr as (_ & Hd & Ha & sns & Ht & Hm).
    split; [done|]. simpl. split; [done|]. intros _.
    rewrite audio_bytes_snoc, segs_of_snoc, Ht. simpl. rewrite !app_nil_r.
    split; [lia|]. split; [done|]. split; [|done]. unfold cut_stopped in Hcs. by destruct (cpc r).
  - injection H as <-. destruct Hs as [Hw Hr]. rewrite Hc in Hr. destruct Hr as (Hn & Hd & Ha & sns & Ht & Hm).
    assert (Hcur : forall t, t = TSegment sn 0 \/ t = TOpen sn \/ t = TStart sn -> current t = Some ([sn], 0))
      by by intros t [->|[->| ->]].
    split; [done|]. simpl. rewrite Hcur by (repeat case_match; auto).
    split; [done|]. split; [done|]. split; [done|]. exists sns. by rewrite Ht, app_nil_r.
Qed.

Lemma segmented_tts ans r r' : ttsStage ans r = Some r' -> segmented r -> segmented r'.
Proof.
  intros H Hs. pose proof (se_run _ Hs) as Hr.
  destruct (tpc r) as [|sn|sn|sn|sn|[sn|] n|[sn|] n pcm|sn n| | | | |] eqn:Hpc; try (by destruct Hr).
  all: try (destruct ans; unfold ttsStage in H; rewrite Hpc in H; done).
  - destruct ans; try (by unfold ttsStage in H; rewrite Hpc in H). by eapply segmented_recv.
  - assert (Hc : current (tpc r) = Some ([sn], 0)) by by rewrite Hpc.
    unfold ttsStage in H. rewrite Hpc in H. destruct ans; try done. step_inv; [by within Hs Hc|by stops Hs Hc].
  - assert (Hc : current (tpc r) = Some ([sn], 0)) by by rewrite Hpc.
    unfold ttsStage in H. rewrite Hpc in H. destruct ans; try done. step_inv; [by stops Hs Hc..|by within Hs Hc].
  - assert (Hc : current (tpc r) = Some ([sn], 0)) by by rewrite Hpc.
    unfold ttsStage in H. rewrite Hpc in H. destruct ans; try done. step_inv; [by stops Hs Hc..|by within Hs Hc].
  - assert (Hc : current (tpc r) = Some ([sn], 0)) by by rewrite Hpc.
    unfold ttsStage in H. rewrite Hpc in H. destruct ans; try done. step_inv; [by stops Hs Hc..|by within Hs Hc].
  - assert (Hc : current (tpc r) = Some ([sn], n)) by by rewrite Hpc.
    unfold ttsStage in H. rewrite Hpc in H. by eapply segmented_drain.
  - destruct ans; try (by unfold ttsStage in H; rewrite Hpc in H). by eapply segmented_audio.
  - destruct ans; try (by unfold ttsStage in H; rewrite Hpc in H). by eapply segmented_segment.
Qed.

Lemma segmented_preach p caps r : p_textOnly p = false -> IncrementalText caps = false ->
  preach p caps r -> segmented r.
Proof.
  intros Ht Hi. induction 1 as [|r a r' Hr IH Hs].
  - unfold launch. rewrite Ht, Hi. split; simpl; [done|]. split; [done|]. split; [intros [g Hg]; by apply elem_of_nil in Hg|].
    split; [done|]. by exists [].
  - destruct a; simpl in Hs; [|by eapply segmented_llm|by eapply segmented_cut|by eapply segmented_tts|].
    + injection Hs as <-. apply (segmented_frame _ _ IH); try done. by left.
    + unfold ttsWriter in Hs. by rewrite (se_writer _ IH) in Hs.
Qed.

(** ** Stopping *)

Lemma acts_app l1 l2 r r1 : acts l1 r = Some r1 -> acts (l1 ++ l2) r = acts l2 r1.
Proof.
  revert r. induction l1 as [|a l1 IH]; intros r; simpl; [by intros [= ->]|].
  intros (r2 & Hs & Hl)%bind_Some_inv. rewrite Hs. simpl. by apply IH.
Qed.

(** [reaches r P]: some actions lead from [r] to a state of [P]. *)
Definition reaches r (P : prun -> Prop) : Prop := exists l r', acts l r = Some r' /\ P r'.

Lemma reaches_here r (P : prun -> Prop) : P r -> reaches r P.
Proof. intros. by exists [], r. Qed.

Lemma reaches_step a r r1 (P : prun -> Prop) : pstep a r = Some r1 -> reaches r1 P -> reaches r P.
Proof. intros Hs (l & r' & Hl & HP). exists (a :: l), r'. split; [|done]. simpl. by rewrite Hs. Qed.

Lemma reaches_trans r (P Q : prun -> Prop) : reaches r P -> (forall r', P r' -> reaches r' Q) -> reaches r Q.
Proof.
  intros (l & r1 & Hl & HP) HQ. destruct (HQ _ HP) as (l' & r' & Hl' & ?).
  exists (l ++ l'), r'. by rewrite (acts_app _ _ _ _ Hl).
Qed.

(** The error a provider returns once its context is cancelled. *)
Definition cancel_err : perr := MkPerr "context canceled" true.

(** The synthesis waits for its writer only after starting it. *)
Definition writer_ok r : Prop :=
  match tpc r with TRead None _ | TAudio None _ _ | IWait => wpc r <> WIdle | _ => True end.

Lemma writer_ok_step a r r' : pstep a r = Some r' -> writer_ok r -> writer_ok r'.
Proof.
  unfold writer_ok. destruct a; simpl.
  - by intros [= <-].
  - intros H Hw. unfold llmStage in H. destruct (lpc r); destruct ans; step_inv; done.
  - intros H Hw. unfold sentencerStage in H. step_inv; done.
  - intros H Hw. unfold ttsStage, drain in H.
    destruct (tpc r) eqn:Hpc; try done; destruct ans; try done; step_inv; simpl; try done; try (by destruct k);
      try (by destruct (_ =? _), k); by repeat case_match; simplify_eq.
  - intros H Hw. unfold ttsWriter in H. step_inv; simpl; repeat case_match; done.
Qed.

Lemma writer_ok_preach p caps r : preach p caps r -> writer_ok r.
Proof.
  induction 1 as [|r a r' _ IH Hs]; [|by eapply writer_ok_step].
  unfold launch, writer_ok. simpl. by repeat case_match.
Qed.

(** Reaching a state with [P] while the context stays done and the writer
    discipline holds. *)
Definition stopping (P : prun -> Prop) r : Prop := done r = true /\ writer_ok r /\ P r.

Lemma stopping_step a r r1 (P Q : prun -> Prop) : stopping P r -> pstep a r = Some r1 ->
  (stopping (fun _ => True) r1 -> reaches r1 (stopping Q)) -> reaches r (stopping Q).
Proof.
  intros (Hd & Hw & _) Hs HQ. eapply reaches_step; [exact Hs|]. apply HQ.
  split; [by apply (os_done _ _ (pstep_one_send _ _ _ Hs))|]. split; [by eapply writer_ok_step|done].
Qed.

Lemma stop_llm r : stopping (fun _ => True) r -> reaches r (stopping (fun r => lpc r = LStop)).
Proof.
  intros Hst. pose proof Hst as (Hd & Hw & _).
  destruct (lpc r) eqn:Hl; [| | |by apply reaches_here].
  - eapply (stopping_step (ALlm (OpenFailed cancel_err false)) _ _ _ _ Hst); [simpl; unfold llmStage; by rewrite Hl|].
    intros (? & ? & _). by apply reaches_here.
  - eapply (stopping_step (ALlm (Chunk (LLMError EmptyString) true false)) _ _ _ _ Hst); [simpl; unfold llmStage; by rewrite Hl|].
    intros (? & ? & _). by apply reaches_here.
  - eapply (stopping_step (ALlm (Pushed false)) _ _ _ _ Hst); [simpl; unfold llmStage; by rewrite Hl, Hd|].
    intros (? & ? & _). by apply reaches_here.
Qed.

Lemma stop_cut r : stopping (fun r => lpc r = LStop) r -> reaches r (stopping (fun r => cpc r = CStop)).
Proof.
  remember (length (chunks r)) as n eqn:Hn. revert r Hn.
  induction n as [n IH] using lt_wf_ind. intros r Hn (Hd & Hw & Hl).
  assert (Hst : stopping (fun _ => True) r) by done.
  (* from the sentences in hand *)
  assert (Hemit : forall r pend last, stopping (fun _ => True) r -> lpc r = LStop -> cpc r = CEmit pend last ->
    (last = false -> (length (chunks r) < n)%nat) -> reaches r (stopping (fun r => cpc r = CStop))).
  { clear r Hn Hd Hw Hl Hst. intros r pend last Hst Hl Hc Hlt. pose proof Hst as (Hd & Hw & _).
    destruct pend as [|sn pend].
    - eapply (stopping_step (ACut false) _ _ _ _ Hst); [simpl; unfold sentencerStage; by rewrite Hc|].
      intros (? & ? & _). destruct last; [by apply reaches_here|]. by eapply IH; [apply Hlt|..].
    - eapply (stopping_step (ACut false) _ _ _ _ Hst); [simpl; unfold sentencerStage; by rewrite Hc, Hd|].
      intros (? & ? & _). by apply reaches_here. }
  destruct (cpc r) as [|pend last|] eqn:Hc; [| |by apply reaches_here].
  - destruct (chunks r) as [|chunk rest] eqn:Hq.
    + destruct (flush (cutter r)) as [s o] eqn:Hf.
      eapply (stopping_step (ACut false) _ _ _ _ Hst).
      { simpl. unfold sentencerStage, llm_stopped. by rewrite Hc, Hq, Hl, Hf. }
      intros Hst'. by eapply (Hemit _ (option_list o) true).
    + destruct (push (cutter r) (bytes_of chunk)) as [s out] eqn:Hp.
      eapply (stopping_step (ACut false) _ _ _ _ Hst).
      { simpl. unfold sentencerStage. by rewrite Hc, Hq, Hp. }
      intros Hst'. eapply (Hemit _ out false); try done. simpl in *. lia.
  - destruct pend as [|sn pend].
    + eapply (stopping_step (ACut false) _ _ _ _ Hst); [simpl; unfold sentencerStage; by rewrite Hc|].
      intros Hst'. destruct last; [by destruct Hst' as (? & ? & _); apply reaches_here|].
      destruct (chunks r) as [|chunk rest] eqn:Hq.
      * destruct (flush (cutter r)) as [s o] eqn:Hf. eapply (stopping_step (ACut false) _ _ _ _ Hst').
        { simpl. unfold sentencerStage, llm_stopped. simpl. by rewrite Hq, Hl, Hf. }
        intros Hst2. by eapply (Hemit _ (option_list o) true).
      * destruct (push (cutter r) (bytes_of chunk)) as [s out] eqn:Hp.
        eapply (stopping_step (ACut false) _ _ _ _ Hst').
        { simpl. unfold sentencerStage. simpl. by rewrite Hq, Hp. }
        intros Hst2. eapply (Hemit _ out false); try done. simpl in *. lia.
    + eapply (stopping_step (ACut false) _ _ _ _ Hst); [simpl; unfold sentencerStage; by rewrite Hc, Hd|].
      intros (? & ? & _). by apply reaches_here.
Qed.

Definition writer_stopped r : bool := match wpc r with WIdle | WDone _ => true | _ => false end.

Lemma stop_writer r : stopping (fun r => cpc r = CStop) r ->
  reaches r (stopping (fun r => cpc r = CStop /\ writer_stopped r = true)).
Proof.
  remember (length (sentences r)) as n eqn:Hn. revert r Hn.
  induction n as [n IH] using lt_wf_ind. intros r Hn (Hd & Hw & Hc).
  assert (Hst : stopping (fun _ => True) r) by done.
  destruct (wpc r) as [| |text| |o] eqn:Hp; try (by apply reaches_here; unfold stopping, writer_stopped; rewrite Hp).
  - destruct (sentences r) as [|sn rest] eqn:Hq.
    + eapply (stopping_step (AWriter None) _ _ _ _ Hst).
      { simpl. unfold ttsWriter, cut_stopped. by rewrite Hp, Hq, Hc. }
      intros Hst'. eapply (stopping_step (AWriter None) _ _ _ _ Hst'); [done|].
      intros (? & ? & _). by apply reaches_here.
    + eapply (stopping_step (AWriter None) _ _ _ _ Hst).
      { simpl. unfold ttsWriter. by rewrite Hp, Hq. }
      intros Hst'. destruct (is_empty (trimmed_text sn)).
      * destruct Hst' as (? & ? & _). eapply IH; [|done|done]. simpl in *. lia.
      * eapply (stopping_step (AWriter (Some cancel_err)) _ _ _ _ Hst'); [done|].
        intros (? & ? & _). by apply reaches_here.
  - eapply (stopping_step (AWriter (Some cancel_err)) _ _ _ _ Hst).
    { simpl. unfold ttsWriter. by rewrite Hp. }
    intros (? & ? & _). by apply reaches_here.
  - eapply (stopping_step (AWriter None) _ _ _ _ Hst).
    { simpl. unfold ttsWriter. by rewrite Hp. }
    intros (? & ? & _). by apply reaches_here.
Qed.

Lemma stop_tts r : stopping (fun r => cpc r = CStop /\ writer_stopped r = true) r ->
  reaches r (fun r => tts_stopped r = true /\ cpc r = CStop /\ writer_stopped r = true).
Proof.
  remember (length (sentences r)) as n eqn:Hn. revert r Hn.
  induction n as [n IH] using lt_wf_ind. intros r Hn (Hd & Hw & Hc & Hws).
  assert (Hone : forall ans, ttsStage ans r = Some (upd_tpc TStop r) ->
    reaches r (fun r => tts_stopped r = true /\ cpc r = CStop /\ writer_stopped r = true)).
  { intros ans Ha. eapply (reaches_step (ATts ans)); [exact Ha|]. by apply reaches_here. }
  (* from a state of the per-sentence loop *)
  assert (Htwo : forall ans r1 ans2, ttsStage ans r = Some r1 -> ttsStage ans2 r1 = Some (upd_tpc TStop r1) ->
    cpc r1 = CStop -> writer_stopped r1 = true ->
    reaches r (fun r => tts_stopped r = true /\ cpc r = CStop /\ writer_stopped r = true)).
  { intros ans r1 ans2 H1 H2 ? ?. eapply (reaches_step (ATts ans)); [exact H1|].
    eapply (reaches_step (ATts ans2)); [exact H2|]. by apply reaches_here. }
  destruct (tpc r) as [|sn|sn|sn|sn|k m|k m pcm|sn m| | | | |] eqn:Ht.
  - destruct (sentences r) as [|sn rest] eqn:Hq.
    + apply (Hone (Go false)). unfold ttsStage, cut_stopped, send. rewrite Ht, Hq, Hc. simpl. by rewrite Hd.
    + destruct (is_empty (trimmed_text sn)) eqn:He; [|destruct (started r) eqn:Hs].
      * eapply (Htwo (Go false) _ (Go false)); [unfold ttsStage; rewrite Ht, Hq, He; reflexivity| |done|done].
        unfold ttsStage, send. simpl. by rewrite Hd.
      * eapply (Htwo (Go false) _ (Call (Some cancel_err) false));
          [unfold ttsStage; rewrite Ht, Hq, He; simpl; rewrite Hs; reflexivity|done|done|done].
      * eapply (Htwo (Go false) _ (Go false));
          [unfold ttsStage; rewrite Ht, Hq, He; simpl; rewrite Hs; reflexivity| |done|done].
        unfold ttsStage, send. simpl. by rewrite Hd.
  - apply (Hone (Go false)). unfold ttsStage, send. by rewrite Ht, Hd.
  - apply (Hone (Call (Some cancel_err) false)). unfold ttsStage. by rewrite Ht.
  - apply (Hone (Call (Some cancel_err) false)). unfold ttsStage. by rewrite Ht.
  - apply (Hone (Call (Some cancel_err) false)). unfold ttsStage. by rewrite Ht.
  - apply (Hone (ReadErr cancel_err false)). unfold ttsStage, drain. by rewrite Ht.
  - apply (Hone (Go false)). unfold ttsStage, send. by rewrite Ht, Hd.
  - apply (Hone (Go false)). unfold ttsStage, send. by rewrite Ht, Hd.
  - apply (Hone (Go false)). unfold ttsStage, send. by rewrite Ht, Hd.
  - apply (Hone (Call (Some cancel_err) false)). unfold ttsStage. by rewrite Ht.
  - unfold writer_ok, writer_stopped in *. rewrite Ht in Hw.
    destruct (wpc r) as [| | | |[e|]] eqn:Hp; try done; apply (Hone (Go false));
      unfold ttsStage, fail, send; rewrite Ht, Hp, ?Hd; simpl; by repeat case_match.
  - destruct (sentences r) as [|sn rest] eqn:Hq.
    + apply (Hone (Go false)). unfold ttsStage, cut_stopped. by rewrite Ht, Hq, Hc.
    + eapply (reaches_step (ATts (Go false)) _ (take_sentence sn rest r)).
      { simpl. unfold ttsStage. by rewrite Ht, Hq. }
      eapply (IH (length rest)); [rewrite Hn; simpl; lia|done|].
      unfold stopping, writer_ok. simpl. by rewrite Ht.
  - apply reaches_here. unfold tts_stopped. by rewrite Ht.
Qed.

(** ** Properties *)

(** C12. Everything a pipeline sends is a fact of its own generation and
    response, the kind of input the actor admits; and each of its two streams
    ends at most once: no text or tool call follows the model's completion or
    failure, and no audio, alignment or segment follows the completion or
    failure of the synthesis. *)
Theorem pipeline_facts_well_formed p caps r : preach p caps r ->
  Forall (fun ev => sent_by p ev = true) (sent r) /\
  final_last llm_fact llm_final (sent r) /\ final_last tts_fact tts_final (sent r).
Proof. intros [[? ? ? _ _] <-]%ends_ok_preach. done. Qed.

(** C11. With a provider that synthesizes sentence by sentence, once an
    uncancelled pipeline reports the synthesis complete, the segments it sent
    cover exactly the text it sent and the audio it sent: they start at
    position 0, each begins where the previous one ends in both, and they end
    at the last byte of text and of audio. Tool calls are no text. *)
Theorem segments_tile_the_output p caps r :
  p_textOnly p = false -> IncrementalText caps = false -> preach p caps r ->
  done r = false -> pipeTTSDone (p_gen p) ∈ sent r ->
  covers 0 0 (segs_of (sent r)) (zlen (text_of (sent r))) (audio_bytes (sent r)).
Proof.
  intros Ht Hi Hr Hd Hin. pose proof (segmented_preach _ _ _ Ht Hi Hr) as [_ Hs].
  pose proof (tiled_preach _ _ _ Hr Hd) as [_ (t & Htx & Hti & _) Hf].
  assert (Hdn : has_done (sent r)) by by exists (p_gen p).
  destruct (current (tpc r)) as [[cur n]|]; [by destruct Hs as (_ & Hn & _)|].
  destruct Hs as [_ Hs]. destruct (Hs Hdn) as (Ha & Hm & Hc & Hq).
  destruct Hf as (Hl & Hb & Hch); [by rewrite Hc|].
  assert (text_of (sent r) = t) as ->.
  { rewrite Htx, Hb, Hch. unfold llm_stopped in Hl. destruct (lpc r); [done|done|done|]. simpl. by rewrite app_nil_r. }
  rewrite Hc, Hq in Hti. simpl in Hti. rewrite app_nil_r in Hti.
  rewrite Ha. by apply (segs_match_covers (taken r) 0 0 _ _ t).
Qed.

(** A cancelled pipeline can always stop: whatever its goroutines were
    doing, they can all return with nothing further delivered, given that the
    providers return once their context is done, so waiting for the pipelines
    at shutdown ends. *)
Theorem cancelled_pipeline_stops p caps r : preach p caps r -> done r = true ->
  exists l r', acts l r = Some r' /\ lpc r' = LStop /\ cpc r' = CStop /\ tpc r' = TStop /\
    (wpc r' = WIdle \/ exists e, wpc r' = WDone e).
Proof.
  intros Hr Hd. assert (Hw : writer_ok r) by by eapply writer_ok_preach.
  assert (Hll : reaches r (fun r => llm_stopped r = true /\ tts_stopped r = true /\ cpc r = CStop /\ writer_stopped r = true)).
  { eapply reaches_trans; [by apply stop_llm|]. intros r1 (Hd1 & Hw1 & Hl1).
    assert (Hkeep : forall P, reaches r1 P -> reaches r1 (fun r => llm_stopped r = true /\ P r)).
    { intros P (l & r' & Hl & HP). exists l, r'. split; [done|]. split; [|done].
      assert (H1 : llm_stopped r1 = true) by (unfold llm_stopped; by rewrite Hl1).
      clear - Hl H1. revert r1 Hl H1. induction l as [|a l IH]; intros r1; simpl; [by intros [= ->]|].
      intros (r2 & Hs & Hl)%bind_Some_inv H1. apply (IH r2); [done|].
      by apply (os_llm _ _ (pstep_one_send _ _ _ Hs)). }
    apply Hkeep. eapply reaches_trans; [by apply stop_cut|]. intros r2 Hst2.
    eapply reaches_trans; [by apply stop_writer|]. intros r3 Hst3. by apply stop_tts. }
  destruct Hll as (l & r' & Hl & H1 & H2 & H3 & H4). exists l, r'. split; [done|].
  unfold llm_stopped, tts_stopped, writer_stopped in *.
  destruct (lpc r'), (tpc r'), (wpc r'); try done; eauto 10.
Qed.

(** ** A pipeline on a short answer *)

Definition demo_pipeline : pipeline :=
  {| p_gen := 1; p_resp := 1; p_textOnly := false;
     p_req := {| Req_Instructions := EmptyString; Req_Messages := []; Req_MaxOutputTokens := 0;
                 Req_Temperature := None; Req_Tools := None;
                 Req_ToolChoice := {| Mode := EmptyString; TC_Name := EmptyString |} |};
     p_ttsCfg := {| TTS_Voice := EmptyString; TTS_Speed := SpeedMax; TTS_SampleRate := SampleRate |} |}.

Definition sentence_caps : TTSCaps := {| IncrementalText := false; Alignment := false |}.

(** "Hi there. Bye" in two deltas, a tool call between them; two sentences of
    two and four bytes of audio. *)
Definition demo_acts : list act :=
  [ ALlm Opened; ALlm (Chunk (LLMTextDelta "Hi there. ") false true); ALlm (Pushed true);
    ALlm (Chunk (LLMToolCall (MkToolCall "call_1" "look" "{}")) false true);
    ALlm (Chunk (LLMTextDelta "Bye") false true); ALlm (Pushed true);
    ALlm (Chunk (LLMDone FinishStop (MkUsage 3 2)) false true);
    ACut true; ACut true; ACut true; ACut true; ACut true; ACut true; ACut true; ACut true;
    ATts (Go true); ATts (Go true); ATts (Call None true); ATts (Call None true); ATts (Call None true);
    ATts (Read (MkAudioChunk [1; 2; 3] []) true); ATts (Go true); ATts ReadEOF; ATts (Go true);
    ATts (Go true); ATts (Call None true); ATts (Call None true); ATts (Call None true);
    ATts (Read (MkAudioChunk [1; 2; 3; 4] []) true); ATts (Go true); ATts ReadEOF; ATts (Go true);
    ATts (Go true) ]%string.

Definition spoken_run : prun := default (launch demo_pipeline sentence_caps) (acts demo_acts (launch demo_pipeline sentence_caps)).

Lemma spoken_run_preach : preach demo_pipeline sentence_caps spoken_run.
Proof. apply (acts_preach _ _ demo_acts (launch demo_pipeline sentence_caps)); [constructor|by vm_compute]. Qed.

Lemma pipeline_facts_well_formed_witness : final_last tts_fact tts_final (sent spoken_run).
Proof. apply (pipeline_facts_well_formed demo_pipeline sentence_caps spoken_run spoken_run_preach). Defined.

Lemma segments_tile_the_output_witness :
  length (segs_of (sent spoken_run)) = 2%nat /\ covers 0 0 (segs_of (sent spoken_run)) 13 6.
Proof.
  split; [by vm_compute|].
  refine (segments_tile_the_output demo_pipeline sentence_caps spoken_run eq_refl eq_refl spoken_run_preach _ _).
  - by vm_compute.
  - change (p_gen demo_pipeline) with 1.
    replace (sent spoken_run) with (take 9 (sent spoken_run) ++ [pipeTTSDone 1]) by by vm_compute.
    apply elem_of_app. right. by left.
Defined.

(** The same pipeline cancelled at once. *)
Definition cancelled_run : prun := upd_done true (launch demo_pipeline sentence_caps).

Lemma cancelled_run_preach : preach demo_pipeline sentence_caps cancelled_run.
Proof. eapply (preach_step _ _ _ ACancel); [constructor|done]. Qed.

Lemma cancelled_pipeline_stops_witness : exists l r', acts l cancelled_run = Some r' /\ tpc r' = TStop.
Proof.
  destruct (cancelled_pipeline_stops demo_pipeline sentence_caps cancelled_run cancelled_run_preach eq_refl)
    as (l & r' & Hl & _ & _ & Ht & _). exists l, r'. split; [exact Hl|exact Ht].
Defined.
