(* ===== verification/Decode.v ===== *)
(** * Decoding client events ([internal/protocol/decode.go])

    A client frame, parsed, is a [json] value; the decoders turn it into a
    session command's payload or a [wireErr]. The message text of a [wireErr] is
    not modelled; its code and the offending parameter are. An [obj] keeps its
    members in the order the Go map iterates them, which Go does not specify:
    which of several unknown keys an error names depends on it, whether there is
    an error does not.

    What [encoding/json] does with a value of another type is written out per
    target: null decodes into a string, number or boolean as its zero value and
    is rejected for an object or array.

    Shown: the base64 codec round trips; an accepted session.update sets
    exactly the fields its document mentions and its document has only known
    keys. *)

From S2P Require Export Audio Types.
From Stdlib Require Import QArith Ascii.
#[local] Open Scope string_scope.
#[local] Open Scope Z_scope.

(** ** Errors *)

Definition codeInvalidEvent := "invalid_event".
Definition codeInvalidValue := "invalid_value".
Definition typeInvalidReq := "invalid_request_error".
Definition typeServerErr := "server_error".

Record wireErr := MkWireErr { we_code : string; we_param : string }.

#[export] Instance wireErr_eq_dec : EqDecision wireErr.
Proof. solve_decision. Defined.

Inductive result (A : Type) := Ok (v : A) | Err (e : wireErr).
Arguments Ok {A} v.
Arguments Err {A} e.

Definition bind_result {A B} (r : result A) (f : A -> result B) : result B :=
  match r with Ok v => f v | Err e => Err e end.

(** "v, err := e; if err != nil { return ..., err }" *)
Notation "'let?' x := e 'in' k" := (bind_result e (fun x => k))
  (at level 10, x pattern, e at level 100, k at level 200).

Definition invalidEvent {A} (param : string) : result A := Err (MkWireErr codeInvalidEvent param).
Definition invalidValue {A} (param : string) : result A := Err (MkWireErr codeInvalidValue param).
Definition unknownParam {A} (path : string) : result A := invalidValue path.
Definition unsupportedParam {A} (path : string) : result A := invalidValue path.
Definition missingParam {A} (path : string) : result A := invalidValue path.
Definition wrongType {A} (path : string) : result A := invalidValue path.
Definition unsupportedValue {A} (path : string) : result A := invalidValue path.

(** "if bad { return err }" *)
Definition fail_if (bad : bool) (e : result unit) : result unit := if bad then e else Ok tt.

(** A required member. *)
Definition require {A} (o : option A) (path : string) : result A :=
  match o with Some v => Ok v | None => missingParam path end.

(** ** Objects *)

Record obj := MkObj { path : string; m : list (string * json) }.

(** Of members with one name, the last counts. *)
Definition last_wins (l : list (string * json)) : list (string * json) :=
  foldr (fun kv acc => if existsb (fun kv' => String.eqb kv.1 kv'.1) acc then acc else kv :: acc) [] l.

Definition parseObject (raw : json) (p : string) : result obj :=
  match raw with
  | JObj l => Ok {| path := p; m := last_wins l |}
  | _ => wrongType p
  end.

Definition isNull (raw : json) : bool := match raw with JNull => true | _ => false end.

Fixpoint assoc (k : string) (l : list (string * json)) : option json :=
  match l with
  | [] => None
  | (k', v) :: l => if String.eqb k k' then Some v else assoc k l
  end.

Definition member (o : obj) (key : string) : option json := assoc key (m o).
Definition pathOf (o : obj) (key : string) : string :=
  if String.eqb (path o) EmptyString then key else path o ++ "." ++ key.

Definition allow (o : obj) (keys : list string) : result unit :=
  match List.find (fun kv => negb (existsb (String.eqb kv.1) keys)) (m o) with
  | Some (k, _) => unknownParam (pathOf o k)
  | None => Ok tt
  end.

Definition has (o : obj) (key : string) : bool := is_some (member o key).
Definition null (o : obj) (key : string) : bool :=
  match member o key with Some v => isNull v | None => false end.
(** Present and not null. *)
Definition given (o : obj) (key : string) : bool := has o key && negb (null o key).

(** [None]: the member is absent. *)
Definition str (o : obj) (key : string) : result (option string) :=
  match member o key with
  | None => Ok None
  | Some (JStr s) => Ok (Some s)
  | Some JNull => Ok (Some EmptyString)
  | Some _ => wrongType (pathOf o key)
  end.

(** *** Numbers *)

(** [strconv.Atoi] of a JSON number literal. *)
Definition Atoi (lit : string) : option Z :=
  let '(neg, s) := match lit with String "-" s => (true, s) | _ => (false, lit) end in
  let '(v, n, rest) := digits s 0 0 in
  let v := if neg : bool then - v else v in
  if String.eqb rest EmptyString && (0 <? n) && (- 2 ^ 63 <=? v) && (v <? 2 ^ 63) then Some v else None.

Definition float (o : obj) (key : string) : result (option float64) :=
  match member o key with
  | None => Ok None
  | Some (JNum lit) => match ParseFloat lit with Some f => Ok (Some f) | None => wrongType (pathOf o key) end
  | Some JNull => Ok (Some (0#1)%Q)
  | Some _ => wrongType (pathOf o key)
  end.

(** [int(f)] on amd64: a value out of range becomes the smallest integer. *)
Definition float_to_int (f : float64) : Z :=
  let n := to_int f in if (- 2 ^ 63 <=? n) && (n <? 2 ^ 63) then n else - 2 ^ 63.

Definition integer (o : obj) (key : string) : result (option Z) :=
  let? f := float o key in
  match f with
  | None => Ok None
  | Some f =>
      if negb (Qeq_bool f (to_int f # 1)%Q) then wrongType (pathOf o key) else Ok (Some (float_to_int f))
  end.

Definition boolean (o : obj) (key : string) : result (option bool) :=
  match member o key with
  | None => Ok None
  | Some (JBool b) => Ok (Some b)
  | Some JNull => Ok (Some false)
  | Some _ => wrongType (pathOf o key)
  end.

Definition object (o : obj) (key : string) : result (option obj) :=
  match member o key with
  | None => Ok None
  | Some raw => let? c := parseObject raw (pathOf o key) in Ok (Some c)
  end.

Definition array (o : obj) (key : string) : result (option (list json)) :=
  match member o key with
  | None => Ok None
  | Some (JArr l) => Ok (Some l)
  | Some _ => wrongType (pathOf o key)
  end.

Definition index_path (p : string) (i : nat) : string := p ++ "[" ++ pretty (Z.of_nat i) ++ "]".

Fixpoint strings_loop (p : string) (i : nat) (l : list json) : result (list string) :=
  match l with
  | [] => Ok []
  | raw :: l =>
      let? s := (match raw with
                 | JStr s => Ok s
                 | JNull => Ok EmptyString
                 | _ => wrongType (index_path p i)
                 end) in
      let? rest := strings_loop p (S i) l in
      Ok (s :: rest)
  end.

Definition strings (o : obj) (key : string) : result (option (list string)) :=
  let? arr := array o key in
  match arr with
  | None => Ok None
  | Some l => let? out := strings_loop (pathOf o key) 0 l in Ok (Some out)
  end.

(** ** Base64 ([encoding/base64], standard alphabet with padding) *)

Definition b64_value (c : Ascii.ascii) : option Z :=
  let n := Z.of_nat (nat_of_ascii c) in
  if (65 <=? n) && (n <=? 90) then Some (n - 65)
  else if (97 <=? n) && (n <=? 122) then Some (n - 71)
  else if (48 <=? n) && (n <=? 57) then Some (n + 4)
  else if n =? 43 then Some 62
  else if n =? 47 then Some 63
  else None.

Definition b64_char (v : Z) : Ascii.ascii :=
  ascii_of_nat (Z.to_nat
    (if v <? 26 then v + 65 else if v <? 52 then v + 71 else if v <? 62 then v - 4 else if v =? 62 then 43 else 47)).

Definition is_pad (c : Ascii.ascii) : bool := Z.of_nat (nat_of_ascii c) =? 61.

(** Quanta of four characters; padding ends the input. *)
Fixpoint b64_quanta (l : list Ascii.ascii) : option (list Z) :=
  match l with
  | [] => Some []
  | [c0; c1; c2; c3] =>
      v0 ← b64_value c0; v1 ← b64_value c1;
      if is_pad c2 then if is_pad c3 then Some [v0 * 4 + v1 / 16] else None
      else
        v2 ← b64_value c2;
        if is_pad c3 then Some [v0 * 4 + v1 / 16; v1 mod 16 * 16 + v2 / 4]
        else v3 ← b64_value c3; Some [v0 * 4 + v1 / 16; v1 mod 16 * 16 + v2 / 4; v2 mod 4 * 64 + v3]
  | c0 :: c1 :: c2 :: c3 :: l =>
      v0 ← b64_value c0; v1 ← b64_value c1; v2 ← b64_value c2; v3 ← b64_value c3;
      rest ← b64_quanta l;
      Some (v0 * 4 + v1 / 16 :: v1 mod 16 * 16 + v2 / 4 :: v2 mod 4 * 64 + v3 :: rest)
  | _ => None
  end.

(** [StdEncoding.DecodeString]: line breaks are skipped. *)
Definition is_newline (c : Ascii.ascii) : bool :=
  let n := Z.of_nat (nat_of_ascii c) in (n =? 10) || (n =? 13).
Definition DecodeString (s : string) : option (list Z) :=
  b64_quanta (List.filter (fun c => negb (is_newline c)) (String.list_ascii_of_string s)).

Definition pad : Ascii.ascii := ascii_of_nat 61.

Fixpoint b64_chars (p : list Z) : list Ascii.ascii :=
  match p with
  | [] => []
  | [b0] => [b64_char (b0 / 4); b64_char (b0 mod 4 * 16); pad; pad]
  | [b0; b1] => [b64_char (b0 / 4); b64_char (b0 mod 4 * 16 + b1 / 16); b64_char (b1 mod 16 * 4); pad]
  | b0 :: b1 :: b2 :: p =>
      b64_char (b0 / 4) :: b64_char (b0 mod 4 * 16 + b1 / 16) :: b64_char (b1 mod 16 * 4 + b2 / 64) ::
      b64_char (b2 mod 64) :: b64_chars p
  end.

Definition EncodeToString (p : list Z) : string := String.string_of_list_ascii (b64_chars p).

(** ** The envelope *)

Definition eventIDMaxLen : Z := 512.

Record envelope := MkEnvelope { typ : string; eventID : string; body : obj }.

Definition no_body : obj := {| path := EmptyString; m := [] |}.

(** The error comes with what was read of the envelope: the client's event id
    is echoed in it. *)
Definition decodeEnvelope (data : option json) : envelope * result unit :=
  let env0 := {| typ := EmptyString; eventID := EmptyString; body := no_body |} in
  match data with
  | None => (env0, invalidEvent EmptyString)
  | Some raw =>
      match parseObject raw EmptyString with
      | Err _ => (env0, invalidEvent EmptyString)
      | Ok b =>
          let env0 := {| typ := EmptyString; eventID := EmptyString; body := b |} in
          match str b "event_id" with
          | Err e => (env0, Err e)
          | Ok id =>
              let id := default EmptyString id in
              if eventIDMaxLen <? slen id then (env0, invalidValue "event_id")
              else
                let env := {| typ := EmptyString; eventID := id; body := b |} in
                match str b "type" with
                | Err _ => (env, invalidEvent "type")
                | Ok None => (env, invalidEvent EmptyString)
                | Ok (Some t) => ({| typ := t; eventID := id; body := b |}, Ok tt)
                end
          end
      end
  end.

(** ** session.update *)

Definition sessionTypeGA := "realtime".

Definition betaFields : list string :=
  ["modalities"; "voice"; "turn_detection"; "input_audio_format"; "output_audio_format";
   "input_audio_transcription"; "temperature"; "max_response_output_tokens"; "input_audio_noise_reduction"].

Definition sessionKeys : list string :=
  ["type"; "model"; "instructions"; "output_modalities"; "audio"; "max_output_tokens"; "tools"; "tool_choice";
   "parallel_tool_calls"; "reasoning"; "prompt"; "tracing"; "truncation"; "include"].

Record sessionUpdate := MkSessionUpdate { su_patch : SessionPatch; su_model : option string }.

Definition decodeMaxTokens (o : obj) (key : string) : result MaxOutputTokens :=
  match member o key with
  | Some (JStr s) => if String.eqb s "inf" then Ok (MkMaxOutputTokens true 0) else invalidValue (pathOf o key)
  | Some (JNum lit) =>
      match Atoi lit with Some n => Ok (MkMaxOutputTokens false n) | None => invalidValue (pathOf o key) end
  | _ => invalidValue (pathOf o key)
  end.

Definition decodeTool (p : string) (raw : json) : result Tool :=
  let? t := parseObject raw p in
  let? ty := str t "type" in
  let? ty := require ty (pathOf t "type") in
  let? _ := fail_if (negb (String.eqb ty ToolTypeFunction)) (unsupportedValue (pathOf t "type")) in
  let? _ := allow t ["type"; "name"; "description"; "parameters"] in
  let? name := str t "name" in
  let? name := require name (pathOf t "name") in
  let? desc := str t "description" in
  Ok {| Tool_Type := ty; Tool_Name := name; Tool_Description := default EmptyString desc;
        Tool_Parameters := if given t "parameters" then member t "parameters" else None |}.

Fixpoint decodeTools_loop (p : string) (i : nat) (l : list json) : result (list Tool) :=
  match l with
  | [] => Ok []
  | raw :: l =>
      let? t := decodeTool (index_path p i) raw in
      let? rest := decodeTools_loop p (S i) l in
      Ok (t :: rest)
  end.

Definition decodeTools (sess : obj) : result (list Tool) :=
  let? arr := array sess "tools" in
  decodeTools_loop (pathOf sess "tools") 0 (default [] arr).

Definition decodeToolChoice (o : obj) (key : string) : result ToolChoice :=
  let p := pathOf o key in
  match str o key with
  | Ok (Some v) =>
      if existsb (String.eqb v) [ToolChoiceAuto; ToolChoiceNone; ToolChoiceRequired]
      then Ok {| Mode := v; TC_Name := EmptyString |} else unsupportedValue p
  | _ =>
      match object o key with
      | Ok (Some sub) =>
          let ty := match str sub "type" with Ok (Some v) => v | _ => EmptyString end in
          let? _ := fail_if (negb (String.eqb ty ToolChoiceFunction)) (unsupportedValue (p ++ ".type")) in
          let? _ := allow sub ["type"; "name"] in
          let? name := str sub "name" in
          let? name := require name (p ++ ".name") in
          Ok {| Mode := ToolChoiceFunction; TC_Name := name |}
      | _ => invalidValue p
      end
  end.

Definition checkDefaultedFields (sess : obj) : result unit :=
  let? _ := (match str sess "truncation" with
             | Err _ => unsupportedParam (pathOf sess "truncation")
             | Ok (Some v) => fail_if (negb (String.eqb v "auto")) (unsupportedValue (pathOf sess "truncation"))
             | Ok None => Ok tt
             end) in
  let? _ := fail_if (given sess "prompt") (unsupportedParam (pathOf sess "prompt")) in
  let? _ := fail_if (given sess "tracing") (unsupportedParam (pathOf sess "tracing")) in
  let? _ := fail_if (given sess "include" &&
                     match array sess "include" with Ok (Some []) => false | _ => true end)
              (unsupportedParam (pathOf sess "include")) in
  let? _ := fail_if (has sess "parallel_tool_calls") (unsupportedParam (pathOf sess "parallel_tool_calls")) in
  fail_if (has sess "reasoning") (unsupportedParam (pathOf sess "reasoning")).

Definition decodeFormat (o : obj) : result unit :=
  let? _ := allow o ["type"; "rate"] in
  let? t := str o "type" in
  let? _ := fail_if (match t with Some t => negb (String.eqb t AudioFormatPCM) | None => false end)
              (unsupportedValue (pathOf o "type")) in
  let? r := integer o "rate" in
  fail_if (match r with Some r => negb (r =? AudioSampleRate) | None => false end)
    (unsupportedValue (pathOf o "rate")).

(** "if f, ok, err := o.object("format"); ... decodeFormat(f)" *)
Definition check_format (o : obj) : result unit :=
  let? f := object o "format" in
  match f with Some f => decodeFormat f | None => Ok tt end.

Definition decodeTurnDetection (td : obj) : result TurnDetection :=
  let? ty := str td "type" in
  let? ty := require ty (pathOf td "type") in
  let? tune := (
    if String.eqb ty TurnDetectionServerVAD then
      let? _ := allow td ["type"; "threshold"; "prefix_padding_ms"; "silence_duration_ms"; "create_response";
                          "interrupt_response"; "idle_timeout_ms"] in
      let? _ := fail_if (given td "idle_timeout_ms") (unsupportedParam (pathOf td "idle_timeout_ms")) in
      let? th := float td "threshold" in
      let? pp := integer td "prefix_padding_ms" in
      let? sd := integer td "silence_duration_ms" in
      Ok (th, pp, sd, None)
    else if String.eqb ty TurnDetectionSemanticVAD then
      let? _ := allow td ["type"; "eagerness"; "create_response"; "interrupt_response"] in
      let? eg := str td "eagerness" in
      Ok (None, None, None, eg)
    else unsupportedValue (pathOf td "type")) in
  let '(th, pp, sd, eg) := tune in
  let? cr := boolean td "create_response" in
  let? ir := boolean td "interrupt_response" in
  Ok {| TD_Type := ty; TD_Threshold := th; TD_PrefixPaddingMs := pp; TD_SilenceDurationMs := sd; TD_Eagerness := eg;
        CreateResponse := default true cr; InterruptResponse := default true ir |}.

Definition decodeTranscription (tr : obj) : result Transcription :=
  let? _ := allow tr ["model"; "language"; "prompt"] in
  let? mo := str tr "model" in
  let? la := str tr "language" in
  let? pr := str tr "prompt" in
  Ok {| Tr_Model := default EmptyString mo; Tr_Language := default EmptyString la; Tr_Prompt := default EmptyString pr |}.

(** A nullable member of type object: unset, null, or decoded. *)
Definition decode_nullable {A} (o : obj) (key : string) (dec : obj -> result A) : result (Nullable A) :=
  if negb (has o key) then Ok Unset
  else if null o key then Ok (SetTo None)
  else
    let? sub := object o key in
    match sub with
    | Some sub => let? v := dec sub in Ok (SetTo (Some v))
    | None => Ok Unset
    end.

(** What [decodeAudio] writes into the patch. *)
Record audioPatch := MkAudioPatch {
  ap_transcription : Nullable Transcription;
  ap_turnDetection : Nullable TurnDetection;
  ap_voice : option string;
  ap_speed : option float64
}.

Definition decodeAudioInput (i : obj) : result (Nullable Transcription * Nullable TurnDetection) :=
  let? _ := allow i ["format"; "transcription"; "turn_detection"; "noise_reduction"] in
  let? _ := check_format i in
  let? tr := decode_nullable i "transcription" decodeTranscription in
  let? td := decode_nullable i "turn_detection" decodeTurnDetection in
  let? _ := fail_if (given i "noise_reduction") (unsupportedParam (pathOf i "noise_reduction")) in
  Ok (tr, td).

Definition decodeVoice (o : obj) : result (option string) :=
  match str o "voice" with Ok v => Ok v | Err _ => invalidValue (pathOf o "voice") end.

Definition decodeAudioOutput (o : obj) : result (option string * option float64) :=
  let? _ := allow o ["format"; "voice"; "speed"] in
  let? _ := check_format o in
  let? v := decodeVoice o in
  let? sp := float o "speed" in
  Ok (v, sp).

Definition decodeAudio (aud : obj) : result audioPatch :=
  let? _ := allow aud ["input"; "output"] in
  let? i := object aud "input" in
  let? i := (match i with Some i => decodeAudioInput i | None => Ok (Unset, Unset) end) in
  let? o := object aud "output" in
  let? o := (match o with Some o => decodeAudioOutput o | None => Ok (None, None) end) in
  Ok (MkAudioPatch i.1 i.2 o.1 o.2).

Definition decodeSessionUpdate (env : envelope) : result sessionUpdate :=
  let? _ := allow (body env) ["type"; "event_id"; "session"] in
  let? sess := object (body env) "session" in
  let? sess := require sess "session" in
  let? _ := (match List.find (fun kv => existsb (String.eqb kv.1) betaFields) (m sess) with
             | Some (k, _) => invalidValue (pathOf sess k)
             | None => Ok tt
             end) in
  let? _ := allow sess sessionKeys in
  let? ty := str sess "type" in
  let? ty := require ty (pathOf sess "type") in
  let? _ := fail_if (negb (String.eqb ty sessionTypeGA)) (unsupportedValue (pathOf sess "type")) in
  let? model := str sess "model" in
  let? instructions := str sess "instructions" in
  let? mods := strings sess "output_modalities" in
  let? maxTokens := (if has sess "max_output_tokens"
                     then let? v := decodeMaxTokens sess "max_output_tokens" in Ok (Some v) else Ok None) in
  let? aud := object sess "audio" in
  let? ap := (match aud with Some aud => decodeAudio aud | None => Ok (MkAudioPatch Unset Unset None None) end) in
  let? tools := (if given sess "tools" then let? t := decodeTools sess in Ok (Some t) else Ok None) in
  let? tc := (if given sess "tool_choice" then let? t := decodeToolChoice sess "tool_choice" in Ok (Some t) else Ok None) in
  let? _ := checkDefaultedFields sess in
  Ok {| su_model := model;
        su_patch :=
          {| Patch_Instructions := instructions; Patch_OutputModalities := mods; Patch_Voice := ap_voice ap;
             Patch_Speed := ap_speed ap; Patch_MaxOutputTokens := maxTokens;
             Patch_Transcription := ap_transcription ap; Patch_TurnDetection := ap_turnDetection ap;
             Patch_Tools := tools; Patch_ToolChoice := tc |} |}.

(** ** input_audio_buffer.* *)

Definition decodeAudioAppend (env : envelope) : result (list Z) :=
  let? _ := allow (body env) ["type"; "event_id"; "audio"] in
  let? s := str (body env) "audio" in
  let? s := require s "audio" in
  match DecodeString s with
  | None => invalidValue "audio"
  | Some pcm => if negb (Z.rem (zlen pcm) BytesPerSample =? 0) then invalidValue "audio" else Ok pcm
  end.

Definition decodeBare (env : envelope) : result unit := allow (body env) ["type"; "event_id"].

(** ** conversation.item.* *)

Record itemCreate := MkItemCreate {
  ic_spec : ItemSpec;
  ic_previous : string;
  ic_hasPrev : bool;
  ic_callID : string
}.

(** "for _, k := range keys { if it.has(k) { return unknownParam } }" *)
Definition refuse (it : obj) (keys : list string) : result unit :=
  match List.find (has it) keys with Some k => unknownParam (pathOf it k) | None => Ok tt end.

Definition decodeClientID (it : obj) : result string :=
  let? id := str it "id" in
  match id with
  | Some EmptyString => invalidValue (pathOf it "id")
  | Some id => Ok id
  | None => Ok EmptyString
  end.

(** The prefix of the call and result payloads is what the caller read. *)
Definition decodeToolOutputItem (it : obj) (previous : option string) : result itemCreate :=
  let? _ := refuse it ["role"; "content"; "name"; "arguments"] in
  let? id := decodeClientID it in
  let? callID := str it "call_id" in
  let? callID := (match callID with
                  | None | Some EmptyString => missingParam (pathOf it "call_id")
                  | Some c => Ok c
                  end) in
  let? output := str it "output" in
  let? output := require output (pathOf it "output") in
  Ok {| ic_spec := {| Spec_Role := EmptyString; Spec_Content := ContentToolOutput; Spec_Text := output;
                      Spec_ClientID := id; Spec_CallItem := 0 |};
        ic_previous := default EmptyString previous; ic_hasPrev := is_some previous; ic_callID := callID |}.

Definition decodeMessageItem (it : obj) (previous : option string) : result itemCreate :=
  let? _ := refuse it ["call_id"; "name"; "arguments"; "output"] in
  let? id := decodeClientID it in
  let? role := str it "role" in
  let? role := require role (pathOf it "role") in
  let? _ := fail_if (negb (existsb (String.eqb role) ["user"; "assistant"; "system"])) (unsupportedValue (pathOf it "role")) in
  let? content := array it "content" in
  let? raw := (match content with
               | None | Some [] => missingParam (pathOf it "content")
               | Some [raw] => Ok raw
               | Some _ => invalidValue (pathOf it "content")
               end) in
  let? part := parseObject raw (pathOf it "content" ++ "[0]") in
  let? _ := allow part ["type"; "text"; "audio"; "transcript"; "image_url"; "detail"; "id"] in
  let? ptype := str part "type" in
  let? ptype := require ptype (pathOf part "type") in
  let assistant := String.eqb role "assistant" in
  let? _ := fail_if (negb (if assistant then existsb (String.eqb ptype) ["output_text"; "text"]
                           else String.eqb ptype "input_text")) (unsupportedValue (pathOf part "type")) in
  let? _ := refuse part ["audio"; "transcript"; "image_url"; "detail"; "id"] in
  let? text := str part "text" in
  let? text := require text (pathOf part "text") in
  Ok {| ic_spec := {| Spec_Role := role; Spec_Content := ContentNone; Spec_Text := text;
                      Spec_ClientID := id; Spec_CallItem := 0 |};
        ic_previous := default EmptyString previous; ic_hasPrev := is_some previous; ic_callID := EmptyString |}.

Definition decodeItemCreate (env : envelope) : result itemCreate :=
  let? _ := allow (body env) ["type"; "event_id"; "item"; "previous_item_id"] in
  let? previous := str (body env) "previous_item_id" in
  let? it := object (body env) "item" in
  let? it := require it "item" in
  let? _ := allow it ["id"; "object"; "type"; "role"; "status"; "content"; "call_id"; "name"; "arguments"; "output"] in
  let? ty := str it "type" in
  let? ty := require ty (pathOf it "type") in
  if String.eqb ty "message" then decodeMessageItem it previous
  else if String.eqb ty "function_call_output" then decodeToolOutputItem it previous
  else unsupportedValue (pathOf it "type").

Definition decodeItemID (env : envelope) : result string :=
  let? _ := allow (body env) ["type"; "event_id"; "item_id"] in
  let? id := str (body env) "item_id" in
  require id "item_id".

Record itemTruncate := MkItemTruncate { it_itemID : string; it_contentIndex : Z; it_audioEndMs : Z }.

Definition decodeItemTruncate (env : envelope) : result itemTruncate :=
  let? _ := allow (body env) ["type"; "event_id"; "item_id"; "content_index"; "audio_end_ms"] in
  let? id := str (body env) "item_id" in
  let? id := require id "item_id" in
  let? ci := integer (body env) "content_index" in
  let? ci := require ci "content_index" in
  let? ms := integer (body env) "audio_end_ms" in
  let? ms := require ms "audio_end_ms" in
  Ok (MkItemTruncate id ci ms).

(** ** response.* *)

Definition metadataMaxPairs : Z := 16.
Definition metadataKeyMaxLen : Z := 64.
Definition metadataValMaxLen : Z := 512.

Fixpoint metadata_loop (md : obj) (l : list (string * json)) : result (list (string * string)) :=
  match l with
  | [] => Ok []
  | (k, _) :: l =>
      let? v := str md k in
      let v := default EmptyString v in
      let? _ := fail_if ((metadataKeyMaxLen <? slen k) || (metadataValMaxLen <? slen v)) (invalidValue (pathOf md k)) in
      let? rest := metadata_loop md l in
      Ok ((k, v) :: rest)
  end.

Definition decodeMetadata (r : obj) : result (option (list (string * string))) :=
  if given r "metadata" then
    let? md := object r "metadata" in
    match md with
    | None => Ok None
    | Some md =>
        let? _ := fail_if (metadataMaxPairs <? zlen (m md)) (invalidValue (path md)) in
        let? l := metadata_loop md (m md) in
        Ok (Some l)
    end
  else Ok None.

Definition decodeResponseAudio (aud : obj) : result (option string) :=
  let? _ := allow aud ["output"] in
  let? o := object aud "output" in
  match o with
  | None => Ok None
  | Some o =>
      let? _ := allow o ["format"; "voice"] in
      let? _ := check_format o in
      decodeVoice o
  end.

Definition decodeResponseCreate (env : envelope) : result ResponseOverrides :=
  let? _ := allow (body env) ["type"; "event_id"; "response"] in
  let? r := object (body env) "response" in
  match r with
  | None => Ok no_overrides
  | Some r =>
      let? _ := allow r ["instructions"; "output_modalities"; "max_output_tokens"; "audio"; "conversation"; "input";
                         "metadata"; "tools"; "tool_choice"; "parallel_tool_calls"; "prompt"; "reasoning"] in
      let? _ := (match List.find (has r) ["input"; "tools"; "tool_choice"; "parallel_tool_calls"; "prompt"; "reasoning"] with
                 | Some k => unsupportedParam (pathOf r k)
                 | None => Ok tt
                 end) in
      let? instructions := str r "instructions" in
      let? mods := strings r "output_modalities" in
      let? maxTokens := (if has r "max_output_tokens"
                         then let? v := decodeMaxTokens r "max_output_tokens" in Ok (Some v) else Ok None) in
      let? conv := str r "conversation" in
      let? _ := fail_if (match conv with Some v => negb (String.eqb v "auto") | None => false end)
                  (unsupportedValue (pathOf r "conversation")) in
      let? aud := object r "audio" in
      let? voice := (match aud with Some aud => decodeResponseAudio aud | None => Ok None end) in
      let? md := decodeMetadata r in
      Ok {| Ov_Instructions := instructions; Ov_OutputModalities := mods; Ov_MaxOutputTokens := maxTokens;
            Ov_Voice := voice; Ov_Metadata := md |}
  end.

Definition decodeResponseCancel (env : envelope) : result string :=
  let? _ := allow (body env) ["type"; "event_id"; "response_id"] in
  let? id := str (body env) "response_id" in
  Ok (default EmptyString id).

(** ** Base64 round trip *)

Definition sextet_ok (v : Z) : bool :=
  bool_decide (b64_value (b64_char v) = Some v) && negb (is_pad (b64_char v)) && negb (is_newline (b64_char v)).

(** Every sextet, by computation. *)
Lemma sextet_spec v : 0 <= v < 64 -> sextet_ok v = true.
Proof.
  intros Hv. assert (H : forallb (fun n => sextet_ok (Z.of_nat n)) (List.seq 0 64) = true) by by vm_compute.
  rewrite List.forallb_forall in H. specialize (H (Z.to_nat v)). rewrite Z2Nat.id in H by lia.
  apply H, List.in_seq. lia.
Qed.

Lemma b64_value_char v : 0 <= v < 64 -> b64_value (b64_char v) = Some v.
Proof. intros [[H _]%andb_prop _]%sextet_spec%andb_prop. by apply bool_decide_eq_true in H. Qed.

Lemma is_pad_char v : 0 <= v < 64 -> is_pad (b64_char v) = false.
Proof. intros [[_ H]%andb_prop _]%sextet_spec%andb_prop. by apply negb_true_iff. Qed.

Lemma is_newline_char v : 0 <= v < 64 -> is_newline (b64_char v) = false.
Proof. intros [_ H]%sextet_spec%andb_prop. by apply negb_true_iff. Qed.

Create Rewrite HintDb b64.
#[local] Hint Rewrite b64_value_char is_pad_char is_newline_char using lia : b64.

Lemma b64_quanta_step c0 c1 c2 c3 c l : b64_quanta (c0 :: c1 :: c2 :: c3 :: c :: l) =
  (v0 ← b64_value c0; v1 ← b64_value c1; v2 ← b64_value c2; v3 ← b64_value c3;
   rest ← b64_quanta (c :: l);
   Some (v0 * 4 + v1 / 16 :: v1 mod 16 * 16 + v2 / 4 :: v2 mod 4 * 64 + v3 :: rest)).
Proof. reflexivity. Qed.

(** A full quantum, whatever follows. *)
Lemma b64_quanta_cons v0 v1 v2 v3 l out :
  0 <= v0 < 64 -> 0 <= v1 < 64 -> 0 <= v2 < 64 -> 0 <= v3 < 64 -> b64_quanta l = Some out ->
  b64_quanta (b64_char v0 :: b64_char v1 :: b64_char v2 :: b64_char v3 :: l) =
  Some (v0 * 4 + v1 / 16 :: v1 mod 16 * 16 + v2 / 4 :: v2 mod 4 * 64 + v3 :: out).
Proof.
  intros ? ? ? ? Hl. destruct l as [|c l].
  - injection Hl as <-. simpl. by autorewrite with b64.
  - rewrite b64_quanta_step, Hl. by autorewrite with b64.
Qed.

Lemma list_ind3 {A} (P : list A -> Prop) :
  P [] -> (forall a, P [a]) -> (forall a b, P [a; b]) ->
  (forall a b c l, P l -> P (a :: b :: c :: l)) -> forall l, P l.
Proof.
  intros H0 H1 H2 H3. fix IH 1. intros [|a [|b [|c l]]]; [done..|]. apply H3. apply IH.
Qed.

(** The sextets of the bytes of a quantum. *)
Ltac sextets :=
  repeat match goal with H : 0 <= ?b < 256 |- _ =>
    lazymatch goal with
    | _ : 0 <= b / 64 |- _ => fail
    | _ => pose proof (Z.mod_pos_bound b 4); pose proof (Z.mod_pos_bound b 16); pose proof (Z.mod_pos_bound b 64);
           assert (0 <= b / 4 < 64) by (split; [apply Z.div_pos|apply Z.div_lt_upper_bound]; lia);
           assert (0 <= b / 16 < 16) by (split; [apply Z.div_pos|apply Z.div_lt_upper_bound]; lia);
           assert (b / 64 < 4) by (apply Z.div_lt_upper_bound; lia);
           assert (0 <= b / 64) by (apply Z.div_pos; lia)
    end end.

Lemma sextets_join b0 b1 b2 : 0 <= b0 < 256 -> 0 <= b1 < 256 -> 0 <= b2 < 256 ->
  b0 / 4 * 4 + (b0 mod 4 * 16 + b1 / 16) / 16 = b0 /\
  (b0 mod 4 * 16 + b1 / 16) mod 16 * 16 + (b1 mod 16 * 4 + b2 / 64) / 4 = b1 /\
  (b1 mod 16 * 4 + b2 / 64) mod 4 * 64 + b2 mod 64 = b2.
Proof. intros. Z.div_mod_to_equations. lia. Qed.

Lemma b64_chars_quanta p : Forall (fun b => 0 <= b < 256) p -> b64_quanta (b64_chars p) = Some p.
Proof.
  induction p as [|b0|b0 b1|b0 b1 b2 p IH] using list_ind3; intros Hp; [done|..];
    repeat match goal with H : Forall _ (_ :: _) |- _ => apply Forall_cons in H as [? H] end.
  - destruct (sextets_join b0 0 0) as (E & _); [lia..|]. rewrite Z.div_0_l, Z.add_0_r in E by lia.
    sextets. cbn [b64_chars b64_quanta]. autorewrite with b64. simpl. by rewrite E.
  - destruct (sextets_join b0 b1 0) as (E0 & E1 & _); [lia..|]. rewrite Z.div_0_l, Z.add_0_r in E1 by lia.
    sextets. cbn [b64_chars b64_quanta]. autorewrite with b64. simpl. by rewrite E0, E1.
  - destruct (sextets_join b0 b1 b2) as (E0 & E1 & E2); [lia..|]. sextets.
    cbn [b64_chars]. rewrite (b64_quanta_cons _ _ _ _ _ p) by (try lia; by apply IH). by rewrite E0, E1, E2.
Qed.

Lemma b64_chars_plain p : Forall (fun b => 0 <= b < 256) p ->
  List.filter (fun c => negb (is_newline c)) (b64_chars p) = b64_chars p.
Proof.
  induction p as [|b0|b0 b1|b0 b1 b2 p IH] using list_ind3; intros Hp; [done|..];
    repeat match goal with H : Forall _ (_ :: _) |- _ => apply Forall_cons in H as [? H] end;
    sextets; cbn [b64_chars List.filter]; autorewrite with b64; cbn [negb]; [done|done|]. by rewrite IH.
Qed.

Lemma DecodeString_EncodeToString p : Forall (fun b => 0 <= b < 256) p -> DecodeString (EncodeToString p) = Some p.
Proof.
  intros Hp. unfold DecodeString, EncodeToString. rewrite String.list_ascii_of_string_of_list_ascii.
  rewrite b64_chars_plain by done. by apply b64_chars_quanta.
Qed.

(** What decodes is bytes. *)
Lemma b64_value_range c v : b64_value c = Some v -> 0 <= v < 64.
Proof.
  unfold b64_value. cbv zeta. generalize (Z.of_nat (nat_of_ascii c)) as n. intros n.
  repeat case_match; intros [= <-]; zlia.
Qed.

Lemma list_ind4 {A} (P : list A -> Prop) :
  P [] -> (forall a, P [a]) -> (forall a b, P [a; b]) -> (forall a b c, P [a; b; c]) ->
  (forall a b c d l, P l -> P (a :: b :: c :: d :: l)) -> forall l, P l.
Proof.
  intros H0 H1 H2 H3 H4. fix IH 1. intros [|a [|b [|c [|d l]]]]; [done..|]. apply H4. apply IH.
Qed.

Lemma b64_quanta_bytes l : forall p, b64_quanta l = Some p -> Forall (fun b => 0 <= b < 256) p.
Proof.
  assert (Hq : forall v0 v1 v2 v3, 0 <= v0 < 64 -> 0 <= v1 < 64 -> 0 <= v2 < 64 -> 0 <= v3 < 64 ->
    0 <= v0 * 4 + v1 / 16 < 256 /\ 0 <= v1 mod 16 * 16 + v2 / 4 < 256 /\ 0 <= v2 mod 4 * 64 + v3 < 256)
    by (intros; Z.div_mod_to_equations; lia).
  induction l as [| | | |c0 c1 c2 c3 l IH] using list_ind4; intros p; [by intros [= <-]|done..|].
  destruct l as [|c l]; [simpl|rewrite b64_quanta_step];
    intros (v0 & H0%b64_value_range & (v1 & H1%b64_value_range & Hp)%bind_Some_inv)%bind_Some_inv.
  - pose proof (Hq v0 v1 0 0 H0 H1) as Hq0.
    destruct (is_pad c2); [destruct (is_pad c3); [|done]; injection Hp as <-; constructor; [lia|done]|].
    apply bind_Some_inv in Hp as (v2 & H2%b64_value_range & Hp).
    pose proof (Hq v0 v1 v2 0 H0 H1 H2) as Hq1.
    destruct (is_pad c3); [injection Hp as <-; repeat constructor; lia|].
    apply bind_Some_inv in Hp as (v3 & H3%b64_value_range & [= <-]).
    pose proof (Hq v0 v1 v2 v3 H0 H1 H2 H3). repeat constructor; lia.
  - apply bind_Some_inv in Hp as (v2 & H2%b64_value_range & (v3 & H3%b64_value_range & (r & Hr & [= <-])%bind_Some_inv)%bind_Some_inv).
    pose proof (Hq v0 v1 v2 v3 H0 H1 H2 H3). repeat constructor; [lia..|]. by apply IH.
Qed.

(** ** Accepted documents *)

Create HintDb decode.

Lemma bind_Ok_inv {A B} (r : result A) (f : A -> result B) b :
  bind_result r f = Ok b -> exists a, r = Ok a /\ f a = Ok b.
Proof. destruct r as [a|e]; [|done]. intros H. by exists a. Qed.

Lemma fail_if_Ok bad e : (exists we, e = Err we) -> fail_if bad e = Ok tt -> bad = false.
Proof. intros [we ->]. by destruct bad. Qed.

Lemma require_Ok {A} (o : option A) p v : require o p = Ok v -> o = Some v.
Proof. destruct o; [|done]. by intros [= ->]. Qed.

(** Peel the binds of an accepted document; the intermediate results stay. *)
Ltac peel H :=
  lazymatch type of H with
  | bind_result _ _ = Ok _ =>
      let a := fresh "a" in let Ha := fresh "H" in
      apply bind_Ok_inv in H as (a & Ha & H); peel H
  | _ => idtac
  end.

Lemma member_In o k v : member o k = Some v -> List.In (k, v) (m o).
Proof.
  unfold member. induction (m o) as [|[k' v'] l IH]; simpl; [done|].
  destruct (String.eqb_spec k k') as [->|]; [intros [= ->]; by left|]. intros. right. by apply IH.
Qed.

(** The known-key check is exact: every member's name is in the list. *)
Lemma allow_Ok o keys u : allow o keys = Ok u -> forall k, has o k = true -> List.In k keys.
Proof.
  unfold allow. destruct (List.find _ _) as [[k' v']|] eqn:Hf; [done|]. intros _ k Hk.
  unfold has in Hk. destruct (member o k) as [v|] eqn:Hm; [|done]. apply member_In in Hm.
  pose proof (List.find_none _ _ Hf _ Hm) as Hn. simpl in Hn. apply negb_false_iff in Hn.
  apply List.existsb_exists in Hn as (k' & Hin & ->%String.eqb_eq). done.
Qed.

Lemma allow_complete o keys : (forall k, has o k = true -> List.In k keys) -> allow o keys = Ok tt.
Proof.
  intros Hk. unfold allow. destruct (List.find _ _) as [[k v]|] eqn:Hf; [|done].
  apply List.find_some in Hf as [Hin Hn]. exfalso. apply negb_true_iff in Hn.
  assert (List.In k keys) as Hkin.
  { apply Hk. unfold has, member. clear -Hin. induction (m o) as [|[k' v'] l IH]; [done|]. simpl.
    destruct (String.eqb_spec k k') as [|Hne]; [done|]. destruct Hin as [[= -> ->]|Hin]; [done|]. by apply IH. }
  assert (existsb (String.eqb k) keys = true); [|simpl in Hn; congruence].
  apply List.existsb_exists. exists k. split; [done|]. apply String.eqb_refl.
Qed.

(** A decoded member is there exactly when the document has the key. *)
Lemma str_has o k v : str o k = Ok v -> is_some v = has o k.
Proof. unfold str, has. destruct (member o k) as [[]|]; intros [= <-]; done. Qed.

Lemma float_has o k v : float o k = Ok v -> is_some v = has o k.
Proof.
  unfold float, has. destruct (member o k) as [[]|]; try (intros [= <-]; done); try done.
  destruct (ParseFloat _); [intros [= <-]|]; done.
Qed.

Lemma strings_has o k v : strings o k = Ok v -> is_some v = has o k.
Proof.
  unfold strings, array, has. destruct (member o k) as [[]|]; try (intros [= <-]; done); simpl; try done.
  destruct (strings_loop _ _ _); [intros [= <-]|]; done.
Qed.

Lemma object_has o k v : object o k = Ok v -> is_some v = has o k.
Proof. unfold object, has. destruct (member o k) as [[]|]; intros [= <-]; done. Qed.

(** The child object, [no_body] when the key is absent. *)
Definition child (o : obj) (key : string) : obj := match object o key with Ok (Some c) => c | _ => no_body end.

Lemma decode_nullable_spec {A} o k (dec : obj -> result A) v : decode_nullable o k dec = Ok v ->
  match v with
  | Unset => has o k = false
  | SetTo None => null o k = true
  | SetTo (Some x) => given o k = true /\ dec (child o k) = Ok x
  end.
Proof.
  unfold decode_nullable, given. destruct (has o k) eqn:Hh; simpl; [|by intros [= <-]].
  destruct (null o k); simpl; [by intros [= <-]|].
  intros H. apply bind_Ok_inv in H as (c & Hc & H). pose proof (object_has _ _ _ Hc). unfold child. rewrite Hc.
  destruct c as [c|]; [|by rewrite Hh in *]. by apply bind_Ok_inv in H as (x & Hx & [= <-]).
Qed.

Lemma integer_range o k v : integer o k = Ok (Some v) -> in_i64 v.
Proof.
  unfold integer. intros H. apply bind_Ok_inv in H as ([f|] & _ & H); [|done].
  destruct (negb _); [done|]. injection H as <-. unfold float_to_int, in_i64.
  destruct ((- 2 ^ 63 <=? to_int f) && (to_int f <? 2 ^ 63)) eqn:E; zlia.
Qed.

(** A document has only known keys. *)
Definition only (o : obj) (keys : list string) : Prop := forall k, has o k = true -> List.In k keys.

Lemma allow_only o keys u : allow o keys = Ok u -> only o keys.
Proof. intros H k. by eapply allow_Ok. Qed.

(** A nullable field of a patch against the object that holds its key. *)
Definition nullable_matches {A} (o : obj) (key : string) (dec : obj -> result A) (v : Nullable A) : Prop :=
  match v with
  | Unset => has o key = false
  | SetTo None => null o key = true
  | SetTo (Some x) => given o key = true /\ dec (child o key) = Ok x
  end.

Lemma child_object o key c : object o key = Ok c -> child o key = default no_body c.
Proof. unfold child. by intros ->. Qed.

Lemma check_format_Ok o u : check_format o = Ok u ->
  only (child o "format") ["type"; "rate"] /\
  (forall t, str (child o "format") "type" = Ok (Some t) -> t = AudioFormatPCM) /\
  (forall r, integer (child o "format") "rate" = Ok (Some r) -> r = AudioSampleRate).
Proof.
  unfold check_format. intros H. peel H. rewrite (child_object _ _ _ H0). destruct a as [f|]; simpl.
  - unfold decodeFormat in H. peel H. split; [by eapply allow_only|split].
    + intros t Ht. rewrite Ht in H2. injection H2 as <-. destruct a1. apply fail_if_Ok in H3; [|by eexists].
      by apply negb_false_iff, String.eqb_eq in H3.
    + intros r Hr. rewrite Hr in H4. injection H4 as <-. destruct u. apply fail_if_Ok in H; [|by eexists].
      by apply negb_false_iff, Z.eqb_eq in H.
  - split; [by intros k|]. by split.
Qed.

Lemma decodeAudioInput_Ok i tr td : decodeAudioInput i = Ok (tr, td) ->
  only i ["format"; "transcription"; "turn_detection"; "noise_reduction"] /\
  nullable_matches i "transcription" decodeTranscription tr /\
  nullable_matches i "turn_detection" decodeTurnDetection td /\
  given i "noise_reduction" = false.
Proof.
  unfold decodeAudioInput. intros H. peel H. injection H as <- <-. destruct a3.
  split; [by eapply allow_only|]. split; [by apply decode_nullable_spec|]. split; [by apply decode_nullable_spec|].
  by eapply fail_if_Ok; [eexists|].
Qed.

Lemma decodeVoice_has o v : decodeVoice o = Ok v -> is_some v = has o "voice".
Proof. unfold decodeVoice. destruct (str o "voice") eqn:E; [|done]. intros [= <-]. by eapply str_has. Qed.

Lemma decodeAudioOutput_Ok o v sp : decodeAudioOutput o = Ok (v, sp) ->
  only o ["format"; "voice"; "speed"] /\ is_some v = has o "voice" /\ is_some sp = has o "speed".
Proof.
  unfold decodeAudioOutput. intros H. peel H. injection H as <- <-.
  split; [by eapply allow_only|]. split; [by apply decodeVoice_has|by apply float_has].
Qed.

(** What the audio part of a patch says of the document. *)
Record audio_matches (aud : obj) (ap : audioPatch) : Prop := {
  am_keys : only aud ["input"; "output"];
  am_input_keys : only (child aud "input") ["format"; "transcription"; "turn_detection"; "noise_reduction"];
  am_output_keys : only (child aud "output") ["format"; "voice"; "speed"];
  am_transcription : nullable_matches (child aud "input") "transcription" decodeTranscription (ap_transcription ap);
  am_turnDetection : nullable_matches (child aud "input") "turn_detection" decodeTurnDetection (ap_turnDetection ap);
  am_voice : is_some (ap_voice ap) = has (child aud "output") "voice";
  am_speed : is_some (ap_speed ap) = has (child aud "output") "speed"
}.

Lemma only_no_body keys : only no_body keys.
Proof. by intros k. Qed.

Lemma decodeAudio_Ok aud ap : decodeAudio aud = Ok ap -> audio_matches aud ap.
Proof.
  unfold decodeAudio. intros H. peel H. injection H as <-.
  assert (Hi : only (child aud "input") ["format"; "transcription"; "turn_detection"; "noise_reduction"] /\
    nullable_matches (child aud "input") "transcription" decodeTranscription a1.1 /\
    nullable_matches (child aud "input") "turn_detection" decodeTurnDetection a1.2).
  { rewrite (child_object _ _ _ H1). destruct a0 as [i|], a1 as [tr td]; simpl in *.
    - apply decodeAudioInput_Ok in H2 as (? & ? & ? & _). done.
    - injection H2 as <- <-. by split; [apply only_no_body|]. }
  assert (Ho : only (child aud "output") ["format"; "voice"; "speed"] /\
    is_some a3.1 = has (child aud "output") "voice" /\ is_some a3.2 = has (child aud "output") "speed").
  { rewrite (child_object _ _ _ H3). destruct a2 as [o|], a3 as [v sp]; simpl in *.
    - by apply decodeAudioOutput_Ok.
    - injection H4 as <- <-. by split; [apply only_no_body|]. }
  destruct Hi as (? & ? & ?), Ho as (? & ? & ?). split; try done. by eapply allow_only.
Qed.

Lemma no_audio_matches : audio_matches no_body (MkAudioPatch Unset Unset None None).
Proof. split; try done; by apply only_no_body. Qed.

Lemma checkDefaultedFields_Ok sess u : checkDefaultedFields sess = Ok u ->
  given sess "prompt" = false /\ given sess "tracing" = false /\ has sess "reasoning" = false /\
  has sess "parallel_tool_calls" = false.
Proof.
  unfold checkDefaultedFields. intros H. peel H.
  repeat match goal with u : unit |- _ => destruct u end.
  repeat split; by eapply fail_if_Ok; [eexists|].
Qed.

(** A member decoded only when it is present. *)
Lemma decode_if {A} (b : bool) (r : result A) v :
  (if b then let? x := r in Ok (Some x) else Ok None) = Ok v -> is_some v = b.
Proof. destruct b; [|by intros [= <-]]. intros H. by apply bind_Ok_inv in H as (x & _ & [= <-]). Qed.

(** An accepted session.update is exact: its envelope, its session object
    and the objects nested in its audio have only documented keys; its type is
    "realtime" and no field outside the profile is given; and the patch sets
    a field if and only if the document mentions it (a null tool list or tool
    choice is no mention, a null transcription or turn detection sets the
    field to none), with the decoded value. *)
Theorem session_update_exact env u : decodeSessionUpdate env = Ok u ->
  let sess := child (body env) "session" in
  only (body env) ["type"; "event_id"; "session"] /\ only sess sessionKeys /\
  str sess "type" = Ok (Some sessionTypeGA) /\
  (given sess "prompt" = false /\ given sess "tracing" = false /\ has sess "reasoning" = false /\
   has sess "parallel_tool_calls" = false) /\
  is_some (su_model u) = has sess "model" /\
  is_some (Patch_Instructions (su_patch u)) = has sess "instructions" /\
  is_some (Patch_OutputModalities (su_patch u)) = has sess "output_modalities" /\
  is_some (Patch_MaxOutputTokens (su_patch u)) = has sess "max_output_tokens" /\
  is_some (Patch_Tools (su_patch u)) = given sess "tools" /\
  is_some (Patch_ToolChoice (su_patch u)) = given sess "tool_choice" /\
  audio_matches (child sess "audio")
    (MkAudioPatch (Patch_Transcription (su_patch u)) (Patch_TurnDetection (su_patch u))
       (Patch_Voice (su_patch u)) (Patch_Speed (su_patch u))).
Proof.
  intros H sess. unfold decodeSessionUpdate in H. peel H. injection H as <-. simpl.
  apply require_Ok in H2 as ->.
  assert (Hs : sess = a1) by (unfold sess; by rewrite (child_object _ _ _ H1)). clearbody sess. subst sess.
  apply require_Ok in H6 as ->. destruct a6. apply fail_if_Ok in H7; [|by eexists].
  apply negb_false_iff, String.eqb_eq in H7 as ->.
  split; [by eapply allow_only|]. split; [by eapply allow_only|]. split; [done|].
  split; [by eapply checkDefaultedFields_Ok|].
  repeat (split; [first [by eapply str_has|by eapply strings_has|by eapply decode_if]|]).
  rewrite (child_object _ _ _ H12). destruct a11 as [aud|]; simpl.
  - destruct a12. by apply decodeAudio_Ok.
  - injection H13 as <-. apply no_audio_matches.
Qed.

(** Audio survives the wire: the frame that carries the base64 text of
    any whole number of samples decodes to exactly those bytes, and whatever
    an accepted append decodes to is a whole number of 16-bit samples, each
    byte in range, so that no command ever carries half a sample. *)
Theorem audio_append_exact env p : only (body env) ["type"; "event_id"; "audio"] ->
  (Forall (fun b => 0 <= b < 256) p -> Z.rem (zlen p) BytesPerSample = 0 ->
     str (body env) "audio" = Ok (Some (EncodeToString p)) -> decodeAudioAppend env = Ok p) /\
  (decodeAudioAppend env = Ok p -> Forall (fun b => 0 <= b < 256) p /\ Z.rem (zlen p) BytesPerSample = 0).
Proof.
  intros Hk. unfold decodeAudioAppend. rewrite allow_complete by done. simpl. split.
  - intros Hp Hr ->. simpl. rewrite DecodeString_EncodeToString by done. by rewrite Hr.
  - intros H. peel H. destruct (DecodeString a0) as [q|] eqn:Hd; [|done].
    destruct (negb _) eqn:Hr; [done|]. injection H as ->. split.
    + unfold DecodeString in Hd. by eapply b64_quanta_bytes.
    + by apply negb_false_iff, Z.eqb_eq in Hr.
Qed.

(** ** Every rejection carries one of the two protocol codes *)

Definition coded {A} (r : result A) : Prop :=
  match r with Ok _ => True | Err e => we_code e = codeInvalidEvent \/ we_code e = codeInvalidValue end.

Create HintDb coded.

Lemma coded_Ok {A} (v : A) : coded (Ok v).
Proof. done. Qed.

Lemma coded_event {A} p : coded (@invalidEvent A p).
Proof. by left. Qed.

Lemma coded_value {A} p : coded (@invalidValue A p).
Proof. by right. Qed.

Lemma coded_bind {A B} (r : result A) (f : A -> result B) : coded r -> (forall x, coded (f x)) -> coded (bind_result r f).
Proof. destruct r; simpl; auto. Qed.

#[export] Hint Resolve coded_Ok coded_event coded_value : coded.
#[export] Hint Extern 1 (coded (unknownParam _)) => apply coded_value : coded.
#[export] Hint Extern 1 (coded (unsupportedParam _)) => apply coded_value : coded.
#[export] Hint Extern 1 (coded (missingParam _)) => apply coded_value : coded.
#[export] Hint Extern 1 (coded (wrongType _)) => apply coded_value : coded.
#[export] Hint Extern 1 (coded (unsupportedValue _)) => apply coded_value : coded.

(** Down the binds and the cases of a decoder. *)
Ltac decoder :=
  repeat first
    [ progress eauto 2 with coded
    | apply coded_bind; [|intros ?]
    | match goal with
      | |- coded (match ?x with _ => _ end) => destruct x eqn:?
      | |- coded (let (_, _) := ?x in _) => destruct x
      end ].

Lemma coded_fail_if b e : coded e -> coded (fail_if b e).
Proof. by destruct b. Qed.
Lemma coded_require {A} (o : option A) p : coded (require o p).
Proof. destruct o; decoder. Qed.
#[export] Hint Resolve coded_fail_if coded_require : coded.

Lemma coded_parseObject raw p : coded (parseObject raw p).
Proof. unfold parseObject. decoder. Qed.
Lemma coded_allow o keys : coded (allow o keys).
Proof. unfold allow. decoder. Qed.
Lemma coded_str o k : coded (str o k).
Proof. unfold str. decoder. Qed.
Lemma coded_float o k : coded (float o k).
Proof. unfold float. decoder. Qed.
#[export] Hint Resolve coded_parseObject coded_allow coded_str coded_float : coded.
Lemma coded_integer o k : coded (integer o k).
Proof. unfold integer. decoder. Qed.
Lemma coded_boolean o k : coded (boolean o k).
Proof. unfold boolean. decoder. Qed.
Lemma coded_object o k : coded (object o k).
Proof. unfold object. decoder. Qed.
Lemma coded_array o k : coded (array o k).
Proof. unfold array. decoder. Qed.
#[export] Hint Resolve coded_integer coded_boolean coded_object coded_array : coded.
Lemma coded_strings_loop p l : forall i, coded (strings_loop p i l).
Proof. induction l; intros i; simpl; decoder. Qed.
#[export] Hint Resolve coded_strings_loop : coded.
Lemma coded_strings o k : coded (strings o k).
Proof. unfold strings. decoder. Qed.
Lemma coded_maxTokens o k : coded (decodeMaxTokens o k).
Proof. unfold decodeMaxTokens. decoder. Qed.
Lemma coded_tool p raw : coded (decodeTool p raw).
Proof. unfold decodeTool. decoder. Qed.
#[export] Hint Resolve coded_strings coded_maxTokens coded_tool : coded.
Lemma coded_tools_loop p l : forall i, coded (decodeTools_loop p i l).
Proof. induction l; intros i; simpl; decoder. Qed.
#[export] Hint Resolve coded_tools_loop : coded.
Lemma coded_tools o : coded (decodeTools o).
Proof. unfold decodeTools. decoder. Qed.
Lemma coded_toolChoice o k : coded (decodeToolChoice o k).
Proof. unfold decodeToolChoice. cbv zeta. decoder. Qed.
Lemma coded_defaulted o : coded (checkDefaultedFields o).
Proof. unfold checkDefaultedFields. decoder. Qed.
Lemma coded_format o : coded (decodeFormat o).
Proof. unfold decodeFormat. decoder. Qed.
#[export] Hint Resolve coded_tools coded_toolChoice coded_defaulted coded_format : coded.
Lemma coded_check_format o : coded (check_format o).
Proof. unfold check_format. decoder. Qed.
Lemma coded_turnDetection o : coded (decodeTurnDetection o).
Proof. unfold decodeTurnDetection. decoder. Qed.
Lemma coded_transcription o : coded (decodeTranscription o).
Proof. unfold decodeTranscription. decoder. Qed.
Lemma coded_nullable {A} o k (dec : obj -> result A) : (forall x, coded (dec x)) -> coded (decode_nullable o k dec).
Proof. intros H. unfold decode_nullable. decoder. Qed.
Lemma coded_voice o : coded (decodeVoice o).
Proof. unfold decodeVoice. decoder. Qed.
#[export] Hint Resolve coded_check_format coded_turnDetection coded_transcription coded_nullable coded_voice : coded.
Lemma coded_audioInput o : coded (decodeAudioInput o).
Proof. unfold decodeAudioInput. decoder. Qed.
Lemma coded_audioOutput o : coded (decodeAudioOutput o).
Proof. unfold decodeAudioOutput. decoder. Qed.
#[export] Hint Resolve coded_audioInput coded_audioOutput : coded.
Lemma coded_audio o : coded (decodeAudio o).
Proof. unfold decodeAudio. decoder. Qed.
#[export] Hint Resolve coded_audio : coded.
Lemma coded_sessionUpdate env : coded (decodeSessionUpdate env).
Proof. unfold decodeSessionUpdate. decoder. Qed.
Lemma coded_audioAppend env : coded (decodeAudioAppend env).
Proof. unfold decodeAudioAppend. decoder. Qed.
Lemma coded_bare env : coded (decodeBare env).
Proof. apply coded_allow. Qed.
Lemma coded_refuse o l : coded (refuse o l).
Proof. unfold refuse. decoder. Qed.
Lemma coded_clientID o : coded (decodeClientID o).
Proof. unfold decodeClientID. decoder. Qed.
#[export] Hint Resolve coded_sessionUpdate coded_audioAppend coded_bare coded_refuse coded_clientID : coded.
Lemma coded_toolOutput o p : coded (decodeToolOutputItem o p).
Proof. unfold decodeToolOutputItem. decoder. Qed.
Lemma coded_message o p : coded (decodeMessageItem o p).
Proof. unfold decodeMessageItem. cbv zeta. decoder. Qed.
#[export] Hint Resolve coded_toolOutput coded_message : coded.
Lemma coded_itemCreate env : coded (decodeItemCreate env).
Proof. unfold decodeItemCreate. decoder. Qed.
Lemma coded_itemID env : coded (decodeItemID env).
Proof. unfold decodeItemID. decoder. Qed.
Lemma coded_itemTruncate env : coded (decodeItemTruncate env).
Proof. unfold decodeItemTruncate. decoder. Qed.
Lemma coded_metadata_loop o l : coded (metadata_loop o l).
Proof. induction l as [|[k v] l IH]; simpl; decoder. Qed.
#[export] Hint Resolve coded_itemCreate coded_itemID coded_itemTruncate coded_metadata_loop : coded.
Lemma coded_metadata o : coded (decodeMetadata o).
Proof. unfold decodeMetadata. decoder. Qed.
Lemma coded_responseAudio o : coded (decodeResponseAudio o).
Proof. unfold decodeResponseAudio. decoder. Qed.
#[export] Hint Resolve coded_metadata coded_responseAudio : coded.
Lemma coded_responseCreate env : coded (decodeResponseCreate env).
Proof. unfold decodeResponseCreate. decoder. Qed.
Lemma coded_responseCancel env : coded (decodeResponseCancel env).
Proof. unfold decodeResponseCancel. decoder. Qed.
#[export] Hint Resolve coded_responseCreate coded_responseCancel : coded.

Lemma coded_envelope msg : coded (decodeEnvelope msg).2.
Proof.
  unfold decodeEnvelope. destruct msg as [raw|]; [|by left].
  destruct (parseObject raw EmptyString) as [b|e]; [|by left].
  pose proof (coded_str b "event_id") as Hs. destruct (str b "event_id") as [id|e]; [|exact Hs].
  cbv zeta. destruct (_ <? _); [by right|].
  destruct (str b "type") as [[t|]|]; [done|by left|by left].
Qed.

(** ** Instances *)

Definition envelope_of (l : list (string * json)) : envelope :=
  {| typ := EmptyString; eventID := EmptyString; body := {| path := EmptyString; m := l |} |}.

Definition demo_update : envelope :=
  envelope_of [("type", JStr "session.update");
    ("session", JObj [("type", JStr "realtime"); ("instructions", JStr "Be brief."); ("max_output_tokens", JNum "64");
       ("audio", JObj [("input", JObj [("turn_detection", JNull); ("transcription", JObj [("model", JStr "m")])]);
                       ("output", JObj [("voice", JStr "alloy"); ("speed", JNum "1.25")])])])].

Lemma session_update_exact_witness :
  exists u, decodeSessionUpdate demo_update = Ok u /\
    str (child (body demo_update) "session") "type" = Ok (Some sessionTypeGA) /\
    Patch_TurnDetection (su_patch u) = SetTo None.
Proof.
  destruct (decodeSessionUpdate demo_update) as [u|] eqn:H.
  - exists u. split; [done|]. split; [apply (session_update_exact _ u H)|].
    revert H. vm_compute. by intros [= <-].
  - exfalso. revert H. vm_compute. discriminate.
Defined.

Definition demo_append : envelope :=
  envelope_of [("type", JStr "input_audio_buffer.append"); ("audio", JStr (EncodeToString [1; 2; 255; 128]))].

Lemma audio_append_exact_witness : decodeAudioAppend demo_append = Ok [1; 2; 255; 128].
Proof.
  apply (audio_append_exact demo_append [1; 2; 255; 128]).
  - intros k. unfold has, member. cbn [body demo_append envelope_of m assoc].
    destruct (String.eqb_spec k "type") as [->|]; [simpl; tauto|].
    destruct (String.eqb_spec k "audio") as [->|]; [simpl; tauto|]. done.
  - repeat constructor; lia.
  - by vm_compute.
  - by vm_compute.
Defined.
