(* ===== verification/Wire.v ===== *)
(** * Server frames ([internal/protocol/wire.go])

    The structs a server event is made of, with their JSON tags: each wire
    struct is a record and its [..._json] function renders it as [encoding/json]
    does, field by field in order, [omitempty] included (the members of a Go map
    are rendered in the order of the association list). The text of a float is
    a parameter of the rendering, [FormatFloat].

    Shown: a client may send back the session object it was told, and gets the
    same session ([Adapter.session_echo_roundtrip] uses the lemmas here). The
    message text of an error is not modelled. *)

From S2P Require Export Decode.
From Stdlib Require Import QArith Ascii.
#[local] Open Scope string_scope.
#[local] Open Scope Z_scope.

(** ** Decimal integers *)

Definition dec_digit (n : Z) : Ascii.ascii := ascii_of_nat (Z.to_nat (48 + n)).

Fixpoint dec_loop (fuel : nat) (n : Z) (acc : string) : string :=
  match fuel with
  | O => acc
  | S fuel =>
      let acc' := String (dec_digit (n mod 10)) acc in
      if n <? 10 then acc' else dec_loop fuel (n / 10) acc'
  end.

(** [strconv.Itoa]: a number has at most as many digits as bits. *)
Definition Itoa (n : Z) : string :=
  let digits n := dec_loop (S (Z.to_nat (Z.log2 n))) n EmptyString in
  if n <? 0 then String "-" (digits (- n)) else digits n.

(** ** Constants *)

Definition objectSession := "realtime.session".
Definition objectConversation := "realtime.conversation".
Definition objectItem := "realtime.item".
Definition objectResponse := "realtime.response".
Definition defaultModel := "cascade".

(** ** JSON fields *)

Definition JInt (n : Z) : json := JNum (Itoa n).
Definition fstr (k v : string) : list (string * json) := [(k, JStr v)].
Definition fint (k : string) (n : Z) : list (string * json) := [(k, JInt n)].
Definition fbool (k : string) (b : bool) : list (string * json) := [(k, JBool b)].
(** A pointer field: nil is null. *)
Definition fptr (k : string) (v : option string) : list (string * json) :=
  [(k, match v with Some s => JStr s | None => JNull end)].
(** [omitempty] on a string, and on a pointer. *)
Definition fomit (k v : string) : list (string * json) := if String.eqb v EmptyString then [] else fstr k v.
Definition fomitptr (k : string) (v : option string) : list (string * json) :=
  match v with Some s => fstr k s | None => [] end.

(** [MaxOutputTokens.MarshalJSON] *)
Definition maxTokens_json (t : MaxOutputTokens) : json :=
  if Inf t then JStr "inf" else JInt (Config.N t).

(** [ToolChoice.MarshalJSON] *)
Definition toolChoice_json (tc : ToolChoice) : json :=
  if String.eqb (Mode tc) ToolChoiceFunction
  then JObj (fstr "type" ToolChoiceFunction ++ fstr "name" (TC_Name tc))
  else JStr (if String.eqb (Mode tc) EmptyString then ToolChoiceAuto else Mode tc).

(** ** The session object *)

Record wireTranscription := MkWireTranscription { wtr_Model : string; wtr_Language : string; wtr_Prompt : string }.

Record wireServerVAD := MkWireServerVAD {
  sv_Type : string; sv_Threshold : float64; sv_PrefixPaddingMs : Z; sv_SilenceDurationMs : Z;
  sv_CreateResponse : bool; sv_InterruptResponse : bool
}.

Record wireSemanticVAD := MkWireSemanticVAD {
  sem_Type : string; sem_Eagerness : string; sem_CreateResponse : bool; sem_InterruptResponse : bool
}.

(** The "any" that holds one of the two, or nil. *)
Inductive wireTurnDetection := WServer (w : wireServerVAD) | WSemantic (w : wireSemanticVAD).

Record wireAudioInput := MkWireAudioInput {
  wi_Format : AudioFormat; wi_Transcription : option wireTranscription; wi_TurnDetection : option wireTurnDetection
}.
Record wireAudioOutput := MkWireAudioOutput { wo_Format : AudioFormat; wo_Voice : string; wo_Speed : float64 }.
Record wireAudio := MkWireAudio { wa_Input : wireAudioInput; wa_Output : wireAudioOutput }.

Record wireTool := MkWireTool {
  wt_Type : string; wt_Name : string; wt_Description : string; wt_Parameters : option json
}.

Record wireSession := MkWireSession {
  ws_ID : string; ws_Object : string; ws_Type : string; ws_Model : string; ws_Instructions : string;
  ws_OutputModalities : list string; ws_Audio : wireAudio; ws_MaxOutputTokens : MaxOutputTokens;
  ws_Tools : list wireTool; ws_ToolChoice : ToolChoice; ws_Truncation : string
}.

Definition toolObjects (tools : list Tool) : list wireTool :=
  map (fun t => MkWireTool (Tool_Type t) (Tool_Name t) (Tool_Description t) (Tool_Parameters t)) tools.

Definition turnDetectionObject (td : option TurnDetection) : option wireTurnDetection :=
  match td with
  | None => None
  | Some td =>
      if String.eqb (TD_Type td) TurnDetectionServerVAD then
        Some (WServer (MkWireServerVAD (TD_Type td) (default DefaultVADThreshold (TD_Threshold td))
          (default DefaultVADPrefixPaddingMs (TD_PrefixPaddingMs td))
          (default DefaultVADSilenceDurationMs (TD_SilenceDurationMs td))
          (CreateResponse td) (InterruptResponse td)))
      else if String.eqb (TD_Type td) TurnDetectionSemanticVAD then
        Some (WSemantic (MkWireSemanticVAD (TD_Type td) (default "auto" (TD_Eagerness td))
          (CreateResponse td) (InterruptResponse td)))
      else None
  end.

Definition sessionObject (id model : string) (cfg : SessionDefaults) : wireSession :=
  {| ws_ID := id; ws_Object := objectSession; ws_Type := sessionTypeGA; ws_Model := model;
     ws_Instructions := SD_Instructions cfg; ws_OutputModalities := SD_OutputModalities cfg;
     ws_Audio :=
       {| wa_Input :=
            {| wi_Format := pcmFormat;
               wi_Transcription :=
                 option_map (fun tr => MkWireTranscription (Tr_Model tr) (Tr_Language tr) (Tr_Prompt tr))
                   (In_Transcription (SD_Input cfg));
               wi_TurnDetection := turnDetectionObject (In_TurnDetection (SD_Input cfg)) |};
          wa_Output := {| wo_Format := pcmFormat; wo_Voice := Out_Voice (SD_Output cfg); wo_Speed := Out_Speed (SD_Output cfg) |} |};
     ws_MaxOutputTokens := SD_MaxOutputTokens cfg; ws_Tools := toolObjects (SD_Tools cfg);
     ws_ToolChoice := SD_ToolChoice cfg; ws_Truncation := "auto" |}.

Definition format_json (f : AudioFormat) : json := JObj (fstr "type" (AF_Type f) ++ fint "rate" (Rate f)).

Definition transcription_json (t : option wireTranscription) : json :=
  match t with
  | None => JNull
  | Some t => JObj (fomit "model" (wtr_Model t) ++ fomit "language" (wtr_Language t) ++ fomit "prompt" (wtr_Prompt t))
  end.

Definition tool_json (t : wireTool) : json :=
  JObj (fstr "type" (wt_Type t) ++ fstr "name" (wt_Name t) ++ fomit "description" (wt_Description t) ++
        match wt_Parameters t with Some p => [("parameters", p)] | None => [] end).

Section render.
Context (FormatFloat : float64 -> string).

Definition ffloat (k : string) (f : float64) : list (string * json) := [(k, JNum (FormatFloat f))].

Definition turnDetection_json (td : option wireTurnDetection) : json :=
  match td with
  | None => JNull
  | Some (WServer w) =>
      JObj (fstr "type" (sv_Type w) ++ ffloat "threshold" (sv_Threshold w) ++
            fint "prefix_padding_ms" (sv_PrefixPaddingMs w) ++ fint "silence_duration_ms" (sv_SilenceDurationMs w) ++
            fbool "create_response" (sv_CreateResponse w) ++ fbool "interrupt_response" (sv_InterruptResponse w) ++
            [("idle_timeout_ms", JNull)])
  | Some (WSemantic w) =>
      JObj (fstr "type" (sem_Type w) ++ fstr "eagerness" (sem_Eagerness w) ++
            fbool "create_response" (sem_CreateResponse w) ++ fbool "interrupt_response" (sem_InterruptResponse w))
  end.

Definition audio_json (a : wireAudio) : json :=
  JObj [("input", JObj [("format", format_json (wi_Format (wa_Input a)));
                        ("transcription", transcription_json (wi_Transcription (wa_Input a)));
                        ("turn_detection", turnDetection_json (wi_TurnDetection (wa_Input a)));
                        ("noise_reduction", JNull)]);
        ("output", JObj ([("format", format_json (wo_Format (wa_Output a)))] ++
                         fstr "voice" (wo_Voice (wa_Output a)) ++ ffloat "speed" (wo_Speed (wa_Output a))))].

(** The fields after "id" and "object". *)
Definition session_fields (s : wireSession) : list (string * json) :=
  fstr "type" (ws_Type s) ++ fstr "model" (ws_Model s) ++ fstr "instructions" (ws_Instructions s) ++
  [("output_modalities", JArr (map JStr (ws_OutputModalities s))); ("audio", audio_json (ws_Audio s));
   ("max_output_tokens", maxTokens_json (ws_MaxOutputTokens s)); ("tools", JArr (map tool_json (ws_Tools s)));
   ("tool_choice", toolChoice_json (ws_ToolChoice s))] ++ fstr "truncation" (ws_Truncation s) ++
  [("tracing", JNull); ("prompt", JNull)].

Definition session_json (s : wireSession) : json :=
  JObj (fstr "id" (ws_ID s) ++ fstr "object" (ws_Object s) ++ session_fields s).
End render.

(** ** Errors *)

Record wireError := MkWireError {
  er_Type : string; er_Code : string; er_Param : option string; er_EventID : option string
}.

Definition error_json (e : wireError) : json :=
  JObj (fstr "type" (er_Type e) ++ fstr "code" (er_Code e) ++ fptr "param" (er_Param e) ++ fptr "event_id" (er_EventID e)).

(** ** Items *)

(** The one content part of a message. *)
Inductive wirePart :=
| wireTextPart (ty text : string)
| wireInputAudioPart (ty : string) (transcript : option string)
| wireOutputAudioPart (ty transcript : string).

Record wireItem := MkWireItem {
  wit_ID : string; wit_Object : string; wit_Type : string; wit_Role : string; wit_Status : string;
  wit_Content : list wirePart
}.

Record wireToolCallItem := MkWireToolCallItem {
  wtc_ID : string; wtc_Object : string; wtc_Type : string; wtc_Name : string; wtc_CallID : string;
  wtc_Arguments : string; wtc_Status : string
}.

Record wireToolOutputItem := MkWireToolOutputItem {
  wto_ID : string; wto_Object : string; wto_Type : string; wto_CallID : string; wto_Output : string;
  wto_Status : string
}.

(** The "any" of the three shapes. *)
Inductive anyWireItem := AnyMessage (w : wireItem) | AnyToolCall (w : wireToolCallItem) | AnyToolOutput (w : wireToolOutputItem).

Definition itemStatus_string (s : ItemStatus) : string :=
  match s with ItemInProgress => "in_progress" | ItemCompleted => "completed" | ItemIncomplete => "incomplete" end.

Definition itemObject (id : string) (it : Item) : wireItem :=
  {| wit_ID := id; wit_Object := objectItem; wit_Type := "message"; wit_Role := Role it;
     wit_Status := itemStatus_string (Status it);
     wit_Content :=
       [ if String.eqb (Role it) RoleAssistant && bool_decide (Content it = ContentAudio)
         then wireOutputAudioPart "output_audio" (Text it)
         else if String.eqb (Role it) RoleAssistant then wireTextPart "output_text" (Text it)
         else if bool_decide (Content it = ContentAudio)
         then wireInputAudioPart "input_audio" (if TranscriptDone it then Some (Text it) else None)
         else wireTextPart "input_text" (Text it) ] |}.

Definition anyItem (id callID : string) (it : Item) : anyWireItem :=
  match Content it with
  | ContentToolCall =>
      AnyToolCall (MkWireToolCallItem id objectItem "function_call" (Name it) callID (Text it) (itemStatus_string (Status it)))
  | ContentToolOutput =>
      AnyToolOutput (MkWireToolOutputItem id objectItem "function_call_output" callID (Text it) (itemStatus_string (Status it)))
  | _ => AnyMessage (itemObject id it)
  end.

(** The ids a rendered item shows: its own, and the call id of a tool item. *)
Definition any_id (a : anyWireItem) : string :=
  match a with AnyMessage w => wit_ID w | AnyToolCall w => wtc_ID w | AnyToolOutput w => wto_ID w end.
Definition any_call (a : anyWireItem) : option string :=
  match a with AnyMessage _ => None | AnyToolCall w => Some (wtc_CallID w) | AnyToolOutput w => Some (wto_CallID w) end.

Definition part_json (p : wirePart) : json :=
  match p with
  | wireTextPart ty text => JObj (fstr "type" ty ++ fstr "text" text)
  | wireInputAudioPart ty tr => JObj (fstr "type" ty ++ fptr "transcript" tr)
  | wireOutputAudioPart ty tr => JObj (fstr "type" ty ++ fstr "transcript" tr)
  end.

Definition anyItem_json (a : anyWireItem) : json :=
  match a with
  | AnyMessage w =>
      JObj (fstr "id" (wit_ID w) ++ fstr "object" (wit_Object w) ++ fstr "type" (wit_Type w) ++
            fstr "role" (wit_Role w) ++ fstr "status" (wit_Status w) ++ [("content", JArr (map part_json (wit_Content w)))])
  | AnyToolCall w =>
      JObj (fstr "id" (wtc_ID w) ++ fstr "object" (wtc_Object w) ++ fstr "type" (wtc_Type w) ++ fstr "name" (wtc_Name w) ++
            fstr "call_id" (wtc_CallID w) ++ fstr "arguments" (wtc_Arguments w) ++ fstr "status" (wtc_Status w))
  | AnyToolOutput w =>
      JObj (fstr "id" (wto_ID w) ++ fstr "object" (wto_Object w) ++ fstr "type" (wto_Type w) ++
            fstr "call_id" (wto_CallID w) ++ fstr "output" (wto_Output w) ++ fstr "status" (wto_Status w))
  end.

(** ** Responses *)

Record wireStatusDetails := MkWireStatusDetails {
  sd_Type : string; sd_Reason : string; sd_Error : option (string * string)
}.

Record wireUsage := MkWireUsage {
  wu_TotalTokens : Z; wu_InputTokens : Z; wu_OutputTokens : Z; wu_InputText : Z; wu_OutputText : Z
}.

Record wireResponse := MkWireResponse {
  wr_ID : string; wr_Object : string; wr_Status : string; wr_StatusDetails : option wireStatusDetails;
  wr_Output : list anyWireItem; wr_Usage : option wireUsage; wr_ConversationID : string;
  wr_OutputModalities : list string; wr_Format : AudioFormat; wr_Voice : string;
  wr_MaxOutputTokens : MaxOutputTokens; wr_Metadata : option (list (string * string))
}.

Definition statusDetails_json (d : option wireStatusDetails) : json :=
  match d with
  | None => JNull
  | Some d =>
      JObj (fstr "type" (sd_Type d) ++ fomit "reason" (sd_Reason d) ++
            match sd_Error d with
            | Some (ty, code) => [("error", JObj (fstr "type" ty ++ fstr "code" code))]
            | None => []
            end)
  end.

Definition usage_json (u : option wireUsage) : json :=
  match u with
  | None => JNull
  | Some u =>
      JObj (fint "total_tokens" (wu_TotalTokens u) ++ fint "input_tokens" (wu_InputTokens u) ++
            fint "output_tokens" (wu_OutputTokens u) ++
            [("input_token_details",
                JObj (fint "text_tokens" (wu_InputText u) ++ fint "audio_tokens" 0 ++ fint "cached_tokens" 0));
             ("output_token_details", JObj (fint "text_tokens" (wu_OutputText u) ++ fint "audio_tokens" 0))])
  end.

Definition response_json (r : wireResponse) : json :=
  JObj (fstr "id" (wr_ID r) ++ fstr "object" (wr_Object r) ++ fstr "status" (wr_Status r) ++
        [("status_details", statusDetails_json (wr_StatusDetails r)); ("output", JArr (map anyItem_json (wr_Output r)));
         ("usage", usage_json (wr_Usage r))] ++ fstr "conversation_id" (wr_ConversationID r) ++
        [("output_modalities", JArr (map JStr (wr_OutputModalities r)));
         ("audio", JObj [("output", JObj ([("format", format_json (wr_Format r))] ++ fstr "voice" (wr_Voice r)))]);
         ("max_output_tokens", maxTokens_json (wr_MaxOutputTokens r));
         ("metadata", match wr_Metadata r with
                      | Some l => JObj (map (fun kv => (kv.1, JStr kv.2)) l)
                      | None => JNull
                      end)]).

Record wireContentPart := MkWireContentPart {
  cp_Type : string; cp_Text : option string; cp_Transcript : option string
}.

Definition contentPart_json (p : wireContentPart) : json :=
  JObj (fstr "type" (cp_Type p) ++ fomitptr "text" (cp_Text p) ++ fomitptr "transcript" (cp_Transcript p)).

(** ** Server events *)

Record base := MkBase { EventID : string; Type_ : string }.

(** What follows the base in each event struct; the content index of the delta
    and done structs, and the output index of [outputDeltaEvent] and
    [outputDoneEvent], are fields nothing sets and render as 0. *)
Inductive payload :=
| bareEvent
| sessionEvent (s : wireSession)
| conversationCreatedEvent (id object : string)
| errorEvent (e : wireError)
| itemEvent (prev : option string) (item : anyWireItem)
| itemIDEvent (id : string)
| itemTruncatedEvent (id : string) (contentIndex audioEndMs : Z)
| committedEvent (prev : option string) (id : string)
| speechStartedEvent (ms : Z) (id : string)
| speechStoppedEvent (ms : Z) (id : string)
| transcriptDeltaEvent (id delta : string)
| transcriptCompletedEvent (id transcript : string) (usageType : string) (seconds : float64)
| responseEvent (r : wireResponse)
| outputItemEvent (resp : string) (idx : Z) (item : anyWireItem)
| toolArgumentsEvent (resp id : string) (idx : Z) (callID delta name arguments : string)
| contentPartEvent (resp id : string) (idx : Z) (part : wireContentPart)
| outputDeltaEvent (resp id delta : string)
| outputDoneEvent (resp id : string) (text transcript : option string).

Definition frame : Type := base * payload.

Section frames.
Context (FormatFloat : float64 -> string).

Definition payload_fields (p : payload) : list (string * json) :=
  match p with
  | bareEvent => []
  | sessionEvent s => [("session", session_json FormatFloat s)]
  | conversationCreatedEvent id object => [("conversation", JObj (fstr "id" id ++ fstr "object" object))]
  | errorEvent e => [("error", error_json e)]
  | itemEvent prev item => fptr "previous_item_id" prev ++ [("item", anyItem_json item)]
  | itemIDEvent id => fstr "item_id" id
  | itemTruncatedEvent id ci ms => fstr "item_id" id ++ fint "content_index" ci ++ fint "audio_end_ms" ms
  | committedEvent prev id => fptr "previous_item_id" prev ++ fstr "item_id" id
  | speechStartedEvent ms id => fint "audio_start_ms" ms ++ fstr "item_id" id
  | speechStoppedEvent ms id => fint "audio_end_ms" ms ++ fstr "item_id" id
  | transcriptDeltaEvent id delta => fstr "item_id" id ++ fint "content_index" 0 ++ fstr "delta" delta
  | transcriptCompletedEvent id tr ty sec =>
      fstr "item_id" id ++ fint "content_index" 0 ++ fstr "transcript" tr ++
      [("usage", JObj (fstr "type" ty ++ ffloat FormatFloat "seconds" sec))]
  | responseEvent r => [("response", response_json r)]
  | outputItemEvent resp idx item => fstr "response_id" resp ++ fint "output_index" idx ++ [("item", anyItem_json item)]
  | toolArgumentsEvent resp id idx callID delta name arguments =>
      fstr "response_id" resp ++ fstr "item_id" id ++ fint "output_index" idx ++ fstr "call_id" callID ++
      fomit "delta" delta ++ fomit "name" name ++ fomit "arguments" arguments
  | contentPartEvent resp id idx part =>
      fstr "response_id" resp ++ fstr "item_id" id ++ fint "output_index" idx ++ fint "content_index" 0 ++
      [("part", contentPart_json part)]
  | outputDeltaEvent resp id delta =>
      fstr "response_id" resp ++ fstr "item_id" id ++ fint "output_index" 0 ++ fint "content_index" 0 ++ fstr "delta" delta
  | outputDoneEvent resp id text tr =>
      fstr "response_id" resp ++ fstr "item_id" id ++ fint "output_index" 0 ++ fint "content_index" 0 ++
      fomitptr "text" text ++ fomitptr "transcript" tr
  end.

(** [marshal]: the embedded base comes first. *)
Definition marshal (f : frame) : json :=
  JObj (fstr "event_id" (EventID f.1) ++ fstr "type" (Type_ f.1) ++ payload_fields f.2).
End frames.

(** ** Reading back an integer *)

Lemma digit_dec n : 0 <= n < 10 -> digit (dec_digit n) = Some n.
Proof.
  intros. unfold digit, dec_digit. rewrite nat_ascii_embedding by lia. cbv zeta.
  destruct (_ && _) eqn:E; [f_equal; lia|]. apply andb_false_iff in E as [?|?]; zlia.
Qed.

(** The digits of [n] put before a text are read first. *)
Lemma digits_loop : forall fuel n s, 0 <= n -> n < 2 ^ Z.of_nat fuel -> 1 <= Z.of_nat fuel ->
  exists len, 1 <= len /\ forall acc c, digits (dec_loop fuel n s) acc c = digits s (acc * 10 ^ len + n) (c + len).
Proof.
  induction fuel as [|fuel IH]; intros n s Hn Hlt Hf; [lia|]. cbn [dec_loop].
  pose proof (Z.mod_pos_bound n 10). destruct (n <? 10) eqn:E; bool_arith.
  - exists 1. split; [lia|]. intros. cbn [digits]. rewrite digit_dec by lia. rewrite Z.mod_small by lia.
    f_equal; lia.
  - assert (Hd : n / 10 < 2 ^ Z.of_nat fuel).
    { apply Z.div_lt_upper_bound; [lia|]. rewrite Nat2Z.inj_succ, Z.pow_succ_r in Hlt by lia. lia. }
    destruct (IH (n / 10) (String (dec_digit (n mod 10)) s)) as (len & Hl & IHd); [apply Z.div_pos; lia|done| |].
    { destruct fuel; [|lia]. simpl in Hlt. lia. }
    exists (len + 1). split; [lia|]. intros. rewrite IHd. cbn [digits]. rewrite digit_dec by lia.
    rewrite Z.pow_add_r by lia. f_equal; pose proof (Z.div_mod n 10); lia.
Qed.

Lemma log2_fuel n : 0 <= n -> n < 2 ^ Z.of_nat (S (Z.to_nat (Z.log2 n))).
Proof.
  intros. rewrite Nat2Z.inj_succ, Z2Nat.id by apply Z.log2_nonneg.
  destruct (Z.eq_dec n 0) as [->|]; [done|]. apply Z.log2_spec. lia.
Qed.

Lemma digits_Itoa n acc c : 0 <= n ->
  exists len, 1 <= len /\ digits (Itoa n) acc c = (acc * 10 ^ len + n, c + len, EmptyString).
Proof.
  intros Hn. unfold Itoa. rewrite (proj2 (Z.ltb_ge n 0)) by lia.
  destruct (digits_loop (S (Z.to_nat (Z.log2 n))) n EmptyString Hn (log2_fuel n Hn)) as (len & Hl & Hd); [lia|].
  exists len. split; [done|]. by rewrite Hd.
Qed.

(** A text that starts with a digit has no sign. *)
Lemma digits_head s v n : (digits s 0 0).1 = (v, n) -> 0 < n -> exists c t d, s = String c t /\ digit c = Some d.
Proof.
  destruct s as [|c t]; simpl; [intros [= <- <-]; lia|].
  destruct (digit c) as [d|] eqn:E; [by exists c, t, d|intros [= <- <-]; lia].
Qed.

Lemma no_sign {A} c t d (f : string -> A) (x : A) : digit c = Some d ->
  (match String c t with String "-" s => f s | _ => x end) = x.
Proof.
  intros Hd. destruct c as [[] [] [] [] [] [] [] []]; try done.
Qed.

Lemma Itoa_head n : 0 <= n -> exists c t d, Itoa n = String c t /\ digit c = Some d.
Proof.
  intros Hn. destruct (digits_Itoa n 0 0 Hn) as (len & Hl & Hd).
  apply (digits_head _ n len); [by rewrite Hd|lia].
Qed.

Lemma Atoi_Itoa n : 0 <= n < 2 ^ 63 -> Atoi (Itoa n) = Some n.
Proof.
  intros Hn. unfold Atoi. destruct (Itoa_head n) as (c & t & d & Hs & Hd); [lia|].
  destruct (digits_Itoa n 0 0) as (len & Hl & Hr); [lia|]. rewrite Hs in *. rewrite (no_sign c t d) by done.
  rewrite Hr. simpl. rewrite (proj2 (Z.ltb_lt 0 (0 + len))), (proj2 (Z.leb_le _ n)), (proj2 (Z.ltb_lt n _)) by lia.
  done.
Qed.

Lemma literal_Itoa n : 0 <= n -> literal_value (Itoa n) = (n # 1)%Q.
Proof.
  intros Hn. unfold literal_value. destruct (Itoa_head n) as (c & t & d & Hs & Hd); [lia|].
  destruct (digits_Itoa n 0 0) as (len & Hl & Hr); [lia|]. rewrite Hs in *. rewrite (no_sign c t d) by done.
  rewrite Hr. simpl. by rewrite Z.mul_1_r.
Qed.

Lemma ParseFloat_Itoa n : 0 <= n < 2 ^ prec -> exists f, ParseFloat (Itoa n) = Some f /\ (f == n # 1)%Q.
Proof.
  intros Hn. unfold ParseFloat. rewrite literal_Itoa by lia. fold (of_int n). exists (of_int n).
  pose proof (rnd_of_int n Hn) as He. split; [|done].
  assert (Hp : 2 ^ prec < 2 ^ 1024) by (apply Z.pow_lt_mono_r; unfold prec; lia).
  unfold fle. replace (Qle_bool _ (of_int n)) with false; [replace (Qle_bool (of_int n) _) with false; [done|]|].
  - symmetry. apply not_true_iff_false. rewrite Qle_bool_iff, He. unfold Qle. simpl. lia.
  - symmetry. apply not_true_iff_false. rewrite Qle_bool_iff, He. unfold Qle. cbn [Qnum Qden]. lia.
Qed.

Lemma to_int_Qeq f n : (f == n # 1)%Q -> to_int f = n.
Proof.
  unfold to_int, Qeq. cbn [Qnum Qden]. rewrite Z.mul_1_r. intros ->. by rewrite Z.quot_mul.
Qed.

(** An integer field reads back. *)
Lemma integer_Itoa o k n : 0 <= n < 2 ^ prec -> member o k = Some (JInt n) -> integer o k = Ok (Some n).
Proof.
  intros Hn Hm. unfold integer, float. rewrite Hm. cbn.
  destruct (ParseFloat_Itoa n Hn) as (f & -> & Hf). simpl. pose proof (to_int_Qeq f n Hf) as Ht. rewrite Ht.
  replace (Qeq_bool f (n # 1)) with true by (symmetry; by apply Qeq_bool_iff). simpl.
  unfold float_to_int. rewrite Ht. unfold prec in Hn.
  by rewrite (proj2 (Z.leb_le _ n)), (proj2 (Z.ltb_lt n _)) by lia.
Qed.
