(* ===== verification/Adapter.v ===== *)
(** * The protocol adapter ([internal/protocol/adapter.go], [ids.go])

    One connection's adapter: client frames go in and become commands posted to
    the session ([Inbound]), session events go in and become server frames
    ([Outbound]). The mutex makes each call atomic, except that an item.create
    is checked against the id table before its item enters the table, which
    only [Outbound] does.

    An operation is a function of the adapter in a state monad whose [None] is a
    nil-pointer panic. Identifiers come from [crypto/rand]: [rand n j] is byte
    [j] of the [n]-th read. A frame is the struct the code marshals ([Wire]).

    Shown: the projection panics exactly on the events of a response it was not
    told of, and numbers its frames in order; every client frame is answered by one command or one
    error; ids and refs correspond; output indices are stable; a session object
    sent back to the gateway is accepted and changes nothing. *)

From S2P Require Export Wire Session.
From Stdlib Require Import QArith Ascii.
From S2P Require Import SessionStep.
#[local] Open Scope string_scope.
#[local] Open Scope Z_scope.

(** ** State *)

(** An item's wire id, the wire call id of a tool item, and what later frames
    repeat. *)
Record itemState := MkItemState {
  is_id : string; is_prev : option string; is_audioMs : Z; is_callID : string; is_name : string
}.

Definition new_itemState (id : string) : itemState := MkItemState id None 0 EmptyString EmptyString.
Definition set_prev (p : option string) (st : itemState) : itemState :=
  MkItemState (is_id st) p (is_audioMs st) (is_callID st) (is_name st).
Definition set_audioMs (ms : Z) (st : itemState) : itemState :=
  MkItemState (is_id st) (is_prev st) ms (is_callID st) (is_name st).
Definition set_call (call name : string) (st : itemState) : itemState :=
  MkItemState (is_id st) (is_prev st) (is_audioMs st) call name.

Record respState := MkRespState {
  rs_id : string; rs_itemID : string; rs_textOnly : bool; rs_modal : list string; rs_voice : string;
  rs_maxTokens : MaxOutputTokens; rs_metadata : option (list (string * string));
  outputIndex : gmap ItemRef Z; nextIndex : Z
}.

Definition set_itemID (id : string) (rs : respState) : respState :=
  MkRespState (rs_id rs) id (rs_textOnly rs) (rs_modal rs) (rs_voice rs) (rs_maxTokens rs) (rs_metadata rs)
    (outputIndex rs) (nextIndex rs).
Definition set_index (idx : gmap ItemRef Z) (next : Z) (rs : respState) : respState :=
  MkRespState (rs_id rs) (rs_itemID rs) (rs_textOnly rs) (rs_modal rs) (rs_voice rs) (rs_maxTokens rs) (rs_metadata rs)
    idx next.

(** [respState.index]: the output index of an item, assigned on first sight. *)
Definition index (ref : ItemRef) (rs : respState) : Z * respState :=
  match outputIndex rs !! ref with
  | Some i => (i, rs)
  | None => (nextIndex rs, set_index (<[ref := nextIndex rs]> (outputIndex rs)) (nextIndex rs + 1) rs)
  end.

(** [acfg] is the field [cfg]; [draws] counts the reads of the random source. *)
Record Adapter := MkAdapter {
  sessionID : string;
  convID : string;
  model : string;
  acfg : SessionDefaults;
  eventPrefix : string;
  eventSeq : Z;
  items : gmap ItemRef itemState;
  itemByID : gmap string ItemRef;
  callByID : gmap string ItemRef;
  callWire : gmap string string;
  resps : gmap ResponseRef respState;
  respByID : gmap string ResponseRef;
  draws : nat
}.

Definition set_model v (a : Adapter) : Adapter :=
  MkAdapter (sessionID a) (convID a) v (acfg a) (eventPrefix a) (eventSeq a) (items a) (itemByID a) (callByID a) (callWire a) (resps a) (respByID a) (draws a).
Definition set_acfg v (a : Adapter) : Adapter :=
  MkAdapter (sessionID a) (convID a) (model a) v (eventPrefix a) (eventSeq a) (items a) (itemByID a) (callByID a) (callWire a) (resps a) (respByID a) (draws a).
Definition set_eventSeq v (a : Adapter) : Adapter :=
  MkAdapter (sessionID a) (convID a) (model a) (acfg a) (eventPrefix a) v (items a) (itemByID a) (callByID a) (callWire a) (resps a) (respByID a) (draws a).
Definition set_items v (a : Adapter) : Adapter :=
  MkAdapter (sessionID a) (convID a) (model a) (acfg a) (eventPrefix a) (eventSeq a) v (itemByID a) (callByID a) (callWire a) (resps a) (respByID a) (draws a).
Definition set_itemByID v (a : Adapter) : Adapter :=
  MkAdapter (sessionID a) (convID a) (model a) (acfg a) (eventPrefix a) (eventSeq a) (items a) v (callByID a) (callWire a) (resps a) (respByID a) (draws a).
Definition set_callByID v (a : Adapter) : Adapter :=
  MkAdapter (sessionID a) (convID a) (model a) (acfg a) (eventPrefix a) (eventSeq a) (items a) (itemByID a) v (callWire a) (resps a) (respByID a) (draws a).
Definition set_callWire v (a : Adapter) : Adapter :=
  MkAdapter (sessionID a) (convID a) (model a) (acfg a) (eventPrefix a) (eventSeq a) (items a) (itemByID a) (callByID a) v (resps a) (respByID a) (draws a).
Definition set_resps v (a : Adapter) : Adapter :=
  MkAdapter (sessionID a) (convID a) (model a) (acfg a) (eventPrefix a) (eventSeq a) (items a) (itemByID a) (callByID a) (callWire a) v (respByID a) (draws a).
Definition set_respByID v (a : Adapter) : Adapter :=
  MkAdapter (sessionID a) (convID a) (model a) (acfg a) (eventPrefix a) (eventSeq a) (items a) (itemByID a) (callByID a) (callWire a) (resps a) v (draws a).
Definition set_draws v (a : Adapter) : Adapter :=
  MkAdapter (sessionID a) (convID a) (model a) (acfg a) (eventPrefix a) (eventSeq a) (items a) (itemByID a) (callByID a) (callWire a) (resps a) (respByID a) v.

(** ** The monad *)

Definition M (A : Type) : Type := Adapter -> option (A * Adapter).
Definition ret {A} (x : A) : M A := fun a => Some (x, a).
Definition bindM {A B} (e : M A) (k : A -> M B) : M B :=
  fun a => match e a with Some (x, a) => k x a | None => None end.
Notation "'let!' x := e 'in' k" := (bindM e (fun x => k))
  (at level 10, x pattern, e at level 100, k at level 200).
Definition gets {A} (f : Adapter -> A) : M A := fun a => Some (f a, a).
Definition modify_ (f : Adapter -> Adapter) : M unit := fun a => Some (tt, f a).

Fixpoint mapM_ {A B} (f : A -> M B) (l : list A) : M (list B) :=
  match l with
  | [] => ret []
  | x :: l => let! y := f x in let! ys := mapM_ f l in ret (y :: ys)
  end.

(** ** Identifiers ([ids.go]) *)

Definition idAlphabet := "abcdefghijklmnopqrstuvwxyz0123456789".
Definition idLen : nat := 16.

Definition alphabet_char (b : Z) : Ascii.ascii :=
  default "000"%char (String.get (Z.to_nat (b mod 36)) idAlphabet).

(** [fmt]'s [%06d]. *)
Definition pad6 (n : Z) : string :=
  let s := Itoa n in String.string_of_list_ascii (repeat (ascii_of_nat 48) (6 - String.length s)) ++ s.

Definition event_name (prefix : string) (n : Z) : string := "event_" ++ prefix ++ pad6 n.

Section adapter.
Context (rand : nat -> nat -> Z).

(** The id that the [n]-th read of the random source gives. *)
Definition drawn (n : nat) : string :=
  String.string_of_list_ascii (map (fun j => alphabet_char (rand n j)) (List.seq 0 idLen)).

Definition newID (prefix : string) : M string := fun a =>
  Some (prefix ++ drawn (draws a), set_draws (S (draws a)) a).

Definition base_ (typ : string) : M base := fun a =>
  let n := (eventSeq a + 1) mod 2 ^ 64 in
  Some (MkBase (event_name (eventPrefix a) n) typ, set_eventSeq n a).

(** [New]: the draws for the conversation, the event prefix and, when none is
    given, the session. *)
Definition New (sid mod_ : string) (defaults : SessionDefaults) : Adapter :=
  let given_sid := negb (String.eqb sid EmptyString) in
  {| sessionID := if given_sid then sid else "sess_" ++ drawn 2; convID := "conv_" ++ drawn 0;
     model := if String.eqb mod_ EmptyString then defaultModel else mod_; acfg := defaults;
     eventPrefix := String.substring 0 6 (drawn 1); eventSeq := 0;
     items := ∅; itemByID := ∅; callByID := ∅; callWire := ∅; resps := ∅; respByID := ∅;
     draws := if given_sid then 2%nat else 3%nat |}.

Definition Hello : M (list frame) :=
  let! b := base_ "session.created" in
  let! s := gets (fun a => sessionObject (sessionID a) (model a) (acfg a)) in
  let! b' := base_ "conversation.created" in
  let! c := gets convID in
  ret [(b, sessionEvent s); (b', conversationCreatedEvent c objectConversation)].

(** ** Inbound *)

Definition some_if (s : string) : option string := if String.eqb s EmptyString then None else Some s.

Definition errorFrame (typ code param clientEventID : string) : M frame :=
  let! b := base_ "error" in
  ret (b, errorEvent (MkWireError typ code (some_if param) (some_if clientEventID))).

Definition reject (clientEventID : string) (werr : wireErr) : M (list frame) :=
  let! f := errorFrame typeInvalidReq (we_code werr) (we_param werr) clientEventID in ret [f].

Definition Reject : M (list frame) := reject EmptyString (MkWireErr codeInvalidEvent EmptyString).

(** What is handed to the session: [Post] or [PostAudio]. *)
Inductive posted := PostCmd (cmd : Command) | PostPCM (pcm : list Z).

(** The item.create checks against the tables. *)
Definition resolveCreate (tag : string) (ic : itemCreate) (a : Adapter) : result posted :=
  let spec := ic_spec ic in
  let? call := (if String.eqb (ic_callID ic) EmptyString then Ok 0
                else match callByID a !! ic_callID ic with Some ref => Ok ref | None => invalidValue "item.call_id" end) in
  let? _ := fail_if (negb (String.eqb (Spec_ClientID spec) EmptyString) && is_some (itemByID a !! Spec_ClientID spec))
              (invalidValue "item.id") in
  let? at_ := (if negb (ic_hasPrev ic) then Ok (0, false)
               else if String.eqb (ic_previous ic) "root" then Ok (0, true)
               else match itemByID a !! ic_previous ic with
                    | Some ref => Ok (ref, false)
                    | None => invalidValue "previous_item_id"
                    end) in
  Ok (PostCmd (CmdCreateItem tag
        {| Spec_Role := Spec_Role spec; Spec_Content := Spec_Content spec; Spec_Text := Spec_Text spec;
           Spec_ClientID := Spec_ClientID spec; Spec_CallItem := call |} at_.1 at_.2)).

Definition lookupItem (id : string) (a : Adapter) : result ItemRef :=
  match itemByID a !! id with Some ref => Ok ref | None => invalidValue "item_id" end.

(** The one effect of a frame on the adapter is the model a session.update
    names. *)
Definition dispatch (env : envelope) (a : Adapter) : result posted * Adapter :=
  let tag := eventID env in
  let is_ := String.eqb (typ env) in
  if is_ "session.update" then
    match decodeSessionUpdate env with
    | Err e => (Err e, a)
    | Ok u =>
        (Ok (PostCmd (CmdUpdateSession tag (su_patch u))),
         match su_model u with Some mo => set_model mo a | None => a end)
    end
  else
  (if is_ "input_audio_buffer.append" then let? pcm := decodeAudioAppend env in Ok (PostPCM pcm)
   else if is_ "input_audio_buffer.commit" then let? _ := decodeBare env in Ok (PostCmd (CmdCommitAudio tag))
   else if is_ "input_audio_buffer.clear" then let? _ := decodeBare env in Ok (PostCmd (CmdClearAudio tag))
   else if is_ "conversation.item.create" then let? ic := decodeItemCreate env in resolveCreate tag ic a
   else if is_ "conversation.item.delete" then
     let? id := decodeItemID env in
     let? ref := lookupItem id a in
     Ok (PostCmd (CmdDeleteItem tag ref))
   else if is_ "conversation.item.truncate" then
     let? tr := decodeItemTruncate env in
     let? ref := lookupItem (it_itemID tr) a in
     Ok (PostCmd (CmdTruncateItem tag ref (it_contentIndex tr) (it_audioEndMs tr)))
   else if is_ "conversation.item.retrieve" then let? _ := decodeItemID env in invalidEvent "type"
   else if is_ "response.create" then let? ov := decodeResponseCreate env in Ok (PostCmd (CmdCreateResponse tag ov))
   else if is_ "response.cancel" then
     let? id := decodeResponseCancel env in
     if String.eqb id EmptyString then Ok (PostCmd (CmdCancelResponse tag 0))
     else match respByID a !! id with
          | Some ref => Ok (PostCmd (CmdCancelResponse tag ref))
          | None => invalidValue "response_id"
          end
   else if is_ "output_audio_buffer.clear" || is_ "transcription_session.update" then invalidEvent "type"
   else invalidValue "type", a).

(** The frames to send back, and what was posted. *)
Definition Inbound (msg : option json) : M (list frame * option posted) := fun a =>
  let '(env, ok) := decodeEnvelope msg in
  match ok with
  | Err e => (let! fs := reject (eventID env) e in ret (fs, None)) a
  | Ok _ =>
      let '(r, a) := dispatch env a in
      match r with
      | Err e => (let! fs := reject (eventID env) e in ret (fs, None)) a
      | Ok p => Some (([], Some p), a)
      end
  end.

(** ** Outbound *)

Definition put_item (ref : ItemRef) (st : itemState) : M unit :=
  modify_ (fun a => set_itemByID (<[is_id st := ref]> (itemByID a)) (set_items (<[ref := st]> (items a)) a)).

(** [item]: a server id on first sight. *)
Definition item (ref : ItemRef) : M itemState :=
  let! o := gets (fun a => items a !! ref) in
  match o with
  | Some st => ret st
  | None =>
      let! id := newID "item_" in
      let st := new_itemState id in
      let! _ := put_item ref st in
      ret st
  end.

(** [itemFor]: [item], honoring a client-supplied id. *)
Definition itemFor (it : Item) : M itemState :=
  let! o := gets (fun a => items a !! Ref it) in
  match o with
  | Some st => ret st
  | None =>
      if negb (String.eqb (ClientID it) EmptyString) then
        let st := new_itemState (ClientID it) in
        let! _ := put_item (Ref it) st in
        ret st
      else item (Ref it)
  end.

(** A write through the pointer in the table. *)
Definition update_item (ref : ItemRef) (f : itemState -> itemState) : M unit :=
  modify_ (fun a => set_items (alter f ref (items a)) a).

Definition optID (ref : ItemRef) : M (option string) :=
  if ref =? 0 then ret None else let! st := item ref in ret (Some (is_id st)).

Definition is_tool (it : Item) : bool :=
  bool_decide (Content it = ContentToolCall) || bool_decide (Content it = ContentToolOutput).

(** [itemBody]: the item rendered; a tool item gets its wire call id the first
    time it is seen, one per call id of the provider. *)
Definition itemBody (st : itemState) (it : Item) : M anyWireItem :=
  if String.eqb (is_callID st) EmptyString && is_tool it then
    let! o := gets (fun a => callWire a !! CallID it) in
    let! wire := (match o with
                  | Some wire => ret wire
                  | None =>
                      let! wire := newID "call_" in
                      let! _ := modify_ (fun a => set_callWire (<[CallID it := wire]> (callWire a)) a) in
                      ret wire
                  end) in
    let! _ := (if bool_decide (Content it = ContentToolCall)
               then modify_ (fun a => set_callByID (<[wire := Ref it]> (callByID a)) a) else ret tt) in
    let! _ := update_item (Ref it) (set_call wire (Name it)) in
    ret (anyItem (is_id st) wire it)
  else ret (anyItem (is_id st) (is_callID st) it).

(** [rs := a.resps[ref]], dereferenced. *)
Definition resp (ref : ResponseRef) : M respState := fun a =>
  match resps a !! ref with Some rs => Some (rs, a) | None => None end.

Definition put_resp (ref : ResponseRef) (rs : respState) : M unit :=
  modify_ (fun a => set_resps (<[ref := rs]> (resps a)) a).

(** [rs.index(item)] *)
Definition resp_index (ref : ResponseRef) (i : ItemRef) : M Z :=
  let! rs := resp ref in
  let (idx, rs) := index i rs in
  let! _ := put_resp ref rs in
  ret idx.

Definition responseStatus_string (s : ResponseStatus) : string :=
  match s with
  | ResponseInProgress => "in_progress" | ResponseCompleted => "completed" | ResponseCancelled => "cancelled"
  | ResponseIncomplete => "incomplete" | ResponseFailed => "failed"
  end.

Definition reason_string (r : StatusReason) : string :=
  match r with
  | ReasonNone => EmptyString | ReasonTurnDetected => "turn_detected" | ReasonClientCancelled => "client_cancelled"
  | ReasonMaxOutputTokens => "max_output_tokens" | ReasonContentFilter => "content_filter"
  end.

Definition errCode_string (c : ErrCode) : string :=
  match c with
  | ErrCodeNone => EmptyString
  | ErrCodeInvalidSession => "invalid_session_update"
  | ErrCodeBufferEmpty => "input_audio_buffer_commit_empty"
  | ErrCodeBufferOverflow => "input_audio_buffer_overflow"
  | ErrCodeInputQueueOverflow => "input_queue_overflow"
  | ErrCodeItemNotFound => "item_not_found"
  | ErrCodeItemNotTruncatable => "item_not_truncatable"
  | ErrCodeInvalidItem => "invalid_item"
  | ErrCodeResponseInProgress => "response_in_progress"
  | ErrCodeResponseFailed => "response_failed"
  | ErrCodeProviderError => "provider_error"
  | ErrCodeInvalidOverrides => "invalid_response_overrides"
  | ErrCodeTranscriptTimeout => "transcript_timeout"
  | ErrCodeResponseCancelNotActive => "response_cancel_not_active"
  | ErrCodeTruncateOutOfRange => "item_truncate_out_of_range"
  | ErrCodeVoiceLocked => "voice_locked"
  end.

(** [mapErrorCode]: the error's type and code on the wire. *)
Definition mapErrorCode (code : ErrCode) (param : string) : string * string :=
  match code with
  | ErrCodeInvalidSession | ErrCodeInvalidItem | ErrCodeItemNotFound | ErrCodeItemNotTruncatable
  | ErrCodeInvalidOverrides | ErrCodeTruncateOutOfRange | ErrCodeVoiceLocked => (typeInvalidReq, codeInvalidValue)
  | ErrCodeBufferEmpty | ErrCodeResponseInProgress => (typeInvalidReq, codeInvalidEvent)
  | ErrCodeResponseCancelNotActive =>
      (typeInvalidReq, if negb (String.eqb param EmptyString) then codeInvalidValue else codeInvalidEvent)
  | _ => (typeServerErr, errCode_string code)
  end.

Definition statusDetails (status : ResponseStatus) (reason : StatusReason) (errCode : ErrCode) : option wireStatusDetails :=
  match status with
  | ResponseCancelled | ResponseIncomplete =>
      Some (MkWireStatusDetails (responseStatus_string status) (reason_string reason) None)
  | ResponseFailed =>
      Some (MkWireStatusDetails (responseStatus_string status) EmptyString (Some (typeServerErr, errCode_string errCode)))
  | _ => None
  end.

Definition responseObject (rs : respState) (status : ResponseStatus) (details : option wireStatusDetails)
    (output : list anyWireItem) (usage : option wireUsage) : M wireResponse :=
  let! conv := gets convID in
  ret {| wr_ID := rs_id rs; wr_Object := objectResponse; wr_Status := responseStatus_string status;
         wr_StatusDetails := details; wr_Output := output; wr_Usage := usage; wr_ConversationID := conv;
         wr_OutputModalities := rs_modal rs; wr_Format := pcmFormat; wr_Voice := rs_voice rs;
         wr_MaxOutputTokens := rs_maxTokens rs; wr_Metadata := rs_metadata rs |}.

(** One frame of type [typ] with what [p] makes of the adapter. *)
Definition frame_ (typ : string) (p : M payload) : M frame := let! b := base_ typ in let! p := p in ret (b, p).
Definition one (typ : string) (p : M payload) : M (list frame) := let! f := frame_ typ p in ret [f].

Definition delta_ (typ : string) (r : ResponseRef) (i : ItemRef) (text : string) : M (list frame) :=
  one typ (let! rs := resp r in let! st := item i in ret (outputDeltaEvent (rs_id rs) (is_id st) text)).

Definition done_frame (typ : string) (r : ResponseRef) (i : ItemRef) (text tr : option string) : M (list frame) :=
  one typ (let! rs := resp r in let! st := item i in ret (outputDoneEvent (rs_id rs) (is_id st) text tr)).

Definition contentPart (rs : respState) (text : string) : wireContentPart :=
  if rs_textOnly rs then MkWireContentPart "text" (Some text) None else MkWireContentPart "audio" None (Some text).

Definition outputItemAdded (r : ResponseRef) (it : Item) (prev : ItemRef) : M (list frame) :=
  let! rs := resp r in
  let! st := itemFor it in
  let! p := optID prev in
  let! _ := update_item (Ref it) (set_prev p) in
  let! idx := resp_index r (Ref it) in
  let! w := itemBody st it in
  if bool_decide (Content it = ContentToolCall) then
    let! f1 := frame_ "response.output_item.added" (ret (outputItemEvent (rs_id rs) idx w)) in
    let! f2 := frame_ "conversation.item.added" (ret (itemEvent p w)) in
    ret [f1; f2]
  else
    let! rs := resp r in
    let! _ := put_resp r (set_itemID (is_id st) rs) in
    let! f1 := frame_ "response.output_item.added" (ret (outputItemEvent (rs_id rs) idx w)) in
    let! f2 := frame_ "conversation.item.added" (ret (itemEvent p w)) in
    let! f3 := frame_ "response.content_part.added"
                 (ret (contentPartEvent (rs_id rs) (is_id st) idx (contentPart rs EmptyString))) in
    ret [f1; f2; f3].

Definition outputItemDone (r : ResponseRef) (it : Item) : M (list frame) :=
  let! rs := resp r in
  let! st := itemFor it in
  let! idx := resp_index r (Ref it) in
  let! w := itemBody st it in
  if bool_decide (Content it = ContentToolCall) then
    let! f1 := frame_ "response.output_item.done" (ret (outputItemEvent (rs_id rs) idx w)) in
    let! f2 := frame_ "conversation.item.done" (ret (itemEvent (is_prev st) w)) in
    ret [f1; f2]
  else
    let! f1 := frame_ "response.content_part.done"
                 (ret (contentPartEvent (rs_id rs) (is_id st) idx (contentPart rs (Text it)))) in
    let! f2 := frame_ "response.output_item.done" (ret (outputItemEvent (rs_id rs) idx w)) in
    let! f3 := frame_ "conversation.item.done" (ret (itemEvent (is_prev st) w)) in
    ret [f1; f2; f3].

Definition toolArguments (r : ResponseRef) (i : ItemRef) (arguments : string) : M (list frame) :=
  let! rs := resp r in
  let! st := item i in
  let! idx := resp_index r i in
  let! f1 := frame_ "response.function_call_arguments.delta"
               (ret (toolArgumentsEvent (rs_id rs) (is_id st) idx (is_callID st) arguments EmptyString EmptyString)) in
  let! f2 := frame_ "response.function_call_arguments.done"
               (ret (toolArgumentsEvent (rs_id rs) (is_id st) idx (is_callID st) EmptyString (is_name st) arguments)) in
  ret [f1; f2].

Definition responseCreated (r : ResponseRef) (modal : list string) (voice : string) (maxTokens : MaxOutputTokens)
    (md : option (list (string * string))) : M (list frame) :=
  let! id := newID "resp_" in
  let rs := MkRespState id EmptyString (bool_decide (modal = [ModalityText])) modal voice maxTokens md ∅ 0 in
  let! _ := put_resp r rs in
  let! _ := modify_ (fun a => set_respByID (<[id := r]> (respByID a)) a) in
  let! w := responseObject rs ResponseInProgress None [] None in
  one "response.created" (ret (responseEvent w)).

Definition responseDone (r : ResponseRef) (status : ResponseStatus) (reason : StatusReason) (errCode : ErrCode)
    (usage : Usage) (output : list Item) : M (list frame) :=
  let! rs := resp r in
  let! out := mapM_ (fun it => let! st := itemFor it in itemBody st it) output in
  let u := MkWireUsage (i64 (InputTokens usage + OutputTokens usage)) (InputTokens usage) (OutputTokens usage)
             (InputTokens usage) (OutputTokens usage) in
  let! w := responseObject rs status (statusDetails status reason errCode) out (Some u) in
  one "response.done" (ret (responseEvent w)).

Definition Outbound (ev : Event) : M (list frame) :=
  match ev with
  | EvSessionUpdated c =>
      let! _ := modify_ (set_acfg c) in
      one "session.updated" (gets (fun a => sessionEvent (sessionObject (sessionID a) (model a) (acfg a))))
  | EvError tag code param _ =>
      let (typ, c) := mapErrorCode code param in
      let! f := errorFrame typ c param tag in
      ret [f]
  | EvAudioBufferCommitted i prev =>
      let! st := item i in
      let! p := optID prev in
      let! _ := update_item i (set_prev p) in
      one "input_audio_buffer.committed" (ret (committedEvent p (is_id st)))
  | EvAudioBufferCleared => one "input_audio_buffer.cleared" (ret bareEvent)
  | EvSpeechStarted ms i =>
      one "input_audio_buffer.speech_started" (let! st := item i in ret (speechStartedEvent ms (is_id st)))
  | EvSpeechStopped ms i =>
      one "input_audio_buffer.speech_stopped" (let! st := item i in ret (speechStoppedEvent ms (is_id st)))
  | EvItemAdded it prev =>
      let! st := itemFor it in
      let! p := optID prev in
      let! _ := update_item (Ref it) (fun st => set_audioMs (AudioMs it) (set_prev p st)) in
      one "conversation.item.added" (let! w := itemBody st it in ret (itemEvent p w))
  | EvItemDone it =>
      let! st := itemFor it in
      let! _ := update_item (Ref it) (set_audioMs (AudioMs it)) in
      one "conversation.item.done" (let! w := itemBody st it in ret (itemEvent (is_prev st) w))
  | EvItemDeleted i =>
      let! st := item i in
      let! _ := modify_ (fun a => set_itemByID (delete (is_id st) (itemByID a)) (set_items (delete i (items a)) a)) in
      one "conversation.item.deleted" (ret (itemIDEvent (is_id st)))
  | EvItemTruncated i ci ms =>
      one "conversation.item.truncated" (let! st := item i in ret (itemTruncatedEvent (is_id st) ci ms))
  | EvInputTranscriptDelta i delta =>
      one "conversation.item.input_audio_transcription.delta"
        (let! st := item i in ret (transcriptDeltaEvent (is_id st) delta))
  | EvInputTranscriptDone i text =>
      let! st := item i in
      one "conversation.item.input_audio_transcription.completed"
        (ret (transcriptCompletedEvent (is_id st) text "duration" (fdiv (of_int (is_audioMs st)) (of_int 1000))))
  | EvResponseCreated r modal voice maxTokens md => responseCreated r modal voice maxTokens md
  | EvOutputItemAdded r it prev => outputItemAdded r it prev
  | EvToolCallArguments r i arguments => toolArguments r i arguments
  | EvOutputTextDelta r i _ text => delta_ "response.output_text.delta" r i text
  | EvOutputAudioTranscriptDelta r i _ text => delta_ "response.output_audio_transcript.delta" r i text
  | EvOutputAudioDelta r i _ pcm => delta_ "response.output_audio.delta" r i (EncodeToString pcm)
  | EvOutputTextDone r i text => done_frame "response.output_text.done" r i (Some text) None
  | EvOutputAudioTranscriptDone r i text => done_frame "response.output_audio_transcript.done" r i None (Some text)
  | EvOutputAudioDone r i => done_frame "response.output_audio.done" r i None None
  | EvOutputItemDone r it => outputItemDone r it
  | EvResponseDone r status reason errCode _ usage output => responseDone r status reason errCode usage output
  | EvSessionClosed _ => ret []
  | _ => ret []
  end.

(** The session's events, projected one after the other. *)
Definition project (evs : list Event) : M (list frame) :=
  let! fss := mapM_ Outbound evs in ret (concat fss).
End adapter.
