(* ===== verification/Echo.v ===== *)
(** * The session object on the wire and back

    [session.created] and [session.updated] tell the client the session object
    ([Wire.sessionObject]); a client that edits it sends the object back in a
    session.update ([Decode.decodeSessionUpdate]), which the session applies as
    a patch ([Session.apply_patch]). Shown here: the object sent back unchanged
    (without "id" and "object", which the request does not have) is accepted
    and the patched session is the session that was told. *)

From S2P Require Export Adapter.
From Stdlib Require Import QArith Ascii.
#[local] Open Scope string_scope.
#[local] Open Scope Z_scope.

(** A session object in the form that decoding gives it: an unbounded token
    limit carries no number, a tool choice other than "function" no name, and
    durations are exact as JSON numbers. *)
Record decoded_form (c : SessionDefaults) : Prop := {
  df_ok : session_ok c;
  df_inf : Inf (SD_MaxOutputTokens c) = true -> Config.N (SD_MaxOutputTokens c) = 0;
  df_mode : Mode (SD_ToolChoice c) <> EmptyString;
  df_name : Mode (SD_ToolChoice c) <> ToolChoiceFunction -> TC_Name (SD_ToolChoice c) = EmptyString;
  df_times : forall td, In_TurnDetection (SD_Input c) = Some td ->
    default 0 (TD_PrefixPaddingMs td) < 2 ^ prec /\ default 0 (TD_SilenceDurationMs td) < 2 ^ prec
}.

(** ** Members of a rendered object *)

Lemma last_wins_NoDup l : NoDup l.*1 -> last_wins l = l.
Proof.
  induction l as [|[k v] l IH]; [done|]. rewrite fmap_cons, NoDup_cons. intros [Hk Hl].
  unfold last_wins in *. cbn [foldr]. rewrite IH by done.
  replace (existsb _ l) with false; [done|]. symmetry. apply not_true_iff_false. intros He.
  apply List.existsb_exists in He as ([k' v'] & Hin & Heq%String.eqb_eq). simpl in Heq. subst k'.
  apply Hk. apply list_elem_of_fmap. exists (k, v'). split; [done|]. by apply list_elem_of_In.
Qed.

(** Keys that a check can be computed on. *)
Ltac keys := cbn; apply (bool_decide_unpack (NoDup _)); exact I.

Section echo.
Context (FormatFloat : float64 -> string).

Lemma check_format_pcm o : member o "format" = Some (format_json pcmFormat) -> check_format o = Ok tt.
Proof.
  intros Hm. unfold check_format, object. rewrite Hm. generalize (pathOf o "format"). intros p. by vm_compute.
Qed.

Lemma decodeTranscription_json t p :
  bind_result (parseObject (transcription_json (Some (MkWireTranscription (Tr_Model t) (Tr_Language t) (Tr_Prompt t)))) p)
    decodeTranscription = Ok t.
Proof.
  destruct t as [mo la pr]. simpl. unfold fomit, fstr.
  destruct (String.eqb_spec mo EmptyString) as [->|?], (String.eqb_spec la EmptyString) as [->|?],
    (String.eqb_spec pr EmptyString) as [->|?]; reflexivity.
Qed.

(** A nullable object field that was rendered. *)
Lemma decode_nullable_None {A} o k (dec : obj -> result A) : member o k = Some JNull -> decode_nullable o k dec = Ok (SetTo None).
Proof. intros Hm. unfold decode_nullable, has, null. by rewrite Hm. Qed.

Lemma decode_nullable_Some {A} o k (dec : obj -> result A) l v : member o k = Some (JObj l) ->
  bind_result (parseObject (JObj l) (pathOf o k)) dec = Ok v -> decode_nullable o k dec = Ok (SetTo (Some v)).
Proof.
  intros Hm Hd. unfold decode_nullable, has, null, object. rewrite Hm. simpl in *. by rewrite Hd.
Qed.

Lemma decode_transcription_echo o tr : 
  member o "transcription" = Some (transcription_json
    (option_map (fun tr => MkWireTranscription (Tr_Model tr) (Tr_Language tr) (Tr_Prompt tr)) tr)) ->
  decode_nullable o "transcription" decodeTranscription = Ok (SetTo tr).
Proof.
  destruct tr as [t|]; simpl; intros Hm; [|by apply decode_nullable_None].
  eapply decode_nullable_Some; [done|]. apply decodeTranscription_json.
Qed.

Definition float_reads (f : float64) : Prop := ParseFloat (FormatFloat f) = Some f.

Lemma float_echo o k f : float_reads f -> member o k = Some (JNum (FormatFloat f)) -> float o k = Ok (Some f).
Proof. intros Hf Hm. unfold float. rewrite Hm. by rewrite Hf. Qed.

Lemma decode_turnDetection_echo o td :
  (forall td', td = Some td' -> turn_detection_ok td' /\
    default 0 (TD_PrefixPaddingMs td') < 2 ^ prec /\ default 0 (TD_SilenceDurationMs td') < 2 ^ prec /\
    (forall f, TD_Threshold td' = Some f -> float_reads f)) ->
  member o "turn_detection" = Some (turnDetection_json FormatFloat (turnDetectionObject td)) ->
  decode_nullable o "turn_detection" decodeTurnDetection = Ok (SetTo td).
Proof.
  destruct td as [td|]; [|intros _; apply decode_nullable_None].
  intros H Hm. destruct (H td eq_refl) as (Hok & Hpp & Hsd & Hth). clear H.
  destruct td as [ty th pp sd eg cr ir]. unfold turn_detection_ok in Hok. simpl in *.
  destruct th as [th|], pp as [pp|], sd as [sd|], eg as [eg|]; try done; simpl in *.
  - destruct Hok as (-> & _ & Hp & Hs). specialize (Hth th eq_refl).
    eapply decode_nullable_Some; [exact Hm|]. unfold parseObject. rewrite last_wins_NoDup by keys. cbn [bind_result].
    set (td := {| path := _; m := _ |}). unfold decodeTurnDetection.
    change (str td "type") with (@Ok (option string) (Some TurnDetectionServerVAD)). cbn [bind_result require].
    change (String.eqb TurnDetectionServerVAD TurnDetectionServerVAD) with true. cbn iota.
    change (allow td _) with (Ok tt). change (given td "idle_timeout_ms") with false. cbn [bind_result fail_if].
    rewrite (float_echo td "threshold" th Hth eq_refl). cbn [bind_result].
    rewrite (integer_Itoa td "prefix_padding_ms" pp) by (try lia; done). cbn [bind_result].
    rewrite (integer_Itoa td "silence_duration_ms" sd) by (try lia; done). reflexivity.
  - destruct Hok as (-> & _). eapply decode_nullable_Some; [exact Hm|]. reflexivity.
Qed.

Lemma maxTokens_echo o k t : max_tokens_ok t -> (Inf t = true -> Config.N t = 0) ->
  member o k = Some (maxTokens_json t) -> decodeMaxTokens o k = Ok t.
Proof.
  destruct t as [inf n]. unfold max_tokens_ok, maxTokens_json, decodeMaxTokens. simpl. intros Hok Hi ->.
  destruct inf; [by rewrite Hi|]. destruct Hok as [|Hok]; [done|]. unfold JInt, MaxOutputTokensLimit in *.
  by rewrite Atoi_Itoa by lia.
Qed.

Lemma toolChoice_echo o k tc ts : tool_choice_ok tc ts -> Mode tc <> EmptyString ->
  (Mode tc <> ToolChoiceFunction -> TC_Name tc = EmptyString) ->
  member o k = Some (toolChoice_json tc) -> decodeToolChoice o k = Ok tc.
Proof.
  destruct tc as [mo name]. unfold tool_choice_ok, toolChoice_json, decodeToolChoice, str, object. simpl.
  intros Hok Hne Hn ->. destruct (String.eqb_spec mo ToolChoiceFunction) as [->|Hf].
  - simpl. reflexivity.
  - rewrite (Hn Hf). destruct Hok as [Hin|[? _]]; [|done].
    rewrite !elem_of_cons in Hin. destruct Hin as [->|[->|[->|[->|Hin]]]]; try done. by apply elem_of_nil in Hin.
Qed.

Lemma decodeTool_echo p t : tool_ok t ->
  decodeTool p (tool_json (MkWireTool (Tool_Type t) (Tool_Name t) (Tool_Description t) (Tool_Parameters t))) = Ok t.
Proof.
  destruct t as [ty name desc ps]. intros (Ht & _ & Hp). simpl in Ht, Hp. subst ty.
  unfold decodeTool, tool_json, fomit, fstr. simpl.
  destruct (String.eqb_spec desc EmptyString) as [->|?], ps as [v|]; try reflexivity;
    by destruct (Hp v eq_refl) as [[l ->] _].
Qed.

Lemma decodeTools_echo p ts : Forall tool_ok ts -> forall i,
  decodeTools_loop p i (map tool_json (toolObjects ts)) = Ok ts.
Proof.
  induction 1 as [|t ts Ht _ IH]; intros i; simpl; [done|]. rewrite decodeTool_echo by done. simpl. by rewrite IH.
Qed.

Lemma strings_echo p l : forall i, strings_loop p i (map JStr l) = Ok l.
Proof. induction l as [|x l IH]; intros i; simpl; [done|]. by rewrite IH. Qed.

(** The objects of a told session, as the request's decoder sees them. *)
Definition wire_audio (c : SessionDefaults) : wireAudio := ws_Audio (sessionObject EmptyString EmptyString c).

Definition floats_read (c : SessionDefaults) : Prop :=
  float_reads (Out_Speed (SD_Output c)) /\
  forall td f, In_TurnDetection (SD_Input c) = Some td -> TD_Threshold td = Some f -> float_reads f.

Lemma decodeAudioInput_echo i c : decoded_form c -> floats_read c ->
  allow i ["format"; "transcription"; "turn_detection"; "noise_reduction"] = Ok tt ->
  member i "format" = Some (format_json pcmFormat) ->
  member i "transcription" = Some (transcription_json
    (option_map (fun tr => MkWireTranscription (Tr_Model tr) (Tr_Language tr) (Tr_Prompt tr)) (In_Transcription (SD_Input c)))) ->
  member i "turn_detection" = Some (turnDetection_json FormatFloat (turnDetectionObject (In_TurnDetection (SD_Input c)))) ->
  given i "noise_reduction" = false ->
  decodeAudioInput i = Ok (SetTo (In_Transcription (SD_Input c)), SetTo (In_TurnDetection (SD_Input c))).
Proof.
  intros Hc [_ Hth] Ha Hf Ht Htd Hn. unfold decodeAudioInput. rewrite Ha. cbn [bind_result].
  rewrite check_format_pcm by done. cbn [bind_result]. rewrite (decode_transcription_echo _ _ Ht). cbn [bind_result].
  rewrite (decode_turnDetection_echo i (In_TurnDetection (SD_Input c))); [|intros td Hx|done].
  2:{ destruct (df_times c Hc td Hx) as [? ?]. split; [by apply (ok_turn_detection c (df_ok c Hc))|].
      split; [done|]. split; [done|]. intros f. by apply Hth. }
  cbn [bind_result]. by rewrite Hn.
Qed.

Lemma decodeAudioOutput_echo o c : floats_read c ->
  allow o ["format"; "voice"; "speed"] = Ok tt ->
  member o "format" = Some (format_json pcmFormat) -> member o "voice" = Some (JStr (Out_Voice (SD_Output c))) ->
  member o "speed" = Some (JNum (FormatFloat (Out_Speed (SD_Output c)))) ->
  decodeAudioOutput o = Ok (Some (Out_Voice (SD_Output c)), Some (Out_Speed (SD_Output c))).
Proof.
  intros [Hsp _] Ha Hf Hv Hs. unfold decodeAudioOutput, decodeVoice, str. rewrite Ha, Hv. cbn [bind_result].
  rewrite check_format_pcm by done. cbn [bind_result]. by rewrite (float_echo o "speed" _ Hsp Hs).
Qed.

Lemma object_member o k l : member o k = Some (JObj l) -> NoDup l.*1 ->
  object o k = Ok (Some {| path := pathOf o k; m := l |}).
Proof. intros Hm Hl. unfold object, parseObject. by rewrite Hm, last_wins_NoDup. Qed.

Lemma decodeAudio_echo c aud : decoded_form c -> floats_read c ->
  allow aud ["input"; "output"] = Ok tt -> audio_json FormatFloat (wire_audio c) = JObj (m aud) ->
  decodeAudio aud =
  Ok (MkAudioPatch (SetTo (In_Transcription (SD_Input c))) (SetTo (In_TurnDetection (SD_Input c)))
        (Some (Out_Voice (SD_Output c))) (Some (Out_Speed (SD_Output c)))).
Proof.
  intros Hc Hf Ha [= Hm]. destruct aud as [p l]. simpl in Hm. subst l. unfold decodeAudio. rewrite Ha. cbn [bind_result].
  erewrite (object_member _ "input") by (reflexivity || keys). cbn [bind_result].
  erewrite (decodeAudioInput_echo _ c) by (done || reflexivity). cbn [bind_result].
  erewrite (object_member _ "output") by (reflexivity || keys). cbn [bind_result].
  by erewrite (decodeAudioOutput_echo _ c) by (done || reflexivity).
Qed.

(** The request that carries the told object, less "id" and "object". *)
Definition echo (id mo : string) (c : SessionDefaults) : json :=
  JObj [("type", JStr "session.update"); ("session", JObj (session_fields FormatFloat (sessionObject id mo c)))].

Definition echo_patch (c : SessionDefaults) : SessionPatch :=
  {| Patch_Instructions := Some (SD_Instructions c); Patch_OutputModalities := Some (SD_OutputModalities c);
     Patch_Voice := Some (Out_Voice (SD_Output c)); Patch_Speed := Some (Out_Speed (SD_Output c));
     Patch_MaxOutputTokens := Some (SD_MaxOutputTokens c);
     Patch_Transcription := SetTo (In_Transcription (SD_Input c));
     Patch_TurnDetection := SetTo (In_TurnDetection (SD_Input c));
     Patch_Tools := Some (SD_Tools c); Patch_ToolChoice := Some (SD_ToolChoice c) |}.

(** The told session object as the request's session. *)
Definition told (id mo : string) (c : SessionDefaults) : obj :=
  {| path := "session"; m := session_fields FormatFloat (sessionObject id mo c) |}.

Lemma decodeSessionUpdate_echo id mo c env : decoded_form c -> floats_read c ->
  allow (body env) ["type"; "event_id"; "session"] = Ok tt ->
  object (body env) "session" = Ok (Some (told id mo c)) ->
  decodeSessionUpdate env = Ok {| su_patch := echo_patch c; su_model := Some mo |}.
Proof.
  intros Hc Hf Ha Ho. pose proof (df_ok c Hc) as Hok. unfold decodeSessionUpdate. rewrite Ha, Ho. cbn [bind_result require].
  set (sess := told id mo c).
  replace (List.find _ (m sess)) with (@None (string * json)) by reflexivity.
  replace (allow sess sessionKeys) with (@Ok unit tt) by reflexivity. cbn [bind_result].
  replace (str sess "type") with (@Ok (option string) (Some sessionTypeGA)) by reflexivity. cbn [bind_result require].
  replace (fail_if _ _) with (@Ok unit tt) by reflexivity. cbn [bind_result].
  replace (str sess "model") with (@Ok (option string) (Some mo)) by reflexivity. cbn [bind_result].
  replace (str sess "instructions") with (@Ok (option string) (Some (SD_Instructions c))) by reflexivity. cbn [bind_result].
  assert (Hs : strings sess "output_modalities" = Ok (Some (SD_OutputModalities c))).
  { unfold strings. replace (array sess "output_modalities") with (Ok (Some (map JStr (SD_OutputModalities c)))) by reflexivity.
    cbn [bind_result]. by rewrite strings_echo. }
  rewrite Hs. cbn [bind_result].
  replace (has sess "max_output_tokens") with true by reflexivity.
  rewrite (maxTokens_echo sess "max_output_tokens" (SD_MaxOutputTokens c) (ok_max_tokens c Hok) (df_inf c Hc)) by reflexivity.
  cbn [bind_result].
  erewrite (object_member sess "audio") by (reflexivity || keys). cbn [bind_result].
  rewrite (decodeAudio_echo c) by (done || reflexivity). cbn [bind_result].
  replace (given sess "tools") with true by reflexivity.
  assert (Ht : decodeTools sess = Ok (SD_Tools c)).
  { unfold decodeTools.
    replace (array sess "tools") with (Ok (Some (map tool_json (toolObjects (SD_Tools c))))) by reflexivity.
    cbn [bind_result default]. apply decodeTools_echo. apply (ok_tools c Hok). }
  rewrite Ht. cbn [bind_result].
  assert (Hg : given sess "tool_choice" = true).
  { unfold given. replace (has sess "tool_choice") with true by reflexivity. unfold null.
    replace (member sess "tool_choice") with (Some (toolChoice_json (SD_ToolChoice c))) by reflexivity.
    unfold toolChoice_json. by destruct (String.eqb _ _). }
  rewrite Hg, (toolChoice_echo sess "tool_choice" _ _ (ok_tool_choice c Hok) (df_mode c Hc) (df_name c Hc)) by reflexivity.
  reflexivity.
Qed.

Lemma echo_patch_exact c c0 : session_ok c -> In_Format (SD_Input c0) = pcmFormat -> Out_Format (SD_Output c0) = pcmFormat ->
  apply_patch (echo_patch c) c0 = c.
Proof.
  intros Hok Hi Ho. assert (Htd : option_map ApplyDefaults (In_TurnDetection (SD_Input c)) = In_TurnDetection (SD_Input c)).
  { destruct (In_TurnDetection (SD_Input c)) as [td|] eqn:E; [|done]. simpl. f_equal.
    apply ApplyDefaults_ok_stable. by apply (ok_turn_detection c Hok). }
  unfold apply_patch, echo_patch. cbn [patch Patch_Instructions Patch_OutputModalities Patch_Voice Patch_Speed
    Patch_MaxOutputTokens Patch_Transcription Patch_TurnDetection Patch_Tools Patch_ToolChoice]. rewrite Htd.
  destruct c as [ins mods [ifmt tr td] [ofmt vo sp] mx tls tc], c0 as [? ? [? ? ?] [? ? ?] ? ? ?]. simpl in *.
  pose proof (ok_in_format _ Hok) as Ei. pose proof (ok_out_format _ Hok) as Eo. simpl in *. by subst.
Qed.

(** C15. What the gateway tells a client about its session, the client can
    send back: for every valid session object in decoded form, the frame
    that returns it (the rendered object less "id" and "object") is accepted,
    posts one update with no error frame, and that update applied to any
    session gives exactly the object that was told: nothing is lost or
    changed by rendering, parsing, decoding and patching. *)
Theorem session_echo_roundtrip id mo c c0 a : decoded_form c -> floats_read c ->
  In_Format (SD_Input c0) = pcmFormat -> Out_Format (SD_Output c0) = pcmFormat ->
  exists p a', Inbound (Some (echo id mo c)) a = Some (([], Some (PostCmd (CmdUpdateSession EmptyString p))), a') /\
    model a' = mo /\ apply_patch p c0 = c.
Proof.
  intros Hc Hf Hi Ho. exists (echo_patch c), (set_model mo a).
  split; [|split; [done|by apply echo_patch_exact; [apply df_ok|..]]].
  unfold Inbound, decodeEnvelope, echo, parseObject. rewrite last_wins_NoDup by keys.
  set (b := {| path := EmptyString; m := _ |}).
  replace (str b "event_id") with (@Ok (option string) None) by reflexivity.
  replace (str b "type") with (@Ok (option string) (Some "session.update")) by reflexivity.
  cbn -[dispatch b slen]. replace (eventIDMaxLen <? slen EmptyString) with false by reflexivity.
  unfold dispatch. cbn [typ eventID String.eqb Ascii.eqb Bool.eqb].
  rewrite (decodeSessionUpdate_echo id mo c); [done..|reflexivity|].
  erewrite (object_member _ "session") by (reflexivity || keys). done.
Qed.
End echo.

(** ** An instance *)

Definition half : float64 := rnd (1 # 2).

Definition echo_td : TurnDetection :=
  {| TD_Type := TurnDetectionServerVAD; TD_Threshold := Some half; TD_PrefixPaddingMs := Some 300;
     TD_SilenceDurationMs := Some 500; TD_Eagerness := None; CreateResponse := true; InterruptResponse := false |}.

Definition echo_cfg : SessionDefaults :=
  with_speed (of_int 1) (with_turn_detection (Some echo_td) (ProfileSession DefaultProfile)).

(** The text of the two floats above. *)
Definition demo_float (f : float64) : string := if Qeq_bool f half then "0.5" else "1".

Lemma session_echo_roundtrip_witness :
  exists p a', Inbound (Some (echo demo_float "sess_1" "cascade" echo_cfg)) (New (fun _ _ => 0) EmptyString EmptyString echo_cfg) =
      Some (([], Some (PostCmd (CmdUpdateSession EmptyString p))), a') /\
    model a' = "cascade" /\ apply_patch p (ProfileSession DefaultProfile) = echo_cfg.
Proof.
  apply (session_echo_roundtrip demo_float).
  - split.
    + apply (Validate_session_ok EmptyString). by vm_compute.
    + by vm_compute.
    + by vm_compute.
    + by vm_compute.
    + intros td [= <-]. by vm_compute.
  - split; [by vm_compute|]. intros td f [= <-] [= <-]. by vm_compute.
  - reflexivity.
  - reflexivity.
Defined.
