(* ===== verification/Demo.v ===== *)
(** * A concrete session

    A silent recognizer, the built-in profile and a few runs, on which the
    properties of the session are instantiated. *)

From S2P Require Export SessionTimers SessionGrows.
From S2P Require Import Session.
#[local] Open Scope Z_scope.

(** A recognizer that accepts everything. *)
#[export] Instance silent_stream : ASRStream unit :=
  {| PushAudio := fun a _ => (a, None); Finalize := fun a => (a, None) |}.

Definition demo_limits : Limits :=
  {| MaxSessions := 10; SessionTimeout := 0; InputAudioQueueFrames := 16; InputAudioBufferMaxMs := 60000;
     ASRFinalTimeout := 3000000000; OutputEventQueue := 64; ClientWriteTimeout := 1000000000;
     ClientMaxMessageBytes := 1048576 |}.

Definition demo_cfg : SessionDefaults := ProfileSession DefaultProfile.

(** The built-in profile with another turn detection. *)
Definition demo_cfg_with (td : option TurnDetection) : SessionDefaults := with_turn_detection td demo_cfg.

Definition semantic_td : TurnDetection :=
  {| TD_Type := TurnDetectionSemanticVAD; TD_Threshold := None; TD_PrefixPaddingMs := None;
     TD_SilenceDurationMs := None; TD_Eagerness := Some "high"%string; CreateResponse := true;
     InterruptResponse := true |}.

Definition server_td (silence : Z) : TurnDetection :=
  {| TD_Type := TurnDetectionServerVAD; TD_Threshold := None; TD_PrefixPaddingMs := None;
     TD_SilenceDurationMs := Some silence; TD_Eagerness := None; CreateResponse := true;
     InterruptResponse := true |}.

Definition demo (td : option TurnDetection) : session unit := New (demo_cfg_with td) demo_limits None tt.

Definition user_text (t : string) : ItemSpec :=
  {| Spec_Role := RoleUser; Spec_Content := ContentText; Spec_Text := t; Spec_ClientID := "c"%string;
     Spec_CallItem := 0 |}.

(** Frames of 20 ms; two samples at full scale are enough energy. *)
Definition loud : list Z := [255; 127; 255; 127] ++ repeat 0 956.
Definition quiet : list Z := repeat 0 960.

(** A text turn whose answer is being spoken. *)
Definition text_turn : list input :=
  [ ICommand (CmdCreateItem "a" (user_text "hi") 0 false);
    ICommand (CmdCreateResponse "b" no_overrides);
    IResp (EvOutputAudioTranscriptDelta 1 0 1 "Hello.");
    IResp (pipeTTSStart 1);
    IResp (EvOutputAudioDelta 1 0 1 quiet) ]%string.

(** A manual turn whose transcript has not arrived. *)
Definition manual_turn : list input :=
  [ IAudio quiet; ICommand (CmdCommitAudio "a"); ICommand (CmdCreateResponse "b" no_overrides) ]%string.

(** A spoken turn in semantic_vad that ended with its Final. *)
Definition semantic_turn : list input :=
  IAudio loud :: repeat (IAudio quiet) 30.

Definition demo_state (td : option TurnDetection) (is_ : list input) : session unit :=
  default (demo td) (run is_ (demo td)).

(** A concrete run reaches its last state. *)
Lemma demo_reachable td is_ : is_some (run is_ (demo td)) = true ->
  reachable (demo_cfg_with td) demo_limits None tt (demo_state td is_).
Proof.
  unfold demo_state. destruct (run is_ (demo td)) as [s|] eqn:Hr; [intros _|done].
  eapply run_reachable; [|exact Hr]. apply reach_new.
Qed.

(** A turn detection in which a segment of one frame followed by two of
    silence is a whole turn, without padding. *)
Definition brisk_td : TurnDetection :=
  {| TD_Type := TurnDetectionServerVAD; TD_Threshold := None; TD_PrefixPaddingMs := Some 0;
     TD_SilenceDurationMs := Some 40; TD_Eagerness := None; CreateResponse := true; InterruptResponse := true |}.
