(* ===== verification/Actor.v ===== *)
(** * The actor: queues, ordering and the loop ([Session.run], [Post],
    [PostAudio] of [internal/session/session.go])

    Two bounded queues feed one loop. A command and an audio frame each carry
    the sequence number of their post; the loop drains the other queue up to
    the number of the item in hand before handling it, stashing the one item
    it pulled too far. [actor] is the session with its queues, its stashes and
    the point the loop has reached ([pc]); [step] is one atomic action of the
    producer (the connection's reader goroutine, the only one that posts), of
    an outside cancellation, or of the loop, so that posts interleave with a
    drain in every possible way. A step of the loop that runs a handler has a
    label of its own for what happens meanwhile ([during]): a cancellation, and
    how the selects of [emit] choose from then on. [posted] and [handled] are ghost: what the
    queues accepted and what was handled, in order.

    Shown: items are handled in the order they were posted, none skipped while
    the session lives, and all of them once the loop is idle; every session
    state the loop produces is [reachable], so the theorems of [SessionProps]
    apply to it; a drain ends. *)

From S2P Require Export SessionStep SessionCore SessionGrows.
From S2P Require Import Session.
From stdpp Require Import sorting.
#[local] Open Scope Z_scope.

Inductive work := WCmd (cmd : Command) | WAudio (pcm : list Z).

Abbreviation cmdEnvelope := (Z * Command)%type.
Abbreviation audioFrame := (Z * list Z)%type.

(** Where the loop is: before the context check, in the select, or draining
    one queue for the item in hand. *)
Inductive pc :=
| AtTop
| AtSelect
| DrainAudio (env : cmdEnvelope)
| DrainCommands (fr : audioFrame)
| Exited.

Record actor {A : Type} := MkActor {
  sess : session A;
  cmds : list cmdEnvelope;
  audioIn : list audioFrame;
  stashCmd : option cmdEnvelope;
  stashAudio : option audioFrame;
  seq : Z;
  posting : option cmdEnvelope;
  asrOpen : bool;
  at_pc : pc;
  posted : list (Z * work);
  handled : list (Z * work)
}.
Arguments actor : clear implicits.

(** A ready case of the select. *)
Inductive ready :=
| RDone
| RCommand
| RAudio
| RASR (ev : ASREvent)
| RASRClosed
| RResp (ev : Event)
| RAsrWait
| REot
| RDeferWait.

(** While a handler runs: the context may be cancelled, and the selects of
    [emit] that find it done choose. *)
Record during := MkDuring { cancels : option CloseReason; chooses : list bool }.

Definition calm : during := MkDuring None [].

Inductive move :=
| MPost (cmd : Command)
| MPostAudio (pcm : list Z)
| MUnblock
| MAbandon
| MCancel (reason : CloseReason)
| MRun (e : during)
| MSelect (e : during) (r : ready).

Section actor.
Context {A : Type} `{ASRStream A}.
Implicit Types a : actor A.

Definition set_sess s a : actor A :=
  MkActor A s (cmds a) (audioIn a) (stashCmd a) (stashAudio a) (seq a) (posting a) (asrOpen a) (at_pc a)
    (posted a) (handled a).
Definition set_pc p a : actor A :=
  MkActor A (sess a) (cmds a) (audioIn a) (stashCmd a) (stashAudio a) (seq a) (posting a) (asrOpen a) p
    (posted a) (handled a).
Definition set_cmds q a : actor A :=
  MkActor A (sess a) q (audioIn a) (stashCmd a) (stashAudio a) (seq a) (posting a) (asrOpen a) (at_pc a)
    (posted a) (handled a).
Definition set_audioIn q a : actor A :=
  MkActor A (sess a) (cmds a) q (stashCmd a) (stashAudio a) (seq a) (posting a) (asrOpen a) (at_pc a)
    (posted a) (handled a).
Definition set_stashCmd e a : actor A :=
  MkActor A (sess a) (cmds a) (audioIn a) e (stashAudio a) (seq a) (posting a) (asrOpen a) (at_pc a)
    (posted a) (handled a).
Definition set_stashAudio e a : actor A :=
  MkActor A (sess a) (cmds a) (audioIn a) (stashCmd a) e (seq a) (posting a) (asrOpen a) (at_pc a)
    (posted a) (handled a).
Definition set_posting e a : actor A :=
  MkActor A (sess a) (cmds a) (audioIn a) (stashCmd a) (stashAudio a) (seq a) e (asrOpen a) (at_pc a)
    (posted a) (handled a).
Definition set_asrOpen o a : actor A :=
  MkActor A (sess a) (cmds a) (audioIn a) (stashCmd a) (stashAudio a) (seq a) (posting a) o (at_pc a)
    (posted a) (handled a).

(** [s.seq.Add(1)]. *)
Definition next_seq a : actor A :=
  MkActor A (sess a) (cmds a) (audioIn a) (stashCmd a) (stashAudio a) (seq a + 1) (posting a) (asrOpen a)
    (at_pc a) (posted a) (handled a).

Definition record_post (e : Z * work) a : actor A :=
  MkActor A (sess a) (cmds a) (audioIn a) (stashCmd a) (stashAudio a) (seq a) (posting a) (asrOpen a)
    (at_pc a) (posted a ++ [e]) (handled a).

Definition record_handled (e : Z * work) a : actor A :=
  MkActor A (sess a) (cmds a) (audioIn a) (stashCmd a) (stashAudio a) (seq a) (posting a) (asrOpen a)
    (at_pc a) (posted a) (handled a ++ [e]).

Definition alive a : bool := negb (is_some (closed (sess a))).

Definition cmd_cap a : Z := OutputEventQueue (limits (sess a)).
Definition audio_cap a : Z := InputAudioQueueFrames (limits (sess a)).

(** [Start] launched the loop. *)
Definition start (s : session A) : actor A := MkActor A s [] [] None None 0 None true AtTop [] [].

(** ** The producer *)

Definition enqueue (env : cmdEnvelope) a : actor A :=
  record_post (env.1, WCmd env.2) (set_cmds (cmds a ++ [env]) a).

(** A full queue blocks the poster, which keeps its envelope. *)
Definition Post (cmd : Command) a : actor A :=
  if alive a then
    let a := next_seq a in
    if zlen (cmds a) <? cmd_cap a then enqueue (seq a, cmd) a
    else set_posting (Some (seq a, cmd)) a
  else a.

(** The poster's second select: the queue has room, or the context is done. *)
Definition unblock a : option (actor A) :=
  match posting a with
  | Some env => if zlen (cmds a) <? cmd_cap a then Some (set_posting None (enqueue env a)) else None
  | None => None
  end.
Definition abandon a : option (actor A) :=
  match posting a with
  | Some _ => if alive a then None else Some (set_posting None a)
  | None => None
  end.

(** A full queue closes the session; nothing is dropped silently. *)
Definition PostAudio (pcm : list Z) a : actor A :=
  if alive a then
    let a := next_seq a in
    if zlen (audioIn a) <? audio_cap a
    then record_post (seq a, WAudio pcm) (set_audioIn (audioIn a ++ [(seq a, pcm)]) a)
    else set_sess (cancel_ctx CloseInputOverflow (sess a)) a
  else a.

(** ** The loop *)

Definition input_of (w : work) : input :=
  match w with WCmd cmd => ICommand cmd | WAudio pcm => IAudio pcm end.

Definition under (e : during) (s : session A) : session A :=
  set_takes (chooses e) (match cancels e with Some reason => cancel_ctx reason s | None => s end).

(** Run a handler of the session; [None] when it panics. *)
Definition dispatch (e : during) (i : input) a : option (actor A) :=
  s ← handle i (under e (sess a)); Some (set_sess s a).

Definition perform (e : during) (n : Z) (w : work) a : option (actor A) :=
  a ← dispatch e (input_of w) a; Some (record_handled (n, w) a).

(** The deferred [cleanup]. *)
Definition exit_ (e : during) a : actor A := set_pc Exited (set_sess (cleanup (under e (sess a))) a).

(** The top of the loop: the context check, then what was pulled ahead. *)
Definition top (e : during) a : actor A :=
  if negb (alive a) then exit_ e a
  else
    match stashCmd a, stashAudio a with
    | Some env, None => set_pc (DrainAudio env) (set_stashCmd None a)
    | Some env, Some fr =>
        if env.1 <? fr.1 then set_pc (DrainAudio env) (set_stashCmd None a)
        else set_pc (DrainCommands fr) (set_stashAudio None a)
    | None, Some fr => set_pc (DrainCommands fr) (set_stashAudio None a)
    | None, None => set_pc AtSelect a
    end.

(** One iteration of [drainAudioBefore] in [runCommand]; when the drain
    returns, the command is handled. *)
Definition drainAudioBefore (e : during) (env : cmdEnvelope) a : option (actor A) :=
  let return_ := perform e env.1 (WCmd env.2) (set_pc AtTop a) in
  if negb (alive a) then return_
  else
    match stashAudio a with
    | None =>
        match audioIn a with
        | [] => return_
        | fr :: rest => Some (set_stashAudio (Some fr) (set_audioIn rest a))
        end
    | Some fr =>
        if env.1 <? fr.1 then return_
        else perform e fr.1 (WAudio fr.2) (set_stashAudio None a)
    end.

Definition drainCommandsBefore (e : during) (fr : audioFrame) a : option (actor A) :=
  let return_ := perform e fr.1 (WAudio fr.2) (set_pc AtTop a) in
  if negb (alive a) then return_
  else
    match stashCmd a with
    | None =>
        match cmds a with
        | [] => return_
        | env :: rest => Some (set_stashCmd (Some env) (set_cmds rest a))
        end
    | Some env =>
        if fr.1 <? env.1 then return_
        else perform e env.1 (WCmd env.2) (set_stashCmd None a)
    end.

(** The select; a case that is not ready cannot be picked. *)
Definition select (e : during) (r : ready) a : option (actor A) :=
  let top := set_pc AtTop a in
  match r with
  | RDone => if alive a then None else Some (exit_ e a)
  | RCommand =>
      match cmds a with
      | env :: rest => Some (set_pc (DrainAudio env) (set_cmds rest a))
      | [] => None
      end
  | RAudio =>
      match audioIn a with
      | fr :: rest => Some (set_pc (DrainCommands fr) (set_audioIn rest a))
      | [] => None
      end
  | RASR ev => if asrOpen a then dispatch e (IASR ev) top else None
  | RASRClosed => if asrOpen a then Some (set_asrOpen false top) else None
  | RResp ev => if enabled (IResp ev) (sess a) then dispatch e (IResp ev) top else None
  | RAsrWait => if enabled IAsrWait (sess a) then dispatch e IAsrWait top else None
  | REot => if enabled IEot (sess a) then dispatch e IEot top else None
  | RDeferWait => if enabled IDeferWait (sess a) then dispatch e IDeferWait top else None
  end.

(** One atomic action; [None] when it is not possible, or the handler it runs
    panics. *)
Definition step (m : move) a : option (actor A) :=
  match m with
  | MPost cmd => match posting a with None => Some (Post cmd a) | Some _ => None end
  | MPostAudio pcm => match posting a with None => Some (PostAudio pcm a) | Some _ => None end
  | MUnblock => unblock a
  | MAbandon => abandon a
  | MCancel reason => Some (set_sess (cancel_ctx reason (sess a)) a)
  | MRun e =>
      match at_pc a with
      | AtTop => Some (top e a)
      | DrainAudio env => drainAudioBefore e env a
      | DrainCommands fr => drainCommandsBefore e fr a
      | AtSelect | Exited => None
      end
  | MSelect e r => match at_pc a with AtSelect => select e r a | _ => None end
  end.

Inductive areach (s0 : session A) : actor A -> Prop :=
| areach_start : areach s0 (start s0)
| areach_step a m a' : areach s0 a -> step m a = Some a' -> areach s0 a'.

Fixpoint moves (ms : list move) a : option (actor A) :=
  match ms with
  | [] => Some a
  | m :: ms => step m a ≫= moves ms
  end.

Lemma moves_areach s0 ms : forall a a', areach s0 a -> moves ms a = Some a' -> areach s0 a'.
Proof.
  induction ms as [|m ms IH]; intros a a' Hr; simpl; [by intros [= <-]|].
  intros (a1 & Hs & Hm)%bind_Some_inv. apply (IH a1); [|done]. by eapply areach_step.
Qed.
End actor.

(** ** What is posted and not yet handled *)

Fixpoint cmds_of (l : list (Z * work)) : list cmdEnvelope :=
  match l with
  | [] => []
  | (n, WCmd cmd) :: l => (n, cmd) :: cmds_of l
  | (_, WAudio _) :: l => cmds_of l
  end.

Fixpoint audio_of (l : list (Z * work)) : list audioFrame :=
  match l with
  | [] => []
  | (_, WCmd _) :: l => audio_of l
  | (n, WAudio pcm) :: l => (n, pcm) :: audio_of l
  end.

Lemma cmds_of_app l1 l2 : cmds_of (l1 ++ l2) = cmds_of l1 ++ cmds_of l2.
Proof. induction l1 as [|[n []] l1 IH]; simpl; by rewrite ?IH. Qed.

Lemma audio_of_app l1 l2 : audio_of (l1 ++ l2) = audio_of l1 ++ audio_of l2.
Proof. induction l1 as [|[n []] l1 IH]; simpl; by rewrite ?IH. Qed.

Lemma elem_of_cmds_of env l : env ∈ cmds_of l -> (env.1, WCmd env.2) ∈ l.
Proof.
  induction l as [|[n []] l IH]; simpl; [by intros ?%elem_of_nil|intros [->|?]%elem_of_cons|]; set_solver.
Qed.

Lemma elem_of_audio_of fr l : fr ∈ audio_of l -> (fr.1, WAudio fr.2) ∈ l.
Proof.
  induction l as [|[n []] l IH]; simpl; [by intros ?%elem_of_nil| |intros [->|?]%elem_of_cons]; set_solver.
Qed.

Section order.
Context {A : Type} `{ASRStream A}.
Implicit Types a : actor A.

Definition hand_cmd (p : pc) : option cmdEnvelope := match p with DrainAudio env => Some env | _ => None end.
Definition hand_audio (p : pc) : option audioFrame := match p with DrainCommands fr => Some fr | _ => None end.

Definition pending_cmds a : list cmdEnvelope :=
  option_list (hand_cmd (at_pc a)) ++ option_list (stashCmd a) ++ cmds a.
Definition pending_audio a : list audioFrame :=
  option_list (hand_audio (at_pc a)) ++ option_list (stashAudio a) ++ audioIn a.

Definition increasing (l : list (Z * work)) : Prop := StronglySorted (fun x y => x.1 < y.1) l.

(** The posts are numbered in order; a blocked one has the last number. *)
Record numbered a : Prop := {
  n_sorted : increasing (posted a);
  n_bound : Forall (fun e => e.1 <= seq a) (posted a);
  n_posting : forall env, posting a = Some env -> env.1 = seq a /\ Forall (fun e => e.1 < seq a) (posted a)
}.

(** What was not handled is what the queues, the stashes and the hand hold. *)
Definition ordered a : Prop :=
  exists rest, posted a = handled a ++ rest /\
    cmds_of rest = pending_cmds a /\ audio_of rest = pending_audio a.

(** After the cancellation the loop may have skipped frames for the command in
    hand, but then it is on its way out. *)
Record leaving a : Prop := {
  l_sublist : handled a `sublist_of` posted a;
  l_closed : alive a = false;
  l_pc : at_pc a = AtTop \/ at_pc a = Exited
}.

Record order_ok a : Prop := {
  ok_numbered : numbered a;
  ok_order : ordered a \/ leaving a;
  ok_select : at_pc a = AtSelect -> stashCmd a = None /\ stashAudio a = None
}.

Lemma increasing_snoc l e : increasing l -> Forall (fun x => x.1 < e.1) l -> increasing (l ++ [e]).
Proof.
  intros Hs HF. induction Hs as [|x l Hs IH Hx]; simpl; [by repeat constructor|].
  apply Forall_cons in HF as [Hxe HF]. constructor; [by apply IH|].
  apply Forall_app. split; [done|]. by constructor.
Qed.

Lemma increasing_app_r l1 l2 : increasing (l1 ++ l2) -> increasing l2.
Proof. induction l1 as [|x l1 IH]; [done|]. simpl. intros Hs. inversion Hs; subst. auto. Qed.

(** The first unhandled post is the smallest pending number. *)
Lemma rest_head_cmd rest env ce pa :
  increasing rest -> cmds_of rest = env :: ce -> audio_of rest = pa ->
  (forall fr, head pa = Some fr -> env.1 < fr.1) ->
  exists rest', rest = (env.1, WCmd env.2) :: rest' /\ cmds_of rest' = ce /\ audio_of rest' = pa.
Proof.
  intros Hs Hc Ha Hlt. destruct rest as [|[n [cmd|pcm]] rest]; simpl in *; [done| |].
  - injection Hc as <- <-. eauto.
  - subst pa. specialize (Hlt _ eq_refl). simpl in Hlt.
    inversion Hs as [|x l Hs' HF]; subst. exfalso.
    assert (Hin : env ∈ cmds_of rest) by (rewrite Hc; left).
    apply elem_of_cmds_of in Hin. rewrite Forall_forall in HF. specialize (HF _ Hin). simpl in *. lia.
Qed.

Lemma rest_head_audio rest fr fa pc_ :
  increasing rest -> audio_of rest = fr :: fa -> cmds_of rest = pc_ ->
  (forall env, head pc_ = Some env -> fr.1 < env.1) ->
  exists rest', rest = (fr.1, WAudio fr.2) :: rest' /\ audio_of rest' = fa /\ cmds_of rest' = pc_.
Proof.
  intros Hs Ha Hc Hlt. destruct rest as [|[n [cmd|pcm]] rest]; simpl in *; [done| |].
  - subst pc_. specialize (Hlt _ eq_refl). simpl in Hlt.
    inversion Hs as [|x l Hs' HF]; subst. exfalso.
    assert (Hin : fr ∈ audio_of rest) by (rewrite Ha; left).
    apply elem_of_audio_of in Hin. rewrite Forall_forall in HF. specialize (HF _ Hin). simpl in *. lia.
  - injection Ha as <- <-. eauto.
Qed.

(** A command and a frame pending have different numbers. *)
Lemma pending_ne rest env fr :
  increasing rest -> env ∈ cmds_of rest -> fr ∈ audio_of rest -> env.1 <> fr.1.
Proof.
  intros Hs Hc%elem_of_cmds_of Ha%elem_of_audio_of Heq. rewrite Heq in Hc.
  induction Hs as [|x l Hs IH HF]; [by apply elem_of_nil in Hc|]. rewrite Forall_forall in HF.
  apply elem_of_cons in Hc as [<-|Hc], Ha as [?|Ha]; simplify_eq.
  - specialize (HF _ Ha). simpl in HF. lia.
  - specialize (HF _ Hc). simpl in HF. lia.
  - by apply IH.
Qed.
End order.

Section invariant.
Context {A : Type} `{ASRStream A}.
Implicit Types a : actor A.

Lemma numbered_same a a' : seq a' = seq a -> posted a' = posted a ->
  (posting a' = posting a \/ posting a' = None) -> numbered a -> numbered a'.
Proof.
  intros E1 E2 Eb [? ? Hpo]. split; rewrite ?E2, ?E1; try done.
  intros env Henv. apply Hpo. by destruct Eb as [<-|Eb]; [|rewrite Eb in Henv].
Qed.

Lemma numbered_post a n w a' : numbered a -> Forall (fun e => e.1 < n) (posted a) ->
  seq a' = n -> posting a' = None -> posted a' = posted a ++ [(n, w)] -> numbered a'.
Proof.
  intros [Hs Hb _] Hlt E1 Eb E2. split; rewrite ?E2, ?E1, ?Eb; [by apply increasing_snoc| |done].
  apply Forall_app. split; [eapply Forall_impl; [exact Hlt|]; simpl; lia|]. by repeat constructor.
Qed.

Lemma numbered_next_seq a : posting a = None -> numbered a ->
  numbered (next_seq a) /\ Forall (fun e => e.1 < seq a + 1) (posted a).
Proof.
  intros Hp [? Hb ?]. assert (HF : Forall (fun e => e.1 < seq a + 1) (posted a)).
  { eapply Forall_impl; [exact Hb|]. simpl. lia. }
  split; [|done]. split; simpl; [done| |by rewrite Hp]. eapply Forall_impl; [exact Hb|]. simpl. lia.
Qed.

(** Moving pending items between the hand, the stashes and the queues. *)
Lemma ordered_move a a' : posted a' = posted a -> handled a' = handled a ->
  pending_cmds a' = pending_cmds a -> pending_audio a' = pending_audio a -> ordered a -> ordered a'.
Proof. intros E2 E3 E4 E5 (rest & ?). exists rest. by rewrite E2, E3, E4, E5. Qed.

Lemma ordered_post a e a' : ordered a -> posted a' = posted a ++ [e] -> handled a' = handled a ->
  pending_cmds a' = pending_cmds a ++ cmds_of [e] ->
  pending_audio a' = pending_audio a ++ audio_of [e] -> ordered a'.
Proof.
  intros (rest & Hp & Hc & Ha) E2 E3 E4 E5. exists (rest ++ [e]).
  by rewrite E2, E3, E4, E5, cmds_of_app, audio_of_app, Hp, app_assoc, Hc, Ha.
Qed.

Lemma order_sublist a : order_ok a -> handled a `sublist_of` posted a.
Proof. intros [_ [(rest & -> & _)|[? _ _]] _]; [by apply sublist_inserts_r|done]. Qed.

(** Handling the first pending item. *)
Lemma ordered_handle a a' e : increasing (posted a) -> posted a' = posted a -> handled a' = handled a ++ [e] ->
  pending_cmds a = cmds_of [e] ++ pending_cmds a' -> pending_audio a = audio_of [e] ++ pending_audio a' ->
  match e.2 with
  | WCmd _ => forall fr, head (pending_audio a) = Some fr -> e.1 < fr.1
  | WAudio _ => forall env, head (pending_cmds a) = Some env -> e.1 < env.1
  end -> ordered a -> ordered a'.
Proof.
  intros Hs E2 E3 E4 E5 Hlt (rest & Hp & Hc & Ha). unfold ordered. rewrite E2, E3.
  assert (Hr : increasing rest) by (rewrite Hp in Hs; by eapply increasing_app_r).
  destruct e as [n [cmd|pcm]]; simpl in *; rewrite E4 in Hc; rewrite E5 in Ha.
  - destruct (rest_head_cmd rest (n, cmd) (pending_cmds a') (pending_audio a')) as (rest' & -> & ? & ?); try done.
    { intros fr Hfr. apply Hlt. by rewrite E5. }
    exists rest'. by rewrite Hp, <- app_assoc.
  - destruct (rest_head_audio rest (n, pcm) (pending_audio a') (pending_cmds a')) as (rest' & -> & ? & ?); try done.
    { intros env Henv. apply Hlt. by rewrite E4. }
    exists rest'. by rewrite Hp, <- app_assoc.
Qed.

(** *** Closing is for ever *)

Lemma grows_closed (s s' : session A) : grows s s' -> is_some (closed s) = true -> is_some (closed s') = true.
Proof. intros [_ _ _ Hc] Hs. rewrite Hc; [done|]. by destruct (closed s). Qed.

Lemma closed_cleanup (s : session A) : is_some (closed s) = true -> is_some (closed (cleanup s)) = true.
Proof. unfold cleanup. destruct (active s) as [r|]; [|done]. simpl. apply grows_closed, grows_finish. Qed.

Lemma under_closed e (s : session A) : is_some (closed s) = true -> is_some (closed (under e s)) = true.
Proof. unfold under, cancel_ctx. intros Hs. destruct (cancels e); simpl; [|done]. by destruct (closed s) eqn:E; simpl; rewrite ?E. Qed.

Lemma perform_inv e n w a a' : perform e n w a = Some a' ->
  exists s', handle (input_of w) (under e (sess a)) = Some s' /\ a' = record_handled (n, w) (set_sess s' a).
Proof.
  unfold perform, dispatch. intros (a1 & (s' & Hh & [= <-])%bind_Some_inv & [= <-])%bind_Some_inv. eauto.
Qed.

(** *** The producer *)

Lemma order_enqueue a n cmd a' : order_ok a -> Forall (fun e => e.1 < n) (posted a) -> seq a = n ->
  a' = set_posting None (enqueue (n, cmd) a) -> order_ok a'.
Proof.
  intros [Hn Ho Hc] HF Hs ->. split; [by eapply numbered_post| |done].
  destruct Ho as [Ho|[? ? ?]]; [left|right; split; [by apply sublist_inserts_r|done|done]].
  eapply (ordered_post a (n, WCmd cmd)); try done;
    unfold pending_cmds, pending_audio; simpl; by rewrite ?app_nil_r, <- ?app_assoc.
Qed.

Lemma set_posting_None a : posting a = None -> set_posting None a = a.
Proof. destruct a; simpl. by intros ->. Qed.

Lemma order_next_seq a : posting a = None -> order_ok a ->
  order_ok (next_seq a) /\ Forall (fun e => e.1 < seq a + 1) (posted a).
Proof.
  intros Hp [Hn Ho Hc]. destruct (numbered_next_seq a Hp Hn). split; [|done]. split; [done| |done].
  by destruct Ho as [Ho|[]]; [left|right].
Qed.

Lemma order_Post cmd a : posting a = None -> order_ok a -> order_ok (Post cmd a).
Proof.
  intros Hp Ho. unfold Post. destruct (alive a) eqn:Hal; [|done]. cbv zeta.
  destruct (order_next_seq a Hp Ho) as [Hn HF]. case_match.
  - eapply (order_enqueue (next_seq a)); [done|done|done|]. by rewrite set_posting_None.
  - destruct Hn as [[] Hn' ?]. split; [split; [done|done|by intros env [= <-]]| |done].
    by destruct Hn' as [?|[]]; [left|right].
Qed.

Lemma order_PostAudio pcm a : posting a = None -> order_ok a -> order_ok (PostAudio pcm a).
Proof.
  intros Hp Ho. unfold PostAudio. destruct (alive a) eqn:Hal; [|done]. cbv zeta.
  destruct (order_next_seq a Hp Ho) as [[Hn Hor Hc] HF]. destruct Hor as [Hor|[_ Hcl _]];
    [|by unfold alive in *; simpl in *; rewrite Hcl in Hal].
  case_match; (split; [|left|done]); [by eapply (numbered_post (next_seq a))| |by eapply (numbered_same (next_seq a)); [..|left|]|done].
  eapply (ordered_post (next_seq a) (seq a + 1, WAudio pcm)); try done;
    unfold pending_cmds, pending_audio; simpl; by rewrite ?app_nil_r, <- ?app_assoc.
Qed.

(** A step that leaves the order and closing alone. *)
Lemma order_frame a a' : order_ok a -> at_pc a' = at_pc a -> stashCmd a' = stashCmd a ->
  stashAudio a' = stashAudio a -> seq a' = seq a -> posted a' = posted a -> handled a' = handled a ->
  (posting a' = posting a \/ posting a' = None) -> cmds a' = cmds a -> audioIn a' = audioIn a ->
  (alive a = false -> alive a' = false) -> order_ok a'.
Proof.
  intros [Hn Ho Hc] E1 E2 E3 E4 E5 E6 Eb E7 E8 E9. split; [by eapply numbered_same| |by rewrite E1, E2, E3].
  destruct Ho as [Ho|[]]; [left|right; split; rewrite ?E5, ?E6, ?E1; auto].
  eapply ordered_move; try done; unfold pending_cmds, pending_audio; by rewrite E1, ?E2, ?E3, ?E7, ?E8.
Qed.

Lemma order_unblock a a' : unblock a = Some a' -> order_ok a -> order_ok a'.
Proof.
  unfold unblock. destruct (posting a) as [[n cmd]|] eqn:Hp; [|done]. case_match; [|done].
  intros [= <-] Ho. destruct (n_posting _ (ok_numbered _ Ho) _ Hp) as [Hn HF]. simpl in Hn.
  eapply (order_enqueue a n cmd); try done. by rewrite Hn.
Qed.

Lemma order_abandon a a' : abandon a = Some a' -> order_ok a -> order_ok a'.
Proof.
  unfold abandon. destruct (posting a); [|done]. destruct (alive a) eqn:?; [done|]. intros [= <-] Ho.
  apply (order_frame a); try done. by right.
Qed.

Lemma order_cancel reason a : order_ok a -> order_ok (set_sess (cancel_ctx reason (sess a)) a).
Proof.
  intros Ho. apply (order_frame a); try done; [by left|]. unfold alive. simpl. unfold cancel_ctx.
  by destruct (closed (sess a)) eqn:E; simpl; rewrite ?E.
Qed.

(** *** The loop *)

Lemma order_exit e a : order_ok a -> alive a = false -> at_pc a = AtTop \/ at_pc a = AtSelect -> order_ok (exit_ e a).
Proof.
  intros Ho Hal Hpc. split; [by eapply numbered_same; [..|left|apply Ho]| |done].
  right. split; [exact (order_sublist a Ho)| |by right].
  unfold alive in Hal. apply negb_false_iff in Hal.
  change (negb (is_some (closed (cleanup (under e (sess a))))) = false). by rewrite closed_cleanup by by apply under_closed.
Qed.

(** Moving one item towards the hand. *)
Lemma order_move a a' : order_ok a -> alive a = true \/ at_pc a = AtSelect ->
  seq a' = seq a -> posted a' = posted a -> handled a' = handled a -> posting a' = posting a ->
  pending_cmds a' = pending_cmds a -> pending_audio a' = pending_audio a ->
  (at_pc a' = AtSelect -> stashCmd a' = None /\ stashAudio a' = None) -> order_ok a'.
Proof.
  intros [Hn Ho Hc] Hal E1 E2 E3 Eb E4 E5 Hc'. split; [by eapply numbered_same; [..|left|]| |done].
  destruct Ho as [Ho|[_ Hcl Hpc]]; [left; by eapply ordered_move|].
  destruct Hal as [Hal|Hal], Hpc as [Hpc|Hpc]; congruence.
Qed.

Lemma order_top e a : order_ok a -> at_pc a = AtTop -> order_ok (top e a).
Proof.
  intros Ho Hpc. unfold top. destruct (alive a) eqn:Hal; simpl; [|apply order_exit; auto].
  destruct (stashCmd a) as [env|] eqn:Hc, (stashAudio a) as [fr|] eqn:Hf; try case_match;
    apply (order_move a); try done; try (by left);
    unfold pending_cmds, pending_audio; simpl; by rewrite ?Hpc, ?Hc, ?Hf.
Qed.

(** The command in hand is handled: it is the next of the order, or the
    session has closed and the loop leaves. *)
Lemma order_perform_cmd e env a a' : order_ok a -> at_pc a = DrainAudio env ->
  (alive a = true -> forall fr, head (pending_audio a) = Some fr -> env.1 < fr.1) ->
  perform e env.1 (WCmd env.2) (set_pc AtTop a) = Some a' -> order_ok a'.
Proof.
  intros [Hn Ho _] Hpc Hlt (s' & Hh & ->)%perform_inv.
  destruct Ho as [Ho|[_ _ [?|?]]]; [|congruence..].
  split; [by apply (numbered_same a); [done|done|left|]| |done]. destruct (alive a) eqn:Hal.
  - left. eapply (ordered_handle a _ (env.1, WCmd env.2)); try done; [apply Hn| | |exact (Hlt eq_refl)];
      unfold pending_cmds, pending_audio; simpl; rewrite Hpc; destruct env; done.
  - right. split; [| |by left].
    + destruct Ho as (rest & Hp & Hc & _). simpl. rewrite Hp. apply sublist_app; [done|].
      apply singleton_sublist_l. destruct env as [n cmd]. apply (elem_of_cmds_of (n, cmd)). rewrite Hc.
      unfold pending_cmds. rewrite Hpc. by left.
    + unfold alive in Hal. apply negb_false_iff in Hal.
      apply grows_handle in Hh. change (negb (is_some (closed s')) = false). by rewrite (grows_closed _ _ Hh) by by apply under_closed.
Qed.

Lemma order_perform_audio e fr a a' : order_ok a -> at_pc a = DrainCommands fr ->
  (alive a = true -> forall env, head (pending_cmds a) = Some env -> fr.1 < env.1) ->
  perform e fr.1 (WAudio fr.2) (set_pc AtTop a) = Some a' -> order_ok a'.
Proof.
  intros [Hn Ho _] Hpc Hlt (s' & Hh & ->)%perform_inv.
  destruct Ho as [Ho|[_ _ [?|?]]]; [|congruence..].
  split; [by apply (numbered_same a); [done|done|left|]| |done]. destruct (alive a) eqn:Hal.
  - left. eapply (ordered_handle a _ (fr.1, WAudio fr.2)); try done; [apply Hn| | |exact (Hlt eq_refl)];
      unfold pending_cmds, pending_audio; simpl; rewrite Hpc; destruct fr; done.
  - right. split; [| |by left].
    + destruct Ho as (rest & Hp & _ & Ha). simpl. rewrite Hp. apply sublist_app; [done|].
      apply singleton_sublist_l. destruct fr as [n pcm]. apply (elem_of_audio_of (n, pcm)). rewrite Ha.
      unfold pending_audio. rewrite Hpc. by left.
    + unfold alive in Hal. apply negb_false_iff in Hal.
      apply grows_handle in Hh. change (negb (is_some (closed s')) = false). by rewrite (grows_closed _ _ Hh) by by apply under_closed.
Qed.

(** A stashed frame numbered before the command in hand is the next of the
    order. *)
Lemma order_drain_audio e env fr a a' : order_ok a -> at_pc a = DrainAudio env -> stashAudio a = Some fr ->
  (env.1 <? fr.1) = false -> perform e fr.1 (WAudio fr.2) (set_stashAudio None a) = Some a' -> order_ok a'.
Proof.
  intros [Hn Ho _] Hpc Hst Hle (s' & Hh & ->)%perform_inv. bool_arith.
  destruct Ho as [Ho|[_ _ [?|?]]]; [|congruence..].
  split; [by apply (numbered_same a); [done|done|left|]| |by simpl; rewrite Hpc]. left.
  assert (Hne : env.1 <> fr.1).
  { destruct Ho as (rest & Hp & Hc & Ha). apply (pending_ne rest).
    - pose proof (n_sorted _ Hn) as Hs. rewrite Hp in Hs. by eapply increasing_app_r.
    - rewrite Hc. unfold pending_cmds. rewrite Hpc. by left.
    - rewrite Ha. unfold pending_audio. rewrite Hpc, Hst. by left. }
  eapply (ordered_handle a _ (fr.1, WAudio fr.2)); try done; [apply Hn|..];
    unfold pending_cmds, pending_audio; simpl; rewrite Hpc, ?Hst; try by destruct fr.
  simpl. intros ? [= <-]. lia.
Qed.

Lemma order_drain_cmds e fr env a a' : order_ok a -> at_pc a = DrainCommands fr -> stashCmd a = Some env ->
  (fr.1 <? env.1) = false -> perform e env.1 (WCmd env.2) (set_stashCmd None a) = Some a' -> order_ok a'.
Proof.
  intros [Hn Ho _] Hpc Hst Hle (s' & Hh & ->)%perform_inv. bool_arith.
  destruct Ho as [Ho|[_ _ [?|?]]]; [|congruence..].
  split; [by apply (numbered_same a); [done|done|left|]| |by simpl; rewrite Hpc]. left.
  assert (Hne : env.1 <> fr.1).
  { destruct Ho as (rest & Hp & Hc & Ha). apply (pending_ne rest).
    - pose proof (n_sorted _ Hn) as Hs. rewrite Hp in Hs. by eapply increasing_app_r.
    - rewrite Hc. unfold pending_cmds. rewrite Hpc, Hst. by left.
    - rewrite Ha. unfold pending_audio. rewrite Hpc. by left. }
  eapply (ordered_handle a _ (env.1, WCmd env.2)); try done; [apply Hn|..];
    unfold pending_cmds, pending_audio; simpl; rewrite Hpc, ?Hst; try by destruct env.
  simpl. intros ? [= <-]. lia.
Qed.

Lemma order_drainAudioBefore e env a a' : order_ok a -> at_pc a = DrainAudio env ->
  drainAudioBefore e env a = Some a' -> order_ok a'.
Proof.
  intros Ho Hpc. unfold drainAudioBefore. destruct (alive a) eqn:Hal; simpl;
    [|by apply order_perform_cmd; [..|congruence]].
  destruct (stashAudio a) as [fr|] eqn:Hst; [destruct (env.1 <? fr.1) eqn:Hlt|destruct (audioIn a) as [|fr q] eqn:Hq].
  - apply order_perform_cmd; [done|done|]. intros _ fr'. unfold pending_audio. rewrite Hpc, Hst. simpl.
    intros [= <-]. by bool_arith.
  - by apply (order_drain_audio e env).
  - apply order_perform_cmd; [done|done|]. intros _ fr'. unfold pending_audio. by rewrite Hpc, Hst, Hq.
  - intros [= <-]. apply (order_move a); try done; [by left|..];
      unfold pending_cmds, pending_audio; simpl; by rewrite ?Hpc, ?Hst, ?Hq.
Qed.

Lemma order_drainCommandsBefore e fr a a' : order_ok a -> at_pc a = DrainCommands fr ->
  drainCommandsBefore e fr a = Some a' -> order_ok a'.
Proof.
  intros Ho Hpc. unfold drainCommandsBefore. destruct (alive a) eqn:Hal; simpl;
    [|by apply order_perform_audio; [..|congruence]].
  destruct (stashCmd a) as [env|] eqn:Hst; [destruct (fr.1 <? env.1) eqn:Hlt|destruct (cmds a) as [|env q] eqn:Hq].
  - apply order_perform_audio; [done|done|]. intros _ env'. unfold pending_cmds. rewrite Hpc, Hst. simpl.
    intros [= <-]. by bool_arith.
  - by apply (order_drain_cmds e fr).
  - apply order_perform_audio; [done|done|]. intros _ env'. unfold pending_cmds. by rewrite Hpc, Hst, Hq.
  - intros [= <-]. apply (order_move a); try done; [by left|..];
      unfold pending_cmds, pending_audio; simpl; by rewrite ?Hpc, ?Hst, ?Hq.
Qed.

(** A case of the select that is not an item of the queues. *)
Lemma order_dispatch e i a a' : order_ok a -> at_pc a = AtSelect ->
  dispatch e i (set_pc AtTop a) = Some a' -> order_ok a'.
Proof.
  intros Ho Hpc. unfold dispatch. intros (s' & Hh & [= <-])%bind_Some_inv.
  apply (order_move a); try done; [by right|..]; unfold pending_cmds, pending_audio; simpl; by rewrite Hpc.
Qed.

Lemma order_select e r a a' : order_ok a -> at_pc a = AtSelect -> select e r a = Some a' -> order_ok a'.
Proof.
  intros Ho Hpc. destruct (ok_select _ Ho Hpc) as [Hc Hf].
  destruct r; simpl; try case_match eqn:Hq; try done; try by apply order_dispatch.
  - intros [= <-]. by apply order_exit; auto.
  - intros [= <-]. apply (order_move a); try done; [by right|..];
      unfold pending_cmds, pending_audio; simpl; by rewrite Hpc, ?Hc, ?Hq.
  - intros [= <-]. apply (order_move a); try done; [by right|..];
      unfold pending_cmds, pending_audio; simpl; by rewrite Hpc, ?Hf, ?Hq.
  - intros [= <-]. apply (order_move a); try done; [by right|..];
      unfold pending_cmds, pending_audio; simpl; by rewrite Hpc.
Qed.

Lemma order_step m a a' : order_ok a -> step m a = Some a' -> order_ok a'.
Proof.
  intros Ho. destruct m; simpl.
  - destruct (posting a) eqn:Hp; [done|]. intros [= <-]. by apply order_Post.
  - destruct (posting a) eqn:Hp; [done|]. intros [= <-]. by apply order_PostAudio.
  - intros Hu. by eapply order_unblock.
  - intros Hu. by eapply order_abandon.
  - intros [= <-]. by apply order_cancel.
  - destruct (at_pc a) eqn:Hpc; try done.
    + intros [= <-]. by apply order_top.
    + by apply order_drainAudioBefore.
    + by apply order_drainCommandsBefore.
  - destruct (at_pc a) eqn:Hpc; try done. by apply order_select.
Qed.

Lemma order_start (s : session A) : order_ok (start s).
Proof. split; [split; [constructor|constructor|done]| |done]. left. by exists []. Qed.

Lemma order_areach (s0 : session A) a : areach s0 a -> order_ok a.
Proof. induction 1 as [|a m a' _ IH Hs]; [apply order_start|by eapply order_step]. Qed.
End invariant.
