(* ===== verification/ActorProps.v ===== *)
(** * Properties of the actor loop

    Ordering and completeness of the two queues, the refinement of the
    session's step relation by the loop, and the end of a drain. *)

From S2P Require Export Actor Demo.
From S2P Require Import Session.
#[local] Open Scope Z_scope.

Section props.
Context {A : Type} `{ASRStream A}.
Implicit Types a : actor A.

(** ** Ordering *)

(** C8. Commands and audio frames travel in two queues and are handled in the
    one order in which they were posted: what was handled is a subsequence of
    what was posted, whose numbers increase; while the session lives nothing is
    skipped (it is a prefix); and when the loop waits in its select with both
    queues empty, everything posted has been handled. *)
Theorem handled_in_posted_order (s0 : session A) a : areach s0 a ->
  handled a `sublist_of` posted a /\ increasing (posted a) /\
  (alive a = true -> handled a `prefix_of` posted a) /\
  (alive a = true -> at_pc a = AtSelect -> cmds a = [] -> audioIn a = [] -> handled a = posted a).
Proof.
  intros Hr%order_areach. pose proof Hr as [[Hs _ _] Ho Hc].
  split; [by apply order_sublist|]. split; [done|].
  destruct Ho as [(rest & Hp & Hpc & Hpa)|[_ Hcl _]]; [|by rewrite Hcl].
  split; intros _; [by exists rest|]. intros Hat Hq1 Hq2. destruct (Hc Hat) as [Hs1 Hs2].
  unfold pending_cmds, pending_audio in *. rewrite Hat, Hs1, Hq1 in Hpc. rewrite Hat, Hs2, Hq2 in Hpa.
  destruct rest as [|[n []] rest]; [by rewrite Hp, app_nil_r|done|done].
Qed.

(** ** Refinement *)

Lemma reachable_cancel c lim t (stream : A) reason s :
  reachable c lim t stream s -> reachable c lim t stream (cancel_ctx reason s).
Proof. intros Hr. by apply (reach_step c lim t stream s (IClose reason)). Qed.

Lemma reachable_under c lim t (stream : A) e s :
  reachable c lim t stream s -> reachable c lim t stream (under e s).
Proof. intros Hr. unfold under. apply reach_takes. destruct (cancels e); [by apply reachable_cancel|done]. Qed.

Lemma enabled_under e i (s : session A) : enabled i (under e s) = enabled i s.
Proof. unfold under, cancel_ctx. destruct (cancels e), i; simpl; try done; by destruct (closed s). Qed.

Lemma reachable_dispatch c lim t (stream : A) e i a a' : reachable c lim t stream (sess a) ->
  enabled i (sess a) = true -> dispatch e i a = Some a' -> reachable c lim t stream (sess a').
Proof.
  intros Hr He. unfold dispatch. intros (s' & Hh & [= <-])%bind_Some_inv.
  eapply reach_step; [by apply (reachable_under _ _ _ _ e)| |exact Hh]. by rewrite enabled_under.
Qed.

Lemma reachable_perform c lim t (stream : A) e n w a a' : reachable c lim t stream (sess a) ->
  perform e n w a = Some a' -> reachable c lim t stream (sess a').
Proof.
  intros Hr (s' & Hh & ->)%perform_inv. simpl.
  eapply reach_step; [by apply (reachable_under _ _ _ _ e)| |exact Hh]. by destruct w.
Qed.

(** The session of an actor: a reachable state, or what cleanup left of one. *)
Definition refines c lim t (stream : A) a : Prop :=
  match at_pc a with
  | Exited => alive a = false /\ exists s, reachable c lim t stream s /\ closed s <> None /\ sess a = cleanup s
  | _ => reachable c lim t stream (sess a)
  end.

Lemma refines_frame c lim t (stream : A) a a' : refines c lim t stream a ->
  at_pc a' = at_pc a -> sess a' = sess a -> refines c lim t stream a'.
Proof. unfold refines, alive. by intros Hr -> ->. Qed.

Lemma refines_cancel c lim t (stream : A) reason a a' : refines c lim t stream a ->
  at_pc a' = at_pc a -> sess a' = cancel_ctx reason (sess a) -> refines c lim t stream a'.
Proof.
  unfold refines, alive. intros Hr -> ->. destruct (at_pc a); try by apply reachable_cancel.
  destruct Hr as [Hcl Hr]. unfold cancel_ctx. destruct (closed (sess a)) eqn:E; [|done].
  by rewrite E.
Qed.

Lemma refines_reachable c lim t (stream : A) a : reachable c lim t stream (sess a) -> at_pc a <> Exited ->
  refines c lim t stream a.
Proof. unfold refines. by destruct (at_pc a). Qed.

Lemma refines_exit c lim t (stream : A) e a : reachable c lim t stream (sess a) -> alive a = false ->
  refines c lim t stream (exit_ e a).
Proof.
  unfold alive. intros Hr Hal%negb_false_iff. pose proof (under_closed e _ Hal) as Hu. split.
  - change (negb (is_some (closed (cleanup (under e (sess a))))) = false). by rewrite closed_cleanup.
  - exists (under e (sess a)). split; [by apply reachable_under|]. split; [|done]. by destruct (closed (under e (sess a))).
Qed.

Lemma perform_pc e n w a a' : perform e n w a = Some a' -> at_pc a' = at_pc a.
Proof. by intros (s' & _ & ->)%perform_inv. Qed.

Lemma dispatch_pc e i a a' : dispatch e i a = Some a' -> at_pc a' = at_pc a.
Proof. unfold dispatch. by intros (s' & _ & [= <-])%bind_Some_inv. Qed.

Lemma refines_perform c lim t (stream : A) e n w a a' : reachable c lim t stream (sess a) -> at_pc a <> Exited ->
  perform e n w a = Some a' -> refines c lim t stream a'.
Proof.
  intros Hr Hpc Hp. apply refines_reachable; [by eapply reachable_perform|by rewrite (perform_pc _ _ _ _ _ Hp)].
Qed.

Lemma refines_run c lim t (stream : A) e a a' : refines c lim t stream a -> step (MRun e) a = Some a' ->
  refines c lim t stream a'.
Proof.
  intros Hr. simpl. unfold refines in Hr. destruct (at_pc a) as [| |env|fr|] eqn:Hpc; try done.
  - intros [= <-]. unfold Actor.top. destruct (alive a) eqn:Hal; simpl; [|by apply refines_exit].
    repeat case_match; by apply refines_reachable.
  - unfold drainAudioBefore. repeat case_match; try (by apply refines_perform; simpl; rewrite ?Hpc).
    intros [= <-]. apply refines_reachable; simpl; by rewrite ?Hpc.
  - unfold drainCommandsBefore. repeat case_match; try (by apply refines_perform; simpl; rewrite ?Hpc).
    intros [= <-]. apply refines_reachable; simpl; by rewrite ?Hpc.
Qed.

Lemma refines_select c lim t (stream : A) e r a a' : refines c lim t stream a -> at_pc a = AtSelect ->
  select e r a = Some a' -> refines c lim t stream a'.
Proof.
  intros Hr Hpc. unfold refines in Hr. rewrite Hpc in Hr.
  assert (Hd : forall i, enabled i (sess a) = true -> dispatch e i (set_pc AtTop a) = Some a' ->
    refines c lim t stream a').
  { intros i He Hd. apply refines_reachable; [by eapply (reachable_dispatch _ _ _ _ e i (set_pc AtTop a))|by rewrite (dispatch_pc _ _ _ _ Hd)]. }
  destruct r; cbn [select]; try case_match eqn:Hq; try done; try (by apply Hd);
    intros [= <-]; try (by apply refines_reachable). by apply refines_exit.
Qed.

Lemma refines_step c lim t (stream : A) m a a' : refines c lim t stream a -> step m a = Some a' ->
  refines c lim t stream a'.
Proof.
  intros Hr. destruct m; cbn [step].
  - destruct (posting a); [done|]. intros [= <-]. unfold Post, enqueue. repeat case_match; by eapply refines_frame.
  - destruct (posting a); [done|]. intros [= <-]. unfold PostAudio.
    repeat case_match; try (by eapply refines_frame). by eapply (refines_cancel _ _ _ _ CloseInputOverflow a).
  - unfold unblock, enqueue. repeat case_match; try done. intros [= <-]. by eapply refines_frame.
  - unfold abandon. repeat case_match; try done. intros [= <-]. by eapply refines_frame.
  - intros [= <-]. by eapply (refines_cancel _ _ _ _ reason a).
  - by apply refines_run.
  - destruct (at_pc a) eqn:Hpc; try done. by apply refines_select.
Qed.

Lemma refines_areach c lim t (stream : A) a : areach (New c lim t stream) a -> refines c lim t stream a.
Proof. induction 1 as [|a m a' _ IH Hs]; [apply reach_new|by eapply refines_step]. Qed.

(** *** What the consumer is given *)

Lemma grows_dispatch e i a a' : dispatch e i a = Some a' -> grows (sess a) (sess a').
Proof.
  unfold dispatch. intros (s' & Hh%grows_handle & [= <-])%bind_Some_inv. simpl. etransitivity; [|exact Hh].
  unfold under. destruct (cancels e); [exact (grows_cancel _ (sess a))|exact (grows_refl (sess a))].
Qed.

Lemma grows_perform e n w a a' : perform e n w a = Some a' -> grows (sess a) (sess a').
Proof. unfold perform. by intros (a1 & Hd%grows_dispatch & [= <-])%bind_Some_inv. Qed.

Lemma grows_exit e a : alive a = false -> grows (sess a) (sess (exit_ e a)).
Proof.
  unfold alive. intros Hal%negb_false_iff. pose proof (under_closed e _ Hal) as Hu. simpl.
  transitivity (under e (sess a)); [|apply grows_cleanup; by destruct (closed (under e (sess a)))].
  unfold under. destruct (cancels e); [exact (grows_cancel _ (sess a))|exact (grows_refl (sess a))].
Qed.

Lemma grows_step m a a' : step m a = Some a' -> grows (sess a) (sess a').
Proof.
  destruct m; cbn [step].
  - destruct (posting a); [done|]. intros [= <-]. unfold Post, enqueue. by repeat case_match.
  - destruct (posting a); [done|]. intros [= <-]. unfold PostAudio. repeat case_match; try done. apply grows_cancel.
  - unfold unblock, enqueue. repeat case_match; try done. by intros [= <-].
  - unfold abandon. repeat case_match; try done. by intros [= <-].
  - intros [= <-]. apply grows_cancel.
  - destruct (at_pc a); try done.
    + intros [= <-]. unfold Actor.top. destruct (alive a) eqn:Hal; simpl; [by repeat case_match|by apply grows_exit].
    + unfold drainAudioBefore. repeat case_match; try (by intros Hp%grows_perform). by intros [= <-].
    + unfold drainCommandsBefore. repeat case_match; try (by intros Hp%grows_perform). by intros [= <-].
  - destruct (at_pc a); try done. destruct r; cbn [select]; try case_match; try done;
      try (by intros Hd%grows_dispatch); intros [= <-]; try done. by apply grows_exit.
Qed.

Lemma grows_moves ms : forall a a', moves ms a = Some a' -> grows (sess a) (sess a').
Proof.
  induction ms as [|m ms IH]; intros a a'; simpl; [by intros [= <-]|].
  intros (a1 & Hs & Hm)%bind_Some_inv. transitivity (sess a1); [by eapply grows_step|by apply IH].
Qed.

Lemma grows_areach s0 a : areach s0 a -> grows s0 (sess a).
Proof. induction 1 as [|a m a' _ IH Hs]; [done|]. transitivity (sess a); [exact IH|by eapply grows_step]. Qed.

(** C9. The loop with its queues refines the session's step relation: however
    posts, drains, provider events, timers and cancellations (in the middle of a
    handler too) interleave, the session an actor holds is one the step relation
    reaches, so every invariant of the reachable states holds of it; once the loop
    has exited, the actor has emitted a complete conversation that ends with the
    session's close. Of what it emits the consumer gets a subsequence: everything
    while the session lives, and whatever was emitted by a moment at which it lived
    stays a prefix of what the consumer has at any later one. *)
Theorem loop_refines_session c lim t (stream : A) a : areach (New c lim t stream) a ->
  match at_pc a with
  | Exited => trace (out (sess a)) = Some Ended
  | _ => reachable c lim t stream (sess a)
  end /\
  sent (sess a) `sublist_of` out (sess a) /\
  (alive a = true -> sent (sess a) = out (sess a) /\
     forall ms a', moves ms a = Some a' -> out (sess a) `prefix_of` sent (sess a')).
Proof.
  intros Hr. pose proof (refines_areach _ _ _ _ _ Hr) as Hf. split.
  - unfold refines in Hf. destruct (at_pc a); try done.
    destruct Hf as (_ & s & Hs & _ & ->). by apply core_cleanup, (core_reachable c lim t stream).
  - destruct (grows_sent (New c lim t stream) (sess a) eq_refl eq_refl (grows_areach _ _ Hr)) as [Hs He].
    split; [done|]. intros Hal. assert (He' : sent (sess a) = out (sess a)).
    { apply He. unfold alive in Hal. by destruct (closed (sess a)). }
    split; [done|]. intros ms a' Hm. apply grows_sent_before; [done|by eapply grows_moves].
Qed.

(** ** Drains end *)

(** What a drain for the command in hand has left to do. *)
Definition drain_left (env : cmdEnvelope) a : nat :=
  2 * length (filter (fun fr : audioFrame => fr.1 <= env.1) (pending_audio a)) +
  (if is_some (stashAudio a) then 0 else 1).

(** The command in hand was posted, so later posts have larger numbers. *)
Lemma hand_bound a env : order_ok a -> at_pc a = DrainAudio env -> env.1 <= Actor.seq a.
Proof.
  intros [[_ Hb _] Ho _] Hpc. destruct Ho as [(rest & Hp & Hc & _)|[_ _ [?|?]]]; [|congruence..].
  rewrite Forall_forall in Hb. apply (Hb (env.1, WCmd env.2)). rewrite Hp. apply elem_of_app. right.
  apply elem_of_cmds_of. rewrite Hc. unfold pending_cmds. rewrite Hpc. by left.
Qed.

Lemma drain_left_same env a a' : pending_audio a' = pending_audio a ->
  is_some (stashAudio a') = is_some (stashAudio a) -> drain_left env a' = drain_left env a.
Proof. unfold drain_left. by intros -> ->. Qed.

Lemma drain_left_post env a a' fr : env.1 < fr.1 -> pending_audio a' = pending_audio a ++ [fr] ->
  is_some (stashAudio a') = is_some (stashAudio a) -> drain_left env a' = drain_left env a.
Proof.
  intros Hlt. unfold drain_left. intros -> ->. rewrite filter_app, length_app.
  rewrite (filter_cons_False _ fr []) by lia. simpl. lia.
Qed.

Lemma drain_iteration e env a a' : at_pc a = DrainAudio env -> drainAudioBefore e env a = Some a' ->
  (at_pc a' = AtTop /\ last (handled a') = Some (env.1, WCmd env.2)) \/
  (at_pc a' = DrainAudio env /\ (drain_left env a' < drain_left env a)%nat).
Proof.
  intros Hpc. unfold drainAudioBefore.
  assert (Hdone : perform e env.1 (WCmd env.2) (set_pc AtTop a) = Some a' ->
    at_pc a' = AtTop /\ last (handled a') = Some (env.1, WCmd env.2)).
  { intros (s' & _ & ->)%perform_inv. simpl. by rewrite last_snoc. }
  destruct (alive a); [|by left; apply Hdone]. unfold drain_left, pending_audio.
  destruct (stashAudio a) as [fr|] eqn:Hst; [destruct (env.1 <? fr.1) eqn:Hlt|destruct (audioIn a) as [|fr q] eqn:Hq];
    simpl; try by (intros; left; apply Hdone).
  - intros (s' & _ & ->)%perform_inv. right. bool_arith. simpl. rewrite Hpc. split; [done|]. simpl.
    rewrite (filter_cons_True _ fr) by done. simpl. lia.
  - intros [= <-]. right. simpl. rewrite Hpc. split; [done|]. simpl. lia.
Qed.

(** C10. A drain ends. While the loop drains audio for the command in hand,
    nothing the connection or the server does adds to the work left, however
    fast frames keep arriving; and each iteration of the loop handles the
    command or leaves strictly less. *)
Theorem drain_terminates (s0 : session A) a m a' env : areach s0 a -> at_pc a = DrainAudio env ->
  step m a = Some a' ->
  match m with
  | MRun _ => (at_pc a' = AtTop /\ last (handled a') = Some (env.1, WCmd env.2)) \/
             (at_pc a' = DrainAudio env /\ (drain_left env a' < drain_left env a)%nat)
  | _ => at_pc a' = DrainAudio env /\ drain_left env a' = drain_left env a
  end.
Proof.
  intros Hr%order_areach Hpc. pose proof (hand_bound _ _ Hr Hpc) as Hb.
  destruct m; cbn [step]; rewrite ?Hpc; try done.
  - destruct (posting a); [done|]. intros [= <-]. unfold Post, enqueue.
    repeat case_match; (split; [done|by apply drain_left_same]).
  - destruct (posting a); [done|]. intros [= <-]. unfold PostAudio. repeat case_match; (split; [done|]);
      try by apply drain_left_same.
    eapply (drain_left_post _ _ _ (Actor.seq a + 1, pcm)); [simpl; lia|unfold pending_audio; simpl; by rewrite !app_assoc|done].
  - unfold unblock, enqueue. repeat case_match; try done. intros [= <-]. split; [done|by apply drain_left_same].
  - unfold abandon. repeat case_match; try done. intros [= <-]. split; [done|by apply drain_left_same].
  - intros [= <-]. split; [done|by apply drain_left_same].
  - by apply drain_iteration.
Qed.
End props.

(** ** A run in which the select picks the command first *)

Definition demo_actor : actor unit := start (demo None).

(** The audio was posted first; the loop picks the command and drains. *)
Definition picks_command : list move :=
  [ MPostAudio [0; 0]; MPost (CmdCommitAudio "a"%string); MRun calm; MSelect calm RCommand; MRun calm; MPostAudio [0; 0] ].

Definition draining : actor unit := default demo_actor (moves picks_command demo_actor).
Definition drained : actor unit := default demo_actor (moves (repeat (MRun calm) 6) draining).

Lemma demo_moves ms a : moves ms demo_actor = Some a -> areach (demo None) a.
Proof. apply moves_areach, areach_start. Qed.

Lemma draining_areach : areach (demo None) draining.
Proof. apply (demo_moves picks_command). vm_compute. reflexivity. Qed.

Lemma drained_areach : areach (demo None) drained.
Proof. apply (moves_areach _ (repeat (MRun calm) 6) draining); [apply draining_areach|by vm_compute]. Qed.

Lemma handled_in_posted_order_witness : handled drained = posted drained /\ length (posted drained) = 3%nat.
Proof.
  split; [|by vm_compute].
  apply (handled_in_posted_order (demo None) drained drained_areach); by vm_compute.
Defined.

Lemma loop_refines_session_witness : reachable (demo_cfg_with None) demo_limits None tt (sess drained).
Proof. exact (proj1 (loop_refines_session (demo_cfg_with None) demo_limits None tt drained drained_areach)). Defined.

Lemma drain_terminates_witness : exists a', step (MRun calm) draining = Some a' /\
  ((at_pc a' = AtTop /\ last (handled a') = Some (2%Z, WCmd (CmdCommitAudio "a"%string))) \/
   (at_pc a' = DrainAudio (2%Z, CmdCommitAudio "a"%string) /\
    (drain_left (2%Z, CmdCommitAudio "a"%string) a' < drain_left (2%Z, CmdCommitAudio "a"%string) draining)%nat)).
Proof.
  exists (default draining (step (MRun calm) draining)).
  assert (Hs : step (MRun calm) draining = Some (default draining (step (MRun calm) draining))) by by vm_compute.
  split; [exact Hs|].
  apply (drain_terminates (demo None) draining (MRun calm) _ (2%Z, CmdCommitAudio "a"%string) draining_areach); [by vm_compute|exact Hs].
Defined.
