(* ===== verification/SessionProps.v ===== *)
(** * Properties of the session

    Theorems about every state the actor can reach, from the invariants of
    [SessionCore], [SessionTimers] and [SessionGrows], and the behaviour of the
    handlers that decide when the assistant speaks. *)

From S2P Require Export Demo.
From S2P Require Import Response.
From S2P Require Turn Conversation Vad Buffer.
From S2P Require Import Session.
Import Turn (TurnInput(..), TurnDecision, EmitSpeechStarted, EmitSpeechStopped, Interrupt, Commit,
  Trigger, DeferTrigger, ArmEndOfTurnTimer, ArmFinalWaitTimer).
#[local] Open Scope Z_scope.

Section props.
Context {A : Type} `{ASRStream A}.
Implicit Types s : session A.

(** ** Helpers *)

Lemma stale_event ev g s : generation ev = Some g -> g < activeGen s -> handleResponseEvent ev s = s.
Proof.
  intros Hg Hlt. unfold handleResponseEvent. destruct (active s); [|done]. rewrite Hg.
  rewrite (proj2 (Z.eqb_neq _ _)) by lia. by rewrite orb_true_r.
Qed.

(** ** Ordering *)

(** C1. In every reachable state the events the actor has emitted follow the
    response protocol (one response at a time, numbered consecutively; its message
    item is added before any of its deltas and done after them; response.done comes
    last), and the phase they end in is that of the active response. The consumer
    is given exactly these while the session lives; after the cancellation it may
    miss some, but gets a subsequence of them, and whatever was emitted while the
    session lived stays the beginning of what it has, in every later state and in
    the shutdown. The shutdown always ends the open response before
    session.closed. *)
Theorem events_follow_protocol c lim t (stream : A) s : reachable c lim t stream s ->
  trace (out s) = Some (phase_of (active s) (nextResp s)) /\
  trace (out (cleanup s)) = Some Ended /\
  sent s `sublist_of` out s /\
  (closed s <> None -> sent (cleanup s) `sublist_of` out (cleanup s) /\ sent s `prefix_of` sent (cleanup s)) /\
  (closed s = None -> sent s = out s /\ forall is_ s', run is_ s = Some s' ->
     out s `prefix_of` sent s' /\ (closed s' <> None -> out s `prefix_of` sent (cleanup s'))).
Proof.
  intros Hr. pose proof (core_reachable c lim t stream s Hr) as Hk. pose proof (grows_reachable _ _ _ _ _ Hr) as Hg.
  split; [apply Hk|]. split; [by apply core_cleanup|].
  destruct (grows_sent (New c lim t stream) s eq_refl eq_refl Hg) as [Hs He]. split; [done|]. split.
  - intros Hc%grows_cleanup. split; [|by destruct Hc as [_ (evs & kept & _ & _ & -> & _) _ _]; exists kept].
    refine (proj1 (grows_sent (New c lim t stream) _ eq_refl eq_refl _)). etransitivity; [exact Hg|exact Hc].
  - intros Hc. specialize (He Hc). split; [done|]. intros is_ s' Hrun%grows_run.
    split; [by apply grows_sent_before|]. intros Hc'%grows_cleanup. apply grows_sent_before; [done|]. by etransitivity.
Qed.

(** C3. At most one pipeline may still run: every pipeline ever launched has
    been cancelled, except the one of the active response, which carries the
    current generation and that response's ref. *)
Theorem one_live_pipeline c lim t (stream : A) s p : reachable c lim t stream s -> p ∈ pipelines s ->
  p_gen p ∈ cancelled s \/
  exists r, active s = Some r /\ awaiting r = false /\ p_gen p = activeGen s /\ p_resp p = r_ref r.
Proof.
  intros Hr Hp. pose proof (core_reachable c lim t stream s Hr) as [_ Hk _ _ Hpi _].
  destruct (proj1 (Forall_forall _ _) Hpi p Hp) as [_ [?|(r & Ha & Hw & Hg & Hf)]]; [by left|right].
  exists r. destruct (Hk r Ha) as (_ & _ & Hx). rewrite Hw in Hx. destruct Hx as [_ Hx].
  split_and!; try done. congruence.
Qed.

(** C4. Once a pipeline is cancelled nothing it still sends has any effect, at
    any later point of the session. *)
Theorem cancelled_pipeline_is_silent c lim t (stream : A) s is_ s' p ev :
  reachable c lim t stream s -> p ∈ pipelines s -> p_gen p ∈ cancelled s -> sent_by p ev = true ->
  run is_ s = Some s' -> handle (IResp ev) s' = Some s'.
Proof.
  intros Hr Hp Hc He Hrun. pose proof (core_reachable c lim t stream s Hr) as [_ _ _ Hcn _ _].
  pose proof (proj1 (Forall_forall _ _) Hcn _ Hc) as Hlt. pose proof (g_gen _ _ _ _ _ _ _ _ _ _ _ _ (grows_run is_ s s' Hrun)).
  unfold sent_by in He. apply andb_true_iff in He as [He _]. apply bool_decide_eq_true in He.
  simpl. f_equal. apply (stale_event ev (p_gen p)); [done|]. simpl in Hlt. lia.
Qed.

(** ** Barge-in *)

(** The events that close the item of a response. *)
Definition closes (r : response) (ev : Event) : Prop :=
  match ev with
  | EvOutputTextDone ref it _ | EvOutputAudioTranscriptDone ref it _ | EvOutputAudioDone ref it =>
      ref = r_ref r /\ it = r_item r
  | EvOutputItemDone ref _ => ref = r_ref r
  | _ => False
  end.

Lemma finish_events r status reason err s : r_status r = ResponseInProgress ->
  exists closing outp, Forall (closes r) closing /\
    out (finish r status reason err s) =
      out s ++ closing ++ [EvResponseDone (r_ref r) status reason (failCode r) err (r_usage r) outp].
Proof.
  intros Hst. unfold finish. replace (terminal r) with false by (unfold terminal; by rewrite Hst). cbv zeta.
  set (s0 := stopASRWait _). assert (H0 : out s0 = out s) by (unfold s0; by destruct (r_cancel r)).
  destruct (close_item r status s0) as [s1 outp] eqn:Hc. rewrite turn_eq. simpl.
  assert (H1 : exists closing, Forall (closes r) closing /\ out s1 = out s ++ closing).
  { unfold close_item in Hc. rewrite <- H0. clearbody s0. destruct (Conversation.get _ _) as [o|].
    - cbv zeta in Hc. injection Hc as <- _. destruct (textOnly r); simpl;
        [eexists [_; _]|eexists [_; _; _]]; (split; [|by rewrite <- !app_assoc]); by repeat constructor.
    - injection Hc as <- _. exists []. by rewrite app_nil_r. }
  destruct H1 as (closing & Hf & ->). exists closing. eexists. split; [done|]. by rewrite <- app_assoc.
Qed.

Lemma finish_nextResp r status reason err s : nextResp (finish r status reason err s) = nextResp s.
Proof.
  unfold finish. destruct (terminal r); [done|]. cbv zeta. set (s0 := stopASRWait _).
  destruct (close_item r status s0) as [s1 outp] eqn:Hc. apply close_item_frame in Hc as (_ & _ & _ & _ & _ & _ & Hn & _).
  rewrite turn_eq. simpl. rewrite Hn. unfold s0. by destruct (r_cancel r).
Qed.

(** The phases only go forward: the refs of the responses grow. *)
Definition floor (ph : phase) : Z := match ph with Idle n => n | Open n _ | Closing n => n - 1 | Ended => 0 end.

Lemma floor_mono evs : forall ph ph', fold_left (fun ph ev => ph ≫= fun p => phase_step p ev) evs (Some ph) = Some ph' ->
  ph' <> Ended -> floor ph <= floor ph'.
Proof.
  assert (Hn : forall evs ph', fold_left (fun ph ev => ph ≫= fun p => phase_step p ev) evs None <> Some ph')
    by (intros l ?; by induction l).
  induction evs as [|ev evs IH]; intros ph ph' Hf Hne; [by injection Hf as ->|]. cbn [fold_left] in Hf.
  change (Some ph ≫= fun p => phase_step p ev) with (phase_step ph ev) in Hf.
  destruct (phase_step ph ev) as [ph1|] eqn:Hs; [|by destruct (Hn evs ph')]. specialize (IH ph1 ph' Hf Hne).
  assert (Hh : ph1 = Ended \/ floor ph <= floor ph1).
  { destruct ev, ph; simpl in Hs; repeat (case_match; try done); bool_arith; simplify_eq; simpl; (by left) || (right; lia). }
  destruct Hh as [->|Hh]; [|lia]. destruct evs as [|ev' evs]; [injection Hf as <-; done|].
  exfalso. cbn [fold_left] in Hf. assert (Hs' : phase_step Ended ev' = None) by by destruct ev'.
  change (Some Ended ≫= fun p => phase_step p ev') with (phase_step Ended ev') in Hf. rewrite Hs' in Hf. by destruct (Hn evs ph').
Qed.

(** Audio that is buffered and recognized: the state in which the detector's
    events are handled, and the events. *)
Definition hears (p : list Z) s : option (session A * list Vad.Event) :=
  b ← Buffer.append (buffer s) p;
  match PushAudio (asrStream s) p with
  | (a, None) =>
      e ← detector s;
      let '(e, evs) := Vad.Process e p in
      Some (set_detector (Some e) (set_asrStream a (set_buffer b s)), evs)
  | (_, Some _) => None
  end.

Lemma hears_handleAudio p s s0 evs s' : hears p s = Some (s0, evs) -> handleAudio p s = Some s' ->
  (core s -> core s0) /\ grows s s0 /\ exists s2 b, vad_events evs s0 = Some s2 /\ s' = set_buffer b s2.
Proof.
  unfold hears, handleAudio. destruct (Buffer.append _ _) as [b|]; [|done]. cbn [mbind option_bind].
  destruct (PushAudio _ _) as [a [err|]]; [done|]. cbv zeta. simpl detector.
  destruct (detector s) as [e|]; [|done]. cbn [mbind option_bind]. destruct (Vad.Process e p) as [e' evs'].
  intros [= <- <-] (s2 & H2 & (b' & _ & [= <-])%bind_Some_inv)%bind_Some_inv.
  split; [done|]. split; [exact (grows_refl s)|]. by exists s2, b'.
Qed.

Lemma vad_events_app evs1 evs2 : forall s, vad_events (evs1 ++ evs2) s = s1 ← vad_events evs1 s; vad_events evs2 s1.
Proof.
  induction evs1 as [|ev evs1 IH]; intros s; [done|]. cbn [vad_events app].
  destruct (match Vad.Kind ev with Vad.SpeechStart => _ | Vad.SpeechEnd => _ end) as [s1|]; [apply IH|done].
Qed.

(** What speech start does to an active response. *)
Lemma speech_started_interrupts off s r s' : core s -> active s = Some r ->
  Turn.mode (turns s) <> Turn.modeManual -> Turn.interruptResponse (turns s) = true ->
  speech_started off s = Some s' ->
  active s' = None /\ nextResp s' = r_ref r /\
  exists start item closing outp, Forall (closes r) closing /\
    out s' = out s ++ EvSpeechStarted start item :: closing ++
      [EvResponseDone (r_ref r) ResponseCancelled ReasonTurnDetected (failCode r) None (r_usage r) outp].
Proof.
  intros [_ Hk Ht _ _ _] Ha Hm Hint. destruct (Hk r Ha) as (Hst & Href & _). rewrite Ha in Ht. simpl in Ht.
  unfold speech_started. cbv zeta.
  assert (Hal : active (alloc_speech s) = Some r /\ turns (alloc_speech s) = turns s /\ out (alloc_speech s) = out s /\
    nextResp (alloc_speech s) = nextResp s) by (unfold alloc_speech; by destruct (_ =? 0)).
  destruct Hal as (Ha1 & Ht1 & Ho1 & Hn1). rewrite <- Ho1. rewrite <- Hn1 in Href. revert Ha1 Ht1 Href.
  generalize (alloc_speech s). intros s1 Ha1 Ht1 Href. destruct (Buffer.markSpeechStart _ _ _) as [b st].
  rewrite turn_eq. simpl turns. rewrite Ht1. simpl. rewrite (bool_decide_eq_false_2 _ Hm), Hint, Ht. simpl.
  unfold interrupt. simpl active. rewrite Ha1. set (s2 := emit _ _).
  pose proof (finish_frame r ResponseCancelled ReasonTurnDetected None s2 Hst) as (Hsr & Hna & _ & _ & _).
  destruct (finish_events r ResponseCancelled ReasonTurnDetected None s2 Hst) as (closing & outp & Hf & Hl).
  unfold Session.apply. simpl. intros [= <-]. set (s3 := finish _ _ _ _ s2) in *.
  assert (Hd : forall b : bool, active (if b then dropDeferredTrigger s3 else s3) = active s3 /\
    nextResp (if b then dropDeferredTrigger s3 else s3) = nextResp s3 /\
    out (if b then dropDeferredTrigger s3 else s3) = out s3) by by intros [].
  destruct (Hd (Turn.interruptResponse (turns s3) && negb (deferItem s3 =? 0))) as (-> & -> & ->).
  split; [done|]. split; [unfold s3; rewrite finish_nextResp; simpl; congruence|].
  exists st, (speechItem s1), closing, outp. split; [done|]. rewrite Hl. unfold s2. simpl. by rewrite <- app_assoc.
Qed.

(** C2. Barge-in: when the detector reports the start of speech in audio that
    arrives while a response is active and interrupt_response is set, the next
    events the actor emits are speech_started, the ones that close the response's
    item and its response.done, cancelled with reason turn_detected; only then come
    those of what the same audio brings about later. After the audio every pipeline
    of the response is cancelled, and if a response is active it is a later one.
    The consumer is given all of this unless the session was closed meanwhile.
    [pre] are the reports before the start of speech in the same audio, [s1] the
    state after them. *)
Theorem barge_in c lim t (stream : A) s p s0 pre ev post s1 r s' : reachable c lim t stream s ->
  hears p s = Some (s0, pre ++ ev :: post) -> Vad.Kind ev = Vad.SpeechStart ->
  vad_events pre s0 = Some s1 -> active s1 = Some r ->
  Turn.mode (turns s1) <> Turn.modeManual -> Turn.interruptResponse (turns s1) = true ->
  handle (IAudio p) s = Some s' ->
  (exists start item closing outp rest, Forall (closes r) closing /\
    out s' = out s1 ++ EvSpeechStarted start item :: closing ++
      EvResponseDone (r_ref r) ResponseCancelled ReasonTurnDetected (failCode r) None (r_usage r) outp :: rest) /\
  (forall pl, pl ∈ pipelines s' -> p_resp pl = r_ref r -> p_gen pl ∈ cancelled s') /\
  (forall r', active s' = Some r' -> r_ref r < r_ref r') /\
  (closed s' = None -> sent s' = out s').
Proof.
  intros Hr Hh Hkind Hpre Ha Hm Hint Hs. simpl in Hs.
  pose proof (grows_reachable _ _ _ _ _ Hr) as Hg. pose proof (core_reachable _ _ _ _ _ Hr) as Hk.
  pose proof (core_handleAudio _ _ _ Hk Hs) as Hk'. pose proof (grows_handleAudio _ _ _ Hs) as Hg'.
  destruct (hears_handleAudio _ _ _ _ _ Hh Hs) as (Hk0 & _ & s3 & b & Hev & ->). specialize (Hk0 Hk).
  rewrite vad_events_app, Hpre in Hev. cbn [vad_events mbind option_bind] in Hev. rewrite Hkind in Hev.
  apply bind_Some_inv in Hev as (s2 & H2 & H3). pose proof (core_vad_events _ _ _ Hk0 Hpre) as Hk1.
  pose proof (core_speech_started _ _ _ Hk1 H2) as Hk2.
  destruct (speech_started_interrupts _ _ _ _ Hk1 Ha Hm Hint H2) as (Hna & Hnr & start & item & closing & outp & Hf & Ho).
  apply grows_vad_events in H3 as [_ (rest & kept & Ho3 & _) _ _].
  assert (Hlater : forall r', active s3 = Some r' -> r_ref r < r_ref r').
  { intros r' Ha'. destruct Hk2 as [_ _ _ _ _ Ht2], Hk' as [_ Hka _ _ _ Ht3]. simpl in Hka, Ht3.
    rewrite Ho3 in Ht3. unfold trace in Ht2, Ht3. rewrite fold_left_app, Ht2, Hna, Hnr, Ha' in Ht3. simpl in Ht3.
    apply floor_mono in Ht3; [|done]. simpl in Ht3. destruct (Hka r' Ha') as (_ & -> & _). lia. }
  split; [|split; [|split]].
  - exists start, item, closing, outp, rest. split; [done|]. simpl. rewrite Ho3, Ho, <- !app_assoc. simpl.
    by rewrite <- app_assoc.
  - destruct Hk' as [_ _ _ _ Hpi _]. simpl in *. intros pl Hpl Hpr. rewrite Forall_forall in Hpi.
    destruct (Hpi pl Hpl) as [_ [?|(r' & Ha' & _ & _ & Hr')]]; [done|]. specialize (Hlater r' Ha'). lia.
  - exact Hlater.
  - refine (proj2 (grows_sent (New c lim t stream) _ eq_refl eq_refl _)). etransitivity; [exact Hg|exact Hg'].
Qed.

(** ** Nothing waits forever *)

(** C5. A response that waits for a transcript has its timer armed, and when
    it fires the response starts or fails: it never waits on. *)
Theorem awaiting_response_resolves c lim t (stream : A) s r :
  Validate "session" (cfg (New c lim t stream)) = None -> reachable c lim t stream s ->
  active s = Some r -> awaiting r = true ->
  enabled IAsrWait s = true /\
  exists s', handle IAsrWait s = Some s' /\
    (active s' = None \/ exists r', active s' = Some r' /\ r_ref r' = r_ref r /\ awaiting r' = false).
Proof.
  intros Hv Hr Ha Hw. pose proof (timed_reachable c lim t stream s Hv Hr) as [Hwait _ _ _ _ _ _].
  pose proof (core_reachable c lim t stream s Hr) as [_ Hk _ _ _ _]. destruct (Hk r Ha) as (Hst & _).
  split.
  - unfold enabled. by rewrite Hwait, Ha.
  - eexists. split; [done|]. unfold handleTranscriptTimeout. simpl active. rewrite Ha, Hw. simpl negb. cbv iota zeta.
    destruct (String.eqb _ _).
    + left. unfold failResponse. by apply finish_frame.
    + right. eexists. by split_and!.
Qed.

(** A turn that waits for its end, and a committed turn whose response
    waits for its transcript, have their timers armed: the facts that settle
    them are enabled. *)
Theorem turn_timers_armed c lim t (stream : A) s :
  Validate "session" (cfg (New c lim t stream)) = None -> reachable c lim t stream s ->
  (Turn.pendingEOT (turns s) = true -> enabled IEot s = true) /\
  (deferItem s <> 0 -> enabled IDeferWait s = true) /\
  (deferItem s = 0 -> deferWait s = None) /\
  (is_some (asrWait s) = true -> exists r, active s = Some r /\ awaiting r = true).
Proof.
  intros Hv Hr. pose proof (timed_reachable c lim t stream s Hv Hr) as [Hwait Hd _ He _ _ _].
  unfold enabled. split_and!.
  - intros Hp. specialize (He Hp). by destruct (eot s).
  - intros Hn. destruct (deferWait s); [done|]. by destruct Hn, Hd; auto.
  - by apply Hd.
  - intros Hs. rewrite Hs in Hwait. unfold waiting in Hwait. destruct (active s) as [r|]; [|done]. by exists r.
Qed.

(** ** Configuration *)

(** The configuration a session runs under is valid at all times (a
    rejected update changes nothing), the turn manager runs with its settings,
    and the detector exists exactly in the VAD modes. *)
Theorem configuration_valid c lim t (stream : A) s :
  Validate "session" (cfg (New c lim t stream)) = None -> reachable c lim t stream s ->
  session_ok (cfg s) /\ settings_ok (cfg s) (turns s) /\
  (detector s = None <-> Turn.mode (turns s) = Turn.modeManual) /\
  (forall p tag, Validate "session" (apply_patch p (cfg s)) <> None -> cfg (updateSession p tag s) = cfg s).
Proof.
  intros Hv Hr. pose proof (timed_reachable c lim t stream s Hv Hr) as [_ _ _ _ Hs Hd Hc].
  split_and!; try done; try apply Hd; [by apply (Validate_session_ok "session")|].
  intros p tag Hn. unfold updateSession. destruct (voice_locked _ _); [done|]. cbv zeta.
  destruct (Validate "session" (apply_patch p (cfg s))); [done|by destruct Hn].
Qed.

(** The voice lock: once a response has sent audio, no run changes the
    session's voice and every response created from then on uses it. *)
Theorem voice_locked_after_audio s is_ s' : audioEmitted s = true -> run is_ s = Some s' ->
  voice s' = voice s /\
  exists evs, out s' = out s ++ evs /\ Forall (voice_ok (voice s)) evs.
Proof.
  intros Ha Hr. destruct (grows_run is_ s s' Hr) as [_ (evs & kept & Ho & Hv & _) Hau _].
  split; [by apply Hau|]. exists evs. auto.
Qed.

(** ** The conversation *)

(** C6. In every reachable state the conversation is well formed, no tool call
    has two outputs, the committed item that waits for its transcript is in the
    conversation, in progress and without a transcript, and so is the message
    item of the active response. *)
Theorem conversation_invariant c lim t (stream : A) s : reachable c lim t stream s ->
  Conversation.wf (conv s) /\ Conversation.outputs_unique (conv s) /\
  (forall ref, pendingItem s = Some ref -> exists it, Conversation.get (conv s) ref = Some it /\
     user_pending (Conversation.base it)) /\
  (forall r, active s = Some r -> r_item r <> 0 -> exists it, Conversation.get (conv s) (r_item r) = Some it /\
     message_of (textOnly r) (Conversation.base it)).
Proof.
  intros Hr. pose proof (core_reachable c lim t stream s Hr) as Hk. split_and!.
  - apply (co_wf _ _ _ _ (k_conv _ _ _ _ _ _ _ _ _ _ Hk)).
  - apply (co_outputs _ _ _ _ (k_conv _ _ _ _ _ _ _ _ _ _ Hk)).
  - apply (co_pend _ _ _ _ (k_conv _ _ _ _ _ _ _ _ _ _ Hk)).
  - intros r Ha. by apply core_msg_get.
Qed.

(** ** When the assistant speaks in semantic_vad *)

Lemma Validate_prefix p1 p2 c : Validate p1 c = None -> Validate p2 c = None.
Proof. intros Hv. by apply Validate_session_ok, (Validate_session_ok p1). Qed.

Lemma createResponse_default tag s : Validate "session" (cfg s) = None -> pendingItem s = None ->
  exists r, active (createResponse no_overrides tag s) = Some r /\ r_ref r = nextResp s + 1 /\
    awaiting r = false /\ r_gen r = activeGen s + 1 /\
    deferItem (createResponse no_overrides tag s) = deferItem s.
Proof.
  intros Hv Hp. unfold createResponse. simpl voice_locked. cbv iota zeta. simpl patch.
  rewrite (Validate_prefix "session" "response" (cfg s) Hv).
  rewrite turn_eq. simpl pendingItem. rewrite Hp. simpl. eexists. by split_and!.
Qed.

(** In semantic_vad the transcript decides: when the deferred turn's
    transcript is final and blank no response is created and the turn is over;
    otherwise a response is created and its pipeline started at once. *)
Theorem deferred_trigger c lim t (stream : A) s ref text delta :
  Validate "session" (cfg (New c lim t stream)) = None -> reachable c lim t stream s ->
  pendingItem s = Some ref -> deferItem s = ref -> active s = None ->
  let s' := completePendingItem ref text delta s in
  deferItem s' = 0 /\
  (is_blank text = true -> active s' = None /\ nextResp s' = nextResp s) /\
  (is_blank text = false -> exists r, active s' = Some r /\ r_ref r = nextResp s + 1 /\ awaiting r = false).
Proof.
  intros Hv Hr Hp Hd Ha. pose proof (timed_reachable c lim t stream s Hv Hr) as [_ _ _ _ _ _ Hc].
  pose proof (pending_nonzero s ref (core_reachable c lim t stream s Hr) Hp) as Hn.
  unfold completePendingItem. cbv zeta.
  match goal with |- context [match active ?x with Some _ => _ | None => _ end] => set (s3 := x) end.
  assert (H3 : active s3 = None /\ deferItem s3 = ref /\ nextResp s3 = nextResp s /\ pendingItem s3 = None /\ cfg s3 = cfg s).
  { unfold s3. destruct (Conversation.get _ _), (transcriptionEnabled _); try destruct (negb _); by rewrite <- Hd. }
  clearbody s3. destruct H3 as (Ha3 & Hd3 & Hn3 & Hp3 & Hc3). rewrite Ha3. unfold resolveDeferredTrigger.
  rewrite Hd3, (proj2 (Z.eqb_neq _ _) Hn), Z.eqb_refl. simpl orb. cbv iota.
  destruct (is_blank text); [split_and!; done|]. simpl active. rewrite Ha3.
  destruct (createResponse_default EmptyString (dropDeferredTrigger s3)) as (r & H1 & H2 & H4 & _ & H5);
    [by rewrite <- Hc3 in Hc|done|].
  split_and!; [by rewrite H5|done|]. intros _. exists r. split; [exact H1|]. split; [|done]. rewrite H2. simpl. by rewrite Hn3.
Qed.

(** In manual mode audio is only buffered and sent to the recognizer:
    whatever the caller says, no event is emitted, no item committed, no
    response created or interrupted, unless the session closes with an error. *)
Theorem manual_audio_is_passive c lim t (stream : A) s p s' :
  Validate "session" (cfg (New c lim t stream)) = None -> reachable c lim t stream s ->
  In_TurnDetection (SD_Input (cfg s)) = None -> handleAudio p s = Some s' ->
  is_some (closed s') = true \/
  (out s' = out s /\ conv s' = conv s /\ active s' = active s /\
   Buffer.pcm (buffer s') = Buffer.pcm (buffer s) ++ p).
Proof.
  intros Hv Hr Htd. pose proof (timed_reachable c lim t stream s Hv Hr) as [_ _ _ _ (Hm & _) Hd _].
  rewrite Htd in Hm. assert (Hdet : detector s = None) by by apply Hd.
  assert (Hf : forall code reason s1, is_some (closed (fatal code reason s1)) = true).
  { intros code reason s1. unfold fatal, cancel_ctx. simpl. destruct (closed s1) eqn:Hcl; simpl; by rewrite ?Hcl. }
  unfold handleAudio. destruct (Buffer.append _ _) as [b|] eqn:Hb; [|intros [= <-]; left; apply Hf].
  destruct (PushAudio _ _) as [a [e|]]; cbv zeta; [intros [= <-]; left; apply Hf|].
  simpl detector. rewrite Hdet. intros [= <-]. right. split_and!; try done. simpl.
  unfold Buffer.append in Hb. destruct (_ <? _); [done|]. by injection Hb as <-.
Qed.

(** ** Truncation *)

(** C7. [conversation.item.truncate] with an audio_end_ms that is negative or
    beyond the generated audio (and small enough not to overflow) is rejected
    and changes nothing but the error event; within the audio it is accepted
    when the text can be trimmed, and the item keeps that prefix and no more
    audio than asked for. *)
Theorem truncate_bounds id ms tag s it :
  Conversation.get (conv s) id = Some it -> Role (Conversation.base it) = RoleAssistant ->
  Content (Conversation.base it) = ContentAudio -> in_i64 (ms * 48) ->
  (ms < 0 \/ Conversation.audioB it < ms * 48 ->
     truncateItem id 0 ms tag s = Some (emitParamError tag ErrCodeTruncateOutOfRange "audio_end_ms" s)) /\
  (0 <= ms -> ms * 48 <= Conversation.audioB it ->
     Truncate.trimmable (bytes_of (Text (Conversation.base it))) (Conversation.segments it)
       (Conversation.alignment it) (Conversation.audioB it) ->
     exists s' it', truncateItem id 0 ms tag s = Some s' /\
       Conversation.get (conv s') id = Some it' /\
       bytes_of (Text (Conversation.base it')) `prefix_of` bytes_of (Text (Conversation.base it)) /\
       Conversation.audioB it' = ms * 48 /\
       out s' = out s ++ [EvItemTruncated id 0 ms]).
Proof.
  intros Hg Hr Hc Hms. unfold truncateItem. rewrite Hg, Hr, String.eqb_refl. cbv zeta.
  rewrite (bool_decide_eq_true_2 _ Hc). simpl orb. cbv iota. change (negb (0 =? 0)) with false. cbv iota.
  rewrite Audio.MsToBytes_small by done. split.
  - intros Hor. assert ((ms <? 0) || (Conversation.audioB it <? ms * 48) = true) as ->; [|done].
    apply orb_true_iff. rewrite !Z.ltb_lt. done.
  - intros H0 H1 Htr. rewrite (proj2 (Z.ltb_ge _ _) H0), (proj2 (Z.ltb_ge _ _) H1). simpl orb. cbv iota.
    destruct (Truncate.trimText_prefix_mono _ _ _ _ (ms * 48) (ms * 48) Htr ltac:(lia)) as (u & u' & Hu & _ & Hp1 & Hp2).
    destruct Hp1 as [r1 Hr1], Hp2 as [r2 Hr2].
    assert (Hb : bytes_of (string_of u) = u).
    { apply bytes_of_string_of. pose proof (bytes_of_range (Text (Conversation.base it))) as HF.
      rewrite Hr2, Hr1 in HF. by do 2 apply Forall_app in HF as [HF _]. }
    rewrite Hu. simpl mbind. destruct (ms * 48 <? Conversation.audioB it) eqn:Hlt; bool_arith;
      (eexists _, _; split; [reflexivity|]; split; [simpl; rewrite Conversation.get_modify, Hg; reflexivity|]);
      simpl; rewrite Hb; split_and!; try done; try lia; by exists (r1 ++ r2); rewrite app_assoc, <- Hr1.
Qed.
End props.

(** ** Instances *)

Definition spoken : session unit := demo_state (Some (server_td 40)) text_turn.
Definition waiting_turn : session unit := demo_state None manual_turn.

Lemma spoken_reachable : reachable (demo_cfg_with (Some (server_td 40))) demo_limits None tt spoken.
Proof. apply demo_reachable. by vm_compute. Qed.

Lemma waiting_reachable : reachable (demo_cfg_with None) demo_limits None tt waiting_turn.
Proof. apply demo_reachable. by vm_compute. Qed.

#[local] Opaque spoken waiting_turn.

Lemma events_follow_protocol_witness :
  trace (out spoken) = Some (Open 1 2) /\ sent spoken = out spoken /\ trace (out (cleanup spoken)) = Some Ended.
Proof.
  destruct (events_follow_protocol _ _ _ _ spoken spoken_reachable) as (H1 & H2 & _ & _ & H3).
  destruct H3 as [H3 _]; [by vm_compute|]. split; [|exact (conj H3 H2)]. rewrite H1. by vm_compute.
Defined.

Definition spoken_pipeline : pipeline :=
  default (MkPipeline 0 0 false (MkChatRequest EmptyString [] 0 None None (MkToolChoice EmptyString EmptyString))
    (MkTTSConfig EmptyString SpeedMin 0)) (head (pipelines spoken)).

Lemma spoken_pipeline_in : spoken_pipeline ∈ pipelines spoken.
Proof.
  apply head_elem_of. by vm_compute.
Qed.

Lemma one_live_pipeline_witness :
  p_gen spoken_pipeline ∈ cancelled spoken \/
  exists r, active spoken = Some r /\ awaiting r = false /\ p_gen spoken_pipeline = activeGen spoken /\
    p_resp spoken_pipeline = r_ref r.
Proof. exact (one_live_pipeline _ _ _ _ spoken spoken_pipeline spoken_reachable spoken_pipeline_in). Defined.

(** The same turn, cancelled by the client. *)
Definition cancelled_turn : session unit :=
  demo_state (Some (server_td 40)) (text_turn ++ [ICommand (CmdCancelResponse "c"%string 0)]).

Lemma cancelled_reachable : reachable (demo_cfg_with (Some (server_td 40))) demo_limits None tt cancelled_turn.
Proof. apply demo_reachable. by vm_compute. Qed.

Lemma cancelled_pipeline_is_silent_witness :
  handle (IResp (EvOutputAudioTranscriptDelta 1 0 1 "late"%string)) cancelled_turn = Some cancelled_turn.
Proof.
  refine (cancelled_pipeline_is_silent _ _ _ _ cancelled_turn [] cancelled_turn spoken_pipeline _
    cancelled_reachable _ _ _ eq_refl).
  - replace (pipelines cancelled_turn) with (pipelines spoken) by by vm_compute. exact spoken_pipeline_in.
  - replace (cancelled cancelled_turn) with [1] by by vm_compute.
    replace (p_gen spoken_pipeline) with 1 by by vm_compute. by left.
  - by vm_compute.
Defined.

Definition spoken_response : response :=
  default (MkResponse 0 0 ResponseInProgress false false false false false 0 0 false EmptyString 0 EmptyString
    ErrCodeNone EmptyString (MkUsage 0 0) EmptyString None (MkToolChoice EmptyString EmptyString) false 0) (active spoken).

(** The caller speaks while the answer is being spoken. *)
Definition interrupted : session unit := default spoken (handle (IAudio loud) spoken).
Definition hearing : session unit * list Vad.Event := default (spoken, []) (hears loud spoken).

Lemma barge_in_witness : active interrupted = None /\ sent interrupted = out interrupted /\
  exists start item closing outp rest, Forall (closes spoken_response) closing /\
    out interrupted = out hearing.1 ++ EvSpeechStarted start item :: closing ++
      EvResponseDone (r_ref spoken_response) ResponseCancelled ReasonTurnDetected (failCode spoken_response) None
        (r_usage spoken_response) outp :: rest.
Proof.
  assert (Hh : hears loud spoken = Some (hearing.1, [] ++ Vad.MkEvent Vad.SpeechStart 0 :: [])) by by vm_compute.
  assert (Ha : active hearing.1 = Some spoken_response) by by vm_compute.
  assert (Hs : handle (IAudio loud) spoken = Some interrupted) by by vm_compute.
  destruct (barge_in _ _ _ _ spoken loud hearing.1 [] (Vad.MkEvent Vad.SpeechStart 0) [] hearing.1 spoken_response
    interrupted spoken_reachable Hh eq_refl eq_refl Ha) as (H1 & _ & _ & H4); [by vm_compute|by vm_compute|exact Hs|].
  split; [by vm_compute|]. split; [apply H4; by vm_compute|exact H1].
Defined.

Definition waiting_response : response := default spoken_response (active waiting_turn).

Lemma awaiting_response_resolves_witness : enabled IAsrWait waiting_turn = true.
Proof.
  assert (Ha : active waiting_turn = Some waiting_response) by by vm_compute.
  refine (proj1 (awaiting_response_resolves (demo_cfg_with None) demo_limits None tt waiting_turn waiting_response
    _ waiting_reachable Ha _)); by vm_compute.
Defined.

Lemma turn_timers_armed_witness : exists r, active waiting_turn = Some r /\ awaiting r = true.
Proof.
  assert (Hv : Validate "session" (cfg (New (demo_cfg_with None) demo_limits None tt)) = None) by by vm_compute.
  destruct (turn_timers_armed _ _ _ _ waiting_turn Hv waiting_reachable) as (_ & _ & _ & H4).
  apply H4. by vm_compute.
Defined.

Lemma configuration_valid_witness : session_ok (cfg waiting_turn).
Proof.
  refine (proj1 (configuration_valid (demo_cfg_with None) demo_limits None tt waiting_turn _ waiting_reachable)).
  by vm_compute.
Defined.

(** A client that tries to change the voice after the audio, then cancels and
    asks for another response. *)
Definition change_voice : list input :=
  [ ICommand (CmdUpdateSession "u" (MkSessionPatch None None (Some "echo") None None Unset Unset None None));
    ICommand (CmdCancelResponse "c" 0); ICommand (CmdCreateResponse "d" no_overrides) ]%string.

Definition after_change : session unit := default spoken (run change_voice spoken).

Lemma voice_locked_after_audio_witness : voice after_change = voice spoken /\
  exists evs, out after_change = out spoken ++ evs /\ Forall (voice_ok (voice spoken)) evs.
Proof.
  assert (Hr : run change_voice spoken = Some after_change) by by vm_compute.
  apply (voice_locked_after_audio spoken change_voice after_change); [by vm_compute|exact Hr].
Defined.

Lemma conversation_invariant_witness : Conversation.outputs_unique (conv spoken).
Proof. exact (proj1 (proj2 (conversation_invariant _ _ _ _ spoken spoken_reachable))). Defined.

(** A turn committed by semantic_vad on the end-of-turn timer. *)
Definition deferred : session unit := demo_state (Some semantic_td) (semantic_turn ++ [IEot]).

Lemma deferred_trigger_witness :
  let s' := completePendingItem 1 "what time is it?" "what time is it?" deferred in
  exists r, active s' = Some r /\ r_ref r = nextResp deferred + 1 /\ awaiting r = false.
Proof.
  assert (Hr : reachable (demo_cfg_with (Some semantic_td)) demo_limits None tt deferred)
    by (apply demo_reachable; by vm_compute).
  destruct (deferred_trigger (demo_cfg_with (Some semantic_td)) demo_limits None tt deferred 1 "what time is it?" "what time is it?")
    as (_ & _ & H3); [by vm_compute|exact Hr|by vm_compute..|].
  apply H3. by vm_compute.
Defined.

Definition fed : session unit := default waiting_turn (handleAudio quiet waiting_turn).

Lemma manual_audio_is_passive_witness :
  is_some (closed fed) = true \/
  (out fed = out waiting_turn /\ conv fed = conv waiting_turn /\ active fed = active waiting_turn /\
   Buffer.pcm (buffer fed) = Buffer.pcm (buffer waiting_turn) ++ quiet).
Proof.
  assert (Hh : handleAudio quiet waiting_turn = Some fed) by by vm_compute.
  refine (manual_audio_is_passive (demo_cfg_with None) demo_limits None tt waiting_turn quiet fed _ waiting_reachable _ Hh);
    by vm_compute.
Defined.

Definition spoken_item : Conversation.item :=
  Conversation.set_audioB 960 (Conversation.fresh_item
    {| Ref := 2; ClientID := EmptyString; Role := RoleAssistant; Content := ContentAudio; Status := ItemInProgress;
       Text := "Hello."; AudioMs := 20; TranscriptDone := true; Name := EmptyString; CallID := EmptyString |}).

Lemma truncate_bounds_witness :
  truncateItem 2 0 21 "t" spoken = Some (emitParamError "t" ErrCodeTruncateOutOfRange "audio_end_ms" spoken) /\
  exists s', truncateItem 2 0 10 "t" spoken = Some s'.
Proof.
  assert (Hg : Conversation.get (conv spoken) 2 = Some spoken_item) by by vm_compute.
  assert (H21 := truncate_bounds 2 21 "t" spoken spoken_item Hg eq_refl eq_refl).
  assert (H10 := truncate_bounds 2 10 "t" spoken spoken_item Hg eq_refl eq_refl).
  split.
  - assert (Hi : in_i64 (21 * 48)) by (clear; unfold in_i64; lia).
    exact (proj1 (H21 Hi) (or_intror (eq_refl : Conversation.audioB spoken_item < 21 * 48))).
  - assert (Hi : in_i64 (10 * 48)) by (clear; unfold in_i64; lia).
    destruct (proj2 (H10 Hi)) as (s' & _ & Hs & _); [by vm_compute|by vm_compute| |by exists s'].
    split; [apply Utf8.ValidString_sound; by vm_compute|apply bytes_of_range|by vm_compute|by vm_compute|constructor|done].
Defined.

(** ** What goes wrong *)

(** [conversation.item.truncate] is not safe for a huge audio_end_ms: at
    2*10^17 the byte offset wraps negative, the request passes the range check
    although the item has 20 ms of audio, the whole text is erased and the item
    is left with a negative amount of audio. *)
Theorem truncate_overflow_accepted :
  exists s' it, truncateItem 2 0 (2 * 10 ^ 17) "t" spoken = Some s' /\
    Conversation.audioB spoken_item = 960 /\
    last (out s') = Some (EvItemTruncated 2 0 (2 * 10 ^ 17)) /\
    Conversation.get (conv s') 2 = Some it /\
    Text (Conversation.base it) = EmptyString /\ Conversation.audioB it < 0.
Proof.
  destruct (truncateItem 2 0 (2 * 10 ^ 17) "t" spoken) as [s'|] eqn:Hs; [|by vm_compute in Hs].
  exists s'. assert (Hd : s' = default spoken (truncateItem 2 0 (2 * 10 ^ 17) "t" spoken)) by by rewrite Hs.
  destruct (Conversation.get (conv s') 2) as [it|] eqn:Hg; [|rewrite Hd in Hg; by vm_compute in Hg].
  exists it. assert (Hit : it = default spoken_item (Conversation.get (conv s') 2)) by by rewrite Hg.
  rewrite Hd in Hit. split_and!; [done|done| |done|rewrite Hit|rewrite Hit]; [rewrite Hd| |]; by vm_compute.
Qed.

(** A caller can crash the process: one append that holds speech, a pause
    and speech again commits the first segment while the marks of the second
    still count from before the commit; the next small commit slices the buffer
    beyond its end and panics. Every input of the run is enabled. *)
Theorem stale_segment_commit_panics :
  let s := demo_state (Some brisk_td) [IAudio (concat [loud; quiet; quiet; quiet; quiet; loud]); IAudio quiet] in
  reachable (demo_cfg_with (Some brisk_td)) demo_limits None tt s /\
  Validate "session" (cfg s) = None /\
  enabled (ICommand (CmdCommitAudio "c")) s = true /\
  handle (ICommand (CmdCommitAudio "c")) s = None.
Proof. split_and!; [apply demo_reachable; by vm_compute|by vm_compute..]. Qed.
