(* ===== verification/AdapterProps.v ===== *)
(** * Properties of the protocol adapter

    Reasoning is by the monad's operations: [quiet] operations build no frame,
    [numbered] ones number their frames in order, [safe] ones never panic
    where the responses they name are in the table. *)

From S2P Require Export Echo Demo.
From Stdlib Require Import QArith Ascii Finite.
From S2P Require Import SessionProps Adapter SessionStep.
#[local] Open Scope string_scope.
#[local] Open Scope Z_scope.

(** ** Event ids *)

(** The counter after one frame, and the numbers of the next [k] frames. *)
Definition nxt (n : Z) : Z := (n + 1) mod 2 ^ 64.

Fixpoint numbers (n : Z) (k : nat) : list Z :=
  match k with O => [] | S k => nxt n :: numbers (nxt n) k end.

Fixpoint after (n : Z) (k : nat) : Z := match k with O => n | S k => after (nxt n) k end.

Lemma after_add n k1 k2 : after n (k1 + k2) = after (after n k1) k2.
Proof. revert n. induction k1 as [|k1 IH]; intros n; simpl; [done|]. apply IH. Qed.

Lemma numbers_add n k1 k2 : numbers n (k1 + k2) = (numbers n k1 ++ numbers (after n k1) k2)%list.
Proof. revert n. induction k1 as [|k1 IH]; intros n; simpl; [done|]. by rewrite IH. Qed.

Definition frame_id (f : frame) : string := EventID f.1.

(** [m] keeps the event counter and the prefix. *)
Definition quiet {A} (m : M A) : Prop := forall a x a',
  m a = Some (x, a') -> eventSeq a' = eventSeq a /\ eventPrefix a' = eventPrefix a.

(** [m]'s frames are numbered from the counter on. *)
Definition numbered (m : M (list frame)) : Prop := forall a fs a',
  m a = Some (fs, a') ->
  map frame_id fs = map (event_name (eventPrefix a)) (numbers (eventSeq a) (length fs)) /\
  eventSeq a' = after (eventSeq a) (length fs) /\ eventPrefix a' = eventPrefix a.

Create HintDb quiet.

Lemma bindM_Some {A B} (e : M A) (k : A -> M B) a y a' :
  bindM e k a = Some (y, a') -> exists x a1, e a = Some (x, a1) /\ k x a1 = Some (y, a').
Proof. unfold bindM. destruct (e a) as [[x a1]|]; [|done]. by exists x, a1. Qed.

Lemma quiet_ret {A} (x : A) : quiet (ret x).
Proof. by intros a y a' [= <- <-]. Qed.

Lemma quiet_bind {A B} (e : M A) (k : A -> M B) : quiet e -> (forall x, quiet (k x)) -> quiet (bindM e k).
Proof.
  intros He Hk a y a' (x & a1 & H1 & H2)%bindM_Some.
  destruct (He _ _ _ H1) as [<- <-]. by eapply Hk.
Qed.

Lemma quiet_gets {A} (f : Adapter -> A) : quiet (gets f).
Proof. by intros a y a' [= <- <-]. Qed.

Lemma quiet_modify f : (forall a, eventSeq (f a) = eventSeq a) -> (forall a, eventPrefix (f a) = eventPrefix a) -> quiet (modify_ f).
Proof. intros H1 H2 a y a' [= <- <-]. by rewrite H1, H2. Qed.

#[local] Hint Resolve quiet_ret quiet_bind quiet_gets : quiet.
#[local] Hint Extern 5 (quiet (modify_ _)) => apply quiet_modify; reflexivity : quiet.
#[local] Hint Extern 5 (quiet (match ?x with _ => _ end)) => destruct x : quiet.

Section adapter_props.
Context (rand : nat -> nat -> Z).

Lemma quiet_newID p : quiet (newID rand p).
Proof. by intros a y a' [= <- <-]. Qed.
#[local] Hint Resolve quiet_newID : quiet.

Lemma quiet_item ref : quiet (item rand ref).
Proof. unfold item, put_item. eauto 10 with quiet. Qed.
#[local] Hint Resolve quiet_item : quiet.

Lemma quiet_itemFor it : quiet (itemFor rand it).
Proof. unfold itemFor, put_item. eauto 10 with quiet. Qed.
#[local] Hint Resolve quiet_itemFor : quiet.

Lemma quiet_optID ref : quiet (optID rand ref).
Proof. unfold optID. eauto 10 with quiet. Qed.
#[local] Hint Resolve quiet_optID : quiet.

Lemma quiet_update ref f : quiet (update_item ref f).
Proof. unfold update_item. eauto with quiet. Qed.
#[local] Hint Resolve quiet_update : quiet.

Lemma quiet_itemBody st it : quiet (itemBody rand st it).
Proof.
  unfold itemBody. destruct (_ && _); [|eauto with quiet].
  apply quiet_bind; [eauto with quiet|]. intros o. apply quiet_bind; [destruct o; eauto 10 with quiet|].
  intros w. apply quiet_bind; [destruct (bool_decide _); eauto with quiet|]. eauto 10 with quiet.
Qed.
#[local] Hint Resolve quiet_itemBody : quiet.

Lemma quiet_resp r : quiet (resp r).
Proof. intros a y a'. unfold resp. destruct (resps a !! r); [|done]. by intros [= <- <-]. Qed.
#[local] Hint Resolve quiet_resp : quiet.

Lemma quiet_put_resp r rs : quiet (put_resp r rs).
Proof. unfold put_resp. eauto with quiet. Qed.
#[local] Hint Resolve quiet_put_resp : quiet.

Lemma quiet_resp_index r i : quiet (resp_index r i).
Proof. unfold resp_index. apply quiet_bind; [eauto with quiet|]. intros rs. destruct (index i rs). eauto with quiet. Qed.
#[local] Hint Resolve quiet_resp_index : quiet.

Lemma quiet_mapM {A B} (f : A -> M B) l : (forall x, quiet (f x)) -> quiet (mapM_ f l).
Proof. intros Hf. induction l; simpl; eauto 10 with quiet. Qed.

Lemma quiet_responseObject rs s d o u : quiet (responseObject rs s d o u).
Proof. unfold responseObject. eauto with quiet. Qed.
#[local] Hint Resolve quiet_responseObject quiet_mapM : quiet.

(** ** Numbered operations *)

Lemma numbered_bind {A} (e : M A) (k : A -> M (list frame)) :
  quiet e -> (forall x, numbered (k x)) -> numbered (bindM e k).
Proof.
  intros He Hk a fs a' (x & a1 & H1 & H2)%bindM_Some. destruct (He _ _ _ H1) as [E1 E2].
  destruct (Hk x _ _ _ H2) as (Hf & Hs & Hp). by rewrite Hf, Hs, Hp, E1, E2.
Qed.

Lemma numbered_nil : numbered (ret []).
Proof. by intros a fs a' [= <- <-]. Qed.

(** A frame, then what comes after it. *)
Lemma numbered_cons typ p (k : frame -> M (list frame)) (g : frame -> M (list frame)) :
  quiet p -> (forall f, numbered (g f)) ->
  (forall f a, k f a = (let! fs := g f in ret (f :: fs)) a) ->
  numbered (bindM (frame_ typ p) k).
Proof.
  intros Hp Hg Hk a fs a' (f & a1 & H1 & H2)%bindM_Some. rewrite Hk in H2.
  apply bindM_Some in H2 as (fs' & a2 & H2 & [= <- <-]).
  unfold frame_ in H1. apply bindM_Some in H1 as (b & a3 & [= <- <-] & H1).
  apply bindM_Some in H1 as (x & a4 & H1 & [= <- <-]). destruct (Hp _ _ _ H1) as [E1 E2]. simpl in E1, E2.
  destruct (Hg _ _ _ _ H2) as (Hf & Hs & Hpre). simpl. rewrite Hf, Hs, Hpre, E1, E2. done.
Qed.

Lemma numbered_frame1 typ p (k : frame -> M (list frame)) :
  quiet p -> (forall f a, k f a = Some ([f], a)) -> numbered (bindM (frame_ typ p) k).
Proof. intros Hp Hk. apply (numbered_cons _ _ _ (fun _ => ret [])); [done|intros _; apply numbered_nil|]. done. Qed.

Lemma numbered_one typ p : quiet p -> numbered (one typ p).
Proof. intros Hp. by apply numbered_frame1. Qed.

Lemma numbered_frames2 t1 p1 t2 p2 : quiet p1 -> quiet p2 ->
  numbered (let! f1 := frame_ t1 p1 in let! f2 := frame_ t2 p2 in ret [f1; f2]).
Proof.
  intros H1 H2. apply (numbered_cons _ _ _ (fun _ => one t2 p2)); [done|intros _; by apply numbered_one|].
  intros f a. unfold one, bindM. by destruct (frame_ t2 p2 a) as [[? ?]|].
Qed.

Lemma numbered_frames3 t1 p1 t2 p2 t3 p3 : quiet p1 -> quiet p2 -> quiet p3 ->
  numbered (let! f1 := frame_ t1 p1 in let! f2 := frame_ t2 p2 in let! f3 := frame_ t3 p3 in ret [f1; f2; f3]).
Proof.
  intros H1 H2 H3.
  apply (numbered_cons _ _ _ (fun _ => let! f2 := frame_ t2 p2 in let! f3 := frame_ t3 p3 in ret [f2; f3]));
    [done|intros _; by apply numbered_frames2|].
  intros f a. unfold bindM. destruct (frame_ t2 p2 a) as [[f2 a2]|]; [|done]. by destruct (frame_ t3 p3 a2) as [[? ?]|].
Qed.

Lemma numbered_errorFrame t c p e : numbered (let! f := errorFrame t c p e in ret [f]).
Proof.
  intros a fs a' H. apply bindM_Some in H as (f & a1 & H & [= <- <-]).
  apply bindM_Some in H as (b & a2 & [= <- <-] & [= <- <-]). done.
Qed.

#[local] Hint Resolve numbered_bind numbered_nil numbered_one numbered_frames2 numbered_frames3 numbered_errorFrame : quiet.

Lemma numbered_Outbound ev : numbered (Outbound rand ev).
Proof.
  destruct ev; cbn [Outbound]; unfold delta_, done_frame, outputItemAdded, outputItemDone, toolArguments,
    responseCreated, responseDone;
    repeat first [ progress eauto 6 with quiet
                 | apply numbered_bind; [eauto 6 with quiet|intros ?]
                 | match goal with |- numbered (if ?b then _ else _) => destruct b end
                 | match goal with |- numbered (let (_, _) := ?p in _) => destruct p end
                 | apply numbered_one | apply numbered_frames3 | apply numbered_frames2 ].
Qed.

Lemma numbered_Hello : numbered Hello.
Proof. intros a fs a' [= <- <-]. done. Qed.

Lemma numbered_Inbound msg : numbered (let! r := Inbound msg in ret r.1).
Proof.
  intros a fs a' H. apply bindM_Some in H as ([fs1 p] & a1 & H & [= <- <-]). unfold Inbound in H.
  assert (Hr : forall id e a0 a2 fs2, eventSeq a0 = eventSeq a -> eventPrefix a0 = eventPrefix a ->
    (let! fs := reject id e in ret (fs, @None posted)) a0 = Some (fs2, p, a2) ->
    map frame_id fs2 = map (event_name (eventPrefix a)) (numbers (eventSeq a) (length fs2)) /\
    eventSeq a2 = after (eventSeq a) (length fs2) /\ eventPrefix a2 = eventPrefix a).
  { intros id e a0 a2 fs2 <- <- (fs3 & a3 & H3 & [= <- _ <-])%bindM_Some. by eapply numbered_errorFrame. }
  destruct (decodeEnvelope msg) as [env [u|e]]; [|by eapply Hr].
  assert (Hd : eventSeq (dispatch env a).2 = eventSeq a /\ eventPrefix (dispatch env a).2 = eventPrefix a).
  { unfold dispatch. destruct (String.eqb _ "session.update"); [|done].
    destruct (decodeSessionUpdate env) as [u'|]; [|done]. by destruct (su_model u'). }
  destruct (dispatch env a) as [[x|e] a2]; simpl in Hd.
  - injection H as <- <- <-. done.
  - eapply Hr; [apply Hd..|exact H].
Qed.

(** The adapter's calls; each runs under the mutex, so a connection is a
    sequence of them. *)
Inductive call := CallHello | CallReject | CallIn (msg : option json) | CallOut (ev : Event).

Definition serve1 (c : call) : M (list frame) :=
  match c with
  | CallHello => Hello
  | CallReject => Reject
  | CallIn msg => let! r := Inbound msg in ret r.1
  | CallOut ev => Outbound rand ev
  end.

Definition serve (cs : list call) : M (list frame) := let! fss := mapM_ serve1 cs in ret (concat fss).

Lemma numbered_serve1 c : numbered (serve1 c).
Proof.
  destruct c; [apply numbered_Hello|apply numbered_errorFrame|apply numbered_Inbound|apply numbered_Outbound].
Qed.

Lemma numbered_serve cs : numbered (serve cs).
Proof.
  unfold serve. induction cs as [|c cs IH]; [by intros a fs a' [= <- <-]|].
  intros a fs a' H. apply bindM_Some in H as (fss & a1 & H & [= <- <-]). cbn [mapM_] in H.
  apply bindM_Some in H as (fs1 & a2 & H1 & H). apply bindM_Some in H as (fss2 & a3 & H2 & [= <- <-]).
  destruct (numbered_serve1 _ _ _ _ H1) as (Hf1 & Hs1 & Hp1).
  destruct (IH a2 (concat fss2) a3) as (Hf2 & Hs2 & Hp2); [unfold bindM at 1; by rewrite H2|].
  cbn [concat]. rewrite map_app, length_app, numbers_add, map_app, after_add, Hf1, Hf2, Hs2, Hs1, Hp2, Hp1. done.
Qed.
End adapter_props.

(** Far from the counter's wrap the numbers are consecutive. *)
Lemma numbers_seq n k : 0 <= n -> n + Z.of_nat k < 2 ^ 64 ->
  numbers n k = map (fun i => n + Z.of_nat i) (List.seq 1 k).
Proof.
  revert n. induction k as [|k IH]; intros n Hn Hk; [done|]. cbn [numbers].
  assert (Hx : nxt n = n + 1) by (unfold nxt; rewrite Z.mod_small; lia). rewrite Hx, IH by lia.
  cbn [List.seq map]. rewrite <- (List.seq_shift k 1), map_map. f_equal. apply map_ext. intros i. lia.
Qed.

Lemma digits_zeros k s n : digits (String.string_of_list_ascii (repeat (ascii_of_nat 48) k) ++ s) 0 n =
  digits s 0 (n + Z.of_nat k).
Proof.
  revert n. induction k as [|k IH]; intros n; [simpl; by rewrite Z.add_0_r|].
  change (digits (String (ascii_of_nat 48) (String.string_of_list_ascii (repeat (ascii_of_nat 48) k) ++ s)) 0 n =
    digits s 0 (n + Z.of_nat (S k))).
  cbn [digits]. replace (digit (ascii_of_nat 48)) with (Some 0) by reflexivity. change (0 * 10 + 0) with 0.
  rewrite IH. f_equal. lia.
Qed.

Lemma pad6_inj n1 n2 : 0 <= n1 -> 0 <= n2 -> pad6 n1 = pad6 n2 -> n1 = n2.
Proof.
  intros H1 H2 He. apply (f_equal (fun s => (digits s 0 0).1.1)) in He. unfold pad6 in He.
  rewrite !digits_zeros in He.
  destruct (digits_Itoa n1 0 (0 + Z.of_nat (6 - String.length (Itoa n1))) H1) as (l1 & _ & E1).
  destruct (digits_Itoa n2 0 (0 + Z.of_nat (6 - String.length (Itoa n2))) H2) as (l2 & _ & E2).
  rewrite E1, E2 in He. simpl in He. lia.
Qed.

Lemma append_inj_l (p s1 s2 : string) : p ++ s1 = p ++ s2 -> s1 = s2.
Proof. induction p; simpl; [done|]. intros [= ?]. auto. Qed.

Lemma event_name_inj p n1 n2 : 0 <= n1 -> 0 <= n2 -> event_name p n1 = event_name p n2 -> n1 = n2.
Proof. intros H1 H2 He. unfold event_name in He. do 2 apply append_inj_l in He. by apply pad6_inj. Qed.

(** Event ids are assigned in emission order: over any sequence of
    calls of the adapter (greeting, rejected frames, client frames, session
    events, in the order the mutex admits them), the ids of all frames sent
    are the connection's prefix followed by consecutive numbers, one per
    frame, and no two frames of a connection share an id (up to the wrap of
    the 64-bit counter). *)
Theorem event_ids_sequential rand cs a fs a' : serve rand cs a = Some (fs, a') ->
  0 <= eventSeq a -> eventSeq a + zlen fs < 2 ^ 64 ->
  map frame_id fs = map (fun i => event_name (eventPrefix a) (eventSeq a + Z.of_nat i)) (List.seq 1 (length fs)) /\
  NoDup (map frame_id fs).
Proof.
  intros H Hn Hb. destruct (numbered_serve rand cs a fs a' H) as (Hf & _ & _).
  rewrite numbers_seq, map_map in Hf by (unfold zlen in Hb; lia). split; [done|]. rewrite Hf.
  apply NoDup_ListNoDup, Injective_map_NoDup; [|apply List.seq_NoDup].
  intros i j Hij. apply event_name_inj in Hij; lia.
Qed.

(** ** The responses the projection needs *)

(** The adapter's table of responses holds exactly [known]; entries are never
    taken out. *)
Definition has_resps (known : gset ResponseRef) (a : Adapter) : Prop := dom (resps a) = known.

(** [m] never panics where the known responses are [known], and learns none. *)
Definition safe {A} (known : gset ResponseRef) (m : M A) : Prop := forall a,
  has_resps known a -> exists x a', m a = Some (x, a') /\ has_resps known a'.

Create HintDb safe.

Lemma safe_ret {A} o (x : A) : safe o (ret x).
Proof. intros a H. by exists x, a. Qed.

Lemma safe_bind {A B} o (e : M A) (k : A -> M B) : safe o e -> (forall x, safe o (k x)) -> safe o (bindM e k).
Proof.
  intros He Hk a H. destruct (He a H) as (x & a1 & H1 & Ha). destruct (Hk x a1 Ha) as (y & a2 & H2 & Ha2).
  exists y, a2. unfold bindM. by rewrite H1.
Qed.

Lemma safe_gets {A} o (f : Adapter -> A) : safe o (gets f).
Proof. intros a H. by exists (f a), a. Qed.

Lemma safe_modify o f : (forall a, resps (f a) = resps a) -> safe o (modify_ f).
Proof. intros Hf a H. exists tt, (f a). split; [done|]. unfold has_resps. by rewrite Hf. Qed.

Lemma safe_base o t : safe o (base_ t).
Proof. intros a H. by eexists _, _. Qed.

Lemma safe_newID rand o p : safe o (newID rand p).
Proof. intros a H. by eexists _, _. Qed.

Lemma resp_None r known a : has_resps known a -> r ∉ known -> resp r a = None.
Proof. intros H Hr. unfold resp. by rewrite (not_elem_of_dom_1 (resps a) r) by (by rewrite H). Qed.

Lemma safe_resp r o : r ∈ o -> safe o (resp r).
Proof.
  intros Hr a H. unfold has_resps in H. rewrite <- H in Hr. apply elem_of_dom in Hr as [rs Hr].
  exists rs, a. unfold resp. by rewrite Hr.
Qed.

Lemma safe_put_resp o r rs : r ∈ o -> safe o (put_resp r rs).
Proof.
  intros Hr a H. eexists _, _. split; [reflexivity|]. unfold has_resps in *. simpl. rewrite dom_insert_L, H. set_solver.
Qed.

Lemma safe_mapM {A B} o (f : A -> M B) l : (forall x, safe o (f x)) -> safe o (mapM_ f l).
Proof. intros Hf. induction l; simpl; eauto 10 using @safe_ret, @safe_bind. Qed.

#[local] Hint Resolve safe_ret safe_bind safe_gets safe_base safe_newID safe_resp safe_put_resp safe_mapM : safe.
#[local] Hint Extern 5 (safe _ (modify_ _)) => apply safe_modify; reflexivity : safe.

(** Apply the rules of [safe] down to the primitives. *)
Ltac safely :=
  repeat first
    [ progress eauto 3 with safe
    | apply safe_bind; [|intros ?]
    | match goal with
      | |- safe _ (if ?b then _ else _) => destruct b
      | |- safe _ (match ?x with _ => _ end) => destruct x
      | |- safe _ (let (_, _) := ?p in _) => destruct p
      end ].

(** The response an event belongs to, if it was announced before. *)
Definition names (ev : Event) : option ResponseRef :=
  match ev with
  | EvOutputItemAdded r _ _ | EvToolCallArguments r _ _ | EvOutputTextDelta r _ _ _
  | EvOutputAudioTranscriptDelta r _ _ _ | EvOutputAudioDelta r _ _ _ | EvOutputTextDone r _ _
  | EvOutputAudioTranscriptDone r _ _ | EvOutputAudioDone r _ | EvOutputItemDone r _
  | EvResponseDone r _ _ _ _ _ _ => Some r
  | _ => None
  end.

(** The response an event announces. *)
Definition creates (ev : Event) : option ResponseRef :=
  match ev with EvResponseCreated r _ _ _ _ => Some r | _ => None end.

Definition learn (ev : Event) (known : gset ResponseRef) : gset ResponseRef :=
  match creates ev with Some r => {[r]} ∪ known | None => known end.

Definition knows (known : gset ResponseRef) (ev : Event) : bool :=
  match names ev with Some r => bool_decide (r ∈ known) | None => true end.

(** Every event of a response comes after the one that announces it. *)
Fixpoint announced (known : gset ResponseRef) (evs : list Event) : bool :=
  match evs with
  | [] => true
  | ev :: evs => knows known ev && announced (learn ev known) evs
  end.

Lemma announced_app evs1 evs2 : forall known,
  announced known (evs1 ++ evs2) = announced known evs1 && announced (fold_left (fun k ev => learn ev k) evs1 known) evs2.
Proof. induction evs1 as [|ev evs1 IH]; intros known; [done|]. simpl. by rewrite IH, andb_assoc. Qed.

Lemma known_after evs r : forall known,
  r ∈ fold_left (fun k ev => learn ev k) evs known <-> r ∈ known \/ Exists (fun ev => creates ev = Some r) evs.
Proof.
  induction evs as [|ev evs IH]; intros known; simpl; [rewrite Exists_nil; tauto|].
  rewrite IH, Exists_cons. unfold learn. destruct (creates ev) as [r'|]; [|naive_solver].
  rewrite elem_of_union, elem_of_singleton. naive_solver.
Qed.

(** An event of a response that was not announced: [creates] of none before. *)
Definition orphan (evs : list Event) : Prop :=
  exists pre ev post r, evs = (pre ++ ev :: post)%list /\ names ev = Some r /\ Forall (fun ev => creates ev <> Some r) pre.

Lemma announced_false evs : announced ∅ evs = false <-> orphan evs.
Proof.
  split.
  - induction evs as [|ev evs IH] using rev_ind; [done|]. rewrite announced_app. simpl. rewrite andb_true_r.
    intros [H|H]%andb_false_iff.
    + destruct (IH H) as (pre & ev' & post & r & -> & Hn & Hf). exists pre, ev', (post ++ [ev])%list, r.
      by rewrite <- app_assoc.
    + unfold knows in H. destruct (names ev) as [r|] eqn:Hn; [|done]. apply bool_decide_eq_false in H.
      exists evs, ev, [], r. split; [done|]. split; [done|]. apply Forall_forall. intros e He Hc. apply H, known_after.
      right. apply Exists_exists. by exists e.
  - intros (pre & ev & post & r & -> & Hn & Hf). rewrite announced_app. apply andb_false_iff. right. simpl.
    apply andb_false_iff. left. unfold knows. rewrite Hn. apply bool_decide_eq_false. intros [?|He]%known_after; [set_solver|].
    apply Exists_exists in He as (e & He & Hc). rewrite Forall_forall in Hf. by apply (Hf e).
Qed.

Section projection.
Context (rand : nat -> nat -> Z).

Lemma safe_item o ref : safe o (item rand ref).
Proof. unfold item, put_item. safely. Qed.
#[local] Hint Resolve safe_item : safe.

Lemma safe_itemFor o it : safe o (itemFor rand it).
Proof. unfold itemFor, put_item. safely. Qed.

Lemma safe_optID o ref : safe o (optID rand ref).
Proof. unfold optID. safely. Qed.

Lemma safe_itemBody o st it : safe o (itemBody rand st it).
Proof. unfold itemBody, update_item. safely. Qed.

Lemma safe_resp_index r i o : r ∈ o -> safe o (resp_index r i).
Proof. intros Hr. unfold resp_index. safely. Qed.
#[local] Hint Resolve safe_itemFor safe_optID safe_itemBody safe_resp_index : safe.

Lemma safe_Outbound ev known : creates ev = None -> knows known ev = true -> safe known (Outbound rand ev).
Proof.
  intros Hc Hk. unfold knows in Hk. destruct (names ev) as [r|] eqn:Hn.
  - apply bool_decide_eq_true in Hk. destruct ev; try done; injection Hn as ->; cbn [Outbound];
      unfold delta_, done_frame, one, frame_, outputItemAdded, outputItemDone, toolArguments, responseDone,
        responseObject, update_item; safely.
  - destruct ev; try done; cbn [Outbound]; unfold errorFrame, one, frame_, update_item; safely.
Qed.

Lemma responseCreated_total r modal v mt md known a : has_resps known a ->
  exists fs a', Outbound rand (EvResponseCreated r modal v mt md) a = Some (fs, a') /\ has_resps ({[r]} ∪ known) a'.
Proof.
  intros Ha. cbn [Outbound]. unfold responseCreated, responseObject, one, frame_, newID, put_resp, modify_, gets, base_, ret, bindM.
  cbv beta iota zeta. eexists _, _. split; [reflexivity|]. unfold has_resps in *. simpl. by rewrite dom_insert_L, Ha.
Qed.

Lemma Outbound_total ev known a : has_resps known a -> knows known ev = true ->
  exists fs a', Outbound rand ev a = Some (fs, a') /\ has_resps (learn ev known) a'.
Proof.
  intros Ha Hk. unfold learn. destruct (creates ev) as [r|] eqn:Hc.
  - destruct ev; try done. injection Hc as ->. by apply responseCreated_total.
  - by apply (safe_Outbound ev known Hc Hk).
Qed.

(** An event of an unknown response dereferences nil. *)
Lemma Outbound_panics ev known a : has_resps known a -> knows known ev = false -> Outbound rand ev a = None.
Proof.
  intros Ha Hk. unfold knows in Hk. destruct (names ev) as [r|] eqn:Hn; [|done]. apply bool_decide_eq_false in Hk.
  pose proof (resp_None r known a Ha Hk) as H0.
  assert (H1 : forall t, exists b a1, base_ t a = Some (b, a1) /\ resp r a1 = None).
  { intros t. eexists _, _. split; [reflexivity|]. by apply (resp_None r known). }
  destruct ev; try done; injection Hn as ->; cbn [Outbound];
    unfold delta_, done_frame, one, frame_, outputItemAdded, outputItemDone, toolArguments, responseDone, bindM;
    try (by rewrite H0);
    match goal with |- context [base_ ?t _] => destruct (H1 t) as (b & a1 & -> & ->) end; done.
Qed.
End projection.

(** ** Client frames *)

(** The tables [Outbound] writes, unchanged. *)
Definition same_tables (a a' : Adapter) : Prop :=
  items a' = items a /\ itemByID a' = itemByID a /\ callByID a' = callByID a /\ callWire a' = callWire a /\
  resps a' = resps a /\ respByID a' = respByID a /\ draws a' = draws a.

(** What may be posted for an envelope: the command carries the event's id,
    and every ref in it was resolved in the tables from an id the client named;
    a client item id is not in use, and integers fit 64 bits. *)
Definition posted_ok (env : envelope) (a : Adapter) (p : posted) : Prop :=
  match p with
  | PostPCM pcm => Forall (fun b => 0 <= b < 256) pcm /\ Z.rem (zlen pcm) BytesPerSample = 0
  | PostCmd cmd =>
      CommandTag cmd = eventID env /\
      match cmd with
      | CmdDeleteItem _ ref => exists id, itemByID a !! id = Some ref
      | CmdTruncateItem _ ref ci ms => (exists id, itemByID a !! id = Some ref) /\ in_i64 ci /\ in_i64 ms
      | CmdCreateItem _ spec prev atRoot =>
          (Spec_ClientID spec <> EmptyString -> itemByID a !! Spec_ClientID spec = None) /\
          (prev = 0 \/ exists id, itemByID a !! id = Some prev) /\
          (Spec_CallItem spec = 0 \/ exists call, callByID a !! call = Some (Spec_CallItem spec))
      | CmdCancelResponse _ r => r = 0 \/ exists id, respByID a !! id = Some r
      | CmdClose _ _ => False
      | _ => True
      end
  end.

Lemma dispatch_tables env a : same_tables a (dispatch env a).2.
Proof.
  unfold dispatch. destruct (String.eqb _ "session.update"); [|by repeat split].
  destruct (decodeSessionUpdate env) as [u|]; [|by repeat split]. by destruct (su_model u).
Qed.

Lemma coded_lookupItem id a : coded (lookupItem id a).
Proof. unfold lookupItem. decoder. Qed.
#[local] Hint Resolve coded_lookupItem : coded.

Lemma coded_resolveCreate tag ic a : coded (resolveCreate tag ic a).
Proof. unfold resolveCreate. cbv zeta. decoder. Qed.
#[local] Hint Resolve coded_resolveCreate : coded.

Lemma coded_dispatch env a : coded (dispatch env a).1.
Proof.
  unfold dispatch. destruct (String.eqb _ "session.update").
  - pose proof (coded_sessionUpdate env). by destruct (decodeSessionUpdate env).
  - cbn [fst]. decoder.
Qed.

Lemma lookupItem_Ok id a ref : lookupItem id a = Ok ref -> exists id, itemByID a !! id = Some ref.
Proof. unfold lookupItem. destruct (itemByID a !! id) eqn:E; [|done]. intros [= <-]. by exists id. Qed.

Lemma resolveCreate_Ok tag ic a p env : tag = eventID env -> resolveCreate tag ic a = Ok p -> posted_ok env a p.
Proof.
  intros Ht. unfold resolveCreate. cbv zeta. intros H. peel H. injection H as <-. cbn. split; [done|]. split; [|split].
  - intros Hne. destruct a1. apply fail_if_Ok in H1; [|by eexists]. apply andb_false_iff in H1 as [H1|H1].
    + by apply negb_false_iff, String.eqb_eq in H1.
    + by destruct (itemByID a !! _).
  - destruct (negb (ic_hasPrev ic)); [injection H2 as <-; by left|].
    destruct (String.eqb _ "root"); [injection H2 as <-; by left|].
    destruct (itemByID a !! ic_previous ic) eqn:E; [|done]. injection H2 as <-. right. by eexists.
  - destruct (String.eqb _ _); [injection H0 as <-; by left|].
    destruct (callByID a !! ic_callID ic) eqn:E; [|done]. injection H0 as <-. right. by eexists.
Qed.

Lemma decodeItemTruncate_Ok env tr : decodeItemTruncate env = Ok tr ->
  in_i64 (it_contentIndex tr) /\ in_i64 (it_audioEndMs tr).
Proof.
  unfold decodeItemTruncate. intros H. peel H. injection H as <-.
  apply require_Ok in H4 as ->. apply require_Ok in H6 as ->. simpl. split; by eapply integer_range.
Qed.

Lemma decodeAudioAppend_Ok env p : decodeAudioAppend env = Ok p ->
  Forall (fun b => 0 <= b < 256) p /\ Z.rem (zlen p) BytesPerSample = 0.
Proof.
  unfold decodeAudioAppend. intros H. peel H. destruct (DecodeString a1) as [q|] eqn:Hd; [|done].
  destruct (negb _) eqn:Hr; [done|]. injection H as ->. split; [by eapply b64_quanta_bytes|].
  by apply negb_false_iff, Z.eqb_eq in Hr.
Qed.

Lemma dispatch_Ok env a p : (dispatch env a).1 = Ok p -> posted_ok env a p.
Proof.
  unfold dispatch. destruct (String.eqb _ "session.update").
  { destruct (decodeSessionUpdate env); [|done]. by intros [= <-]. }
  cbn [fst].
  repeat match goal with |- (if String.eqb _ ?t then _ else _) = _ -> _ => destruct (String.eqb (typ env) t) end;
    try (intros H; peel H; injection H as <-; done); intros H; peel H.
  - injection H as <-. by eapply decodeAudioAppend_Ok.
  - by eapply resolveCreate_Ok.
  - injection H as <-. split; [done|]. by eapply lookupItem_Ok.
  - injection H as <-. split; [done|]. split; [by eapply lookupItem_Ok|]. by eapply decodeItemTruncate_Ok.
  - done.
  - destruct (String.eqb a0 EmptyString); [injection H as <-; split; [done|by left]|].
    destruct (respByID a !! a0) eqn:E; [|done]. injection H as <-. split; [done|]. right. by eexists.
  - by destruct (_ || _).
Qed.

(** What a client frame leads to. *)
Definition answered (msg : option json) (a : Adapter) (r : list frame * option posted) : Prop :=
  let env := (decodeEnvelope msg).1 in
  (exists p, r = ([], Some p) /\ posted_ok env a p) \/
  (exists b e, r = ([(b, errorEvent e)], None) /\ Type_ b = "error" /\ er_Type e = typeInvalidReq /\
     (er_Code e = codeInvalidEvent \/ er_Code e = codeInvalidValue) /\ er_EventID e = some_if (eventID env)).

Lemma reject_answers id e a : coded (@Err unit e) -> exists b w a',
  (let! fs := reject id e in ret (fs, @None posted)) a = Some ([(b, errorEvent w)], None, a') /\ same_tables a a' /\
  Type_ b = "error" /\ er_Type w = typeInvalidReq /\
  (er_Code w = codeInvalidEvent \/ er_Code w = codeInvalidValue) /\ er_EventID w = some_if id.
Proof. intros He. eexists _, _, _. by split. Qed.

Lemma Inbound_spec msg a : exists r a', Inbound msg a = Some (r, a') /\ same_tables a a' /\ answered msg a r.
Proof.
  unfold Inbound, answered. pose proof (coded_envelope msg) as Hc. destruct (decodeEnvelope msg) as [env [u|e]].
  - pose proof (dispatch_tables env a) as Ht. pose proof (coded_dispatch env a) as Hd.
    pose proof (dispatch_Ok env a) as Hp. destruct (dispatch env a) as [[p|e] a1]; simpl in *.
    + eexists _, _. split; [reflexivity|]. split; [done|]. left. exists p. split; [done|]. by apply Hp.
    + destruct (reject_answers (eventID env) e a1 Hd) as (b & w & a2 & -> & Ht2 & Hw).
      eexists _, _. split; [reflexivity|]. split; [|right; by exists b, w].
      unfold same_tables in *. intuition congruence.
  - destruct (reject_answers (eventID env) e a Hc) as (b & w & a2 & -> & Ht2 & Hw).
    eexists _, _. split; [reflexivity|]. split; [done|]. right. by exists b, w.
Qed.

(** C14. Every client frame is answered exactly once and nothing panics: an
    accepted frame posts one command (or one audio chunk) and sends nothing,
    a rejected one sends exactly one error, of type invalid_request_error with
    code invalid_event or invalid_value, echoing the client's event id, and
    posts nothing. The id tables are never changed by a client frame. A
    posted command carries the client's event id, names only items, calls and
    responses whose ids the client was told, and its integers fit 64 bits; a
    posted chunk holds whole samples. *)
Theorem inbound_answers_once msg a : exists r a',
  Inbound msg a = Some (r, a') /\ same_tables a a' /\ answered msg a r.
Proof. apply Inbound_spec. Qed.

(** ** The projection of a session *)

Lemma safe_serve_quiet o c : (forall ev, c <> CallOut ev) -> forall rand, safe o (serve1 rand c).
Proof.
  intros Hc rand a Ha. destruct c as [| |msg|ev]; simpl.
  - by eexists _, _.
  - by eexists _, _.
  - destruct (Inbound_spec msg a) as (r & a' & H & Ht & _). eexists _, _. unfold bindM. rewrite H.
    split; [reflexivity|]. unfold has_resps in *. destruct Ht as (_ & _ & _ & _ & -> & _). done.
  - by destruct (Hc ev).
Qed.

(** The session events among the calls. *)
Definition out_of (c : call) : list Event := match c with CallOut ev => [ev] | _ => [] end.
Definition outs (cs : list call) : list Event := cs ≫= out_of.

Lemma serve1_exact rand c known a : has_resps known a ->
  if announced known (out_of c)
  then exists fs a', serve1 rand c a = Some (fs, a') /\ has_resps (fold_left (fun k ev => learn ev k) (out_of c) known) a'
  else serve1 rand c a = None.
Proof.
  intros Ha. assert (Hq : (forall ev, c <> CallOut ev) -> exists fs a', serve1 rand c a = Some (fs, a') /\ has_resps known a')
    by (intros Hc; by apply (safe_serve_quiet known c Hc rand)).
  destruct c as [| |msg|ev]; [by apply Hq..|]. simpl. rewrite andb_true_r.
  destruct (knows known ev) eqn:Hk; [by apply Outbound_total|by eapply Outbound_panics].
Qed.

Lemma serve_cons rand c cs a : serve rand (c :: cs) a =
  match serve1 rand c a with
  | Some (fs, a1) => match serve rand cs a1 with Some (fs', a2) => Some ((fs ++ fs')%list, a2) | None => None end
  | None => None
  end.
Proof.
  unfold serve. cbn [mapM_]. unfold bindM. destruct (serve1 rand c a) as [[fs a1]|]; [|done].
  by destruct (mapM_ (serve1 rand) cs a1) as [[fss a2]|].
Qed.

(** Serving a sequence of calls panics exactly where an event belongs to a
    response that was not announced. *)
Lemma serve_exact rand cs : forall known a, has_resps known a ->
  if announced known (outs cs)
  then exists fs a', serve rand cs a = Some (fs, a') /\ has_resps (fold_left (fun k ev => learn ev k) (outs cs) known) a'
  else serve rand cs a = None.
Proof.
  induction cs as [|c cs IH]; intros known a Ha; [by exists [], a|].
  unfold outs. rewrite serve_cons, bind_cons, announced_app, fold_left_app. fold (outs cs).
  pose proof (serve1_exact rand c known a Ha) as H1. destruct (announced known (out_of c)); simpl.
  - destruct H1 as (fs & a1 & -> & Ha1). specialize (IH _ _ Ha1). destruct (announced _ (outs cs)).
    + destruct IH as (fs2 & a2 & -> & Ha2). by exists (fs ++ fs2)%list, a2.
    + by rewrite IH.
  - by rewrite H1.
Qed.

Definition trace_from (ph : phase) (evs : list Event) : option phase :=
  fold_left (fun ph ev => ph ≫= fun p => phase_step p ev) evs (Some ph).

Lemma fold_None evs : fold_left (fun ph ev => ph ≫= fun p => phase_step p ev) evs None = None.
Proof. by induction evs. Qed.

Lemma trace_cons ph ev evs ph' : trace_from ph (ev :: evs) = Some ph' ->
  exists ph1, phase_step ph ev = Some ph1 /\ trace_from ph1 evs = Some ph'.
Proof.
  unfold trace_from. cbn [fold_left]. change (Some ph ≫= fun p => phase_step p ev) with (phase_step ph ev).
  destruct (phase_step ph ev) as [ph1|]; [by exists ph1|by rewrite fold_None].
Qed.

(** The response of a phase, and the last one announced. *)
Definition resp_of (ph : phase) : option ResponseRef :=
  match ph with Open n _ | Closing n => Some n | Idle _ | Ended => None end.

Definition last_ref (ph : phase) : Z := match ph with Idle n | Open n _ | Closing n => n | Ended => 0 end.

Lemma phase_step_names ph ev ph' r : names ev = Some r -> phase_step ph ev = Some ph' -> resp_of ph = Some r.
Proof.
  destruct ev; try done; intros [= ->] Hs; simpl in Hs; destruct ph; try done;
    repeat (case_match; try done); bool_arith; simplify_eq; simpl; auto;
    match goal with H : negb (_ =? _) = false |- _ => apply negb_false_iff, Z.eqb_eq in H; subst; auto end.
Qed.

Lemma phase_step_resp ph ev ph' r : phase_step ph ev = Some ph' -> resp_of ph' = Some r ->
  creates ev = Some r \/ resp_of ph = Some r.
Proof.
  destruct ev, ph; simpl; intros Hs Hr; repeat (case_match; try done); simplify_eq; simpl in *; bool_arith; subst; auto.
Qed.

Lemma phase_step_last ph ev ph' : phase_step ph ev = Some ph' -> ph' <> Ended ->
  last_ref ph' = default (last_ref ph) (creates ev) /\ last_ref ph <= last_ref ph' /\
  (creates ev <> None -> last_ref ph' = last_ref ph + 1).
Proof.
  destruct ev, ph; simpl; intros Hs Hr; repeat (case_match; try done); simplify_eq; simpl in *; bool_arith; subst;
    repeat split; try done; lia.
Qed.

Lemma trace_Ended evs ph' : trace_from Ended evs = Some ph' -> evs = [].
Proof. destruct evs as [|ev evs]; [done|]. intros (ph1 & H & _)%trace_cons. by destruct ev. Qed.

(** Responses are announced in increasing order. *)
Lemma trace_creates evs r : forall ph ph', trace_from ph evs = Some ph' ->
  Exists (fun ev => creates ev = Some r) evs -> last_ref ph < r.
Proof.
  induction evs as [|ev evs IH]; intros ph ph' Ht He; [by apply Exists_nil in He|].
  apply trace_cons in Ht as (ph1 & Hs & Ht). destruct (decide (ph1 = Ended)) as [->|Hne].
  - apply trace_Ended in Ht as ->. apply Exists_cons in He as [He|He]; [|by apply Exists_nil in He].
    by destruct ev, ph; simpl in Hs; repeat case_match.
  - destruct (phase_step_last _ _ _ Hs Hne) as (Hl & Hle & Hc). apply Exists_cons in He as [He|He].
    + rewrite He in Hl. simpl in Hl. assert (last_ref ph1 = last_ref ph + 1) by (apply Hc; by rewrite He). lia.
    + specialize (IH _ _ Ht He). lia.
Qed.

(** Where no announcement is lost, the protocol makes every event known. *)
Lemma announced_sublist evs kept : kept `sublist_of` evs -> forall ph ph' known,
  trace_from ph evs = Some ph' -> (forall r, resp_of ph = Some r -> r ∈ known) ->
  (forall r, Exists (fun ev => creates ev = Some r) evs -> Exists (fun ev => creates ev = Some r) kept) ->
  announced known kept = true.
Proof.
  induction 1 as [|ev kept evs Hsub IH|ev kept evs Hsub IH]; intros ph ph' known Ht Hk Hall; [done|..].
  - apply trace_cons in Ht as (ph1 & Hs & Ht). simpl. apply andb_true_iff. split.
    + unfold knows. destruct (names ev) as [r|] eqn:Hn; [|done]. apply bool_decide_eq_true, Hk. by eapply phase_step_names.
    + apply (IH ph1 ph'); [done|..].
      * intros r [Hc|Hc]%(phase_step_resp _ _ _ _ Hs); unfold learn; [rewrite Hc; set_solver|].
        apply Hk in Hc. destruct (creates ev); set_solver.
      * intros r He. assert (He' := Hall r (proj2 (Exists_cons _ _ _) (or_intror He))). apply Exists_cons in He' as [Hc|?]; [|done].
        pose proof (trace_creates _ _ _ _ Ht He) as Hlt. destruct (decide (ph1 = Ended)) as [->|Hne];
          [apply trace_Ended in Ht as ->; by apply Exists_nil in He|].
        destruct (phase_step_last _ _ _ Hs Hne) as (Hl & _). rewrite Hc in Hl. simpl in Hl. lia.
  - apply trace_cons in Ht as (ph1 & Hs & Ht). assert (Hc : creates ev = None).
    { destruct (creates ev) as [r|] eqn:Hc; [|done]. assert (He := Hall r (proj2 (Exists_cons _ _ _) (or_introl Hc))).
      assert (He' : Exists (fun ev => creates ev = Some r) evs).
      { apply Exists_exists in He as (e & He & Hce). apply Exists_exists. exists e. split; [|done].
        by apply (elem_of_submseteq kept); [|apply sublist_submseteq]. }
      pose proof (trace_creates _ _ _ _ Ht He') as Hlt. destruct (decide (ph1 = Ended)) as [->|Hne];
        [apply trace_Ended in Ht as ->; by apply Exists_nil in He'|].
      destruct (phase_step_last _ _ _ Hs Hne) as (Hl & _). rewrite Hc in Hl. simpl in Hl. lia. }
    apply (IH ph1 ph'); [done|..].
    + intros r [?|Hr]%(phase_step_resp _ _ _ _ Hs); [congruence|by apply Hk].
    + intros r He. apply Hall, Exists_cons. by right.
Qed.

(** What a session emits and what its consumer is given, so far or at its end. *)
Definition delivers {A} `{ASRStream A} (s : session A) (emitted given : list Event) : Prop :=
  (emitted = out s /\ given = sent s) \/
  (closed s <> None /\ emitted = out (cleanup s) /\ given = sent (cleanup s)).

Lemma delivers_spec {A} `{ASRStream A} c lim t (stream : A) s emitted given :
  reachable c lim t stream s -> delivers s emitted given ->
  (exists ph, trace_from (Idle 0) emitted = Some ph) /\ given `sublist_of` emitted.
Proof.
  intros Hr Hd. pose proof (core_reachable _ _ _ _ _ Hr) as Hk. pose proof (grows_reachable _ _ _ _ _ Hr) as Hg.
  destruct Hd as [[-> ->]|(Hc & -> & ->)].
  - split; [eexists; apply Hk|]. exact (proj1 (grows_sent (Session.New c lim t stream) s eq_refl eq_refl Hg)).
  - split; [eexists; exact (proj1 (core_cleanup s Hk))|].
    refine (proj1 (grows_sent (Session.New c lim t stream) _ eq_refl eq_refl _)).
    etransitivity; [exact Hg|by apply grows_cleanup].
Qed.

(** C13. When the wire layer keeps up with the session: let the session emit
    [emitted] and its consumer be given [given], at any point of its life or at its
    end, and let the adapter project any prefix of them, greetings and client
    frames (malformed ones included) interleaved at will. The adapter panics
    exactly where it is given an event of a response without having been given that
    response's response.created before. That never happens while the session lives,
    and after the cancellation it does not unless a response.created was lost. *)
Theorem projection_panics_on_orphans {A} `{ASRStream A} c lim t (stream : A) s emitted given rand sid mo cs :
  reachable c lim t stream s -> delivers s emitted given -> outs cs `prefix_of` given ->
  let served := serve rand cs (Adapter.New rand sid mo c) in
  (served = None <-> orphan (outs cs)) /\
  (closed s = None -> served <> None) /\
  ((forall r, Exists (fun ev => creates ev = Some r) emitted -> Exists (fun ev => creates ev = Some r) given) ->
   served <> None).
Proof.
  intros Hr Hd [rest Hrest]. cbv zeta. destruct (delivers_spec _ _ _ _ _ _ _ Hr Hd) as [[ph Ht] Hsub].
  pose proof (serve_exact rand cs ∅ (Adapter.New rand sid mo c) (dom_empty_L)) as Hs.
  assert (Hno : (forall r, Exists (fun ev => creates ev = Some r) emitted -> Exists (fun ev => creates ev = Some r) given) ->
    serve rand cs (Adapter.New rand sid mo c) <> None).
  { intros Hall. assert (Hann : announced ∅ given = true) by (by eapply announced_sublist).
    rewrite Hrest, announced_app in Hann. apply andb_true_iff in Hann as [Hann _]. rewrite Hann in Hs.
    destruct Hs as (fs & a & -> & _). done. }
  split; [|split; [|exact Hno]].
  - rewrite <- announced_false. destruct (announced ∅ (outs cs)); [destruct Hs as (fs & a & -> & _)|rewrite Hs]; done.
  - intros Hc. apply Hno. intros r He. destruct Hd as [[-> ->]|(Hc' & _)]; [|done].
    rewrite (proj2 (grows_sent (Session.New c lim t stream) s eq_refl eq_refl (grows_reachable _ _ _ _ _ Hr)) Hc). done.
Qed.

(** ** Instances *)

(** A random source that never repeats in a short run: byte 0 counts the
    draws. *)
Definition demo_rand (n j : nat) : Z := match j with O => Z.of_nat n | _ => 0 end.

Definition demo_adapter : Adapter := Adapter.New demo_rand "sess_1" EmptyString demo_cfg.

Definition demo_calls : list call :=
  CallHello :: CallIn None :: map CallOut (sent (demo_state None text_turn)).

Lemma event_ids_sequential_witness : exists fs a',
  serve demo_rand demo_calls demo_adapter = Some (fs, a') /\ 5 < zlen fs /\ NoDup (map frame_id fs).
Proof.
  destruct (serve demo_rand demo_calls demo_adapter) as [[fs a']|] eqn:H.
  - exists fs, a'. assert (Hl : 5 < zlen fs < 100) by (revert H; vm_compute; intros [= <- <-]; vm_compute; by split).
    split; [done|]. split; [lia|].
    assert (Hs : eventSeq demo_adapter = 0) by by vm_compute.
    apply (event_ids_sequential demo_rand demo_calls demo_adapter fs a' H); rewrite Hs; lia.
  - exfalso. revert H. by vm_compute.
Defined.

(** A session that is told to create a response after its context is done,
    and whose emit drops the response.created. *)
Definition lost_reply : session unit :=
  let s := demo_state None (firstn 1 text_turn ++ [IClose CloseClient])%list in
  default s (handle (ICommand (CmdCreateResponse "b" no_overrides)) (set_takes [false] s)).

Lemma lost_reply_reachable : reachable (demo_cfg_with None) demo_limits None tt lost_reply.
Proof.
  unfold lost_reply. cbv zeta. set (s := demo_state None _).
  assert (Hs : reachable (demo_cfg_with None) demo_limits None tt s) by (apply demo_reachable; by vm_compute).
  destruct (handle _ (set_takes [false] s)) as [s'|] eqn:Hh; [|exact Hs].
  by apply (reach_step _ _ _ _ (set_takes [false] s) (ICommand (CmdCreateResponse "b" no_overrides))); [apply reach_takes|done|].
Qed.

Definition lost_calls : list call := CallHello :: map CallOut (sent (cleanup lost_reply)).

Lemma projection_panics_on_orphans_witness :
  serve demo_rand demo_calls (Adapter.New demo_rand "sess_1" EmptyString (demo_cfg_with None)) <> None /\
  serve demo_rand lost_calls (Adapter.New demo_rand "sess_1" EmptyString (demo_cfg_with None)) = None.
Proof.
  split.
  - apply (projection_panics_on_orphans (demo_cfg_with None) demo_limits None tt (demo_state None text_turn)
      (out (demo_state None text_turn)) (sent (demo_state None text_turn)));
      [apply demo_reachable; by vm_compute|by left|exists []; by vm_compute|by vm_compute].
  - apply (projection_panics_on_orphans (demo_cfg_with None) demo_limits None tt lost_reply
      (out (cleanup lost_reply)) (sent (cleanup lost_reply)));
      [exact lost_reply_reachable|right; split; [by vm_compute|done]|exists []; by vm_compute|].
    apply announced_false. by vm_compute.
Defined.

(** A response.created can be lost and its response.done delivered: emit
    chooses at random between the send and the done context. The run is one of
    the actor's, its shutdown gives the consumer only the response's end, and the
    adapter, which looks the response up without a check, panics on it. *)
Theorem lost_created_panics :
  reachable (demo_cfg_with None) demo_limits None tt lost_reply /\
  (exists r modal voice mt md status reason code err usage output,
     out (cleanup lost_reply) = (sent (demo_state None (firstn 1 text_turn)) ++
       [EvResponseCreated r modal voice mt md; EvResponseDone r status reason code err usage output;
        EvSessionClosed CloseClient])%list /\
     sent (cleanup lost_reply) = (sent (demo_state None (firstn 1 text_turn)) ++
       [EvResponseDone r status reason code err usage output; EvSessionClosed CloseClient])%list) /\
  project demo_rand (sent (cleanup lost_reply)) demo_adapter = None.
Proof.
  split; [exact lost_reply_reachable|]. split; [|by vm_compute]. do 11 eexists. vm_compute. split; reflexivity.
Qed.

(** ** More defects *)

(** A member of a rendered frame. *)
Definition frame_field (key : string) (f : frame) : option json :=
  match marshal demo_float f with JObj l => Decode.assoc key l | _ => None end.

Definition typed (t : string) (fs : list frame) : list frame := List.filter (fun f => String.eqb (Type_ f.1) t) fs.

(** A response whose model calls a tool before it says anything. *)
Definition call_first : list input :=
  [ ICommand (CmdCreateItem "a" (user_text "hi") 0 false);
    ICommand (CmdCreateResponse "b" no_overrides);
    IResp (pipeToolCall 1 (MkToolCall "p1" "lookup" "{}"));
    IResp (EvOutputAudioTranscriptDelta 1 0 1 "Hello.") ]%string.

Definition call_first_frames : list frame :=
  match project demo_rand (out (demo_state None call_first)) demo_adapter with
  | Some (fs, _) => fs
  | None => []
  end.

(** The output index of deltas is wrong when a tool call comes first:
    in a reachable session whose model calls a tool before speaking, the
    message item is announced at output_index 1 (the call took 0), but its
    transcript deltas carry output_index 0, which is the call's. *)
Theorem delta_output_index_mismatch :
  is_some (run call_first (demo None)) = true /\
  map (frame_field "output_index") (typed "response.output_item.added" call_first_frames) =
    [Some (JInt 0); Some (JInt 1)] /\
  map (frame_field "output_index") (typed "response.output_audio_transcript.delta" call_first_frames) = [Some (JInt 0)] /\
  map (frame_field "item_id") (typed "response.output_audio_transcript.delta" call_first_frames) =
    map (frame_field "item_id") (typed "response.content_part.added" call_first_frames) /\
  map (frame_field "output_index") (typed "response.content_part.added" call_first_frames) = [Some (JInt 1)].
Proof. vm_compute. repeat split. Qed.

Definition item_frame (id text : string) : json :=
  JObj [("type", JStr "conversation.item.create");
        ("item", JObj [("type", JStr "message"); ("role", JStr "user"); ("id", JStr id);
                       ("content", JArr [JObj [("type", JStr "input_text"); ("text", JStr text)]])])].

Definition delete_frame (id : string) : json :=
  JObj [("type", JStr "conversation.item.delete"); ("item_id", JStr id)].

(** The command a client frame posts at an adapter. *)
Definition command_of (msg : json) (a : Adapter) : option Command :=
  match Inbound (Some msg) a with Some (_, Some (PostCmd cmd), _) => Some cmd | _ => None end.

(** A client item id is not kept unique: the adapter checks it against
    the ids of items the session has already announced, so two creations sent
    back to back both pass. The session then holds two items the client knows
    under one id; deleting that id removes the second one, after which the
    client's id names nothing although the first item is still there. *)
Theorem duplicate_client_id_accepted :
  exists c1 c2 d s s' fs a fs' a',
    command_of (item_frame "m1" "one") demo_adapter = Some c1 /\ command_of (item_frame "m1" "two") demo_adapter = Some c2 /\
    run [ICommand c1; ICommand c2] (demo None) = Some s /\ project demo_rand (out s) demo_adapter = Some (fs, a) /\
    map (frame_field "type") fs = map (fun t => Some (JStr t))
      ["conversation.item.added"; "conversation.item.done"; "conversation.item.added"; "conversation.item.done"] /\
    is_id <$> items a !! 1 = Some "m1" /\ is_id <$> items a !! 2 = Some "m1" /\
    command_of (delete_frame "m1") a = Some d /\ d = CmdDeleteItem EmptyString 2 /\
    run [ICommand d] s = Some s' /\ is_some (Conversation.get (conv s') 1) = true /\
    out s' = (out s ++ [EvItemDeleted 2])%list /\ project demo_rand [EvItemDeleted 2] a = Some (fs', a') /\ command_of (delete_frame "m1") a' = None.
Proof.
  do 9 eexists. repeat (split; [vm_compute; reflexivity|]). by vm_compute.
Qed.
