(* ===== verification/AdapterIds.v ===== *)
(** * Item ids on the wire

    The adapter names items by ids: the client's own, or one drawn from the
    random source on first sight. [ids_ok] says that the table of items and the
    table of ids are inverse of each other; every projected event keeps it as
    long as ids do not collide ([distinct_ids]): the draws made so far differ,
    client ids differ from them, and no two items have one client id. *)

From S2P Require Export AdapterProps.
From Stdlib Require Import QArith Ascii.
From S2P Require Import SessionProps Adapter SessionStep.
#[local] Open Scope string_scope.
#[local] Open Scope Z_scope.

(** The items an event carries. *)
Definition event_items (ev : Event) : list Item :=
  match ev with
  | EvItemAdded it _ | EvItemDone it | EvOutputItemAdded _ it _ | EvOutputItemDone _ it => [it]
  | EvResponseDone _ _ _ _ _ _ l => l
  | _ => []
  end.

Definition items_of (evs : list Event) : list Item := concat (map event_items evs).

Definition item_id (rand : nat -> nat -> Z) (n : nat) : string := "item_" ++ drawn rand n.

(** No collision among the first [k] draws and the client ids of [its]. *)
Record distinct_ids (rand : nat -> nat -> Z) (k : nat) (its : list Item) : Prop := {
  di_draws : forall n m, (n < k)%nat -> (m < k)%nat -> drawn rand n = drawn rand m -> n = m;
  di_client : forall it it', List.In it its -> List.In it' its ->
    ClientID it <> EmptyString -> ClientID it = ClientID it' -> Ref it = Ref it';
  di_separate : forall it n, List.In it its -> (n < k)%nat -> ClientID it <> item_id rand n
}.

Section ids.
Context (rand : nat -> nat -> Z) (k : nat) (its : list Item).
Context (Hdi : distinct_ids rand k its).

(** Where an item's id comes from. *)
Definition source (ref : ItemRef) (id : string) (d : nat) : Prop :=
  (exists n, (n < d)%nat /\ id = item_id rand n) \/
  (exists it, List.In it its /\ Ref it = ref /\ ClientID it = id /\ id <> EmptyString).

Record ids_ok (a : Adapter) : Prop := {
  io_id : forall ref st, items a !! ref = Some st -> itemByID a !! is_id st = Some ref;
  io_ref : forall id ref, itemByID a !! id = Some ref -> exists st, items a !! ref = Some st /\ is_id st = id;
  io_source : forall ref st, items a !! ref = Some st -> source ref (is_id st) (draws a)
}.

Lemma source_mono ref id d d' : (d <= d')%nat -> source ref id d -> source ref id d'.
Proof. intros Hd [(n & Hn & ->)|H]; [left; exists n; split; [lia|done]|by right]. Qed.

(** [m] draws at most [k] times and keeps the tables inverse. *)
Definition keeps {A} (m : M A) : Prop := forall a x a', m a = Some (x, a') ->
  (draws a <= draws a')%nat /\ ((draws a' <= k)%nat -> ids_ok a -> ids_ok a').

Create HintDb keeps.

Lemma keeps_ret {A} (x : A) : keeps (ret x).
Proof. by intros a y a' [= <- <-]. Qed.

Lemma keeps_bind {A B} (e : M A) (f : A -> M B) : keeps e -> (forall x, keeps (f x)) -> keeps (bindM e f).
Proof.
  intros He Hf a y a' (x & a1 & H1 & H2)%bindM_Some. destruct (He _ _ _ H1) as [Hd1 Hi1].
  destruct (Hf _ _ _ _ H2) as [Hd2 Hi2]. split; [lia|]. intros Hk Ha. apply Hi2; [done|]. apply Hi1; [lia|done].
Qed.

Lemma keeps_gets {A} (f : Adapter -> A) : keeps (gets f).
Proof. by intros a y a' [= <- <-]. Qed.

(** An operation that touches neither table. *)
Lemma ids_ok_same a a' : items a' = items a -> itemByID a' = itemByID a -> (draws a <= draws a')%nat -> ids_ok a -> ids_ok a'.
Proof.
  intros Hi Hb Hd [H1 H2 H3]. split; rewrite ?Hi, ?Hb; [done|done|].
  intros ref st Hst. eapply source_mono; [exact Hd|by apply H3].
Qed.

Lemma keeps_modify f : (forall a, items (f a) = items a) -> (forall a, itemByID (f a) = itemByID a) ->
  (forall a, draws (f a) = draws a) -> keeps (modify_ f).
Proof.
  intros H1 H2 H3 a y a' [= <- <-]. rewrite H3. split; [lia|]. intros _. apply ids_ok_same; rewrite ?H3; auto.
Qed.

Lemma keeps_newID p : keeps (newID rand p).
Proof. intros a y a' [= <- <-]. simpl. split; [lia|]. intros _. apply ids_ok_same; simpl; auto. Qed.

Lemma keeps_base t : keeps (base_ t).
Proof. intros a y a' [= <- <-]. split; [done|]. intros _. by apply ids_ok_same. Qed.

Lemma keeps_resp r : keeps (resp r).
Proof. intros a y a'. unfold resp. destruct (resps a !! r); [|done]. by intros [= <- <-]. Qed.

Lemma keeps_update ref f : (forall st, is_id (f st) = is_id st) -> keeps (update_item ref f).
Proof.
  intros Hf a y a' [= <- <-]. simpl. split; [lia|]. intros _ [H1 H2 H3].
  assert (Hlk : forall r st, alter f ref (items a) !! r = Some st -> exists st0, items a !! r = Some st0 /\ is_id st = is_id st0).
  { intros r st H. destruct (decide (r = ref)) as [->|Hne].
    - rewrite lookup_alter_eq in H. apply fmap_Some in H as (st0 & H & ->). by exists st0.
    - rewrite lookup_alter_ne in H by done. by exists st. }
  split; simpl.
  - intros r st (st0 & Hs & ->)%Hlk. by apply H1.
  - intros id r Hid. destruct (H2 _ _ Hid) as (st & Hs & <-). destruct (decide (r = ref)) as [->|Hne].
    + exists (f st). rewrite lookup_alter_eq, Hs. by rewrite Hf.
    + exists st. by rewrite lookup_alter_ne.
  - intros r st (st0 & Hs & ->)%Hlk. by apply H3.
Qed.

#[local] Hint Resolve keeps_ret keeps_bind keeps_gets keeps_newID keeps_base keeps_resp : keeps.
#[local] Hint Extern 5 (keeps (modify_ _)) => apply keeps_modify; reflexivity : keeps.
#[local] Hint Extern 5 (keeps (update_item _ _)) => apply keeps_update; reflexivity : keeps.

(** A new entry under an id not in the table. *)
Lemma ids_ok_put a ref st : ids_ok a -> items a !! ref = None -> itemByID a !! is_id st = None ->
  source ref (is_id st) (draws a) ->
  ids_ok (set_itemByID (<[is_id st := ref]> (itemByID a)) (set_items (<[ref := st]> (items a)) a)).
Proof.
  intros [H1 H2 H3] Hr Hi Hs. split; simpl.
  - intros r st' H. destruct (decide (r = ref)) as [->|Hne].
    + rewrite lookup_insert_eq in H. injection H as <-. by rewrite lookup_insert_eq.
    + rewrite lookup_insert_ne in H by done. pose proof (H1 _ _ H) as Hb.
      rewrite lookup_insert_ne; [done|]. intros E. by rewrite E, Hb in Hi.
  - intros id r H. destruct (decide (id = is_id st)) as [->|Hne].
    + rewrite lookup_insert_eq in H. injection H as <-. exists st. by rewrite lookup_insert_eq.
    + rewrite lookup_insert_ne in H by done. destruct (H2 _ _ H) as (st' & Hs' & <-). exists st'.
      rewrite lookup_insert_ne; [done|]. intros <-. by rewrite Hr in Hs'.
  - intros r st' H. destruct (decide (r = ref)) as [->|Hne].
    + rewrite lookup_insert_eq in H. by injection H as <-.
    + rewrite lookup_insert_ne in H by done. by apply H3.
Qed.

Lemma append_cancel_l (p a b : string) : p ++ a = p ++ b -> a = b.
Proof. apply append_inj_l. Qed.

(** A drawn id is in no table yet; neither is a client id of a new item. *)
Lemma drawn_fresh a : ids_ok a -> (draws a < k)%nat -> itemByID a !! item_id rand (draws a) = None.
Proof.
  intros [H1 H2 H3] Hd. destruct (itemByID a !! _) as [ref|] eqn:E; [|done]. exfalso.
  destruct (H2 _ _ E) as (st & Hst & Hid). destruct (H3 _ _ Hst) as [(n & Hn & He)|(it & Hin & _ & Hc & _)].
  - rewrite He in Hid. apply append_inj_l in Hid.
    pose proof (di_draws _ _ _ Hdi n (draws a) ltac:(lia) Hd Hid). lia.
  - eapply (di_separate _ _ _ Hdi it (draws a)); [done|lia|congruence].
Qed.

Lemma client_fresh a it : ids_ok a -> (draws a <= k)%nat -> List.In it its -> ClientID it <> EmptyString ->
  items a !! Ref it = None -> itemByID a !! ClientID it = None.
Proof.
  intros [H1 H2 H3] Hd Hin Hne Hn. destruct (itemByID a !! _) as [ref|] eqn:E; [|done]. exfalso.
  destruct (H2 _ _ E) as (st & Hst & Hid). destruct (H3 _ _ Hst) as [(n & Hlt & He)|(it' & Hin' & Hr & Hc & _)].
  - eapply (di_separate _ _ _ Hdi it n); [done|lia|congruence].
  - assert (Ref it = Ref it') by (eapply (di_client _ _ _ Hdi); [done|done|done|congruence]). congruence.
Qed.

Lemma keeps_item ref : keeps (item rand ref).
Proof.
  intros a x a' H. unfold item in H. apply bindM_Some in H as (o & a1 & [= <- <-] & H).
  destruct (items a !! ref) as [st|] eqn:E; [injection H as <- <-; by split|].
  apply bindM_Some in H as (id & a1 & [= <- <-] & H). cbv zeta in H.
  apply bindM_Some in H as (u & a2 & [= <- <-] & [= <- <-]). simpl. split; [lia|]. intros Hk Ha.
  apply (ids_ok_put (set_draws (S (draws a)) a) ref (new_itemState ("item_" ++ drawn rand (draws a)))); simpl.
  - eapply ids_ok_same; [..|exact Ha]; simpl; auto.
  - done.
  - apply drawn_fresh; [done|lia].
  - left. exists (draws a). split; [lia|done].
Qed.
#[local] Hint Resolve keeps_item : keeps.

Lemma keeps_itemFor it : List.In it its -> keeps (itemFor rand it).
Proof.
  intros Hin a x a' H. unfold itemFor in H. apply bindM_Some in H as (o & a1 & [= <- <-] & H).
  destruct (items a !! Ref it) as [st|] eqn:E; [injection H as <- <-; by split|].
  destruct (String.eqb_spec (ClientID it) EmptyString) as [Hc|Hc]; simpl in H; [by eapply keeps_item|].
  apply bindM_Some in H as (u & a2 & [= <- <-] & [= <- <-]). simpl. split; [lia|]. intros Hk Ha.
  apply ids_ok_put; simpl; [done|done|by apply client_fresh|]. right. by exists it.
Qed.

Lemma keeps_optID ref : keeps (optID rand ref).
Proof. unfold optID. destruct (_ =? _); eauto with keeps. Qed.

Lemma keeps_itemBody st it : keeps (itemBody rand st it).
Proof.
  unfold itemBody. destruct (_ && _); [|eauto with keeps].
  apply keeps_bind; [eauto with keeps|]. intros o. apply keeps_bind; [destruct o; eauto 10 with keeps|].
  intros w. apply keeps_bind; [destruct (bool_decide _); eauto with keeps|]. eauto 10 with keeps.
Qed.

Lemma keeps_put_resp r rs : keeps (put_resp r rs).
Proof. unfold put_resp. eauto with keeps. Qed.
#[local] Hint Resolve keeps_optID keeps_itemBody keeps_put_resp : keeps.

Lemma keeps_resp_index r i : keeps (resp_index r i).
Proof. unfold resp_index. apply keeps_bind; [eauto with keeps|]. intros rs. destruct (index i rs). eauto with keeps. Qed.
#[local] Hint Resolve keeps_resp_index : keeps.

Lemma keeps_mapM {A B} (f : A -> M B) l : (forall x, List.In x l -> keeps (f x)) -> keeps (mapM_ f l).
Proof.
  induction l as [|x l IH]; intros Hf; [apply keeps_ret|]. simpl. apply keeps_bind; [apply Hf; by left|].
  intros y. apply keeps_bind; [apply IH; intros z Hz; apply Hf; by right|]. eauto with keeps.
Qed.

Lemma keeps_deleted ref : keeps (Outbound rand (EvItemDeleted ref)).
Proof.
  intros a x a' H. cbn [Outbound] in H. apply bindM_Some in H as (st & a1 & H1 & H).
  destruct (keeps_item ref _ _ _ H1) as [Hd Hi]. apply bindM_Some in H as (u & a2 & [= <- <-] & H).
  assert (Hst : items a1 !! ref = Some st).
  { unfold item in H1. apply bindM_Some in H1 as (o & a3 & [= <- <-] & H1).
    destruct (items a !! ref) as [st'|] eqn:E; [by injection H1 as <- <-|].
    apply bindM_Some in H1 as (id & a3 & [= <- <-] & H1). apply bindM_Some in H1 as (u' & a4 & [= <- <-] & [= <- <-]).
    simpl. by rewrite lookup_insert_eq. }
  unfold one, frame_ in H. apply bindM_Some in H as (f & a4 & H & [= <- <-]).
  apply bindM_Some in H as (b & a5 & [= <- <-] & H). injection H as <- <-. simpl. split; [done|].
  intros Hk Ha. specialize (Hi Hk Ha) as [H1' H2' H3']. split; simpl.
  - intros r st' Hl. apply lookup_delete_Some in Hl as [Hne Hl]. rewrite lookup_delete_ne; [by apply H1'|].
    intros E. pose proof (H1' _ _ Hl) as Hb. rewrite <- E, (H1' _ _ Hst) in Hb. congruence.
  - intros id r Hl. apply lookup_delete_Some in Hl as [Hne Hl]. destruct (H2' _ _ Hl) as (st' & Hs & <-).
    exists st'. rewrite lookup_delete_ne; [done|]. intros <-. congruence.
  - intros r st' Hl. apply lookup_delete_Some in Hl as [Hne Hl]. by apply H3'.
Qed.

Ltac keeping :=
  repeat first
    [ progress eauto 3 with keeps
    | apply keeps_itemFor; simpl; by auto
    | apply keeps_bind; [|intros ?]
    | match goal with
      | |- keeps (if ?b then _ else _) => destruct b
      | |- keeps (match ?x with _ => _ end) => destruct x
      | |- keeps (let (_, _) := ?p in _) => destruct p
      end ].

Lemma keeps_Outbound ev : (forall it, List.In it (event_items ev) -> List.In it its) -> keeps (Outbound rand ev).
Proof.
  destruct ev; intros Hin; simpl in Hin; try apply keeps_deleted; cbn [Outbound];
    unfold delta_, done_frame, errorFrame, one, frame_, outputItemAdded, outputItemDone, toolArguments,
      responseCreated, responseDone, responseObject; keeping.
  apply keeps_mapM. intros it Hit. apply keeps_bind; [apply keeps_itemFor; by apply Hin|]. intros st. apply keeps_itemBody.
Qed.

Lemma keeps_project evs : (forall it, List.In it (items_of evs) -> List.In it its) -> keeps (project rand evs).
Proof.
  intros Hin. unfold project. apply keeps_bind; [|intros fss; apply keeps_ret]. apply keeps_mapM. intros ev Hev.
  apply keeps_Outbound. intros it Hit. apply Hin. unfold items_of. apply List.in_concat. exists (event_items ev).
  split; [by apply List.in_map|done].
Qed.

Lemma ids_ok_New sid mo d : ids_ok (Adapter.New rand sid mo d).
Proof. split; simpl; intros ? ? H; by rewrite lookup_empty in H. Qed.
End ids.

(** ** The id of an item once shown *)

(** Item [r] is in the table under [id]. *)
Definition holds (r : ItemRef) (id : string) (a : Adapter) : Prop := exists st, items a !! r = Some st /\ is_id st = id.

Definition stable {A} (r : ItemRef) (id : string) (m : M A) : Prop := forall a x a', m a = Some (x, a') -> holds r id a -> holds r id a'.

Section shown.
Context (rand : nat -> nat -> Z).

Lemma stable_bind {A B} r id (e : M A) (f : A -> M B) : stable r id e -> (forall x, stable r id (f x)) -> stable r id (bindM e f).
Proof. intros He Hf a y a' (x & a1 & H1 & H2)%bindM_Some Ha. eapply Hf; [exact H2|]. by eapply He. Qed.

Lemma stable_same {A} r id (m : M A) : (forall a x a', m a = Some (x, a') -> items a' = items a) -> stable r id m.
Proof. intros H a x a' Hm (st & Hs & Hi). exists st. by rewrite (H _ _ _ Hm). Qed.

Lemma stable_update r id ref f : (forall st, is_id (f st) = is_id st) -> stable r id (update_item ref f).
Proof.
  intros Hf a x a' [= <- <-] (st & Hs & Hi). unfold holds. simpl. destruct (decide (r = ref)) as [->|Hne].
  - exists (f st). by rewrite lookup_alter_eq, Hs, Hf.
  - exists st. by rewrite lookup_alter_ne.
Qed.

Lemma stable_put r id ref st : r <> ref -> stable r id (put_item ref st).
Proof. intros Hne a x a' [= <- <-] (st' & Hs & Hi). exists st'. simpl. by rewrite lookup_insert_ne. Qed.

(** What [item] and [itemFor] return is what the table holds. *)
Lemma item_found ref a st a' : item rand ref a = Some (st, a') -> items a' !! ref = Some st.
Proof.
  unfold item. intros (o & a1 & [= <- <-] & H)%bindM_Some. destruct (items a !! ref) as [st'|] eqn:E; [by injection H as <- <-|].
  apply bindM_Some in H as (id & a1 & [= <- <-] & H). apply bindM_Some in H as (u & a2 & [= <- <-] & [= <- <-]).
  simpl. by rewrite lookup_insert_eq.
Qed.

Lemma itemFor_found it a st a' : itemFor rand it a = Some (st, a') -> items a' !! Ref it = Some st.
Proof.
  unfold itemFor. intros (o & a1 & [= <- <-] & H)%bindM_Some.
  destruct (items a !! Ref it) as [st'|] eqn:E; [by injection H as <- <-|].
  destruct (negb _); [|by eapply item_found]. apply bindM_Some in H as (u & a2 & [= <- <-] & [= <- <-]).
  simpl. by rewrite lookup_insert_eq.
Qed.

Lemma stable_item r id ref : stable r id (item rand ref).
Proof.
  intros a x a' H Ha. destruct (decide (r = ref)) as [->|Hne].
  - destruct Ha as (st & Hs & Hi). unfold item, bindM, gets in H. rewrite Hs in H. injection H as <- <-. by exists st.
  - revert a x a' H Ha. change (stable r id (item rand ref)). unfold item.
    apply stable_bind; [by apply stable_same; intros ? ? ? [= _ <-]|]. intros [st|]; [by apply stable_same; intros ? ? ? [= _ <-]|].
    apply stable_bind; [by apply stable_same; intros ? ? ? [= _ <-]|]. intros i.
    apply stable_bind; [by apply stable_put|]. intros u. by apply stable_same; intros ? ? ? [= _ <-].
Qed.

Lemma stable_optID r id ref : stable r id (optID rand ref).
Proof.
  unfold optID. destruct (ref =? 0); [by apply stable_same; intros ? ? ? [= _ <-]|].
  apply stable_bind; [apply stable_item|]. intros st. by apply stable_same; intros ? ? ? [= _ <-].
Qed.

(** A rendered item shows the id of its state. *)
Lemma any_id_anyItem id call it : any_id (anyItem id call it) = id.
Proof. unfold anyItem. by destruct (Content it). Qed.

Lemma itemBody_spec st it a w a' : itemBody rand st it a = Some (w, a') ->
  any_id w = is_id st /\ forall r id, holds r id a -> holds r id a'.
Proof.
  unfold itemBody. destruct (_ && is_tool it); intros H.
  2:{ injection H as <- <-. by rewrite any_id_anyItem. }
  apply bindM_Some in H as (o & a1 & [= <- <-] & H). apply bindM_Some in H as (wire & a2 & H2 & H).
  apply bindM_Some in H as (u & a3 & H3 & H). apply bindM_Some in H as (u' & a4 & H4 & [= <- <-]).
  rewrite any_id_anyItem. split; [done|]. intros r id Ha.
  assert (H2' : items a2 = items a).
  { destruct (callWire a !! CallID it); [by injection H2 as <- <-|].
    apply bindM_Some in H2 as (w' & a5 & [= <- <-] & H2). apply bindM_Some in H2 as (u2 & a6 & [= <- <-] & [= <- <-]). done. }
  assert (H3' : items a3 = items a2) by (destruct (bool_decide _); by injection H3 as _ <-).
  eapply (stable_update r id _ (set_call wire (Name it))); [done|exact H4|]. destruct Ha as (st' & Hs & Hi). exists st'.
  by rewrite H3', H2'.
Qed.

(** The frames that show an item for the first time. *)
Definition added_frames (fs : list frame) : list frame := typed "conversation.item.added" fs.

Lemma item_added_spec it prev a fs a' : Outbound rand (EvItemAdded it prev) a = Some (fs, a') ->
  exists b p w, added_frames fs = [(b, itemEvent p w)] /\ holds (Ref it) (any_id w) a'.
Proof.
  cbn [Outbound]. intros (st & a1 & H1 & H)%bindM_Some. apply itemFor_found in H1.
  apply bindM_Some in H as (p & a2 & H2 & H). apply bindM_Some in H as (u & a3 & H3 & H).
  assert (Ha1 : holds (Ref it) (is_id st) a1) by by exists st.
  pose proof (stable_optID _ _ _ _ _ _ H2 Ha1) as Ha2.
  assert (Ha3 : holds (Ref it) (is_id st) a3) by by eapply stable_update; [|exact H3|].
  apply bindM_Some in H as (f & a4 & H & [= <- <-]). unfold frame_ in H.
  apply bindM_Some in H as (b & a5 & [= <- <-] & H). apply bindM_Some in H as (pl & a6 & H & [= <- <-]).
  apply bindM_Some in H as (w & a7 & H7 & [= <- <-]). destruct (itemBody_spec _ _ _ _ _ H7) as [Hw Hk].
  eexists _, _, w. split; [done|]. rewrite Hw. apply Hk. by destruct Ha3 as (st' & ? & ?); exists st'.
Qed.

(** A frame whose payload is at hand. *)
Lemma frame_ret typ p a f a' : frame_ typ (ret p) a = Some (f, a') ->
  Type_ f.1 = typ /\ f.2 = p /\ items a' = items a.
Proof.
  unfold frame_. intros (b & a1 & [= <- <-] & H)%bindM_Some. apply bindM_Some in H as (x & a2 & [= <- <-] & [= <- <-]). done.
Qed.

Lemma resp_items r a rs a' : resp r a = Some (rs, a') -> items a' = items a.
Proof. unfold resp. destruct (resps a !! r); [|done]. by intros [= _ <-]. Qed.

Lemma resp_index_items r i a idx a' : resp_index r i a = Some (idx, a') -> items a' = items a.
Proof.
  unfold resp_index. intros (rs & a1 & H1%resp_items & H)%bindM_Some. destruct (index i rs) as [n rs'].
  apply bindM_Some in H as (u & a2 & [= _ <-] & [= _ <-]). done.
Qed.

Lemma output_added_spec r it prev a fs a' : Outbound rand (EvOutputItemAdded r it prev) a = Some (fs, a') ->
  exists b p w, added_frames fs = [(b, itemEvent p w)] /\ holds (Ref it) (any_id w) a'.
Proof.
  cbn [Outbound]. unfold outputItemAdded. intros (rs & a0 & _ & H)%bindM_Some.
  apply bindM_Some in H as (st & a1 & H1%itemFor_found & H). apply bindM_Some in H as (p & a2 & H2 & H).
  apply bindM_Some in H as (u & a3 & H3 & H). apply bindM_Some in H as (idx & a4 & H4%resp_index_items & H).
  apply bindM_Some in H as (w & a5 & H5 & H).
  assert (Ha1 : holds (Ref it) (is_id st) a1) by by exists st.
  pose proof (stable_optID _ _ _ _ _ _ H2 Ha1) as Ha2.
  assert (Ha3 : holds (Ref it) (is_id st) a3) by by eapply stable_update; [|exact H3|].
  destruct (itemBody_spec _ _ _ _ _ H5) as [Hw Hk].
  assert (Ha5 : holds (Ref it) (any_id w) a5).
  { rewrite Hw. apply Hk. destruct Ha3 as (st' & ? & ?). exists st'. by rewrite H4. }
  assert (Hend : forall x, items x = items a5 -> holds (Ref it) (any_id w) x)
    by (intros x Hx; destruct Ha5 as (st' & ? & ?); exists st'; by rewrite Hx).
  destruct (bool_decide _).
  - apply bindM_Some in H as (f1 & b1 & (T1 & P1 & I1)%frame_ret & H).
    apply bindM_Some in H as (f2 & b2 & (T2 & P2 & I2)%frame_ret & [= <- <-]).
    exists f2.1, p, w. split; [|apply Hend; congruence]. unfold added_frames, typed. simpl. rewrite T1, T2. simpl.
    by destruct f2; simpl in *; subst.
  - apply bindM_Some in H as (rs' & b0 & I0%resp_items & H). apply bindM_Some in H as (u' & b3 & [= _ <-] & H).
    apply bindM_Some in H as (f1 & b1 & (T1 & P1 & I1)%frame_ret & H).
    apply bindM_Some in H as (f2 & b2 & (T2 & P2 & I2)%frame_ret & H).
    apply bindM_Some in H as (f3 & b4 & (T3 & P3 & I3)%frame_ret & [= <- <-]).
    exists f2.1, p, w. split; [|apply Hend; simpl in *; congruence].
    unfold added_frames, typed. simpl. rewrite T1, T2, T3. simpl. by destruct f2; simpl in *; subst.
Qed.

(** Operations that show no item. *)
Definition unadded (m : M (list frame)) : Prop := forall a fs a', m a = Some (fs, a') -> added_frames fs = [].

Lemma unadded_bind {A} (e : M A) k : (forall x, unadded (k x)) -> unadded (bindM e k).
Proof. intros Hk a fs a' (x & a1 & _ & H)%bindM_Some. by eapply Hk. Qed.

Lemma unadded_ret fs : added_frames fs = [] -> unadded (ret fs).
Proof. by intros H a fs' a' [= <- _]. Qed.

Lemma unadded_frame typ p k : typ <> "conversation.item.added" ->
  (forall f : frame, Type_ f.1 = typ -> unadded (k f)) -> unadded (bindM (frame_ typ p) k).
Proof.
  intros Ht Hk a fs a' (f & a1 & Hf & H)%bindM_Some. eapply Hk; [|exact H]. unfold frame_ in Hf.
  apply bindM_Some in Hf as (b & a2 & [= <- _] & Hf). by apply bindM_Some in Hf as (x & a3 & _ & [= <- _]).
Qed.

Lemma unadded_error t c p e : unadded (let! f := errorFrame t c p e in ret [f]).
Proof. intros a fs a' (f & a1 & (b & a2 & [= <- _] & [= <- _])%bindM_Some & [= <- _])%bindM_Some. done. Qed.

Ltac unadd :=
  repeat first
    [ apply unadded_error
    | apply unadded_frame; [discriminate|intros ? ?]
    | apply unadded_ret; unfold added_frames, typed; simpl;
      repeat match goal with H : Type_ _ = _ |- _ => rewrite H; clear H end; reflexivity
    | match goal with
      | |- unadded (if ?b then _ else _) => destruct b
      | |- unadded (let (_, _) := ?p in _) => destruct p
      end
    | apply unadded_bind; intros ? ].

(** The item an event adds to the conversation. *)
Definition adds (ev : Event) : option Item :=
  match ev with EvItemAdded it _ | EvOutputItemAdded _ it _ => Some it | _ => None end.

Lemma unadded_Outbound ev : adds ev = None -> unadded (Outbound rand ev).
Proof.
  destruct ev; try done; intros _; cbn [Outbound];
    unfold delta_, done_frame, one, outputItemDone, toolArguments, responseCreated, responseDone; unadd.
Qed.

Lemma command_of_delete id a ref : itemByID a !! id = Some ref ->
  command_of (delete_frame id) a = Some (CmdDeleteItem EmptyString ref).
Proof. intros H. unfold command_of, Inbound. cbn -[slen].
  replace (eventIDMaxLen <? slen EmptyString) with false by reflexivity. cbn. unfold lookupItem. by rewrite H. Qed.
End shown.

(** C16. Items keep their names on the wire: after any events of a session, an
    event that adds an item to the conversation (a client's item or a user's turn,
    or a message or tool call of the assistant) is shown to the client by exactly
    one conversation.item.added, and the id in it is, sent back in a client event,
    resolved to that very item, and no other item of the session has that id; no
    other event shows one. Assumed is that ids do not collide: the random ids drawn
    so far are distinct, and client ids differ from them and from each other. *)
Theorem shown_id_resolves rand evs ev sid mo d fs a fs' a' :
  project rand evs (Adapter.New rand sid mo d) = Some (fs, a) ->
  Outbound rand ev a = Some (fs', a') ->
  distinct_ids rand (draws a') (items_of (evs ++ [ev])) ->
  match adds ev with
  | Some it => exists b p w, added_frames fs' = [(b, itemEvent p w)] /\
      command_of (delete_frame (any_id w)) a' = Some (CmdDeleteItem EmptyString (Ref it)) /\
      forall ref st, items a' !! ref = Some st -> is_id st = any_id w -> ref = Ref it
  | None => added_frames fs' = []
  end.
Proof.
  intros Hp Ho Hdi. set (its := items_of (evs ++ [ev])) in *.
  destruct (adds ev) as [it|] eqn:Hadd; [|by eapply unadded_Outbound].
  assert (Hsp : exists b p w, added_frames fs' = [(b, itemEvent p w)] /\ holds (Ref it) (any_id w) a')
    by (destruct ev; try done; injection Hadd as <-; [by eapply item_added_spec|by eapply output_added_spec]).
  destruct Hsp as (b & p & w & -> & Hh). exists b, p, w. split; [done|].
  assert (Hin : its = (items_of evs ++ event_items ev)%list)
    by (unfold its, items_of; rewrite map_app, concat_app; simpl; by rewrite app_nil_r).
  assert (Hok : ids_ok rand its a').
  { assert (Hs1 : forall i, List.In i (event_items ev) -> List.In i its)
      by (intros i Hi; rewrite Hin; apply List.in_app_iff; by right).
    assert (Hs2 : forall i, List.In i (items_of evs) -> List.In i its)
      by (intros i Hi; rewrite Hin; apply List.in_app_iff; by left).
    destruct (keeps_Outbound rand (draws a') its Hdi _ Hs1 _ _ _ Ho) as [Hd2 Hk2].
    destruct (keeps_project rand (draws a') its Hdi evs Hs2 _ _ _ Hp) as [Hd1 Hk1].
    apply Hk2; [done|]. apply Hk1; [lia|apply ids_ok_New]. }
  destruct Hh as (st & Hst & Hid). pose proof (io_id _ _ _ Hok _ _ Hst) as Hb. rewrite Hid in Hb.
  split; [by apply command_of_delete|]. intros ref st' Hs' He. pose proof (io_id _ _ _ Hok _ _ Hs') as Hb'.
  rewrite He in Hb'. congruence.
Qed.

(** A user message with the client's id, after one without; and the
    assistant's. *)
Definition named_item (n : ItemRef) (id : string) : Item :=
  {| Ref := n; ClientID := id; Role := RoleUser; Content := ContentText; Status := ItemCompleted; Text := "hi";
     AudioMs := 0; TranscriptDone := true; Name := EmptyString; CallID := EmptyString |}.

Definition spoken_reply (n : ItemRef) : Item :=
  {| Ref := n; ClientID := EmptyString; Role := RoleAssistant; Content := ContentAudio; Status := ItemInProgress;
     Text := EmptyString; AudioMs := 0; TranscriptDone := false; Name := EmptyString; CallID := EmptyString |}.

Definition named_events : list Event :=
  [EvItemAdded (named_item 1 EmptyString) 0; EvSpeechStarted 0 2; EvResponseCreated 1 ["audio"] "alloy" (MkMaxOutputTokens true 0) None].
Definition named_run : list frame * Adapter := default ([], demo_adapter) (project demo_rand named_events demo_adapter).
Definition named_added (ev : Event) : list frame * Adapter := default named_run (Outbound demo_rand ev named_run.2).

Lemma shown_id_resolves_witness :
  (exists w, command_of (delete_frame (any_id w)) (named_added (EvItemAdded (named_item 3 "m1") 1)).2 =
     Some (CmdDeleteItem EmptyString 3)) /\
  (exists w, command_of (delete_frame (any_id w)) (named_added (EvOutputItemAdded 1 (spoken_reply 4) 1)).2 =
     Some (CmdDeleteItem EmptyString 4)).
Proof.
  split.
  - destruct (shown_id_resolves demo_rand named_events (EvItemAdded (named_item 3 "m1") 1) "sess_1" EmptyString demo_cfg
      named_run.1 named_run.2 (named_added (EvItemAdded (named_item 3 "m1") 1)).1 (named_added (EvItemAdded (named_item 3 "m1") 1)).2)
      as (b & p & w & _ & Hc & _).
    + by vm_compute.
    + by vm_compute.
    + replace (draws (named_added (EvItemAdded (named_item 3 "m1") 1)).2) with 5%nat by by vm_compute. split.
      * intros n m Hn Hm He. destruct n as [|[|[|[|[|n]]]]], m as [|[|[|[|[|m]]]]]; try done; try lia; exfalso; revert He; by vm_compute.
      * intros it it' [<-|[<-|[]]] [<-|[<-|[]]]; done.
      * intros it n [<-|[<-|[]]] Hn; destruct n as [|[|[|[|[|n]]]]]; try lia; by vm_compute.
    + by exists w.
  - destruct (shown_id_resolves demo_rand named_events (EvOutputItemAdded 1 (spoken_reply 4) 1) "sess_1" EmptyString demo_cfg
      named_run.1 named_run.2 (named_added (EvOutputItemAdded 1 (spoken_reply 4) 1)).1 (named_added (EvOutputItemAdded 1 (spoken_reply 4) 1)).2)
      as (b & p & w & _ & Hc & _).
    + by vm_compute.
    + by vm_compute.
    + replace (draws (named_added (EvOutputItemAdded 1 (spoken_reply 4) 1)).2) with 6%nat by by vm_compute. split.
      * intros n m Hn Hm He. destruct n as [|[|[|[|[|[|n]]]]]], m as [|[|[|[|[|[|m]]]]]]; try done; try lia; exfalso; revert He; by vm_compute.
      * intros it it' [<-|[<-|[]]] [<-|[<-|[]]]; done.
      * intros it n [<-|[<-|[]]] Hn; destruct n as [|[|[|[|[|[|n]]]]]]; try lia; by vm_compute.
    + by exists w.
Defined.
