(* ===== verification/AdapterCalls.v ===== *)
(** * Tool call ids on the wire

    A provider's own call id is only the key of [callWire]; the client sees an
    id the adapter drew. [ensures] is the triple of an operation with the
    invariant [calls_minted]: what it returns satisfies a predicate. *)

From S2P Require Export AdapterIds.
From Stdlib Require Import QArith Ascii.
From S2P Require Import SessionProps Adapter SessionStep.
#[local] Open Scope string_scope.
#[local] Open Scope Z_scope.

Section calls.
Context (rand : nat -> nat -> Z).

Ltac fall := repeat first [done | apply List.Forall_nil | apply List.Forall_cons].

(** A call id the adapter made, or none yet. *)
Definition minted (c : string) : Prop := c = EmptyString \/ exists n, c = "call_" ++ drawn rand n.

Definition state_minted (st : itemState) : Prop := minted (is_callID st).

Record calls_minted (a : Adapter) : Prop := {
  cm_wire : forall pid w, callWire a !! pid = Some w -> minted w;
  cm_item : forall ref st, items a !! ref = Some st -> state_minted st
}.

(** The call ids a frame shows. *)
Definition frame_calls (f : frame) : list string :=
  match f.2 with
  | itemEvent _ w | outputItemEvent _ _ w => option_list (any_call w)
  | toolArgumentsEvent _ _ _ c _ _ _ => [c]
  | responseEvent r => omap any_call (wr_Output r)
  | _ => []
  end.

Definition frame_minted (f : frame) : Prop := Forall minted (frame_calls f).

Definition ensures {A} (m : M A) (Q : A -> Prop) : Prop := forall a x a',
  m a = Some (x, a') -> calls_minted a -> calls_minted a' /\ Q x.

Create HintDb calls.

Lemma ensures_ret {A} (x : A) (Q : A -> Prop) : Q x -> ensures (ret x) Q.
Proof. by intros Hx a y a' [= <- <-]. Qed.

Lemma ensures_bind {A B} (e : M A) (f : A -> M B) P Q :
  ensures e P -> (forall x, P x -> ensures (f x) Q) -> ensures (bindM e f) Q.
Proof.
  intros He Hf a y a' (x & a1 & H1 & H2)%bindM_Some Ha. destruct (He _ _ _ H1 Ha) as [Ha1 Hx]. by eapply Hf.
Qed.

(** An operation that leaves the two tables alone. *)
Lemma ensures_same {A} (m : M A) : (forall a x a', m a = Some (x, a') -> callWire a' = callWire a /\ items a' = items a) ->
  ensures m (fun _ => True).
Proof.
  intros Hm a x a' H [H1 H2]. destruct (Hm _ _ _ H) as [Hw Hi]. split; [|done]. split; by rewrite ?Hw, ?Hi.
Qed.

Lemma ensures_weaken {A} (m : M A) (P Q : A -> Prop) : (forall x, P x -> Q x) -> ensures m P -> ensures m Q.
Proof. intros HPQ Hm a x a' H Ha. destruct (Hm _ _ _ H Ha). auto. Qed.

Ltac same := apply ensures_same; by intros ? ? ? [= _ <-].

Lemma ensures_base t : ensures (base_ t) (fun _ => True).
Proof. same. Qed.

Lemma ensures_gets {A} (f : Adapter -> A) : ensures (gets f) (fun _ => True).
Proof. same. Qed.

Lemma ensures_newID p : ensures (newID rand p) (fun id => exists n, id = p ++ drawn rand n).
Proof. intros a x a' [= <- <-] [H1 H2]. split; [by split|]. by eexists. Qed.

Lemma ensures_resp r : ensures (resp r) (fun _ => True).
Proof. apply ensures_same. intros a x a'. unfold resp. destruct (resps a !! r); [|done]. by intros [= _ <-]. Qed.

Lemma ensures_put_resp r rs : ensures (put_resp r rs) (fun _ => True).
Proof. same. Qed.

Lemma ensures_put ref st : state_minted st -> ensures (put_item ref st) (fun _ => True).
Proof.
  intros Hst a x a' [= <- <-] [H1 H2]. split; [|done]. split; simpl; [done|]. intros r st' H.
  apply lookup_insert_Some in H as [[_ <-]|[_ H]]; [done|by eapply H2].
Qed.

Lemma ensures_update ref f : (forall st, state_minted st -> state_minted (f st)) -> ensures (update_item ref f) (fun _ => True).
Proof.
  intros Hf a x a' [= <- <-] [H1 H2]. split; [|done]. split; simpl; [done|]. intros r st H.
  apply lookup_alter_Some in H as [[<- (st' & H & ->)]|[_ H]]; [apply Hf|]; by eapply H2.
Qed.

(** Reading the table gives a minted state. *)
Lemma ensures_lookup ref : ensures (gets (fun a => items a !! ref)) (fun o => forall st, o = Some st -> state_minted st).
Proof. intros a x a' [= <- <-] Ha. split; [done|]. intros st H. by eapply (cm_item a Ha). Qed.

Lemma ensures_item ref : ensures (item rand ref) state_minted.
Proof.
  unfold item. eapply ensures_bind; [apply ensures_lookup|]. intros [st|] Hst; [apply ensures_ret; by apply Hst|].
  eapply ensures_bind; [apply ensures_newID|]. intros id _. cbv zeta.
  eapply ensures_bind; [apply ensures_put; by left|]. intros _ _. apply ensures_ret. by left.
Qed.

Lemma ensures_itemFor it : ensures (itemFor rand it) state_minted.
Proof.
  unfold itemFor. eapply ensures_bind; [apply ensures_lookup|]. intros [st|] Hst; [apply ensures_ret; by apply Hst|].
  destruct (negb _); [|apply ensures_item]. cbv zeta.
  eapply ensures_bind; [apply ensures_put; by left|]. intros _ _. apply ensures_ret. by left.
Qed.

Lemma ensures_optID ref : ensures (optID rand ref) (fun _ => True).
Proof.
  unfold optID. destruct (ref =? 0); [same|]. eapply ensures_bind; [apply ensures_item|]. intros st _. same.
Qed.

Definition item_minted (w : anyWireItem) : Prop := Forall minted (option_list (any_call w)).

Lemma anyItem_minted id c it : minted c -> item_minted (anyItem id c it).
Proof. intros Hc. unfold item_minted, anyItem. destruct (Content it); simpl; fall. Qed.

Lemma ensures_itemBody st it : state_minted st -> ensures (itemBody rand st it) item_minted.
Proof.
  intros Hst. unfold itemBody. destruct (_ && _); [|apply ensures_ret; by apply anyItem_minted].
  apply (ensures_bind _ _ (fun o => forall w, o = Some w -> minted w)).
  { intros a x a' [= <- <-] Ha. split; [done|]. intros w Hw. by eapply (cm_wire a Ha). }
  intros o Ho. apply (ensures_bind _ _ minted).
  { destruct o as [w|]; [apply ensures_ret; by apply Ho|]. eapply ensures_bind; [apply ensures_newID|]. intros w Hw.
    eapply (ensures_bind _ _ (fun _ => True)); [|intros _ _; apply ensures_ret; by right].
    intros a x a' [= <- <-] [H1 H2]. split; [|done]. split; simpl; [|done]. intros pid w' H.
    apply lookup_insert_Some in H as [[_ <-]|[_ H]]; [by right|by eapply H1]. }
  intros w Hw. eapply (ensures_bind _ _ (fun _ => True)); [destruct (bool_decide _); same|]. intros _ _.
  eapply ensures_bind; [apply ensures_update; by intros st' _|]. intros _ _. apply ensures_ret. by apply anyItem_minted.
Qed.

Lemma ensures_resp_index r i : ensures (resp_index r i) (fun _ => True).
Proof.
  unfold resp_index. eapply ensures_bind; [apply ensures_resp|]. intros rs _. destruct (index i rs).
  eapply ensures_bind; [apply ensures_put_resp|]. intros _ _. same.
Qed.

Lemma ensures_responseObject rs s d o u : Forall item_minted o ->
  ensures (responseObject rs s d o u) (fun w => wr_Output w = o).
Proof. intros Ho. unfold responseObject. eapply ensures_bind; [apply ensures_gets|]. intros c _. by apply ensures_ret. Qed.

Lemma ensures_frame t p (Q : payload -> Prop) : ensures p Q -> ensures (frame_ t p) (fun f => Q f.2).
Proof.
  intros Hp. unfold frame_. eapply ensures_bind; [apply ensures_base|]. intros b _.
  eapply ensures_bind; [exact Hp|]. intros x Hx. by apply ensures_ret.
Qed.

(** A payload that shows only minted call ids. *)
Definition payload_minted (p : payload) : Prop := frame_minted (MkBase EmptyString EmptyString, p).

Lemma ensures_one t p : ensures p payload_minted -> ensures (one t p) (Forall frame_minted).
Proof.
  intros Hp. unfold one. eapply ensures_bind; [by apply ensures_frame|]. intros [b x] Hx.
  apply ensures_ret. fall.
Qed.

Lemma payload_ret p : payload_minted p -> ensures (ret p) payload_minted.
Proof. apply ensures_ret. Qed.

Lemma payload_gets f : (forall a, payload_minted (f a)) -> ensures (gets f) payload_minted.
Proof. intros Hf a x a' [= <- <-] Ha. by split. Qed.

Lemma ensures_errorFrame t c p e : ensures (let! f := errorFrame t c p e in ret [f]) (Forall frame_minted).
Proof.
  apply (ensures_bind _ _ frame_minted); [|intros f Hf; apply ensures_ret; fall].
  unfold errorFrame. eapply ensures_bind; [apply ensures_base|]. intros b _. apply ensures_ret. apply List.Forall_nil.
Qed.

(** One frame after another. *)
Lemma ensures_then t p (k : frame -> M (list frame)) : ensures p payload_minted ->
  (forall f, frame_minted f -> ensures (k f) (Forall frame_minted)) ->
  ensures (bindM (frame_ t p) k) (Forall frame_minted).
Proof. intros Hp Hk. eapply ensures_bind; [by apply ensures_frame|]. intros [b x] Hx. apply Hk. exact Hx. Qed.

Lemma frame_minted_item b p w : item_minted w -> frame_minted (b, itemEvent p w).
Proof. done. Qed.

#[local] Hint Resolve ensures_base ensures_gets ensures_resp ensures_put_resp ensures_item ensures_itemFor ensures_optID
  ensures_itemBody ensures_resp_index ensures_newID : calls.
#[local] Hint Extern 4 (payload_minted _) => solve [unfold payload_minted, frame_minted; simpl; fall] : calls.

Ltac ensuring :=
  repeat first
    [ apply ensures_one
    | apply ensures_errorFrame
    | apply payload_ret; solve [eauto with calls]
    | apply payload_gets; intros ?; solve [eauto with calls]
    | apply ensures_then; [|intros ? ?]
    | apply ensures_ret; solve [fall]
    | apply ensures_update; solve [intros ? Hst; exact Hst]
    | same
    | solve [eauto 3 with calls]
    | eapply ensures_bind; [|intros ? ?]
    | match goal with
      | |- ensures (if ?b then _ else _) _ => destruct b
      | |- ensures (match ?x with _ => _ end) _ => destruct x
      | |- ensures (let (_, _) := ?p in _) _ => destruct p
      end ].

Lemma ensures_delta t r i d : ensures (delta_ rand t r i d) (Forall frame_minted).
Proof. unfold delta_. ensuring. Qed.

Lemma ensures_done t r i x y : ensures (done_frame rand t r i x y) (Forall frame_minted).
Proof. unfold done_frame. ensuring. Qed.

Lemma ensures_mapM {A B} (f : A -> M B) (Q : B -> Prop) l : (forall x, ensures (f x) Q) -> ensures (mapM_ f l) (Forall Q).
Proof.
  intros Hf. induction l as [|x l IH]; simpl; [apply ensures_ret; apply List.Forall_nil|].
  eapply ensures_bind; [apply Hf|]. intros y Hy. eapply ensures_bind; [apply IH|]. intros ys Hys. apply ensures_ret. fall.
Qed.

Lemma ensures_outputItemAdded r it prev : ensures (outputItemAdded rand r it prev) (Forall frame_minted).
Proof. unfold outputItemAdded. ensuring. Qed.

Lemma ensures_outputItemDone r it : ensures (outputItemDone rand r it) (Forall frame_minted).
Proof. unfold outputItemDone. ensuring. Qed.

Lemma ensures_toolArguments r i x : ensures (toolArguments rand r i x) (Forall frame_minted).
Proof. unfold toolArguments. ensuring. Qed.

Lemma outputs_minted r l : Forall item_minted l -> wr_Output r = l -> payload_minted (responseEvent r).
Proof.
  intros Hl Hr. change (Forall minted (omap any_call (wr_Output r))). rewrite Hr. clear Hr.
  induction Hl as [|w l Hw Hl IH]; simpl; [fall|].
  unfold item_minted in Hw. destruct (any_call w) as [c|]; [|done]. apply List.Forall_cons; [|done].
  by apply List.Forall_inv in Hw.
Qed.

Lemma ensures_responseCreated r modal v mt md : ensures (responseCreated rand r modal v mt md) (Forall frame_minted).
Proof.
  unfold responseCreated. eapply ensures_bind; [apply ensures_newID|]. intros id _. cbv zeta.
  eapply ensures_bind; [apply ensures_put_resp|]. intros _ _.
  eapply (ensures_bind _ _ (fun _ => True)); [same|]. intros _ _.
  eapply ensures_bind; [apply ensures_responseObject; fall|]. intros w Hw. apply ensures_one, payload_ret.
  by eapply outputs_minted; [|exact Hw]; fall.
Qed.

Lemma ensures_responseDone r st re ec u l : ensures (responseDone rand r st re ec u l) (Forall frame_minted).
Proof.
  unfold responseDone. eapply ensures_bind; [apply ensures_resp|]. intros rs _.
  eapply ensures_bind; [apply (ensures_mapM _ item_minted)|].
  - intros it. eapply ensures_bind; [apply ensures_itemFor|]. intros s Hs. by apply ensures_itemBody.
  - intros out Hout. cbv zeta. eapply ensures_bind; [by apply ensures_responseObject|]. intros w Hw.
    apply ensures_one, payload_ret. by eapply outputs_minted.
Qed.

#[local] Hint Resolve ensures_delta ensures_done ensures_outputItemAdded ensures_outputItemDone ensures_toolArguments
  ensures_responseCreated ensures_responseDone : calls.

Lemma ensures_deleted a i x a' :
  modify_ (fun a => set_itemByID (delete i (itemByID a)) (set_items (delete x (items a)) a)) a = Some (tt, a') ->
  calls_minted a -> calls_minted a'.
Proof.
  intros [= <-] [H1 H2]. split; simpl; [done|]. intros r st H. apply lookup_delete_Some in H as [_ H]. by eapply H2.
Qed.

Lemma ensures_Outbound ev : ensures (Outbound rand ev) (Forall frame_minted).
Proof.
  destruct ev; cbn [Outbound]; try solve [ensuring].
  eapply ensures_bind; [apply ensures_item|]. intros st Hst. eapply (ensures_bind _ _ (fun _ => True)).
  - intros a [] a' H Ha. split; [by eapply ensures_deleted|done].
  - intros _ _. ensuring.
Qed.

Lemma ensures_project evs : ensures (project rand evs) (Forall frame_minted).
Proof.
  unfold project. eapply ensures_bind; [by apply (ensures_mapM _ (Forall frame_minted)), ensures_Outbound|].
  intros fss Hfss. apply ensures_ret. induction Hfss as [|fs fss Hfs _ IH]; simpl; [fall|]. by apply List.Forall_app.
Qed.

Lemma calls_minted_New sid mo d : calls_minted (Adapter.New rand sid mo d).
Proof. split; simpl; intros ? ? H; by rewrite lookup_empty in H. Qed.
End calls.

(** C17. A provider's call id never reaches the client: whatever events a
    session emits, every call id in every frame (items of any event,
    arguments deltas, the output of a finished response) is one the adapter
    drew, "call_" and a random part, or empty for an item never announced. *)
Theorem provider_call_id_hidden rand evs sid mo d fs a :
  project rand evs (Adapter.New rand sid mo d) = Some (fs, a) ->
  forall f c, List.In f fs -> List.In c (frame_calls f) -> c = EmptyString \/ exists n, c = "call_" ++ drawn rand n.
Proof.
  intros Hp f c Hf Hc. destruct (ensures_project rand evs _ _ _ Hp (calls_minted_New rand sid mo d)) as [_ Hfs].
  rewrite List.Forall_forall in Hfs. specialize (Hfs _ Hf). unfold frame_minted in Hfs. rewrite List.Forall_forall in Hfs.
  by apply Hfs.
Qed.

Definition call_frames : list frame * Adapter :=
  default ([], demo_adapter) (project demo_rand (out (demo_state None call_first)) demo_adapter).

Lemma provider_call_id_hidden_witness :
  2 < zlen (concat (map frame_calls call_frames.1)) /\
  forall f c, List.In f call_frames.1 -> List.In c (frame_calls f) -> c = EmptyString \/ exists n, c = "call_" ++ drawn demo_rand n.
Proof.
  split; [by vm_compute|].
  apply (provider_call_id_hidden demo_rand (out (demo_state None call_first)) "sess_1" EmptyString demo_cfg _ call_frames.2).
  by vm_compute.
Defined.
