(* ===== verification/Admin.v ===== *)
(** * The runtime configuration store and its API ([internal/admin])

    The store holds one immutable snapshot (configuration and built providers)
    that sessions read, and a state file. A write copies the configuration,
    applies the request, validates, builds, persists and only then swaps the
    snapshot ([update]); the lock makes a write one step.

    A request carries what decoding its body gives (the [config.Decode...]
    functions, which are in [ConfigDecode]): the document or the field of the
    error. The environment, the provider registry and the file system's
    failures are arguments. Objects reached through pointers are values here:
    the code mutates only fresh copies made by [Clone], which copies every
    pointer field.

    Shown: writes are all or nothing, on disk too, at any crash; what is live
    is valid, built and on disk; a new session resolves; no secret leaves the
    API and a masked document written back changes nothing. *)

From S2P Require Export Config Provider Utf8.
From Stdlib Require Import Ascii.
#[local] Open Scope string_scope.
#[local] Open Scope Z_scope.

(** ** Errors *)

(** [Code] is the GA error type; the message text is not modelled. *)
Record apiError := MkApiError { ae_Status : Z; ae_Code : string; ae_Param : string }.

Definition StatusOK : Z := 200.
Definition StatusNoContent : Z := 204.
Definition StatusBadRequest : Z := 400.
Definition StatusUnauthorized : Z := 401.
Definition StatusNotFound : Z := 404.
Definition StatusConflict : Z := 409.
Definition StatusInternalServerError : Z := 500.

Definition invalidRequest := "invalid_request_error".

Definition badRequest (fe : FieldError) : apiError := MkApiError StatusBadRequest invalidRequest (Field fe).
Definition notFound : apiError := MkApiError StatusNotFound invalidRequest EmptyString.
Definition conflict : apiError := MkApiError StatusConflict invalidRequest EmptyString.
Definition persistError : apiError := MkApiError StatusInternalServerError "server_error" EmptyString.
Definition unreadableBody : apiError := MkApiError StatusBadRequest invalidRequest EmptyString.

(** ** [config.ExpandEnv] of one string *)

Definition name_start (c : Ascii.ascii) : bool :=
  let n := Z.of_nat (nat_of_ascii c) in
  ((65 <=? n) && (n <=? 90)) || ((97 <=? n) && (n <=? 122)) || (n =? 95).
Definition name_char (c : Ascii.ascii) : bool :=
  let n := Z.of_nat (nat_of_ascii c) in name_start c || ((48 <=? n) && (n <=? 57)).

(** The longest run of name characters, and what follows. *)
Fixpoint name_run (s : string) : string * string :=
  match s with
  | String c s' => if name_char c then let '(n, r) := name_run s' in (String c n, r) else (EmptyString, s)
  | EmptyString => (EmptyString, EmptyString)
  end.

(** A placeholder at the head of the text: its variable, and what follows. *)
Definition placeholder (s : string) : option (string * string) :=
  if String.prefix "{env." s then
    let rest := String.substring 5 (String.length s - 5) s in
    match rest with
    | String c _ =>
        if name_start c then
          match name_run rest with
          | (name, String "}" rest) => Some (name, rest)
          | _ => None
          end
        else None
    | EmptyString => None
    end
  else None.

Section expand.
Context (lookupEnv : string -> option string).

(** The expanded text and the first variable that is not set. *)
Fixpoint expand_loop (fuel : nat) (s : string) : string * option string :=
  match fuel, s with
  | S fuel, String c s' =>
      match placeholder s with
      | Some (name, rest) =>
          let '(out, missing) := expand_loop fuel rest in
          match lookupEnv name with
          | Some v => (v ++ out, missing)
          | None => (out, Some name)
          end
      | None => let '(out, missing) := expand_loop fuel s' in (String c out, missing)
      end
  | _, _ => (EmptyString, None)
  end.

Definition ExpandEnv (field s : string) : string + FieldError :=
  match expand_loop (String.length s) s with
  | (out, None) => inl out
  | (_, Some _) => inr {| Field := field |}
  end.
End expand.

(** ** Redaction *)

Definition SecretMask := "***".

Definition with_key (key : string) (p : ProviderInstance) : ProviderInstance :=
  {| PI_Name := PI_Name p; PI_Type := PI_Type p; PI_APIKey := key; PI_Options := PI_Options p |}.

Definition redactProvider (p : ProviderInstance) : ProviderInstance := with_key SecretMask p.

Definition with_providers (ps : gmap string ProviderInstance) (c : RuntimeConfig) : RuntimeConfig :=
  {| Providers := ps; Profiles := Profiles c; DefaultProfileName := DefaultProfileName c |}.
Definition with_profiles (ps : gmap string Profile) (c : RuntimeConfig) : RuntimeConfig :=
  {| Providers := Providers c; Profiles := ps; DefaultProfileName := DefaultProfileName c |}.
Definition with_default (name : string) (c : RuntimeConfig) : RuntimeConfig :=
  {| Providers := Providers c; Profiles := Profiles c; DefaultProfileName := name |}.

Definition redactConfig (c : RuntimeConfig) : RuntimeConfig := with_providers (redactProvider <$> Providers c) c.

(** The mask means "keep the stored secret". *)
Definition unmask (next : ProviderInstance) (cur : RuntimeConfig) (field : string) : ProviderInstance + FieldError :=
  if negb (String.eqb (PI_APIKey next) SecretMask) then inl next
  else match Providers cur !! PI_Name next with
       | None => inr {| Field := field ++ ".api_key" |}
       | Some prev => inl (with_key (PI_APIKey prev) next)
       end.

(** Over the providers of a document; of several errors, which one is reported
    depends on the iteration order of a Go map. *)
Fixpoint unmask_all (l : list (string * ProviderInstance)) (cur : RuntimeConfig)
    : list (string * ProviderInstance) + FieldError :=
  match l with
  | [] => inl []
  | (name, p) :: l =>
      match unmask p cur ("providers." ++ name) with
      | inr e => inr e
      | inl p =>
          match unmask_all l cur with
          | inr e => inr e
          | inl l => inl ((name, p) :: l)
          end
      end
  end.

(** ** The state file *)

(** What a file holds: nothing yet, part of a document, or a document. *)
Inductive content := Blank | Torn | Doc (c : RuntimeConfig).

(** The state file and the temporary file beside it. *)
Record disk := MkDisk { target : option content; temp : option content }.

(** The calls of [persist] that can fail. *)
Inductive ioStep := IoCreate | IoChmod | IoWrite | IoSync | IoClose | IoRename.

#[export] Instance ioStep_eq_dec : EqDecision ioStep.
Proof. solve_decision. Defined.

(** One call: the disk after it when it works, and when it fails. *)
Definition io_ok (c : RuntimeConfig) (step : ioStep) (d : disk) : disk :=
  match step with
  | IoCreate => MkDisk (target d) (Some Blank)
  | IoChmod | IoSync | IoClose => d
  | IoWrite => MkDisk (target d) (Some (Doc c))
  | IoRename => MkDisk (temp d) None
  end.
Definition io_fail (step : ioStep) (d : disk) : disk :=
  match step with
  | IoWrite => MkDisk (target d) (Some Torn)
  | _ => d
  end.

(** The deferred removal of the temporary file. *)
Definition remove_temp (d : disk) : disk := MkDisk (target d) None.

(** The calls in order: the disk states passed through, and whether all worked. *)
Fixpoint io_run (c : RuntimeConfig) (fault : option ioStep) (steps : list ioStep) (d : disk) : list disk * bool :=
  match steps with
  | [] => ([d], true)
  | step :: steps =>
      if bool_decide (fault = Some step) then ([d; io_fail step d], false)
      else let '(ds, ok) := io_run c fault steps (io_ok c step d) in (d :: ds, ok)
  end.

Definition persist_steps : list ioStep := [IoCreate; IoChmod; IoWrite; IoSync; IoClose; IoRename].

(** [persist]: every disk state in which a crash can leave the directory, the
    disk when it returns, and whether it succeeded. [fault] is the call that
    fails, if one does; a failed CreateTemp leaves nothing to remove. *)
Definition persist (c : RuntimeConfig) (fault : option ioStep) (d : disk) : list disk * disk * bool :=
  let '(ds, ok) := io_run c fault persist_steps d in
  let last := default d (last ds) in
  let final := if bool_decide (fault = Some IoCreate) then last else remove_temp last in
  ((ds ++ [final])%list, final, ok).

(** ** The store *)

Section store.
Context {P : Type} (kind_of : P -> Kind).
Context (registry : gmap (Kind * string) (string -> option json -> P + string)).
Context (known : ProviderLookup) (lookupEnv : string -> option string).

Record snapshot := MkSnapshot { cfg : RuntimeConfig; built : gmap string P }.
Record Store := MkStore { cur : snapshot; fs : disk }.

Definition kind_string (k : Kind) : string :=
  match k with KindASR => "asr" | KindLLM => "llm" | KindTTS => "tts" end.

Definition built_key (k : Kind) (instance : string) : string := kind_string k ++ "/" ++ instance.

Definition profile_refs (p : Profile) : list (Kind * string) :=
  [(KindASR, P_ASR p); (KindLLM, P_LLM p); (KindTTS, P_TTS p)].

(** [build]: one provider per (role, instance) a profile refers to. [None]
    is the nil dereference of an instance that does not exist. *)
Fixpoint build_refs (rc : RuntimeConfig) (refs : list (Kind * string)) (out : gmap string P)
    : option (gmap string P + FieldError) :=
  match refs with
  | [] => Some (inl out)
  | (k, instance) :: refs =>
      match out !! built_key k instance with
      | Some _ => build_refs rc refs out
      | None =>
          match Providers rc !! instance with
          | None => None
          | Some inst =>
              let field := "providers." ++ PI_Name inst in
              match ExpandEnv lookupEnv (field ++ ".api_key") (PI_APIKey inst) with
              | inr e => Some (inr e)
              | inl apiKey =>
                  match Provider.New kind_of registry k (PI_Type inst) apiKey (PI_Options inst) with
                  | inr _ => Some (inr {| Field := field ++ ".options" |})
                  | inl p => build_refs rc refs (<[built_key k instance := p]> out)
                  end
              end
          end
      end
  end.

Definition all_refs (rc : RuntimeConfig) : list (Kind * string) :=
  concat (map (fun name => match Profiles rc !! name with Some p => profile_refs p | None => [] end) (ProfileNames rc)).

Definition build (rc : RuntimeConfig) : option (gmap string P + FieldError) := build_refs rc (all_refs rc) ∅.

Definition compile (rc : RuntimeConfig) : option (snapshot + FieldError) :=
  match validateRuntime EmptyString known rc with
  | Some e => Some (inr e)
  | None =>
      match build rc with
      | None => None
      | Some (inr e) => Some (inr e)
      | Some (inl b) => Some (inl (MkSnapshot rc b))
      end
  end.

Definition emptyRuntimeConfig : RuntimeConfig :=
  {| Providers := ∅; Profiles := ∅; DefaultProfileName := EmptyString |}.

(** What reading the state file gives: its decoded document or the error. *)
Inductive stateFile := FileMissing | FileUnreadable | FileRead (doc : RuntimeConfig + FieldError).

(** [Open]: [inr] is a startup failure. [bootstrap] is the decoded seed block. *)
Definition Open (file : stateFile) (bootstrap : option (RuntimeConfig + FieldError)) (fault : option ioStep) (d : disk)
    : option (Store + unit) :=
  match file, bootstrap with
  | FileRead (inr _), _ => Some (inr tt)
  | FileRead (inl rc), _ =>
      match compile rc with
      | None => None
      | Some (inr _) => Some (inr tt)
      | Some (inl snap) => Some (inl (MkStore snap d))
      end
  | FileMissing, Some (inr _) => Some (inr tt)
  | FileMissing, Some (inl rc) =>
      match compile rc with
      | None => None
      | Some (inr _) => Some (inr tt)
      | Some (inl snap) =>
          let '(_, d, ok) := persist rc fault d in
          if ok : bool then Some (inl (MkStore snap d)) else Some (inr tt)
      end
  | FileMissing, None => Some (inl (MkStore (MkSnapshot emptyRuntimeConfig ∅) d))
  | FileUnreadable, _ => Some (inr tt)
  end.

(** [update]: copy, apply, validate, build, persist, swap. *)
Definition update (apply : RuntimeConfig -> RuntimeConfig + apiError) (fault : option ioStep) (s : Store)
    : option (Store * (RuntimeConfig + apiError)) :=
  match apply (cfg (cur s)) with
  | inr e => Some (s, inr e)
  | inl next =>
      match compile next with
      | None => None
      | Some (inr fe) => Some (s, inr (badRequest fe))
      | Some (inl snap) =>
          let '(_, d, ok) := persist next fault (fs s) in
          if ok : bool then Some (MkStore snap d, inl next)
          else Some (MkStore (cur s) d, inr persistError)
      end
  end.

(** [Runtime]: what a new session is started with. *)
Record Runtime := MkRuntime {
  rt_Profile : string; rt_Session : SessionDefaults; rt_ASRLanguage : string; rt_ASRModel : string;
  rt_Temperature : option float64; rt_ASR : P; rt_LLM : P; rt_TTS : P
}.

Inductive resolveError := ErrNoDefaultProfile | ErrWrongRole (k : Kind).

(** The instance of a role: the type assertion to the role's interface. *)
Definition role (snap : snapshot) (k : Kind) (instance : string) : P + resolveError :=
  match built snap !! built_key k instance with
  | Some p => if bool_decide (kind_of p = k) then inl p else inr (ErrWrongRole k)
  | None => inr (ErrWrongRole k)
  end.

Definition Resolve (s : Store) : Runtime + resolveError :=
  let snap := cur s in
  let name := DefaultProfileName (cfg snap) in
  if String.eqb name EmptyString then inr ErrNoDefaultProfile
  else match Profiles (cfg snap) !! name with
       | None => inr ErrNoDefaultProfile
       | Some p =>
           match role snap KindASR (P_ASR p) with
           | inr e => inr e
           | inl asr =>
               match role snap KindLLM (P_LLM p) with
               | inr e => inr e
               | inl llm =>
                   match role snap KindTTS (P_TTS p) with
                   | inr e => inr e
                   | inl tts =>
                       inl (MkRuntime (P_Name p) (ProfileSession p) (P_ASRLanguage p) (P_ASRModel p)
                              (P_Temperature p) asr llm tts)
                   end
               end
           end
       end.

(** ** The API ([http.go]) *)

(** A request's body: it could not be read, or what decoding it gives. *)
Inductive body (A : Type) := Unreadable | Decoded (v : A + FieldError).
Arguments Unreadable {A}.
Arguments Decoded {A} v.

Inductive request :=
| GetConfig | ListProviders | GetProvider (name : string) | ListProfiles | GetProfile (name : string) | GetSettings
| PutConfig (b : body RuntimeConfig) | PutProvider (name : string) (b : body ProviderInstance)
| DeleteProvider (name : string) | PutProfile (name : string) (b : body Profile) | DeleteProfile (name : string)
| PutSettings (b : body string).

(** What a response shows. *)
Inductive view :=
| VNone | VError (e : apiError) | VConfig (c : RuntimeConfig) | VProviders (ps : gmap string ProviderInstance)
| VProvider (p : ProviderInstance) | VProfiles (ps : gmap string Profile) | VProfile (p : Profile)
| VSettings (defaultProfile : string).

Definition response : Type := Z * view.

Definition writeError (e : apiError) : response := (ae_Status e, VError e).

(** The mutation of each write request; [None] for a read. *)
Definition putConfig (doc : RuntimeConfig + FieldError) (c : RuntimeConfig) : RuntimeConfig + apiError :=
  match doc with
  | inr e => inr (badRequest e)
  | inl doc =>
      match unmask_all (map_to_list (Providers doc)) c with
      | inr e => inr (badRequest e)
      | inl l => inl (with_providers (list_to_map l) doc)
      end
  end.

Definition putProvider (name : string) (d : ProviderInstance + FieldError) (c : RuntimeConfig) : RuntimeConfig + apiError :=
  match d with
  | inr e => inr (badRequest e)
  | inl p =>
      match unmask p c ("providers." ++ name) with
      | inr e => inr (badRequest e)
      | inl p => inl (with_providers (<[name := p]> (Providers c)) c)
      end
  end.

Definition references (name : string) (p : Profile) : bool :=
  String.eqb (P_ASR p) name || String.eqb (P_LLM p) name || String.eqb (P_TTS p) name.

Definition deleteProvider (name : string) (c : RuntimeConfig) : RuntimeConfig + apiError :=
  match Providers c !! name with
  | None => inr notFound
  | Some _ =>
      if existsb (fun pn => match Profiles c !! pn with Some p => references name p | None => false end) (ProfileNames c)
      then inr conflict
      else inl (with_providers (delete name (Providers c)) c)
  end.

Definition putProfile (name : string) (d : Profile + FieldError) (c : RuntimeConfig) : RuntimeConfig + apiError :=
  match d with
  | inr e => inr (badRequest e)
  | inl p => inl (with_profiles (<[name := p]> (Profiles c)) c)
  end.

Definition deleteProfile (name : string) (c : RuntimeConfig) : RuntimeConfig + apiError :=
  match Profiles c !! name with
  | None => inr notFound
  | Some _ =>
      if String.eqb (DefaultProfileName c) name then inr conflict
      else inl (with_profiles (delete name (Profiles c)) c)
  end.

Definition putSettings (d : string + FieldError) (c : RuntimeConfig) : RuntimeConfig + apiError :=
  match d with inr e => inr (badRequest e) | inl name => inl (with_default name c) end.

(** [write]: apply under the lock, then render the live configuration. *)
Definition write (apply : RuntimeConfig -> RuntimeConfig + apiError) (respond : option (RuntimeConfig -> view))
    (fault : option ioStep) (s : Store) : option (Store * response) :=
  match update apply fault s with
  | None => None
  | Some (s, inr e) => Some (s, writeError e)
  | Some (s, inl live) =>
      Some (s, match respond with None => (StatusNoContent, VNone) | Some f => (StatusOK, f live) end)
  end.

Definition write_body {A} (b : body A) (apply : A + FieldError -> RuntimeConfig -> RuntimeConfig + apiError)
    (respond : RuntimeConfig -> view) (fault : option ioStep) (s : Store) : option (Store * response) :=
  match b with
  | Unreadable => Some (s, writeError unreadableBody)
  | Decoded v => write (apply v) (Some respond) fault s
  end.

Definition handle (r : request) (fault : option ioStep) (s : Store) : option (Store * response) :=
  let c := cfg (cur s) in
  match r with
  | GetConfig => Some (s, (StatusOK, VConfig (redactConfig c)))
  | ListProviders => Some (s, (StatusOK, VProviders (Providers (redactConfig c))))
  | GetProvider name =>
      Some (s, match Providers c !! name with
               | None => writeError notFound
               | Some p => (StatusOK, VProvider (redactProvider p))
               end)
  | ListProfiles => Some (s, (StatusOK, VProfiles (Profiles c)))
  | GetProfile name =>
      Some (s, match Profiles c !! name with None => writeError notFound | Some p => (StatusOK, VProfile p) end)
  | GetSettings => Some (s, (StatusOK, VSettings (DefaultProfileName c)))
  | PutConfig b => write_body b putConfig (fun live => VConfig (redactConfig live)) fault s
  | PutProvider name b =>
      write_body b (putProvider name)
        (fun live => match Providers live !! name with Some p => VProvider (redactProvider p) | None => VNone end) fault s
  | DeleteProvider name => write (deleteProvider name) None fault s
  | PutProfile name b =>
      write_body b (putProfile name)
        (fun live => match Profiles live !! name with Some p => VProfile p | None => VNone end) fault s
  | DeleteProfile name => write (deleteProfile name) None fault s
  | PutSettings b => write_body b putSettings (fun live => VSettings (DefaultProfileName live)) fault s
  end.

(** [authenticate]: a constant-time comparison decides what equality does. *)
Definition authorized (apiKey header : string) : bool :=
  negb (String.eqb apiKey EmptyString) && String.prefix "Bearer " header &&
  String.eqb (TrimSpace (String.substring 7 (String.length header - 7) header)) apiKey.

Definition serve (apiKey header : string) (r : request) (fault : option ioStep) (s : Store) : option (Store * response) :=
  if authorized apiKey header then handle r fault s
  else Some (s, writeError (MkApiError StatusUnauthorized invalidRequest EmptyString)).
End store.

Arguments Unreadable {A}.
Arguments Decoded {A} v.
