(* ===== verification/AdminProps.v ===== *)
(** * Properties of the runtime configuration store

    [store_ok]: the live snapshot is what compiling its configuration gives,
    and the state file holds that configuration (or does not exist and the
    configuration is empty). The properties are about every store a start and
    any sequence of requests, with any failing calls, can reach. *)

From S2P Require Export Admin.
#[local] Open Scope string_scope.
#[local] Open Scope Z_scope.

(** ** The state file *)

(** A run of calls leaves the target alone until the rename. *)
Lemma io_run_target c fault steps d : forall ds ok, io_run c fault steps d = (ds, ok) ->
  (IoRename ∉ steps -> Forall (fun d' => target d' = target d) ds).
Proof.
  revert d. induction steps as [|step steps IH]; intros d ds ok H Hn; simpl in H.
  - injection H as <- <-. by repeat constructor.
  - apply not_elem_of_cons in Hn as [Hne Hn]. destruct (bool_decide _).
    + injection H as <- <-. repeat constructor. by destruct step.
    + destruct (io_run c fault steps (io_ok c step d)) as [ds' ok'] eqn:E. injection H as <- <-.
      constructor; [done|]. replace (target d) with (target (io_ok c step d)) by (by destruct step).
      by eapply IH.
Qed.

(** What [persist] leaves: on every disk state the old target or the new
    document; it succeeds exactly when no call fails, then the target is the
    document, else the target is the old one; no temporary file stays. *)
Definition persist_spec (c : RuntimeConfig) (fault : option ioStep) (d : disk) (ds : list disk) (d' : disk) (ok : bool) : Prop :=
  Forall (fun x => target x = target d \/ target x = Some (Doc c)) ds /\
  ok = bool_decide (fault = None) /\ target d' = (if ok then Some (Doc c) else target d) /\
  (temp d = None -> temp d' = None).

Lemma persist_ok c fault d ds d' ok : persist c fault d = (ds, d', ok) -> persist_spec c fault d ds d' ok.
Proof.
  unfold persist_spec. destruct fault as [[]|]; intros [= <- <- <-]; cbn;
    (split; [repeat constructor; simpl; auto|]; done).
Qed.

Section store.
Context {P : Type} (kind_of : P -> Kind).
Context (registry : gmap (Kind * string) (string -> option json -> P + string)).
Context (known : ProviderLookup) (lookupEnv : string -> option string).

Abbreviation compile := (compile kind_of registry known lookupEnv).
Abbreviation build_refs := (build_refs kind_of registry lookupEnv).
Abbreviation update := (update kind_of registry known lookupEnv).
Abbreviation Open := (Open kind_of registry known lookupEnv).
Abbreviation serve := (serve kind_of registry known lookupEnv).
Abbreviation Store := (Store (P := P)).

(** ** Building *)

Lemma built_key_inj k i k' i' : built_key k i = built_key k' i' -> k = k' /\ i = i'.
Proof.
  intros H. assert (Hk : k = k') by (apply (f_equal (String.get 0)) in H; destruct k, k'; try done; discriminate H).
  subst k'. split; [done|]. unfold built_key in H.
  by do 2 apply (inj (String.append _)) in H.
Qed.

Definition roles_ok (out : gmap string P) : Prop := forall k i p, out !! built_key k i = Some p -> kind_of p = k.

Lemma build_refs_total rc refs : (forall k i, (k, i) ∈ refs -> is_Some (Providers rc !! i)) ->
  forall out, exists r, build_refs rc refs out = Some r.
Proof.
  induction refs as [|[k i] refs IH]; intros Hr out; simpl; [by eexists|].
  assert (Hr' : forall k i, (k, i) ∈ refs -> is_Some (Providers rc !! i)) by (intros k' i' ?; apply (Hr k' i'); by right).
  destruct (out !! built_key k i); [by apply IH|]. destruct (Hr k i) as [inst ->]; [by left|].
  destruct (ExpandEnv _ _ _) as [key|e]; [|by eexists]. destruct (Provider.New _ _ _ _ _ _); [by apply IH|by eexists].
Qed.

Lemma build_refs_covers rc refs : forall out res, build_refs rc refs out = Some (inl res) -> roles_ok out ->
  roles_ok res /\ (forall key p, out !! key = Some p -> is_Some (res !! key)) /\
  forall k i, (k, i) ∈ refs -> is_Some (res !! built_key k i).
Proof.
  induction refs as [|[k i] refs IH]; intros out res H Hout; simpl in H.
  - injection H as <-. split; [done|]. split; [by eauto|]. intros k i Hin. by apply elem_of_nil in Hin.
  - destruct (out !! built_key k i) as [p|] eqn:E.
    + destruct (IH _ _ H Hout) as (H1 & H2 & H3). split; [done|]. split; [done|].
      intros k' i' [[= -> ->]|Hin]%elem_of_cons; [by eapply H2|by apply H3].
    + destruct (Providers rc !! i) as [inst|]; [|done]. destruct (ExpandEnv _ _ _) as [key|e]; [|done].
      destruct (Provider.New _ _ _ _ _ _) as [p|e] eqn:Hn; [|done]. apply New_kind in Hn.
      destruct (IH _ _ H) as (H1 & H2 & H3).
      { intros k' i' p' Hl. apply lookup_insert_Some in Hl as [[Hk <-]|[_ Hl]]; [|by eapply Hout].
        by apply built_key_inj in Hk as [<- _]. }
      split; [done|]. split.
      * intros key' p' Hl. destruct (decide (key' = built_key k i)) as [->|Hne]; [by rewrite E in Hl|].
        apply (H2 key' p'). by rewrite lookup_insert_ne.
      * intros k' i' [[= -> ->]|Hin]%elem_of_cons; [|by apply H3]. apply (H2 _ p). by rewrite lookup_insert_eq.
Qed.

(** A provider of the right role for every reference of every profile. *)
Definition covers (snap : snapshot (P := P)) : Prop := forall name p k i,
  Profiles (cfg snap) !! name = Some p -> (k, i) ∈ profile_refs p ->
  exists q, built snap !! built_key k i = Some q /\ kind_of q = k.

Lemma elem_of_all_refs rc name p k i : Profiles rc !! name = Some p -> (k, i) ∈ profile_refs p -> (k, i) ∈ all_refs rc.
Proof.
  intros Hp Hr. unfold all_refs. apply list_elem_of_In, List.in_concat.
  exists (match Profiles rc !! name with Some p => profile_refs p | None => [] end). split.
  - apply List.in_map_iff. exists name. split; [done|]. apply list_elem_of_In. unfold ProfileNames.
    rewrite elem_of_sortedKeys. by eexists.
  - rewrite Hp. by apply list_elem_of_In.
Qed.

Lemma all_refs_inv rc k i : (k, i) ∈ all_refs rc -> exists name p, Profiles rc !! name = Some p /\ (k, i) ∈ profile_refs p.
Proof.
  unfold all_refs. intros Hin%list_elem_of_In. apply List.in_concat in Hin as (l & Hl & Hin).
  apply List.in_map_iff in Hl as (name & <- & _). destruct (Profiles rc !! name) as [p|] eqn:E; [|done].
  exists name, p. split; [done|]. by apply list_elem_of_In.
Qed.

Lemma valid_refs rc name p k i : validateRuntime EmptyString known rc = None -> Profiles rc !! name = Some p ->
  (k, i) ∈ profile_refs p -> is_Some (Providers rc !! i).
Proof.
  intros Hv Hp Hin. destruct (runtime_refs EmptyString known rc Hv) as [Hr _].
  destruct (Hr name p Hp) as (_ & Ha & Hl & Ht & _).
  unfold profile_refs in Hin. rewrite !elem_of_cons in Hin.
  destruct Hin as [[= -> ->]|[[= -> ->]|[[= -> ->]|Hin]]]; [..|by apply elem_of_nil in Hin];
    [destruct Ha as (inst & Hi & _)|destruct Hl as (inst & Hi & _)|destruct Ht as (inst & Hi & _)]; by exists inst.
Qed.

Lemma compile_total rc : exists r, compile rc = Some r.
Proof.
  unfold Admin.compile. destruct (validateRuntime EmptyString known rc) as [e|] eqn:Hv; [by eexists|].
  unfold build. destruct (build_refs_total rc (all_refs rc)) with (out := ∅ : gmap string P) as [r Hr].
  { intros k i (name & p & Hp & Hin)%all_refs_inv. by eapply valid_refs. }
  rewrite Hr. destruct r; by eexists.
Qed.

Lemma compile_spec rc snap : compile rc = Some (inl snap) ->
  cfg snap = rc /\ validateRuntime EmptyString known rc = None /\ covers snap.
Proof.
  unfold Admin.compile. destruct (validateRuntime EmptyString known rc) as [e|] eqn:Hv; [done|].
  destruct (build kind_of registry lookupEnv rc) as [[b|e]|] eqn:Hb; [|done|done]. intros [= <-].
  split; [done|]. split; [done|]. destruct (build_refs_covers _ _ _ _ Hb) as (Hk & _ & Hc).
  { intros k i p Hl. by rewrite lookup_empty in Hl. }
  intros name p k i Hp Hin. destruct (Hc k i) as [q Hq]; [by eapply elem_of_all_refs|].
  exists q. split; [done|]. by eapply Hk.
Qed.

(** ** The invariant *)

Definition on_disk (s : Store) : Prop :=
  target (fs s) = Some (Doc (cfg (cur s))) \/ (target (fs s) = None /\ cfg (cur s) = emptyRuntimeConfig).

Definition store_ok (s : Store) : Prop := compile (cfg (cur s)) = Some (inl (cur s)) /\ on_disk s.

(** What the state file reads as: a document that was written reads back (of a
    configuration that was decoded and checked, [ConfigDecode.stored_config_reads_back]
    shows it, under its hypotheses), a torn one does not decode. *)
Definition read_of (d : disk) : stateFile :=
  match target d with
  | None => FileMissing
  | Some (Doc c) => FileRead (inl c)
  | Some _ => FileRead (inr {| Field := "(root)" |})
  end.

(** Stores after a start on any disk and any requests, whatever calls fail. *)
Inductive reachable : Store -> Prop :=
| reach_open boot fault d s : Open (read_of d) boot fault d = Some (inl s) -> reachable s
| reach_serve apiKey header r fault s s' resp : reachable s ->
    serve apiKey header r fault s = Some (s', resp) -> reachable s'.

Lemma compile_empty : compile emptyRuntimeConfig = Some (inl (MkSnapshot emptyRuntimeConfig ∅)).
Proof. reflexivity. Qed.

Lemma Open_spec boot fault d : exists r, Open (read_of d) boot fault d = Some r /\ forall s, r = inl s -> store_ok s.
Proof.
  assert (Hc : forall rc snap d', compile rc = Some (inl snap) -> target d' = Some (Doc rc) -> store_ok (MkStore snap d')).
  { intros rc snap d' H Ht. destruct (compile_spec _ _ H) as (<- & _). split; [done|]. by left. }
  unfold read_of, Admin.Open. destruct (target d) as [[]|] eqn:Ht; try by eexists.
  - destruct (compile_total c) as [[snap|e] H]; rewrite H; eexists; (split; [done|]); [|done].
    intros s [= <-]. by eapply Hc.
  - destruct boot as [[rc|e]|]; [|by eexists|].
    + destruct (compile_total rc) as [[snap|e] H]; rewrite H; [|by eexists].
      destruct (persist rc fault d) as [[ds d'] ok] eqn:Hp. apply persist_ok in Hp as (_ & _ & Htd & _).
      destruct ok; eexists; (split; [done|]); [|done]. intros s [= <-]. by eapply Hc.
    + eexists. split; [done|]. intros s [= <-]. split; [apply compile_empty|]. by right.
Qed.

(** One write: it never panics; either nothing changed, or what is live was
    built from what was asked and is on disk. *)
Lemma update_spec apply fault s : store_ok s -> exists s' r, update apply fault s = Some (s', r) /\ store_ok s' /\
  match r with
  | inr _ => cur s' = cur s /\ target (fs s') = target (fs s)
  | inl next => apply (cfg (cur s)) = inl next /\ cfg (cur s') = next /\ target (fs s') = Some (Doc next)
  end.
Proof.
  intros Hs. unfold Admin.update. destruct (apply (cfg (cur s))) as [next|e]; [|by exists s, (inr e)].
  destruct (compile_total next) as [[snap|fe] Hc]; rewrite Hc; [|by eexists _, _].
  destruct (persist next fault (fs s)) as [[ds d] ok] eqn:Hp. apply persist_ok in Hp as (_ & _ & Ht & _).
  destruct (compile_spec _ _ Hc) as (Hcfg & _). destruct ok; eexists _, _; (split; [done|]).
  - split; [split; simpl; [by rewrite Hcfg|left; simpl; by rewrite Hcfg]|]. by repeat split.
  - split; [|done]. destruct Hs as [Hc' Hd]. split; [done|]. unfold on_disk in *. simpl. by rewrite Ht.
Qed.

(** A response of success. *)
Definition success (st : Z) : bool := (st =? StatusOK) || (st =? StatusNoContent).

Definition write_outcome (s s' : Store) (resp : response) : Prop :=
  (cur s' = cur s /\ target (fs s') = target (fs s)) \/
  (success resp.1 = true /\ target (fs s') = Some (Doc (cfg (cur s')))).

Definition apply_status (apply : RuntimeConfig -> RuntimeConfig + apiError) : Prop :=
  forall c e, apply c = inr e -> success (ae_Status e) = false.

Lemma write_spec apply respond fault s : store_ok s -> exists s' resp,
  write kind_of registry known lookupEnv apply respond fault s = Some (s', resp) /\ store_ok s' /\ write_outcome s s' resp.
Proof.
  intros Hs. unfold write. destruct (update_spec apply fault s Hs) as (s' & r & -> & Hs' & Hr).
  destruct r as [next|e]; eexists _, _; (split; [done|]; split; [done|]).
  - right. destruct Hr as (_ & -> & Ht). split; [by destruct respond|done].
  - by left.
Qed.

Lemma write_body_spec {A} (b : body A) apply respond fault s : store_ok s -> exists s' resp,
  write_body kind_of registry known lookupEnv b apply respond fault s = Some (s', resp) /\ store_ok s' /\ write_outcome s s' resp.
Proof. intros Hs. destruct b as [|v]; [eexists _, _; split; [done|]; split; [done|by left]|]. by apply write_spec. Qed.

Lemma serve_spec apiKey header r fault s : store_ok s -> exists s' resp,
  serve apiKey header r fault s = Some (s', resp) /\ store_ok s' /\ write_outcome s s' resp.
Proof.
  intros Hs. unfold Admin.serve. destruct (authorized apiKey header); [|eexists _, _; split; [done|]; split; [done|by left]].
  destruct r; simpl; try (eexists _, _; split; [done|]; split; [done|by left]);
    [apply write_body_spec|apply write_body_spec|apply write_spec|apply write_body_spec|apply write_spec|apply write_body_spec];
    done.
Qed.

Lemma reachable_ok s : reachable s -> store_ok s.
Proof.
  induction 1 as [boot fault d s H|apiKey header r fault s s' resp _ IH H].
  - destruct (Open_spec boot fault d) as (r & Hr & Hs). apply Hs. congruence.
  - destruct (serve_spec apiKey header r fault s IH) as (s2 & resp2 & H2 & Hs & _). congruence.
Qed.

(** C18. What is live is valid, built and on disk: after a start on any state
    file and any requests, authorized or not, well-formed or not, whatever
    call of a write fails, the live configuration validates, every role of
    every profile has a built provider of that role, and the state file holds
    exactly the live configuration (or there is none and nothing is
    configured). From such a store every request is answered without a panic,
    and either it changed nothing, live or on disk, or it reports success and
    the configuration now live is the one on disk. *)
Theorem store_live_valid s : reachable s ->
  validateRuntime EmptyString known (cfg (cur s)) = None /\ covers (cur s) /\ on_disk s /\
  forall apiKey header r fault, exists s' resp,
    serve apiKey header r fault s = Some (s', resp) /\ write_outcome s s' resp.
Proof.
  intros Hr. pose proof (reachable_ok s Hr) as Hs. destruct (compile_spec _ _ (proj1 Hs)) as (_ & Hv & Hc).
  split; [done|]. split; [done|]. split; [apply Hs|]. intros apiKey header r fault.
  destruct (serve_spec apiKey header r fault s Hs) as (s' & resp & H & _ & Ho). by exists s', resp.
Qed.

(** C19. A crash never loses the configuration: at whatever point of a write
    the process dies (each call of the write may also fail), a restart reads
    the configuration from before the write or the one being written, whole,
    and starts with it; a failed call leaves the old one and no temporary
    file. *)
Theorem restart_after_crash s next snap fault ds d' ok d1 boot fault' : reachable s ->
  target (fs s) <> None -> compile next = Some (inl snap) -> persist next fault (fs s) = (ds, d', ok) ->
  List.In d1 ds ->
  (exists s1, Open (read_of d1) boot fault' d1 = Some (inl s1) /\
     (cfg (cur s1) = cfg (cur s) \/ cfg (cur s1) = next)) /\
  (ok = false -> target d' = target (fs s) /\ (temp (fs s) = None -> temp d' = None)).
Proof.
  intros Hr Hne Hn Hp Hin. destruct (reachable_ok s Hr) as [Hc [Ht|[Ht _]]]; [|done].
  apply persist_ok in Hp as (Hds & _ & Htd & Htmp). rewrite Forall_forall in Hds.
  split; [|intros ->; by split].
  assert (Hopen : forall c sn, compile c = Some (inl sn) -> target d1 = Some (Doc c) ->
    Open (read_of d1) boot fault' d1 = Some (inl (MkStore sn d1))).
  { intros c sn H H1. unfold read_of, Admin.Open. rewrite H1. by rewrite H. }
  destruct (Hds d1) as [H1|H1]; [by apply list_elem_of_In| |].
  - rewrite Ht in H1. exists (MkStore (cur s) d1). split; [by apply Hopen with (cfg (cur s))|by left].
  - exists (MkStore snap d1). split; [by apply Hopen with next|]. right. by apply compile_spec.
Qed.

Lemma role_covered snap name p k i : covers snap -> Profiles (cfg snap) !! name = Some p -> (k, i) ∈ profile_refs p ->
  exists q, role kind_of snap k i = inl q /\ kind_of q = k.
Proof.
  intros Hc Hp Hin. destruct (Hc name p k i Hp Hin) as (q & Hq & Hk). exists q. unfold role. rewrite Hq, Hk.
  by rewrite bool_decide_eq_true_2.
Qed.

(** A new session always resolves: with a default profile set, the
    session gets that profile's session object, which passes the session
    validator, and three providers, each of its role; without one it is
    refused with ErrNoDefaultProfile. The "does not implement" errors of the
    code cannot happen. *)
Theorem resolve_exact s : reachable s ->
  match Resolve kind_of s with
  | inr e => e = ErrNoDefaultProfile /\ DefaultProfileName (cfg (cur s)) = EmptyString
  | inl rt => exists p,
      Profiles (cfg (cur s)) !! DefaultProfileName (cfg (cur s)) = Some p /\ rt_Session rt = ProfileSession p /\
      Validate "session" (rt_Session rt) = None /\
      kind_of (rt_ASR rt) = KindASR /\ kind_of (rt_LLM rt) = KindLLM /\ kind_of (rt_TTS rt) = KindTTS
  end.
Proof.
  intros Hr. pose proof (reachable_ok s Hr) as Hs. destruct (compile_spec _ _ (proj1 Hs)) as (_ & Hv & Hc).
  destruct (runtime_refs EmptyString known _ Hv) as [Hp Hd]. unfold Resolve.
  destruct (String.eqb_spec (DefaultProfileName (cfg (cur s))) EmptyString) as [|Hne]; [done|].
  destruct (Hd Hne) as [p Hpd]. rewrite Hpd. destruct (Hp _ _ Hpd) as (_ & _ & _ & _ & Hval).
  destruct (role_covered _ _ _ KindASR (P_ASR p) Hc Hpd) as (qa & -> & Ha); [by left|].
  destruct (role_covered _ _ _ KindLLM (P_LLM p) Hc Hpd) as (ql & -> & Hl); [by right; left|].
  destruct (role_covered _ _ _ KindTTS (P_TTS p) Hc Hpd) as (qt & -> & Ht); [by right; right; left|].
  exists p. by repeat split.
Qed.

(** ** Secrets *)

(** The API keys a response shows. *)
Definition view_keys (v : view) : list string :=
  match v with
  | VConfig c => map (fun kp => PI_APIKey kp.2) (map_to_list (Providers c))
  | VProviders ps => map (fun kp => PI_APIKey kp.2) (map_to_list ps)
  | VProvider p => [PI_APIKey p]
  | _ => []
  end.

Lemma redacted_keys c k : List.In k (map (fun kp => PI_APIKey kp.2) (map_to_list (Providers (redactConfig c)))) -> k = SecretMask.
Proof.
  intros ([name p] & <- & Hin)%List.in_map_iff. apply list_elem_of_In, elem_of_map_to_list in Hin. simpl in Hin.
  apply lookup_fmap_Some in Hin as (p' & <- & _). done.
Qed.

Lemma write_masked apply respond fault s s' resp k : (forall c f, respond = Some f -> forall k, List.In k (view_keys (f c)) -> k = SecretMask) ->
  write kind_of registry known lookupEnv apply respond fault s = Some (s', resp) -> List.In k (view_keys resp.2) -> k = SecretMask.
Proof.
  intros Hf. unfold write. destruct (update apply fault s) as [[s2 [live|e]]|]; [| |done]; intros [= <- <-]; [|done].
  destruct respond as [f|]; simpl; [by apply Hf|done].
Qed.

Lemma write_body_masked {B} (b : body B) apply respond fault s s' resp k : (forall c k, List.In k (view_keys (respond c)) -> k = SecretMask) ->
  write_body kind_of registry known lookupEnv b apply respond fault s = Some (s', resp) -> List.In k (view_keys resp.2) -> k = SecretMask.
Proof.
  intros Hf. destruct b as [|v]; simpl; [by intros [= <- <-]|]. apply write_masked. intros c f [= <-]. apply Hf.
Qed.

(** C20. No secret leaves the API: every API key in the body of any response,
    to any request and whatever fails, is the mask. *)
Theorem secrets_stay apiKey header r fault s s' resp k : serve apiKey header r fault s = Some (s', resp) ->
  List.In k (view_keys resp.2) -> k = SecretMask.
Proof.
  unfold Admin.serve. destruct (authorized apiKey header); [|by intros [= <- <-]].
  destruct r; cbn [handle].
  1-6: intros [= <- <-]; simpl; try done.
  - apply redacted_keys.
  - apply redacted_keys.
  - destruct (_ !! name); simpl; [|done]. by intros [<-|[]].
  - by destruct (_ !! name).
  - apply write_body_masked. intros c k'. apply redacted_keys.
  - apply write_body_masked. intros c k'. destruct (_ !! name); simpl; [|done]. by intros [<-|[]].
  - by apply write_masked.
  - apply write_body_masked. intros c k'. by destruct (_ !! name).
  - by apply write_masked.
  - by apply write_body_masked.
Qed.

(** ** A masked document *)

Lemma unmask_redacted p c field : Providers c !! PI_Name p = Some p -> unmask (redactProvider p) c field = inl p.
Proof. intros H. unfold unmask. simpl. rewrite H. by destruct p. Qed.

Lemma unmask_all_redacted c l : (forall name p, (name, p) ∈ l -> Providers c !! PI_Name p = Some p) ->
  unmask_all (map (prod_map id redactProvider) l) c = inl l.
Proof.
  induction l as [|[name p] l IH]; intros H; [done|]. cbn [map prod_map unmask_all].
  change (prod_map id redactProvider (name, p)) with (name, redactProvider p). cbv iota.
  rewrite unmask_redacted by (apply (H name p); by left). rewrite IH; [done|]. intros n q Hq. apply (H n q). by right.
Qed.

Lemma putConfig_redacted c : (forall name p, Providers c !! name = Some p -> PI_Name p = name) ->
  putConfig (inl (redactConfig c)) c = inl c.
Proof.
  intros Hn. unfold putConfig, redactConfig. cbn [Providers with_providers].
  rewrite map_to_list_fmap. change (prod_map id redactProvider <$> map_to_list (Providers c)) with
    (map (prod_map id redactProvider) (map_to_list (Providers c))).
  rewrite unmask_all_redacted.
  - unfold with_providers. simpl. rewrite list_to_map_to_list. by destruct c.
  - intros name p Hp%elem_of_map_to_list. by rewrite (Hn _ _ Hp).
Qed.

Lemma valid_names rc name p : validateRuntime EmptyString known rc = None -> Providers rc !! name = Some p -> PI_Name p = name.
Proof.
  unfold validateRuntime. rewrite and_then_None. intros [Hv _] Hp.
  pose proof (first_error_keys (fun name p => validateProvider (EmptyString ++ "providers." ++ name) name p known) (Providers rc) Hv name p Hp) as H.
  unfold validateProvider in H. apply and_then_None in H as [H _]. by apply reject_if_None, negb_bool_decide_false in H.
Qed.

(** Read, then write back: a client that PUTs the configuration it was
    shown, with every secret masked, gets 200 and changes nothing: every
    stored secret is kept, the live snapshot and the state file are what they
    were. *)
Theorem masked_write_back apiKey header s : reachable s -> authorized apiKey header = true ->
  exists s', serve apiKey header (PutConfig (Decoded (inl (redactConfig (cfg (cur s)))))) None s =
      Some (s', (StatusOK, VConfig (redactConfig (cfg (cur s))))) /\
    cur s' = cur s /\ target (fs s') = Some (Doc (cfg (cur s))).
Proof.
  intros Hr Ha. pose proof (reachable_ok s Hr) as [Hc Hd]. destruct (compile_spec _ _ Hc) as (_ & Hv & _).
  unfold Admin.serve. rewrite Ha. simpl. unfold write, Admin.update.
  rewrite putConfig_redacted by (intros name p; by apply valid_names). rewrite Hc.
  destruct (persist (cfg (cur s)) None (fs s)) as [[ds d] ok] eqn:Hp. apply persist_ok in Hp as (_ & -> & Ht & _).
  simpl in *. eexists. split; [reflexivity|]. split; [done|exact Ht].
Qed.
End store.

(** ** An instance *)

(** Providers that only know their role and credential. *)
Definition demo_registry : gmap (Kind * string) (string -> option json -> (Kind * string) + string) :=
  let f k := fun (key : string) (_ : option json) => inl (k, key) in
  {[ (KindASR, "mock") := f KindASR; (KindLLM, "mock") := f KindLLM; (KindTTS, "mock") := f KindTTS ]}.

Definition demo_known : ProviderLookup := Some (fun _ ty => String.eqb ty "mock").
Definition demo_env (name : string) : option string := if String.eqb name "KEY" then Some "k1" else None.

(** The first start seeds the file from a bootstrap block. *)
Definition demo_disk : disk := MkDisk None None.
Definition demo_open :=
  Open fst demo_registry demo_known demo_env FileMissing (Some (inl demo_runtime)) None demo_disk.
Definition demo_store : Store (P := Kind * string) :=
  match demo_open with Some (inl s) => s | _ => MkStore (MkSnapshot emptyRuntimeConfig ∅) demo_disk end.

Lemma demo_store_reachable : reachable fst demo_registry demo_known demo_env demo_store.
Proof. apply (reach_open fst demo_registry demo_known demo_env (Some (inl demo_runtime)) None demo_disk). by vm_compute. Qed.

Lemma store_live_valid_witness : target (fs demo_store) = Some (Doc demo_runtime) /\
  covers fst (cur demo_store) /\ on_disk demo_store.
Proof.
  split; [by vm_compute|].
  destruct (store_live_valid fst demo_registry demo_known demo_env demo_store demo_store_reachable) as (_ & Hc & Hd & _).
  by split.
Defined.

Definition emptied : RuntimeConfig := with_default EmptyString demo_runtime.

Definition demo_persist := persist emptied (Some IoWrite) (fs demo_store).

Lemma restart_after_crash_witness : exists s1,
  Open fst demo_registry demo_known demo_env (read_of (MkDisk (Some (Doc demo_runtime)) (Some Torn))) None None
    (MkDisk (Some (Doc demo_runtime)) (Some Torn)) = Some (inl s1).
Proof.
  destruct (restart_after_crash fst demo_registry demo_known demo_env demo_store emptied
    (MkSnapshot emptied (built (cur demo_store))) (Some IoWrite) demo_persist.1.1 demo_persist.1.2 demo_persist.2
    (MkDisk (Some (Doc demo_runtime)) (Some Torn)) None None demo_store_reachable) as [(s1 & H & _) _].
  - by vm_compute.
  - by vm_compute.
  - by vm_compute.
  - vm_compute. tauto.
  - by exists s1.
Defined.

Lemma resolve_exact_witness : exists rt, Resolve fst demo_store = inl rt /\ fst (rt_TTS rt) = KindTTS.
Proof.
  pose proof (resolve_exact fst demo_registry demo_known demo_env demo_store demo_store_reachable) as H.
  destruct (Resolve fst demo_store) as [rt|e] eqn:E.
  - exists rt. split; [done|]. by destruct H as (p & _ & _ & _ & _ & _ & H).
  - exfalso. revert E. by vm_compute.
Defined.

Definition demo_get := serve fst demo_registry demo_known demo_env "admin" "Bearer admin" GetConfig None demo_store.

Lemma secrets_stay_witness : exists s' resp, demo_get = Some (s', resp) /\ length (view_keys resp.2) = 3%nat /\
  forall k, List.In k (view_keys resp.2) -> k = SecretMask.
Proof.
  destruct demo_get as [[s' resp]|] eqn:H; [|exfalso; revert H; by vm_compute].
  exists s', resp. split; [done|]. split.
  - assert (Hl : option_map (fun r => length (view_keys r.2.2)) demo_get = Some 3%nat) by by vm_compute.
    rewrite H in Hl. by injection Hl.
  - intros k. apply (secrets_stay fst demo_registry demo_known demo_env "admin" "Bearer admin" GetConfig None demo_store s' resp k H).
Defined.

Lemma masked_write_back_witness : exists s', cur s' = cur demo_store /\ target (fs s') = Some (Doc (cfg (cur demo_store))).
Proof.
  destruct (masked_write_back fst demo_registry demo_known demo_env "admin" "Bearer admin" demo_store demo_store_reachable) as (s' & _ & H1 & H2).
  - by vm_compute.
  - exists s'. split; assumption.
Defined.
