(* ===== verification/Gate.v ===== *)
(** * The silence gate of the realtime synthesizer ([internal/provider/openai/realtime_tts.go])

    The realtime model pads its speech with silence; [silenceGate] removes the
    padding online, 20 ms frame by frame, holding back at most 15 silent frames.
    State: [silenceGate]. Operations: [push], [finish], [frameRMS].

    Shown: however the audio of a segment is cut into deltas, what the gate
    forwards is what the reference [gate_ref], which looks at whole runs of
    silence, keeps of it: every frame of speech, the last 3 frames before the
    first, at most 15 of a pause, at most 5 after the last; and the bound on
    what it holds. *)

From S2P Require Export Audio Float64.
From Stdlib Require Import QArith.
#[local] Open Scope Z_scope.

(** ** Constants and state *)

Definition gateFrame : Z := 20 * BytesPerMs.
Definition gateThreshold : float64 := of_int 200.
Definition gateLeadKeep : Z := 3.
Definition gateGapKeep : Z := 15.
Definition gateTailKeep : Z := 5.

Record silenceGate := MkGate { part : list Z; held : list Z; started : bool }.

Definition newGate : silenceGate := MkGate [] [] false.

(** ** Operations *)

(** The squares are summed in sample order, each operation rounded. A frame is
    never empty. *)
Definition frameRMS (f : list Z) : float64 :=
  let n := Z.quot (zlen f) BytesPerSample in
  let sum := foldl (fun sum v => let v := of_int v in fadd sum (fmul v v)) 0%Q (samples f) in
  fsqrt (fdiv sum (of_int n)).

Definition keep (g : silenceGate) : Z := if started g then gateGapKeep else gateLeadKeep.

(** The body of the loop of [push]: the gate and the bytes it forwards. *)
Definition gate_frame (g : silenceGate) (f : list Z) : silenceGate * list Z :=
  if fle gateThreshold (frameRMS f) then (MkGate (part g) [] true, held g ++ f)
  else if zlen (held g) <? keep g * gateFrame then (MkGate (part g) (held g ++ f) (started g), [])
  else if negb (started g) then
    (MkGate (part g) (drop (Z.to_nat gateFrame) (held g) ++ f) (started g), [])
  else (g, []).

Definition set_part (p : list Z) (g : silenceGate) : silenceGate := MkGate p (held g) (started g).

(** One frame leaves [part] per iteration: its length is fuel enough
    ([push_loop_frames]). *)
Fixpoint push_loop (fuel : nat) (g : silenceGate) : silenceGate * list Z :=
  match fuel with
  | O => (g, [])
  | S fuel =>
      if gateFrame <=? zlen (part g) then
        let '(g1, out1) := gate_frame g (take (Z.to_nat gateFrame) (part g)) in
        let '(g2, out2) := push_loop fuel (set_part (drop (Z.to_nat gateFrame) (part g1)) g1) in
        (g2, out1 ++ out2)
      else (g, [])
  end.

Definition push (g : silenceGate) (pcm : list Z) : silenceGate * list Z :=
  let g := set_part (part g ++ pcm) g in push_loop (length (part g)) g.

Definition finish (g : silenceGate) : silenceGate * list Z :=
  (newGate, if started g then take (Z.to_nat (Z.min (zlen (held g)) (gateTailKeep * gateFrame))) (held g) else []).

(** The deltas of a segment, then its end. *)
Fixpoint pushes (g : silenceGate) (deltas : list (list Z)) : silenceGate * list Z :=
  match deltas with
  | [] => (g, [])
  | pcm :: deltas =>
      let '(g1, out1) := push g pcm in
      let '(g2, out2) := pushes g1 deltas in
      (g2, out1 ++ out2)
  end.

Definition segment_audio (deltas : list (list Z)) : list Z :=
  let '(g, out) := pushes newGate deltas in out ++ (finish g).2.

(** ** The reference *)

Definition voiced (f : list Z) : bool := fle gateThreshold (frameRMS f).

Definition lastn {A} (n : nat) (l : list A) : list A := drop (length l - n) l.

(** The whole frames of a segment; a remainder is dropped. *)
Fixpoint frames_loop (fuel : nat) (pcm : list Z) : list (list Z) :=
  match fuel with
  | O => []
  | S fuel => if gateFrame <=? zlen pcm then take 960 pcm :: frames_loop fuel (drop 960 pcm) else []
  end.
Definition frames (pcm : list Z) : list (list Z) := frames_loop (length pcm) pcm.

(** What is kept of a run of silence when speech follows it. *)
Definition kept (started : bool) (run : list (list Z)) : list (list Z) :=
  if started then take 15 run else lastn 3 run.

(** [run] is the silence since the last frame of speech, or since the start. *)
Fixpoint gate_ref (started : bool) (run fs : list (list Z)) : list (list Z) :=
  match fs with
  | [] => if started then take 5 run else []
  | f :: fs => if voiced f then kept started run ++ f :: gate_ref true [] fs else gate_ref started (run ++ [f]) fs
  end.

(** The arithmetic of a frame is never computed below. *)
#[local] Opaque frameRMS fle.

(** ** One frame *)

Lemma gateFrame_eq : gateFrame = 960.
Proof. reflexivity. Qed.

Definition whole (f : list Z) : Prop := length f = 960%nat.

Lemma length_whole fs : Forall whole fs -> length (concat fs) = (960 * length fs)%nat.
Proof. induction 1 as [|f fs Hf _ IH]; [reflexivity|]. cbn [concat length]. rewrite length_app, IH, Hf. lia. Qed.

Lemma take_whole n fs : Forall whole fs -> take (960 * n) (concat fs) = concat (take n fs).
Proof.
  intros H. revert n. induction H as [|f fs Hf _ IH]; intros n; [by rewrite firstn_nil, take_nil|].
  destruct n; [by rewrite Nat.mul_0_r|]. cbn [take concat].
  rewrite take_app, Hf, (take_ge f) by (rewrite Hf; lia). f_equal. rewrite <- IH. f_equal. lia.
Qed.

Lemma drop_whole n fs : Forall whole fs -> drop (960 * n) (concat fs) = concat (drop n fs).
Proof.
  intros H. revert n. induction H as [|f fs Hf _ IH]; intros n; [by rewrite skipn_nil, drop_nil|].
  destruct n; [by rewrite Nat.mul_0_r|]. cbn [drop concat].
  rewrite drop_app, Hf, (drop_ge f) by (rewrite Hf; lia). cbn [app]. rewrite <- IH. f_equal. lia.
Qed.

Lemma lastn_snoc {A} n (l : list A) x :
  lastn (S n) (l ++ [x]) = (if Nat.ltb (length l) (S n) then lastn (S n) l else drop 1 (lastn (S n) l)) ++ [x].
Proof.
  unfold lastn. rewrite length_app. simpl length. case_match eqn:Hl.
  - apply Nat.ltb_lt in Hl. replace (length l + 1 - S n)%nat with 0%nat by lia.
    by replace (length l - S n)%nat with 0%nat by lia.
  - apply Nat.ltb_ge in Hl. rewrite drop_drop, drop_app_le by lia. f_equal. f_equal. lia.
Qed.

(** The gate holds what is kept of the run of silence so far. *)
Record holds (g : silenceGate) (run : list (list Z)) : Prop := {
  ho_run : Forall whole run;
  ho_held : held g = concat (kept (started g) run)
}.

Lemma kept_whole b run : Forall whole run -> Forall whole (kept b run).
Proof. intros. unfold kept, lastn. destruct b; [by apply Forall_take|by apply Forall_drop]. Qed.

Lemma holds_len g run : holds g run -> zlen (held g) = 960 * Z.min (zlen run) (keep g).
Proof.
  intros [Hr Hh]. rewrite Hh. unfold zlen. rewrite length_whole by by apply kept_whole.
  unfold kept, keep, lastn, gateGapKeep, gateLeadKeep. destruct (started g); rewrite ?length_take, ?length_drop; lia.
Qed.

Lemma keep_pos g : 0 < keep g <= 15.
Proof. unfold keep, gateGapKeep, gateLeadKeep. destruct (started g); lia. Qed.

Lemma gate_frame_ref g f run : holds g run -> whole f ->
  let run' := if voiced f then [] else run ++ [f] in
  let out := if voiced f then kept (started g) run ++ [f] else [] in
  holds (gate_frame g f).1 run' /\ (gate_frame g f).2 = concat out /\
  started (gate_frame g f).1 = (voiced f || started g)%bool /\ part (gate_frame g f).1 = part g.
Proof.
  intros Hh Hf. pose proof (holds_len _ _ Hh) as Hlen. pose proof Hh as [Hr Hd].
  assert (Hr' : Forall whole (run ++ [f])) by (apply Forall_app; auto).
  unfold gate_frame. fold (voiced f). rewrite gateFrame_eq. destruct (voiced f) eqn:Hv; simpl.
  - repeat split; simpl; [constructor|]. by rewrite Hd, concat_app; simpl; rewrite app_nil_r.
  - unfold kept, keep, gateGapKeep, gateLeadKeep in *. destruct (started g) eqn:Hst; simpl in *.
    + case_match eqn:Hc; bool_arith; simpl; repeat split; rewrite ?Hst; try done; simpl.
      * rewrite take_ge by (rewrite length_app; simpl; unfold zlen in *; lia).
        rewrite Hd, concat_app, take_ge by (unfold zlen in *; lia). simpl. by rewrite app_nil_r.
      * by rewrite take_app_le by (unfold zlen in *; lia).
    + case_match eqn:Hc; bool_arith; simpl; repeat split; rewrite ?Hst; try done; simpl; unfold kept;
        rewrite (lastn_snoc 2), Hd, concat_app; simpl; rewrite app_nil_r; f_equal.
      * rewrite (proj2 (Nat.ltb_lt _ _)); [done|]. unfold zlen in *; lia.
      * rewrite (proj2 (Nat.ltb_ge _ _)) by (unfold zlen in *; lia).
        change (Z.to_nat 960) with (960 * 1)%nat.
        rewrite drop_whole; [done|]. by apply Forall_drop.
Qed.

(** ** The loop *)

Lemma frames_whole pcm : Forall whole (frames pcm).
Proof.
  unfold frames. generalize (length pcm) as fuel. intros fuel. revert pcm.
  induction fuel as [|fuel IH]; intros pcm; simpl; [constructor|].
  rewrite gateFrame_eq. case_match eqn:Hc; [|constructor]. bool_arith. constructor; [|apply IH].
  unfold whole. rewrite length_take. unfold zlen in *. lia.
Qed.

Lemma frames_loop_fuel n m pcm : (length pcm <= n)%nat -> (length pcm <= m)%nat ->
  frames_loop n pcm = frames_loop m pcm.
Proof.
  revert m pcm. induction n as [|n IH]; intros m pcm Hn Hm.
  - destruct pcm; [|simpl in Hn; lia]. by destruct m.
  - destruct m as [|m]; [destruct pcm; [done|simpl in Hm; lia]|]. simpl. rewrite gateFrame_eq.
    case_match eqn:Hc; [|done]. bool_arith. f_equal. unfold zlen in *.
    apply IH; rewrite length_drop; lia.
Qed.

Lemma frames_short pcm : zlen pcm < 960 -> frames pcm = [].
Proof.
  intros. unfold frames. destruct (length pcm); [done|]. simpl. rewrite gateFrame_eq.
  by rewrite (proj2 (Z.leb_gt _ _)).
Qed.

Lemma frames_long pcm : 960 <= zlen pcm -> frames pcm = take 960 pcm :: frames (drop 960 pcm).
Proof.
  intros. unfold frames. destruct (length pcm) as [|n] eqn:Hl; [unfold zlen in *; lia|]. simpl.
  rewrite gateFrame_eq, (proj2 (Z.leb_le _ _)) by done. f_equal.
  apply frames_loop_fuel; rewrite length_drop; lia.
Qed.

(** The reference consumes frames like the gate: a prefix of the frames gives a
    prefix of the output, and the state [(started, run)] to go on with. *)
Fixpoint ref_state (st : bool) (run fs : list (list Z)) : bool * list (list Z) :=
  match fs with
  | [] => (st, run)
  | f :: fs => if voiced f then ref_state true [] fs else ref_state st (run ++ [f]) fs
  end.

Fixpoint ref_out (st : bool) (run fs : list (list Z)) : list (list Z) :=
  match fs with
  | [] => []
  | f :: fs => if voiced f then kept st run ++ f :: ref_out true [] fs else ref_out st (run ++ [f]) fs
  end.

Lemma gate_ref_app fs1 : forall st run fs2,
  gate_ref st run (fs1 ++ fs2) =
    ref_out st run fs1 ++ gate_ref (ref_state st run fs1).1 (ref_state st run fs1).2 fs2.
Proof.
  induction fs1 as [|f fs1 IH]; intros st run fs2; simpl; [done|].
  destruct (voiced f); rewrite IH; [by rewrite <- app_assoc|done].
Qed.

Lemma push_loop_frames fuel : forall g run, (length (part g) <= fuel)%nat -> holds g run ->
  let '(g', out) := push_loop fuel g in
  holds g' (ref_state (started g) run (frames (part g))).2 /\
  started g' = (ref_state (started g) run (frames (part g))).1 /\
  out = concat (ref_out (started g) run (frames (part g))) /\
  part g = concat (frames (part g)) ++ part g' /\ zlen (part g') < 960.
Proof.
  induction fuel as [|fuel IH]; intros g run Hf Hh.
  - simpl. rewrite frames_short by (unfold zlen; lia). simpl. repeat split; try apply Hh. unfold zlen; lia.
  - cbn [push_loop]. rewrite gateFrame_eq. destruct (960 <=? zlen (part g)) eqn:Hc; bool_arith.
    2: { rewrite frames_short by done. simpl. repeat split; try apply Hh; lia. }
    rewrite frames_long by done. change (Z.to_nat 960) with 960%nat.
    set (f := take 960 (part g)). assert (Hw : whole f).
    { unfold whole, f. rewrite length_take. unfold zlen in *. lia. }
    destruct (gate_frame_ref g f run Hh Hw) as (Hh1 & Ho1 & Hs1 & Hp1).
    destruct (gate_frame g f) as [g1 out1] eqn:Hg. simpl in Hh1, Ho1, Hs1, Hp1. rewrite Hp1.
    assert (Hh1' : holds (set_part (drop 960 (part g)) g1) (if voiced f then [] else run ++ [f])) by (split; apply Hh1).
    specialize (IH (set_part (drop 960 (part g)) g1) _ ltac:(cbn [part set_part]; rewrite length_drop; unfold zlen in *; lia) Hh1').
    destruct (push_loop fuel _) as [g2 out2]. cbn [part set_part started] in IH. rewrite Hs1 in IH.
    destruct IH as (H1 & H2 & H3 & H4 & H5).
    assert (Hpart : part g = f ++ drop 960 (part g)) by (symmetry; apply take_drop).
    rewrite Hpart at 4. cbn [ref_state ref_out concat]. rewrite <- !app_assoc, <- H4.
    clear Hh1' Hpart. clearbody f. set (rest := drop 960 (part g)) in *. clearbody rest.
    split; [destruct (voiced f); exact H1|]. split; [destruct (voiced f); exact H2|].
    split; [|split; [reflexivity|exact H5]]. rewrite Ho1, H3. destruct (voiced f); [|reflexivity].
    rewrite !concat_app. cbn [concat orb]. by rewrite app_nil_r, <- app_assoc.
Qed.

Lemma frames_concat fs x : Forall whole fs -> frames (concat fs ++ x) = fs ++ frames x.
Proof.
  induction 1 as [|f fs Hf _ IH]; [done|]. cbn [concat]. rewrite <- app_assoc.
  rewrite frames_long by (rewrite zlen_app; unfold zlen, whole in *; lia).
  rewrite take_app_length', drop_app_length' by (by rewrite Hf). by rewrite IH.
Qed.

Lemma ref_state_app fs1 : forall st run fs2,
  ref_state st run (fs1 ++ fs2) = ref_state (ref_state st run fs1).1 (ref_state st run fs1).2 fs2.
Proof. induction fs1 as [|f fs1 IH]; intros st run fs2; simpl; [done|]. destruct (voiced f); apply IH. Qed.

Lemma ref_out_app fs1 : forall st run fs2,
  ref_out st run (fs1 ++ fs2) =
    ref_out st run fs1 ++ ref_out (ref_state st run fs1).1 (ref_state st run fs1).2 fs2.
Proof.
  induction fs1 as [|f fs1 IH]; intros st run fs2; simpl; [done|].
  destruct (voiced f); rewrite IH; [by rewrite <- app_assoc|done].
Qed.

Lemma pushes_ref deltas : forall g run, holds g run -> zlen (part g) < 960 ->
  let '(g', out) := pushes g deltas in
  let fs := frames (part g ++ concat deltas) in
  holds g' (ref_state (started g) run fs).2 /\ started g' = (ref_state (started g) run fs).1 /\
  out = concat (ref_out (started g) run fs).
Proof.
  induction deltas as [|pcm deltas IH]; intros g run Hh Hp.
  - cbn [pushes concat]. rewrite app_nil_r, frames_short by done. done.
  - cbn [pushes concat]. unfold push.
    assert (Hh0 : holds (set_part (part g ++ pcm) g) run) by (split; apply Hh).
    pose proof (push_loop_frames _ _ _ (Nat.le_refl _) Hh0) as Hl.
    destruct (push_loop _ _) as [g1 out1]. cbn [part started set_part] in Hl.
    destruct Hl as (H1 & H2 & H3 & H4 & H5).
    specialize (IH g1 _ H1 H5). destruct (pushes g1 deltas) as [g2 out2].
    rewrite app_assoc, H4, <- app_assoc, frames_concat by apply frames_whole.
    rewrite ref_state_app, ref_out_app, <- H2. destruct IH as (I1 & I2 & I3).
    split; [done|]. split; [done|]. by rewrite I3, H3, concat_app.
Qed.

Lemma finish_ref g run : holds g run ->
  finish g = (newGate, concat (gate_ref (started g) run [])).
Proof.
  intros Hh. pose proof (holds_len _ _ Hh) as Hl. pose proof Hh as [Hr Hd].
  unfold finish, gate_ref, gateTailKeep. rewrite gateFrame_eq. f_equal.
  destruct (started g) eqn:Hs; [|done].
  replace (Z.to_nat _) with (Nat.min (960 * 5) (length (held g))) by (unfold zlen; lia).
  rewrite <- firstn_firstn, (take_ge (held g)) by lia.
  rewrite Hd. unfold kept. rewrite take_whole by by apply Forall_take.
  by rewrite take_take.
Qed.

Lemma holds_new : holds newGate [].
Proof. split; [constructor|done]. Qed.

(** Whatever the deltas, the segment's audio is the reference's. *)
Lemma segment_audio_ref deltas : segment_audio deltas = concat (gate_ref false [] (frames (concat deltas))).
Proof.
  unfold segment_audio. pose proof (pushes_ref deltas newGate [] holds_new eq_refl) as H.
  destruct (pushes newGate deltas) as [g out]. cbn [part newGate app started] in H.
  destruct H as (H1 & H2 & ->). rewrite (finish_ref _ _ H1), H2. simpl snd.
  rewrite <- concat_app. f_equal. rewrite <- (app_nil_r (frames _)) at 4. by rewrite gate_ref_app.
Qed.

Lemma pushes_snoc deltas pcm : forall g,
  pushes g (deltas ++ [pcm]) = ((push (pushes g deltas).1 pcm).1, (pushes g deltas).2 ++ (push (pushes g deltas).1 pcm).2).
Proof.
  induction deltas as [|d deltas IH]; intros g; cbn [app pushes].
  - cbn [fst snd app]. destruct (push g pcm) as [g1 out1]. cbn [fst snd]. by rewrite app_nil_r.
  - destruct (push g d) as [g1 out1]. rewrite IH. destruct (pushes g1 deltas) as [g2 out2]. cbn [fst snd]. by rewrite app_assoc.
Qed.

(** The gate only ever forwards whole frames. *)
Lemma ref_out_whole fs : forall st run, Forall whole run -> Forall whole fs -> Forall whole (ref_out st run fs).
Proof.
  induction fs as [|f fs IH]; intros st run Hr Hf; simpl; [constructor|]. apply Forall_cons in Hf as [Hf Hfs].
  destruct (voiced f); [|by apply IH; [apply Forall_app; auto|]].
  apply Forall_app. split; [by apply kept_whole|]. constructor; [done|]. by apply IH.
Qed.

Lemma pushes_holds deltas : exists run, holds (pushes newGate deltas).1 run.
Proof.
  pose proof (pushes_ref deltas newGate [] holds_new eq_refl) as H. destruct (pushes newGate deltas) as [g out].
  destruct H as (H & _). by eexists.
Qed.

Lemma push_whole g run pcm : holds g run -> exists fs, (push g pcm).2 = concat fs /\ Forall whole fs.
Proof.
  intros Hh. unfold push. assert (Hh0 : holds (set_part (part g ++ pcm) g) run) by (split; apply Hh).
  pose proof (push_loop_frames _ _ _ (Nat.le_refl _) Hh0) as H. destruct (push_loop _ _) as [g1 out1].
  destruct H as (_ & _ & -> & _). eexists. split; [done|]. apply ref_out_whole; [apply (ho_run _ _ Hh)|apply frames_whole].
Qed.

Lemma finish_whole g run : holds g run -> exists fs, (finish g).2 = concat fs /\ Forall whole fs.
Proof.
  intros Hh. rewrite (finish_ref _ _ Hh). eexists. split; [done|]. simpl.
  destruct (started g); [apply Forall_take, (ho_run _ _ Hh)|constructor].
Qed.

Lemma whole_chunk fs : Forall whole fs -> zlen (concat fs) mod gateFrame = 0.
Proof. intros Hf. unfold zlen. rewrite (length_whole _ Hf), gateFrame_eq, Nat2Z.inj_mul, Z.mul_comm. by apply Z.mod_mul. Qed.

(** ** What the reference keeps *)

Lemma gate_ref_lossless fs : forall st run, Forall (fun f => voiced f = false) run ->
  List.filter voiced (gate_ref st run fs) = List.filter voiced fs.
Proof.
  assert (Hsil : forall l, Forall (fun f => voiced f = false) l -> List.filter voiced l = []).
  { induction 1 as [|f l Hf _ IH]; simpl; [done|]. by rewrite Hf. }
  induction fs as [|f fs IH]; intros st run Hr; simpl.
  - destruct st; [|done]. apply Hsil. by apply Forall_take.
  - destruct (voiced f) eqn:Hv.
    + rewrite List.filter_app, Hsil; [|unfold kept, lastn; destruct st; [by apply Forall_take|by apply Forall_drop]].
      simpl. rewrite Hv. f_equal. by apply IH.
    + apply IH. apply Forall_app. auto.
Qed.

Lemma gate_ref_sublist fs : forall st run, gate_ref st run fs `sublist_of` run ++ fs.
Proof.
  induction fs as [|f fs IH]; intros st run; simpl.
  - destruct st; [|apply sublist_nil_l]. rewrite app_nil_r. apply sublist_take.
  - destruct (voiced f).
    + apply sublist_app; [unfold kept, lastn; destruct st; [apply sublist_take|apply sublist_drop]|].
      apply sublist_skip. apply (IH true []).
    + replace (run ++ f :: fs) with ((run ++ [f]) ++ fs) by by rewrite <- app_assoc. apply IH.
Qed.

(** ** Main result *)

(** The silence gate only removes silence. However the audio of a spoken
    segment is cut into deltas, the bytes it forwards are exactly what the
    reference keeps of the segment's 20 ms frames (of each run of silence: at
    most the last 3 frames before the first speech, the first 15 of a pause,
    the first 5 at the end; nothing if there was no speech): a subsequence of
    the frames, in order, that has every frame of speech. It never holds back
    more than 15 frames, and it ends as a fresh gate. *)
Theorem gate_removes_only_silence (deltas : list (list Z)) :
  segment_audio deltas = concat (gate_ref false [] (frames (concat deltas))) /\
  gate_ref false [] (frames (concat deltas)) `sublist_of` frames (concat deltas) /\
  List.filter voiced (gate_ref false [] (frames (concat deltas))) = List.filter voiced (frames (concat deltas)) /\
  (forall n, zlen (held (pushes newGate (take n deltas)).1) <= gateGapKeep * gateFrame) /\
  (finish (pushes newGate deltas).1).1 = newGate.
Proof.
  split; [apply segment_audio_ref|]. split; [apply (gate_ref_sublist _ false [])|].
  split; [by apply gate_ref_lossless|]. split; [|done].
  intros n. pose proof (pushes_ref (take n deltas) newGate [] holds_new eq_refl) as H.
  destruct (pushes newGate (take n deltas)) as [g out]. destruct H as (H1 & _). simpl.
  rewrite (holds_len _ _ H1). pose proof (keep_pos g). rewrite gateFrame_eq. unfold gateGapKeep. lia.
Qed.
