(* ===== verification/Chat.v ===== *)
(** * The streaming chat clients ([internal/provider/openai/llm.go], [internal/provider/qwen/llm.go])

    Both vendors speak Chat Completions: [Chat] builds one request and a
    goroutine ([stream]) reads the server-sent events, line by line, into the
    chunks the session's pipeline receives. The two packages hold the same code
    up to the request's extra fields and the text of a read error; what they
    share is defined once, over the vendor ([chat_vendor]).

    [chat] is the goroutine's state: where it is, its accumulators, and the
    chunks sent so far. A label of [chat_step] is what its environment did: the
    outcome of the request, one line or the end of the body, the cancellation of
    the context or the watchdog. [lim] says how many sends of that step the
    consumer takes before a select finds the context done; [None] is all. The
    text of a line is decoded by [Unmarshal], the decoder of [encoding/json] for
    [chatChunk].

    Shown: the shape of every stream (the contract of [provider.LLM]); that a
    stream which is not cancelled delivers exactly the deltas and the call that
    a reference assembles from its lines; and the shape of the request. *)

From S2P Require Export Provider Utf8.
From S2P Require Import Wire.
From Stdlib Require Import QArith.
#[local] Open Scope string_scope.
#[local] Open Scope list_scope.
#[local] Open Scope Z_scope.

(** ** The response side of the wire *)

Record chatCallFunction := MkCallFunction { CF_Name : string; CF_Arguments : string }.

Record deltaToolCall := MkDeltaToolCall {
  D_Index : Z; D_ID : string; D_Type : string; D_Function : chatCallFunction
}.

Record chatChoice := MkChoice {
  Delta_Content : string; Delta_ToolCalls : list deltaToolCall; Choice_FinishReason : string
}.

(** [PromptTokens] and [CompletionTokens]. *)
Record chatChunk := MkChatChunk { Choices : list chatChoice; Chunk_Usage : option (Z * Z) }.

(** ** Finish reasons *)

Definition finishOr (f : FinishReason) : FinishReason :=
  if String.eqb f EmptyString then FinishStop else f.

Definition mapFinish (s : string) : FinishReason :=
  if String.eqb s "length" then FinishLength
  else if String.eqb s "content_filter" then FinishContentFilter
  else FinishStop.

(** ** Tool-call fragments *)

Record toolCalls := MkToolCalls { byIndex : gmap Z ToolCall; order : list Z }.

Definition noCalls : toolCalls := MkToolCalls ∅ [].

Definition or_keep (new old : string) : string := if String.eqb new EmptyString then old else new.

Definition push (t : toolCalls) (d : deltaToolCall) : toolCalls :=
  let '(c, order) := match byIndex t !! D_Index d with
                     | Some c => (c, order t)
                     | None => (MkToolCall "" "" "", order t ++ [D_Index d])
                     end in
  let c := {| Call_ID := or_keep (D_ID d) (Call_ID c); Call_Name := or_keep (CF_Name (D_Function d)) (Call_Name c);
              Call_Arguments := Call_Arguments c +:+ CF_Arguments (D_Function d) |} in
  {| byIndex := <[D_Index d := c]> (byIndex t); order := order |}.

(** ** The stream's goroutine *)

Class chat_vendor := {
  vendor : string;
  (* the text of a request that fails, and of a failure to read the body *)
  post_text : string -> string;
  read_text : string -> string
}.

(** [(&provider.Error{...}).Error()] *)
Definition Error_Error (e : Error) : string :=
  Err_Provider e +:+ ": " +:+ ErrorKind_String (Err_Kind e) +:+ ": " +:+ Err_Text e.

Inductive phase := CPost | CReading | CClosed.

#[export] Instance phase_eq_dec : EqDecision phase.
Proof. solve_decision. Defined.

Record chat := MkChat {
  ph : phase;
  ctx_done : bool;
  idle : bool;
  c_finish : FinishReason;
  c_usage : Usage;
  calls : toolCalls;
  out : list LLMChunk;
  lim : option nat
}.

Definition set_ph p s := MkChat p (ctx_done s) (idle s) (c_finish s) (c_usage s) (calls s) (out s) (lim s).
Definition set_done i s := MkChat (ph s) true (idle s || i) (c_finish s) (c_usage s) (calls s) (out s) (lim s).
Definition set_finish f s := MkChat (ph s) (ctx_done s) (idle s) f (c_usage s) (calls s) (out s) (lim s).
Definition set_usage u s := MkChat (ph s) (ctx_done s) (idle s) (c_finish s) u (calls s) (out s) (lim s).
Definition set_calls c s := MkChat (ph s) (ctx_done s) (idle s) (c_finish s) (c_usage s) c (out s) (lim s).
Definition set_out o s := MkChat (ph s) (ctx_done s) (idle s) (c_finish s) (c_usage s) (calls s) o (lim s).
Definition set_lim l s := MkChat (ph s) (ctx_done s) (idle s) (c_finish s) (c_usage s) (calls s) (out s) l.

(** What [client.Do] answers: a response with its status and body, or an error. *)
Inductive response := Response (status : Z) (body : list Z) | NoResponse (err : string).

Inductive read := RLine (line : string) | REOF | RErr (err : string).

Inductive act :=
| ACancel
| AIdle
| APosted (r : response) (n : option nat)
| ARead (r : read) (n : option nat).

(** [send]: whether the consumer took the chunk. [None]: no such select. *)
Definition send (c : LLMChunk) s : option (chat * bool) :=
  match lim s with
  | None => Some (set_out (out s ++ [c]) s, true)
  | Some (S n) => Some (set_lim (Some n) (set_out (out s ++ [c]) s), true)
  | Some O => if ctx_done s then Some (s, false) else None
  end.

Section vendor.
Context `{V : chat_vendor} (Unmarshal : string -> chatChunk + string).

Definition fatalf (text : string) : string := Error_Error (MkError vendor ErrFatal text).
Definition transientf (text : string) : string := Error_Error (MkError vendor ErrTransient text).

(** The error of [postJSON] (openai) and [post] (qwen); [None]: the body is to be
    read. Of the body of a failure 4096 bytes are read. *)
Definition post_error (ctx : bool) (r : response) : option string :=
  match r with
  | NoResponse err => Some (if ctx then "context canceled" else transientf (post_text err))
  | Response status body =>
      if negb (Z.quot status 100 =? 2)
      then Some (Error_Error (ErrorFromStatus vendor status (string_of (TrimSpace_bytes (take 4096 body)))))
      else None
  end.

(** The first index has a call: a map miss would be a nil dereference. *)
Definition emit (t : toolCalls) (finish : FinishReason) s : option (chat * bool) :=
  match order t with
  | [] => Some (s, true)
  | i :: rest =>
      if negb (String.eqb finish FinishStop) then Some (s, true) else
      c ← byIndex t !! i;
      '(s, ok) ← send (LLMToolCall c) s;
      if negb ok then Some (s, false) else
      match rest with
      | [] => Some (s, true)
      | _ =>
          '(s, _) ← send (LLMError (fatalf ("model returned " +:+ Itoa (zlen (order t)) +:+
            " tool calls; at most one per response is supported"))) s;
          Some (s, false)
      end
  end.

(** The closure [done], then the return. *)
Definition finish_stream s : option chat :=
  '(s, ok) ← emit (calls s) (finishOr (c_finish s)) s;
  if ok : bool then '(s, _) ← send (LLMDone (finishOr (c_finish s)) (c_usage s)) s; Some (set_ph CClosed s)
  else Some (set_ph CClosed s).

Definition send_error (text : string) s : option chat :=
  '(s, _) ← send (LLMError text) s; Some (set_ph CClosed s).

(** The loop over the choices; [false]: a send failed and the stream returns. *)
Fixpoint choices_loop (cs : list chatChoice) s : option (chat * bool) :=
  match cs with
  | [] => Some (s, true)
  | c :: cs =>
      '(s, ok) ← (if String.eqb (Delta_Content c) EmptyString then Some (s, true)
                  else send (LLMTextDelta (Delta_Content c)) s);
      if negb ok then Some (s, false) else
      let s := set_calls (foldl push (calls s) (Delta_ToolCalls c)) s in
      let s := if String.eqb (Choice_FinishReason c) EmptyString then s
               else set_finish (mapFinish (Choice_FinishReason c)) s in
      choices_loop cs s
  end.

(** [strings.TrimRight(line, "\r\n")] *)
Definition trim_eol (line : string) : list Z := TrimRightFunc (fun r => (r =? 13) || (r =? 10)) (bytes_of line).

(** The data of an event line; other lines are skipped. *)
Definition line_data (line : string) : option string :=
  let l := trim_eol line in
  if bool_decide (take 5 l = bytes_of "data:") then Some (string_of (TrimSpace_bytes (drop 5 l))) else None.

Definition on_line (line : string) s : option chat :=
  match line_data line with
  | None => Some s
  | Some data =>
      if String.eqb data "[DONE]" then finish_stream s else
      match Unmarshal data with
      | inr err => send_error (fatalf ("malformed stream chunk: " +:+ err)) s
      | inl chunk =>
          let s := match Chunk_Usage chunk with Some (p, c) => set_usage (MkUsage p c) s | None => s end in
          '(s, ok) ← choices_loop (Choices chunk) s;
          Some (if ok : bool then s else set_ph CClosed s)
      end
  end.

(** A read that fails, the watchdog's last send into whatever room is left. *)
Definition on_read_error (r : read) s : option chat :=
  if ctx_done s then
    Some (set_ph CClosed
      (if idle s && negb (bool_decide (lim s = Some O))
       then set_out (out s ++ [LLMError (transientf "stream idle timeout")]) s else s))
  else match r with
       | RErr err => send_error (transientf (read_text err)) s
       | _ => finish_stream s
       end.

Definition chat_step (a : act) (s : chat) : option chat :=
  match a, ph s with
  | ACancel, _ => Some (set_done false s)
  | AIdle, CReading => Some (set_done true s)
  | APosted r n, CPost =>
      match post_error (ctx_done s) r with
      | None => Some (set_ph CReading s)
      | Some err => send_error err (set_lim n s)
      end
  | ARead (RLine line) n, CReading => on_line line (set_lim n s)
  | ARead r n, CReading => on_read_error r (set_lim n s)
  | _, _ => None
  end.

(** [Chat] has returned the channel; the goroutine starts. *)
Definition chat_start : chat := MkChat CPost false false "" (MkUsage 0 0) noCalls [] None.

Inductive chat_reach : chat -> Prop :=
| chat_reach_start : chat_reach chat_start
| chat_reach_step s a s' : chat_reach s -> chat_step a s = Some s' -> chat_reach s'.

Fixpoint chat_run (l : list act) (s : chat) : option chat :=
  match l with
  | [] => Some s
  | a :: l => chat_step a s ≫= chat_run l
  end.
End vendor.

(** ** The shape of a stream *)

Definition is_delta (c : LLMChunk) : Prop := match c with LLMTextDelta t => t <> "" | _ => False end.

(** What may follow the deltas, given whether the channel is closed and the
    context done. *)
Definition tail_ok (closed cancelled : bool) (tl : list LLMChunk) : Prop :=
  match tl with
  | [] => closed = true -> cancelled = true
  | [LLMToolCall _] => closed = true /\ cancelled = true
  | [LLMToolCall _; LLMDone f _] => closed = true /\ f = FinishStop
  | [LLMToolCall _; LLMError _] | [LLMDone _ _] | [LLMError _] => closed = true
  | _ => False
  end.

Definition well_shaped (closed cancelled : bool) (chunks : list LLMChunk) : Prop :=
  exists deltas tl, chunks = deltas ++ tl /\ Forall is_delta deltas /\ tail_ok closed cancelled tl.

Definition closed (s : chat) : bool := bool_decide (ph s = CClosed).

(** An index that was announced has a call. *)
Definition calls_wf (t : toolCalls) : Prop := forall i, i ∈ order t -> is_Some (byIndex t !! i).

Lemma push_wf t d : calls_wf t -> calls_wf (push t d).
Proof.
  unfold calls_wf, push. intros Hw i. destruct (byIndex t !! D_Index d) eqn:Hd; simpl;
    rewrite lookup_insert_is_Some'; [by right; auto|].
  rewrite elem_of_app, list_elem_of_singleton. naive_solver.
Qed.

Lemma pushes_wf ds : forall t, calls_wf t -> calls_wf (foldl push t ds).
Proof. induction ds as [|d ds IH]; intros t Hw; simpl; [done|]. apply IH. by apply push_wf. Qed.

Lemma chat_send_inv c s s' ok : send c s = Some (s', ok) ->
  (ok = true /\ exists l, s' = set_lim l (set_out (out s ++ [c]) s)) \/ (ok = false /\ ctx_done s = true /\ s' = s).
Proof.
  unfold send. destruct (lim s) as [[|n]|] eqn:Hl; [destruct (ctx_done s)| |]; intros [= <- <-];
    [by right|left; eauto|left]. split; [done|]. exists None. by destruct s; simpl in *; subst.
Qed.

(** Reading, with only deltas out so far. *)
Record streaming (s : chat) : Prop := {
  st_ph : ph s <> CClosed;
  st_out : Forall is_delta (out s);
  st_calls : calls_wf (calls s)
}.

(** Closed, with a complete shape. *)
Definition ended (s : chat) : Prop := closed s = true /\ well_shaped true (ctx_done s) (out s).

Lemma streaming_frame s s' : streaming s -> ph s' = ph s -> out s' = out s -> calls s' = calls s -> streaming s'.
Proof. intros [Hp Ho Hc] E1 E2 E3. by split; rewrite ?E1, ?E2, ?E3. Qed.

Lemma close_stream s d tl : Forall is_delta d -> out s = d ++ tl -> tail_ok true (ctx_done s) tl ->
  ended (set_ph CClosed s).
Proof. intros. split; [done|]. by exists d, tl. Qed.

(** Case analysis on the sends of a step. *)
Ltac send_cases :=
  repeat match goal with
  | H : Some _ = Some _ |- _ => injection H as H; subst
  | H : (_ ≫= _) = Some _ |- _ => apply bind_Some_inv in H as (? & ? & ?)
  | H : (let '(_, _) := ?x in _) = Some _ |- _ => destruct x as [? ?] eqn:?
  | H : send _ _ = Some (_, _) |- _ => apply chat_send_inv in H as [(? & ? & ?)|(? & ? & ?)]; subst
  end.

Section shape.
Context `{V : chat_vendor} (Unmarshal : string -> chatChunk + string).

Lemma send_error_ended text s s' : send_error text s = Some s' -> streaming s -> ended s'.
Proof.
  unfold send_error. intros H [_ Ho _]. send_cases.
  - by eapply close_stream; [exact Ho|simpl; reflexivity|].
  - eapply close_stream; [exact Ho|by rewrite app_nil_r|]. by intros _.
Qed.

(** What [emit] adds, and why it stops the stream when it does. *)
Definition emitted (f : FinishReason) (cancelled ok : bool) (tl : list LLMChunk) : Prop :=
  match tl with
  | [] => ok = true \/ cancelled = true
  | [LLMToolCall _] => if ok then f = FinishStop else cancelled = true
  | [LLMToolCall _; LLMError _] => ok = false
  | _ => False
  end.

Lemma chat_emit_inv t f s s' ok : emit t f s = Some (s', ok) ->
  exists tl l, s' = set_lim l (set_out (out s ++ tl) s) /\ emitted f (ctx_done s) ok tl.
Proof.
  assert (Hs : s = set_lim (lim s) (set_out (out s ++ []) s)) by (rewrite app_nil_r; by destruct s).
  unfold emit. destruct (order t) as [|i rest]; [intros [= <- <-]; exists [], (lim s); by split; [|left]|].
  destruct (String.eqb_spec f FinishStop) as [->|]; simpl;
    [|intros [= <- <-]; exists [], (lim s); by split; [|left]].
  destruct (byIndex t !! i) as [c|]; simpl; [|done]. intros H. send_cases; simpl in *.
  - destruct rest as [|j rest]; send_cases.
    + by eexists [_], _.
    + eexists ([_] ++ [_])%list. eexists. rewrite app_assoc. by split.
    + by eexists [_], _.
  - send_cases. eexists [], _. split; [eassumption|by right].
Qed.

Lemma finish_stream_ended s s' : finish_stream s = Some s' -> streaming s -> ended s'.
Proof.
  unfold finish_stream. intros ([s1 ok] & He & H)%bind_Some_inv [_ Ho _].
  apply chat_emit_inv in He as (tl & l & -> & Htl). unfold emitted in Htl.
  destruct ok; [apply bind_Some_inv in H as ([s2 ok] & Hs & [= <-]); apply chat_send_inv in Hs as [(_ & l' & ->)|(_ & Hd & ->)]|
    injection H as <-].
  - eapply close_stream; [exact Ho|simpl; by rewrite <- app_assoc|].
    destruct tl as [|[] [|[] [|]]]; simpl in *; naive_solver.
  - eapply close_stream; [exact Ho|done|]. destruct tl as [|[] [|[] [|]]]; simpl in *; naive_solver.
  - eapply close_stream; [exact Ho|done|]. destruct tl as [|[] [|[] [|]]]; simpl in *; naive_solver.
Qed.

Lemma choices_loop_inv cs : forall s s' ok, choices_loop cs s = Some (s', ok) -> streaming s ->
  streaming s' /\ ph s' = ph s /\ ctx_done s' = ctx_done s /\ (ok = false -> ctx_done s = true).
Proof.
  induction cs as [|c cs IH]; intros s s' ok H Hs; simpl in H; [by injection H as <- <-|].
  apply bind_Some_inv in H as ([s1 ok1] & Hc & H).
  assert (streaming s1 /\ ph s1 = ph s /\ ctx_done s1 = ctx_done s /\ (ok1 = false -> ctx_done s = true))
    as (Hs1 & Hp1 & Hd1 & Ho1).
  { destruct (String.eqb_spec (Delta_Content c) ""); [by injection Hc as <- <-|].
    apply chat_send_inv in Hc as [(-> & l & ->)|(-> & Hd & ->)]; [|done].
    repeat split; try done; try apply Hs. apply Forall_app. split; [apply Hs|]. by constructor. }
  destruct ok1; simpl in H; [|by injection H as <- <-].
  apply IH in H.
  - destruct (String.eqb (Choice_FinishReason c) ""); simpl in H; rewrite Hp1, Hd1 in H; done.
  - assert (Hs2 : streaming (set_calls (foldl push (calls s1) (Delta_ToolCalls c)) s1)).
    { split; try apply Hs1. apply pushes_wf, Hs1. }
    destruct (String.eqb (Choice_FinishReason c) ""); [done|]. by eapply streaming_frame.
Qed.

Lemma on_line_inv line s s' : on_line Unmarshal line s = Some s' -> streaming s -> ph s = CReading ->
  (streaming s' /\ ph s' = CReading) \/ ended s'.
Proof.
  unfold on_line. intros H Hs Hp. destruct (line_data line) as [data|]; [|injection H as <-; auto].
  destruct (String.eqb data "[DONE]"); [right; by eapply finish_stream_ended|].
  destruct (Unmarshal data) as [chunk|err]; [|right; by eapply send_error_ended].
  apply bind_Some_inv in H as ([s1 ok] & Hc & [= <-]).
  apply choices_loop_inv in Hc as (Hs1 & Hp1 & Hd1 & Ho1).
  2: { destruct (Chunk_Usage chunk) as [[]|]; [|done]. by eapply streaming_frame. }
  assert (Hp1' : ph s1 = CReading) by (rewrite Hp1; by destruct (Chunk_Usage chunk) as [[]|]).
  destruct ok; [by left|right].
  eapply close_stream; [apply Hs1|by rewrite app_nil_r|]. intros _. rewrite Hd1.
  destruct (Chunk_Usage chunk) as [[]|]; by apply Ho1.
Qed.

Lemma on_read_error_ended r s s' : on_read_error r s = Some s' -> streaming s -> ended s'.
Proof.
  unfold on_read_error. intros H Hs. pose proof Hs as [_ Ho _]. destruct (ctx_done s) eqn:Hd.
  - injection H as <-. case_match.
    + by eapply close_stream; [exact Ho|simpl; reflexivity|].
    + eapply close_stream; [exact Ho|by rewrite app_nil_r|]. by intros _.
  - destruct r; [by eapply finish_stream_ended|by eapply finish_stream_ended|by eapply send_error_ended].
Qed.

Lemma chat_step_inv a s s' : chat_step Unmarshal a s = Some s' -> (streaming s \/ ended s) -> streaming s' \/ ended s'.
Proof.
  assert (Hlim : forall n, streaming s -> streaming (set_lim n s)) by (intros; by eapply streaming_frame).
  intros H Hs. unfold chat_step in H.
  destruct (decide (ph s = CClosed)) as [Hcl|Hcl].
  - destruct a as [| | |[]]; rewrite ?Hcl in H; try done. injection H as <-. right.
    destruct Hs as [[]|[Hc (d & tl & Ht & Hd & Hok)]]; [done|]. split; [done|]. exists d, tl. split; [done|].
    split; [done|]. destruct tl as [|[] [|[] [|]]]; simpl in *; naive_solver.
  - destruct Hs as [Hs|[Hc _]]; [|unfold closed in Hc; by apply bool_decide_eq_true in Hc].
    destruct a as [| |err n|r n].
    + injection H as <-. left. by eapply streaming_frame.
    + destruct (ph s) eqn:Hp; try done. injection H as <-. left. by eapply streaming_frame.
    + destruct (ph s) eqn:Hp; try done. destruct (post_error _ err); [right; by eapply send_error_ended; eauto|].
      injection H as <-. left. by split; [|apply Hs..].
    + destruct (ph s) eqn:Hp; try (by destruct r). destruct r.
      * apply on_line_inv in H as [[]|]; auto.
      * right. by eapply on_read_error_ended; eauto.
      * right. by eapply on_read_error_ended; eauto.
Qed.

Lemma chat_reach_inv s : chat_reach Unmarshal s -> streaming s \/ ended s.
Proof.
  induction 1 as [|s a s' _ IH Hs]; [|by eapply chat_step_inv].
  left. split; [done|constructor|]. intros i Hi. by apply not_elem_of_nil in Hi.
Qed.

(** C25. Every generation stream keeps the contract of [provider.LLM], whatever
    the server sends and whenever the context or the watchdog cancels it: the
    chunks are text deltas (none empty), then at most one tool call, then at
    most one Done or Error, after which nothing follows; a delivered call that
    is followed by Done was finished normally, never truncated. While the stream
    is open only deltas have been sent, and a stream that closes without a final
    Done or Error was cancelled. *)
Theorem stream_keeps_contract s : chat_reach Unmarshal s -> well_shaped (closed s) (ctx_done s) (out s).
Proof.
  intros [[Hp Ho Hc]|[Hc Hw]]%chat_reach_inv; [|by rewrite Hc].
  exists (out s), []. rewrite app_nil_r. split; [done|]. split; [done|].
  unfold closed. by rewrite bool_decide_eq_false_2.
Qed.
End shape.

(** ** The reference: what a complete body says *)

Section reference.
Context `{V : chat_vendor} (Unmarshal : string -> chatChunk + string).
Implicit Types (cs : list chatChunk) (fs : list deltaToolCall).

Definition choices_of cs : list chatChoice := concat (map Choices cs).

Definition contents cs : list string :=
  List.filter (fun t => negb (String.eqb t "")) (map Delta_Content (choices_of cs)).

Definition fragments cs : list deltaToolCall := concat (map Delta_ToolCalls (choices_of cs)).

Definition last_given (l : list string) : string := foldl (fun old new => or_keep new old) "" l.

(** The generation's finish reason: the last one given. *)
Definition reason cs : FinishReason :=
  let r := last_given (map Choice_FinishReason (choices_of cs)) in
  if String.eqb r "" then FinishStop else mapFinish r.

Definition total_usage cs : Usage :=
  foldl (fun u c => match Chunk_Usage c with Some (p, q) => MkUsage p q | None => u end) (MkUsage 0 0) cs.

(** The distinct indices, in the order of their first fragments. *)
Definition indices fs : list Z :=
  foldl (fun acc d => if bool_decide (D_Index d ∈ acc) then acc else acc ++ [D_Index d]) [] fs.

Definition of_index (i : Z) fs : list deltaToolCall := List.filter (fun d => D_Index d =? i) fs.

(** The fragments of one index, put together. *)
Definition assembled (i : Z) fs : ToolCall :=
  {| Call_ID := last_given (map D_ID (of_index i fs));
     Call_Name := last_given (map (fun d => CF_Name (D_Function d)) (of_index i fs));
     Call_Arguments := foldl (fun a d => a +:+ CF_Arguments (D_Function d)) "" (of_index i fs) |}.

Definition completion cs : list LLMChunk :=
  let fs := fragments cs in
  match indices fs with
  | i :: rest =>
      if String.eqb (reason cs) FinishStop then
        LLMToolCall (assembled i fs) ::
        match rest with
        | [] => [LLMDone (reason cs) (total_usage cs)]
        | _ => [LLMError (fatalf ("model returned " +:+ Itoa (zlen (indices fs)) +:+
                 " tool calls; at most one per response is supported"))]
        end
      else [LLMDone (reason cs) (total_usage cs)]
  | [] => [LLMDone (reason cs) (total_usage cs)]
  end.

(** The last read of a body, and what it adds: [DONE] or the end of the body
    completes the generation, a broken event or connection fails it. *)
Definition last_chunks cs (r : read) : option (list LLMChunk) :=
  match r with
  | REOF => Some (completion cs)
  | RErr err => Some [LLMError (transientf (read_text err))]
  | RLine line =>
      data ← line_data line;
      if String.eqb data "[DONE]" then Some (completion cs)
      else match Unmarshal data with
           | inr err => Some [LLMError (fatalf ("malformed stream chunk: " +:+ err))]
           | inl _ => None
           end
  end.

(** A line that goes on: not an event, or a chunk. *)
Definition chunk_line (line : string) : option (list chatChunk) :=
  match line_data line with
  | None => Some []
  | Some data => if String.eqb data "[DONE]" then None
                 else match Unmarshal data with inl c => Some [c] | inr _ => None end
  end.

(** *** The accumulators *)

Lemma last_given_snoc l x : last_given (l ++ [x]) = or_keep x (last_given l).
Proof. unfold last_given. by rewrite foldl_app. Qed.

Lemma of_index_snoc i fs d : of_index i (fs ++ [d]) = of_index i fs ++ (if D_Index d =? i then [d] else []).
Proof. unfold of_index. rewrite List.filter_app. simpl. by destruct (D_Index d =? i). Qed.

Lemma assembled_snoc i fs d : assembled i (fs ++ [d]) =
  let c := assembled i fs in
  if D_Index d =? i then
    {| Call_ID := or_keep (D_ID d) (Call_ID c); Call_Name := or_keep (CF_Name (D_Function d)) (Call_Name c);
       Call_Arguments := Call_Arguments c +:+ CF_Arguments (D_Function d) |}
  else c.
Proof.
  unfold assembled. rewrite of_index_snoc. destruct (D_Index d =? i); simpl; [|by rewrite app_nil_r].
  rewrite !map_app. cbn [map]. by rewrite !last_given_snoc, foldl_app.
Qed.

Lemma indices_elem fs i : i ∈ indices fs <-> of_index i fs <> [].
Proof.
  induction fs as [|d fs IH] using rev_ind; [split; [by intros ?%not_elem_of_nil|done]|].
  unfold indices in *. rewrite foldl_app, of_index_snoc. simpl. case_bool_decide as Hd.
  - rewrite IH. destruct (Z.eqb_spec (D_Index d) i) as [<-|]; [|by rewrite app_nil_r].
    rewrite IH in Hd. destruct (of_index (D_Index d) fs); [done|]. simpl. split; intros _; congruence.
  - rewrite elem_of_app, list_elem_of_singleton, IH.
    destruct (Z.eqb_spec (D_Index d) i) as [->|]; [|rewrite app_nil_r; naive_solver].
    split; [intros _; by destruct (of_index i fs)|auto].
Qed.

Lemma pushes_assembled fs : order (foldl push noCalls fs) = indices fs /\
  forall i, byIndex (foldl push noCalls fs) !! i = if bool_decide (i ∈ indices fs) then Some (assembled i fs) else None.
Proof.
  induction fs as [|d fs [IHo IHb]] using rev_ind.
  { split; [done|]. intros i. by rewrite bool_decide_eq_false_2 by apply not_elem_of_nil. }
  rewrite foldl_app. cbn [foldl]. set (t := foldl push noCalls fs) in *. unfold push. rewrite IHb, IHo.
  assert (Hin : indices (fs ++ [d]) = if bool_decide (D_Index d ∈ indices fs) then indices fs else indices fs ++ [D_Index d])
    by (unfold indices; by rewrite foldl_app).
  assert (Hnew : of_index (D_Index d) fs = [] -> assembled (D_Index d) fs = MkToolCall "" "" "") by (unfold assembled; by intros ->).
  rewrite Hin. case_bool_decide as Hd; simpl; (split; [done|]); intros i; rewrite lookup_insert, assembled_snoc.
  all: destruct (Z.eqb_spec (D_Index d) i) as [<-|Hne]; [rewrite decide_True by done|rewrite decide_False by done].
  - by rewrite bool_decide_eq_true_2.
  - apply IHb.
  - rewrite bool_decide_eq_true_2 by (apply elem_of_app; right; by apply list_elem_of_singleton).
    rewrite indices_elem in Hd. rewrite Hnew; [done|].
    destruct (of_index (D_Index d) fs); [done|]. exfalso. by apply Hd.
  - rewrite IHb. simpl. erewrite bool_decide_ext; [done|]. rewrite elem_of_app, list_elem_of_singleton. naive_solver.
Qed.

(** *** The stream follows it *)

(** The goroutine after the chunks [cs], not cancelled. *)
Definition after cs : chat :=
  MkChat CReading false false (let r := last_given (map Choice_FinishReason (choices_of cs)) in
                               if String.eqb r "" then "" else mapFinish r)
    (total_usage cs) (foldl push noCalls (fragments cs)) (map LLMTextDelta (contents cs)) None.

Definition choice_finish (f : FinishReason) (l : list chatChoice) : FinishReason :=
  foldl (fun f c => if String.eqb (Choice_FinishReason c) "" then f else mapFinish (Choice_FinishReason c)) f l.

Lemma choices_loop_all l : forall s, lim s = None ->
  choices_loop l s = Some (set_finish (choice_finish (c_finish s) l)
    (set_calls (foldl push (calls s) (concat (map Delta_ToolCalls l)))
      (set_out (out s ++ map LLMTextDelta (List.filter (fun t => negb (String.eqb t "")) (map Delta_Content l))) s)), true).
Proof.
  induction l as [|c l IH]; intros s Hl; simpl.
  - rewrite app_nil_r. by destruct s.
  - rewrite foldl_app. destruct (String.eqb (Delta_Content c) "") eqn:Hc; simpl.
    2: unfold send; rewrite Hl; simpl.
    all: destruct (String.eqb (Choice_FinishReason c) "") eqn:Hf; simpl; rewrite IH by done; simpl;
      rewrite <- ?app_assoc; done.
Qed.

Lemma choice_finish_snoc l : forall f,
  choice_finish f l = let r := last_given (map Choice_FinishReason l) in if String.eqb r "" then f else mapFinish r.
Proof.
  induction l as [|c l IH] using rev_ind; intros f; [done|].
  unfold choice_finish in *. rewrite foldl_app, map_app. cbn [map]. rewrite last_given_snoc. simpl. rewrite IH.
  unfold or_keep. by destruct (String.eqb (Choice_FinishReason c) "") eqn:Hc; [|rewrite Hc].
Qed.

Lemma choices_of_app cs1 cs2 : choices_of (cs1 ++ cs2) = choices_of cs1 ++ choices_of cs2.
Proof. unfold choices_of. by rewrite map_app, concat_app. Qed.

Lemma after_line line cs new : chunk_line line = Some new ->
  chat_step Unmarshal (ARead (RLine line) None) (after cs) = Some (after (cs ++ new)).
Proof.
  unfold chunk_line. simpl. unfold on_line. change (set_lim None (after cs)) with (after cs).
  destruct (line_data line) as [data|]; [|intros [= <-]; by rewrite app_nil_r].
  destruct (String.eqb data "[DONE]"); [done|]. destruct (Unmarshal data) as [c|]; [|done]. intros [= <-].
  rewrite choices_loop_all by by destruct (Chunk_Usage c) as [[]|]. simpl. f_equal.
  unfold after, contents, fragments, total_usage.
  rewrite choices_of_app, !map_app, List.filter_app, concat_app, !foldl_app, map_app.
  replace (choices_of [c]) with (Choices c) by (unfold choices_of; simpl; by rewrite app_nil_r).
  assert (Hfin : forall x y, choice_finish (let r := last_given (map Choice_FinishReason x) in if String.eqb r "" then "" else mapFinish r) y =
    (let r := last_given (map Choice_FinishReason (x ++ y)) in if String.eqb r "" then "" else mapFinish r)).
  { intros x y. rewrite <- !choice_finish_snoc. unfold choice_finish. by rewrite foldl_app. }
  rewrite <- map_app, <- Hfin. destruct (Chunk_Usage c) as [[]|] eqn:Hu; unfold set_usage, set_finish, set_calls, set_out; simpl; by rewrite Hu.
Qed.

Lemma after_lines lines : forall cs,
  Forall (fun l => is_Some (chunk_line l)) lines ->
  chat_run Unmarshal (map (fun l => ARead (RLine l) None) lines) (after cs) =
    Some (after (cs ++ mjoin (omap chunk_line lines))).
Proof.
  induction lines as [|l lines IH]; intros cs Hl; simpl; [by rewrite app_nil_r|].
  apply Forall_cons in Hl as [[new Hn] Hl]. pose proof (after_line l cs new Hn) as Hs. simpl in Hs. rewrite Hs. simpl.
  rewrite IH by done. rewrite Hn. simpl. by rewrite <- app_assoc.
Qed.

Lemma finish_after cs : finish_stream (after cs) =
  Some (set_ph CClosed (set_out (map LLMTextDelta (contents cs) ++ completion cs) (after cs))).
Proof.
  destruct (pushes_assembled (fragments cs)) as [Ho Hb].
  assert (Hf : finishOr (c_finish (after cs)) = reason cs).
  { unfold finishOr, reason, after. simpl. destruct (String.eqb (last_given _) "") eqn:Hr; [done|].
    unfold mapFinish. repeat case_match; done. }
  unfold finish_stream, emit. rewrite Hf. change (calls (after cs)) with (foldl push noCalls (fragments cs)).
  rewrite Ho. unfold completion. destruct (indices (fragments cs)) as [|i rest] eqn:Hi; [by rewrite <- Hf|].
  destruct (String.eqb (reason cs) FinishStop) eqn:Hr; cbn [negb]; [|by rewrite <- Hf].
  rewrite Hb, bool_decide_eq_true_2 by left. rewrite <- Hf.
  destruct rest; cbn; unfold set_ph, set_out, after; simpl; by rewrite <- app_assoc.
Qed.

(** C24. A stream that is not cancelled says what its body says. Whatever the
    lines of the body (comments and blank lines skipped) and however the tool
    calls are cut into fragments and interleaved, the consumer receives the text
    deltas in order and, once the body ends (with [DONE] or without), the
    completion the reference assembles: the call with the fragments of its index
    put together, only when the generation was not truncated; an error when the
    model made several calls; the usage and finish reason last given. A
    malformed event or a broken connection ends the stream with an error
    instead, after the deltas before it. *)
Theorem stream_says_its_body (lines : list string) (r : read) (tl : list LLMChunk) :
  Forall (fun l => is_Some (chunk_line l)) lines ->
  let cs := mjoin (omap chunk_line lines) in
  last_chunks cs r = Some tl ->
  exists s, chat_run Unmarshal (APosted (Response 200 []) None :: map (fun l => ARead (RLine l) None) lines ++ [ARead r None])
      chat_start = Some s /\
    closed s = true /\ out s = map LLMTextDelta (contents cs) ++ tl.
Proof.
  intros Hl cs Hr.
  assert (Hrun : forall l1 l2 s, chat_run Unmarshal (l1 ++ l2) s = chat_run Unmarshal l1 s ≫= chat_run Unmarshal l2).
  { induction l1 as [|a l1 IH]; intros l2 s; simpl; [done|]. destruct (chat_step Unmarshal a s); simpl; [apply IH|done]. }
  cbn [chat_run]. change (chat_step Unmarshal (APosted (Response 200 []) None) chat_start) with (Some (after [])). cbn [mbind option_bind].
  rewrite Hrun, (after_lines lines []) by done. cbn [mbind option_bind app]. fold cs.
  change (set_lim None (after cs)) with (after cs).
  assert (exists s, chat_step Unmarshal (ARead r None) (after cs) = Some s /\ closed s = true /\
    out s = map LLMTextDelta (contents cs) ++ tl) as (s & Hs & Hend);
    [|exists s; cbn [chat_run]; by rewrite Hs].
  destruct r as [line| |err]; cbn [last_chunks] in Hr; simpl.
  - apply bind_Some_inv in Hr as (data & Hd & Hr). unfold on_line. rewrite Hd.
    change (set_lim None (after cs)) with (after cs).
    destruct (String.eqb data "[DONE]"); [rewrite finish_after|destruct (Unmarshal data)]; simplify_eq;
      by eexists.
  - injection Hr as <-. unfold on_read_error. change (set_lim None (after cs)) with (after cs).
    simpl. rewrite finish_after. by eexists.
  - injection Hr as <-. by eexists.
Qed.
End reference.

(** ** A concrete stream *)

(** A body whose model speaks, then calls one tool in two fragments. *)
Definition demo_vendor : chat_vendor := {| vendor := "demo"; post_text := fun e => e; read_text := fun e => e |}.

Definition demo_fragment (id name args : string) : deltaToolCall := MkDeltaToolCall 0 id "function" (MkCallFunction name args).

Definition demo_Unmarshal (data : string) : chatChunk + string :=
  if String.eqb data "1" then inl (MkChatChunk [MkChoice "Let me see." [] ""] None)
  else if String.eqb data "2" then inl (MkChatChunk [MkChoice "" [demo_fragment "call_1" "lookup" "{k"] ""] None)
  else if String.eqb data "3" then inl (MkChatChunk [MkChoice "" [demo_fragment "" "" ":1}"] "tool_calls"] None)
  else if String.eqb data "4" then inl (MkChatChunk [] (Some (7, 5)))
  else inr "invalid character".

Definition nl : string := String (Ascii.ascii_of_nat 10) EmptyString.

Definition demo_lines : list string :=
  [": ping" +:+ nl; "data: 1" +:+ nl; nl; "data: 2" +:+ nl; "data:3" +:+ nl; "data: 4" +:+ nl].

Definition demo_out : list LLMChunk :=
  [LLMTextDelta "Let me see."; LLMToolCall (MkToolCall "call_1" "lookup" "{k:1}"); LLMDone FinishStop (MkUsage 7 5)].

Lemma stream_says_its_body_witness :
  exists s, chat_run (V := demo_vendor) demo_Unmarshal
      (APosted (Response 200 []) None :: map (fun l => ARead (RLine l) None) demo_lines ++ [ARead (RLine "data: [DONE]") None])
      chat_start = Some s /\
    closed s = true /\ out s = demo_out.
Proof.
  apply (stream_says_its_body (V := demo_vendor) demo_Unmarshal demo_lines (RLine "data: [DONE]")
    [LLMToolCall (MkToolCall "call_1" "lookup" "{k:1}"); LLMDone FinishStop (MkUsage 7 5)]).
  - repeat constructor; vm_compute; eauto.
  - vm_compute. reflexivity.
Defined.

(** The context is cancelled while the call is about to be delivered. *)
Definition demo_cancelled : option chat :=
  chat_run (V := demo_vendor) demo_Unmarshal
    [APosted (Response 200 []) None; ARead (RLine "data: 1") None; ARead (RLine "data: 2") None; ACancel; ARead (RLine "data: [DONE]") (Some O)]
    chat_start.

Lemma stream_keeps_contract_witness :
  exists s, chat_reach (V := demo_vendor) demo_Unmarshal s /\ out s = [LLMTextDelta "Let me see."] /\
    well_shaped true true (out s).
Proof.
  destruct demo_cancelled as [s|] eqn:Hs; [|vm_compute in Hs; discriminate].
  assert (Hr : chat_reach (V := demo_vendor) demo_Unmarshal s).
  { revert Hs. unfold demo_cancelled. generalize (chat_reach_start (V := demo_vendor) demo_Unmarshal).
    generalize chat_start. generalize [APosted (Response 200 []) None; ARead (RLine "data: 1") None; ARead (RLine "data: 2") None; ACancel;
      ARead (RLine "data: [DONE]") (Some O)].
    induction l as [|a l IH]; intros s0 H0; simpl; [by intros [= <-]|].
    intros (s1 & H1 & Hl)%bind_Some_inv. by eapply IH; [eapply chat_reach_step|]. }
  exists s. split; [exact Hr|].
  pose proof (stream_keeps_contract (V := demo_vendor) demo_Unmarshal s Hr) as Hc.
  vm_compute in Hs. injection Hs as <-. split; [reflexivity|exact Hc].
Defined.
