(* ===== verification/ChatRequest.v ===== *)
(** * Chat requests ([internal/provider/openai/llm.go], [internal/provider/qwen/llm.go])

    What [Chat] sends: the options with their defaults, the projection of a
    [provider.ChatRequest] onto the wire, and its JSON as [encoding/json] renders
    it ([omitempty] included). The text of a float is a parameter, [FormatFloat].

    Shown: a server that reads the request back finds the whole conversation
    (every message, call and tool result, in order), the tools verbatim, and the
    tool fields only together. *)

From S2P Require Export Chat.
From S2P Require Import Wire.
#[local] Open Scope string_scope.
#[local] Open Scope list_scope.
#[local] Open Scope Z_scope.

(** ** Options *)

Definition second : Z := 10 ^ 9.

(** [strings.TrimRight(s, "/")] *)
Definition trim_slash (s : string) : string := string_of (TrimRightFunc (fun r => r =? 47) (bytes_of s)).

Definition str_default (s d : string) : string := if String.eqb s "" then d else s.
Definition or_timeout (n d : Z) : Z := if n =? 0 then d else n.

(** [httpOptions] of openai, whose fields qwen's [LLMOptions] has as well. *)
Record httpOptions := MkHttpOptions { BaseURL : string; RequestTimeout : Z; StreamIdleTimeout : Z }.

Definition applyDefaults (base : string) (o : httpOptions) : httpOptions :=
  {| BaseURL := trim_slash (str_default (BaseURL o) base);
     RequestTimeout := or_timeout (RequestTimeout o) (30 * second);
     StreamIdleTimeout := or_timeout (StreamIdleTimeout o) (30 * second) |}.

Module openai.
Definition Name := "openai".
Definition defaultBaseURL := "https://api.openai.com/v1".
Definition defaultChatModel := "gpt-6-luna".

Record LLMOptions := MkLLMOptions { http : httpOptions; Model : string; ReasoningEffort : string }.

Definition NewLLM (o : LLMOptions) : LLMOptions :=
  let model := str_default (Model o) defaultChatModel in
  {| http := applyDefaults defaultBaseURL (http o); Model := model;
     ReasoningEffort := if String.eqb model defaultChatModel && String.eqb (ReasoningEffort o) ""
                        then "none" else ReasoningEffort o |}.

#[export] Instance vendor : chat_vendor := {| vendor := Name; post_text := fun e => e; read_text := fun e => e |}.
End openai.

Module qwen.
Definition Name := "qwen".
Definition defaultLLMBaseURL := "https://dashscope.aliyuncs.com/compatible-mode/v1".
Definition defaultChatModel := "qwen3.6-flash".

Record LLMOptions := MkLLMOptions { http : httpOptions; Model : string }.

Definition NewLLM (o : LLMOptions) : LLMOptions :=
  {| http := applyDefaults defaultLLMBaseURL (http o); Model := str_default (Model o) defaultChatModel |}.

#[export] Instance vendor : chat_vendor := {| vendor := Name; post_text := fun e => "request: " +:+ e; read_text := fun e => "read stream: " +:+ e |}.
End qwen.

(** The goroutine [stream] of each package, and what differs in the text of its
    errors. *)
Definition openai_chat_step := chat_step (V := openai.vendor).
Definition qwen_chat_step := chat_step (V := qwen.vendor).
Definition qwen_post := post_error (V := qwen.vendor).
Definition qwen_emit := emit (V := qwen.vendor).

(** ** Wire shapes *)

Record chatToolCall := MkChatToolCall { CTC_ID : string; CTC_Type : string; CTC_Function : chatCallFunction }.

Record chatMessage := MkChatMessage {
  CM_Role : string; CM_Content : string; CM_ToolCalls : list chatToolCall; CM_ToolCallID : string
}.

Record chatToolFunction := MkChatToolFunction {
  TF_Name : string; TF_Description : string; TF_Parameters : option json
}.
Record chatTool := MkChatTool { CT_Type : string; CT_Function : chatToolFunction }.

(** The "any" of tool_choice: a mode, or the object form. *)
Inductive chatChoiceValue := ChoiceMode (mode : string) | chatForcedTool (name : string).

(** The extra fields of a vendor are [CR_Extra], rendered. *)
Record chatRequest := MkChatRequest {
  CR_Model : string;
  CR_Messages : list chatMessage;
  CR_MaxTokens : Z;
  CR_Extra : list (string * json);
  CR_Temperature : option float64;
  CR_Tools : list chatTool;
  CR_ToolChoice : option chatChoiceValue;
  CR_ParallelToolCalls : option bool
}.

(** ** Projection *)

Definition chatMessageOf (m : Message) : chatMessage :=
  {| CM_Role := Msg_Role m; CM_Content := Msg_Content m;
     CM_ToolCalls := map (fun tc => MkChatToolCall (Call_ID tc) "function" (MkCallFunction (Call_Name tc) (Call_Arguments tc)))
                       (default [] (Msg_ToolCalls m));
     CM_ToolCallID := Msg_ToolCallID m |}.

Definition chatTools (defs : list ToolDef) : list chatTool :=
  map (fun d => MkChatTool "function" (MkChatToolFunction (Def_Name d) (Def_Description d) (Def_Parameters d))) defs.

Definition chatToolChoice (tc : PToolChoice) : chatChoiceValue :=
  if String.eqb (Mode tc) ToolChoiceFunction then chatForcedTool (TC_Name tc)
  else if String.eqb (Mode tc) "" then ChoiceMode ToolChoiceAuto
  else ChoiceMode (Mode tc).

Definition request (model : string) (extra : list (string * json)) (req : ChatRequest) : chatRequest :=
  let tools := default [] (Req_Tools req) in
  {| CR_Model := model;
     CR_Messages :=
       (if String.eqb (Req_Instructions req) "" then []
        else [MkChatMessage "system" (Req_Instructions req) [] ""]) ++ map chatMessageOf (Req_Messages req);
     CR_MaxTokens := Req_MaxOutputTokens req;
     CR_Extra := extra;
     CR_Temperature := Req_Temperature req;
     CR_Tools := if bool_decide (tools = []) then [] else chatTools tools;
     CR_ToolChoice := if bool_decide (tools = []) then None else Some (chatToolChoice (Req_ToolChoice req));
     CR_ParallelToolCalls := if bool_decide (tools = []) then None else Some false |}.

(** ** The JSON *)

Definition omit_empty {A} (k : string) (l : list A) (f : A -> json) : list (string * json) :=
  match l with [] => [] | _ => [(k, JArr (map f l))] end.

(** A nil slice is null. *)
Definition array_json {A} (f : A -> json) (l : list A) : json := match l with [] => JNull | _ => JArr (map f l) end.

Definition callFunction_json (f : chatCallFunction) : json :=
  JObj (fstr "name" (CF_Name f) ++ fstr "arguments" (CF_Arguments f)).

Definition chatToolCall_json (c : chatToolCall) : json :=
  JObj (fstr "id" (CTC_ID c) ++ fstr "type" (CTC_Type c) ++ [("function", callFunction_json (CTC_Function c))]).

Definition chatMessage_json (m : chatMessage) : json :=
  JObj (fstr "role" (CM_Role m) ++ fstr "content" (CM_Content m) ++
        omit_empty "tool_calls" (CM_ToolCalls m) chatToolCall_json ++ fomit "tool_call_id" (CM_ToolCallID m)).

Definition chatTool_json (t : chatTool) : json :=
  let f := CT_Function t in
  JObj (fstr "type" (CT_Type t) ++
        [("function", JObj (fstr "name" (TF_Name f) ++ fomit "description" (TF_Description f) ++
           match TF_Parameters f with Some p => [("parameters", p)] | None => [] end))]).

Definition choice_json (c : chatChoiceValue) : json :=
  match c with
  | ChoiceMode mode => JStr mode
  | chatForcedTool name => JObj (fstr "type" "function" ++ [("function", JObj (fstr "name" name))])
  end.

Section render.
Context (FormatFloat : float64 -> string).

Definition request_json (max_key : string) (r : chatRequest) : list (string * json) :=
  fstr "model" (CR_Model r) ++ [("messages", array_json chatMessage_json (CR_Messages r))] ++
  fbool "stream" true ++ [("stream_options", JObj (fbool "include_usage" true))] ++
  (if CR_MaxTokens r =? 0 then [] else fint max_key (CR_MaxTokens r)) ++ CR_Extra r ++
  match CR_Temperature r with Some t => ffloat FormatFloat "temperature" t | None => [] end ++
  omit_empty "tools" (CR_Tools r) chatTool_json ++
  match CR_ToolChoice r with Some c => [("tool_choice", choice_json c)] | None => [] end ++
  match CR_ParallelToolCalls r with Some b => fbool "parallel_tool_calls" b | None => [] end.

(** What each vendor posts. *)
Definition openai_Chat (o : openai.LLMOptions) (req : ChatRequest) : list (string * json) :=
  request_json "max_completion_tokens"
    (request (openai.Model o) (fomit "reasoning_effort" (openai.ReasoningEffort o)) req).

Definition qwen_Chat (o : qwen.LLMOptions) (req : ChatRequest) : list (string * json) :=
  request_json "max_tokens" (request (qwen.Model o) (fbool "enable_thinking" false) req).

(** ** Reading it back *)

Definition str_at (k : string) (o : list (string * json)) : string :=
  match assoc k o with Some (JStr s) => s | _ => "" end.
Definition obj_at (k : string) (o : list (string * json)) : list (string * json) :=
  match assoc k o with Some (JObj m) => m | _ => [] end.
Definition array_at (k : string) (o : list (string * json)) : option (list json) :=
  match assoc k o with Some (JArr l) => Some l | _ => None end.
Definition fields (v : json) : list (string * json) := match v with JObj m => m | _ => [] end.

Definition read_call (v : json) : ToolCall :=
  let f := obj_at "function" (fields v) in
  MkToolCall (str_at "id" (fields v)) (str_at "name" f) (str_at "arguments" f).

Definition read_message (v : json) : Message :=
  {| Msg_Role := str_at "role" (fields v); Msg_Content := str_at "content" (fields v);
     Msg_ToolCalls := map read_call <$> array_at "tool_calls" (fields v);
     Msg_ToolCallID := str_at "tool_call_id" (fields v) |}.

Definition read_tool (v : json) : ToolDef :=
  let f := obj_at "function" (fields v) in
  MkToolDef (str_at "name" f) (str_at "description" f) (assoc "parameters" f).

Definition read_choice (v : json) : PToolChoice :=
  match v with
  | JStr mode => MkToolChoice mode ""
  | _ => MkToolChoice (str_at "type" (fields v)) (str_at "name" (obj_at "function" (fields v)))
  end.

(** An empty list of calls is no list; the zero choice is auto, and only a
    forced one has a name. *)
Definition normal_message (m : Message) : Message :=
  MkMessage (Msg_Role m) (Msg_Content m) (match Msg_ToolCalls m with Some [] => None | c => c end) (Msg_ToolCallID m).
Definition effective (tc : PToolChoice) : PToolChoice :=
  if String.eqb (Mode tc) ToolChoiceFunction then tc
  else MkToolChoice (str_default (Mode tc) ToolChoiceAuto) "".

Definition conversation_of (req : ChatRequest) : list Message :=
  (if String.eqb (Req_Instructions req) "" then [] else [MkMessage "system" (Req_Instructions req) None ""]) ++
  map normal_message (Req_Messages req).

(** The body says what the request says. *)
Record says (max_key : string) (body : list (string * json)) (req : ChatRequest) : Prop := {
  says_stream : assoc "stream" body = Some (JBool true);
  says_messages : map read_message (default [] (array_at "messages" body)) = conversation_of req;
  says_limit : assoc max_key body = if Req_MaxOutputTokens req =? 0 then None else Some (JInt (Req_MaxOutputTokens req));
  says_temperature : assoc "temperature" body = (fun t => JNum (FormatFloat t)) <$> Req_Temperature req;
  says_tools :
    match default [] (Req_Tools req) with
    | [] => assoc "tools" body = None /\ assoc "tool_choice" body = None /\ assoc "parallel_tool_calls" body = None
    | tools => map read_tool <$> array_at "tools" body = Some tools /\
        read_choice <$> assoc "tool_choice" body = Some (effective (Req_ToolChoice req)) /\
        assoc "parallel_tool_calls" body = Some (JBool false)
    end
}.

Lemma assoc_app k l1 l2 : assoc k (l1 ++ l2) = match assoc k l1 with Some v => Some v | None => assoc k l2 end.
Proof. induction l1 as [|[k' v] l1 IH]; simpl; [done|]. by destruct (String.eqb k k'). Qed.

Lemma read_call_json c :
  read_call (chatToolCall_json (MkChatToolCall (Call_ID c) "function" (MkCallFunction (Call_Name c) (Call_Arguments c)))) = c.
Proof. by destruct c. Qed.

Lemma read_message_json m : read_message (chatMessage_json (chatMessageOf m)) = normal_message m.
Proof.
  destruct m as [role content calls id]. unfold chatMessage_json, chatMessageOf, normal_message, read_message, fomit.
  cbn [Msg_Role Msg_Content Msg_ToolCalls Msg_ToolCallID CM_Role CM_Content CM_ToolCalls CM_ToolCallID fields].
  assert (Hc : forall l, map read_call (map chatToolCall_json (map (fun tc => MkChatToolCall (Call_ID tc) "function"
    (MkCallFunction (Call_Name tc) (Call_Arguments tc))) l)) = l).
  { induction l as [|c l IH]; [done|]. cbn [map]. by rewrite IH, read_call_json. }
  unfold omit_empty. destruct calls as [[|c calls]|]; cbn [default map];
    destruct (String.eqb_spec id "") as [->|]; f_equal; try done.
  all: unfold array_at; simpl; f_equal; f_equal; [apply (read_call_json c)|apply Hc].
Qed.

Lemma read_tool_json d : read_tool (chatTool_json (MkChatTool "function"
  (MkChatToolFunction (Def_Name d) (Def_Description d) (Def_Parameters d)))) = d.
Proof.
  destruct d as [name desc params]. unfold read_tool, chatTool_json, fomit, str_at. simpl.
  destruct (String.eqb_spec desc "") as [->|]; destruct params; done.
Qed.

Lemma read_choice_json tc : read_choice (choice_json (chatToolChoice tc)) = effective tc.
Proof.
  unfold chatToolChoice, effective, str_default. destruct tc as [mode name]. simpl.
  destruct (String.eqb_spec mode ToolChoiceFunction) as [->|]; [done|].
  by destruct (String.eqb mode "").
Qed.
Definition std_keys : list string :=
  ["model"; "messages"; "stream"; "stream_options"; "temperature"; "tools"; "tool_choice"; "parallel_tool_calls"].

Lemma assoc_fomit_ne k k' v : k <> k' -> assoc k (fomit k' v) = None.
Proof. intros Hk. unfold fomit. case_match; [done|]. simpl. by rewrite (proj2 (String.eqb_neq _ _) Hk). Qed.

Lemma assoc_omit_empty {A} k (l : list A) f :
  assoc k (omit_empty k l f) = match l with [] => None | _ => Some (JArr (map f l)) end.
Proof. destruct l; [done|]. unfold omit_empty. cbn [assoc]. by rewrite String.eqb_refl. Qed.

Lemma array_json_items {A} (f : A -> json) l :
  default [] (match array_json f l with JArr l => Some l | _ => None end) = map f l.
Proof. by destruct l. Qed.

Lemma read_messages_json req :
  map read_message (default [] (match array_json chatMessage_json
    ((if String.eqb (Req_Instructions req) "" then [] else [MkChatMessage "system" (Req_Instructions req) [] ""]) ++
      map chatMessageOf (Req_Messages req)) with JArr l => Some l | _ => None end)) = conversation_of req.
Proof.
  rewrite array_json_items, map_map, map_app, map_map. unfold conversation_of. f_equal.
  - by destruct (String.eqb (Req_Instructions req) "").
  - apply map_ext, read_message_json.
Qed.

Lemma read_tools_json tools : map read_tool (map chatTool_json (chatTools tools)) = tools.
Proof. unfold chatTools. rewrite !map_map. rewrite <- (map_id tools) at 2. apply map_ext, read_tool_json. Qed.

Lemma request_says max_key model extra req :
  max_key ∉ std_keys -> (forall k, k ∈ max_key :: std_keys -> assoc k extra = None) ->
  says max_key (request_json max_key (request model extra req)) req.
Proof.
  intros Hmax Hextra.
  assert (Hne : forall k, k ∈ std_keys -> String.eqb k max_key = false).
  { intros k Hk. apply String.eqb_neq. by intros ->. }
  assert (Hex : forall k, k ∈ std_keys -> assoc k extra = None) by (intros; apply Hextra; by right).
  assert (Hmx : forall k, k ∈ std_keys ->
    assoc k (if Req_MaxOutputTokens req =? 0 then [] else fint max_key (Req_MaxOutputTokens req)) = None).
  { intros k Hk. case_match; [done|]. cbn [fint assoc]. by rewrite Hne. }
  assert (Htemp : forall k, k <> "temperature" ->
    assoc k (match Req_Temperature req with Some t => ffloat FormatFloat "temperature" t | None => [] end) = None).
  { intros k Hk. destruct (Req_Temperature req); [|done]. cbn. by rewrite (proj2 (String.eqb_neq _ _) Hk). }
  assert (Hmkey : forall k, k ∈ std_keys -> String.eqb max_key k = false).
  { intros k Hk. rewrite String.eqb_sym. by apply Hne. }
  unfold request_json, request.
  cbn [CR_Model CR_Messages CR_MaxTokens CR_Extra CR_Temperature CR_Tools CR_ToolChoice CR_ParallelToolCalls].
  split.
  - reflexivity.
  - unfold array_at. rewrite !assoc_app. cbn [assoc fstr String.eqb Ascii.eqb Bool.eqb].
    apply read_messages_json.
  - rewrite !assoc_app. cbn [assoc fstr fbool]. rewrite !Hmkey by (unfold std_keys; set_solver).
    cbn [assoc]. rewrite (Hextra max_key) by left.
    rewrite Htemp by (intros ->; apply Hmax; unfold std_keys; set_solver).
    assert (Hrest : forall l, Forall (fun p => p.1 ∈ std_keys) l -> assoc max_key l = None).
    { induction 1 as [|[k v] l Hk _ IH]; [done|]. cbn [assoc]. by rewrite Hmkey. }
    rewrite <- !assoc_app, assoc_app. rewrite (Hrest (_ ++ _)).
    2: { rewrite !Forall_app. unfold omit_empty. repeat split; repeat case_match; repeat constructor; unfold std_keys; set_solver. }
    destruct (Req_MaxOutputTokens req =? 0); [done|]. cbn [fint assoc]. by rewrite String.eqb_refl.
  - rewrite !assoc_app. cbn. rewrite Hmx, Hex by (unfold std_keys; set_solver).
    destruct (Req_Temperature req); cbn; [done|].
    by destruct (default [] (Req_Tools req)); simpl; try done.
  - assert (Hkey : forall k tail, k ∈ ["tools"; "tool_choice"; "parallel_tool_calls"] ->
      assoc k (fstr "model" model ++ [("messages", array_json chatMessage_json
        ((if String.eqb (Req_Instructions req) "" then [] else [MkChatMessage "system" (Req_Instructions req) [] ""]) ++
          map chatMessageOf (Req_Messages req)))] ++ fbool "stream" true ++
        [("stream_options", JObj (fbool "include_usage" true))] ++
        (if Req_MaxOutputTokens req =? 0 then [] else fint max_key (Req_MaxOutputTokens req)) ++ extra ++
        match Req_Temperature req with Some t => ffloat FormatFloat "temperature" t | None => [] end ++ tail) = assoc k tail).
    { intros k tail Hk. rewrite !assoc_app.
      rewrite Hmx, Hex, Htemp by (unfold std_keys; set_solver).
      assert (k = "tools" \/ k = "tool_choice" \/ k = "parallel_tool_calls") as [->|[->| ->]] by set_solver; done. }
    unfold array_at. rewrite !Hkey by set_solver.
    destruct (default [] (Req_Tools req)) as [|d tools] eqn:Ht; [done|].
    rewrite !bool_decide_eq_false_2 by done. cbn.
    split; [|split; [|done]].
    + f_equal. apply (read_tools_json (d :: tools)).
    + f_equal. apply read_choice_json.
Qed.

(** C26. Neither vendor's request loses anything: a server that reads the posted
    JSON back finds the instructions and every message of the conversation in
    order (text, tool calls and tool results with their call ids), the tools
    verbatim, the effective tool choice, and the limit and temperature exactly
    when they are set. Without tools no tool field is sent; with tools, one call
    per response is asked for. *)
Theorem request_readback (o : openai.LLMOptions) (o' : qwen.LLMOptions) (req : ChatRequest) :
  says "max_completion_tokens" (openai_Chat o req) req /\ says "max_tokens" (qwen_Chat o' req) req.
Proof.
  split; apply request_says.
  - unfold std_keys. set_solver.
  - intros k Hk. apply assoc_fomit_ne. intros ->. unfold std_keys in Hk. set_solver.
  - unfold std_keys. set_solver.
  - intros k Hk. cbn. rewrite (proj2 (String.eqb_neq _ _)); [done|]. intros ->. unfold std_keys in Hk. set_solver.
Qed.
End render.
