(* ===== verification/Qwen.v ===== *)
(** * DashScope framing and options ([internal/provider/qwen/common.go], [asr.go], [tts.go])

    What the recognition and synthesis streams share: options and their
    defaults, the frames of a task, and the classification of a failed task. A
    frame the service sends is its header and payload, parsed. *)

From S2P Require Export ChatRequest.
From S2P Require Import Wire.
#[local] Open Scope string_scope.
#[local] Open Scope list_scope.
#[local] Open Scope Z_scope.

(** ** Text *)

(** [strings.ToLower] where it matters for an ASCII keyword: besides the ASCII
    letters only U+0130 and U+212A have an ASCII lower case. *)
Definition lower_rune (r : Z) : Z :=
  if (65 <=? r) && (r <=? 90) then r + 32 else if r =? 304 then 105 else if r =? 8490 then 107 else r.
Definition ToLower (s : string) : list Z := map lower_rune (runes (bytes_of s)).

(** [strings.Contains] of an ASCII keyword, on code points. *)
Fixpoint Contains (s : list Z) (sub : list Z) : bool :=
  bool_decide (take (length sub) s = sub) || match s with [] => false | _ :: s => Contains s sub end.

Definition firstNonEmpty (a b : string) : string := if String.eqb a "" then b else a.

(** ** Options *)

Definition defaultWSURL := "wss://dashscope.aliyuncs.com/api-ws/v1/inference".

Record wsOptions := MkWsOptions { URL : string; ConnectTimeout : Z; IdleTimeout : Z }.

Definition ws_applyDefaults (o : wsOptions) : wsOptions :=
  {| URL := str_default (URL o) defaultWSURL;
     ConnectTimeout := or_timeout (ConnectTimeout o) (10 * second);
     IdleTimeout := or_timeout (IdleTimeout o) (30 * second) |}.

Record ASROptions := MkASROptions {
  A_ws : wsOptions; A_Model : string; A_Language : string;
  FinalizeTimeout : Z; AudioQueueFrames : Z; KeepAliveInterval : Z
}.

Definition defaultASRModel := "qwen-audio-3.1-asr-flash-streaming".
Definition dashScopeNoAudioLimit : Z := 23 * second.
Definition asrEventQueue : Z := 32.
Definition asrCtlQueue : Z := 8.
Definition keepAliveMs : Z := 20.

Definition asr_applyDefaults (o : ASROptions) : ASROptions :=
  {| A_ws := ws_applyDefaults (A_ws o); A_Model := str_default (A_Model o) defaultASRModel; A_Language := A_Language o;
     FinalizeTimeout := or_timeout (FinalizeTimeout o) (3 * second);
     AudioQueueFrames := or_timeout (AudioQueueFrames o) 500;
     KeepAliveInterval := or_timeout (KeepAliveInterval o) (10 * second) |}.

(** Whether the options are accepted. *)
Definition asr_validate (o : ASROptions) : bool :=
  negb ((KeepAliveInterval o <? 0) || (dashScopeNoAudioLimit <=? KeepAliveInterval o)).

Record TTSOptions := MkTTSOptions { T_ws : wsOptions; T_Model : string; T_Voice : string; NoFlushNudge : bool }.

Definition tts_applyDefaults (o : TTSOptions) : TTSOptions :=
  {| T_ws := ws_applyDefaults (T_ws o); T_Model := str_default (T_Model o) "qwen-audio-3.1-tts-flash";
     T_Voice := str_default (T_Voice o) "longanlingxi_v3.1"; NoFlushNudge := NoFlushNudge o |}.

(** Whatever the operator leaves out, a keep-alive is sent before the service
    gives up on a silent task. *)
Lemma keepalive_within_limit o : asr_validate o = true -> 0 < KeepAliveInterval (asr_applyDefaults o) < dashScopeNoAudioLimit.
Proof.
  unfold asr_validate, asr_applyDefaults, or_timeout, dashScopeNoAudioLimit, second. simpl.
  rewrite negb_true_iff, orb_false_iff. intros [? ?]. case_match; zlia.
Qed.

(** ** Frames *)

Definition actionRunTask := "run-task".
Definition actionContinueTask := "continue-task".
Definition actionFinishTask := "finish-task".
Definition eventTaskStarted := "task-started".
Definition eventResultGenerated := "result-generated".
Definition eventTaskFinished := "task-finished".
Definition eventTaskFailed := "task-failed".

Record outHeader := MkOutHeader { Action : string; TaskID : string; Streaming : string }.

Definition newOutHeader (action taskID : string) : outHeader := MkOutHeader action taskID "duplex".

Record runPayload (P : Type) := MkRunPayload {
  TaskGroup : string; Task : string; Function_ : string; RP_Model : string; Parameters : P
}.
Arguments MkRunPayload {P}.
Arguments Parameters {P}.

Record asrParameters := MkAsrParameters { AP_Format : string; AP_SampleRate : Z; LanguageHints : list string }.
Record ttsParameters := MkTtsParameters {
  TextType : string; TP_Format : string; TP_SampleRate : Z; TP_Voice : string; TP_Rate : float64
}.

(** What a stream writes: text frames ([runFrame], [continueFrame],
    [finishFrame]) and binary ones. *)
Inductive outFrame :=
| RunAsr (h : outHeader) (p : runPayload asrParameters)
| RunTts (h : outHeader) (p : runPayload ttsParameters)
| Continue (h : outHeader) (text : string)
| Finish (h : outHeader)
| Binary (pcm : list Z).

(** The header of a frame the service sends. *)
Record inHeader := MkInHeader { H_TaskID : string; H_Event : string; ErrorCode : string; ErrorMessage : string }.

(** ** Errors *)

Definition qerror (kind : ErrorKind) (text : string) : string := Error_Error (MkError "qwen" kind text).
Definition q_fatalf (text : string) : string := qerror ErrFatal text.
Definition q_transientf (text : string) : string := qerror ErrTransient text.

Definition classify (code : string) : ErrorKind :=
  let has := Contains (ToLower code) in
  let any l := existsb (fun k => has (bytes_of k)) l in
  if any ["throttling"; "quota"; "limit"] then ErrRateLimit
  else if any ["auth"; "apikey"; "forbidden"; "accessdenied"; "invalidapi"] then ErrAuth
  else if any ["server_error"; "internal"; "unavailable"; "timeout"] then ErrTransient
  else ErrFatal.

Definition taskFailed (h : inHeader) : Error :=
  MkError "qwen" (classify (ErrorCode h)) ("task failed: " +:+ ErrorCode h +:+ ": " +:+ ErrorMessage h).

Example classify_examples :
  (classify "Throttling.RateQuota", classify "InvalidApiKey", classify "SERVER_ERROR", classify "ModelNotFound") =
  (ErrRateLimit, ErrAuth, ErrTransient, ErrFatal).
Proof. reflexivity. Qed.
