(* ===== verification/QwenAsr.v ===== *)
(** * The DashScope transcription stream ([internal/provider/qwen/asr.go])

    One socket carries a session's audio; recognition runs one task at a time on
    it. [PushAudio], [Finalize] and [Close] are the session's calls; a writer
    goroutine ([writer_step]) owns the socket's writes and runs the tasks, a
    reader goroutine ([reader_step]) maps the service's frames to facts and
    forwards the task lifecycle. [asr] is what they share and where they are;
    [log] records, in order, what the writer did and saw ([entry]), from which the frames
    on the wire ([wire]) follow; [pushed] is the audio accepted so far.

    A label of [asr_step] is one call, one case of the writer's select with the
    outcome of its writes, or one frame read. A select may take any ready case.
    The capacity of the events channel only delays a send, so a send of a fact
    succeeds or finds the context done.

    Shown: nothing pushed is lost or reordered between tasks; audio and
    finish-task frames appear only inside a started task, and a task without
    audio is never finished; result offsets map back to the pushed audio; and
    two defects, around a Finalize and around results that come late. *)

From S2P Require Export Qwen Audio.
#[local] Open Scope string_scope.
#[local] Open Scope list_scope.
#[local] Open Scope Z_scope.

(** ** Data *)

Record silenceGap := MkGap { gap_at : Z; gap_ms : Z }.

Record asrSentence := MkSentence {
  SentenceID : Z; BeginTime : option Z; EndTime : option Z; Text : string; SentenceEnd : bool
}.

(** What the writer wrote ([ERun], [EAudio], [ESilence], [EFinish], [EClose]), and
    what it was told: a task-started or task-finished frame, the end of the
    finalize timer. *)
Inductive entry :=
| ERun (id : string)
| EStarted
| EAudio (pcm : list Z)
| ESilence
| EFinish (id : string)
| EFinished
| ETimeout
| EClose (id : string).

Inductive wpc := WStart | WLoop | WFlush | WExit.

(** [RForward h go]: in [toWriter]; [go] is whether the loop goes on after it. *)
Inductive rpc := RRead | RForward (h : inHeader) (go : bool) | RExit.

#[export] Instance wpc_eq_dec : EqDecision wpc.
Proof. solve_decision. Defined.

(** The writer's variables; [deadline]: the finalize timer is armed. *)
Record writer := MkWriter {
  wp : wpc; started : bool; finalizing : bool; pending : bool; sentMs : Z; padMs : Z; deadline : bool
}.

Record asr := MkAsr {
  in_q : list (list Z);
  fin_req : bool;
  ctl : list inHeader;
  events : list ASREvent;
  ctx_done : bool;
  closing : bool;
  closeSent : bool;
  baseMs : Z;
  gaps : list silenceGap;
  currentTask : string;
  ack : bool;
  w : writer;
  rp : rpc;
  log : list entry;
  pushed : list (list Z)
}.

Definition set_in q s := MkAsr q (fin_req s) (ctl s) (events s) (ctx_done s) (closing s) (closeSent s) (baseMs s) (gaps s) (currentTask s) (ack s) (w s) (rp s) (log s) (pushed s).
Definition set_pushed p s := MkAsr (in_q s) (fin_req s) (ctl s) (events s) (ctx_done s) (closing s) (closeSent s) (baseMs s) (gaps s) (currentTask s) (ack s) (w s) (rp s) (log s) p.
Definition set_fin b s := MkAsr (in_q s) b (ctl s) (events s) (ctx_done s) (closing s) (closeSent s) (baseMs s) (gaps s) (currentTask s) (ack s) (w s) (rp s) (log s) (pushed s).
Definition set_ctl q s := MkAsr (in_q s) (fin_req s) q (events s) (ctx_done s) (closing s) (closeSent s) (baseMs s) (gaps s) (currentTask s) (ack s) (w s) (rp s) (log s) (pushed s).
Definition set_events e s := MkAsr (in_q s) (fin_req s) (ctl s) e (ctx_done s) (closing s) (closeSent s) (baseMs s) (gaps s) (currentTask s) (ack s) (w s) (rp s) (log s) (pushed s).
Definition set_ctx s := MkAsr (in_q s) (fin_req s) (ctl s) (events s) true (closing s) (closeSent s) (baseMs s) (gaps s) (currentTask s) (ack s) (w s) (rp s) (log s) (pushed s).
Definition set_closing s := MkAsr (in_q s) (fin_req s) (ctl s) (events s) (ctx_done s) true (closeSent s) (baseMs s) (gaps s) (currentTask s) (ack s) (w s) (rp s) (log s) (pushed s).
Definition set_closeSent s := MkAsr (in_q s) (fin_req s) (ctl s) (events s) (ctx_done s) (closing s) true (baseMs s) (gaps s) (currentTask s) (ack s) (w s) (rp s) (log s) (pushed s).
Definition set_clock b g s := MkAsr (in_q s) (fin_req s) (ctl s) (events s) (ctx_done s) (closing s) (closeSent s) b g (currentTask s) (ack s) (w s) (rp s) (log s) (pushed s).
Definition set_task t a s := MkAsr (in_q s) (fin_req s) (ctl s) (events s) (ctx_done s) (closing s) (closeSent s) (baseMs s) (gaps s) t a (w s) (rp s) (log s) (pushed s).
Definition set_w w s := MkAsr (in_q s) (fin_req s) (ctl s) (events s) (ctx_done s) (closing s) (closeSent s) (baseMs s) (gaps s) (currentTask s) (ack s) w (rp s) (log s) (pushed s).
Definition set_rp r s := MkAsr (in_q s) (fin_req s) (ctl s) (events s) (ctx_done s) (closing s) (closeSent s) (baseMs s) (gaps s) (currentTask s) (ack s) (w s) r (log s) (pushed s).
Definition set_log l s := MkAsr (in_q s) (fin_req s) (ctl s) (events s) (ctx_done s) (closing s) (closeSent s) (baseMs s) (gaps s) (currentTask s) (ack s) (w s) (rp s) l (pushed s).

Definition set_wp p w := MkWriter p (started w) (finalizing w) (pending w) (sentMs w) (padMs w) (deadline w).
Definition set_started w := MkWriter (wp w) true (finalizing w) (pending w) (sentMs w) (padMs w) (deadline w).
Definition set_finalizing w := MkWriter (wp w) (started w) true (pending w) (sentMs w) (padMs w) true.
Definition set_pending b w := MkWriter (wp w) (started w) (finalizing w) b (sentMs w) (padMs w) (deadline w).
Definition set_sent n w := MkWriter (wp w) (started w) (finalizing w) (pending w) n (padMs w) (deadline w).
Definition set_pad n w := MkWriter (wp w) (started w) (finalizing w) (pending w) (sentMs w) n (deadline w).

(** ** The session's calls *)

Section stream.
Context (opts : ASROptions) (params : asrParameters) (model : string).

Definition canceled : string := "context canceled".

Definition PushAudio (s : asr) (pcm : list Z) : asr * error :=
  if ctx_done s then (s, Some canceled)
  else if zlen (in_q s) <? AudioQueueFrames opts
  then (set_pushed (pushed s ++ [pcm]) (set_in (in_q s ++ [pcm]) s), None)
  else (s, Some (q_transientf "audio queue full: socket writer stalled")).

(** A request already pending stands for both. *)
Definition Finalize (s : asr) : asr * error :=
  if ctx_done s then (s, Some canceled) else (set_fin true s, None).

(** [Close] up to its wait; it cancels the context when the writer has said
    goodbye, has exited, or [connect_timeout] has passed ([ACancel]). *)
Definition Close (s : asr) : asr := set_closing s.

#[export] Instance qwen_stream : ASRStream asr := {| Provider.PushAudio := PushAudio; Provider.Finalize := Finalize |}.

(** ** The writer *)

Definition emit (ev : ASREvent) (ok : bool) (s : asr) : option asr :=
  if ok then Some (set_events (events s ++ [ev]) s) else if ctx_done s then Some s else None.

Definition endOfTurn : ASREvent := MkASREvent ASREndOfTurn "" 0 0 "".

(** The goroutine's deferred calls. *)
Definition writer_exit (s : asr) : asr := set_ctx (set_w (set_wp WExit (w s)) s).

Definition note (e : entry) (s : asr) : asr := set_log (log s ++ [e]) s.

(** A write that fails ends the writer; otherwise [k] goes on. *)
Definition after_write (ok : bool) (e : entry) (k : asr -> asr) (s : asr) : asr :=
  if ok then k (note e s) else writer_exit s.

Definition writeAudio (ok : bool) (pcm : list Z) (s : asr) : asr :=
  after_write ok (EAudio pcm) (fun s => set_w (set_sent (sentMs (w s) + BytesToMs (zlen pcm)) (w s)) s) s.

Definition sendRun (id : string) (ok : bool) (k : asr -> asr) (s : asr) : asr :=
  after_write ok (ERun id) k (set_task id true s).

Definition sendFinish (ok : bool) (k : asr -> asr) (s : asr) : asr :=
  after_write ok (EFinish (currentTask s)) k s.

Definition loop (s : asr) : asr := set_w (set_wp WLoop (w s)) s.

(** The task's own audio is behind it: the next one starts. *)
Definition restart (id : string) (ok : bool) (s : asr) : asr :=
  let s := set_clock (baseMs s + sentMs (w s)) [] s in
  let s := set_w (MkWriter (wp (w s)) false false false 0 0 false) s in
  sendRun id ok loop s.

(** The drain loop of [beginFinalize], then its end; [ok] is the outcome of the
    write, or of the send of the fact. *)
Definition flush_step (ok : bool) (s : asr) : option asr :=
  match in_q s with
  | pcm :: rest => Some (writeAudio ok pcm (set_in rest s))
  | [] =>
      if sentMs (w s) + padMs (w s) =? 0 then
        s ← emit endOfTurn ok (set_w (set_pending false (w s)) s);
        Some (if ok then loop s else writer_exit s)
      else Some (sendFinish ok (fun s => set_w (set_wp WLoop (set_finalizing (w s))) s) s)
  end.

Definition beginFinalize (s : asr) : asr := set_w (set_wp WFlush (w s)) s.

(** The cases of the writer's select, and its two straight-line parts. *)
Inductive choice :=
| CFirst (id : string) (ok : bool)
| CDone
| CClose (ok : bool)
| CCtl (id : string) (ok : bool)
| CFinalize
| CDeadline (delivered : bool) (id : string) (ok : bool)
| CAudio (ok : bool)
| CKeepAlive (ok : bool)
| CFlush (ok : bool).

Definition gate_open (s : asr) : bool := started (w s) && negb (finalizing (w s)).

Definition writer_select (c : choice) (s : asr) : option asr :=
  match c with
  | CDone => if ctx_done s then Some (writer_exit s) else None
  | CClose ok =>
      if closing s then
        let s := if started (w s) && ok then note (EClose (currentTask s)) s else s in
        Some (writer_exit (set_closeSent s))
      else None
  | CCtl id ok =>
      match ctl s with
      | [] => None
      | h :: rest =>
          let s := set_ctl rest s in
          if String.eqb (H_Event h) eventTaskStarted then
            let s := set_w (set_started (w s)) (note EStarted s) in
            Some (if pending (w s) then beginFinalize s else s)
          else if String.eqb (H_Event h) eventTaskFinished then Some (restart id ok (note EFinished s))
          else if String.eqb (H_Event h) eventTaskFailed then Some (writer_exit s)
          else Some s
      end
  | CFinalize =>
      if fin_req s then
        let s := set_fin false s in
        Some (if finalizing (w s) then s
              else if negb (started (w s)) then set_w (set_pending true (w s)) s
              else beginFinalize s)
      else None
  | CDeadline delivered id ok =>
      if deadline (w s) then
        s ← emit endOfTurn delivered s;
        Some (if delivered then restart id ok (note ETimeout s) else writer_exit s)
      else None
  | CAudio ok =>
      match in_q s with
      | pcm :: rest => if gate_open s then Some (writeAudio ok pcm (set_in rest s)) else None
      | [] => None
      end
  | CKeepAlive ok =>
      if gate_open s then
        Some (after_write ok ESilence (fun s =>
          let at_ := sentMs (w s) + padMs (w s) in
          set_w (set_pad (padMs (w s) + keepAliveMs) (w s))
            (set_clock (baseMs s) (gaps s ++ [MkGap at_ keepAliveMs]) s)) s)
      else None
  | _ => None
  end.

Definition writer_step (c : choice) (s : asr) : option asr :=
  match wp (w s), c with
  | WStart, CFirst id ok => Some (sendRun id ok loop s)
  | WFlush, CFlush ok => flush_step ok s
  | WLoop, c => writer_select c s
  | _, _ => None
  end.
(** ** The reader *)

Fixpoint unpad_loop (gs : list silenceGap) (shift ms : Z) : Z :=
  match gs with
  | [] => ms - shift
  | g :: gs =>
      if ms <=? gap_at g then ms - shift
      else if ms <? gap_at g + gap_ms g then gap_at g - shift
      else unpad_loop gs (shift + gap_ms g) ms
  end.

Definition unpad (s : asr) (ms : Z) : Z := unpad_loop (gaps s) 0 ms.

(** The fact of one sentence; nothing for an empty interim one. *)
Definition sentence_event (s : asr) (sn : asrSentence) : option ASREvent :=
  if String.eqb (Text sn) "" && negb (SentenceEnd sn) then None
  else
    let base := baseMs s in
    let start := match BeginTime sn with Some b => base + unpad s b | None => base end in
    let stop := match EndTime sn with Some e => base + unpad s e | None => base end in
    Some (if SentenceEnd sn then MkASREvent ASRFinal (Text sn) start stop ""
          else MkASREvent ASRPartial (Text sn) start start "").

Definition reader_exit (s : asr) : asr := set_rp RExit (set_ctx s).

Definition or_exit (ok : bool) (s : asr) : asr := if ok then s else reader_exit s.

(** [conn.Read]: a frame that is not a message is skipped; [FMsg] has its header
    and the sentence of its payload, if the payload has one. *)
Inductive frame := FBinary | FIgnored | FMsg (h : inHeader) (sn : option asrSentence).

Definition handle (h : inHeader) (sn : option asrSentence) (ok : bool) (s : asr) : option asr :=
  if String.eqb (H_Event h) eventResultGenerated then
    match sn ≫= sentence_event s with
    | Some ev => or_exit ok <$> emit ev ok s
    | None => Some s
    end
  else if String.eqb (H_Event h) eventTaskStarted then
    Some (set_rp (RForward h true) (set_task (currentTask s) false s))
  else if String.eqb (H_Event h) eventTaskFinished then
    if closing s then Some (set_rp (RForward h true) s)
    else s ← emit endOfTurn ok s; Some (if ok then set_rp (RForward h true) s else reader_exit s)
  else if String.eqb (H_Event h) eventTaskFailed then
    set_rp (RForward h false) <$> emit (MkASREvent ASRError "" 0 0 (Error_Error (taskFailed h))) ok s
  else Some s.

Inductive read :=
| RdFrame (f : frame) (ok : bool)
| RdError (normal : bool) (err : string) (ok : bool)
| RdForward (ok : bool).

Definition reader_step (r : read) (s : asr) : option asr :=
  match rp s, r with
  | RRead, RdFrame (FMsg h sn) ok => if String.eqb (H_Event h) "" then Some s else handle h sn ok s
  | RRead, RdFrame _ _ => Some s
  | RRead, RdError normal err ok =>
      if ctx_done s || closing s || normal then Some (reader_exit s)
      else reader_exit <$> emit (MkASREvent ASRError "" 0 0 (q_transientf ("connection closed: " +:+ err))) ok s
  | RForward h go, RdForward true =>
      if zlen (ctl s) <? asrCtlQueue
      then Some ((if go then set_rp RRead else reader_exit) (set_ctl (ctl s ++ [h]) s)) else None
  | RForward h go, RdForward false =>
      if ctx_done s || bool_decide (wp (w s) = WExit) then Some (reader_exit s) else None
  | _, _ => None
  end.

(** ** The whole stream *)

(** [ACancel]: the session's context, or the end of [Close]; [AAck]: no
    task-started within [idle_timeout]. *)
Inductive act :=
| APush (pcm : list Z)
| AFinalize
| AClose
| ACancel
| AAck
| AWriter (c : choice)
| AReader (r : read).

Definition asr_step (a : act) (s : asr) : option asr :=
  match a with
  | APush pcm => Some (PushAudio s pcm).1
  | AFinalize => Some (Finalize s).1
  | AClose => Some (Close s)
  | ACancel => Some (set_ctx s)
  | AAck => if ack s then Some (set_ctx s) else None
  | AWriter c => writer_step c s
  | AReader r => reader_step r s
  end.

(** [OpenStream], once dialed: the first run-task's timer is armed. *)
Definition asr_start : asr :=
  {| in_q := []; fin_req := false; ctl := []; events := []; ctx_done := false; closing := false; closeSent := false;
     baseMs := 0; gaps := []; currentTask := ""; ack := true;
     w := MkWriter WStart false false false 0 0 false; rp := RRead; log := []; pushed := [] |}.

Inductive asr_reach : asr -> Prop :=
| asr_reach_start : asr_reach asr_start
| asr_reach_step s a s' : asr_reach s -> asr_step a s = Some s' -> asr_reach s'.

Fixpoint asr_run (l : list act) (s : asr) : option asr :=
  match l with
  | [] => Some s
  | a :: l => asr_step a s ≫= asr_run l
  end.

Lemma asr_run_reach l : forall s s', asr_reach s -> asr_run l s = Some s' -> asr_reach s'.
Proof.
  induction l as [|a l IH]; intros s s' Hs; simpl; [by intros [= <-]|].
  intros (s1 & H1 & Hl)%bind_Some_inv. apply (IH s1); [|done]. by eapply asr_reach_step.
Qed.

(** The parameters of recognition, from the session's configuration. *)
Definition asr_params (cfg : ASRConfig) : asrParameters :=
  let lang := firstNonEmpty (ASR_Language cfg) (A_Language opts) in
  {| AP_Format := "pcm"; AP_SampleRate := if ASR_SampleRate cfg =? 0 then SampleRate else ASR_SampleRate cfg;
     LanguageHints := if String.eqb lang "" then [] else [lang] |}.

(** The frames on the wire. *)
Definition silence_frame : list Z := repeat 0 (Z.to_nat (Z.quot (AP_SampleRate params * 2 * keepAliveMs) 1000)).

Definition entry_frame (e : entry) : option outFrame :=
  match e with
  | ERun id => Some (RunAsr (newOutHeader actionRunTask id) (MkRunPayload "audio" "asr" "recognition" model params))
  | EAudio pcm => Some (Binary pcm)
  | ESilence => Some (Binary silence_frame)
  | EFinish id | EClose id => Some (Qwen.Finish (newOutHeader actionFinishTask id))
  | EStarted | EFinished | ETimeout => None
  end.

Definition wire (s : asr) : list outFrame := omap entry_frame (log s).
End stream.
