(* ===== verification/QwenAsrProps.v ===== *)
(** * Properties of the DashScope transcription stream ([internal/provider/qwen/asr.go])

    The invariant of [QwenAsr.asr_reach] and what follows from it: conservation
    of the audio, the discipline of the tasks on the wire, the timeline of the
    results; then two concrete runs that show defects. *)

From S2P Require Export QwenAsr.
#[local] Open Scope string_scope.
#[local] Open Scope list_scope.
#[local] Open Scope Z_scope.

(** ** The discipline of the tasks *)

(** Where the recognition is; [ms] is the audio and silence of the task so far.
    [TNone]: there is no task, at the start, after a task-finished frame (whatever
    task it names) or after the wait for one. [TRogue]: the service acknowledged
    the task twice; what is written to it is open until it is over. *)
Inductive phase :=
| TRogue
| TNone
| TStarting (id : string)
| TRunning (id : string) (ms : Z)
| TFinishing (id : string)
| TClosed.

Definition next (p : phase) (e : entry) : option phase :=
  match e, p with
  | ERun id, TNone => Some (TStarting id)
  | EStarted, TStarting id => Some (TRunning id 0)
  | EStarted, (TRunning _ _ | TFinishing _) => Some TRogue
  | EAudio pcm, TRunning id n => Some (TRunning id (n + BytesToMs (zlen pcm)))
  | ESilence, TRunning id n => Some (TRunning id (n + keepAliveMs))
  | EFinish id', TRunning id n => if bool_decide (id' = id) && (0 <? n) then Some (TFinishing id) else None
  | EFinished, (TStarting _ | TRunning _ _ | TFinishing _ | TRogue) => Some TNone
  | ETimeout, (TFinishing _ | TRogue) => Some TNone
  | EClose id', (TRunning id _ | TFinishing id) => if bool_decide (id' = id) then Some TClosed else None
  | EClose _, TRogue => Some TClosed
  | (EStarted | EAudio _ | ESilence | EFinish _), TRogue => Some TRogue
  | _, _ => None
  end.

Definition phase_of (log : list entry) : option phase := foldl (fun p e => p ≫= fun p => next p e) (Some TNone) log.

Lemma asr_phase_of_snoc log e : phase_of (log ++ [e]) = phase_of log ≫= fun p => next p e.
Proof. unfold phase_of. by rewrite foldl_app. Qed.

(** ** The timeline *)

(** A piece of the current task's audio: whether it is keep-alive silence, and
    its milliseconds. *)
Definition pieces_of (e : entry) : list (bool * Z) :=
  match e with EAudio pcm => [(false, BytesToMs (zlen pcm))] | ESilence => [(true, keepAliveMs)] | _ => [] end.

Fixpoint audio_ms (ps : list (bool * Z)) : Z :=
  match ps with [] => 0 | (silence, n) :: ps => (if silence : bool then 0 else n) + audio_ms ps end.
Fixpoint total_ms (ps : list (bool * Z)) : Z := match ps with [] => 0 | (_, n) :: ps => n + total_ms ps end.

(** The milliseconds of audio of the tasks before the current one, and the
    pieces of the current one. *)
Definition clock_step (c : Z * list (bool * Z)) (e : entry) : Z * list (bool * Z) :=
  match e with EFinished | ETimeout => (c.1 + audio_ms c.2, []) | _ => (c.1, c.2 ++ pieces_of e) end.
Definition clock_of (log : list entry) : Z * list (bool * Z) := foldl clock_step (0, []) log.

(** How much pushed audio the service had heard [m] milliseconds into a task. *)
Fixpoint pushed_offset (ps : list (bool * Z)) (m : Z) : Z :=
  match ps with
  | [] => 0
  | (silence, n) :: ps => (if silence : bool then 0 else Z.min n m) + (if m <=? n then 0 else pushed_offset ps (m - n))
  end.

Fixpoint gaps_from (pos : Z) (ps : list (bool * Z)) : list silenceGap :=
  match ps with
  | [] => []
  | (silence, n) :: ps => (if silence : bool then [MkGap pos n] else []) ++ gaps_from (pos + n) ps
  end.

Lemma clock_of_snoc log e : clock_of (log ++ [e]) = clock_step (clock_of log) e.
Proof. unfold clock_of. by rewrite foldl_app. Qed.

Lemma audio_ms_app ps qs : audio_ms (ps ++ qs) = audio_ms ps + audio_ms qs.
Proof. induction ps as [|[b n] ps IH]; simpl; lia. Qed.

Lemma total_ms_app ps qs : total_ms (ps ++ qs) = total_ms ps + total_ms qs.
Proof. induction ps as [|[b n] ps IH]; simpl; lia. Qed.

Lemma gaps_from_app ps qs : forall pos, gaps_from pos (ps ++ qs) = gaps_from pos ps ++ gaps_from (pos + total_ms ps) qs.
Proof.
  induction ps as [|[b n] ps IH]; intros pos; simpl; [by rewrite Z.add_0_r|].
  rewrite IH, <- app_assoc. by rewrite Z.add_assoc.
Qed.

Definition pieces_ok (ps : list (bool * Z)) : Prop := Forall (fun p => 0 <= p.2) ps.

Lemma total_ms_nonneg ps : pieces_ok ps -> 0 <= total_ms ps.
Proof. induction 1 as [|[b n] ps H _ IH]; simpl in *; lia. Qed.

(** Before the first gap nothing is shifted. *)
Lemma unpad_before ps : forall pos shift m, pieces_ok ps -> m <= pos ->
  unpad_loop (gaps_from pos ps) shift m = m - shift.
Proof.
  induction ps as [|[b n] ps IH]; intros pos shift m Hok Hm; [done|].
  apply Forall_cons in Hok as [Hn Hok]. simpl in *. destruct b; simpl; [|by apply IH; [|lia]].
  by rewrite (proj2 (Z.leb_le _ _)).
Qed.

(** [unpad] inverts the padding: it is the pushed audio the service had heard. *)
Lemma unpad_pushed_offset ps : forall pos shift m, pieces_ok ps -> 0 <= m <= total_ms ps ->
  unpad_loop (gaps_from pos ps) shift (pos + m) = pos - shift + pushed_offset ps m.
Proof.
  induction ps as [|[b n] ps IH]; intros pos shift m Hok Hm; simpl in *; [lia|].
  apply Forall_cons in Hok as [Hn Hok]. simpl in Hn. destruct (m <=? n) eqn:Hmn; bool_arith.
  - destruct b; simpl.
    + destruct (pos + m <=? pos) eqn:H1; bool_arith; [lia|].
      destruct (pos + m <? pos + n) eqn:H2; bool_arith; [lia|].
      rewrite unpad_before by (done || lia). lia.
    + rewrite unpad_before by (done || lia). lia.
  - specialize (IH (pos + n) (if b then shift + n else shift) (m - n) Hok ltac:(lia)).
    replace (pos + n + (m - n)) with (pos + m) in IH by lia. destruct b; simpl.
    + rewrite (proj2 (Z.leb_gt _ _)), (proj2 (Z.ltb_ge _ _)) by lia. rewrite IH. lia.
    + rewrite IH. lia.
Qed.

(** ** The audio *)

Definition entry_audio (e : entry) : list Z := match e with EAudio pcm => pcm | _ => [] end.
Definition audio_of (log : list entry) : list Z := concat (map entry_audio log).

Lemma audio_of_snoc log e : audio_of (log ++ [e]) = audio_of log ++ entry_audio e.
Proof. unfold audio_of. rewrite map_app, concat_app. simpl. by rewrite app_nil_r. Qed.

(** ** The invariant *)

(** The phase the writer's variables stand for. *)
Definition task_phase (s : asr) : phase :=
  if finalizing (w s) then TFinishing (currentTask s)
  else if started (w s) then TRunning (currentTask s) (sentMs (w s) + padMs (w s))
  else TStarting (currentTask s).

Definition at_phase (s : asr) (p : phase) : Prop :=
  match wp (w s) with
  | WExit => True
  | WStart => p = TNone /\ w s = MkWriter WStart false false false 0 0 false
  | WLoop => p = TRogue \/ p = task_phase s
  | WFlush => started (w s) = true /\ (p = TRogue \/ p = task_phase s /\ finalizing (w s) = false)
  end /\ (started (w s) = false -> sentMs (w s) = 0 /\ padMs (w s) = 0).

Record inv (s : asr) : Prop := {
  iv_phase : exists p, phase_of (log s) = Some p /\ at_phase s p;
  iv_audio : exists rest, concat (pushed s) = audio_of (log s) ++ rest /\
    (wp (w s) <> WExit -> rest = concat (in_q s));
  iv_base : (clock_of (log s)).1 = baseMs s;
  iv_gaps : gaps s = gaps_from 0 (clock_of (log s)).2;
  iv_sent : sentMs (w s) = audio_ms (clock_of (log s)).2;
  iv_pad : padMs (w s) = total_ms (clock_of (log s)).2 - audio_ms (clock_of (log s)).2;
  iv_ok : pieces_ok (clock_of (log s)).2;
  iv_timer : deadline (w s) = true -> finalizing (w s) = true
}.

Section props.
Context (opts : ASROptions).

Lemma asr_inv_frame s s' : inv s -> log s' = log s -> w s' = w s -> pushed s' = pushed s -> in_q s' = in_q s ->
  baseMs s' = baseMs s -> gaps s' = gaps s -> currentTask s' = currentTask s -> inv s'.
Proof.
  intros [(p & Hp & Ha) Hau Hb Hg Hs Hpd Hok Hdl] E1 E2 E3 E4 E5 E6 E7.
  split; rewrite ?E1, ?E2, ?E3, ?E4, ?E5, ?E6; try done.
  exists p. split; [done|]. unfold at_phase, task_phase in *. by rewrite E2, E7.
Qed.

(** The writer may die with audio it could not write. *)
Lemma inv_exit_with q s : inv s -> inv (writer_exit (set_in q s)).
Proof.
  intros [(p & Hp & Ha) (rest & Hr & _) Hb Hg Hs Hpd Hok Hdl]. split; try done.
  - exists p. split; [done|]. split; [done|]. apply Ha.
  - by exists rest.
Qed.

Lemma inv_exit s : inv s -> inv (writer_exit s).
Proof. intros H. replace s with (set_in (in_q s) s) by (by destruct s). by apply inv_exit_with. Qed.

Lemma inv_exit_task id a s : inv s -> inv (writer_exit (set_task id a s)).
Proof.
  intros [(p & Hp & Ha) (rest & Hr & _) Hb Hg Hs Hpd Hok Hdl]. split; try done.
  - exists p. split; [done|]. split; [done|]. apply Ha.
  - by exists rest.
Qed.

(** The writer's variables change, the log does not. *)
Lemma inv_w s w' : inv s -> sentMs w' = sentMs (w s) -> padMs w' = padMs (w s) -> wp (w s) <> WExit ->
  (deadline w' = true -> finalizing w' = true) ->
  (forall p, at_phase s p -> at_phase (set_w w' s) p) -> inv (set_w w' s).
Proof.
  intros [(p & Hp & Ha) (rest & Hr & Hq) Hb Hg Hs Hpd Hok Hdl] E1 E2 Hx Hdl' Hph. split; simpl; rewrite ?E1, ?E2; try done.
  - exists p. split; [done|]. by apply Hph.
  - exists rest. split; [done|]. intros _. by apply Hq.
Qed.

(** While a task takes audio. *)
Definition open_phase (s : asr) (p : phase) : Prop :=
  p = TRogue \/ p = TRunning (currentTask s) (sentMs (w s) + padMs (w s)) /\ started (w s) = true /\ finalizing (w s) = false.

Lemma loop_phase s p : at_phase s p -> wp (w s) = WLoop -> started (w s) = true -> finalizing (w s) = false -> open_phase s p.
Proof.
  intros [Hp _] E Hs Hf. rewrite E in Hp. destruct Hp as [->| ->]; [by left|right]. unfold task_phase. by rewrite Hs, Hf.
Qed.

Lemma flush_phase s p : at_phase s p -> wp (w s) = WFlush -> open_phase s p.
Proof.
  intros [Hp _] E. rewrite E in Hp. destruct Hp as [Hs [->|[-> Hf]]]; [by left|right].
  unfold task_phase. by rewrite Hs, Hf.
Qed.

Lemma inv_writeAudio ok pcm rest s : inv s -> in_q s = pcm :: rest ->
  wp (w s) = WLoop \/ wp (w s) = WFlush -> (forall p, at_phase s p -> open_phase s p) ->
  started (w s) = true ->
  inv (writeAudio ok pcm (set_in rest s)).
Proof.
  intros Hi Hq Hw Hop Hst. unfold writeAudio, after_write. destruct ok; [|by apply inv_exit_with].
  destruct Hi as [(p & Hp & Ha) (r & Hr & Hr') Hb Hg Hs Hpd Hok Hdl].
  pose proof (BytesToMs_nonneg (zlen pcm) (zlen_nonneg pcm)).
  split; simpl; rewrite ?clock_of_snoc, ?asr_phase_of_snoc; simpl; try done.
  - rewrite Hp. destruct (Hop _ Ha) as [->|(-> & Hs1 & Hf)]; simpl; eexists; (split; [reflexivity|]);
      (split; [|simpl; congruence]); destruct Hw as [Hw|Hw]; simpl; rewrite Hw; auto.
    all: unfold task_phase; simpl; rewrite Hs1, Hf; first [right|split; [done|right; split; [|done]]]; f_equal; lia.
  - exists (concat rest). rewrite audio_of_snoc. simpl. split; [|done].
    rewrite Hr, Hr', Hq by (destruct Hw as [-> | ->]; done). simpl. by rewrite <- app_assoc.
  - rewrite gaps_from_app. simpl. by rewrite app_nil_r.
  - rewrite audio_ms_app. simpl. lia.
  - rewrite audio_ms_app, total_ms_app. simpl. lia.
  - apply Forall_app. split; [done|]. by repeat constructor.
Qed.

Lemma inv_silence ok s : inv s -> wp (w s) = WLoop -> started (w s) = true -> finalizing (w s) = false ->
  inv (after_write ok ESilence (fun s =>
    let at_ := sentMs (w s) + padMs (w s) in
    set_w (set_pad (padMs (w s) + keepAliveMs) (w s))
      (set_clock (baseMs s) (gaps s ++ [MkGap at_ keepAliveMs]) s)) s).
Proof.
  intros Hi Hw Hst Hfi. unfold after_write. destruct ok; [|by apply inv_exit].
  destruct Hi as [(p & Hp & Ha) (r & Hr & Hr') Hb Hg Hs Hpd Hok Hdl].
  split; simpl; rewrite ?clock_of_snoc, ?asr_phase_of_snoc; simpl; try done.
  - rewrite Hp. destruct (loop_phase _ _ Ha Hw Hst Hfi) as [->|(-> & _)]; simpl; eexists; (split; [reflexivity|]);
      (split; [|simpl; congruence]); simpl; rewrite Hw; auto.
    unfold task_phase. simpl. rewrite Hst, Hfi. right. f_equal. lia.
  - exists r. rewrite audio_of_snoc, app_nil_r. by rewrite Hw in *.
  - rewrite gaps_from_app, Hg. simpl. f_equal. f_equal. f_equal. lia.
  - rewrite audio_ms_app. simpl. lia.
  - rewrite audio_ms_app, total_ms_app. simpl. lia.
  - apply Forall_app. split; [done|]. by repeat constructor.
Qed.

(** An entry that carries no audio. *)
Lemma inv_note e w' t a s : inv s -> pieces_of e = [] -> e <> EFinished -> e <> ETimeout -> entry_audio e = [] ->
  sentMs w' = sentMs (w s) -> padMs w' = padMs (w s) -> wp (w s) <> WExit -> (deadline w' = true -> finalizing w' = true) ->
  (forall p, at_phase s p -> exists p', next p e = Some p' /\ at_phase (set_task t a (set_w w' s)) p') ->
  inv (set_w w' (note e (set_task t a s))).
Proof.
  intros [(p & Hp & Ha) (r & Hr & Hr') Hb Hg Hs Hpd Hok Hdl] H1 H2 H2' H3 E1 E2 Hx Hdl' Hph.
  assert (Hc : clock_of (log s ++ [e]) = clock_of (log s)).
  { rewrite clock_of_snoc. unfold clock_step. destruct e; try done; simpl in H1; by rewrite app_nil_r; destruct (clock_of _). }
  split; simpl; rewrite ?Hc, ?E1, ?E2; try done.
  - destruct (Hph _ Ha) as (p' & Hn & Ha'). exists p'. rewrite asr_phase_of_snoc, Hp. done.
  - exists r. rewrite audio_of_snoc, H3, app_nil_r. split; [done|]. intros _. by apply Hr'.
Qed.
Lemma inv_sendRun id ok s : inv s -> (forall p, at_phase s p -> p = TNone) ->
  started (w s) = false -> finalizing (w s) = false -> wp (w s) <> WExit -> inv (sendRun id ok loop s).
Proof.
  intros Hi Hn Hst Hfi Hx. unfold sendRun, after_write. destruct ok.
  - apply (inv_note (ERun id) (set_wp WLoop (w s)) id true s); try done; [by apply iv_timer|]. intros p Hp.
    rewrite (Hn _ Hp). exists (TStarting id). split; [done|]. destruct Hp as [_ Hz].
    split; [|exact Hz]. simpl. right. unfold task_phase. simpl. by rewrite Hst, Hfi.
  - by apply inv_exit_task.
Qed.

(** A task is over, for a reason [e] that ends one, and the next is started. *)
Lemma inv_restart e id ok s : inv s -> wp (w s) = WLoop -> e = EFinished \/ e = ETimeout /\ finalizing (w s) = true ->
  inv (restart id ok (note e s)).
Proof.
  intros [(p & Hp & Ha) (r & Hr & Hr') Hb Hg Hs Hpd Hok Hdl] Hw He. unfold restart, sendRun, after_write.
  assert (Hnext : phase_of (log s ++ [e]) = Some TNone).
  { rewrite asr_phase_of_snoc, Hp. unfold at_phase in Ha. rewrite Hw in Ha.
    destruct Ha as [[-> | ->] _]; [by destruct He as [->|[-> _]]|].
    unfold task_phase. destruct He as [->|[-> Hf]]; [by repeat case_match|by rewrite Hf]. }
  assert (Hc : clock_of (log s ++ [e]) = ((clock_of (log s)).1 + audio_ms (clock_of (log s)).2, []))
    by (rewrite clock_of_snoc; by destruct He as [->|[-> _]]).
  assert (Hau : audio_of (log s ++ [e]) = audio_of (log s))
    by (rewrite audio_of_snoc; destruct He as [->|[-> _]]; apply app_nil_r).
  rewrite Hw in Hr'. specialize (Hr' ltac:(done)). destruct ok.
  - split; simpl; rewrite ?(clock_of_snoc (_ ++ _)), ?(audio_of_snoc (_ ++ _)); simpl; rewrite ?Hc, ?Hau; simpl; try done.
    + rewrite asr_phase_of_snoc, Hnext. exists (TStarting id). split; [done|]. split; [by right|done].
    + exists r. by rewrite app_nil_r.
    + lia.
    + by constructor.
  - split; simpl; rewrite ?Hc, ?Hau; simpl; try done.
    + exists TNone. split; [done|]. by split.
    + by exists r.
    + lia.
    + by constructor.
Qed.

Lemma asr_emit_inv ev ok s s' : emit ev ok s = Some s' ->
  s' = set_events (events s ++ [ev]) s \/ (ok = false /\ ctx_done s = true /\ s' = s).
Proof. unfold emit. destruct ok; [intros [= <-]; auto|]. destruct (ctx_done s); intros [= <-]; auto. Qed.

Lemma inv_emit ev ok s s' : emit ev ok s = Some s' -> inv s -> inv s' /\ w s' = w s /\ in_q s' = in_q s.
Proof. intros [->|(_ & _ & ->)]%asr_emit_inv Hi; [|done]. split; [|done]. by apply (asr_inv_frame s). Qed.

Lemma inv_flush ok s s' : flush_step ok s = Some s' -> wp (w s) = WFlush -> inv s -> inv s'.
Proof.
  intros H Hw Hi. assert (Hst : started (w s) = true).
  { destruct (iv_phase _ Hi) as (p & _ & Ha & _). rewrite Hw in Ha. apply Ha. }
  assert (Hop : forall p, at_phase s p -> open_phase s p) by (intros; by apply flush_phase).
  unfold flush_step in H.
  destruct (in_q s) as [|pcm rest] eqn:Hq; [|injection H as <-; by apply inv_writeAudio; auto].
  destruct (sentMs (w s) + padMs (w s) =? 0) eqn:Hz; bool_arith.
  - assert (Hi' : inv (set_w (set_pending false (w s)) s)).
    { apply inv_w; try done; [by rewrite Hw|by apply iv_timer|]. intros p. unfold at_phase. simpl. by rewrite Hw. }
    apply bind_Some_inv in H as (s1 & He & H). apply inv_emit in He as (Hi1 & Hw1 & _); [|done].
    injection H as <-. destruct ok; [|by apply inv_exit].
    apply inv_w; rewrite ?Hw1; try done; [simpl; congruence|by apply (iv_timer _ Hi)|].
    intros p Ha. pose proof (flush_phase _ _ Ha ltac:(by rewrite Hw1)) as Hp. destruct Ha as [_ Hz'].
    split; [|by rewrite Hw1 in Hz']. simpl. destruct Hp as [->|(-> & Hs1 & Hf1)]; [by left|right].
    unfold task_phase. simpl. rewrite Hw1 in *. simpl in *. by rewrite Hs1, Hf1.
  - injection H as <-. unfold sendFinish, after_write. destruct ok; [|by apply inv_exit].
    replace s with (set_task (currentTask s) (ack s) s) at 1 2 by (by destruct s).
    apply (inv_note (EFinish (currentTask s)) (set_wp WLoop (set_finalizing (w s)))); try done; [by rewrite Hw|].
    intros p Ha. pose proof (iv_sent _ Hi). pose proof (iv_pad _ Hi). pose proof (total_ms_nonneg _ (iv_ok _ Hi)).
    destruct (Hop _ Ha) as [->|(-> & _)]; simpl; [|rewrite bool_decide_eq_true_2, (proj2 (Z.ltb_lt _ _)) by (done || lia)];
      eexists; (split; [reflexivity|]); (split; [|apply Ha]); simpl; [by left|by right].
Qed.

(** The drain of [beginFinalize] starts inside a task, unless the service
    acknowledged it twice. *)
Lemma inv_beginFinalize s : inv s -> wp (w s) = WLoop -> started (w s) = true ->
  (forall p, phase_of (log s) = Some p -> p = TRogue \/ finalizing (w s) = false) -> inv (beginFinalize s).
Proof.
  intros [(p & Hp & Ha) (rest & Hr & Hq) Hb Hg Hs Hpd Hok Hdl] Hw Hst Hfi. split; simpl; try done.
  - exists p. split; [done|]. destruct (Hfi _ Hp) as [->|Hf]; (split; [|apply Ha]); simpl; (split; [done|]); [by left|].
    destruct Ha as [Ha _]. rewrite Hw in Ha. destruct Ha as [->| ->]; [by left|by right].
  - exists rest. split; [done|]. intros _. apply Hq. by rewrite Hw.
Qed.

Lemma inv_started s : inv s -> wp (w s) = WLoop ->
  inv (set_w (set_started (w s)) (note EStarted s)) /\
  (forall p, phase_of (log s ++ [EStarted]) = Some p -> p = TRogue \/ finalizing (w s) = false).
Proof.
  intros Hi Hw.
  assert (Hph : forall p, at_phase s p -> exists p', next p EStarted = Some p' /\
    (p' = TRogue \/ finalizing (w s) = false /\ p' = task_phase (set_w (set_started (w s)) s))).
  { intros p [Ha Hz]. rewrite Hw in Ha. destruct Ha as [->| ->]; [simpl; eauto|]. unfold task_phase. simpl.
    destruct (finalizing (w s)); [simpl; eauto|]. destruct (started (w s)); [simpl; eauto|].
    destruct (Hz eq_refl) as [-> ->]. simpl. eauto. }
  split.
  - replace s with (set_task (currentTask s) (ack s) s) at 2 by (by destruct s).
    apply inv_note; try done; [by rewrite Hw|by apply (iv_timer _ Hi)|]. intros p Ha. destruct (Hph _ Ha) as (p' & Hn & Hp').
    exists p'. split; [done|]. split; [|done]. simpl. rewrite Hw. destruct Hp' as [->|[_ ->]]; [by left|by right].
  - intros p Hlog. destruct (iv_phase _ Hi) as (p0 & Hp0 & Ha0). rewrite asr_phase_of_snoc, Hp0 in Hlog.
    destruct (Hph _ Ha0) as (p' & Hn & Hp'). change (next p0 EStarted = Some p) in Hlog. rewrite Hn in Hlog. injection Hlog as <-.
    destruct Hp' as [->|[Hf _]]; auto.
Qed.

Lemma inv_close ok s : inv s -> wp (w s) = WLoop ->
  inv (writer_exit (set_closeSent (if started (w s) && ok then note (EClose (currentTask s)) s else s))).
Proof.
  intros Hi Hw. destruct (started (w s)) eqn:Hst; [destruct ok|]; simpl;
    [|by apply (asr_inv_frame (writer_exit s)); [apply inv_exit|..]..].
  destruct Hi as [(p & Hp & Ha) (r & Hr & Hr') Hb Hg Hs Hpd Hok Hdl].
  assert (Hc : clock_of (log s ++ [EClose (currentTask s)]) = clock_of (log s)).
  { rewrite clock_of_snoc. simpl. rewrite app_nil_r. by destruct (clock_of (log s)). }
  split; simpl; rewrite ?Hc, ?asr_phase_of_snoc, ?audio_of_snoc; simpl; try done.
  - rewrite Hp. unfold at_phase in *. rewrite Hw in Ha. destruct Ha as [[-> | ->] Hz]; simpl; [by exists TClosed|].
    unfold task_phase. rewrite Hst. exists TClosed.
    split; [destruct (finalizing (w s)); simpl; by rewrite bool_decide_eq_true_2|by split].
  - exists r. by rewrite app_nil_r.
Qed.

Lemma inv_select c s s' : writer_select c s = Some s' -> wp (w s) = WLoop -> inv s -> inv s'.
Proof.
  intros H Hw Hi. destruct c as [| |ok|id ok| |delivered id ok|ok|ok|ok]; simpl in H; try done.
  - destruct (ctx_done s); [injection H as <-; by apply inv_exit|done].
  - destruct (closing s); [injection H as <-; by apply inv_close|done].
  - destruct (ctl s) as [|h rest]; [done|].
    assert (Hi' : inv (set_ctl rest s)) by by apply (asr_inv_frame s).
    destruct (inv_started _ Hi' Hw) as [Hs Hro].
    repeat case_match; injection H as <-; try done; [|by apply inv_restart; auto|by apply inv_exit].
    by apply inv_beginFinalize.
  - destruct (fin_req s); [|done]. injection H as <-.
    assert (Hi' : inv (set_fin false s)) by by apply (asr_inv_frame s).
    destruct (finalizing (w s)) eqn:Hfi; [done|].
    destruct (started (w s)) eqn:Hst; simpl; [apply inv_beginFinalize; auto|].
    apply (inv_w (set_fin false s)); simpl; rewrite ?Hw; try done; [by apply (iv_timer _ Hi)|]. intros p. unfold at_phase. simpl. by rewrite Hw.
  - destruct (deadline (w s)) eqn:Hde; [|done]. apply bind_Some_inv in H as (s1 & He & H). injection H as <-.
    apply inv_emit in He as (Hi1 & Hw1 & _); [|done]. destruct delivered; [|by apply inv_exit].
    apply inv_restart; [done|by rewrite Hw1|]. right. rewrite Hw1. split; [done|]. by apply (iv_timer _ Hi).
  - destruct (in_q s) as [|pcm rest] eqn:Hq; [done|]. unfold gate_open in H.
    destruct (started (w s)) eqn:Hst, (finalizing (w s)) eqn:Hfi; try done. injection H as <-.
    apply inv_writeAudio; auto. intros p Ha. by apply loop_phase.
  - unfold gate_open in H. destruct (started (w s)) eqn:Hst, (finalizing (w s)) eqn:Hfi; try done.
    injection H as <-. by apply inv_silence.
Qed.
Lemma asr_inv_reader r s s' : reader_step r s = Some s' -> inv s -> inv s'.
Proof.
  intros H Hi.
  assert (Hsame : forall s1, log s1 = log s -> w s1 = w s -> pushed s1 = pushed s -> in_q s1 = in_q s ->
    baseMs s1 = baseMs s -> gaps s1 = gaps s -> currentTask s1 = currentTask s -> inv s1) by (intros; by apply (asr_inv_frame s)).
  destruct (rp s) as [|h go|] eqn:Hr; destruct r as [[| |h' sn] ok|normal err ok|ok]; unfold reader_step in H; rewrite Hr in H;
    unfold handle, reader_exit in H.
  all: repeat (case_match; try done).
  all: repeat match goal with
    | H : Some _ = Some _ |- _ => injection H as <-
    | H : (_ ≫= _) = Some _ |- _ => apply bind_Some_inv in H as (? & ? & ?)
    | H : (_ <$> _) = Some _ |- _ => apply fmap_Some in H as (? & ? & ->)
    | H : emit _ _ _ = Some _ |- _ => apply asr_emit_inv in H as [->|(? & ? & ->)]
    end; try done; try (by apply Hsame).
  all: unfold or_exit, reader_exit; case_match; by apply Hsame.
Qed.

Lemma asr_inv_step a s s' : asr_step opts a s = Some s' -> inv s -> inv s'.
Proof.
  intros H Hi. destruct a as [pcm| | | | |c|r]; simpl in H.
  - injection H as <-. unfold PushAudio. destruct (ctx_done s); [done|]. case_match; [|done]. simpl.
    destruct Hi as [(p & Hp & Ha) (r & Hr & Hr') Hb Hg Hs Hpd Hok Hdl]. split; simpl; try done; [by exists p|].
    exists (r ++ pcm). rewrite !concat_app, Hr. simpl. rewrite app_nil_r, <- app_assoc. split; [done|].
    intros Hx. by rewrite Hr'.
  - injection H as <-. unfold Finalize. case_match; [done|]. by apply (asr_inv_frame s).
  - injection H as <-. by apply (asr_inv_frame s).
  - injection H as <-. by apply (asr_inv_frame s).
  - case_match; [|done]. injection H as <-. by apply (asr_inv_frame s).
  - unfold writer_step in H. destruct (wp (w s)) eqn:Hw; [| | |done].
    + destruct c; try done. injection H as <-.
      destruct (iv_phase _ Hi) as (p & Hp & Ha). unfold at_phase in Ha. rewrite Hw in Ha. destruct Ha as [[_ Hz] _].
      apply inv_sendRun; rewrite ?Hz; try done. intros p' [Ha _]. rewrite Hw in Ha. apply Ha.
    + by apply inv_select in H.
    + destruct c; try done. by eapply inv_flush.
  - by apply asr_inv_reader in H.
Qed.

Lemma asr_inv_reach s : asr_reach opts s -> inv s.
Proof.
  induction 1 as [|s a s' _ IH Hs]; [|by eapply asr_inv_step].
  split; try done; [|by exists []|by constructor]. exists TNone. by split.
Qed.
(** ** Main results *)

(** C27. No audio is lost between turns: whatever tasks end, time out or
    restart, the audio frames on the wire are exactly what was pushed, in order,
    up to what still waits in the queue; only a failed write or the end of the
    stream leaves audio unsent, and then at the end. *)
Theorem audio_conserved s : asr_reach opts s ->
  audio_of (log s) `prefix_of` concat (pushed s) /\
  (wp (w s) <> WExit -> concat (pushed s) = audio_of (log s) ++ concat (in_q s)).
Proof.
  intros Hr. destruct (iv_audio _ (asr_inv_reach _ Hr)) as (rest & H1 & H2). split; [by exists rest|].
  intros Hx. by rewrite H1, H2.
Qed.

(** C28. The tasks on the socket are in order: at all times what the writer did and
    was told follows the phases of the task. A run-task is written only when there
    is no task: at the start, when a task-finished frame was received, or when the
    timer that a finish-task arms has fired; none is written while a task starts,
    runs or finishes otherwise. Audio and keep-alive silence go out only after the
    current task was acknowledged and before it is finished; a finish-task names the
    running task and is never sent to a task that has received nothing (except in
    saying goodbye); and nothing follows the goodbye. (Once the service acknowledges
    a task twice, what is sent to it is open until it is over.) *)
Theorem tasks_disciplined s : asr_reach opts s ->
  exists p, phase_of (log s) = Some p /\
    (wp (w s) = WLoop -> p = TRogue \/ p = task_phase s).
Proof.
  intros Hr. destruct (iv_phase _ (asr_inv_reach _ Hr)) as (p & Hp & Ha & _). exists p. split; [done|].
  intros Hw. by rewrite Hw in Ha.
Qed.

Lemma pushed_offset_bounds ps m : pieces_ok ps -> 0 <= m -> 0 <= pushed_offset ps m <= audio_ms ps.
Proof.
  intros Hok. revert m. induction Hok as [|[b n] ps Hn Hok IH]; intros m Hm; simpl in *; [lia|].
  destruct (m <=? n) eqn:Hmn; bool_arith.
  - assert (0 <= audio_ms ps) by (specialize (IH 0 ltac:(lia)); lia). destruct b; lia.
  - specialize (IH (m - n) ltac:(lia)). destruct b; lia.
Qed.

Lemma pushed_offset_mono ps m m' : pieces_ok ps -> 0 <= m <= m' -> pushed_offset ps m <= pushed_offset ps m'.
Proof.
  intros Hok. revert m m'. induction Hok as [|[b n] ps Hn Hok IH]; intros m m' Hm; simpl in *; [lia|].
  destruct (m <=? n) eqn:H1, (m' <=? n) eqn:H2; bool_arith; try (destruct b; lia).
  - pose proof (pushed_offset_bounds ps (m' - n) Hok ltac:(lia)). destruct b; lia.
  - specialize (IH (m - n) (m' - n) ltac:(lia)). destruct b; lia.
Qed.

(** Transcript offsets point into the caller's audio: a sentence the service
    places at [b] to [e] milliseconds of the current task, whose audio includes
    the keep-alive silence, is reported at the milliseconds of audio pushed
    before those points, counted over the whole session: after the audio of the
    earlier tasks, in order, and within the audio of the current one. *)
Theorem result_offsets s sn b e : asr_reach opts s ->
  BeginTime sn = Some b -> EndTime sn = Some e -> SentenceEnd sn = true ->
  let '(earlier, task) := clock_of (log s) in
  0 <= b <= e -> e <= total_ms task ->
  sentence_event s sn =
    Some (MkASREvent ASRFinal (Text sn) (earlier + pushed_offset task b) (earlier + pushed_offset task e) "") /\
  0 <= pushed_offset task b <= pushed_offset task e /\ pushed_offset task e <= audio_ms task.
Proof.
  intros Hr Hb He Hend. pose proof (asr_inv_reach _ Hr) as [_ _ Hbase Hg _ _ Hok].
  destruct (clock_of (log s)) as [earlier task]. simpl in *. intros Hbe Ht.
  unfold sentence_event, unpad. rewrite Hend, andb_false_r, Hb, He, Hg, <- Hbase.
  assert (Hu : forall m, 0 <= m <= total_ms task -> unpad_loop (gaps_from 0 task) 0 m = pushed_offset task m).
  { intros m Hm. apply (unpad_pushed_offset task 0 0 m Hok Hm). }
  rewrite !Hu by lia. split; [done|].
  pose proof (pushed_offset_bounds task b Hok ltac:(lia)). pose proof (pushed_offset_bounds task e Hok ltac:(lia)).
  pose proof (pushed_offset_mono task b e Hok Hbe). lia.
Qed.
End props.

(** ** Concrete runs *)

Definition demo_opts : ASROptions := asr_applyDefaults (MkASROptions (MkWsOptions "" 0 0) "" "" 0 0 0).

Definition frame20 (v : Z) : list Z := repeat v 960.
Definition from_service (event : string) : list act :=
  [AReader (RdFrame (FMsg (MkInHeader "" event "" "") None) true); AReader (RdForward true)].

(** A task is running, one 20 ms frame and one keep-alive have been sent, then
    another frame. *)
Definition demo_speaking : list act :=
  [AWriter (CFirst "t1" true)] ++ from_service eventTaskStarted ++
  [AWriter (CCtl "" true); APush (frame20 1); AWriter (CAudio true); AWriter (CKeepAlive true);
   APush (frame20 2); AWriter (CAudio true)].

Definition demo_state : option asr := asr_run demo_opts demo_speaking asr_start.

Lemma asr_demo_reach s : demo_state = Some s -> asr_reach demo_opts s.
Proof. unfold demo_state. apply asr_run_reach. constructor. Qed.

(** What a run computes. *)
Lemma run_field {A} (f : asr -> A) (r : option asr) (x : A) s : r = Some s -> f <$> r = Some x -> f s = x.
Proof. intros -> [= <-]. reflexivity. Qed.

Lemma audio_conserved_witness : exists s, demo_state = Some s /\ wp (w s) = WLoop /\
  concat (pushed s) = audio_of (log s) ++ concat (in_q s).
Proof.
  destruct demo_state as [s|] eqn:Hs; [|vm_compute in Hs; discriminate]. exists s. split; [reflexivity|].
  assert (Hw : wp (w s) = WLoop) by (apply (run_field (wp ∘ w) _ _ _ Hs); vm_compute; reflexivity).
  split; [exact Hw|]. destruct (audio_conserved demo_opts s (asr_demo_reach _ Hs)) as [_ H]. apply H. rewrite Hw. discriminate.
Defined.

Lemma tasks_disciplined_witness : exists s p, demo_state = Some s /\ phase_of (log s) = Some p /\
  (wp (w s) = WLoop -> p = TRogue \/ p = task_phase s).
Proof.
  destruct demo_state as [s|] eqn:Hs; [|vm_compute in Hs; discriminate].
  destruct (tasks_disciplined demo_opts s (asr_demo_reach _ Hs)) as (p & H1 & H2). exists s, p. auto.
Defined.

(** Offset 50 of the task lies 30 ms into the pushed audio: 20 ms, the
    keep-alive, 10 ms. *)
Lemma result_offsets_witness : exists s, demo_state = Some s /\
  sentence_event s (MkSentence 1 (Some 20) (Some 50) "hello" true) = Some (MkASREvent ASRFinal "hello" 20 30 "").
Proof.
  destruct demo_state as [s|] eqn:Hs; [|vm_compute in Hs; discriminate]. exists s. split; [reflexivity|].
  assert (Hc : clock_of (log s) = (0, [(false, 20); (true, 20); (false, 20)])).
  { apply (run_field (clock_of ∘ log) _ _ _ Hs). vm_compute. reflexivity. }
  pose proof (result_offsets demo_opts s (MkSentence 1 (Some 20) (Some 50) "hello" true) 20 50
    (asr_demo_reach _ Hs) eq_refl eq_refl eq_refl) as H.
  rewrite Hc in H. destruct H as [H _]; [lia|vm_compute; discriminate|]. exact H.
Defined.

(** ** A Finalize that is lost *)

(** Turn 1 is spoken and finalized; its last results arrive and its end is
    reported; turn 2 is spoken and finalized at once, before the writer has
    seen the end of turn 1's task. *)
Definition lost_finalize : list act :=
  [AWriter (CFirst "t1" true)] ++ from_service eventTaskStarted ++
  [AWriter (CCtl "" true); APush (frame20 1); AWriter (CAudio true); AFinalize; AWriter CFinalize; AWriter (CFlush true);
   AReader (RdFrame (FMsg (MkInHeader "t1" eventTaskFinished "" "") None) true);
   APush (frame20 2); AFinalize].

Definition lost_finalize_end : list act :=
  [AWriter CFinalize; AReader (RdForward true); AWriter (CCtl "t2" true)] ++ from_service eventTaskStarted ++
  [AWriter (CCtl "" true); AWriter (CAudio true)].

(** Everything that could still report the end of the turn by itself. *)
Definition quiet (s : asr) : Prop :=
  fin_req s = false /\ ctl s = [] /\ pending (w s) = false /\ deadline (w s) = false /\
  (wp (w s) = WLoop \/ wp (w s) = WExit).

Definition not_service (a : act) : Prop := match a with AReader _ | AFinalize => False | _ => True end.

Lemma quiet_select c s s' : writer_select c s = Some s' -> wp (w s) = WLoop -> quiet s -> quiet s' /\ events s' = events s.
Proof.
  intros H Hw (Hf & Hc & Hp & Hd & _). unfold quiet.
  destruct c as [| |ok|id ok| |delivered id ok|ok|ok|ok]; simpl in H; rewrite ?Hf, ?Hc, ?Hd in H; try done.
  - destruct (ctx_done s); [|done]. injection H as <-. simpl. auto 10.
  - destruct (closing s); [|done]. injection H as <-. destruct (_ && ok); simpl; auto 10.
  - destruct (in_q s); [done|]. destruct (gate_open s); [|done]. injection H as <-.
    unfold writeAudio, after_write. destruct ok; simpl; auto 10.
  - destruct (gate_open s); [|done]. injection H as <-. unfold after_write. destruct ok; simpl; auto 10.
Qed.

Lemma quiet_step opts a s s' : asr_step opts a s = Some s' -> not_service a -> quiet s -> quiet s' /\ events s' = events s.
Proof.
  intros H Hn Hq. destruct a as [pcm| | | | |c|r]; simpl in H; try done.
  - injection H as <-. unfold PushAudio. repeat case_match; done.
  - by injection H as <-.
  - by injection H as <-.
  - case_match; [|done]. by injection H as <-.
  - unfold writer_step in H. pose proof Hq as (_ & _ & _ & _ & [Hw|Hw]); rewrite Hw in H; [|done].
    by apply quiet_select in H.
Qed.

(** A Finalize can be lost: when a turn is finalized just as the end of the
    previous turn's task is on its way to the writer, the request is accepted
    (no error) but dropped. The turn's audio has been sent to a running task,
    yet no end of turn was reported for it, and whatever the session and the
    timers do from then on, nothing is: only the service's own next result, or
    another Finalize, brings the stream back. *)
Theorem finalize_can_be_lost :
  exists s1 s2, asr_run demo_opts lost_finalize asr_start = Some s1 /\ (Finalize s1).2 = None /\ fin_req s1 = true /\
    asr_run demo_opts lost_finalize_end s1 = Some s2 /\
    audio_of (log s2) = frame20 1 ++ frame20 2 /\ gate_open s2 = true /\
    List.length (events s1) = 1%nat /\ events s2 = events s1 /\
    (forall l s3, Forall not_service l -> asr_run demo_opts l s2 = Some s3 -> events s3 = events s2).
Proof.
  destruct (asr_run demo_opts lost_finalize asr_start) as [s1|] eqn:H1; [|vm_compute in H1; discriminate].
  destruct (asr_run demo_opts lost_finalize_end s1) as [s2|] eqn:H2;
    [|vm_compute in H1; injection H1 as <-; vm_compute in H2; discriminate].
  exists s1, s2. vm_compute in H1. injection H1 as <-. split; [reflexivity|]. split; [reflexivity|]. split; [reflexivity|].
  split; [exact H2|]. vm_compute in H2. injection H2 as <-.
  split; [vm_compute; reflexivity|]. split; [reflexivity|]. split; [reflexivity|]. split; [reflexivity|].
  match goal with |- context [asr_run _ _ ?s] => assert (Hq : quiet s) by (repeat split; left; reflexivity); revert Hq; generalize s end.
  intros s Hq l. revert s Hq. induction l as [|a l IH]; intros s Hq s3 Hl; [by intros [= <-]|].
  intros (s4 & Ha & Hr)%bind_Some_inv. apply Forall_cons in Hl as [Hn Hl].
  destruct (quiet_step _ _ _ _ Ha Hn Hq) as [Hq' <-]. by eapply IH.
Qed.

(** ** Results of a task that was given up *)

(** The service is slow to finish task 1: the finalize timer fires and task 2
    is started; then task 1's last result and its end arrive. *)
Definition late_result : list act :=
  [AWriter (CFirst "t1" true)] ++ from_service eventTaskStarted ++
  [AWriter (CCtl "" true); APush (frame20 1); AWriter (CAudio true); AFinalize; AWriter CFinalize; AWriter (CFlush true);
   AWriter (CDeadline true "t2" true);
   AReader (RdFrame (FMsg (MkInHeader "t1" eventResultGenerated "" "") (Some (MkSentence 1 (Some 0) (Some 20) "hello" true))) true);
   AReader (RdFrame (FMsg (MkInHeader "t1" eventTaskFinished "" "") None) true); AReader (RdForward true);
   AWriter (CCtl "t3" true)].

(** After a finalize timeout the stream confuses its tasks: frames are not
    matched to the task they name. A late result of the abandoned task is
    placed after all the audio the caller has sent (20 to 40 ms of a 20 ms
    stream), its late end is reported as a second end of turn for one Finalize,
    and it restarts recognition although the new task was never finished. *)
Theorem late_frames_confuse_tasks :
  exists s, asr_run demo_opts late_result asr_start = Some s /\ BytesToMs (zlen (concat (pushed s))) = 20 /\
    events s = [endOfTurn; MkASREvent ASRFinal "hello" 20 40 ""; endOfTurn] /\
    log s = [ERun "t1"; EStarted; EAudio (frame20 1); EFinish "t1"; ETimeout; ERun "t2"; EFinished; ERun "t3"].
Proof. eexists. split; [vm_compute; reflexivity|]. vm_compute. repeat split. Qed.
