(* ===== verification/Deepgram.v ===== *)
(** * The Deepgram transcription stream ([internal/provider/deepgram/deepgram.go])

    [stream] is what the session's calls, the writer, the reader and the timers
    of Finalize share. Every call of Finalize starts a timer of its own; the
    variable [finalizeTimer] refers to the last one. A timer that expires runs
    [finalizeTimedOut] in a goroutine of its own: first the section under the
    mutex ([ATimedOut]), then the send of the fact ([ATimerEmit]). A select that
    finds both the send and the done context ready may take either; a send on
    the closed events channel panics ([panicked]). A call that waits for room in
    the control queue is an entry of [sends].

    A message is parsed; its offsets are floats in seconds. The query of the
    connection is the list of its parameters; its encoding is net/url's.

    Shown: the contract of Finalize (as long as Deepgram marks the results of a
    Finalize final, as documented, every Finalize is answered); and the crash a
    timer causes when it outlives the reader. *)

From S2P Require Export Provider Audio Chat.
From S2P Require Import Wire.
From Stdlib Require Import QArith.
#[local] Open Scope string_scope.
#[local] Open Scope list_scope.
#[local] Open Scope Z_scope.

(** ** Options *)

Record Options := MkOptions {
  D_BaseURL : string; D_Model : string; D_Language : string; SmartFormat : bool;
  EndpointingMs : Z; UtteranceEndMs : Z;
  D_ConnectTimeout : Z; D_FinalizeTimeout : Z; D_KeepAliveInterval : Z; D_AudioQueueFrames : Z
}.

Definition ms : Z := 10 ^ 6.

Definition str_or (s d : string) : string := if String.eqb s "" then d else s.
Definition int_or (n d : Z) : Z := if n =? 0 then d else n.

Definition applyDefaults (o : Options) : Options :=
  {| D_BaseURL := str_or (D_BaseURL o) "wss://api.deepgram.com/v1/listen"; D_Model := str_or (D_Model o) "nova-3";
     D_Language := D_Language o; SmartFormat := SmartFormat o;
     EndpointingMs := int_or (EndpointingMs o) 300; UtteranceEndMs := int_or (UtteranceEndMs o) 1000;
     D_ConnectTimeout := int_or (D_ConnectTimeout o) (10000 * ms);
     D_FinalizeTimeout := int_or (D_FinalizeTimeout o) (1500 * ms);
     D_KeepAliveInterval := int_or (D_KeepAliveInterval o) (3000 * ms);
     D_AudioQueueFrames := int_or (D_AudioQueueFrames o) 500 |}.

Definition firstNonEmpty (a b : string) : string := if String.eqb a "" then b else a.

(** The query parameters of [OpenStream]. *)
Definition query (o : Options) (cfg : ASRConfig) : list (string * string) :=
  let lang := firstNonEmpty (ASR_Language cfg) (D_Language o) in
  [("model", D_Model o); ("encoding", "linear16"); ("sample_rate", Itoa (ASR_SampleRate cfg)); ("channels", "1");
   ("interim_results", "true"); ("punctuate", "true"); ("endpointing", Itoa (EndpointingMs o));
   ("utterance_end_ms", Itoa (UtteranceEndMs o))] ++
  (if SmartFormat o then [("smart_format", "true")] else []) ++
  (if String.eqb lang "" then [] else [("language", lang)]).

(** ** Data *)

Record dgMessage := MkMessage {
  M_Type : string; IsFinal : bool; SpeechFinal : bool; FromFinalize : bool; M_Start : float64; M_Duration : float64;
  Alternatives : list string; M_Description : string; M_Message : string
}.

Inductive control := CtlFinalize | CtlCloseStream.

(** A frame on the wire. *)
Inductive frame := WAudio (pcm : list Z) | WControl (c : control) | WKeepAlive.

Definition eventQueue : Z := 32.

Record stream := MkStream {
  in_q : list (list Z);
  ctl : list control;
  events : list ASREvent;
  ctx_done : bool;
  closed : bool;
  reader_done : bool;
  writer_done : bool;
  idle : bool;
  finalizeTimer : option nat;
  armed : list nat;
  expired : list nat;
  emitting : nat;
  timers : nat;
  owed : bool;
  panicked : bool;
  wire : list frame;
  sends : list control
}.

Definition set_in q s := MkStream q (ctl s) (events s) (ctx_done s) (closed s) (reader_done s) (writer_done s) (idle s) (finalizeTimer s) (armed s) (expired s) (emitting s) (timers s) (owed s) (panicked s) (wire s) (sends s).
Definition set_ctl q s := MkStream (in_q s) q (events s) (ctx_done s) (closed s) (reader_done s) (writer_done s) (idle s) (finalizeTimer s) (armed s) (expired s) (emitting s) (timers s) (owed s) (panicked s) (wire s) (sends s).
Definition set_ctx s := MkStream (in_q s) (ctl s) (events s) true (closed s) (reader_done s) (writer_done s) (idle s) (finalizeTimer s) (armed s) (expired s) (emitting s) (timers s) (owed s) (panicked s) (wire s) (sends s).
Definition set_closed s := MkStream (in_q s) (ctl s) (events s) (ctx_done s) true (reader_done s) (writer_done s) (idle s) (finalizeTimer s) (armed s) (expired s) (emitting s) (timers s) (owed s) (panicked s) (wire s) (sends s).
Definition set_rdone s := MkStream (in_q s) (ctl s) (events s) true (closed s) true (writer_done s) (idle s) (finalizeTimer s) (armed s) (expired s) (emitting s) (timers s) (owed s) (panicked s) (wire s) (sends s).
Definition set_wdone s := MkStream (in_q s) (ctl s) (events s) true (closed s) (reader_done s) true (idle s) (finalizeTimer s) (armed s) (expired s) (emitting s) (timers s) (owed s) (panicked s) (wire s) (sends s).
Definition set_idle b s := MkStream (in_q s) (ctl s) (events s) (ctx_done s) (closed s) (reader_done s) (writer_done s) b (finalizeTimer s) (armed s) (expired s) (emitting s) (timers s) (owed s) (panicked s) (wire s) (sends s).
Definition set_timers r a e m n s := MkStream (in_q s) (ctl s) (events s) (ctx_done s) (closed s) (reader_done s) (writer_done s) (idle s) r a e m n (owed s) (panicked s) (wire s) (sends s).
Definition set_owed b s := MkStream (in_q s) (ctl s) (events s) (ctx_done s) (closed s) (reader_done s) (writer_done s) (idle s) (finalizeTimer s) (armed s) (expired s) (emitting s) (timers s) b (panicked s) (wire s) (sends s).
Definition set_panicked s := MkStream (in_q s) (ctl s) (events s) (ctx_done s) (closed s) (reader_done s) (writer_done s) (idle s) (finalizeTimer s) (armed s) (expired s) (emitting s) (timers s) (owed s) true (wire s) (sends s).
Definition set_events e o s := MkStream (in_q s) (ctl s) e (ctx_done s) (closed s) (reader_done s) (writer_done s) (idle s) (finalizeTimer s) (armed s) (expired s) (emitting s) (timers s) o (panicked s) (wire s) (sends s).
Definition set_sends q s := MkStream (in_q s) (ctl s) (events s) (ctx_done s) (closed s) (reader_done s) (writer_done s) (idle s) (finalizeTimer s) (armed s) (expired s) (emitting s) (timers s) (owed s) (panicked s) (wire s) q.
Definition set_wire l s := MkStream (in_q s) (ctl s) (events s) (ctx_done s) (closed s) (reader_done s) (writer_done s) (idle s) (finalizeTimer s) (armed s) (expired s) (emitting s) (timers s) (owed s) (panicked s) l (sends s).

(** ** Facts *)

Definition dg_error (text : string) : string := Error_Error (MkError "deepgram" ErrTransient text).

Definition endOfTurn : ASREvent := MkASREvent ASREndOfTurn "" 0 0 "".

(** A Final or an end of turn answers a Finalize; [owed] is ghost. *)
Definition answers (ev : ASREvent) : bool := match AE_Kind ev with ASRFinal | ASREndOfTurn => true | _ => false end.

(** [emit]: [ok] is the case its select takes; the result is what it returns. *)
Definition emit (ev : ASREvent) (ok : bool) (s : stream) : option (stream * bool) :=
  if ok then
    if reader_done s then Some (set_panicked s, true)
    else Some (set_events (events s ++ [ev]) (owed s && negb (answers ev)) s, true)
  else if ctx_done s then Some (s, false) else None.

(** ** The session's calls *)

Section stream.
Context (opts : Options).

Definition PushAudio (s : stream) (pcm : list Z) : stream * error :=
  if ctx_done s then (s, Some "context canceled")
  else if zlen (in_q s) <? D_AudioQueueFrames opts then (set_in (in_q s ++ [pcm]) s, None)
  else (s, Some (dg_error "audio queue full: socket writer stalled")).

(** [Timer.Stop] on a timer that has not expired. *)
Definition stop (t : option nat) (l : list nat) : list nat :=
  match t with Some i => List.filter (fun j => negb (Nat.eqb i j)) l | None => l end.

(** The new timer; then the call waits to send its control message ([sends]). *)
Definition Finalize_ (s : stream) : stream * error :=
  if ctx_done s then (s, Some "context canceled") else
  let s := set_timers (Some (timers s)) (stop (finalizeTimer s) (armed s) ++ [timers s]) (expired s) (emitting s)
             (S (timers s)) s in
  (set_owed true (set_sends (sends s ++ [CtlFinalize]) s), None).

(** [Close]: no timer; the first call waits to send its goodbye. *)
Definition Close (s : stream) : stream :=
  let s' := set_timers None (stop (finalizeTimer s) (armed s)) (expired s) (emitting s) (timers s) (set_closed s) in
  if closed s then s' else set_sends (sends s' ++ [CtlCloseStream]) s'.

(** A call that waits: its message is queued when there is room; or it gives up,
    Finalize with the context, Close with the reader. *)
Definition sent_control (i : nat) (ok : bool) (s : stream) : option stream :=
  c ← sends s !! i;
  let rest := delete i (sends s) in
  if ok then if zlen (ctl s) <? 4 then Some (set_ctl (ctl s ++ [c]) (set_sends rest s)) else None
  else if match c with CtlFinalize => ctx_done s | CtlCloseStream => reader_done s end
  then Some (set_sends rest s) else None.

(** ** The writer *)

Inductive choice := WDone | WIn (ok : bool) | WCtl (ok : bool) | WTick (ok : bool).

Definition written (ok : bool) (f : frame) (s : stream) : stream :=
  if ok then set_wire (wire s ++ [f]) s else set_wdone s.

Definition writer (c : choice) (s : stream) : option stream :=
  if writer_done s then None else
  match c with
  | WDone => if ctx_done s then Some (set_wdone s) else None
  | WIn ok =>
      match in_q s with
      | pcm :: rest => Some (written ok (WAudio pcm) (set_idle false (set_in rest s)))
      | [] => None
      end
  | WCtl ok =>
      match ctl s with
      | c :: rest =>
          let s := written ok (WControl c) (set_ctl rest s) in
          Some (match c with CtlCloseStream => set_wdone s | CtlFinalize => s end)
      | [] => None
      end
  | WTick ok =>
      if idle s then
        let s := written ok WKeepAlive s in Some (if ok then set_idle true s else s)
      else Some (set_idle true s)
  end.

(** ** The reader *)

(** [int(f * 1000)] *)
Definition to_ms (f : float64) : Z := to_int (fmul f (of_int 1000)).

Definition finalizeSatisfied (s : stream) : stream :=
  set_timers None (stop (finalizeTimer s) (armed s)) (expired s) (emitting s) (timers s) s.

(** [ok1], [ok2]: the selects of up to two sends; the boolean is [handle]'s. *)
Definition handle (m : dgMessage) (ok1 ok2 : bool) (s : stream) : option (stream * bool) :=
  if String.eqb (M_Type m) "Results" then
    let text := match Alternatives m with t :: _ => t | [] => "" end in
    let s := if FromFinalize m then finalizeSatisfied s else s in
    if negb (IsFinal m) then
      if String.eqb text "" then Some (s, true) else emit (MkASREvent ASRPartial text 0 0 "") ok1 s
    else if negb (String.eqb text "") then
      let start := to_ms (M_Start m) in
      '(s, sent) ← emit (MkASREvent ASRFinal text start (start + to_ms (M_Duration m)) "") ok1 s;
      if negb sent then Some (s, false)
      else if SpeechFinal m then emit endOfTurn ok2 s else Some (s, true)
    else if FromFinalize m then emit endOfTurn ok1 s
    else Some (s, true)
  else if String.eqb (M_Type m) "UtteranceEnd" then emit endOfTurn ok1 s
  else if String.eqb (M_Type m) "Error" then
    emit (MkASREvent ASRError "" 0 0 (dg_error (firstNonEmpty (M_Description m) (M_Message m)))) ok1 s
  else Some (s, true).

(** What [conn.Read] returns: a message, a frame that is not one, or an error
    (with the normal close status or not). *)
Inductive read := RMessage (m : dgMessage) (ok1 ok2 : bool) | RSkip | RError (normal : bool) (err : string) (ok : bool).

Definition reader (r : read) (s : stream) : option stream :=
  if reader_done s then None else
  match r with
  | RSkip => Some s
  | RMessage m ok1 ok2 => '(s, go) ← handle m ok1 ok2 s; Some (if go : bool then s else set_rdone s)
  | RError normal err ok =>
      if ctx_done s || closed s || normal then Some (set_rdone s)
      else '(s, _) ← emit (MkASREvent ASRError "" 0 0 (dg_error err)) ok s; Some (set_rdone s)
  end.

(** ** The whole stream *)

(** [AExpire i]: timer [i] expires; [ATimedOut], [ATimerEmit]: the two parts of
    its goroutine. *)
Inductive act :=
| APush (pcm : list Z)
| AFinalize
| AClose
| ASend (i : nat) (ok : bool)
| ACancel
| AWriter (c : choice)
| AReader (r : read)
| AExpire (i : nat)
| ATimedOut
| ATimerEmit (ok : bool).

Definition step (a : act) (s : stream) : option stream :=
  if panicked s then None else
  match a with
  | APush pcm => Some (PushAudio s pcm).1
  | AFinalize => Some (Finalize_ s).1
  | AClose => Some (Close s)
  | ASend i ok => sent_control i ok s
  | ACancel => Some (set_ctx s)
  | AWriter c => writer c s
  | AReader r => reader r s
  | AExpire i =>
      if bool_decide (i ∈ armed s)
      then Some (set_timers (finalizeTimer s) (stop (Some i) (armed s)) (expired s ++ [i]) (emitting s) (timers s) s)
      else None
  | ATimedOut =>
      match expired s with
      | _ :: rest => Some (set_timers None (armed s) rest (S (emitting s)) (timers s) s)
      | [] => None
      end
  | ATimerEmit ok =>
      match emitting s with
      | O => None
      | S n => '(s, _) ← emit endOfTurn ok s;
          Some (set_timers (finalizeTimer s) (armed s) (expired s) n (timers s) s)
      end
  end.

Definition start : stream :=
  MkStream [] [] [] false false false false true None [] [] 0 0 false false [] [].

(** [trusted]: the service marks what it sends for a Finalize final. *)
Definition trusted (a : act) : bool :=
  match a with AReader (RMessage m _ _) => negb (FromFinalize m) || IsFinal m | _ => true end.

Inductive reach : stream -> Prop :=
| reach_start : reach start
| reach_step s a s' : reach s -> trusted a = true -> step a s = Some s' -> reach s'.

Fixpoint run (l : list act) (s : stream) : option stream :=
  match l with
  | [] => Some s
  | a :: l => step a s ≫= run l
  end.

(** ** Every Finalize is answered *)

(** A Finalize that is not answered yet has a timer that will answer it. *)
Definition covered (s : stream) : Prop :=
  owed s = true -> ctx_done s = true \/ closed s = true \/ armed s <> [] \/ expired s <> [] \/ (0 < emitting s)%nat.

Record inv (s : stream) : Prop := {
  iv_covered : covered s;
  iv_done : reader_done s = true -> ctx_done s = true
}.
Lemma dg_inv_frame s s' : inv s -> owed s' = owed s -> (ctx_done s = true -> ctx_done s' = true) ->
  (closed s = true -> closed s' = true) -> armed s' = armed s -> expired s' = expired s -> emitting s' = emitting s ->
  (reader_done s' = true -> ctx_done s' = true) -> inv s'.
Proof.
  intros [Hc Hd] E1 E2 E3 E4 E5 E6 E7. split; [|done]. unfold covered in *. rewrite E1, E4, E5, E6. naive_solver.
Qed.

(** Once the context is done nothing is owed. *)
Lemma inv_done s : ctx_done s = true -> inv s.
Proof. intros H. split; [|done]. intros _. by left. Qed.

Lemma dg_emit_inv ev ok s s' b : emit ev ok s = Some (s', b) -> inv s ->
  inv s' /\ finalizeTimer s' = finalizeTimer s /\ armed s' = armed s /\ expired s' = expired s /\ emitting s' = emitting s /\
  (answers ev = true -> owed s' = false \/ ctx_done s' = true) /\ ctx_done s' = ctx_done s /\ reader_done s' = reader_done s.
Proof.
  unfold emit. intros H Hi. destruct ok; [|destruct (ctx_done s) eqn:Hc; [|done]; injection H as <- <-; auto 10].
  destruct (reader_done s) eqn:Hr; injection H as <- <-; simpl.
  - pose proof (iv_done _ Hi Hr). repeat split; try done; [by left|by right].
  - rewrite Hr. repeat split; try done; simpl.
    + intros Ho. apply andb_true_iff in Ho as [Ho _]. by apply (iv_covered _ Hi).
    + rewrite Hr. done.
    + intros ->. left. by rewrite andb_false_r.
Qed.

(** The result of a Finalize stops its timer and answers it. *)
Lemma inv_handle m ok1 ok2 s s' b : handle m ok1 ok2 s = Some (s', b) ->
  negb (FromFinalize m) || IsFinal m = true -> inv s -> inv s'.
Proof.
  unfold handle. intros H Ht Hi.
  destruct (String.eqb (M_Type m) "Results"); [|repeat case_match; try (by injection H as <- <-); by apply dg_emit_inv in H as [? _]].
  assert (Hsat : forall ev s1 sent, emit ev ok1 (if FromFinalize m then finalizeSatisfied s else s) = Some (s1, sent) ->
    answers ev = true -> inv s1).
  { intros ev s1 sent He Ha. destruct (FromFinalize m); [|by apply dg_emit_inv in He as [? _]].
    unfold emit in He. destruct ok1; simpl in He.
    - destruct (reader_done s) eqn:Hr; injection He as <- <-; [by apply inv_done, (iv_done _ Hi)|].
      split; simpl; [intros Ho; rewrite Ha, andb_false_r in Ho; done|]. congruence.
    - destruct (ctx_done s) eqn:Hc; [|done]. injection He as <- <-. by apply inv_done. }
  destruct (IsFinal m); simpl in H.
  - destruct (String.eqb (match Alternatives m with [] => "" | t :: _ => t end) ""); simpl in H.
    + destruct (FromFinalize m); [by eapply Hsat|by injection H as <- <-].
    + apply bind_Some_inv in H as ([s1 sent] & He & H). apply Hsat in He; [|done].
      destruct sent; simpl in H; [|by injection H as <- <-].
      destruct (SpeechFinal m); [by apply dg_emit_inv in H as [? _]|by injection H as <- <-].
  - destruct (FromFinalize m); [done|]. case_match; [by injection H as <- <-|by apply dg_emit_inv in H as [? _]].
Qed.

Lemma inv_written ok f s : inv s -> inv (written ok f s).
Proof. intros Hi. unfold written. destruct ok; [by apply (dg_inv_frame s); [..|apply Hi]|by apply inv_done]. Qed.

Lemma dg_inv_writer c s s' : writer c s = Some s' -> inv s -> inv s'.
Proof.
  unfold writer. intros H Hi. destruct (writer_done s); [done|].
  assert (Hs : forall q, inv (set_idle false (set_in q s))) by (intros; apply (dg_inv_frame s); try done; apply Hi).
  destruct c as [|ok|ok|ok]; [case_match; [|done]; injection H as <-; by apply inv_done|..].
  - destruct (in_q s); [done|]. injection H as <-. by apply inv_written.
  - destruct (ctl s) as [|c rest]; [done|]. injection H as <-. destruct c; [|by apply inv_done].
    apply inv_written. apply (dg_inv_frame s); try done. apply Hi.
  - pose proof (inv_written ok WKeepAlive s Hi) as Hw. case_match; injection H as <-;
      [destruct ok; [|done]; apply (dg_inv_frame _ _ Hw); try done; apply Hw|].
    apply (dg_inv_frame s); try done. apply Hi.
Qed.

Lemma dg_inv_step a s s' : step a s = Some s' -> trusted a = true -> inv s -> inv s'.
Proof.
  unfold step. intros H Ht Hi. pose proof Hi as [Hc Hd]. destruct (panicked s); [done|].
  destruct a as [pcm| | |j ok| |c|r|i| |ok]; simpl in H.
  - injection H as <-. unfold PushAudio. repeat case_match; try done. apply (dg_inv_frame s); try done. apply Hi.
  - injection H as <-. unfold Finalize_. destruct (ctx_done s) eqn:Hx; [done|]. split; simpl; [|by apply (iv_done s)].
    unfold covered; simpl; intros _. right. right. left. by destruct (stop _ _).
  - injection H as <-. unfold Close. case_match; (split; simpl; [|apply Hi]); intros _; right; by left.
  - unfold sent_control in H. apply bind_Some_inv in H as (c & _ & H).
    destruct ok; [|destruct c]; (case_match; [|done]); injection H as <-; (apply (dg_inv_frame s); try done; apply Hi).
  - injection H as <-. by apply inv_done.
  - by apply dg_inv_writer in H.
  - unfold reader in H. destruct (reader_done s) eqn:Hr; [done|]. destruct r as [m ok1 ok2| |normal err ok].
    + apply bind_Some_inv in H as ([s1 go] & Hh & [= <-]). apply inv_handle in Hh; [|done..].
      destruct go; [done|by apply inv_done].
    + by injection H as <-.
    + case_match; [injection H as <-; by apply inv_done|].
      apply bind_Some_inv in H as ([s1 go] & _ & [= <-]). by apply inv_done.
  - case_bool_decide; [|done]. injection H as <-. split; simpl; [|apply Hi]. intros _.
    right. right. right. left. by destruct (expired s).
  - destruct (expired s) as [|i rest]; [done|]. injection H as <-. split; simpl; [|apply Hi].
    unfold covered. simpl. intros _. do 4 right. lia.
  - destruct (emitting s) as [|n]; [done|]. apply bind_Some_inv in H as ([s1 b] & He & [= <-]).
    apply dg_emit_inv in He as (Hi1 & _ & _ & _ & _ & Ha & _ & _); [|done]. split; simpl; [|apply Hi1].
    intros Ho. simpl in Ho. destruct (Ha eq_refl) as [Hf|?]; [congruence|by left].
Qed.

Lemma dg_inv_reach s : reach s -> inv s.
Proof. induction 1 as [|s a s' _ IH Ht Hs]; [by split|by eapply dg_inv_step]. Qed.

Lemma live_reader s : inv s -> ctx_done s = false -> reader_done s = false.
Proof. intros Hi Hc. destruct (reader_done s) eqn:Hr; [|done]. rewrite (iv_done _ Hi Hr) in Hc. done. Qed.

(** A goroutine of a timer that is about to report does. *)
Lemma timer_emits s : panicked s = false -> reader_done s = false -> (0 < emitting s)%nat ->
  exists s', step (ATimerEmit true) s = Some s' /\ events s' = events s ++ [endOfTurn].
Proof.
  intros Hp Hr He. unfold step. rewrite Hp. destruct (emitting s); [lia|]. unfold emit. rewrite Hr. simpl. by eexists.
Qed.

(** C29. Every Finalize is answered: as long as Deepgram marks what it sends for
    a Finalize final (as it documents), then at any point of a stream that is
    open, a Finalize that has seen no Final and no end of turn since will be
    answered by a timer: one is running, or has expired, or is about to report,
    and its next steps deliver an end of turn, whatever the network does. *)
Theorem finalize_answered s : reach s -> panicked s = false -> owed s = true -> ctx_done s = false -> closed s = false ->
  exists l s', Forall (fun a => match a with AExpire _ | ATimedOut | ATimerEmit _ => True | _ => False end) l /\
    run l s = Some s' /\ events s' = events s ++ [endOfTurn].
Proof.
  intros Hr Hp Ho Hc Hcl. pose proof (dg_inv_reach _ Hr) as Hi. pose proof (live_reader _ Hi Hc) as Hrd.
  assert (Hexp : forall s, panicked s = false -> reader_done s = false -> expired s <> [] ->
    exists s', run [ATimedOut; ATimerEmit true] s = Some s' /\ events s' = events s ++ [endOfTurn]).
  { intros s0 Hp0 Hr0 Hx. destruct (expired s0) as [|i rest] eqn:He0; [done|].
    set (s1 := set_timers None (armed s0) rest (S (emitting s0)) (timers s0) s0).
    assert (Hs1 : step ATimedOut s0 = Some s1) by (unfold step; by rewrite Hp0, He0).
    destruct (timer_emits s1 Hp0 Hr0) as (s' & Hs & He); [simpl; lia|].
    exists s'. cbn [run]. rewrite Hs1. cbn [mbind option_bind]. by rewrite Hs. }
  destruct (iv_covered _ Hi Ho) as [?|[?|[Ha|[Hx|He]]]]; [congruence|congruence|..].
  - destruct (armed s) as [|i rest] eqn:Harm; [done|].
    set (s1 := set_timers (finalizeTimer s) (stop (Some i) (i :: rest)) (expired s ++ [i]) (emitting s) (timers s) s).
    destruct (Hexp s1 Hp Hrd) as (s' & Hs & He); [by destruct (expired s)|].
    exists [AExpire i; ATimedOut; ATimerEmit true], s'. split; [by repeat constructor|]. split; [|done].
    assert (Hs1 : step (AExpire i) s = Some s1) by (unfold step; rewrite Hp, Harm; by rewrite bool_decide_eq_true_2 by left).
    cbn [run]. rewrite Hs1. exact Hs.
  - destruct (Hexp s Hp Hrd Hx) as (s' & Hs & He). exists [ATimedOut; ATimerEmit true], s'. split; [by repeat constructor|done].
  - destruct (timer_emits s Hp Hrd He) as (s' & Hs & Hev). exists [ATimerEmit true], s'. split; [by repeat constructor|].
    cbn [run]. by rewrite Hs.
Qed.
End stream.

(** ** Concrete runs *)

Definition demo_opts : Options := applyDefaults (MkOptions "" "" "" false 0 0 0 0 0 0).

(** The caller spoke and the turn was finalized; the service is silent. *)
Definition demo_finalized : list act :=
  [APush (repeat 1 960); AWriter (WIn true); AFinalize; ASend 0 true; AWriter (WCtl true)].

Lemma run_reach l : forall s s', reach demo_opts s -> Forall (fun a => trusted a = true) l -> run demo_opts l s = Some s' ->
  reach demo_opts s'.
Proof.
  induction l as [|a l IH]; intros s s' Hs Hl; simpl; [by intros [= <-]|]. apply Forall_cons in Hl as [Ha Hl].
  intros (s1 & H1 & Hr)%bind_Some_inv. apply (IH s1); try done. by eapply reach_step.
Qed.

Lemma finalize_answered_witness : exists s, run demo_opts demo_finalized start = Some s /\ owed s = true /\
  exists l s', run demo_opts l s = Some s' /\ events s' = events s ++ [endOfTurn].
Proof.
  destruct (run demo_opts demo_finalized start) as [s|] eqn:Hs; [|vm_compute in Hs; discriminate].
  exists s. split; [reflexivity|].
  assert (Hr : reach demo_opts s) by (eapply run_reach; [constructor| |exact Hs]; repeat constructor).
  vm_compute in Hs. injection Hs as <-. split; [reflexivity|].
  destruct (finalize_answered demo_opts _ Hr eq_refl eq_refl eq_refl eq_refl) as (l & s' & _ & H). by exists l, s'.
Defined.

(** A caller can crash the gateway by finalizing at the wrong moment: when
    Deepgram ends the stream normally within finalize_timeout of a Finalize, the
    reader closes the events channel and reports nothing, the session goes on,
    and the timer then reports an end of turn on the closed channel; the select
    may take that send although the context is done, and the process panics.
    Closing the stream does not always help: when a Finalize comes as the timer
    of the previous one expires, the new timer is forgotten and outlives Close. *)
Theorem stale_timer_panics :
  (exists s, run demo_opts (demo_finalized ++ [AReader (RError true "status = StatusNormalClosure" false);
       AExpire 0; ATimedOut; ATimerEmit true]) start = Some s /\ closed s = false /\ panicked s = true) /\
  (exists s, run demo_opts (demo_finalized ++ [AExpire 0; AFinalize; ATimedOut; ATimerEmit true; ASend 0 true; AWriter (WCtl true);
       AClose; ASend 0 true; AWriter (WCtl true); AReader (RError false "closed" false); AExpire 1; ATimedOut; ATimerEmit true]) start = Some s /\
     closed s = true /\ panicked s = true).
Proof. split; eexists; (split; [vm_compute; reflexivity|]); split; reflexivity. Qed.
