(* ===== verification/QwenTts.v ===== *)
(** * The DashScope synthesis stream ([internal/provider/qwen/tts.go])

    One task per stream: a writer goroutine sends the sentences as they are
    written, a reader goroutine receives the audio. [tts] is what they share with
    the pipeline's calls ([WriteText], [EndInput], [ReadAudio], [Close]); [log]
    records what the writer sent, and the frames on the wire ([wire]) follow from
    it; [written], [received] and [got] record the text accepted, the audio that
    arrived and the audio read.

    A label of [tts_step] is one call, one step of the writer with the outcome of
    its write, or one frame read. A send into the audio channel waits for room
    or finds the context done.

    Shown: the service receives exactly the text written, in order, within one
    task; the pipeline receives exactly the audio of the task before its end;
    and a writer that outlives its stream. *)

From S2P Require Export Qwen Audio.
From Stdlib Require Import QArith.
#[local] Open Scope string_scope.
#[local] Open Scope list_scope.
#[local] Open Scope Z_scope.

Definition flushNudge := " ".
Definition ttsAudioQueue : Z := 64.
Definition ttsTextQueue : Z := 32.

Definition canceled : string := "context canceled".
Definition ErrClosedPipe : string := "io: read/write on closed pipe".

(** ** Parameters *)

Definition tts_params (o : TTSOptions) (cfg : TTSConfig) : ttsParameters :=
  {| TextType := "PlainText"; TP_Format := "pcm";
     TP_SampleRate := if TTS_SampleRate cfg =? 0 then SampleRate else TTS_SampleRate cfg;
     TP_Voice := firstNonEmpty (TTS_Voice cfg) (T_Voice o);
     TP_Rate := if Qeq_bool (TTS_Speed cfg) 0 || Qeq_bool (TTS_Speed cfg) 1 then 0%Q else TTS_Speed cfg |}.

Definition Capabilities : TTSCaps := MkTTSCaps true false.

(** ** State *)

Inductive entry := ERun | EText (text : string) | ENudge | EFinish.

(** [WCheck]: a sentence is out; [WNudge]: and nothing else was ready. *)
Inductive wpc := WRun | WWait | WText | WCheck | WNudge | WFinish | WExit.

#[export] Instance wpc_eq_dec : EqDecision wpc.
Proof. solve_decision. Defined.

(** [errc] is the terminal outcome until it is taken, [None] in it a clean
    finish; [outcome] keeps it. *)
Record tts := MkTts {
  text_q : list string;
  ended : bool;
  started : bool;
  chunks : list (list Z);
  errc : option (option string);
  ctx_done : bool;
  wp : wpc;
  reader_done : bool;
  done : bool;
  final : option string;
  log : list entry;
  written : list string;
  received : list (list Z);
  got : list (list Z);
  outcome : option (option string)
}.

Definition set_text q s := MkTts q (ended s) (started s) (chunks s) (errc s) (ctx_done s) (wp s) (reader_done s) (done s) (final s) (log s) (written s) (received s) (got s) (outcome s).
Definition set_written l s := MkTts (text_q s) (ended s) (started s) (chunks s) (errc s) (ctx_done s) (wp s) (reader_done s) (done s) (final s) (log s) l (received s) (got s) (outcome s).
Definition set_ended s := MkTts (text_q s) true (started s) (chunks s) (errc s) (ctx_done s) (wp s) (reader_done s) (done s) (final s) (log s) (written s) (received s) (got s) (outcome s).
Definition set_started s := MkTts (text_q s) (ended s) true (chunks s) (errc s) (ctx_done s) (wp s) (reader_done s) (done s) (final s) (log s) (written s) (received s) (got s) (outcome s).
Definition set_chunks c r g s := MkTts (text_q s) (ended s) (started s) c (errc s) (ctx_done s) (wp s) (reader_done s) (done s) (final s) (log s) (written s) r g (outcome s).
Definition set_ctx s := MkTts (text_q s) (ended s) (started s) (chunks s) (errc s) true (wp s) (reader_done s) (done s) (final s) (log s) (written s) (received s) (got s) (outcome s).
Definition set_wp p s := MkTts (text_q s) (ended s) (started s) (chunks s) (errc s) (ctx_done s) p (reader_done s) (done s) (final s) (log s) (written s) (received s) (got s) (outcome s).
Definition set_log l s := MkTts (text_q s) (ended s) (started s) (chunks s) (errc s) (ctx_done s) (wp s) (reader_done s) (done s) (final s) l (written s) (received s) (got s) (outcome s).
Definition set_outcome o s := MkTts (text_q s) (ended s) (started s) (chunks s) (Some o) true (wp s) true (done s) (final s) (log s) (written s) (received s) (got s) (Some o).
Definition set_final f s := MkTts (text_q s) (ended s) (started s) (chunks s) None (ctx_done s) (wp s) (reader_done s) true f (log s) (written s) (received s) (got s) (outcome s).

(** ** The pipeline's calls *)

Section stream.
Context (opts : TTSOptions).

(** [ok]: the select took the send. [None]: the call waits. *)
Definition WriteText (text : string) (ok : bool) (s : tts) : option (tts * error) :=
  if ended s then Some (s, Some ErrClosedPipe)
  else if ctx_done s then Some (s, Some canceled)
  else if ok then
    if zlen (text_q s) <? ttsTextQueue
    then Some (set_written (written s ++ [text]) (set_text (text_q s ++ [text]) s), None) else None
  else if bool_decide (wp s = WExit) then Some (s, Some ErrClosedPipe) else None.

Definition EndInput (s : tts) : tts := if ended s then s else set_ended s.

Inductive read_result := Got (pcm : list Z) | EOF | ReadFailed (err : string).

Definition end_result (f : option string) : read_result := match f with Some e => ReadFailed e | None => EOF end.

(** [terminal]: the outcome is there once the audio channel is closed. *)
Definition terminal (s : tts) : option (tts * read_result) :=
  o ← errc s; Some (set_final o s, end_result o).

(** Both cases of the select come to this: a chunk if there is one; once the
    reader is done and the chunks are read, the outcome. A cancelled call waits
    for the reader first, which only delays it. *)
Definition ReadAudio (s : tts) : option (tts * read_result) :=
  if done s then Some (s, end_result (final s))
  else match chunks s with
       | c :: rest => Some (set_chunks rest (received s) (got s ++ [c]) s, Got c)
       | [] => if reader_done s then terminal s else None
       end.

(** ** The writer *)

Definition after_write (ok : bool) (e : entry) (p : wpc) (s : tts) : tts :=
  if ok then set_wp p (set_log (log s ++ [e]) s) else set_ctx (set_wp WExit s).

(** [ok] is the outcome of the write; [done_]: the select took the context. *)
Definition writer (ok done_ : bool) (s : tts) : option tts :=
  match wp s with
  | WRun => Some (after_write ok ERun WWait s)
  | WWait =>
      if done_ then if ctx_done s then Some (set_wp WExit s) else None
      else if started s then Some (set_wp WText s) else None
  | WText =>
      match text_q s with
      | text :: rest =>
          let s := set_text rest s in
          if String.eqb text "" then Some s
          else Some (after_write ok (EText text) WCheck s)
      | [] => if ended s then Some (set_wp WFinish s) else None
      end
  | WCheck => Some (set_wp (if negb (NoFlushNudge opts) && bool_decide (text_q s = []) then WNudge else WText) s)
  | WNudge => Some (after_write ok ENudge WText s)
  | WFinish => Some (after_write ok EFinish WExit s)
  | WExit => None
  end.

(** ** The reader *)

Inductive read :=
| RdBinary (pcm : list Z) (ok : bool)
| RdIgnored
| RdMsg (h : inHeader)
| RdError (err : string).

Definition reader (r : read) (s : tts) : option tts :=
  if reader_done s then None else
  match r with
  | RdError err =>
      Some (set_outcome (Some (if ctx_done s then canceled
                               else q_transientf ("connection closed before task-finished: " +:+ err))) s)
  | RdBinary pcm true =>
      if zlen (chunks s) <? ttsAudioQueue
      then Some (set_chunks (chunks s ++ [pcm]) (received s ++ [pcm]) (got s) s) else None
  | RdBinary pcm false => if ctx_done s then Some (set_outcome (Some canceled) s) else None
  | RdIgnored => Some s
  | RdMsg h =>
      if String.eqb (H_Event h) eventTaskStarted then Some (set_started s)
      else if String.eqb (H_Event h) eventTaskFinished then Some (set_outcome None s)
      else if String.eqb (H_Event h) eventTaskFailed then Some (set_outcome (Some (Error_Error (taskFailed h))) s)
      else Some s
  end.

(** ** The whole stream *)

(** [ACancel]: [Close], the pipeline's context, or the idle timer. *)
Inductive act :=
| AWriteText (text : string) (ok : bool)
| AEndInput
| AReadAudio
| ACancel
| AWriter (ok done_ : bool)
| AReader (r : read).

Definition tts_step (a : act) (s : tts) : option tts :=
  match a with
  | AWriteText text ok => fst <$> WriteText text ok s
  | AEndInput => Some (EndInput s)
  | AReadAudio => fst <$> ReadAudio s
  | ACancel => Some (set_ctx s)
  | AWriter ok done_ => writer ok done_ s
  | AReader r => reader r s
  end.

(** [Synthesize], once dialed. *)
Definition tts_start : tts := MkTts [] false false [] None false WRun false false None [] [] [] [] None.

Inductive tts_reach : tts -> Prop :=
| tts_reach_start : tts_reach tts_start
| tts_reach_step s a s' : tts_reach s -> tts_step a s = Some s' -> tts_reach s'.

Fixpoint tts_run (l : list act) (s : tts) : option tts :=
  match l with
  | [] => Some s
  | a :: l => tts_step a s ≫= tts_run l
  end.

Lemma tts_run_reach l : forall s s', tts_reach s -> tts_run l s = Some s' -> tts_reach s'.
Proof.
  induction l as [|a l IH]; intros s s' Hs; simpl; [by intros [= <-]|].
  intros (s1 & H1 & Hl)%bind_Some_inv. apply (IH s1); [|done]. by eapply tts_reach_step.
Qed.

Definition entry_frame (id model : string) (params : ttsParameters) (e : entry) : outFrame :=
  match e with
  | ERun => RunTts (newOutHeader actionRunTask id) (MkRunPayload "audio" "tts" "SpeechSynthesizer" model params)
  | EText text => Continue (newOutHeader actionContinueTask id) text
  | ENudge => Continue (newOutHeader actionContinueTask id) flushNudge
  | EFinish => Qwen.Finish (newOutHeader actionFinishTask id)
  end.

Definition wire (id model : string) (params : ttsParameters) (s : tts) : list outFrame :=
  map (entry_frame id model params) (log s).
(** ** The order of the task's frames *)

(** [PText b]: the task runs; [b]: a sentence was just sent. *)
Inductive phase := PNone | PText (after_text : bool) | PEnd.

Definition next (p : phase) (e : entry) : option phase :=
  match p, e with
  | PNone, ERun => Some (PText false)
  | PText _, EText text => if String.eqb text "" then None else Some (PText true)
  | PText true, ENudge => Some (PText false)
  | PText _, EFinish => Some PEnd
  | _, _ => None
  end.

Definition phase_of (log : list entry) : option phase := foldl (fun p e => p ≫= fun p => next p e) (Some PNone) log.

Lemma tts_phase_of_snoc log e : phase_of (log ++ [e]) = phase_of log ≫= fun p => next p e.
Proof. unfold phase_of. by rewrite foldl_app. Qed.

Definition entry_text (e : entry) : list string := match e with EText t => [t] | _ => [] end.
Definition texts_of (log : list entry) : list string := concat (map entry_text log).
Definition nonempty (l : list string) : list string := List.filter (fun t => negb (String.eqb t "")) l.

Lemma texts_of_snoc log e : texts_of (log ++ [e]) = texts_of log ++ entry_text e.
Proof. unfold texts_of. rewrite map_app, concat_app. simpl. by rewrite app_nil_r. Qed.

Definition is_running (p : phase) : Prop := exists b, p = PText b.

Definition at_phase (w : wpc) (p : phase) : Prop :=
  match w with
  | WRun => p = PNone
  | WWait | WText | WFinish => is_running p
  | WCheck | WNudge => p = PText true
  | WExit => True
  end.

(** ** The invariant *)

Record inv (s : tts) : Prop := {
  iv_phase : exists p, phase_of (log s) = Some p /\ at_phase (wp s) p;
  iv_text : exists rest, nonempty (written s) = texts_of (log s) ++ rest /\ (wp s <> WExit -> rest = nonempty (text_q s));
  iv_last : wp s = WFinish -> ended s = true /\ text_q s = [];
  iv_finished : EFinish ∈ log s -> ended s = true /\ nonempty (written s) = texts_of (log s);
  iv_audio : received s = got s ++ chunks s;
  iv_end : if reader_done s
           then exists o, outcome s = Some o /\
             (if done s then final s = o /\ chunks s = [] else errc s = Some o)
           else done s = false
}.

Lemma tts_inv_frame s s' : inv s -> log s' = log s -> wp s' = wp s -> written s' = written s -> text_q s' = text_q s ->
  (ended s = true -> ended s' = true) -> received s' = got s' ++ chunks s' ->
  (if reader_done s' then exists o, outcome s' = Some o /\
     (if done s' then final s' = o /\ chunks s' = [] else errc s' = Some o) else done s' = false) -> inv s'.
Proof.
  intros [Hp Ht Hl Hf Ha He] E1 E2 E3 E4 E5 E6 E7. split; rewrite ?E1, ?E2, ?E3, ?E4; try done; naive_solver.
Qed.

(** A write: the text it carries, where the writer goes. *)
Lemma inv_write ok e q p s : inv s -> EFinish ∉ log s -> wp s <> WExit ->
  nonempty (text_q s) = entry_text e ++ nonempty q ->
  (forall ph, at_phase (wp s) ph -> exists ph', next ph e = Some ph' /\ at_phase p ph') ->
  (e = EFinish -> ended s = true /\ q = []) -> (p = WFinish -> ended s = true /\ q = []) ->
  inv (after_write ok e p (set_text q s)).
Proof.
  intros [(ph & Hp & Hat) (rest & Ht & Hr) Hl Hf Ha He] Hnf Hx Hq Hnext Hend Hlast. rewrite Hr in Ht by done.
  unfold after_write. destruct ok; (split; simpl; try done).
  - destruct (Hnext _ Hat) as (ph' & Hn & Hat'). exists ph'. rewrite tts_phase_of_snoc, Hp. done.
  - exists (nonempty q). rewrite texts_of_snoc, Ht, Hq, app_assoc. done.
  - intros [Hin|Hin%list_elem_of_singleton]%elem_of_app; [done|]. subst e.
    destruct (Hend eq_refl) as [? ->]. split; [done|]. rewrite texts_of_snoc, Ht, Hq. simpl. by rewrite !app_nil_r.
  - by exists ph.
  - exists (entry_text e ++ nonempty q). by rewrite Ht, Hq.
Qed.

(** No goodbye before the writer's last step. *)
Lemma no_finish s : inv s -> wp s <> WExit -> EFinish ∉ log s.
Proof.
  intros [(p & Hp & Hat) _ _ _ _ _] Hx Hin.
  assert (Hend : phase_of (log s) = Some PEnd \/ phase_of (log s) = None).
  { clear Hat Hp. revert Hin. induction (log s) as [|e l IH] using rev_ind; [by intros ?%not_elem_of_nil|].
    rewrite tts_phase_of_snoc. intros [Hin|Hin%list_elem_of_singleton]%elem_of_app.
    - destruct (IH Hin) as [->| ->]; simpl; auto.
    - subst e. destruct (phase_of l) as [[|[]|]|]; simpl; auto. }
  destruct Hend as [Hend|Hend]; rewrite Hend in Hp; [|done]. injection Hp as <-.
  unfold at_phase, is_running in Hat. destruct (wp s); naive_solver.
Qed.

Lemma tts_inv_writer ok done_ s s' : writer ok done_ s = Some s' -> inv s -> inv s'.
Proof.
  unfold writer. intros H Hi.
  destruct (decide (wp s = WExit)) as [Hx|Hx]; [by rewrite Hx in H|]. pose proof (no_finish _ Hi Hx) as Hnf.
  assert (Hsame : s = set_text (text_q s) s) by by destruct s.
  assert (Hmove : forall p, wp s <> WExit -> (forall ph, at_phase (wp s) ph -> at_phase p ph) -> p <> WFinish -> inv (set_wp p s)).
  { intros p Hx' Hat Hne. destruct Hi as [(ph & Hp & Ha) (rest & Ht & Hr) Hl Hf Hau He]. split; try done.
    - exists ph. auto.
    - exists rest. split; [done|]. intros _. by apply Hr. }
  destruct (wp s) eqn:Hw; [..|done].
  - injection H as <-. rewrite Hsame at 1. apply inv_write; try done; rewrite ?Hw; simpl; try done.
    intros ph ->. by exists (PText false); split; [|by exists false].
  - destruct done_.
    + destruct (ctx_done s); [|done]. injection H as <-. by apply Hmove.
    + destruct (started s); [|done]. injection H as <-. by apply Hmove.
  - destruct (text_q s) as [|text rest] eqn:Hq.
    + destruct (ended s) eqn:He; [|done]. injection H as <-.
      destruct Hi as [(ph & Hp & Ha) (r & Ht & Hr) Hl Hf Hau Hen]. split; try done; simpl.
      * exists ph. split; [done|]. by rewrite Hw in Ha.
      * exists r. split; [done|]. intros _. apply Hr. by rewrite Hw.
    + destruct (String.eqb_spec text "") as [->|Hne]; injection H as <-.
      * destruct Hi as [(ph & Hp & Ha) (r & Ht & Hr) Hl Hf Hau Hen]. split; try done; simpl.
        -- by exists ph.
        -- exists r. split; [done|]. intros _. rewrite Hr by (by rewrite Hw). by rewrite Hq.
        -- intros Hfin. rewrite Hw in Hfin. done.
      * apply inv_write; try done; rewrite ?Hw; simpl; try done.
        -- rewrite Hq. unfold nonempty. simpl. by rewrite (proj2 (String.eqb_neq _ _) Hne).
        -- intros ph [b ->]. exists (PText true). simpl. rewrite (proj2 (String.eqb_neq _ _) Hne). by destruct b.
  - injection H as <-. case_match; apply Hmove; try done. intros ph ->. by exists true.
  - injection H as <-. rewrite Hsame at 1. apply inv_write; try done; rewrite ?Hw; simpl; try done.
    intros ph ->. exists (PText false). split; [done|by exists false].
  - injection H as <-. destruct (iv_last _ Hi Hw) as [He Hq]. rewrite Hsame at 1.
    apply inv_write; try done; rewrite ?Hw; simpl; try done. intros ph [b ->]. exists PEnd. by destruct b.
Qed.
Lemma tts_inv_reader r s s' : reader r s = Some s' -> inv s -> inv s'.
Proof.
  unfold reader. intros H Hi. destruct (reader_done s) eqn:Hr; [done|].
  pose proof (iv_audio _ Hi) as Ha. pose proof (iv_end _ Hi) as He. rewrite Hr in He.
  assert (Hout : forall o, inv (set_outcome o s)).
  { intros o. apply (tts_inv_frame s); try done. simpl. exists o. by rewrite He. }
  destruct r as [pcm [|]| |h|err].
  - case_match; [|done]. injection H as <-. apply (tts_inv_frame s); try done; simpl; [by rewrite Ha, app_assoc|by rewrite Hr].
  - destruct (ctx_done s); [|done]. by injection H as <-.
  - by injection H as <-.
  - repeat case_match; injection H as <-; try done. apply (tts_inv_frame s); try done. simpl. by rewrite Hr.
  - by injection H as <-.
Qed.

Lemma inv_ReadAudio s s' r : ReadAudio s = Some (s', r) -> inv s -> inv s'.
Proof.
  unfold ReadAudio. intros H Hi. pose proof (iv_audio _ Hi) as Ha. pose proof (iv_end _ Hi) as He.
  destruct (done s) eqn:Hd; [by injection H as <- <-|]. destruct (chunks s) as [|c rest] eqn:Hc.
  - destruct (reader_done s) eqn:Hr; [|done]. apply bind_Some_inv in H as (o & Ho & [= <- <-]).
    apply (tts_inv_frame s); try done; simpl; [by rewrite Hc|]. rewrite Hr.
    destruct He as (o' & ? & He). exists o'. split; [done|]. split; [congruence|done].
  - injection H as <- <-. apply (tts_inv_frame s); try done; simpl; [by rewrite Ha, <- app_assoc|].
    destruct (reader_done s); [|done]. destruct He as (o & ? & He). exists o. by rewrite Hd.
Qed.

Lemma inv_WriteText text ok s s' e : WriteText text ok s = Some (s', e) -> inv s -> inv s'.
Proof.
  unfold WriteText. intros H Hi. destruct (ended s) eqn:He; [by injection H as <- <-|].
  destruct (ctx_done s); [by injection H as <- <-|].
  destruct ok; [|case_bool_decide; [by injection H as <- <-|done]]. case_match; [|done]. injection H as <- <-.
  destruct Hi as [Hp (rest & Ht & Hr) Hl Hf Ha Hen].
  assert (Hsnoc : forall l, nonempty (l ++ [text]) = nonempty l ++ nonempty [text]) by (intros; apply List.filter_app).
  split; simpl; rewrite ?Hsnoc; try done.
  - exists (rest ++ nonempty [text]). rewrite Ht, app_assoc. split; [done|]. intros Hx. by rewrite Hr.
  - intros Hw. destruct (Hl Hw). congruence.
  - intros Hin. destruct (Hf Hin). congruence.
Qed.

Lemma tts_inv_step a s s' : tts_step a s = Some s' -> inv s -> inv s'.
Proof.
  intros H Hi. destruct a as [text ok| | | |ok d|r]; simpl in H.
  - apply fmap_Some in H as ([s1 e] & H & ->). by eapply inv_WriteText.
  - injection H as <-. unfold EndInput. case_match; [done|]. apply (tts_inv_frame s); try done; apply Hi.
  - apply fmap_Some in H as ([s1 r] & H & ->). by eapply inv_ReadAudio.
  - injection H as <-. apply (tts_inv_frame s); try done; apply Hi.
  - by eapply tts_inv_writer.
  - by eapply tts_inv_reader.
Qed.

Lemma tts_inv_reach s : tts_reach s -> inv s.
Proof.
  induction 1 as [|s a s' _ IH Hs]; [|by eapply tts_inv_step].
  split; try done; [by exists PNone|by exists []|by intros ?%not_elem_of_nil].
Qed.

(** ** Main results *)

(** C30. The service is told exactly what the pipeline wrote: within one task
    (run-task first, a flush nudge only directly after a sentence, nothing after
    finish-task) the sentences sent are the ones written, in order, none
    skipped (empty ones aside), and finish-task is sent only after EndInput and
    only once all of them are out. *)
Theorem text_sent_exactly s : tts_reach s ->
  phase_of (log s) <> None /\ texts_of (log s) `prefix_of` nonempty (written s) /\
  (EFinish ∈ log s -> ended s = true /\ texts_of (log s) = nonempty (written s)).
Proof.
  intros Hr. destruct (tts_inv_reach _ Hr) as [(p & Hp & _) (rest & Ht & _) _ Hf _ _].
  split; [by rewrite Hp|]. split; [by exists rest|]. intros Hin. destruct (Hf Hin). by split.
Qed.

(** The pipeline hears everything before the end: the audio read and the
    audio waiting are what arrived, in order; an end (io.EOF, which stands for
    the service's task-finished, or an error) is reported only when all of it
    has been read, it is reported again by every later call, and once the reader
    has settled no call waits. *)
Theorem audio_before_end s : tts_reach s ->
  received s = got s ++ chunks s /\
  (done s = true -> got s = received s /\ outcome s = Some (final s) /\
     ReadAudio s = Some (s, end_result (final s))) /\
  (reader_done s = true -> exists s' r, ReadAudio s = Some (s', r) /\ (r = EOF -> outcome s = Some None)).
Proof.
  intros Hr. destruct (tts_inv_reach _ Hr) as [_ _ _ _ Ha He]. split; [done|]. split.
  - intros Hd. rewrite Hd in He. destruct (reader_done s); [|done]. destruct He as (o & Ho & <- & Hc).
    rewrite Ha, Hc, app_nil_r. repeat split; try done. unfold ReadAudio. by rewrite Hd.
  - intros Hrd. rewrite Hrd in He. destruct He as (o & Ho & He). unfold ReadAudio, terminal. rewrite Hrd.
    destruct (done s).
    + destruct He as [<- _]. eexists _, _. split; [done|]. rewrite Ho. by destruct (final s).
    + destruct (chunks s); [|eexists _, _; by split]. rewrite He. simpl. eexists _, _. split; [done|].
      rewrite Ho. by destruct o.
Qed.
End stream.

(** ** Concrete runs *)

Definition demo_opts : TTSOptions := tts_applyDefaults (MkTTSOptions (MkWsOptions "" 0 0) "" "" false).

Definition msg (event : string) : act := AReader (RdMsg (MkInHeader "" event "" "")).

(** Two sentences, the second written after the first was nudged out. *)
Definition demo_spoken : list act :=
  [AWriteText "Hello." true; AWriter true false; msg eventTaskStarted; AWriter true false; AWriter true false;
   AWriter true false; AWriter true false; AReader (RdBinary [1; 0] true); AReadAudio;
   AWriteText "Bye." true; AEndInput; AWriter true false; AWriter true false; AWriter true false; AWriter true false; AWriter true false;
   AReader (RdBinary [2; 0] true); msg eventTaskFinished; AReadAudio; AReadAudio].

Definition demo_state : option tts := tts_run demo_opts demo_spoken tts_start.

Lemma tts_demo_reach s : demo_state = Some s -> tts_reach demo_opts s.
Proof. unfold demo_state. apply tts_run_reach. constructor. Qed.

Lemma text_sent_exactly_witness : exists s, demo_state = Some s /\
  log s = [ERun; EText "Hello."; ENudge; EText "Bye."; ENudge; EFinish] /\ texts_of (log s) = nonempty (written s).
Proof.
  destruct demo_state as [s|] eqn:Hs; [|vm_compute in Hs; discriminate]. exists s. split; [reflexivity|].
  destruct (text_sent_exactly demo_opts s (tts_demo_reach _ Hs)) as (_ & _ & Hf).
  vm_compute in Hs. injection Hs as <-. split; [reflexivity|]. apply Hf. vm_compute. do 5 right. left.
Defined.

Lemma audio_before_end_witness : exists s, demo_state = Some s /\ done s = true /\ got s = [[1; 0]; [2; 0]] /\
  ReadAudio s = Some (s, EOF).
Proof.
  destruct demo_state as [s|] eqn:Hs; [|vm_compute in Hs; discriminate]. exists s. split; [reflexivity|].
  destruct (audio_before_end demo_opts s (tts_demo_reach _ Hs)) as (_ & Hd & _).
  vm_compute in Hs. injection Hs as <-. split; [reflexivity|]. split; [reflexivity|]. apply Hd. reflexivity.
Defined.

(** ** A writer that is left behind *)

(** The caller interrupts the answer between two sentences: the context is
    cancelled, the reader ends, and the pipeline's next [WriteText] fails, so it
    never calls [EndInput]. *)
Definition abandoned : list act :=
  [AWriteText "Hello." true; AWriter true false; msg eventTaskStarted; AWriter true false; AWriter true false;
   AWriter true false; AWriter true false; ACancel; AReader (RdError "use of closed connection"); AWriteText "Bye." true; AReadAudio].

(** A cancelled stream leaves its writer behind, although Close is meant to
    reclaim both goroutines: the writer waits for text without watching the
    context. Once the answer has been interrupted and the text not ended, then
    whatever happens except EndInput (which the pipeline does not call after its
    write failed), the writer never exits: every interrupted answer leaks a
    goroutine. *)
Theorem interrupted_writer_leaks :
  exists s, tts_run demo_opts abandoned tts_start = Some s /\ ctx_done s = true /\ reader_done s = true /\ done s = true /\
    WriteText "Bye." true s = Some (s, Some canceled) /\
    forall l s', AEndInput ∉ l -> tts_run demo_opts l s = Some s' -> wp s' = WText.
Proof.
  eexists. split; [vm_compute; reflexivity|]. do 3 (split; [reflexivity|]). split; [reflexivity|].
  assert (Hq : forall l s s', wp s = WText -> text_q s = [] -> ended s = false -> ctx_done s = true -> reader_done s = true ->
    AEndInput ∉ l -> tts_run demo_opts l s = Some s' -> wp s' = WText).
  { induction l as [|a l IH]; intros s s' Hw Ht He Hc Hr Hl; simpl; [by intros [= <-]|].
    intros (s1 & Ha & Hrun)%bind_Some_inv. apply not_elem_of_cons in Hl as [Hne Hl].
    destruct a as [text ok| | | |ok d|r]; simpl in Ha; try done.
    - unfold WriteText in Ha. rewrite He, Hc in Ha. injection Ha as <-. by apply (IH s).
    - apply fmap_Some in Ha as ([s2 r] & Ha & ->). unfold ReadAudio, terminal in Ha.
      destruct (QwenTts.done s), (chunks s); try rewrite Hr in Ha; try apply bind_Some_inv in Ha as (? & ? & Ha);
        injection Ha as <- <-; by eapply IH; [..|exact Hrun].
    - injection Ha as <-. by eapply IH; [..|exact Hrun].
    - unfold writer in Ha. by rewrite Hw, Ht, He in Ha.
    - unfold reader in Ha. by rewrite Hr in Ha. }
  intros l s'. by apply Hq.
Qed.
