(* ===== verification/OpenaiTts.v ===== *)
(** * OpenAI synthesis over HTTP ([internal/provider/openai/tts.go])

    [Synthesize] opens one of two streams by the name of the model; this file has
    the options, the choice, the queue both hand their audio over ([reading],
    [ReadAudio]) and the stream over POST /audio/speech: [speech] collects the
    text, posts it once, and [fetch] reads the body 100 ms at a time. The other
    stream is in [RealtimeTts].

    A label of [speech_step] is one call of the pipeline or one round of [fetch]
    with what the network answered; a send into the audio queue waits for room or
    finds the context done. The idle watchdog is a cancellation.

    Shown: the pipeline hears exactly the samples of the body, then its end; and a
    body cut off by the network ends as if it were complete. *)

From S2P Require Export Qwen Audio.
From Stdlib Require Import QArith.
#[local] Open Scope string_scope.
#[local] Open Scope list_scope.
#[local] Open Scope Z_scope.

Definition Name := "openai".
Definition defaultTTSModel := "gpt-realtime-2.1-mini".
Definition audioChunkMs : Z := 100.
Definition audioQueue : Z := 32.
Definition canceled : string := "context canceled".
Definition ErrClosedPipe : string := "io: read/write on closed pipe".

Definition oerror (kind : ErrorKind) (text : string) : string := Error_Error (MkError Name kind text).
Definition fatalf (text : string) : string := oerror ErrFatal text.
Definition transientf (text : string) : string := oerror ErrTransient text.

(** ** Options and the choice of transport *)

Record TTSOptions := MkTTSOptions { T_http : httpOptions; T_Model : string }.

Definition NewTTS (o : TTSOptions) : TTSOptions :=
  {| T_http := applyDefaults openai.defaultBaseURL (T_http o); T_Model := str_default (T_Model o) defaultTTSModel |}.

Definition isRealtimeModel (model : string) : bool := Contains (ToLower model) (bytes_of "realtime").

Definition Capabilities (o : TTSOptions) : TTSCaps := MkTTSCaps (isRealtimeModel (T_Model o)) false.

(** Zero and one leave the speed out. *)
Definition speed_of (cfg : TTSConfig) : float64 :=
  if negb (Qeq_bool (TTS_Speed cfg) 0) && negb (Qeq_bool (TTS_Speed cfg) 1) then TTS_Speed cfg else 0%Q.

(** ** The pipeline's end of the queue *)

(** [errc] is the terminal outcome until it is taken ([None] in it: a clean
    finish), [outcome] keeps it; [sent] and [got] are the chunks sent and read. *)
Record reading := MkReading {
  chunks : list (list Z);
  closed : bool;
  errc : option (option string);
  done : bool;
  final : option string;
  sent : list (list Z);
  got : list (list Z);
  outcome : option (option string)
}.

Definition new_reading : reading := MkReading [] false None false None [] [] None.

Inductive read_result := Got (pcm : list Z) | EOF | ReadFailed (err : string).

Definition end_result (f : option string) : read_result := match f with Some e => ReadFailed e | None => EOF end.

(** [done_]: the select took the context. [None]: the call waits. *)
Definition ReadAudio (ctx done_ : bool) (r : reading) : option (reading * read_result) :=
  if done r then Some (r, end_result (final r))
  else if done_ then if ctx then Some (r, ReadFailed canceled) else None
  else match chunks r with
       | c :: rest => Some (MkReading rest (closed r) (errc r) false (final r) (sent r) (got r ++ [c]) (outcome r), Got c)
       | [] =>
           if closed r then
             o ← errc r;
             Some (MkReading [] true None true o (sent r) (got r) (outcome r), end_result o)
           else None
       end.

(** The goroutine's send: the queue, and whether it was sent. *)
Definition send (ctx ok : bool) (pcm : list Z) (r : reading) : option (reading * bool) :=
  if ok then
    if zlen (chunks r) <? audioQueue
    then Some (MkReading (chunks r ++ [pcm]) (closed r) (errc r) (done r) (final r) (sent r ++ [pcm]) (got r) (outcome r), true)
    else None
  else if ctx then Some (r, false) else None.

(** The terminal outcome, then the queue is closed. *)
Definition settle (o : option string) (r : reading) : reading :=
  MkReading (chunks r) true (Some o) (done r) (final r) (sent r) (got r) (Some o).

Record settled (r : reading) : Prop := {
  se_queue : sent r = got r ++ chunks r;
  se_end : if closed r
           then exists o, outcome r = Some o /\ (if done r then final r = o /\ chunks r = [] else errc r = Some o)
           else done r = false /\ outcome r = None
}.

Lemma settled_new : settled new_reading.
Proof. by split. Qed.

Lemma settled_read ctx d r r' res : ReadAudio ctx d r = Some (r', res) -> settled r ->
  settled r' /\ closed r' = closed r /\ outcome r' = outcome r /\ sent r' = sent r.
Proof.
  unfold ReadAudio. intros H Hs. pose proof Hs as [Hq He]. destruct (done r) eqn:Hd; [by injection H as <- <-|].
  destruct d; [destruct ctx; by simplify_eq|].
  destruct (chunks r) as [|c rest] eqn:Hc.
  - destruct (closed r) eqn:Hcl; [|done]. destruct He as (o & Ho & He). rewrite He in H. simpl in H. injection H as <- <-.
    split; [|done]. split; simpl; [done|]. by exists o.
  - injection H as <- <-. split; [|done]. split; simpl; [by rewrite <- app_assoc|].
    destruct (closed r); naive_solver.
Qed.

Lemma settled_send ctx ok pcm r r' b : send ctx ok pcm r = Some (r', b) -> settled r -> closed r = false ->
  settled r' /\ closed r' = false /\ outcome r' = outcome r /\
  sent r' = sent r ++ (if b then [pcm] else []) /\ (b = false -> ctx = true).
Proof.
  unfold send. intros H [Hq He] Hc. rewrite Hc in He. destruct ok; [destruct (_ <? _); [|done]|destruct ctx; [|done]];
    injection H as <- <-; (split; [split; simpl|simpl; rewrite ?app_nil_r]); rewrite ?Hc; try done.
  by rewrite Hq, app_assoc.
Qed.

Lemma settled_settle o r : settled r -> closed r = false -> settled (settle o r).
Proof. intros [Hq He] Hc. rewrite Hc in He. destruct He as [Hd _]. split; simpl; [done|]. rewrite Hd. by exists o. Qed.

(** ** POST /audio/speech *)

Record speechRequest := MkSpeechRequest {
  SR_Model : string; SR_Input : string; SR_Voice : string; SR_Format : string; SR_Speed : float64
}.

Definition speech_request (o : TTSOptions) (cfg : TTSConfig) (text : string) : speechRequest :=
  MkSpeechRequest (T_Model o) text (TTS_Voice cfg) "pcm" (speed_of cfg).

(** How a body ends: complete; broken off, which net/http reports as
    [io.ErrUnexpectedEOF]; or in any other error. *)
Inductive body_end := BodyEOF | BodyCut | BodyErr (err : string).

(** The body of a success, or the error of [postJSON] ([post_error]). *)
Definition postJSON (ctx : bool) (r : response) (fin : body_end) : list Z * body_end + string :=
  match post_error (V := openai.vendor) ctx r with
  | Some err => inr err
  | None => inl (match r with Response _ body => body | NoResponse _ => [] end, fin)
  end.

(** [io.ReadFull] into a buffer of [n] bytes; [None]: no error. *)
Definition ReadFull (n : Z) (body : list Z) (fin : body_end) : list Z * option body_end :=
  if n <=? zlen body then (take (Z.to_nat n) body, None)
  else (body, Some (match fin with BodyEOF => if bool_decide (body = []) then BodyEOF else BodyCut | e => e end)).

Inductive sphase := SCollect | SPost | SBody | SClosed.

#[export] Instance sphase_eq_dec : EqDecision sphase.
Proof. solve_decision. Defined.

(** [body] is what is left of the body and [taken] what was read of it; [whole]
    is the body that was answered and its end. *)
Record speech := MkSpeech {
  text : string;
  ended : bool;
  s_ctx : bool;
  sp : sphase;
  body : list Z;
  carry : list Z;
  rd : reading;
  posted : option speechRequest;
  taken : list Z;
  whole : option (list Z * body_end)
}.

Definition set_text t s := MkSpeech t (ended s) (s_ctx s) (sp s) (body s) (carry s) (rd s) (posted s) (taken s) (whole s).
Definition set_ctx s := MkSpeech (text s) (ended s) true (sp s) (body s) (carry s) (rd s) (posted s) (taken s) (whole s).
Definition set_rd r s := MkSpeech (text s) (ended s) (s_ctx s) (sp s) (body s) (carry s) r (posted s) (taken s) (whole s).
Definition set_posted q s := MkSpeech (text s) true (s_ctx s) SPost (body s) (carry s) (rd s) (Some q) (taken s) (whole s).
Definition set_body b f s := MkSpeech (text s) (ended s) (s_ctx s) SBody b (carry s) (rd s) (posted s) (taken s) (Some (b, f)).
Definition set_taken b c k s := MkSpeech (text s) (ended s) (s_ctx s) (sp s) b c (rd s) (posted s) k (whole s).
Definition fetched o s := MkSpeech (text s) (ended s) (s_ctx s) SClosed (body s) (carry s) (settle o (rd s)) (posted s) (taken s) (whole s).

Definition fin (s : speech) : body_end := match whole s with Some (_, f) => f | None => BodyEOF end.

Section speech_stream.
Context (opts : TTSOptions) (cfg : TTSConfig).

Definition WriteText (t : string) (s : speech) : speech * error :=
  if ended s then (s, Some ErrClosedPipe) else (set_text (text s +:+ t) s, None).

(** [EndInput] starts [fetch], whose request carries the text. *)
Definition EndInput (s : speech) : speech :=
  if ended s then s else set_posted (speech_request opts cfg (text s)) s.

Definition fetch_post (r : response) (fin : body_end) (s : speech) : speech :=
  match postJSON (s_ctx s) r fin with
  | inr err => fetched (Some err) s
  | inl (b, f) => set_body b f s
  end.

Definition fetch_end (e : body_end) (s : speech) : speech :=
  match e with
  | BodyEOF | BodyCut => fetched None s
  | BodyErr err => fetched (Some (if s_ctx s then canceled else transientf err)) s
  end.

(** One round of the loop. [cut]: the context ends the read after so many
    bytes; [ok]: the select took the send. *)
Definition fetch_round (cut : option nat) (ok : bool) (s : speech) : option speech :=
  let '(buf, err) := match cut with
                     | Some k => ReadFull (MsToBytes audioChunkMs) (take k (body s)) (BodyErr canceled)
                     | None => ReadFull (MsToBytes audioChunkMs) (body s) (fin s)
                     end in
  let rest := drop (length buf) (body s) in
  let pcm := carry s ++ buf in
  let n := Z.to_nat (AlignDown (zlen pcm)) in
  '(s, ok) ←
    (if 0 <? zlen buf then
       let s := set_taken rest (drop n pcm) (taken s ++ buf) s in
       if 0 <? AlignDown (zlen pcm) then '(r, ok) ← send (s_ctx s) ok (take n pcm) (rd s); Some (set_rd r s, ok)
       else Some (s, true)
     else Some (s, true));
  if negb ok then Some (fetched (Some canceled) s)
  else match err with Some e => Some (fetch_end e s) | None => Some s end.

Inductive speech_act :=
| SWriteText (t : string)
| SEndInput
| SReadAudio (done_ : bool)
| SCancel
| SPosted (r : response) (fin : body_end)
| SRound (cut : option nat) (ok : bool).

Definition speech_step (a : speech_act) (s : speech) : option speech :=
  match a with
  | SWriteText t => Some (WriteText t s).1
  | SEndInput => Some (EndInput s)
  | SReadAudio d => '(r, _) ← ReadAudio (s_ctx s) d (rd s); Some (set_rd r s)
  | SCancel => Some (set_ctx s)
  | SPosted r fin => if bool_decide (sp s = SPost) then Some (fetch_post r fin s) else None
  | SRound cut ok =>
      if bool_decide (sp s = SBody) && (negb (is_some cut) || s_ctx s) then fetch_round cut ok s else None
  end.

Definition speech_start : speech := MkSpeech "" false false SCollect [] [] new_reading None [] None.

Fixpoint speech_run (l : list speech_act) (s : speech) : option speech :=
  match l with
  | [] => Some s
  | a :: l => speech_step a s ≫= speech_run l
  end.

Inductive speech_reach : speech -> Prop :=
| speech_reach_start : speech_reach speech_start
| speech_reach_step s a s' : speech_reach s -> speech_step a s = Some s' -> speech_reach s'.

(** *** The invariant *)

Definition chunk_ok (pcm : list Z) : Prop := 0 < zlen pcm <= MsToBytes audioChunkMs /\ Z.even (zlen pcm) = true.

(** How a stream that nobody cancels ends, by the end of its body. *)
Definition body_outcome (f : body_end) : option string :=
  match f with BodyErr err => Some (transientf err) | _ => None end.

Record sinv (s : speech) : Prop := {
  si_rd : settled (rd s);
  si_closed : closed (rd s) = bool_decide (sp s = SClosed);
  si_posted : posted s = if ended s then Some (speech_request opts cfg (text s)) else None;
  si_collect : sp s = SCollect <-> ended s = false;
  si_whole : match whole s with
             | Some (b, _) => taken s ++ body s = b /\ (sp s = SBody \/ sp s = SClosed)
             | None => taken s = [] /\ carry s = [] /\ sp s <> SBody /\ outcome (rd s) <> Some None
             end;
  si_pcm : exists lost, concat (sent (rd s)) ++ lost ++ carry s = taken s /\
             (lost <> [] -> outcome (rd s) = Some (Some canceled));
  si_carry : zlen (carry s) <= 1;
  si_even : Forall chunk_ok (sent (rd s));
  si_end : outcome (rd s) = Some None -> body s = [];
  si_out : forall b f o, whole s = Some (b, f) -> outcome (rd s) = Some o -> s_ctx s = false -> o = body_outcome f
}.

Lemma sinv_start : sinv speech_start.
Proof. split; try done. by exists []. Qed.

Lemma sinv_read d r' res s : ReadAudio (s_ctx s) d (rd s) = Some (r', res) -> sinv s -> sinv (set_rd r' s).
Proof.
  intros H [Hs Hc Hp Hco Hw Hpcm Hca Hev He Ho]. destruct (settled_read _ _ _ _ _ H Hs) as (Hs' & E1 & E2 & E3).
  split; simpl; rewrite ?E1, ?E2, ?E3; done.
Qed.

Lemma AlignDown_le_odd n m : 0 <= n <= m + 1 -> Z.even m = true -> AlignDown n <= m.
Proof.
  intros Hn Hm. destruct (AlignDown_spec n) as [Hb He]; [lia|]. apply Z.even_spec in He as [x Hx], Hm as [y Hy]. lia.
Qed.

Lemma ReadFull_spec n b f : 0 < n ->
  let '(buf, err) := ReadFull n b f in
  buf = take (length buf) b /\ zlen buf <= n /\
  match err with
  | None => zlen buf = n
  | Some e => buf = b /\ body_outcome e = body_outcome f /\ (forall x, f = BodyErr x -> e = f)
  end.
Proof.
  intros Hn. unfold ReadFull. destruct (n <=? zlen b) eqn:Hc; bool_arith; simpl.
  - rewrite length_take, zlen_take by lia. split; [|lia]. f_equal. unfold zlen in Hc. lia.
  - rewrite take_ge by lia. split; [done|]. split; [lia|]. split; [done|]. destruct f; [by case_bool_decide|done..].
Qed.

(** The end of [fetch], whatever was lost. *)
Lemma sinv_fetched o s : sinv s -> outcome (rd s) = None -> sp s <> SCollect ->
  (o = None -> body s = [] /\ sp s = SBody) -> (s_ctx s = false -> sp s = SBody -> o = body_outcome (fin s)) ->
  (sp s = SPost \/ sp s = SBody) -> sinv (fetched o s).
Proof.
  intros [Hs Hc Hp Hco Hw Hpcm Hca Hev He Ho] Hn Hx Hb Hout Hph.
  assert (Hcl : closed (rd s) = false) by (rewrite Hc, bool_decide_eq_false_2; [done|]; by destruct Hph as [->| ->]).
  split; simpl; try done.
  - by apply settled_settle.
  - split; [done|]. intros He'. by apply Hco in He'.
  - destruct (whole s) as [[b f]|]; [split; [apply Hw|by right]|]. destruct Hw as (?&?&Hnb&?). repeat split; try done.
    intros [= ->]. by destruct (Hb eq_refl).
  - destruct Hpcm as (l & Hl & Hlo). exists l. split; [done|]. intros Hne. rewrite Hlo in Hn by done. done.
  - intros [= ->]. by apply Hb.
  - intros b f o' Hw' [= ->] Hctx. rewrite Hw' in Hw. rewrite Hout; [unfold fin; by rewrite Hw'|done|].
    destruct Hw as [_ [?|Hsc]]; [done|]. destruct Hph; congruence.
Qed.
Lemma sinv_open s : sinv s -> sp s = SBody -> closed (rd s) = false /\ outcome (rd s) = None /\ settled (rd s).
Proof.
  intros [Hs Hc _ _ _ _ _ _ _ _] Hsp. rewrite Hsp in Hc. simpl in Hc. split; [done|]. split; [|done].
  destruct Hs as [_ He]. rewrite Hc in He. apply He.
Qed.

(** A read of [buf]; the even part of it goes out, or is lost. *)
Definition after_read (buf : list Z) (s : speech) : speech :=
  let pcm := carry s ++ buf in
  set_taken (drop (length buf) (body s)) (drop (Z.to_nat (AlignDown (zlen pcm))) pcm) (taken s ++ buf) s.

Definition even_part (buf : list Z) (s : speech) : list Z :=
  let pcm := carry s ++ buf in take (Z.to_nat (AlignDown (zlen pcm))) pcm.

Lemma even_part_spec buf s : zlen (carry s) <= 1 -> zlen buf <= MsToBytes audioChunkMs ->
  even_part buf s ++ carry (after_read buf s) = carry s ++ buf /\ zlen (carry (after_read buf s)) <= 1 /\
  (even_part buf s = [] <-> AlignDown (zlen (carry s ++ buf)) <= 0) /\ (even_part buf s <> [] -> chunk_ok (even_part buf s)).
Proof.
  intros Hc Hb. unfold even_part, after_read. simpl. set (pcm := carry s ++ buf).
  pose proof (zlen_nonneg pcm) as Hn. destruct (AlignDown_spec _ Hn) as [Ha He].
  assert (0 <= AlignDown (zlen pcm)) by (apply Z.even_spec in He as [x Hx]; lia).
  assert (Hl : zlen (take (Z.to_nat (AlignDown (zlen pcm))) pcm) = AlignDown (zlen pcm)) by (rewrite zlen_take by lia; lia).
  split; [apply take_drop|]. split; [rewrite zlen_drop by lia; lia|]. split.
  - split; [intros Hz; rewrite Hz, zlen_nil in Hl; lia|intros; apply zlen_0_nil; lia].
  - intros Hne. unfold chunk_ok. rewrite Hl. split; [|done]. split.
    + destruct (Z.eq_dec (AlignDown (zlen pcm)) 0) as [Hz|]; [|lia]. rewrite Hz in *. by destruct Hne.
    + apply AlignDown_le_odd; [|done]. subst pcm. pose proof (zlen_nonneg (carry s)). rewrite zlen_app in *. lia.
Qed.

Lemma sinv_sent buf s r' : sinv s -> sp s = SBody -> buf = take (length buf) (body s) -> zlen buf <= MsToBytes audioChunkMs ->
  settled r' -> closed r' = false -> outcome r' = None ->
  sent r' = sent (rd s) ++ (if bool_decide (even_part buf s = []) then [] else [even_part buf s]) ->
  sinv (set_rd r' (after_read buf s)).
Proof.
  intros Hi Hsp Hbuf Hlen Hs' Hc' Ho' Hsent. pose proof (sinv_open _ Hi Hsp) as (_ & Hn & _).
  destruct Hi as [Hs Hc Hp Hco Hw (lost & Hpcm & Hlost) Hca Hev He Ho].
  destruct (even_part_spec buf s Hca Hlen) as (Hsplit & Hc1 & _ & Hok).
  assert (lost = []) as -> by (destruct lost; [done|]; rewrite Hlost in Hn by done; done). simpl in Hpcm.
  split; simpl; try done; rewrite ?Ho'; try done.
  - by rewrite Hc', Hsp.
  - rewrite Hsp. rewrite Hsp in Hw. destruct (whole s) as [[b f]|]; [|naive_solver]. destruct Hw as [Hw _].
    split; [|by left]. rewrite <- app_assoc, Hbuf at 1. by rewrite take_drop.
  - exists []. split; [|done]. rewrite Hsent, concat_app, <- Hpcm, <- !app_assoc. f_equal. cbn [app].
    transitivity (even_part buf s ++ carry (after_read buf s)); [|exact Hsplit]. simpl. f_equal.
    case_bool_decide as Hz; [by rewrite Hz|]. simpl. by rewrite app_nil_r.
  - rewrite Hsent. apply Forall_app. split; [done|]. case_bool_decide; [constructor|]. constructor; [by apply Hok|constructor].
Qed.

Lemma sinv_lost buf s r' : sinv s -> sp s = SBody -> buf = take (length buf) (body s) -> zlen buf <= MsToBytes audioChunkMs ->
  settled r' -> closed r' = false -> sent r' = sent (rd s) -> s_ctx s = true ->
  sinv (fetched (Some canceled) (set_rd r' (after_read buf s))).
Proof.
  intros Hi Hsp Hbuf Hlen Hs' Hc' Hsent Hctx. pose proof (sinv_open _ Hi Hsp) as (_ & Hn & _).
  destruct Hi as [Hs Hc Hp Hco Hw (lost & Hpcm & Hlost) Hca Hev He Ho].
  destruct (even_part_spec buf s Hca Hlen) as (Hsplit & Hc1 & _ & _).
  assert (lost = []) as -> by (destruct lost; [done|]; rewrite Hlost in Hn by done; done). simpl in Hpcm.
  split; simpl; try done.
  - by apply settled_settle.
  - rewrite Hsp in Hco. split; [done|]. intros He'. by apply Hco in He'.
  - rewrite Hsp in Hw. destruct (whole s) as [[b f]|]; [|naive_solver]. destruct Hw as [Hw _].
    split; [|by right]. rewrite <- app_assoc, Hbuf at 1. by rewrite take_drop.
  - exists (even_part buf s). split; [|done]. rewrite Hsent, <- Hpcm, <- app_assoc. f_equal. apply Hsplit.
  - by rewrite Hsent.
  - intros b f o _ _. by rewrite Hctx.
Qed.
(** One round: what was read is taken, and its even part is sent, or lost to
    the cancellation. *)
Lemma fetch_round_inv cut ok s s' : fetch_round cut ok s = Some s' -> sinv s -> sp s = SBody ->
  (cut <> None -> s_ctx s = true) -> sinv s'.
Proof.
  unfold fetch_round. intros H Hi Hsp Hcut. pose proof (sinv_open _ Hi Hsp) as (Hcl & Hn & Hse).
  set (src := match cut with Some k => _ | None => _ end) in H.
  assert (Hsrc : let '(buf, err) := src in
    buf = take (length buf) (body s) /\ zlen buf <= MsToBytes audioChunkMs /\
    match err with
    | Some e => (s_ctx s = false -> body_outcome e = body_outcome (fin s)) /\
                (e = BodyEOF \/ e = BodyCut -> buf = body s)
    | None => True
    end).
  { subst src. destruct cut as [k|].
    - pose proof (ReadFull_spec (MsToBytes audioChunkMs) (take k (body s)) (BodyErr canceled) eq_refl) as Hr.
      destruct (ReadFull _ _ _) as [buf err]. destruct Hr as (Hb & Hl & He). split; [|split; [done|]].
      + pose proof (f_equal length Hb) as Hlb. rewrite !length_take in Hlb. rewrite Hb at 1. rewrite take_take. f_equal. lia.
      + destruct err as [e|]; [|done]. rewrite Hcut by done. split; [done|].
        destruct He as (_ & _ & He). rewrite (He canceled eq_refl). by intros [|].
    - pose proof (ReadFull_spec (MsToBytes audioChunkMs) (body s) (fin s) eq_refl) as Hr.
      destruct (ReadFull _ _ _) as [buf err]. destruct Hr as (Hb & Hl & He). split; [done|]. split; [done|].
      destruct err as [e|]; [|done]. by destruct He as (? & ? & _). }
  clearbody src. destruct src as [buf err]. destruct Hsrc as (Hbuf & Hlen & Herr).
  destruct (even_part_spec buf s (si_carry _ Hi) Hlen) as (Hsplit & Hc1 & Hnil & _).
  assert (Hend : forall s1, sinv s1 -> sp s1 = SBody -> s_ctx s1 = s_ctx s -> whole s1 = whole s ->
    body s1 = drop (length buf) (body s) -> match err with Some e => Some (fetch_end e s1) | None => Some s1 end = Some s' -> sinv s').
  { intros s1 Hi1 Hsp1 Hx Hw Hb. pose proof (sinv_open _ Hi1 Hsp1) as (_ & Hn1 & _).
    destruct err as [e|]; [|by intros [= <-]]. destruct Herr as [Hout Hall].
    assert (Hf : fin s1 = fin s) by (unfold fin; by rewrite Hw).
    assert (Hgo : forall o, (o = None -> body s1 = []) -> (s_ctx s = false -> o = body_outcome (fin s)) -> sinv (fetched o s1)).
    { intros o Hz Ho1. apply sinv_fetched; rewrite ?Hsp1, ?Hx, ?Hf; auto; done. }
    destruct e; simpl; intros [= <-]; apply Hgo; try done; rewrite ?Hx.
    all: try (intros _; rewrite Hb, Hall by auto; apply drop_all).
    all: intros Hctx; rewrite ?Hctx; by apply Hout. }
  destruct (0 <? zlen buf) eqn:Hpos; simpl in H.
  2: { bool_arith. assert (buf = []) as -> by (apply zlen_0_nil; pose proof (zlen_nonneg buf); lia). by apply (Hend s). }
  destruct (0 <? AlignDown (zlen (carry s ++ buf))) eqn:Ha; bool_arith; simpl in H.
  - apply bind_Some_inv in H as ([s1 ok1] & H1 & H). apply bind_Some_inv in H1 as ([r' ok'] & Hsend & H1). injection H1 as <- <-.
    destruct (settled_send _ _ _ _ _ _ Hsend Hse Hcl) as (Hs' & Hc' & Ho' & Hs & Hx). rewrite Hn in Ho'. fold (even_part buf s) in Hs.
    fold (after_read buf s) in H. destruct ok'; simpl in H.
    + apply (Hend (set_rd r' (after_read buf s))); try done. apply sinv_sent; try done.
      rewrite bool_decide_eq_false_2; [done|]. rewrite Hnil. lia.
    + injection H as <-. apply sinv_lost; try done; [by rewrite app_nil_r in Hs|by apply Hx].
  - apply (Hend (set_rd (rd s) (after_read buf s))); try done. apply sinv_sent; try done.
    rewrite bool_decide_eq_true_2, app_nil_r; [done|]. rewrite Hnil. lia.
Qed.

Lemma speech_inv_step a s s' : speech_step a s = Some s' -> sinv s -> sinv s'.
Proof.
  destruct a as [t| |d| |r f0|cut ok]; simpl; intros H Hi.
  - injection H as <-. unfold WriteText. destruct (ended s) eqn:He; [done|].
    destruct Hi as [Hs Hc Hp Hco Hw Hpcm Hca Hev Hen Ho]. rewrite He in Hp, Hco. split; simpl; by rewrite ?He.
  - injection H as <-. unfold EndInput. destruct (ended s) eqn:He; [done|].
    destruct Hi as [Hs Hc Hp Hco Hw Hpcm Hca Hev Hen Ho]. assert (Hsp : sp s = SCollect) by (by apply Hco).
    rewrite Hsp in Hc, Hw. split; simpl; try done. destruct (whole s) as [[b f]|]; [by destruct Hw as [_ [|]]|].
    by destruct Hw as (? & ? & ? & ?).
  - apply bind_Some_inv in H as ([r' res] & H & [= <-]). by eapply sinv_read.
  - injection H as <-. destruct Hi. by split.
  - case_bool_decide as Hsp; [|done]. injection H as <-. unfold fetch_post.
    pose proof Hi as [Hs Hc Hp Hco Hw Hpcm Hca Hev Hen Ho]. rewrite Hsp in Hc.
    assert (Hn : outcome (rd s) = None) by (destruct Hs as [_ Hse]; rewrite Hc in Hse; apply Hse).
    rewrite Hsp in Hw. destruct (whole s) as [[b f]|] eqn:Hwh; [by destruct Hw as [_ [|]]|].
    destruct Hw as (Ht & Hca' & _ & _). destruct (postJSON _ _ _) as [[b f]|err].
    + split; simpl; try done.
      * rewrite Hsp in Hco. split; [done|]. intros He. by apply Hco in He.
      * rewrite Ht. split; [done|by left].
      * by rewrite Hn.
      * by rewrite Hn.
    + apply sinv_fetched; try done; [by rewrite Hsp|by rewrite Hsp|by left].
  - case_bool_decide as Hsp; [|done]. simpl in H. destruct (negb (is_some cut) || s_ctx s)%bool eqn:Hg; [|done].
    eapply fetch_round_inv; [done..|]. intros Hc. destruct cut; [|done]. done.
Qed.

Lemma speech_inv_reach s : speech_reach s -> sinv s.
Proof. induction 1; [apply sinv_start|by eapply speech_inv_step]. Qed.
(** C32. The pipeline hears the samples of the answered body, and nothing else.
    At every moment of a stream over POST /audio/speech, the chunks sent are
    those read and those waiting, in order; each is a whole number of samples, at
    most 100 ms and not empty; together they are a prefix of the body. A stream
    that ends cleanly has sent every whole sample of the body, and one that
    nobody cancels ends as its body does. The end is reported only after every
    chunk, and again by every later call. The one request carries all the text
    that was written. *)
Theorem speech_audio_exact s : speech_reach s ->
  sent (rd s) = got (rd s) ++ chunks (rd s) /\ Forall chunk_ok (sent (rd s)) /\
  concat (sent (rd s)) `prefix_of` from_option fst [] (whole s) /\
  (outcome (rd s) = Some None -> exists b f, whole s = Some (b, f) /\
     concat (sent (rd s)) = take (Z.to_nat (AlignDown (zlen b))) b) /\
  (forall b f o, whole s = Some (b, f) -> outcome (rd s) = Some o -> s_ctx s = false -> o = body_outcome f) /\
  (done (rd s) = true -> got (rd s) = sent (rd s) /\ outcome (rd s) = Some (final (rd s)) /\
     forall ctx d, ReadAudio ctx d (rd s) = Some (rd s, end_result (final (rd s)))) /\
  posted s = (if ended s then Some (speech_request opts cfg (text s)) else None).
Proof.
  intros Hr. destruct (speech_inv_reach _ Hr) as [Hs Hc Hp Hco Hw (lost & Hpcm & Hlost) Hca Hev He Ho].
  destruct Hs as [Hq Hse]. split; [done|]. split; [done|]. split; [|split; [|split; [done|split; [|done]]]].
  - destruct (whole s) as [[b f]|]; simpl.
    + destruct Hw as [<- _]. rewrite <- Hpcm, <- app_assoc. by apply prefix_app_r.
    + destruct Hw as (Ht & _). rewrite Ht in Hpcm. apply app_nil in Hpcm as [-> _]. done.
  - intros Hn. destruct (whole s) as [[b f]|]; [|by destruct Hw as (_&_&_&?)]. exists b, f. split; [done|].
    assert (lost = []) as -> by (destruct lost; [done|]; rewrite Hlost in Hn by done; done).
    destruct Hw as [<- _]. rewrite (He Hn), app_nil_r, <- Hpcm. simpl.
    assert (Heven : Z.even (zlen (concat (sent (rd s)))) = true).
    { clear -Hev. induction Hev as [|c l [_ Hc] _ IH]; [done|]. simpl. by rewrite zlen_app, Z.even_add, Hc, IH. }
    assert (Hal : AlignDown (zlen (concat (sent (rd s)) ++ carry s)) = zlen (concat (sent (rd s)))).
    { rewrite zlen_app. set (n := zlen (concat _)) in *. pose proof (zlen_nonneg (carry s)).
      assert (0 <= n) by apply zlen_nonneg. destruct (AlignDown_spec (n + zlen (carry s))) as [Hb1 Hb2]; [lia|].
      apply Z.even_spec in Heven as [x ->], Hb2 as [y Hy]. lia. }
    rewrite Hal. unfold zlen. by rewrite Nat2Z.id, take_app_length.
  - intros Hd. rewrite Hd in Hse. destruct (closed (rd s)); [|by destruct Hse]. destruct Hse as (o & Hou & <- & Hch).
    split; [by rewrite Hq, Hch, app_nil_r|]. split; [done|]. intros ctx d. unfold ReadAudio. by rewrite Hd.
Qed.

Lemma speech_run_reach l : forall s s', speech_reach s -> speech_run l s = Some s' -> speech_reach s'.
Proof.
  induction l as [|a l IH]; intros s s' Hs; simpl; [by intros [= <-]|].
  intros (s1 & H1 & Hl)%bind_Some_inv. apply (IH s1); [|done]. by eapply speech_reach_step.
Qed.
End speech_stream.

(** *** Concrete streams *)

Definition demo_cfg : TTSConfig := MkTTSConfig "alloy" 1%Q 24000.
Definition demo_speech_opts : TTSOptions := NewTTS (MkTTSOptions (MkHttpOptions "" 0 0) "tts-1").

(** An odd body in two rounds. *)
Definition demo_body : list Z := repeat 7 (Z.to_nat 4803).

Definition demo_speech (fin : body_end) : list speech_act :=
  [SWriteText "Hello."; SEndInput; SPosted (Response 200 demo_body) fin; SRound None true; SReadAudio false;
   SRound None true; SReadAudio false; SReadAudio false].

Definition demo_speech_state (fin : body_end) : option speech :=
  speech_run demo_speech_opts demo_cfg (demo_speech fin) speech_start.

Lemma demo_speech_reach fin s : demo_speech_state fin = Some s -> speech_reach demo_speech_opts demo_cfg s.
Proof. unfold demo_speech_state. apply speech_run_reach. constructor. Qed.

Lemma demo_speech_runs : exists s, demo_speech_state BodyEOF = Some s /\ done (rd s) = true /\
  map zlen (got (rd s)) = [4800; 2] /\ final (rd s) = None.
Proof. eexists. split; [vm_compute; reflexivity|]. split; [|split]; vm_compute; reflexivity. Qed.

Lemma speech_audio_exact_witness : exists s, demo_speech_state BodyEOF = Some s /\
  map zlen (got (rd s)) = [4800; 2] /\ got (rd s) = sent (rd s) /\ outcome (rd s) = Some None.
Proof.
  destruct demo_speech_runs as (s & Hs & Hdone & Hz & Hf). exists s. split; [exact Hs|]. split; [exact Hz|].
  destruct (speech_audio_exact demo_speech_opts demo_cfg s (demo_speech_reach _ _ Hs)) as (_ & _ & _ & _ & _ & Hd & _).
  destruct (Hd Hdone) as (Hg & Ho & _). rewrite Hf in Ho. split; [exact Hg|exact Ho].
Defined.

(** A speech body that the network breaks off is taken for a complete one:
    the answer is cut short and the pipeline is told io.EOF, not a transient
    error, because the loop treats io.ErrUnexpectedEOF (also what net/http
    reports for a body shorter than announced) as the short last read of a
    complete body. *)
Theorem truncated_speech_is_complete : exists s, demo_speech_state BodyCut = Some s /\ s_ctx s = false /\
  whole s = Some (demo_body, BodyCut) /\ ReadAudio (s_ctx s) false (rd s) = Some (rd s, EOF).
Proof. eexists. split; [vm_compute; reflexivity|]. split; [reflexivity|]. split; reflexivity. Qed.
