(* ===== verification/RealtimeTts.v ===== *)
(** * OpenAI synthesis over the Realtime socket ([internal/provider/openai/realtime_tts.go])

    [rt] is one stream: the queue of text segments, the socket its only goroutine
    ([run]) owns, and the audio queue of [OpenaiTts.reading]. The goroutine dials
    and configures the session ([connect]), then speaks the segments one after the
    other ([speak]), each through a fresh silence gate.

    A label of [rt_step] is one call of the pipeline or one operation of the
    goroutine with what the network answered. [sock] is what was written to the
    socket; [segs] has, per segment spoken to its end, the audio deltas it got,
    and [cur] those of the segment being spoken; [updated]: the session was configured.

    Shown: the service is told every segment once, in order, one response at a
    time, in a session configured to read aloud; the pipeline hears what the gate
    keeps of every segment; and an odd byte at the end of a segment shifts the
    samples of the next. *)

From S2P Require Export OpenaiTts Gate.
From S2P Require Import Decode.
From Stdlib Require Import QArith.
#[local] Open Scope string_scope.
#[local] Open Scope list_scope.
#[local] Open Scope Z_scope.

Definition realtimeTextQueue : Z := 32.
Definition defaultRealtimeVoice := "marin".
Definition realtimeReadAloud :=
  "You are a text-to-speech engine. Read the text in the instructions aloud exactly as written, " +:+
  "verbatim, in the same language. Do not answer, translate, comment on, or add anything.".
Definition newline : string := String (Ascii.ascii_of_nat 10) EmptyString.
Definition realtimeSayPrefix := "Say exactly the following, verbatim, and nothing else:" +:+ newline.

(** ** The URL *)

Definition HasPrefix (s p : string) : bool := bool_decide (take (String.length p) (bytes_of s) = bytes_of p).
Definition TrimPrefix (s p : string) : string := string_of (drop (String.length p) (bytes_of s)).

(** [url.QueryEscape] *)
Definition hex_digit (v : Z) : Z := if v <? 10 then 48 + v else 55 + v.
Definition unreserved (c : Z) : bool :=
  ((48 <=? c) && (c <=? 57)) || ((65 <=? c) && (c <=? 90)) || ((97 <=? c) && (c <=? 122)) ||
  (c =? 45) || (c =? 95) || (c =? 46) || (c =? 126).
Definition QueryEscape (s : string) : string :=
  string_of (concat (map (fun c => if c =? 32 then [43] else if unreserved c then [c]
                            else [37; hex_digit (Z.shiftr c 4); hex_digit (Z.land c 15)]) (bytes_of s))).

Definition realtimeURL (baseURL model : string) : string :=
  (if HasPrefix baseURL "https://" then "wss://" +:+ TrimPrefix baseURL "https://"
   else if HasPrefix baseURL "http://" then "ws://" +:+ TrimPrefix baseURL "http://"
   else baseURL) +:+ "/realtime?model=" +:+ QueryEscape model.

Example realtimeURL_examples :
  (realtimeURL "https://api.openai.com/v1" "gpt realtime/2", realtimeURL "ws://host" "m") =
  ("wss://api.openai.com/v1/realtime?model=gpt+realtime%2F2", "ws://host/realtime?model=m").
Proof. reflexivity. Qed.

(** ** The wire *)

Record rtSession := MkRtSession {
  RS_Type : string; OutputModalities : list string; Instructions : string; Effort : string;
  FormatType : string; Rate : Z; RS_Voice : string; RS_Speed : float64
}.

Record rtResponse := MkRtResponse {
  RR_Conversation : string; RR_Input : list unit; RR_Modalities : list string; RR_Instructions : string
}.

(** [rtSessionUpdate] and [rtResponseCreate]. *)
Inductive rt_out := SessionUpdate (session : rtSession) | ResponseCreate (response : rtResponse).

Record rtError := MkRtError { RE_Type : string; RE_Code : string; RE_Message : string }.

(** [Response.Status] and the reason and error of its details. *)
Record rtEvent := MkRtEvent {
  EV_Type : string; EV_Delta : string; EV_Error : option rtError;
  EV_Status : string; EV_Reason : string; EV_DetailsError : option rtError
}.

(** [strings.Contains] of ASCII text. *)
Definition contains (s sub : string) : bool := Contains (bytes_of s) (bytes_of sub).

Definition rtProviderError (e : option rtError) : Error :=
  match e with
  | None => MkError OpenaiTts.Name ErrTransient "realtime error without details"
  | Some e =>
      let kind :=
        if String.eqb (RE_Code e) "invalid_api_key" || String.eqb (RE_Type e) "authentication_error" then ErrAuth
        else if contains (RE_Code e) "rate_limit" || contains (RE_Code e) "quota" || contains (RE_Type e) "rate_limit"
        then ErrRateLimit
        else if String.eqb (RE_Type e) "server_error" then ErrTransient
        else ErrFatal in
      MkError OpenaiTts.Name kind ("realtime " +:+ RE_Type e +:+ "/" +:+ RE_Code e +:+ ": " +:+ RE_Message e)
  end.

Definition rtDoneError (ev : rtEvent) : option string :=
  if String.eqb (EV_Status ev) "" || String.eqb (EV_Status ev) "completed" then None
  else if String.eqb (EV_Status ev) "failed" then Some (Error_Error (rtProviderError (EV_DetailsError ev)))
  else if String.eqb (EV_Status ev) "incomplete" then Some (fatalf ("realtime response incomplete: " +:+ EV_Reason ev))
  else Some (transientf ("realtime response " +:+ EV_Status ev)).

(** An error of the socket, or one that is a [provider.Error] already. *)
Inductive sock_error := Raw (err : string) | Classified (err : string).

Definition wsError (ctx : bool) (e : sock_error) : string :=
  if ctx then canceled else match e with Classified err => err | Raw err => transientf err end.

(** [readEvent]: an event, text that is no event, or an error of the socket;
    [RtTimeout]: no event came in time. *)
Inductive rt_read := RtEvent (ev : rtEvent) | RtMalformed (err : string) | RtFailed (err : string) | RtTimeout.

Definition read_error (r : rt_read) : option sock_error :=
  match r with
  | RtEvent _ => None
  | RtMalformed err => Some (Classified (fatalf ("malformed realtime event: " +:+ err)))
  | RtFailed err => Some (Raw err)
  | RtTimeout => Some (Raw "context deadline exceeded")
  end.

(** ** State *)

Inductive rphase := RDial | RSetup | RNext | RSpeak (g : silenceGate) | RClosed.

Record rt := MkRt {
  text_q : list string;
  rt_ended : bool;
  rt_ctx : bool;
  rp : rphase;
  rt_carry : list Z;
  rt_rd : reading;
  sock : list rt_out;
  written : list string;
  segs : list (list (list Z));
  cur : list (list Z);
  updated : bool
}.

Definition set_queue q w s := MkRt q (rt_ended s) (rt_ctx s) (rp s) (rt_carry s) (rt_rd s) (sock s) w (segs s) (cur s) (updated s).
Definition set_rt_ended s := MkRt (text_q s) true (rt_ctx s) (rp s) (rt_carry s) (rt_rd s) (sock s) (written s) (segs s) (cur s) (updated s).
Definition set_rt_ctx s := MkRt (text_q s) (rt_ended s) true (rp s) (rt_carry s) (rt_rd s) (sock s) (written s) (segs s) (cur s) (updated s).
Definition set_rp p s := MkRt (text_q s) (rt_ended s) (rt_ctx s) p (rt_carry s) (rt_rd s) (sock s) (written s) (segs s) (cur s) (updated s).
Definition set_rt_rd r s := MkRt (text_q s) (rt_ended s) (rt_ctx s) (rp s) (rt_carry s) r (sock s) (written s) (segs s) (cur s) (updated s).
Definition set_sock l s := MkRt (text_q s) (rt_ended s) (rt_ctx s) (rp s) (rt_carry s) (rt_rd s) l (written s) (segs s) (cur s) (updated s).
Definition set_audio c sg l s := MkRt (text_q s) (rt_ended s) (rt_ctx s) (rp s) c (rt_rd s) (sock s) (written s) sg l (updated s).

Definition set_updated s := MkRt (text_q s) (rt_ended s) (rt_ctx s) RNext (rt_carry s) (rt_rd s) (sock s) (written s) (segs s) (cur s) true.

Section stream.
Context (opts : TTSOptions) (cfg : TTSConfig).
(** The text of a base64 error. *)
Context (b64_error : string -> string).

(** ** The pipeline's calls *)

(** [ok]: the select took the send. [None]: the call waits. *)
Definition WriteText (t : string) (ok : bool) (s : rt) : option (rt * error) :=
  if rt_ended s then Some (s, Some ErrClosedPipe)
  else if rt_ctx s then Some (s, Some canceled)
  else if ok && (zlen (text_q s) <? realtimeTextQueue)
       then Some (set_queue (text_q s ++ [t]) (written s ++ [t]) s, None) else None.

Definition EndInput (s : rt) : rt := if rt_ended s then s else set_rt_ended s.

(** ** The goroutine *)

(** The stream ends with [o]; a cancelled one with the context's error. *)
Definition finish_run (o : option string) (s : rt) : rt := set_rp RClosed (set_rt_rd (settle o (rt_rd s)) s).
Definition fail (err : string) (s : rt) : rt := finish_run (Some (if rt_ctx s then canceled else err)) s.

Definition session_update : rtSession :=
  {| RS_Type := "realtime"; OutputModalities := ["audio"]; Instructions := realtimeReadAloud; Effort := "none";
     FormatType := "audio/pcm"; Rate := SampleRate;
     RS_Voice := firstNonEmpty (TTS_Voice cfg) defaultRealtimeVoice; RS_Speed := speed_of cfg |}.

Inductive dialed := DialOk | DialStatus (status : Z) (err : string) | DialErr (err : string).

(** [connect] up to its loop; [w]: the write of the update failed. *)
Definition dial (d : dialed) (w : option string) (s : rt) : rt :=
  match d with
  | DialStatus status err => fail (Error_Error (ErrorFromStatus OpenaiTts.Name status err)) s
  | DialErr err => fail (if rt_ctx s then canceled else transientf err) s
  | DialOk =>
      match w with
      | Some err => fail (wsError (rt_ctx s) (Raw err)) s
      | None => set_rp RSetup (set_sock (sock s ++ [SessionUpdate session_update]) s)
      end
  end.

(** The loop of [connect]. *)
Definition setup (r : rt_read) (s : rt) : rt :=
  match r with
  | RtEvent ev =>
      if String.eqb (EV_Type ev) "session.updated" then set_updated s
      else if String.eqb (EV_Type ev) "error" then fail (Error_Error (rtProviderError (EV_Error ev))) s
      else s
  | _ => match read_error r with Some e => fail (wsError (rt_ctx s) e) s | None => s end
  end.

Definition is_blank (t : string) : bool := String.eqb (TrimSpace t) "".

Definition say (t : string) : rt_out :=
  ResponseCreate (MkRtResponse "none" [] ["audio"] (realtimeSayPrefix +:+ t)).

(** The loop of [run] up to the request of [speak]. [done_]: the select took the
    context; [w]: the write failed. *)
Definition next (done_ : bool) (w : option string) (s : rt) : option rt :=
  if done_ then if rt_ctx s then Some (fail canceled s) else None
  else match text_q s with
       | [] => if rt_ended s then Some (finish_run None s) else None
       | t :: rest =>
           let s := set_queue rest (written s) s in
           if is_blank t then Some s
           else match w with
                | Some err => Some (fail (wsError (rt_ctx s) (Raw err)) s)
                | None => Some (set_rp (RSpeak newGate) (set_sock (sock s ++ [say t]) s))
                end
       end.

(** The closure [emit]. *)
Definition emit (ok : bool) (pcm : list Z) (s : rt) : option (rt * bool) :=
  match pcm with
  | [] => Some (s, true)
  | _ => '(r, b) ← send (rt_ctx s) ok pcm (rt_rd s); Some (set_rt_rd r s, b)
  end.

(** One round of the loop of [speak]. *)
Definition speak (g : silenceGate) (r : rt_read) (ok : bool) (s : rt) : option rt :=
  match r with
  | RtEvent ev =>
      if String.eqb (EV_Type ev) "response.output_audio.delta" then
        match DecodeString (EV_Delta ev) with
        | None => Some (fail (fatalf ("malformed audio delta: " +:+ b64_error (EV_Delta ev))) s)
        | Some raw =>
            let pcm := rt_carry s ++ raw in
            let cut := Z.to_nat (AlignDown (zlen pcm)) in
            let s := set_audio (drop cut pcm) (segs s) (cur s ++ [raw]) s in
            let '(g, out) := push g (take cut pcm) in
            '(s, ok) ← emit ok out s;
            Some (if ok : bool then set_rp (RSpeak g) s else fail canceled s)
        end
      else if String.eqb (EV_Type ev) "error" then Some (fail (Error_Error (rtProviderError (EV_Error ev))) s)
      else if String.eqb (EV_Type ev) "response.done" then
        match rtDoneError ev with
        | Some err => Some (fail err s)
        | None =>
            '(s, ok) ← emit ok (finish g).2 s;
            Some (if ok : bool then set_rp RNext (set_audio (rt_carry s) (segs s ++ [cur s]) [] s) else fail canceled s)
        end
      else Some s
  | RtTimeout => Some (fail (if rt_ctx s then canceled else transientf "stream idle timeout") s)
  | _ => match read_error r with Some e => Some (fail (wsError (rt_ctx s) e) s) | None => None end
  end.

(** ** The whole stream *)

Inductive rt_act :=
| AWriteText (t : string) (ok : bool)
| AEndInput
| AReadAudio (done_ : bool)
| ACancel
| ADial (d : dialed) (w : option string)
| ANext (done_ : bool) (w : option string)
| ARead (r : rt_read) (ok : bool).

Definition rt_step (a : rt_act) (s : rt) : option rt :=
  match a with
  | AWriteText t ok => fst <$> WriteText t ok s
  | AEndInput => Some (EndInput s)
  | AReadAudio d => '(r, _) ← ReadAudio (rt_ctx s) d (rt_rd s); Some (set_rt_rd r s)
  | ACancel => Some (set_rt_ctx s)
  | ADial d w => match rp s with RDial => Some (dial d w s) | _ => None end
  | ANext d w => match rp s with RNext => next d w s | _ => None end
  | ARead r ok =>
      match rp s with
      | RSetup => Some (setup r s)
      | RSpeak g => speak g r ok s
      | _ => None
      end
  end.

Definition rt_start : rt := MkRt [] false false RDial [] new_reading [] [] [] [] false.

Inductive rt_reach : rt -> Prop :=
| rt_reach_start : rt_reach rt_start
| rt_reach_step s a s' : rt_reach s -> rt_step a s = Some s' -> rt_reach s'.

Fixpoint rt_run (l : list rt_act) (s : rt) : option rt :=
  match l with
  | [] => Some s
  | a :: l => rt_step a s ≫= rt_run l
  end.

Lemma rt_run_reach l : forall s s', rt_reach s -> rt_run l s = Some s' -> rt_reach s'.
Proof.
  induction l as [|a l IH]; intros s s' Hs; simpl; [by intros [= <-]|].
  intros (s1 & H1 & Hl)%bind_Some_inv. apply (IH s1); [|done]. by eapply rt_reach_step.
Qed.

(** ** The reference *)

Definition nonblank (l : list string) : list string := List.filter (fun t => negb (is_blank t)) l.

(** The whole samples of a buffer, and what is left. *)
Definition evens (l : list Z) : list Z := take (Z.to_nat (AlignDown (zlen l))) l.
Definition odd_rest (l : list Z) : list Z := drop (Z.to_nat (AlignDown (zlen l))) l.

(** What is heard of the segments spoken, each with the odd byte the one before
    left; and the byte the last leaves. *)
Definition heard (l : list (list (list Z))) : list Z * list Z :=
  foldl (fun acc deltas => let pcm := acc.2 ++ concat deltas in
    (acc.1 ++ concat (gate_ref false [] (frames (evens pcm))), odd_rest pcm)) ([], []) l.

Lemma heard_snoc l deltas : heard (l ++ [deltas]) =
  let pcm := (heard l).2 ++ concat deltas in
  ((heard l).1 ++ concat (gate_ref false [] (frames (evens pcm))), odd_rest pcm).
Proof. unfold heard. by rewrite foldl_app. Qed.

Lemma evens_rest l : evens l ++ odd_rest l = l.
Proof. apply take_drop. Qed.

Lemma evens_even l : Z.even (zlen (evens l)) = true.
Proof.
  pose proof (zlen_nonneg l). destruct (AlignDown_spec (zlen l)) as [? He]; [done|]. unfold evens.
  assert (0 <= AlignDown (zlen l)) by (apply Z.even_spec in He as [x Hx]; lia). by rewrite zlen_take, Z.min_l by lia.
Qed.

Lemma AlignDown_add n m : 0 <= n -> 0 <= m -> Z.even n = true -> AlignDown (n + m) = n + AlignDown m.
Proof.
  intros Hn Hm He. destruct (AlignDown_spec m Hm) as [H1 E1], (AlignDown_spec (n + m)) as [H2 E2]; [lia|].
  apply Z.even_spec in He as [x Hx], E1 as [y Hy], E2 as [z Hz]. lia.
Qed.

Lemma evens_app a b : Z.even (zlen a) = true -> evens (a ++ b) = a ++ evens b /\ odd_rest (a ++ b) = odd_rest b.
Proof.
  intros He. unfold evens, odd_rest. rewrite zlen_app, AlignDown_add by (try apply zlen_nonneg; done).
  pose proof (zlen_nonneg a). pose proof (zlen_nonneg b). destruct (AlignDown_spec (zlen b)) as [? Eb]; [done|].
  assert (0 <= AlignDown (zlen b)) by (apply Z.even_spec in Eb as [x Hx]; lia).
  rewrite Z2Nat.inj_add by done. replace (Z.to_nat (zlen a)) with (length a) by (unfold zlen; lia).
  by rewrite take_app_add, drop_app_add.
Qed.

(** ** The invariant *)

(** Whole frames. *)
Definition frames_chunk (c : list Z) : Prop := 0 < zlen c /\ zlen c mod gateFrame = 0.

(** The segment being spoken, through [g]. *)
Definition speaking (g : silenceGate) (s : rt) : Prop :=
  exists pieces o, concat pieces = evens ((heard (segs s)).2 ++ concat (cur s)) /\
    rt_carry s = odd_rest ((heard (segs s)).2 ++ concat (cur s)) /\
    pushes newGate pieces = (g, o) /\ concat (sent (rt_rd s)) = (heard (segs s)).1 ++ o.

(** [said] are the texts requested so far. *)
Definition requested (said : list string) (s : rt) : Prop :=
  match rp s with
  | RDial => sock s = [] /\ said = [] /\ segs s = []
  | RSetup => sock s = [SessionUpdate session_update] /\ said = [] /\ segs s = []
  | RNext => sock s = SessionUpdate session_update :: map say said /\ length said = length (segs s) /\ updated s = true
  | RSpeak _ => sock s = SessionUpdate session_update :: map say said /\ length said = S (length (segs s)) /\ updated s = true
  | RClosed =>
      (sock s = [] /\ said = [] \/ sock s = SessionUpdate session_update :: map say said) /\
      (length (segs s) <= length said <= S (length (segs s)))%nat /\ (said <> [] -> updated s = true)
  end.

Record rinv (s : rt) : Prop := {
  ri_rd : settled (rt_rd s);
  ri_closed : closed (rt_rd s) = match rp s with RClosed => true | _ => false end;
  ri_text : exists said rest, nonblank (written s) = said ++ rest /\ requested said s /\
    match rp s with
    | RClosed => outcome (rt_rd s) = Some None -> rest = [] /\ rt_ended s = true /\ length said = length (segs s)
    | _ => rest = nonblank (text_q s)
    end;
  ri_audio : match rp s with
    | RSpeak g => speaking g s
    | RClosed => (heard (segs s)).1 `prefix_of` concat (sent (rt_rd s)) /\
        (outcome (rt_rd s) = Some None -> concat (sent (rt_rd s)) = (heard (segs s)).1)
    | _ => cur s = [] /\ concat (sent (rt_rd s)) = (heard (segs s)).1 /\ rt_carry s = (heard (segs s)).2
    end;
  ri_chunks : Forall frames_chunk (sent (rt_rd s))
}.
(** What holds in the middle of an operation, too. *)
Definition live (s : rt) : Prop := match rp s with RClosed => False | _ => True end.

Record weak (s : rt) : Prop := {
  wk_rd : settled (rt_rd s);
  wk_closed : closed (rt_rd s) = false;
  wk_live : live s;
  wk_text : exists said rest, nonblank (written s) = said ++ rest /\ requested said s;
  wk_audio : (heard (segs s)).1 `prefix_of` concat (sent (rt_rd s));
  wk_chunks : Forall frames_chunk (sent (rt_rd s))
}.

Lemma rinv_weak s : rinv s -> live s -> weak s.
Proof.
  intros [Hs Hc (said & rest & Hw & Hq & _) Ha Hf] Hl. unfold live in Hl. split; try done.
  - by destruct (rp s).
  - by exists said, rest.
  - destruct (rp s); try (by destruct Ha as (_ & -> & _)); [|done].
    destruct Ha as (pieces & o & _ & _ & _ & ->). by apply prefix_app_r.
Qed.

Lemma weak_outcome s : weak s -> outcome (rt_rd s) = None.
Proof. intros [[_ Hs] Hc _ _ _ _]. rewrite Hc in Hs. apply Hs. Qed.

Lemma requested_closed said s s' : requested said s -> live s -> rp s' = RClosed -> sock s' = sock s -> segs s' = segs s ->
  updated s' = updated s -> requested said s'.
Proof.
  unfold requested, live. intros Hr Hl -> -> -> ->. destruct (rp s).
  - destruct Hr as (-> & -> & ->). split; [by left|]. simpl. split; [lia|done].
  - destruct Hr as (-> & -> & ->). split; [by right|]. simpl. split; [lia|done].
  - destruct Hr as (-> & -> & Hu). split; [by right|]. split; [lia|done].
  - destruct Hr as (-> & -> & Hu). split; [by right|]. split; [lia|done].
  - done.
Qed.

Lemma weak_finish o s : weak s -> o <> None -> rinv (finish_run o s).
Proof.
  intros Hk Ho. pose proof (weak_outcome _ Hk) as Hn. destruct Hk as [Hs Hc Hl (said & rest & Hw & Hq) Ha Hf].
  split; simpl; try done.
  - by apply settled_settle.
  - exists said, rest. split; [done|]. split; [by eapply requested_closed|]. by intros [= ->].
  - split; [done|]. by intros [= ->].
Qed.

Lemma weak_fail err s : weak s -> rinv (fail err s).
Proof. intros. by apply weak_finish. Qed.

Lemma weak_queue q s : weak s -> weak (set_queue q (written s) s).
Proof. intros []. by split. Qed.

Lemma weak_set_audio c l s : weak s -> weak (set_audio c (segs s) l s).
Proof. intros []. by split. Qed.

(** The rest of the parts of the invariant is about what changes seldom. *)
Lemma rinv_frame s s' : rinv s -> rt_rd s' = rt_rd s -> rp s' = rp s -> rt_carry s' = rt_carry s -> sock s' = sock s ->
  segs s' = segs s -> cur s' = cur s -> updated s' = updated s -> written s' = written s -> text_q s' = text_q s ->
  (rt_ended s = true -> rt_ended s' = true) -> rinv s'.
Proof.
  intros [Hs Hc (said & rest & Hw & Hq & Hr) Ha Hf] E1 E2 E3 E4 E5 E6 E7 E8 E9 E10.
  split; unfold speaking in *; rewrite ?E1, ?E2, ?E3, ?E5, ?E6; try done.
  exists said, rest. rewrite E8, E9. split; [done|]. unfold requested in *. rewrite E2, E4, E5, E7. split; [done|].
  destruct (rp s); try done. intros Ho. destruct (Hr Ho) as (? & ? & ?). auto.
Qed.

Lemma nonblank_app l1 l2 : nonblank (l1 ++ l2) = nonblank l1 ++ nonblank l2.
Proof. apply List.filter_app. Qed.

Lemma rinv_write t ok s s' e : WriteText t ok s = Some (s', e) -> rinv s -> rinv s'.
Proof.
  unfold WriteText. intros H Hi. destruct (rt_ended s) eqn:He; [by injection H as <- <-|].
  destruct (rt_ctx s); [by injection H as <- <-|]. destruct (ok && _)%bool; [|done]. injection H as <- <-.
  destruct Hi as [Hs Hc (said & rest & Hw & Hq & Hr) Ha Hf]. split; simpl; try done.
  exists said, (rest ++ nonblank [t]). rewrite nonblank_app, Hw, <- app_assoc. split; [done|]. split; [done|].
  destruct (rp s); rewrite ?nonblank_app, ?Hr; try done. intros Ho. destruct (Hr Ho) as (_ & He' & _). congruence.
Qed.

Lemma rinv_readaudio d r' res s : ReadAudio (rt_ctx s) d (rt_rd s) = Some (r', res) -> rinv s -> rinv (set_rt_rd r' s).
Proof.
  intros H [Hs Hc Ht Ha Hf]. destruct (settled_read _ _ _ _ _ H Hs) as (Hs' & E1 & E2 & E3).
  split; unfold speaking in *; simpl; rewrite ?E1, ?E2, ?E3; done.
Qed.

Lemma rinv_dial d w s : rp s = RDial -> rinv s -> rinv (dial d w s).
Proof.
  intros Hp Hi. assert (Hk : weak s) by (apply rinv_weak; [done|]; unfold live; by rewrite Hp).
  unfold dial. destruct d; [destruct w|..]; try by apply weak_fail.
  destruct Hi as [Hs Hc (said & rest & Hw & Hq & Hr) Ha Hf]. unfold requested in Hq. rewrite Hp in *.
  destruct Hq as (Hsock & -> & Hg). split; simpl; try done. exists [], rest. split; [done|]. split; [|done].
  unfold requested. simpl. by rewrite Hsock.
Qed.

Lemma rinv_setup r s : rp s = RSetup -> rinv s -> rinv (setup r s).
Proof.
  intros Hp Hi. assert (Hk : weak s) by (apply rinv_weak; [done|]; unfold live; by rewrite Hp).
  unfold setup. destruct r as [ev| | |]; simpl; try by apply weak_fail.
  destruct (String.eqb _ _); [|destruct (String.eqb _ _); [by apply weak_fail|done]].
  destruct Hi as [Hs Hc (said & rest & Hw & Hq & Hr) Ha Hf]. unfold requested in Hq. rewrite Hp in *.
  destruct Hq as (Hsock & -> & Hg). split; simpl; try done. exists [], rest. split; [done|]. split; [|done].
  unfold requested. simpl. by rewrite Hsock, Hg.
Qed.

Lemma speaking_start s : cur s = [] -> concat (sent (rt_rd s)) = (heard (segs s)).1 -> rt_carry s = (heard (segs s)).2 ->
  zlen (heard (segs s)).2 <= 1 -> speaking newGate s.
Proof.
  intros Hc Hs Hr Hl. exists [], []. rewrite Hc, Hr, !app_nil_r. unfold evens, odd_rest.
  assert (Ha : AlignDown (zlen (heard (segs s)).2) <= 0) by (apply AlignDown_le_odd; [pose proof (zlen_nonneg (heard (segs s)).2); lia|done]).
  by replace (Z.to_nat (AlignDown _)) with O by lia.
Qed.
Lemma heard_odd l : zlen (heard l).2 <= 1.
Proof.
  destruct l as [|d l] using rev_ind; [done|]. rewrite heard_snoc. simpl. unfold odd_rest.
  set (pcm := _ ++ _). pose proof (zlen_nonneg pcm). destruct (AlignDown_spec (zlen pcm)) as [? Eb]; [done|].
  assert (0 <= AlignDown (zlen pcm)) by (apply Z.even_spec in Eb as [x Hx]; lia). rewrite zlen_drop by lia. lia.
Qed.

Lemma rinv_next d w s s' : next d w s = Some s' -> rp s = RNext -> rinv s -> rinv s'.
Proof.
  intros H Hp Hi. assert (Hk : weak s) by (apply rinv_weak; [done|]; unfold live; by rewrite Hp).
  pose proof Hi as [Hs Hc (said & rest & Hw & Hq & Hr) Ha Hf]. unfold requested in Hq. rewrite Hp in *.
  destruct Hq as (Hsock & Hlen & Hu), Ha as (Hcur & Hsent & Hcarry). unfold next in H. destruct d.
  { destruct (rt_ctx s); [|done]. injection H as <-. by apply weak_fail. }
  destruct (text_q s) as [|t q] eqn:Hq.
  - destruct (rt_ended s) eqn:He; [|done]. injection H as <-. split; simpl; try done.
    + by apply settled_settle.
    + exists said, rest. split; [done|]. split; [|by intros _; rewrite Hr, He].
      unfold requested. simpl. split; [by right|]. split; [lia|done].
    + rewrite Hsent. done.
  - destruct (is_blank t) eqn:Hb; [|destruct w as [err|]]; injection H as <-.
    + split; simpl; rewrite ?Hp; try done. exists said, rest. split; [done|]. unfold requested. simpl. rewrite Hp.
      split; [done|]. rewrite Hr. unfold nonblank. simpl. by rewrite Hb.
    + apply weak_fail. by apply weak_queue.
    + split; simpl; try done.
      * exists (said ++ [t]), (nonblank q). split; [rewrite Hw, Hr, <- app_assoc; unfold nonblank; simpl; by rewrite Hb|].
        split; [|done]. unfold requested. simpl. rewrite Hsock, map_app, length_app. simpl. split; [done|]. split; [lia|done].
      * apply speaking_start; try done. apply heard_odd.
Qed.

Lemma emit_spec ok pcm s s' b fs : emit ok pcm s = Some (s', b) -> weak s -> pcm = concat fs -> Forall whole fs ->
  exists r', s' = set_rt_rd r' s /\ settled r' /\ closed r' = false /\ Forall frames_chunk (sent r') /\
    concat (sent r') = concat (sent (rt_rd s)) ++ (if b then pcm else []).
Proof.
  intros H [Hs Hc _ _ _ Hf] Hpcm Hfs. destruct pcm as [|x pcm].
  - injection H as <- <-. exists (rt_rd s). rewrite app_nil_r. by destruct s.
  - unfold emit in H. apply bind_Some_inv in H as ([r' b'] & H & [= <- <-]). exists r'.
    destruct (settled_send _ _ _ _ _ _ H Hs Hc) as (Hs' & Hc' & _ & Hsent & _). rewrite Hsent, concat_app.
    split; [done|]. split; [done|]. split; [done|]. split; [|by destruct b'; simpl; rewrite ?app_nil_r].
    apply Forall_app. split; [done|]. destruct b'; [|constructor]. constructor; [|constructor]. split.
    + rewrite zlen_cons. pose proof (zlen_nonneg pcm). lia.
    + rewrite Hpcm. by apply whole_chunk.
Qed.

Lemma weak_rd r s : weak s -> settled r -> closed r = false -> Forall frames_chunk (sent r) ->
  concat (sent (rt_rd s)) `prefix_of` concat (sent r) -> weak (set_rt_rd r s).
Proof. intros [Hs Hc Hl Ht Ha Hf] H1 H2 H3 H4. split; simpl; try done. by etrans. Qed.

(** A delta: its whole samples go through the gate. *)
Lemma speaking_delta g raw s : speaking g s ->
  let s1 := set_audio (odd_rest (rt_carry s ++ raw)) (segs s) (cur s ++ [raw]) s in
  let '(g', out) := push g (evens (rt_carry s ++ raw)) in
  (exists fs, out = concat fs /\ Forall whole fs) /\
  forall r, concat (sent r) = concat (sent (rt_rd s)) ++ out -> speaking g' (set_rp (RSpeak g') (set_rt_rd r s1)).
Proof.
  intros (pieces & o & Hp & Hc & Hg & Hs). simpl. set (c0 := (heard (segs s)).2) in *.
  destruct (pushes_holds pieces) as [run Hh]. rewrite Hg in Hh. simpl in Hh.
  pose proof (push_whole g run (evens (rt_carry s ++ raw)) Hh) as Hwh.
  pose proof (pushes_snoc pieces (evens (rt_carry s ++ raw)) newGate) as Hps. rewrite Hg in Hps. simpl in Hps.
  destruct (push g _) as [g' out]. simpl in Hps, Hwh. split; [done|]. intros r Hr.
  destruct (evens_app (evens (c0 ++ concat (cur s))) (rt_carry s ++ raw) (evens_even _)) as [He Ho].
  assert (Hall : evens (c0 ++ concat (cur s)) ++ rt_carry s ++ raw = c0 ++ concat (cur s ++ [raw])).
  { rewrite app_assoc, Hc, evens_rest, concat_app. simpl. by rewrite app_nil_r, app_assoc. }
  rewrite Hall in He, Ho. exists (pieces ++ [evens (rt_carry s ++ raw)]), (o ++ out). simpl. fold c0.
  rewrite Hr, Hs, He, Ho, concat_app, Hp. simpl. by rewrite app_nil_r, app_assoc.
Qed.

(** The end of a segment. *)
Lemma speaking_done g s : speaking g s ->
  (exists fs, (finish g).2 = concat fs /\ Forall whole fs) /\
  concat (sent (rt_rd s)) ++ (finish g).2 = (heard (segs s ++ [cur s])).1 /\ rt_carry s = (heard (segs s ++ [cur s])).2.
Proof.
  intros (pieces & o & Hp & Hc & Hg & Hs). rewrite heard_snoc. simpl.
  destruct (pushes_holds pieces) as [run Hh]. rewrite Hg in Hh. split; [by eapply finish_whole|]. split; [|done].
  rewrite Hs, <- app_assoc. f_equal. rewrite <- Hp, <- segment_audio_ref. unfold segment_audio. by rewrite Hg.
Qed.
Lemma rinv_speak g r ok s s' : speak g r ok s = Some s' -> rp s = RSpeak g -> rinv s -> rinv s'.
Proof.
  intros H Hp Hi. assert (Hk : weak s) by (apply rinv_weak; [done|]; unfold live; by rewrite Hp).
  pose proof Hi as [Hs Hc (said & rest & Hw & Hq & Hr) Ha Hf]. unfold requested in Hq. rewrite Hp in *.
  destruct Hq as (Hsock & Hlen & Hu). unfold speak in H.
  destruct r as [ev| | |]; simpl in H; try (injection H as <-; by apply weak_fail).
  destruct (String.eqb _ _); [|destruct (String.eqb _ _); [|destruct (String.eqb _ _)]].
  - destruct (DecodeString _) as [raw|]; [|injection H as <-; by apply weak_fail].
    pose proof (speaking_delta g raw s Ha) as Hd. simpl in Hd. fold (evens (rt_carry s ++ raw)) (odd_rest (rt_carry s ++ raw)) in H.
    destruct (push g _) as [g' out]. destruct Hd as [(fs & Hout & Hfs) Hgo].
    apply bind_Some_inv in H as ([s1 b] & He & H).
    destruct (emit_spec _ _ _ _ _ _ He (weak_set_audio _ _ _ Hk) Hout Hfs) as (r' & -> & H1 & H2 & H3 & H4). simpl in H4.
    destruct b; injection H as <-.
    + split; simpl; try done.
      * exists said, rest. split; [done|]. by split.
      * apply (Hgo r' H4).
    + apply weak_fail, weak_rd; try done; [by apply weak_set_audio|]. rewrite H4, app_nil_r. done.
  - injection H as <-. by apply weak_fail.
  - destruct (rtDoneError ev) as [err|]; [injection H as <-; by apply weak_fail|].
    destruct (speaking_done g s Ha) as ((fs & Hout & Hfs) & Hs1 & Hs2).
    apply bind_Some_inv in H as ([s1 b] & He & H).
    destruct (emit_spec _ _ _ _ _ _ He Hk Hout Hfs) as (r' & -> & H1 & H2 & H3 & H4).
    destruct b; injection H as <-.
    + split; simpl; try done.
      * exists said, rest. split; [done|]. split; [|done]. unfold requested. simpl. split; [done|]. split; [|done].
        rewrite length_app. simpl. lia.
      * split; [done|]. split; [rewrite H4; exact Hs1|exact Hs2].
    + apply weak_fail, weak_rd; try done. rewrite H4, app_nil_r. done.
  - by injection H as <-.
Qed.

Lemma rinv_start : rinv rt_start.
Proof. split; try done. by exists [], []. Qed.

Lemma rinv_step a s s' : rt_step a s = Some s' -> rinv s -> rinv s'.
Proof.
  destruct a as [t ok| |d| |d w|d w|r ok]; simpl; intros H Hi.
  - apply fmap_Some in H as ([s1 e] & H & ->). by eapply rinv_write.
  - injection H as <-. unfold EndInput. destruct (rt_ended s); [done|]. by eapply rinv_frame.
  - apply bind_Some_inv in H as ([r' res] & H & [= <-]). by eapply rinv_readaudio.
  - injection H as <-. by eapply rinv_frame.
  - destruct (rp s) eqn:Hp; simplify_eq. by apply rinv_dial.
  - destruct (rp s) eqn:Hp; simplify_eq. by eapply rinv_next.
  - destruct (rp s) eqn:Hp; simplify_eq; [by apply rinv_setup|by eapply rinv_speak].
Qed.

Lemma rinv_reach s : rt_reach s -> rinv s.
Proof. induction 1; [apply rinv_start|by eapply rinv_step]. Qed.

(** ** Main results *)

(** C31. The service is told to read aloud every segment that was written, once,
    in order, one at a time. At every moment of a Realtime stream the socket has
    been written nothing, or the one session.update followed by a
    response.create per segment for a prefix of the segments with any text in
    them, in the order of WriteText; none before the service confirmed the
    session; at most one more than the responses that are done. A clean end
    comes only after EndInput, with every segment said and its response done. *)
Theorem rt_speaks_in_order s : rt_reach s ->
  exists said, said `prefix_of` nonblank (written s) /\
    (sock s = [] /\ said = [] \/ sock s = SessionUpdate session_update :: map say said) /\
    (said <> [] -> updated s = true) /\ (length (segs s) <= length said <= S (length (segs s)))%nat /\
    (outcome (rt_rd s) = Some None -> rt_ended s = true /\ said = nonblank (written s) /\ length said = length (segs s)).
Proof.
  intros Hr. destruct (rinv_reach _ Hr) as [[_ Hs] Hc (said & rest & Hw & Hq & Hre) _ _]. exists said.
  split; [by exists rest|]. unfold requested in Hq. destruct (rp s).
  1-4: rewrite Hc in Hs; destruct Hs as [_ ->].
  - destruct Hq as (-> & -> & ->). split; [by left|]. split; [done|]. split; [simpl; lia|done].
  - destruct Hq as (-> & -> & ->). split; [by right|]. split; [done|]. split; [simpl; lia|done].
  - destruct Hq as (-> & Hl & Hu). split; [by right|]. split; [done|]. split; [lia|done].
  - destruct Hq as (-> & Hl & Hu). split; [by right|]. split; [done|]. split; [lia|done].
  - destruct Hq as (Hsock & Hl & Hu). split; [done|]. split; [done|]. split; [done|]. intros Ho.
    destruct (Hre Ho) as (-> & ? & ?). by rewrite Hw, app_nil_r.
Qed.

(** The pipeline hears what the gate keeps of every segment, in order, and
    then the end. At every moment of a Realtime stream the chunks sent are those
    read and those waiting; each is whole 20 ms frames and not empty. They begin
    with the audio of the segments that are done (per segment: its deltas, the
    whole samples of them, gated as the reference gates them); between segments
    and after a clean end they are exactly that. The end is reported only after
    every chunk, and again by every later call. *)
Theorem rt_audio_exact s : rt_reach s ->
  sent (rt_rd s) = got (rt_rd s) ++ chunks (rt_rd s) /\ Forall frames_chunk (sent (rt_rd s)) /\
  (heard (segs s)).1 `prefix_of` concat (sent (rt_rd s)) /\
  (rp s = RNext \/ outcome (rt_rd s) = Some None -> concat (sent (rt_rd s)) = (heard (segs s)).1) /\
  (done (rt_rd s) = true -> got (rt_rd s) = sent (rt_rd s) /\ outcome (rt_rd s) = Some (final (rt_rd s)) /\
     forall ctx d, ReadAudio ctx d (rt_rd s) = Some (rt_rd s, end_result (final (rt_rd s)))).
Proof.
  intros Hr. pose proof (rinv_reach _ Hr) as Hi. pose proof Hi as [[Hq Hs] Hc _ Ha Hf].
  split; [done|]. split; [done|]. split; [|split].
  - destruct (rp s) eqn:Hp; [by destruct Ha as (_ & -> & _)..| |apply Ha].
    destruct Ha as (pieces & o & _ & _ & _ & ->). by apply prefix_app_r.
  - intros [Hp|Ho]; [rewrite Hp in Ha; apply Ha|].
    destruct (rp s); [rewrite Hc in Hs; destruct Hs as [_ Hs]; congruence..|by apply Ha].
  - intros Hd. rewrite Hd in Hs. destruct (closed (rt_rd s)); [|by destruct Hs]. destruct Hs as (o & Hou & <- & Hch).
    split; [by rewrite Hq, Hch, app_nil_r|]. split; [done|]. intros ctx d. unfold ReadAudio. by rewrite Hd.
Qed.
End stream.

(** ** Concrete streams *)

Definition demo_b64_error (s : string) : string := "illegal base64 data".

Definition event (typ delta : string) : rt_act := ARead (RtEvent (MkRtEvent typ delta None "" "" None)) true.
Definition audio_delta (pcm : list Z) : rt_act := event "response.output_audio.delta" (EncodeToString pcm).

(** 20 ms of speech: every sample is 16384. *)
Definition loud : list Z := concat (repeat [0; 64] 480).

(** Two segments with [d1] and [d2] for audio, a blank one between them. *)
Definition demo_talk (d1 d2 : list Z) : list rt_act :=
  [AWriteText "Hi." true; AWriteText " " true; ADial DialOk None; event "session.created" ""; event "session.updated" "";
   ANext false None; audio_delta d1; event "response.done" ""; ANext false None; AWriteText "Bye." true; AEndInput;
   ANext false None; audio_delta d2; event "response.done" ""; ANext false None].

Definition demo_rt (l : list rt_act) : option rt := rt_run demo_cfg demo_b64_error l rt_start.

Lemma demo_rt_reach l s : demo_rt l = Some s -> rt_reach demo_cfg demo_b64_error s.
Proof. unfold demo_rt. apply rt_run_reach. constructor. Qed.

Definition demo_spoken : list rt_act := demo_talk loud loud ++ [AReadAudio false; AReadAudio false; AReadAudio false].

Lemma demo_spoken_runs : exists s, demo_rt demo_spoken = Some s /\ done (rt_rd s) = true /\
  got (rt_rd s) = [loud; loud] /\ outcome (rt_rd s) = Some None /\
  sock s = [SessionUpdate (session_update demo_cfg); say "Hi."; say "Bye."].
Proof. eexists. split; [vm_compute; reflexivity|]. split; [|split; [|split]]; vm_compute; reflexivity. Qed.

Lemma rt_speaks_in_order_witness : exists s, demo_rt demo_spoken = Some s /\
  sock s = [SessionUpdate (session_update demo_cfg); say "Hi."; say "Bye."] /\
  exists said, said = nonblank (written s) /\ length said = length (segs s).
Proof.
  destruct demo_spoken_runs as (s & Hs & _ & _ & Ho & Hsock). exists s. split; [exact Hs|]. split; [exact Hsock|].
  destruct (rt_speaks_in_order demo_cfg demo_b64_error s (demo_rt_reach _ _ Hs)) as (said & _ & _ & _ & _ & Hend).
  exists said. destruct (Hend Ho) as (_ & H1 & H2). split; [exact H1|exact H2].
Defined.

Lemma rt_audio_exact_witness : exists s, demo_rt demo_spoken = Some s /\
  got (rt_rd s) = [loud; loud] /\ got (rt_rd s) = sent (rt_rd s).
Proof.
  destruct demo_spoken_runs as (s & Hs & Hdone & Hg & _). exists s. split; [exact Hs|]. split; [exact Hg|].
  apply (rt_audio_exact demo_cfg demo_b64_error s (demo_rt_reach _ _ Hs)). exact Hdone.
Defined.

(** An odd byte at the end of one segment spoils the next. The byte left over
    by the deltas of a segment is carried into the following response, whose
    samples are then read shifted by one byte: of two segments of which the first
    has an odd number of bytes, the second, all speech, is not heard at all (the
    gate takes the shifted samples for silence), while with an even first segment
    it is heard in full. *)
Theorem odd_byte_spoils_next_segment :
  (exists s, demo_rt (demo_talk [9] loud) = Some s /\ outcome (rt_rd s) = Some None /\
     segs s = [[[9]]; [loud]] /\ sent (rt_rd s) = []) /\
  (exists s, demo_rt (demo_talk [9; 9] loud) = Some s /\ outcome (rt_rd s) = Some None /\
     segs s = [[[9; 9]]; [loud]] /\ sent (rt_rd s) = [loud]).
Proof.
  split.
  - eexists. split; [vm_compute; reflexivity|]. split; [reflexivity|]. split; vm_compute; reflexivity.
  - eexists. split; [vm_compute; reflexivity|]. split; [reflexivity|]. split; vm_compute; reflexivity.
Qed.
