(* ===== verification/Server.v ===== *)
(** * The server ([internal/server/server.go])

    Two machines. [server] is the admission of requests ([handleRealtime]): the
    checks before the upgrade and the counter of live connections, whose atomic
    operations are steps of their own, as many requests run at once. [conn] is
    one connection ([serve]): the writer goroutine, the pump of the session's
    events through the adapter, and the read loop, sharing the queue [queue].

    In a step of [conn_step] the session delivers an event, whichever, or ends
    ([AEvent], [AEnd]), or one goroutine moves. No order of the events is assumed:
    a cancelled session may lose some ([SessionState]). The frames wait in [queue]; [written] are those the
    client got; a message is tagged with whether the pump sent it. [calls] are
    the adapter's calls so far with their frames. A panic stops the model
    ([panic]; [true]: in the pump). What the client's frames post to the session
    is the session's business and is not followed here.

    Shown: the limit of sessions; a client that gets a close frame has got the
    greeting and every event the session delivered before it, in order, and the
    code that the events say; a connection can wind down exactly if no event of a
    response came without its response.created, on which the pump panics; a run in
    which it does; and a reply that is sent on the closed queue. *)

From S2P Require Export AdapterProps.
From S2P Require Admin Utf8.
#[local] Open Scope string_scope.
#[local] Open Scope list_scope.
#[local] Open Scope Z_scope.

(** ** Admission *)






Section admission.
Context (apiKey : string) (maxSessions : Z).






End admission.

(** ** One connection *)

Inductive outMsg := OutFrame (f : frame) | OutClose (code : Z) (reason : string).

Definition StatusNormalClosure : Z := 1000.
Definition StatusGoingAway : Z := 1001.
Definition StatusInternalError : Z := 1011.

Definition CloseReason_string (r : CloseReason) : string :=
  match r with
  | CloseClient => "client_close"
  | CloseInputOverflow => "input_queue_overflow"
  | CloseBufferOverflow => "input_audio_buffer_overflow"
  | CloseProviderError => "provider_error"
  | CloseSessionTimeout => "session_timeout"
  | CloseContextCancelled => "context_cancelled"
  end.

(** The switch of the pump. *)
Definition close_step (acc : Z * string) (ev : Event) : Z * string :=
  match ev with
  | EvError _ code _ true => (StatusInternalError, errCode_string code)
  | EvSessionClosed CloseContextCancelled => (StatusGoingAway, "shutting_down")
  | EvSessionClosed CloseSessionTimeout => (StatusNormalClosure, CloseReason_string CloseSessionTimeout)
  | EvSessionClosed CloseClient => acc
  | EvSessionClosed r => (StatusInternalError, CloseReason_string r)
  | _ => acc
  end.

Definition close_of (evs : list Event) : Z * string := foldl close_step (StatusNormalClosure, "") evs.

(** The frames still to be sent by a goroutine are part of where it is. *)
Inductive pphase := PStart | PSend (pending : list frame) | PCloseOut | PDone.
Inductive rphase := RRead | RSend (pending : list frame) | RWait | RDone.

Record conn := MkConn {
  adapter : Adapter;
  calls : list (call * list frame);
  facts : list Event;
  events : list Event;
  events_closed : bool;
  queue : list (bool * outMsg);
  queue_closed : bool;
  writer_done : bool;
  written : list (bool * outMsg);
  pp : pphase;
  closeMsg : Z * string;
  rp : rphase;
  asked : bool;
  panic : option bool
}.

Definition set_adapter a l s := MkConn a l (facts s) (events s) (events_closed s) (queue s) (queue_closed s) (writer_done s) (written s) (pp s) (closeMsg s) (rp s) (asked s) (panic s).
Definition set_facts f e s := MkConn (adapter s) (calls s) f e (events_closed s) (queue s) (queue_closed s) (writer_done s) (written s) (pp s) (closeMsg s) (rp s) (asked s) (panic s).
Definition set_ended s := MkConn (adapter s) (calls s) (facts s) (events s) true (queue s) (queue_closed s) (writer_done s) (written s) (pp s) (closeMsg s) (rp s) (asked s) (panic s).
Definition set_queue q s := MkConn (adapter s) (calls s) (facts s) (events s) (events_closed s) q (queue_closed s) (writer_done s) (written s) (pp s) (closeMsg s) (rp s) (asked s) (panic s).
Definition set_closed s := MkConn (adapter s) (calls s) (facts s) (events s) (events_closed s) (queue s) true (writer_done s) (written s) (pp s) (closeMsg s) (rp s) (asked s) (panic s).
Definition set_wdone s := MkConn (adapter s) (calls s) (facts s) (events s) (events_closed s) (queue s) (queue_closed s) true (written s) (pp s) (closeMsg s) (rp s) (asked s) (panic s).
Definition set_written l s := MkConn (adapter s) (calls s) (facts s) (events s) (events_closed s) (queue s) (queue_closed s) (writer_done s) l (pp s) (closeMsg s) (rp s) (asked s) (panic s).
Definition set_pp p c s := MkConn (adapter s) (calls s) (facts s) (events s) (events_closed s) (queue s) (queue_closed s) (writer_done s) (written s) p c (rp s) (asked s) (panic s).
Definition set_rp r s := MkConn (adapter s) (calls s) (facts s) (events s) (events_closed s) (queue s) (queue_closed s) (writer_done s) (written s) (pp s) (closeMsg s) r (asked s) (panic s).
Definition set_asked s := MkConn (adapter s) (calls s) (facts s) (events s) (events_closed s) (queue s) (queue_closed s) (writer_done s) (written s) (pp s) (closeMsg s) (rp s) true (panic s).
Definition set_panic b s := MkConn (adapter s) (calls s) (facts s) (events s) (events_closed s) (queue s) (queue_closed s) (writer_done s) (written s) (pp s) (closeMsg s) (rp s) (asked s) (Some b).

Section connection.
Context (rand : nat -> nat -> Z) (outputEventQueue : Z) (model : string) (id : string) (cfg : SessionDefaults).

(** A call of the adapter; [k] goes on with its frames. *)
Definition adapt (pump : bool) (c : call) (k : list frame -> conn -> conn) (s : conn) : conn :=
  match serve1 rand c (adapter s) with
  | None => set_panic pump s
  | Some (fs, a) => k fs (set_adapter a (calls s ++ [(c, fs)]) s)
  end.

(** The closure [send]: [ok] is the case of its select; [None]: it waits. *)
Definition send (pump : bool) (m : outMsg) (ok : bool) (s : conn) : option conn :=
  if ok then
    if queue_closed s then Some (set_panic pump s)
    else if zlen (queue s) <? outputEventQueue then Some (set_queue (queue s ++ [(pump, m)]) s) else None
  else if writer_done s then Some s else None.

(** One iteration of the writer: [ok] is the outcome of the write. *)
Definition writer (ok : bool) (s : conn) : option conn :=
  if writer_done s then None else
  match queue s with
  | (b, OutClose code reason) :: rest =>
      let s := set_queue rest s in
      Some (set_wdone (if ok then set_written (written s ++ [(b, OutClose code reason)]) s else s))
  | (b, OutFrame f) :: rest =>
      let s := set_queue rest s in
      Some (if ok then set_written (written s ++ [(b, OutFrame f)]) s else set_wdone (set_asked s))
  | [] => if queue_closed s then Some (set_wdone s) else None
  end.

Definition pump_send (m : outMsg) (next : pphase) (ok : bool) (s : conn) : option conn :=
  s' ← send true m ok s; Some (match panic s' with Some _ => s' | None => set_pp next (closeMsg s') s' end).

(** One step of the pump. *)
Definition pump (ok : bool) (s : conn) : option conn :=
  match pp s with
  | PStart => Some (adapt true CallHello (fun fs s => set_pp (PSend fs) (closeMsg s) s) s)
  | PSend (f :: rest) => pump_send (OutFrame f) (PSend rest) ok s
  | PSend [] =>
      match events s with
      | ev :: rest =>
          let s := set_facts (facts s) rest s in
          Some (adapt true (CallOut ev) (fun fs s => set_pp (PSend fs) (close_step (closeMsg s) ev) s) s)
      | [] => if events_closed s then pump_send (OutClose (closeMsg s).1 (closeMsg s).2) PCloseOut ok s else None
      end
  | PCloseOut => Some (set_pp PDone (closeMsg s) (set_closed s))
  | PDone => None
  end.

(** What [conn.Read] returns: a client event (parsed, if it parses), a binary
    frame, or an error. *)
Inductive read := RdText (msg : option json) | RdBinary | RdError.

(** One step of the read loop and of the end of [serve]. *)
Definition reader (r : read) (ok : bool) (s : conn) : option conn :=
  match rp s with
  | RRead =>
      match r with
      | RdText msg => Some (adapt false (CallIn msg) (fun fs s => set_rp (RSend fs) s) s)
      | RdBinary => Some (adapt false CallReject (fun fs s => set_rp (RSend fs) s) s)
      | RdError => Some (set_rp RWait (set_asked s))
      end
  | RSend (f :: rest) => s' ← send false (OutFrame f) ok s; Some (match panic s' with Some _ => s' | None => set_rp (RSend rest) s' end)
  | RSend [] => Some (set_rp RRead s)
  | RWait =>
      match pp s with
      | PDone => if events_closed s && writer_done s then Some (set_rp RDone s) else None
      | _ => None
      end
  | RDone => None
  end.

Inductive act := AEvent (ev : Event) | AEnd | AWriter (ok : bool) | APump (ok : bool) | AReader (r : read) (ok : bool).

Definition conn_step (a : act) (s : conn) : option conn :=
  if bool_decide (panic s <> None) then None else
  match a with
  | AEvent ev =>
      if events_closed s then None
      else Some (set_facts (facts s ++ [ev]) (events s ++ [ev]) s)
  | AEnd => if events_closed s then None else Some (set_ended s)
  | AWriter ok => writer ok s
  | APump ok => pump ok s
  | AReader r ok => reader r ok s
  end.

(** [serve], once the session has started. *)
Definition conn_start : conn :=
  {| adapter := Adapter.New rand id model cfg; calls := []; facts := []; events := []; events_closed := false;
     queue := []; queue_closed := false; writer_done := false; written := []; pp := PStart;
     closeMsg := (StatusNormalClosure, ""); rp := RRead; asked := false; panic := None |}.

Inductive conn_reach : conn -> Prop :=
| conn_reach_start : conn_reach conn_start
| conn_reach_step s a s' : conn_reach s -> conn_step a s = Some s' -> conn_reach s'.

Fixpoint conn_run (l : list act) (s : conn) : option conn :=
  match l with
  | [] => Some s
  | a :: l => conn_step a s ≫= conn_run l
  end.

(** ** What goes over the wire *)

(** The frames of the pump's calls and those of the read loop's, and the
    messages of each among some. *)
Definition of_pump (c : call) : bool := match c with CallHello | CallOut _ => true | CallReject | CallIn _ => false end.

Definition frames_of (b : bool) (l : list (call * list frame)) : list frame :=
  concat (map snd (List.filter (fun x => Bool.eqb (of_pump x.1) b) l)).

Definition msgs_of (b : bool) (l : list (bool * outMsg)) : list outMsg :=
  map snd (List.filter (fun x => Bool.eqb x.1 b) l).

Definition is_frame (x : bool * outMsg) : Prop := match x.2 with OutFrame _ => True | OutClose _ _ => False end.

Definition pending_p (p : pphase) : list frame := match p with PSend fs => fs | _ => [] end.
Definition pending_r (r : rphase) : list frame := match r with RSend fs => fs | _ => [] end.
Definition pump_over (p : pphase) : bool := match p with PCloseOut | PDone => true | _ => false end.

(** The events the adapter has projected. *)
Definition done_events (s : conn) : list Event := outs (map fst (calls s)).

(** All that the pump was to send so far. *)
Definition produced (s : conn) : list outMsg :=
  map OutFrame (frames_of true (calls s)) ++
  (if pump_over (pp s) then [OutClose (closeMsg s).1 (closeMsg s).2] else []).

Lemma frames_of_snoc b l c fs :
  frames_of b (l ++ [(c, fs)]) = frames_of b l ++ (if Bool.eqb (of_pump c) b then fs else []).
Proof.
  unfold frames_of. rewrite List.filter_app, map_app, concat_app. simpl. destruct (Bool.eqb _ _); simpl; by rewrite ?app_nil_r.
Qed.

Lemma msgs_of_app b l1 l2 : msgs_of b (l1 ++ l2) = msgs_of b l1 ++ msgs_of b l2.
Proof. unfold msgs_of. by rewrite List.filter_app, map_app. Qed.

Lemma msgs_of_cons b c m l : msgs_of b ((c, m) :: l) = (if Bool.eqb c b then [m] else []) ++ msgs_of b l.
Proof. unfold msgs_of. simpl. by destruct (Bool.eqb c b). Qed.

Lemma outs_snoc cs c : outs (cs ++ [c]) = outs cs ++ out_of c.
Proof. unfold outs. by rewrite bind_app, bind_cons, app_nil_r. Qed.

Lemma mapM_snoc {A B} (f : A -> M B) l x a ys a1 y a2 : mapM_ f l a = Some (ys, a1) -> f x a1 = Some (y, a2) ->
  mapM_ f (l ++ [x]) a = Some (ys ++ [y], a2).
Proof.
  revert a ys. induction l as [|z l IH]; intros a ys.
  - intros [= <- <-] H2. simpl. unfold bindM, ret. by rewrite H2.
  - cbn [mapM_ app]. intros (w & a3 & H1 & (ws & a4 & H2 & [= <- <-])%bindM_Some)%bindM_Some H3.
    unfold bindM, ret. by rewrite H1, (IH _ _ H2 H3).
Qed.

Lemma serve_snoc cs c a fs a1 fs2 a2 : serve rand cs a = Some (fs, a1) -> serve1 rand c a1 = Some (fs2, a2) ->
  serve rand (cs ++ [c]) a = Some (fs ++ fs2, a2).
Proof.
  unfold serve. intros (fss & a3 & H & [= <- <-])%bindM_Some H2. unfold bindM at 1.
  rewrite (mapM_snoc _ _ _ _ _ _ _ _ H H2). unfold ret. by rewrite concat_app, concat_cons, app_nil_r.
Qed.

(** ** The invariant *)

(** The responses that events announce. *)
Definition learned (evs : list Event) : gset ResponseRef := fold_left (fun k ev => learn ev k) evs ∅.

(** The session's events reach the adapter in order, one projection each, and
    the close code is folded along; the pump panics on an event of a response
    that none before it announced. *)
Record good (s : conn) : Prop := {
  g_serve : serve rand (map fst (calls s)) (Adapter.New rand id model cfg) = Some (concat (map snd (calls s)), adapter s);
  g_facts : match panic s with
            | Some true => pump_over (pp s) = false /\
                exists ev, facts s = done_events s ++ ev :: events s /\ announced ∅ (done_events s ++ [ev]) = false
            | _ => facts s = done_events s ++ events s
            end;
  g_known : announced ∅ (done_events s) = true /\ has_resps (learned (done_events s)) (adapter s);
  g_close : closeMsg s = close_of (done_events s);
  g_stage : match pp s with
            | PStart => List.filter of_pump (map fst (calls s)) = [] /\ done_events s = []
            | _ => List.filter of_pump (map fst (calls s)) = CallHello :: map CallOut (done_events s)
            end;
  g_over : pump_over (pp s) = true -> events s = [] /\ events_closed s = true;
  g_queue : queue_closed s = true <-> pp s = PDone }.

(** What was sent is written or waits, in order, as long as the writer runs;
    a close frame is the last thing written, and all was written before it. *)
Record wired (s : conn) : Prop := {
  w_pump : if writer_done s then msgs_of true (written s) `prefix_of` produced s
           else (msgs_of true (written s ++ queue s) ++ map OutFrame (pending_p (pp s)) = produced s)%list;
  w_replies : if writer_done s then msgs_of false (written s) `prefix_of` map OutFrame (frames_of false (calls s))
              else (msgs_of false (written s ++ queue s) ++ map OutFrame (pending_r (rp s)) =
                   map OutFrame (frames_of false (calls s)))%list;
  w_close : Forall is_frame (written s) \/
            exists l c r, written s = l ++ [(true, OutClose c r)] /\ Forall is_frame l /\ writer_done s = true /\
                          pump_over (pp s) = true /\ msgs_of true (written s) = produced s }.

Lemma good_start : good conn_start.
Proof. by split. Qed.

Lemma wired_start : wired conn_start.
Proof. split; try done. by left. Qed.

Lemma calls_snoc l c (fs : list frame) :
  map fst (l ++ [(c, fs)]) = map fst l ++ [c] /\
  outs (map fst (l ++ [(c, fs)])) = outs (map fst l) ++ out_of c /\
  List.filter of_pump (map fst (l ++ [(c, fs)])) = List.filter of_pump (map fst l) ++ (if of_pump c then [c] else []).
Proof.
  rewrite map_app. split; [done|]. cbn [map fst]. rewrite outs_snoc, List.filter_app. split; [done|]. simpl.
  by destruct (of_pump c).
Qed.

(** A call of the adapter never panics where its event's response is known. *)
Lemma call_total c s : good s -> announced ∅ (done_events s ++ out_of c) = true ->
  exists fs a, serve1 rand c (adapter s) = Some (fs, a) /\
    serve rand (map fst (calls s ++ [(c, fs)])) (Adapter.New rand id model cfg) =
      Some (concat (map snd (calls s ++ [(c, fs)])), a) /\ has_resps (learned (done_events s ++ out_of c)) a.
Proof.
  intros Hg Hev. destruct (g_known _ Hg) as [Hd Hr]. rewrite announced_app, Hd in Hev. cbn [andb] in Hev.
  pose proof (serve1_exact rand c _ _ Hr) as Hs. unfold learned in Hs. rewrite Hev in Hs.
  destruct Hs as (fs & a & H1 & H2). exists fs, a. split; [done|]. rewrite !map_app. cbn [map fst snd].
  rewrite concat_app, concat_cons, app_nil_r. split; [by eapply serve_snoc; [apply g_serve|]|].
  unfold learned. by rewrite fold_left_app.
Qed.

Lemma call_panics ev s : good s -> announced ∅ (done_events s ++ [ev]) = false -> serve1 rand (CallOut ev) (adapter s) = None.
Proof.
  intros Hg Hev. destruct (g_known _ Hg) as [Hd Hr]. rewrite announced_app, Hd in Hev. cbn [andb] in Hev.
  pose proof (serve1_exact rand (CallOut ev) _ _ Hr) as Hs. unfold learned, out_of in Hs. by rewrite Hev in Hs.
Qed.

Lemma announced_quiet c s : good s -> out_of c = [] -> announced ∅ (done_events s ++ out_of c) = true.
Proof. intros Hg ->. rewrite app_nil_r. apply (g_known _ Hg). Qed.

(** Where a close stands among what was sent. *)
Lemma close_last a b x y fs t : (x ++ OutClose a b :: y = map OutFrame fs ++ t)%list ->
  (length t <= 1)%nat -> x = map OutFrame fs /\ y = [] /\ t = [OutClose a b].
Proof.
  revert x. induction fs as [|f fs IH]; intros x H Hl.
  - destruct x as [|z x]; simpl in H; subst t; simpl in Hl; [by destruct y; simpl in Hl; [|lia]|].
    rewrite length_app in Hl. simpl in Hl. lia.
  - destruct x as [|z x]; [done|]. injection H as -> H. destruct (IH x H Hl) as (-> & -> & ->). done.
Qed.

Lemma tail_short s : (length (if pump_over (pp s) then [OutClose (closeMsg s).1 (closeMsg s).2] else []) <= 1)%nat.
Proof. by destruct (pump_over (pp s)); simpl; lia. Qed.

Lemma writer_inv ok s s' : good s -> wired s -> panic s = None -> writer ok s = Some s' -> good s' /\ wired s'.
Proof.
  intros Hg [Hp Hr Hc] _ H. unfold writer in H. destruct (writer_done s) eqn:Hw; [done|].
  destruct Hc as [Hc|(? & ? & ? & _ & _ & ? & _)]; [|done].
  destruct (queue s) as [|[b [f|code reason]] rest] eqn:Hq.
  - destruct (queue_closed s) eqn:Hqc; [|done]. injection H as <-. split; [by destruct Hg; split|].
    rewrite app_nil_r in Hp, Hr. split; simpl; [|by eexists|by left]. by eexists.
  - injection H as <-. destruct ok; (split; [by destruct Hg; split|]).
    + split; cbn -[msgs_of frames_of produced]; rewrite ?Hw, <- ?app_assoc; [done..|].
      left. apply Forall_app. split; [done|]. by repeat constructor.
    + rewrite msgs_of_app, <- app_assoc in Hp, Hr. split; cbn -[msgs_of frames_of produced]; [by eexists..|by left].
  - rewrite msgs_of_app, msgs_of_cons, <- !app_assoc in Hp, Hr.
    assert (b = true) as ->.
    { destruct b; [done|]. simpl in Hr. rewrite <- (app_nil_r (map OutFrame (frames_of _ _))) in Hr.
      by apply close_last in Hr as (_ & _ & ?); [|simpl; lia]. }
    simpl in Hp. destruct (close_last _ _ _ _ _ _ Hp (tail_short s)) as (Hx & _ & Ht).
    destruct (pump_over (pp s)) eqn:Ho; [|done].
    injection H as <-. destruct ok; (split; [by destruct Hg; split|]).
    + assert (Hm : msgs_of true (written s ++ [(true, OutClose code reason)]) = produced s).
      { rewrite msgs_of_app, Hx. unfold produced. by rewrite Ho, Ht. }
      split; cbn -[msgs_of frames_of produced].
      * rewrite Hm. exists []. by rewrite app_nil_r.
      * rewrite msgs_of_app. simpl. rewrite app_nil_r. by eexists.
      * right. eexists _, _, _. split; [reflexivity|]. done.
    + split; cbn -[msgs_of frames_of produced]; [|by eexists|by left]. rewrite Hx. by eexists.
Qed.

Lemma send_cases b m ok s s' : send b m ok s = Some s' ->
  (queue_closed s = true /\ s' = set_panic b s) \/
  (queue_closed s = false /\ s' = set_queue (queue s ++ [(b, m)]) s) \/ (writer_done s = true /\ s' = s).
Proof.
  unfold send. destruct ok; [destruct (queue_closed s) eqn:Hq; [intros [= <-]; by left|]|].
  - destruct (_ <? _); [|done]. intros [= <-]. right; by left.
  - destruct (writer_done s) eqn:Hw; [|done]. intros [= <-]. by right; right.
Qed.

(** The pump sends [m] and is then at [next]. *)
Lemma pump_send_inv m next ok s s' fs : good s -> wired s -> panic s = None -> pp s = PSend fs ->
  (exists f rest, fs = f :: rest /\ m = OutFrame f /\ next = PSend rest) \/
  (fs = [] /\ m = OutClose (closeMsg s).1 (closeMsg s).2 /\ next = PCloseOut /\ events s = [] /\ events_closed s = true) ->
  pump_send m next ok s = Some s' -> good s' /\ wired s'.
Proof.
  intros Hg [Hp Hr Hc] Hn Hpp Hm H. unfold pump_send in H.
  destruct (send true m ok s) as [s1|] eqn:Hs; [|done]. cbn in H. injection H as <-.
  assert (Hqc : queue_closed s = false).
  { destruct (queue_closed s) eqn:E; [|done]. apply (g_queue _ Hg) in E. congruence. }
  assert (Hw : forall s2, s2 = s \/ s2 = set_queue (queue s ++ [(true, m)]) s ->
    good (set_pp next (closeMsg s2) s2) /\
    produced (set_pp next (closeMsg s2) s2) = produced s ++ (if pump_over next then [m] else [])).
  { intros s2 Hs2. split.
    - destruct Hg as [G1 G2 G3 G6 G7 G8 G9]. rewrite Hn in G2. rewrite Hpp in G7, G9.
      assert (Hne : PSend fs <> PDone) by done.
      destruct Hs2 as [-> | ->], Hm as [(f & rest & -> & -> & ->)|(-> & -> & -> & He & Hcl)]; split; try done;
        simpl; rewrite ?Hn, ?Hqc; done.
    - unfold produced. rewrite Hpp. destruct Hs2 as [-> | ->], Hm as [(f & rest & -> & -> & ->)|(-> & -> & -> & _)];
        simpl; by rewrite ?app_nil_r. }
  assert (Hnc : Forall is_frame (written s)).
  { destruct Hc as [Hc|(? & ? & ? & _ & _ & _ & Ho & _)]; [done|]. by rewrite Hpp in Ho. }
  destruct (send_cases _ _ _ _ _ Hs) as [[Hq _]|[[_ ->]|[Hwd ->]]]; [congruence|cbn [panic set_queue]; rewrite Hn..].
  - destruct (Hw _ (or_intror eq_refl)) as [Hg' Hpr]. split; [exact Hg'|]. split; [| |by left].
    + rewrite Hpr. cbn -[msgs_of frames_of produced]. destruct (writer_done s); [by apply prefix_app_r|].
      rewrite <- Hp, Hpp, app_assoc, (msgs_of_app _ (_ ++ _)), msgs_of_cons. simpl. rewrite <- !app_assoc. f_equal.
      destruct Hm as [(f & rest & -> & -> & ->)|(-> & -> & -> & _)]; simpl; by rewrite ?app_nil_r.
    + cbn -[msgs_of frames_of produced]. destruct (writer_done s); [done|].
      by rewrite app_assoc, msgs_of_app, msgs_of_cons, app_nil_r.
  - destruct (Hw _ (or_introl eq_refl)) as [Hg' Hpr]. split; [exact Hg'|]. rewrite Hwd in Hp, Hr.
    split; [| |by left]; cbn -[msgs_of frames_of produced]; rewrite Hwd; [|done].
    rewrite Hpr. by apply prefix_app_r.
Qed.

(** A call of the pump: the greeting, or the session's next event. *)
Lemma pump_call_inv c s s' fs a f e : good s -> wired s -> panic s = None -> pp s = PStart /\ c = CallHello /\ f = facts s /\ e = events s \/
    (pp s = PSend [] /\ exists ev, c = CallOut ev /\ f = facts s /\ events s = ev :: e) ->
  serve rand (map fst (calls s ++ [(c, fs)])) (Adapter.New rand id model cfg) =
    Some (concat (map snd (calls s ++ [(c, fs)])), a) ->
  announced ∅ (done_events s ++ out_of c) = true -> has_resps (learned (done_events s ++ out_of c)) a ->
  s' = set_pp (PSend fs) (match c with CallOut ev => close_step (closeMsg s) ev | _ => closeMsg s end)
         (set_adapter a (calls s ++ [(c, fs)]) (set_facts f e s)) ->
  good s' /\ wired s'.
Proof.
  intros [G1 G2 G3 G6 G7 G8 G9] [Hp Hr Hc] Hn Hk H2 H3 H4 ->. rewrite Hn in G2.
  destruct (calls_snoc (calls s) c fs) as (_ & Ho & Hf).
  assert (Hpump : of_pump c = true) by (destruct Hk as [(_ & -> & _)|(_ & ev & -> & _)]; done).
  assert (Hnd : pp s <> PDone /\ pump_over (pp s) = false /\ pending_p (pp s) = []) by
    (destruct Hk as [(-> & _)|(-> & _)]; done). destruct Hnd as (Hnd & Hno & Hpd).
  assert (Hf' : f = facts s) by (destruct Hk as [(_ & _ & -> & _)|(_ & ev & _ & -> & _)]; done). subst f.
  split; [split|split]; unfold produced, done_events in *; cbn -[msgs_of frames_of close_of outs serve announced learned] in *; try done.
  - rewrite Hn, Ho. destruct Hk as [(_ & -> & _ & ->)|(_ & ev & -> & _ & He)]; [by rewrite app_nil_r|].
    by rewrite G2, He, <- app_assoc.
  - by rewrite Ho.
  - rewrite Ho, G6. unfold close_of. destruct Hk as [(_ & -> & _)|(_ & ev & -> & _ & He)]; [by rewrite app_nil_r|].
    by rewrite foldl_app.
  - rewrite Ho, Hf, Hpump. destruct Hk as [(E & -> & _)|(E & ev & -> & _ & He)]; rewrite E in G7.
    + destruct G7 as [-> ->]. done.
    + by rewrite G7, map_app.
  - split; [|done]. intros Hq. by apply G9 in Hq.
  - rewrite frames_of_snoc, Hpump, Hno, Hpd in *. rewrite !app_nil_r in *. rewrite map_app.
    destruct (writer_done s); [by apply prefix_app_r|]. by rewrite Hp.
  - rewrite frames_of_snoc, Hpump, app_nil_r. done.
  - destruct Hc as [Hc|(? & ? & ? & _ & _ & _ & Hc & _)]; [by left|congruence].
Qed.

Lemma pump_inv ok s s' : good s -> wired s -> panic s = None -> pump ok s = Some s' -> good s' /\ wired s'.
Proof.
  intros Hg Hw Hn H. unfold pump in H. destruct (pp s) as [|[|f fs]| |] eqn:Hpp; [| | | |done].
  - pose proof (announced_quiet CallHello s Hg eq_refl) as Ha.
    destruct (call_total CallHello s Hg Ha) as (fs & a & H1 & H2 & H3). unfold adapt in H. rewrite H1 in H.
    injection H as <-. eapply (pump_call_inv CallHello); eauto 10.
  - destruct (events s) as [|ev rest] eqn:He.
    + destruct (events_closed s) eqn:Hec; [|done]. eapply pump_send_inv; eauto 10.
    + unfold adapt in H. cbn [adapter set_facts] in H.
      destruct (announced ∅ (done_events s ++ [ev])) eqn:Ha.
      * destruct (call_total (CallOut ev) s Hg Ha) as (fs & a & H1 & H2 & H3). rewrite H1 in H. injection H as <-.
        eapply (pump_call_inv (CallOut ev) s _ fs a _ rest); eauto 10.
      * rewrite (call_panics ev s Hg Ha) in H. injection H as <-. split.
        -- destruct Hg as [G1 G2 G3 G6 G7 G8 G9]. rewrite Hn, He in G2. split; try done; [|intros Ho].
           { cbn. rewrite Hpp. split; [done|]. by exists ev. }
           cbn in Ho. by rewrite Hpp in Ho.
        -- destruct Hw as [Hp Hr Hc]. by split.
  - eapply pump_send_inv; eauto 10.
  - injection H as <-. split; [destruct Hg as [G1 G2 G3 G6 G7 G8 G9]; rewrite Hpp in *; by split|].
    destruct Hw as [Hp Hr Hc]. split; unfold produced in *; rewrite Hpp in *; done.
Qed.

(** A call of the read loop. *)
Lemma reader_call_inv c s s' : good s -> wired s -> panic s = None -> rp s = RRead -> of_pump c = false ->
  adapt false c (fun fs s => set_rp (RSend fs) s) s = s' -> good s' /\ wired s'.
Proof.
  intros Hg [Hp Hr Hc] Hn Hrp Hpump H.
  assert (Ho : out_of c = []) by by destruct c. pose proof (announced_quiet c s Hg Ho) as Ha.
  destruct (call_total c s Hg Ha) as (fs & a & H1 & H2 & H3).
  unfold adapt in H. rewrite H1 in H. subst s'. destruct (calls_snoc (calls s) c fs) as (_ & Hd & Hf).
  rewrite Ho in H3, Hd. rewrite Hpump, app_nil_r in *. destruct Hg as [G1 G2 G3 G6 G7 G8 G9]. rewrite Hn in G2.
  split; [split|split]; unfold produced, done_events in *;
    cbn -[msgs_of frames_of close_of outs serve announced learned] in *; rewrite ?Hn, ?Hd, ?Hf; try done.
  - split; [apply G3|exact H3].
  - by rewrite frames_of_snoc, Hpump, app_nil_r.
  - rewrite frames_of_snoc, Hpump, map_app. rewrite Hrp in Hr. simpl in Hr. rewrite app_nil_r in Hr.
    destruct (writer_done s); [by apply prefix_app_r|]. by rewrite Hr.
  - by rewrite frames_of_snoc, Hpump, app_nil_r.
Qed.

(** The read loop sends: it stays good, or it panics on the closed queue. *)
Lemma reader_send_inv f rest ok s s1 : good s -> wired s -> panic s = None -> rp s = RSend (f :: rest) ->
  send false (OutFrame f) ok s = Some s1 ->
  (queue_closed s = true /\ s1 = set_panic false s \/ panic s1 = None) /\
  good (match panic s1 with Some _ => s1 | None => set_rp (RSend rest) s1 end) /\
  wired (match panic s1 with Some _ => s1 | None => set_rp (RSend rest) s1 end).
Proof.
  intros [G1 G2 G3 G6 G7 G8 G9] [Hp Hr Hc] Hn Hrp Hs. rewrite Hn in G2. rewrite Hrp in Hr. cbn [pending_r map] in Hr.
  destruct (send_cases _ _ _ _ _ Hs) as [[Hq ->]|[[Hq ->]|[Hw ->]]]; cbn [panic set_panic set_queue]; rewrite ?Hn;
    (split; [auto|]); (split; [split; try done; cbn [panic set_panic set_queue set_rp]; by rewrite ?Hn|]); split; unfold produced in *;
    cbn -[msgs_of frames_of] in *; try done; try (rewrite Hrp; done); rewrite ?Hw in *; try done;
    (destruct (writer_done s); [done|]); rewrite app_assoc, msgs_of_app, msgs_of_cons; simpl;
    by rewrite ?app_nil_r, <- ?app_assoc.
Qed.

Lemma reader_inv r ok s s' : good s -> wired s -> panic s = None -> reader r ok s = Some s' -> good s' /\ wired s'.
Proof.
  intros Hg Hw Hn H. unfold reader in H. destruct (rp s) as [|[|f rest]| |] eqn:Hrp; [..|done].
  - destruct r; injection H as H; try (eapply reader_call_inv; by eauto).
    subst s'. destruct Hg, Hw as [? Hr ?]. rewrite Hrp in Hr. by split; split.
  - injection H as <-. destruct Hg, Hw as [? Hr ?]. rewrite Hrp in Hr. by split; split.
  - destruct (send _ _ _ _) as [s1|] eqn:Hs; [|done]. injection H as <-.
    by eapply (reader_send_inv f rest).
  - destruct (pp s) eqn:Hpp; try done. destruct (_ && _); [|done]. injection H as <-.
    destruct Hg, Hw as [? Hr ?]. rewrite Hrp in Hr. by split; split.
Qed.

Lemma step_inv a s s' : good s -> wired s -> conn_step a s = Some s' -> good s' /\ wired s'.
Proof.
  intros Hg Hw H. unfold conn_step in H. case_bool_decide as Hn; [done|].
  assert (panic s = None) as Hn' by (by destruct (panic s); [destruct Hn|]).
  destruct a as [ev| |ok|ok|r ok]; [| |by eapply writer_inv|by eapply pump_inv|by eapply reader_inv].
  - destruct (events_closed s) eqn:Hec; [done|]. injection H as <-.
    destruct Hg as [G1 G2 G3 G6 G7 G8 G9], Hw as [Hp Hr Hc].
    split; split; unfold done_events in *; cbn -[msgs_of frames_of close_of outs serve announced learned] in *; try done.
    + rewrite Hn' in *. by rewrite G2, app_assoc.
    + intros Ho. apply G8 in Ho as [_ Ho]. congruence.
  - destruct (events_closed s); [done|]. injection H as <-.
    destruct Hg as [G1 G2 G3 G6 G7 G8 G9], Hw as [Hp Hr Hc]. split; split; try done.
    intros Ho. by apply G8 in Ho as [? _].
Qed.

Lemma conn_inv s : conn_reach s -> good s /\ wired s.
Proof.
  induction 1 as [|s a s' _ [Hg Hw] H]; [split; [apply good_start|apply wired_start]|by eapply step_inv].
Qed.

Lemma conn_run_reach l s s' : conn_reach s -> conn_run l s = Some s' -> conn_reach s'.
Proof.
  revert s. induction l as [|a l IH]; intros s Hs H; [by injection H as <-|]. cbn in H.
  destruct (conn_step a s) as [s1|] eqn:H1; [|done]. by eapply IH; [eapply conn_reach_step|].
Qed.

Lemma run_app l1 l2 s s1 s2 : conn_run l1 s = Some s1 -> conn_run l2 s1 = Some s2 -> conn_run (l1 ++ l2) s = Some s2.
Proof.
  revert s. induction l1 as [|a l1 IH]; intros s H1 H2; [by injection H1 as ->|]. cbn in *.
  destruct (conn_step a s) as [s3|]; [|done]. by eapply IH.
Qed.

Lemma frames_prefix l s : Forall is_frame l -> msgs_of true l `prefix_of` produced s ->
  msgs_of true l `prefix_of` map OutFrame (frames_of true (calls s)).
Proof.
  intros Hf [k Hk]. unfold produced in Hk. destruct (pump_over (pp s)); [|rewrite app_nil_r in Hk; by exists k].
  destruct k as [|x k' _] using rev_ind.
  - exfalso. rewrite app_nil_r in Hk. set (m := OutClose _ _) in Hk.
    assert (HI : In m (msgs_of true l)) by (rewrite <- Hk; apply in_or_app; right; by left).
    unfold msgs_of in HI. apply in_map_iff in HI as ([b m'] & E & [HI _]%List.filter_In). simpl in E. subst m'.
    rewrite Forall_forall in Hf. by apply (Hf (b, m)), list_elem_of_In.
  - rewrite app_assoc in Hk. apply app_inj_tail in Hk as [-> _]. by eexists.
Qed.

Lemma good_facts s : good s -> panic s = None \/ pump_over (pp s) = true -> facts s = done_events s ++ events s.
Proof.
  intros [_ G2 _ _ _ _ _] H. destruct (panic s) as [[]|]; try done. destruct G2 as [Ho _]. rewrite Ho in H.
  by destruct H.
Qed.

(** C33. What the client gets is complete and in order, whatever the session
    delivers, whatever the client sends and however the goroutines interleave: at
    every moment the frames of the session that are on the wire are, in order, an
    initial part of the greeting and the projections of the events delivered, and
    the replies to its own frames an initial part of the adapter's answers; every
    frame is one the adapter made in the order of its calls. A close frame is the
    last thing written: the session has then ended, the client has the greeting and
    the projection of every event it delivered, and the code and reason are those
    these events determine. *)
Theorem wire_in_order s : conn_reach s ->
  serve rand (map fst (calls s)) (Adapter.New rand id model cfg) = Some (concat (map snd (calls s)), adapter s) /\
  outs (map fst (calls s)) `prefix_of` facts s /\
  msgs_of false (written s) `prefix_of` map OutFrame (frames_of false (calls s)) /\
  (Forall is_frame (written s) /\ msgs_of true (written s) `prefix_of` map OutFrame (frames_of true (calls s)) \/
   exists l, written s = l ++ [(true, OutClose (close_of (facts s)).1 (close_of (facts s)).2)] /\
     Forall is_frame l /\ events_closed s = true /\
     msgs_of true l = map OutFrame (frames_of true (calls s)) /\
     List.filter of_pump (map fst (calls s)) = CallHello :: map CallOut (facts s)).
Proof.
  intros [Hg [Hp Hr Hc]]%conn_inv. pose proof (good_facts s Hg) as Hfa. destruct Hg as [G1 G2 G3 G6 G7 G8 G9].
  split; [done|]. split; [|split].
  - destruct (panic s) as [[]|]; [destruct G2 as (_ & ev & -> & _)|rewrite G2..]; by eexists.
  - destruct (writer_done s); [done|]. rewrite msgs_of_app, <- app_assoc in Hr. by eexists.
  - destruct Hc as [Hc|(l & c & r & Hl & Hf & Hw & Ho & Hm)].
    + left. split; [done|]. apply frames_prefix; [done|].
      destruct (writer_done s); [done|]. rewrite msgs_of_app, <- app_assoc in Hp. by eexists.
    + right. exists l. destruct (G8 Ho) as [He Hec]. specialize (Hfa (or_intror Ho)). rewrite He, app_nil_r in Hfa.
      rewrite Hl, msgs_of_app in Hm. unfold produced in Hm. rewrite Ho in Hm. apply app_inj_tail in Hm as [Hm [= -> ->]].
      rewrite Hl, Hfa, <- G6. split; [done|]. split; [done|]. split; [done|]. split; [done|]. by destruct (pp s).
Qed.

(** ** Winding down *)

Definition own (a : act) : bool := match a with AEvent _ | AEnd => false | AWriter _ | APump _ | AReader _ _ => true end.

(** [s] can go to a state with [P] by steps of the connection alone. *)
Definition can (P : conn -> Prop) (s : conn) : Prop :=
  exists l s', forallb own l = true /\ conn_run l s = Some s' /\ P s'.

Lemma can_here (P : conn -> Prop) s : P s -> can P s.
Proof. intros H. by exists [], s. Qed.

Lemma can_step (P : conn -> Prop) a s s' : own a = true -> conn_step a s = Some s' -> can P s' -> can P s.
Proof. intros Ho H (l & s2 & H1 & H2 & H3). exists (a :: l), s2. simpl. rewrite Ho, H. done. Qed.

Lemma can_trans (P Q : conn -> Prop) s : can P s -> (forall s', P s' -> can Q s') -> can Q s.
Proof.
  intros (l & s1 & H1 & H2 & H3) Hq. destruct (Hq _ H3) as (l2 & s2 & H4 & H5 & H6). exists (l ++ l2), s2.
  rewrite forallb_app, H1, H4. split; [done|]. split; [|done]. by eapply run_app.
Qed.

(** A connection whose session has ended without an event of a response that
    was not announced, none of whose goroutines panicked. *)
Definition ending (s : conn) : Prop :=
  conn_reach s /\ events_closed s = true /\ panic s = None /\ announced ∅ (facts s) = true.

Lemma step_ready a s : panic s = None -> conn_step a s =
  match a with
  | AEvent ev => if events_closed s then None
                 else Some (set_facts (facts s ++ [ev]) (events s ++ [ev]) s)
  | AEnd => if events_closed s then None else Some (set_ended s)
  | AWriter ok => writer ok s
  | APump ok => pump ok s
  | AReader r ok => reader r ok s
  end.
Proof. intros H. unfold conn_step. by rewrite H. Qed.

Lemma ending_step a s s' : ending s -> conn_step a s = Some s' -> panic s' = None -> events_closed s' = events_closed s ->
  facts s' = facts s -> ending s'.
Proof.
  intros (H1 & H2 & H3 & H4) H Hp He Hf. split; [by eapply conn_reach_step|]. by rewrite He, Hf.
Qed.

(** The pump's next call of the adapter. *)
Lemma pump_calls ok s ev rest : ending s -> pp s = PStart /\ rest = events s \/ pp s = PSend [] /\ events s = ev :: rest ->
  exists s' fs, conn_step (APump ok) s = Some s' /\ ending s' /\ pp s' = PSend fs /\ events s' = rest /\
    writer_done s' = writer_done s /\ queue s' = queue s /\ queue_closed s' = queue_closed s /\ rp s' = rp s.
Proof.
  intros He Hk. pose proof He as (Hr & Hc & Hn & Ha). destruct (conn_inv _ Hr) as [Hg _].
  assert (Hx : forall s', pump ok s = Some s' -> panic s' = None -> events_closed s' = events_closed s ->
    facts s' = facts s -> ending s').
  { intros s' H. eapply (ending_step (APump ok)); [done|]. by rewrite step_ready. }
  rewrite step_ready by done. unfold pump in *. destruct Hk as [[Hpp ->]|[Hpp Hev]]; rewrite Hpp in *.
  - pose proof (announced_quiet CallHello s Hg eq_refl) as Hq.
    destruct (call_total CallHello s Hg Hq) as (fs & a & H1 & _). unfold adapt in *. rewrite H1 in *.
    eexists _, fs. split; [reflexivity|]. split; [by apply Hx|done].
  - assert (Hq : announced ∅ (done_events s ++ [ev]) = true).
    { rewrite (good_facts s Hg (or_introl Hn)), Hev in Ha. change (ev :: rest) with ([ev] ++ rest) in Ha.
      rewrite app_assoc, announced_app in Ha. by apply andb_true_iff in Ha as [Ha _]. }
    rewrite Hev in *. destruct (call_total (CallOut ev) s Hg Hq) as (fs & a & H1 & _).
    unfold adapt in *. cbn [adapter set_facts] in *. rewrite H1 in *.
    eexists _, fs. split; [reflexivity|]. split; [by apply Hx|done].
Qed.

(** The pump's next send; the queue has room or the writer is gone. *)
Lemma pump_sends (ok : bool) (s : conn) : ending s -> (if ok then zlen (queue s) < outputEventQueue else writer_done s = true) ->
  (exists f rest, pp s = PSend (f :: rest)) \/ pp s = PSend [] /\ events s = [] ->
  exists s' m, conn_step (APump ok) s = Some s' /\ ending s' /\ events s' = events s /\
    pp s' = (match pp s with PSend (_ :: rest) => PSend rest | _ => PCloseOut end) /\
    writer_done s' = writer_done s /\ rp s' = rp s /\ queue s' = (if ok then queue s ++ [(true, m)] else queue s).
Proof.
  intros He Hok Hk. pose proof He as (Hr & Hc & Hn & _). destruct (conn_inv _ Hr) as [Hg _].
  assert (Hq : queue_closed s = false).
  { destruct (queue_closed s) eqn:E; [|done]. apply (g_queue _ Hg) in E. rewrite E in Hk.
    by destruct Hk as [(? & ? & ?)|[? _]]. }
  assert (Hx : forall s', pump ok s = Some s' -> panic s' = None -> events_closed s' = events_closed s ->
    facts s' = facts s -> ending s').
  { intros s' H. eapply (ending_step (APump ok)); [done|]. by rewrite step_ready. }
  rewrite step_ready by done. unfold pump, pump_send, send in *. rewrite Hq in *.
  destruct Hk as [(f & rest & Hpp)|[Hpp Hev]]; rewrite Hpp in *; rewrite ?Hev, ?Hc in *;
    (destruct ok;
     [rewrite (proj2 (Z.ltb_lt _ _) Hok) in *; cbn in *; rewrite Hn in *; eexists _, _
     |rewrite Hok in *; cbn in *; rewrite Hn in *; eexists _, (OutClose 0 "")]);
    (split; [reflexivity|]); (split; [by apply Hx|]); by rewrite ?Hev.
Qed.

Definition quiet_writer (s : conn) : Prop := ending s /\ writer_done s = true.

Lemma pump_empties fs : forall s, quiet_writer s -> pp s = PSend fs ->
  can (fun s' => quiet_writer s' /\ pp s' = PSend [] /\ events s' = events s) s.
Proof.
  induction fs as [|f fs IH]; intros s [He Hw] Hpp; [by apply can_here|].
  destruct (pump_sends false s He Hw) as (s1 & m & Hs & He1 & Hv & Hp1 & Hw1 & _); [left; by eexists _, _|].
  eapply (can_step _ (APump false)); [done|exact Hs|]. rewrite Hpp in Hp1.
  eapply can_trans; [apply IH; [split; [done|by rewrite Hw1]|done]|]. cbv beta. intros s2 (? & ? & ?). apply can_here.
  by rewrite <- Hv.
Qed.

(** Once the writer is gone the pump drops what is left and ends. *)
Lemma pump_ends s : quiet_writer s -> can (fun s' => quiet_writer s' /\ pp s' = PDone) s.
Proof.
  assert (H0 : forall s, quiet_writer s -> pp s = PCloseOut -> can (fun s' => quiet_writer s' /\ pp s' = PDone) s).
  { intros s1 [He Hw] Hpp. pose proof He as (Hr & Hc & Hn & _).
    assert (Hs : conn_step (APump false) s1 = Some (set_pp PDone (closeMsg s1) (set_closed s1))).
    { rewrite step_ready by done. unfold pump. by rewrite Hpp. }
    eapply (can_step _ (APump false)); [done|exact Hs|]. apply can_here. split; [split|done]; [|done].
    by eapply ending_step. }
  assert (H1 : forall n s, length (events s) = n -> quiet_writer s -> (exists fs, pp s = PSend fs) ->
    can (fun s' => quiet_writer s' /\ pp s' = PDone) s).
  { intros n. induction n as [|n IH]; intros s1 Hl Hq [fs Hpp]; (eapply can_trans; [by apply (pump_empties fs)|]);
      cbv beta; intros s2 ([He Hw] & Hp2 & Hv2); rewrite <- Hv2 in Hl; destruct (events s2) as [|ev rest] eqn:Hv; try done.
    - destruct (pump_sends false s2 He Hw) as (s3 & m & Hs & He3 & _ & Hp3 & Hw3 & _); [by right|].
      eapply (can_step _ (APump false)); [done|exact Hs|]. apply H0; [split; [done|by rewrite Hw3]|]. by rewrite Hp3, Hp2.
    - destruct (pump_calls false s2 ev rest He) as (s3 & fs3 & Hs & He3 & Hp3 & Hv3 & Hw3 & _); [by right|].
      eapply (can_step _ (APump false)); [done|exact Hs|]. apply IH; [|split; [done|by rewrite Hw3]|by eexists].
      rewrite Hv3. by injection Hl. }
  intros Hq. destruct (pp s) eqn:Hpp; [| |by apply H0|by apply can_here].
  - destruct Hq as [He Hw]. destruct (pump_calls false s (EvSessionClosed CloseClient) (events s) He) as
      (s3 & fs3 & Hs & He3 & Hp3 & Hv3 & Hw3 & _); [by left|].
    eapply (can_step _ (APump false)); [done|exact Hs|]. eapply H1; [done|split; [done|by rewrite Hw3]|by eexists].
  - eapply H1; [done|done|by eexists].
Qed.

(** The writer, handed an item or a closed queue, can end. *)
Lemma writer_fails s : ending s -> queue s <> [] \/ queue_closed s = true -> can quiet_writer s.
Proof.
  intros He Hq. destruct (writer_done s) eqn:Hw; [by apply can_here|]. pose proof He as (_ & _ & Hn & _).
  assert (exists s', writer false s = Some s' /\ writer_done s' = true /\ panic s' = None /\ events_closed s' = events_closed s /\
    facts s' = facts s)
    as (s' & Hs & Hw' & Hn' & Hc' & Hf').
  { unfold writer. rewrite Hw. destruct (queue s) as [|[b [f|code reason]] rest]; [|by eexists..].
    destruct Hq as [?|Hq]; [done|]. rewrite Hq. by eexists. }
  rewrite <- (step_ready (AWriter false)) in Hs by done.
  eapply (can_step _ (AWriter false)); [done|exact Hs|]. apply can_here. split; [by eapply ending_step|done].
Qed.

Lemma writer_stops s : 0 < outputEventQueue -> ending s -> can quiet_writer s.
Proof.
  intros Hcap. assert (Hsend : forall s, ending s -> (exists f rest, pp s = PSend (f :: rest)) \/ pp s = PSend [] /\ events s = [] ->
    can quiet_writer s).
  { intros s1 He Hk. destruct (queue s1) as [|m q] eqn:Hq; [|apply writer_fails; [done|by left; rewrite Hq]].
    destruct (pump_sends true s1 He) as (s2 & m & Hs & He2 & _ & _ & _ & _ & Hq2); [by rewrite Hq|done|].
    eapply (can_step _ (APump true)); [done|exact Hs|]. apply writer_fails; [done|]. left. rewrite Hq2, Hq. done. }
  assert (Hrun : forall n s, length (events s) = n -> ending s -> (exists fs, pp s = PSend fs) -> can quiet_writer s).
  { intros n. induction n as [|n IH]; intros s1 Hl He [[|f fs] Hpp]; try (apply Hsend; [done|left; by eexists _, _]);
      (destruct (events s1) as [|ev rest] eqn:Hv; [try done|try done]); [by apply Hsend; [|right]|].
    destruct (pump_calls false s1 ev rest He) as (s2 & fs2 & Hs & He2 & Hp2 & Hv2 & _); [by right|].
    eapply (can_step _ (APump false)); [done|exact Hs|]. apply IH; [|done|by eexists]. rewrite Hv2. by injection Hl. }
  intros He. pose proof He as (Hr & Hc & Hn & _). destruct (conn_inv _ Hr) as [Hg _]. destruct (pp s) eqn:Hpp.
  - destruct (pump_calls false s (EvSessionClosed CloseClient) (events s) He) as
      (s2 & fs2 & Hs & He2 & Hp2 & _); [by left|].
    eapply (can_step _ (APump false)); [done|exact Hs|]. eapply Hrun; [done|done|by eexists].
  - eapply Hrun; [done|done|by eexists].
  - assert (Hs : conn_step (APump false) s = Some (set_pp PDone (closeMsg s) (set_closed s))).
    { rewrite step_ready by done. unfold pump. by rewrite Hpp. }
    eapply (can_step _ (APump false)); [done|exact Hs|]. apply writer_fails; [by eapply ending_step|by right].
  - apply writer_fails; [done|]. right. by apply (g_queue _ Hg).
Qed.

(** The end of [serve]: writer and pump are gone and it has asked the session to close. *)
Definition wound_down (s : conn) : Prop :=
  rp s = RDone /\ writer_done s = true /\ pp s = PDone /\ panic s = None.

Lemma reader_moves r ok s s' : ending s -> reader r ok s = Some s' -> can wound_down s' -> can wound_down s.
Proof.
  intros (_ & _ & Hn & _) H Hc. eapply (can_step _ (AReader r ok)); [done| |exact Hc]. by rewrite step_ready.
Qed.

(** Once the others are gone the read loop's sends fall through and it ends. *)
Lemma reader_ends s : quiet_writer s -> pp s = PDone -> can wound_down s.
Proof.
  assert (Hwait : forall s, quiet_writer s -> pp s = PDone -> rp s = RWait -> can wound_down s).
  { intros s1 [He Hw] Hpp Hrp. pose proof He as (_ & Hc & Hn & _).
    eapply (reader_moves RdError false _ (set_rp RDone s1)); [done| |done..|by apply can_here].
    unfold reader. by rewrite Hrp, Hpp, Hc, Hw. }
  assert (Hread : forall s, quiet_writer s -> pp s = PDone -> rp s = RRead -> can wound_down s).
  { intros s1 [He Hw] Hpp Hrp. pose proof He as (_ & Hc & Hn & _).
    assert (Hs : reader RdError false s1 = Some (set_rp RWait (set_asked s1))) by (unfold reader; by rewrite Hrp).
    eapply reader_moves; [done|exact Hs|done..|]. apply Hwait; [split; [|done]|done|done].
    eapply (ending_step (AReader RdError false)); [done| |done..]. by rewrite step_ready. }
  assert (Hsend : forall fs s, quiet_writer s -> pp s = PDone -> rp s = RSend fs -> can wound_down s).
  { intros fs. induction fs as [|f fs IH]; intros s1 [He Hw] Hpp Hrp; pose proof He as (_ & Hc & Hn & _).
    - assert (Hs : reader RdError false s1 = Some (set_rp RRead s1)) by (unfold reader; by rewrite Hrp).
      eapply reader_moves; [done|exact Hs|done..|]. apply Hread; [split; [|done]|done|done].
      eapply (ending_step (AReader RdError false)); [done| |done..]. by rewrite step_ready.
    - assert (Hs : reader RdError false s1 = Some (set_rp (RSend fs) s1)).
      { unfold reader, send. rewrite Hrp, Hw. cbn. by rewrite Hn. }
      eapply reader_moves; [done|exact Hs|done..|]. apply IH; [split; [|done]|done|done].
      eapply (ending_step (AReader RdError false)); [done| |done..]. by rewrite step_ready. }
  intros Hq Hpp. destruct (rp s) eqn:Hrp; [by apply Hread|by eapply Hsend|by apply Hwait|].
  apply can_here. by destruct Hq as [(_ & _ & Hn & _) Hw].
Qed.

(** The steps of the connection take in no event. *)
Lemma own_facts a s s' : own a = true -> conn_step a s = Some s' -> facts s' = facts s.
Proof.
  assert (Hsend : forall b m ok s1 s2, send b m ok s1 = Some s2 -> facts s2 = facts s1)
    by (intros b m ok s1 s2 [[_ ->]|[[_ ->]|[_ ->]]]%send_cases; done).
  assert (Had : forall b c k s1, (forall fs s2, facts (k fs s2) = facts s2) -> facts (adapt b c k s1) = facts s1).
  { intros b c k s1 Hk. unfold adapt. destruct (serve1 _ _ _) as [[fs a']|]; [by rewrite Hk|done]. }
  assert (Hps : forall m next ok s1 s2, pump_send m next ok s1 = Some s2 -> facts s2 = facts s1).
  { intros m next ok s1 s2 (s3 & H1 & [= <-])%bind_Some_inv. destruct (panic s3); by apply Hsend in H1. }
  unfold conn_step. case_bool_decide as Hd; [done|]. destruct a as [ev| |ok|ok|r ok]; intros Ho H; try done.
  - unfold writer in H. repeat (case_match; try done); by injection H as <-.
  - unfold pump in H. destruct (pp s) as [|[|f fs]| |]; [| | | |done].
    + injection H as <-. by rewrite Had.
    + destruct (events s); [destruct (events_closed s); [by eapply Hps|done]|]. injection H as <-. by rewrite Had.
    + by eapply Hps.
    + by injection H as <-.
  - unfold reader in H. destruct (rp s) as [|[|f fs]| |]; [| | | |done].
    + destruct r; injection H as <-; by rewrite ?Had.
    + by injection H as <-.
    + apply bind_Some_inv in H as (s1 & H1 & [= <-]). destruct (panic s1); by apply Hsend in H1.
    + repeat (case_match; try done); by injection H as <-.
Qed.

Lemma own_run l : forall s s', forallb own l = true -> conn_run l s = Some s' -> facts s' = facts s.
Proof.
  induction l as [|a l IH]; intros s s' Ho H; [by injection H as <-|]. cbn in Ho, H. apply andb_true_iff in Ho as [Ho Hl].
  apply bind_Some_inv in H as (s1 & H1 & H2). by rewrite (IH _ _ Hl H2), (own_facts _ _ _ Ho H1).
Qed.

(** C34. When a connection winds down. Once its session has ended, whatever is
    still queued and whatever a goroutine is in the middle of (a send that waits for
    a full queue included), there is an order of the steps of writer, pump and read
    loop alone, without any help of the session, after which the writer and the
    pump have exited and [serve] returns, exactly if the session delivered no event
    of a response whose response.created it did not deliver before. The pump panics
    on such an event and on nothing else, in any state. *)
Theorem connection_winds_down s : 0 < outputEventQueue -> conn_reach s ->
  (panic s = Some true -> orphan (facts s)) /\
  (events_closed s = true -> panic s = None ->
   (exists l s', forallb own l = true /\ conn_run l s = Some s' /\ wound_down s') <-> ~ orphan (facts s)).
Proof.
  intros Hcap Hr. destruct (conn_inv _ Hr) as [Hg _]. rewrite <- announced_false. split.
  - intros Hp. pose proof (g_facts _ Hg) as Hf. rewrite Hp in Hf. destruct Hf as (_ & ev & -> & Ha).
    change (ev :: events s) with ([ev] ++ events s). by rewrite app_assoc, announced_app, Ha.
  - intros Hc Hn. rewrite not_false_iff_true. split.
    + intros (l & s' & Ho & Hrun & _ & _ & Hpp & Hn'). rewrite <- (own_run _ _ _ Ho Hrun).
      destruct (conn_inv s') as [Hg' _]; [by eapply conn_run_reach|].
      rewrite (good_facts _ Hg' (or_introl Hn')). assert (Hov : pump_over (pp s') = true) by by rewrite Hpp.
      destruct (g_over _ Hg' Hov) as [-> _]. rewrite app_nil_r. apply (g_known _ Hg').
    + intros Ha. change (can wound_down s). eapply can_trans; [by apply writer_stops|]. intros s1 H1.
      eapply can_trans; [by apply pump_ends|]. cbv beta. intros s2 [H2 Hp2]. by apply reader_ends.
Qed.
End connection.

(** ** Concrete connections *)

Definition demo_conn : conn := conn_start demo_rand "gpt-realtime" "sess_1" demo_cfg.

Definition demo_run (l : list act) : option conn := conn_run demo_rand 4 l demo_conn.

(** A frame of the greeting is written, a binary frame refused; the session is
    closed and the pump has sent the rest of the greeting and the close frame. *)
Definition call_ends : list act :=
  [APump true; APump true; AWriter true; AReader RdBinary true; AReader RdError true;
   AEvent (EvSessionClosed CloseClient); AEnd; APump true; APump true; APump true].

(** Writer: the refusal, the rest of the greeting and the close frame go out. *)
Definition call_written : list act := call_ends ++ [AWriter true; AWriter true; AWriter true].

(** Before they do, the pump closes the queue and the client sends another
    binary frame. *)
Definition call_races : list act :=
  call_ends ++ [APump true; AReader RdError true; AReader RdBinary true; AReader RdError true].

Lemma demo_written_runs : exists s, demo_run call_written = Some s /\ ~ Forall is_frame (written s).
Proof.
  eexists; split; [vm_compute; reflexivity|]. cbn. intros H.
  do 3 apply Forall_cons_1 in H as [_ H]. by apply Forall_cons_1 in H as [[] _].
Qed.

Lemma demo_ends_runs : exists s, demo_run call_ends = Some s /\ events_closed s = true /\ panic s = None /\
  announced ∅ (facts s) = true.
Proof. eexists; split; [vm_compute; reflexivity|]. by split_and!. Qed.

Lemma demo_reach l s : demo_run l = Some s -> conn_reach demo_rand 4 "gpt-realtime" "sess_1" demo_cfg s.
Proof. intros H. eapply conn_run_reach; [apply conn_reach_start|exact H]. Qed.


Lemma wire_in_order_witness : exists s l, demo_run call_written = Some s /\
  written s = l ++ [(true, OutClose (close_of (facts s)).1 (close_of (facts s)).2)] /\
  msgs_of true l = map OutFrame (frames_of true (calls s)).
Proof.
  destruct demo_written_runs as (s & H & Hc).
  destruct (wire_in_order demo_rand 4 "gpt-realtime" "sess_1" demo_cfg s (demo_reach _ _ H))
    as (_ & _ & _ & [[Hf _]|(l & Hl & _ & _ & Hm & _)]); [destruct (Hc Hf)|]. exists s, l. exact (conj H (conj Hl Hm)).
Defined.

Lemma connection_winds_down_witness : exists s l s',
  demo_run call_ends = Some s /\ conn_run demo_rand 4 l s = Some s' /\ wound_down s'.
Proof.
  destruct demo_ends_runs as (s & H & Hc & Hn & Ha).
  destruct (connection_winds_down demo_rand 4 "gpt-realtime" "sess_1" demo_cfg s eq_refl (demo_reach _ _ H)) as [_ Hw].
  assert (Ho : ~ orphan (facts s)) by (intros Ho%announced_false; congruence).
  destruct (proj2 (Hw Hc Hn) Ho) as (l & s' & _ & H1 & H2). exists s, l, s'. exact (conj H (conj H1 H2)).
Defined.

(** A reply can hit the closed queue: when the session has ended and the
    pump has queued the close frame and closed the queue, but the client has not
    got the close yet, a further frame of the client that is refused makes the
    read loop send on the closed channel and panic; of the three frames that were
    still queued (the close among them) the client got none. *)
Theorem reply_after_close_panics : exists s, demo_run call_races = Some s /\
  conn_reach demo_rand 4 "gpt-realtime" "sess_1" demo_cfg s /\ panic s = Some false /\
  Forall is_frame (written s) /\ length (written s) = 1%nat /\ length (queue s) = 3%nat.
Proof.
  assert (H : exists s, demo_run call_races = Some s /\ panic s = Some false /\
    (length (written s), length (queue s)) = (1%nat, 3%nat) /\ Forall is_frame (written s)).
  { eexists. split; [vm_compute; reflexivity|]. split; [reflexivity|]. split; [reflexivity|].
    repeat constructor. }
  destruct H as (s & H & Hp & [= Hw Hq] & Hf). exists s.
  split; [exact H|]. split; [exact (demo_reach _ _ H)|]. exact (conj Hp (conj Hf (conj Hw Hq))).
Qed.

(** A lost response.created kills the pump: the events that a session
    delivers at its end ([lost_reply]) make it look up a response the adapter
    never saw. Nothing recovers the panic. *)
Theorem lost_created_kills_pump : exists s,
  demo_run (map AEvent (sent (cleanup lost_reply)) ++ AEnd :: repeat (APump true) 8) = Some s /\
  conn_reach demo_rand 4 "gpt-realtime" "sess_1" demo_cfg s /\ panic s = Some true.
Proof.
  assert (H : exists s, demo_run (map AEvent (sent (cleanup lost_reply)) ++ AEnd :: repeat (APump true) 8) = Some s /\
    panic s = Some true) by (eexists; split; [vm_compute; reflexivity|reflexivity]).
  destruct H as (s & H & Hp). exists s. split; [exact H|]. split; [exact (demo_reach _ _ H)|exact Hp].
Qed.
