(* ===== verification/StrictJson.v ===== *)
(** * Strict decoding of JSON into Go structs

    What [internal/config] relies on in [encoding/json]: a decoder of a Go value
    over the value that is there ([decoder]), for the kinds of fields the
    configuration structs have, and for structs with [DisallowUnknownFields].

    An object's members are decoded in order, each into the field it names
    exactly or, failing that, up to case folding ([resolve]). A member without a
    field and a value of the wrong type are remembered, the first of them, and
    decoding goes on; an error of an [UnmarshalJSON] method ends it ([Abort]).
    null leaves a string, number, boolean or struct as it is and empties a
    pointer, slice or map. A pointer that is set is decoded into what it points
    to, so a partial object keeps the defaults around it.
    Elements of a slice are decoded over those it has; what Go finds beyond its
    length, in an array that comes after a longer one, is not followed.

    A document is the parsed value and what follows it. *)

From S2P Require Export Decode.
From Stdlib Require Import QArith Ascii.
#[local] Open Scope string_scope.
#[local] Open Scope Z_scope.

(** ** Outcomes *)

(** The error a decoder keeps: an unknown key, or the path of a mismatch. *)
Inductive saved := Unknown (key : string) | Mismatch (path : string).

#[export] Instance saved_eq_dec : EqDecision saved.
Proof. solve_decision. Defined.

Inductive outcome (S : Type) := Done (s : S) (e : option saved) | Abort.
Arguments Done {S} s e.
Arguments Abort {S}.

Definition decoder (S : Type) : Type := string -> json -> S -> outcome S.

Definition joinPath (base key : string) : string := if String.eqb base EmptyString then key else base ++ "." ++ key.

(** ** Fields *)

Definition mismatch {S} (p : string) (old : S) : outcome S := Done old (Some (Mismatch p)).

Definition dec_string : decoder string := fun p v old =>
  match v with JStr s => Done s None | JNull => Done old None | _ => mismatch p old end.

Definition dec_bool : decoder bool := fun p v old =>
  match v with JBool b => Done b None | JNull => Done old None | _ => mismatch p old end.

Definition dec_int : decoder Z := fun p v old =>
  match v with
  | JNum lit => match Atoi lit with Some n => Done n None | None => mismatch p old end
  | JNull => Done old None
  | _ => mismatch p old
  end.

Definition dec_float : decoder float64 := fun p v old =>
  match v with
  | JNum lit => match ParseFloat lit with Some f => Done f None | None => mismatch p old end
  | JNull => Done old None
  | _ => mismatch p old
  end.

Definition dec_ptr {A} (zero : A) (d : decoder A) : decoder (option A) := fun p v old =>
  match v with
  | JNull => Done None None
  | _ => match d p v (default zero old) with Done x e => Done (Some x) e | Abort => Abort end
  end.

(** The first of two remembered errors. *)
Definition first_saved (e1 e2 : option saved) : option saved := match e1 with Some _ => e1 | None => e2 end.

(** An element is decoded over the one that is there. *)
Fixpoint dec_elems (p : string) (old : list string) (l : list json) : list string * option saved :=
  match l with
  | [] => ([], None)
  | v :: l =>
      let '(x, e1) := match dec_string p v (default EmptyString (head old)) with Done x e => (x, e) | Abort => (EmptyString, None) end in
      let '(xs, e2) := dec_elems p (tail old) l in
      (x :: xs, first_saved e1 e2)
  end.

Definition dec_strings : decoder (list string) := fun p v old =>
  match v with
  | JArr l => let '(xs, e) := dec_elems p old l in Done xs e
  | JNull => Done [] None
  | _ => mismatch p old
  end.

(** [json.RawMessage] keeps the value, null included. *)
Definition dec_raw : decoder (option json) := fun _ v _ => Done (Some v) None.

Definition dec_raws : decoder (gmap string json) := fun p v old =>
  match v with
  | JObj m => Done (foldl (fun acc kv => <[kv.1 := kv.2]> acc) old m) None
  | JNull => Done ∅ None
  | _ => mismatch p old
  end.

(** A type with an [UnmarshalJSON] method. *)
Definition dec_method {A} (unmarshal : json -> option A) : decoder A := fun _ v _ =>
  match unmarshal v with Some x => Done x None | None => Abort end.

(** ** Structs *)

Record field (S : Type) := MkField { f_name : string; f_dec : decoder S }.
Arguments MkField {S} f_name f_dec.
Arguments f_name {S} f.
Arguments f_dec {S} f.

(** A field of the struct [S], by its getter and setter. *)
Definition fld {S A} (name : string) (get : S -> A) (set : A -> S -> S) (d : decoder A) : field S :=
  MkField name (fun p v s => match d p v (get s) with Done x e => Done (set x s) e | Abort => Abort end).

(** [foldName]: letters in upper case; the long s and the Kelvin sign, whose
    UTF-8 encodings are spelled out, fold to letters too. *)
Definition byte (n : nat) : Ascii.ascii := ascii_of_nat n.

Definition upper (c : Ascii.ascii) : Ascii.ascii :=
  let n := nat_of_ascii c in if (Nat.leb 97 n) && (Nat.leb n 122) then byte (n - 32) else c.

Fixpoint fold_name (s : string) : string :=
  match s with
  | EmptyString => EmptyString
  | String c1 (String c2 (String c3 r3 as r2) as r1) =>
      if Ascii.eqb c1 (byte 197) && Ascii.eqb c2 (byte 191) then String "S" (fold_name r2)
      else if Ascii.eqb c1 (byte 226) && Ascii.eqb c2 (byte 132) && Ascii.eqb c3 (byte 170) then String "K" (fold_name r3)
      else String (upper c1) (fold_name r1)
  | String c1 (String c2 r2 as r1) =>
      if Ascii.eqb c1 (byte 197) && Ascii.eqb c2 (byte 191) then String "S" (fold_name r2)
      else String (upper c1) (fold_name r1)
  | String c1 r1 => String (upper c1) (fold_name r1)
  end.

(** The field a key names: exactly, or up to folding. *)
Definition resolve {S} (fs : list (field S)) (key : string) : option (field S) :=
  match List.find (fun f => String.eqb (f_name f) key) fs with
  | Some f => Some f
  | None => List.find (fun f => String.eqb (fold_name (f_name f)) (fold_name key)) fs
  end.

Fixpoint dec_members {S} (strict : bool) (fs : list (field S)) (p : string) (m : list (string * json)) (s : S)
  (e : option saved) : outcome S :=
  match m with
  | [] => Done s e
  | (k, v) :: m =>
      match resolve fs k with
      | None => dec_members strict fs p m s (if strict then first_saved e (Some (Unknown k)) else e)
      | Some f =>
          match f_dec f (joinPath p (f_name f)) v s with
          | Done s' e' => dec_members strict fs p m s' (first_saved e e')
          | Abort => Abort
          end
      end
  end.

Definition dec_struct {S} (strict : bool) (fs : list (field S)) : decoder S := fun p v old =>
  match v with
  | JObj m => dec_members strict fs p m old None
  | JNull => Done old None
  | _ => mismatch p old
  end.

(** ** Documents *)

(** What follows the first value of the input: nothing, something that starts
    with a JSON token, or something that does not. *)
Inductive trailing := Nothing | Token | NoToken.

Inductive document := Malformed | Doc (v : json) (rest : trailing).

(** Decoding into an untyped value: of the members with one name the last. *)
Fixpoint tree_of (v : json) : json :=
  match v with
  | JObj m => JObj (last_wins (map (fun kv => (kv.1, tree_of kv.2)) m))
  | JArr l => JArr (map tree_of l)
  | _ => v
  end.

(** ** Lemmas *)

Lemma dec_members_err {S} strict (fs : list (field S)) p m : forall s e s',
  dec_members strict fs p m s e = Done s' None -> e = None.
Proof.
  induction m as [|[k v] m IH]; intros s e s'; [by intros [= _ ->]|]. cbn [dec_members].
  destruct (resolve fs k) as [f|].
  - destruct (f_dec f _ v s) as [s1 e1|]; [|done]. intros H%IH. by destruct e.
  - intros H%IH. by destruct e, strict.
Qed.

(** A strict decoder that reports nothing has found a field for every key and
    no mismatch in any value. *)
Lemma dec_members_cons {S} (fs : list (field S)) p k v m s s' :
  dec_members true fs p ((k, v) :: m) s None = Done s' None ->
  exists f s1, resolve fs k = Some f /\ f_dec f (joinPath p (f_name f)) v s = Done s1 None /\
    dec_members true fs p m s1 None = Done s' None.
Proof.
  cbn [dec_members]. destruct (resolve fs k) as [f|]; [|by intros H%dec_members_err].
  destruct (f_dec f _ v s) as [s1 e1|] eqn:H1; [|done]. intros H. pose proof (dec_members_err _ _ _ _ _ _ _ H) as He.
  simpl in He. subst e1. by exists f, s1.
Qed.

(** An induction over the members a strict decoder accepts. *)
Lemma dec_members_ind {S} (fs : list (field S)) p (P : S -> Prop) m : forall s s',
  dec_members true fs p m s None = Done s' None -> P s ->
  (forall k v f s1 s2, In (k, v) m -> resolve fs k = Some f -> P s1 ->
    f_dec f (joinPath p (f_name f)) v s1 = Done s2 None -> P s2) -> P s'.
Proof.
  induction m as [|[k v] m IH]; intros s s' H Hs Hk; [by injection H as <-|].
  apply dec_members_cons in H as (f & s1 & Hr & H1 & H). apply (IH s1 s' H).
  - eapply Hk; [by left|exact Hr|exact Hs|exact H1].
  - intros k' v' f' s2 s3 Hin. apply Hk. by right.
Qed.

Lemma dec_members_known {S} (fs : list (field S)) p m : forall s s',
  dec_members true fs p m s None = Done s' None -> Forall (fun kv => is_Some (resolve fs kv.1)) m.
Proof.
  induction m as [|[k v] m IH]; intros s s' H; [done|]. apply dec_members_cons in H as (f & s1 & Hr & _ & H).
  constructor; [by exists f|]. by eapply IH.
Qed.

Lemma resolve_In {S} (fs : list (field S)) k f : resolve fs k = Some f -> In f fs.
Proof.
  unfold resolve. destruct (List.find _ fs) as [g|] eqn:H.
  - intros [= <-]. by apply List.find_some in H as [? _].
  - intros H2. by apply List.find_some in H2 as [? _].
Qed.

(** ** Invariants of decoded values *)

(** What decodes without an error keeps [Q]. *)
Definition keeps {A} (Q : A -> Prop) (d : decoder A) : Prop := forall p v old x, Q old -> d p v old = Done x None -> Q x.

Definition field_keeps {S} (P : S -> Prop) (f : field S) : Prop := keeps P (f_dec f).

Lemma keeps_any {A} (d : decoder A) : keeps (fun _ => True) d.
Proof. done. Qed.

Lemma keeps_fld {S A} (P : S -> Prop) (Q : A -> Prop) name get set d :
  keeps Q d -> (forall s, P s -> Q (get s)) -> (forall x s, Q x -> P s -> P (set x s)) -> field_keeps P (fld name get set d).
Proof.
  intros Hd Hg Hs p v old x Hp H. cbn in H. destruct (d p v (get old)) as [y e|] eqn:Hy; [|done].
  injection H as <- ->. eauto.
Qed.

(** A field that [P] does not depend on. *)
Lemma keeps_fld_any {S A} (P : S -> Prop) name (get : S -> A) set d :
  (forall x s, P s -> P (set x s)) -> field_keeps P (fld name get set d).
Proof. intros Hs. apply (keeps_fld P (fun _ => True)); auto using keeps_any. Qed.

Lemma keeps_struct {S} (P : S -> Prop) fs : Forall (field_keeps P) fs -> keeps P (dec_struct true fs).
Proof.
  intros Hf p v old x Hp H. destruct v; try done; [by injection H as <-|]. cbn [dec_struct] in H.
  apply (dec_members_ind fs p P m old x H Hp). intros k v f s1 s2 _ Hr%resolve_In Hs1 H1.
  rewrite Forall_forall in Hf. eapply Hf; [by apply list_elem_of_In|exact Hs1|exact H1].
Qed.

Definition on_some {A} (Q : A -> Prop) (o : option A) : Prop := match o with Some x => Q x | None => True end.

Lemma keeps_ptr {A} (Q : A -> Prop) zero d : Q zero -> keeps Q d -> keeps (on_some Q) (dec_ptr zero d).
Proof.
  intros Hz Hd p v old x Ho H. unfold dec_ptr in H.
  assert (Hq : Q (default zero old)) by (by destruct old).
  destruct v; try (destruct (d p _ (default zero old)) as [y e|] eqn:Hy; [|done]; injection H as <- ->; by apply (Hd _ _ _ _ Hq Hy)).
  by injection H as <-.
Qed.

Definition int64_range (n : Z) : Prop := - 2 ^ 63 <= n < 2 ^ 63.

Lemma Atoi_range lit n : Atoi lit = Some n -> int64_range n.
Proof.
  unfold Atoi. destruct (match lit with String "-" s => _ | _ => _ end) as [neg s].
  destruct (digits s 0 0) as [[v k] rest]. destruct (_ && _) eqn:H; [|done]. intros [= <-].
  unfold int64_range. bool_arith. lia.
Qed.

Lemma keeps_int : keeps int64_range dec_int.
Proof.
  intros p v old x Ho H. destruct v; try done; [by injection H as <-|]. cbn in H.
  destruct (Atoi lit) as [n|] eqn:Hn; [|done]. injection H as <-. by eapply Atoi_range.
Qed.

Lemma keeps_method {A} (Q : A -> Prop) f : (forall v x, f v = Some x -> Q x) -> keeps Q (dec_method f).
Proof.
  intros Hf p v old x _ H. unfold dec_method in H. destruct (f v) as [y|] eqn:Hy; [|discriminate].
  injection H as <-. exact (Hf _ _ Hy).
Qed.
