(* ===== verification/ConfigDecode.v ===== *)
(** * Decoding the runtime configuration ([internal/config/decode.go])

    The decoders of the runtime configuration, which the store and the Admin API
    read their documents with, over [StrictJson]: the fields of each struct with
    their tags, the [UnmarshalJSON] and [MarshalJSON] methods, and
    [MarshalRuntimeConfig], which the state file is written with.

    An error names a field, or none ([OtherErr]). [Quote] is what [strconv.Quote]
    writes between the quotation marks, [FormatFloat] the text of a float. Of
    several objects with the key an error looks for, the first in the order of
    the members is named; Go's order is not specified.

    Shown: a configuration that was decoded and validated is read back exactly
    from the text it is stored as; an accepted document has only known fields,
    and what it does not mention is the default; garbage after a document is not
    noticed, and the field an error names can be another one. *)

From S2P Require Export StrictJson.
From S2P Require Import Wire.
From Stdlib Require Import QArith Ascii.
#[local] Open Scope string_scope.
#[local] Open Scope Z_scope.

(** ** [UnmarshalJSON] methods *)

Definition UnmarshalMaxOutputTokens (v : json) : option MaxOutputTokens :=
  match v with
  | JStr s => if String.eqb s "inf" then Some (MkMaxOutputTokens true 0) else None
  | JNum lit => n ← Atoi lit; Some (MkMaxOutputTokens false n)
  | _ => None
  end.

(** The object form, decoded without [DisallowUnknownFields]. *)
Definition toolChoice_fields : list (field (string * string)) :=
  [fld "type" fst (fun x s => (x, s.2)) dec_string; fld "name" snd (fun x s => (s.1, x)) dec_string].

Definition UnmarshalToolChoice (v : json) : option ToolChoice :=
  match v with
  | JStr s => Some (MkToolChoice s EmptyString)
  | JNull => Some (MkToolChoice EmptyString EmptyString)
  | _ =>
      match dec_struct false toolChoice_fields EmptyString v (EmptyString, EmptyString) with
      | Done (t, n) None => Some (MkToolChoice t n)
      | _ => None
      end
  end.

(** ** The structs *)

Definition no_transcription : Transcription := MkTranscription EmptyString EmptyString EmptyString.
Definition no_turn_detection : TurnDetection := MkTurnDetection EmptyString None None None None false false.

Definition transcription_fields : list (field Transcription) :=
  [fld "model" Tr_Model (fun x s => MkTranscription x (Tr_Language s) (Tr_Prompt s)) dec_string;
   fld "language" Tr_Language (fun x s => MkTranscription (Tr_Model s) x (Tr_Prompt s)) dec_string;
   fld "prompt" Tr_Prompt (fun x s => MkTranscription (Tr_Model s) (Tr_Language s) x) dec_string].


Definition turn_detection_fields : list (field TurnDetection) :=
  [fld "type" TD_Type (fun x s => MkTurnDetection x (TD_Threshold s) (TD_PrefixPaddingMs s) (TD_SilenceDurationMs s) (TD_Eagerness s) (CreateResponse s) (InterruptResponse s)) dec_string;
   fld "threshold" TD_Threshold (fun x s => MkTurnDetection (TD_Type s) x (TD_PrefixPaddingMs s) (TD_SilenceDurationMs s) (TD_Eagerness s) (CreateResponse s) (InterruptResponse s)) (dec_ptr (0#1)%Q dec_float);
   fld "prefix_padding_ms" TD_PrefixPaddingMs (fun x s => MkTurnDetection (TD_Type s) (TD_Threshold s) x (TD_SilenceDurationMs s) (TD_Eagerness s) (CreateResponse s) (InterruptResponse s)) (dec_ptr 0 dec_int);
   fld "silence_duration_ms" TD_SilenceDurationMs (fun x s => MkTurnDetection (TD_Type s) (TD_Threshold s) (TD_PrefixPaddingMs s) x (TD_Eagerness s) (CreateResponse s) (InterruptResponse s)) (dec_ptr 0 dec_int);
   fld "eagerness" TD_Eagerness (fun x s => MkTurnDetection (TD_Type s) (TD_Threshold s) (TD_PrefixPaddingMs s) (TD_SilenceDurationMs s) x (CreateResponse s) (InterruptResponse s)) (dec_ptr EmptyString dec_string);
   fld "create_response" CreateResponse (fun x s => MkTurnDetection (TD_Type s) (TD_Threshold s) (TD_PrefixPaddingMs s) (TD_SilenceDurationMs s) (TD_Eagerness s) x (InterruptResponse s)) dec_bool;
   fld "interrupt_response" InterruptResponse (fun x s => MkTurnDetection (TD_Type s) (TD_Threshold s) (TD_PrefixPaddingMs s) (TD_SilenceDurationMs s) (TD_Eagerness s) (CreateResponse s) x) dec_bool].


Definition provider_fields : list (field ProviderInstance) :=
  [fld "name" PI_Name (fun x s => MkProviderInstance x (PI_Type s) (PI_APIKey s) (PI_Options s)) dec_string;
   fld "type" PI_Type (fun x s => MkProviderInstance (PI_Name s) x (PI_APIKey s) (PI_Options s)) dec_string;
   fld "api_key" PI_APIKey (fun x s => MkProviderInstance (PI_Name s) (PI_Type s) x (PI_Options s)) dec_string;
   fld "options" PI_Options (fun x s => MkProviderInstance (PI_Name s) (PI_Type s) (PI_APIKey s) x) dec_raw].


Definition profile_fields : list (field Profile) :=
  [fld "name" P_Name (fun x s => MkProfile x (P_ASR s) (P_LLM s) (P_TTS s) (P_Instructions s) (P_Temperature s) (P_MaxOutputTokens s) (P_OutputModalities s) (P_Voice s) (P_Speed s) (P_ASRLanguage s) (P_ASRModel s) (P_Transcription s) (P_TurnDetection s) (P_ToolChoice s)) dec_string;
   fld "asr" P_ASR (fun x s => MkProfile (P_Name s) x (P_LLM s) (P_TTS s) (P_Instructions s) (P_Temperature s) (P_MaxOutputTokens s) (P_OutputModalities s) (P_Voice s) (P_Speed s) (P_ASRLanguage s) (P_ASRModel s) (P_Transcription s) (P_TurnDetection s) (P_ToolChoice s)) dec_string;
   fld "llm" P_LLM (fun x s => MkProfile (P_Name s) (P_ASR s) x (P_TTS s) (P_Instructions s) (P_Temperature s) (P_MaxOutputTokens s) (P_OutputModalities s) (P_Voice s) (P_Speed s) (P_ASRLanguage s) (P_ASRModel s) (P_Transcription s) (P_TurnDetection s) (P_ToolChoice s)) dec_string;
   fld "tts" P_TTS (fun x s => MkProfile (P_Name s) (P_ASR s) (P_LLM s) x (P_Instructions s) (P_Temperature s) (P_MaxOutputTokens s) (P_OutputModalities s) (P_Voice s) (P_Speed s) (P_ASRLanguage s) (P_ASRModel s) (P_Transcription s) (P_TurnDetection s) (P_ToolChoice s)) dec_string;
   fld "instructions" P_Instructions (fun x s => MkProfile (P_Name s) (P_ASR s) (P_LLM s) (P_TTS s) x (P_Temperature s) (P_MaxOutputTokens s) (P_OutputModalities s) (P_Voice s) (P_Speed s) (P_ASRLanguage s) (P_ASRModel s) (P_Transcription s) (P_TurnDetection s) (P_ToolChoice s)) dec_string;
   fld "temperature" P_Temperature (fun x s => MkProfile (P_Name s) (P_ASR s) (P_LLM s) (P_TTS s) (P_Instructions s) x (P_MaxOutputTokens s) (P_OutputModalities s) (P_Voice s) (P_Speed s) (P_ASRLanguage s) (P_ASRModel s) (P_Transcription s) (P_TurnDetection s) (P_ToolChoice s)) (dec_ptr (0#1)%Q dec_float);
   fld "max_output_tokens" P_MaxOutputTokens (fun x s => MkProfile (P_Name s) (P_ASR s) (P_LLM s) (P_TTS s) (P_Instructions s) (P_Temperature s) x (P_OutputModalities s) (P_Voice s) (P_Speed s) (P_ASRLanguage s) (P_ASRModel s) (P_Transcription s) (P_TurnDetection s) (P_ToolChoice s)) (dec_method UnmarshalMaxOutputTokens);
   fld "output_modalities" P_OutputModalities (fun x s => MkProfile (P_Name s) (P_ASR s) (P_LLM s) (P_TTS s) (P_Instructions s) (P_Temperature s) (P_MaxOutputTokens s) x (P_Voice s) (P_Speed s) (P_ASRLanguage s) (P_ASRModel s) (P_Transcription s) (P_TurnDetection s) (P_ToolChoice s)) dec_strings;
   fld "voice" P_Voice (fun x s => MkProfile (P_Name s) (P_ASR s) (P_LLM s) (P_TTS s) (P_Instructions s) (P_Temperature s) (P_MaxOutputTokens s) (P_OutputModalities s) x (P_Speed s) (P_ASRLanguage s) (P_ASRModel s) (P_Transcription s) (P_TurnDetection s) (P_ToolChoice s)) dec_string;
   fld "speed" P_Speed (fun x s => MkProfile (P_Name s) (P_ASR s) (P_LLM s) (P_TTS s) (P_Instructions s) (P_Temperature s) (P_MaxOutputTokens s) (P_OutputModalities s) (P_Voice s) x (P_ASRLanguage s) (P_ASRModel s) (P_Transcription s) (P_TurnDetection s) (P_ToolChoice s)) dec_float;
   fld "asr_language" P_ASRLanguage (fun x s => MkProfile (P_Name s) (P_ASR s) (P_LLM s) (P_TTS s) (P_Instructions s) (P_Temperature s) (P_MaxOutputTokens s) (P_OutputModalities s) (P_Voice s) (P_Speed s) x (P_ASRModel s) (P_Transcription s) (P_TurnDetection s) (P_ToolChoice s)) dec_string;
   fld "asr_model" P_ASRModel (fun x s => MkProfile (P_Name s) (P_ASR s) (P_LLM s) (P_TTS s) (P_Instructions s) (P_Temperature s) (P_MaxOutputTokens s) (P_OutputModalities s) (P_Voice s) (P_Speed s) (P_ASRLanguage s) x (P_Transcription s) (P_TurnDetection s) (P_ToolChoice s)) dec_string;
   fld "transcription" P_Transcription (fun x s => MkProfile (P_Name s) (P_ASR s) (P_LLM s) (P_TTS s) (P_Instructions s) (P_Temperature s) (P_MaxOutputTokens s) (P_OutputModalities s) (P_Voice s) (P_Speed s) (P_ASRLanguage s) (P_ASRModel s) x (P_TurnDetection s) (P_ToolChoice s)) (dec_ptr no_transcription (dec_struct true transcription_fields));
   fld "turn_detection" P_TurnDetection (fun x s => MkProfile (P_Name s) (P_ASR s) (P_LLM s) (P_TTS s) (P_Instructions s) (P_Temperature s) (P_MaxOutputTokens s) (P_OutputModalities s) (P_Voice s) (P_Speed s) (P_ASRLanguage s) (P_ASRModel s) (P_Transcription s) x (P_ToolChoice s)) (dec_ptr no_turn_detection (dec_struct true turn_detection_fields));
   fld "tool_choice" P_ToolChoice (fun x s => MkProfile (P_Name s) (P_ASR s) (P_LLM s) (P_TTS s) (P_Instructions s) (P_Temperature s) (P_MaxOutputTokens s) (P_OutputModalities s) (P_Voice s) (P_Speed s) (P_ASRLanguage s) (P_ASRModel s) (P_Transcription s) (P_TurnDetection s) x) (dec_method UnmarshalToolChoice)].


(** [Settings] has one field. *)
Definition settings_fields : list (field string) := [fld "default_profile" (fun s => s) (fun x _ => x) dec_string].

(** The struct [DecodeRuntimeConfig] reads a document into. *)
Record runtimeDoc := MkRuntimeDoc {
  doc_Providers : gmap string json;
  doc_Profiles : gmap string json;
  doc_Settings : string
}.

Definition runtime_fields : list (field runtimeDoc) :=
  [fld "providers" doc_Providers (fun x s => MkRuntimeDoc x (doc_Profiles s) (doc_Settings s)) dec_raws;
   fld "profiles" doc_Profiles (fun x s => MkRuntimeDoc (doc_Providers s) x (doc_Settings s)) dec_raws;
   fld "settings" doc_Settings (fun x s => MkRuntimeDoc (doc_Providers s) (doc_Profiles s) x)
     (dec_struct true settings_fields)].

(** ** Errors *)

Inductive cfgErr := FieldErr (e : FieldError) | OtherErr.

#[export] Instance cfgErr_eq_dec : EqDecision cfgErr.
Proof. solve_decision. Defined.

Definition field_err (f : string) : cfgErr := FieldErr {| Field := f |}.

Definition orRoot (f : string) : string := if String.eqb f EmptyString then "(root)" else f.

(** Over a tree: its objects have no two members with one name. *)
Fixpoint findKeyPath (node : json) (p name : string) : option string :=
  match node with
  | JObj m =>
      if existsb (fun kv => String.eqb kv.1 name) m then Some (joinPath p name)
      else (fix go (l : list (string * json)) : option string :=
              match l with
              | [] => None
              | (k, child) :: l =>
                  match findKeyPath child (joinPath p k) name with Some q => Some q | None => go l end
              end) m
  | JArr l =>
      (fix go (i : nat) (l : list json) : option string :=
         match l with
         | [] => None
         | child :: l =>
             match findKeyPath child (index_path p i) name with Some q => Some q | None => go (S i) l end
         end) 0%nat l
  | _ => None
  end.

(** The text up to a quotation mark. *)
Fixpoint before_quote (s : string) : string :=
  match s with
  | String c s => if Ascii.eqb c (byte 34) then EmptyString else String c (before_quote s)
  | EmptyString => EmptyString
  end.

Definition prefixFieldError (e : cfgErr) (prefix : string) : cfgErr :=
  match e with
  | FieldErr fe => if String.eqb prefix EmptyString then e else field_err (joinPath prefix (Field fe))
  | OtherErr => e
  end.

Section decode.
Context (Quote : string -> string).

(** The key [unknownFieldRe] reads out of the message; [None]: no match. *)
Definition unknown_name (key : string) : option string :=
  let name := before_quote (Quote key) in if String.eqb name EmptyString then None else Some name.

Definition decodeError (e : saved) (tree : json) : cfgErr :=
  match e with
  | Unknown key =>
      match unknown_name key with
      | Some name => field_err (default name (findKeyPath tree EmptyString name))
      | None => OtherErr
      end
  | Mismatch p => field_err (orRoot p)
  end.

Definition strictDecode {S} (d : decoder S) (raw : document) (f : string) (into : S) : S + cfgErr :=
  match raw with
  | Malformed | Doc _ Token => inr (field_err (orRoot f))
  | Doc v _ =>
      match v with
      | JObj _ =>
          match d EmptyString v into with
          | Done s None => inl s
          | Done _ (Some e) => inr (prefixFieldError (decodeError e (tree_of v)) f)
          | Abort => inr OtherErr
          end
      | _ => inr (field_err (orRoot f))
      end
  end.

Definition no_provider : ProviderInstance := MkProviderInstance EmptyString EmptyString EmptyString None.

Definition DecodeProviderInstance (raw : document) (f name : string) : ProviderInstance + cfgErr :=
  match strictDecode (dec_struct true provider_fields) raw f no_provider with
  | inl p =>
      inl (if String.eqb (PI_Name p) EmptyString then MkProviderInstance name (PI_Type p) (PI_APIKey p) (PI_Options p) else p)
  | inr e => inr e
  end.

Definition rename_profile (name : string) (p : Profile) : Profile :=
  MkProfile name (P_ASR p) (P_LLM p) (P_TTS p) (P_Instructions p) (P_Temperature p) (P_MaxOutputTokens p)
    (P_OutputModalities p) (P_Voice p) (P_Speed p) (P_ASRLanguage p) (P_ASRModel p) (P_Transcription p)
    (P_TurnDetection p) (P_ToolChoice p).

Definition default_detection (p : Profile) : Profile :=
  MkProfile (P_Name p) (P_ASR p) (P_LLM p) (P_TTS p) (P_Instructions p) (P_Temperature p) (P_MaxOutputTokens p)
    (P_OutputModalities p) (P_Voice p) (P_Speed p) (P_ASRLanguage p) (P_ASRModel p) (P_Transcription p)
    (option_map ApplyDefaults (P_TurnDetection p)) (P_ToolChoice p).

Definition DecodeProfile (raw : document) (f name : string) : Profile + cfgErr :=
  match strictDecode (dec_struct true profile_fields) raw f DefaultProfile with
  | inl p => inl (default_detection (if String.eqb (P_Name p) EmptyString then rename_profile name p else p))
  | inr e => inr e
  end.

Definition DecodeSettings (raw : document) (f : string) : string + cfgErr :=
  strictDecode (dec_struct true settings_fields) raw f EmptyString.

(** Over the members of a map; the first error ends it. *)
Fixpoint decode_all {A} (d : string -> json -> A + cfgErr) (l : list (string * json)) : gmap string A + cfgErr :=
  match l with
  | [] => inl ∅
  | (name, body) :: l =>
      match d name body with
      | inr e => inr e
      | inl x => match decode_all d l with inl m => inl (<[name := x]> m) | inr e => inr e end
      end
  end.

Definition DecodeRuntimeConfig (raw : document) (f : string) : RuntimeConfig + cfgErr :=
  match strictDecode (dec_struct true runtime_fields) raw f (MkRuntimeDoc ∅ ∅ EmptyString) with
  | inr e => inr e
  | inl doc =>
      match decode_all (fun name body =>
              DecodeProviderInstance (Doc body Nothing) (joinPath f ("providers." ++ name)) name)
              (map_to_list (doc_Providers doc)) with
      | inr e => inr e
      | inl ps =>
          match decode_all (fun name body =>
                  DecodeProfile (Doc body Nothing) (joinPath f ("profiles." ++ name)) name)
                  (map_to_list (doc_Profiles doc)) with
          | inr e => inr e
          | inl qs => inl {| Providers := ps; Profiles := qs; DefaultProfileName := doc_Settings doc |}
          end
      end
  end.
End decode.

(** ** Encoding *)

Section encode.
Context (FormatFloat : float64 -> string).

Definition omit {A} (k : string) (enc : A -> json) (o : option A) : list (string * json) :=
  match o with Some x => [(k, enc x)] | None => [] end.

Definition nullable {A} (enc : A -> json) (o : option A) : json := match o with Some x => enc x | None => JNull end.

Definition transcription_doc (t : Transcription) : json :=
  JObj (fomit "model" (Tr_Model t) ++ fomit "language" (Tr_Language t) ++ fomit "prompt" (Tr_Prompt t)).

Definition turnDetection_doc (td : TurnDetection) : json :=
  JObj (fstr "type" (TD_Type td) ++ omit "threshold" (fun f => JNum (FormatFloat f)) (TD_Threshold td) ++
        omit "prefix_padding_ms" JInt (TD_PrefixPaddingMs td) ++ omit "silence_duration_ms" JInt (TD_SilenceDurationMs td) ++
        omit "eagerness" JStr (TD_Eagerness td) ++ fbool "create_response" (CreateResponse td) ++
        fbool "interrupt_response" (InterruptResponse td)).

Definition provider_doc (p : ProviderInstance) : json :=
  JObj (fstr "name" (PI_Name p) ++ fstr "type" (PI_Type p) ++ fstr "api_key" (PI_APIKey p) ++
        omit "options" (fun v => v) (PI_Options p)).

Definition profile_doc (p : Profile) : json :=
  JObj (fstr "name" (P_Name p) ++ fstr "asr" (P_ASR p) ++ fstr "llm" (P_LLM p) ++ fstr "tts" (P_TTS p) ++
        fstr "instructions" (P_Instructions p) ++ omit "temperature" (fun f => JNum (FormatFloat f)) (P_Temperature p) ++
        [("max_output_tokens", maxTokens_json (P_MaxOutputTokens p));
         ("output_modalities", JArr (map JStr (P_OutputModalities p)))] ++
        fstr "voice" (P_Voice p) ++ [("speed", JNum (FormatFloat (P_Speed p)))] ++
        fstr "asr_language" (P_ASRLanguage p) ++ fstr "asr_model" (P_ASRModel p) ++
        [("transcription", nullable transcription_doc (P_Transcription p));
         ("turn_detection", nullable turnDetection_doc (P_TurnDetection p));
         ("tool_choice", toolChoice_json (P_ToolChoice p))]).

(** A map is written in the order of its keys. *)
Definition map_doc {A} (enc : A -> json) (m : gmap string A) : json :=
  JObj (omap (fun k => x ← m !! k; Some (k, enc x)) (sortedKeys m)).

Definition MarshalRuntimeConfig (c : RuntimeConfig) : document :=
  Doc (JObj [("providers", map_doc provider_doc (Providers c)); ("profiles", map_doc profile_doc (Profiles c));
             ("settings", JObj (fstr "default_profile" (DefaultProfileName c)))]) Nothing.
End encode.

(** ** The form of decoded values *)

Definition max_tokens_form (t : MaxOutputTokens) : Prop := int64_range (Config.N t) /\ (Inf t = true -> Config.N t = 0).

Definition detection_form (td : TurnDetection) : Prop :=
  on_some int64_range (TD_PrefixPaddingMs td) /\ on_some int64_range (TD_SilenceDurationMs td).

Definition profile_form (p : Profile) : Prop :=
  max_tokens_form (P_MaxOutputTokens p) /\ on_some detection_form (P_TurnDetection p).

Lemma max_tokens_decoded v t : UnmarshalMaxOutputTokens v = Some t -> max_tokens_form t.
Proof.
  destruct v; try done; simpl.
  - destruct (Atoi lit) as [n|] eqn:Hn; [|done]. intros [= <-]. split; [by eapply Atoi_range|done].
  - destruct (String.eqb s "inf"); [|done]. by intros [= <-].
Qed.

Lemma keeps_detection : keeps detection_form (dec_struct true turn_detection_fields).
Proof.
  apply keeps_struct. repeat apply Forall_cons_2; try apply Forall_nil_2;
    try (apply keeps_fld_any; intros x [] [? ?]; by split).
  - apply (keeps_fld _ (on_some int64_range)); [by apply keeps_ptr; [|apply keeps_int]|by intros s [? ?]|].
    intros x [] ? [? ?]. by split.
  - apply (keeps_fld _ (on_some int64_range)); [by apply keeps_ptr; [|apply keeps_int]|by intros s [? ?]|].
    intros x [] ? [? ?]. by split.
Qed.

Lemma keeps_profile : keeps profile_form (dec_struct true profile_fields).
Proof.
  apply keeps_struct. repeat apply Forall_cons_2; try apply Forall_nil_2;
    try (apply keeps_fld_any; intros x [] [? ?]; by split).
  - apply (keeps_fld _ max_tokens_form); [apply keeps_method, max_tokens_decoded|by intros s [? ?]|].
    intros x [] ? [? ?]. by split.
  - apply (keeps_fld _ (on_some detection_form)); [apply keeps_ptr; [done|apply keeps_detection]|by intros s [? ?]|].
    intros x [] ? [? ?]. by split.
Qed.

Lemma default_detection_form p : profile_form p -> profile_form (default_detection p).
Proof.
  intros [Hm Hd]. split; [done|]. destruct p as [? ? ? ? ? ? ? ? ? ? ? ? ? [td|] ?]; [|done]. simpl in *.
  destruct Hd as [Hp Hs]. unfold ApplyDefaults. destruct td as [ty th [pp|] [sd|] eg cr ir]; simpl in *;
    repeat case_bool_decide; split; simpl; try done; unfold DefaultVADPrefixPaddingMs, DefaultVADSilenceDurationMs; done.
Qed.

Lemma strictDecode_keeps {S} Quote (P : S -> Prop) d raw f s0 s :
  keeps P d -> P s0 -> strictDecode Quote d raw f s0 = inl s -> P s.
Proof.
  intros Hd Hs H. unfold strictDecode in H. destruct raw as [|v []]; try done; destruct v as [| | | | |m]; try done;
    (destruct (d _ _ _) as [s1 [e|]|] eqn:H1; [done| |done]); injection H as <-; by eapply Hd.
Qed.

Lemma DecodeProfile_form Quote raw f name p : DecodeProfile Quote raw f name = inl p -> profile_form p.
Proof.
  unfold DecodeProfile. destruct (strictDecode _ _ _ _ _) as [q|] eqn:H; [|done]. intros [= <-].
  apply (strictDecode_keeps _ profile_form) in H; [|apply keeps_profile|done].
  apply default_detection_form. by destruct (String.eqb _ _).
Qed.

(** ** Maps *)

Lemma decode_all_lookup {A} (d : string -> json -> A + cfgErr) l m : NoDup l.*1 -> decode_all d l = inl m ->
  forall k, (forall x, m !! k = Some x <-> exists b, (k, b) ∈ l /\ d k b = inl x).
Proof.
  revert m. induction l as [|[k' b'] l IH]; intros m; cbn [fmap list_fmap fst]; intros Hn H k x.
  - injection H as <-. rewrite lookup_empty. split; [done|]. intros (b & Hb & _). by apply elem_of_nil in Hb.
  - apply NoDup_cons in Hn as [Hk Hn]. cbn [decode_all] in H. destruct (d k' b') as [y|e] eqn:Hd; [|done].
    destruct (decode_all d l) as [m'|] eqn:Hm; [|done]. injection H as <-. specialize (IH m' Hn eq_refl k x).
    destruct (decide (k' = k)) as [->|Hne].
    + rewrite lookup_insert_eq. split.
      * intros [= ->]. exists b'. split; [by left|done].
      * intros (b & [[= ->]|Hb]%elem_of_cons & Hx); [congruence|]. destruct Hk. apply list_elem_of_fmap. by exists (k, b).
    + rewrite lookup_insert_ne by done. rewrite IH. split; intros (b & Hb & Hx); exists b; (split; [|done]).
      * by right.
      * apply elem_of_cons in Hb as [[= -> ->]|Hb]; done.
Qed.

Lemma decode_all_total {A} (d : string -> json -> A + cfgErr) l :
  (forall k b, (k, b) ∈ l -> exists x, d k b = inl x) -> exists m, decode_all d l = inl m.
Proof.
  induction l as [|[k b] l IH]; intros H; [by eexists|]. cbn [decode_all].
  destruct (H k b) as [x ->]; [by left|]. destruct IH as [m ->]; [intros; apply H; by right|]. by eexists.
Qed.

(** A map written out and decoded value by value. *)
Lemma decode_all_map {A} (enc : A -> json) (d : string -> json -> A + cfgErr) (m m' : gmap string A) :
  (forall k x, m !! k = Some x -> exists x', m' !! k = Some x' /\ d k (enc x) = inl x') ->
  (forall k, is_Some (m' !! k) -> is_Some (m !! k)) ->
  decode_all d (map_to_list (enc <$> m)) = inl m'.
Proof.
  intros H Hdom.
  assert (Hin : forall k b, (k, b) ∈ map_to_list (enc <$> m) <-> exists x, m !! k = Some x /\ b = enc x).
  { intros k b. rewrite elem_of_map_to_list, lookup_fmap_Some. naive_solver. }
  destruct (decode_all_total d (map_to_list (enc <$> m))) as [r Hr].
  { intros k b Hkb. apply Hin in Hkb as (x & Hx & ->). destruct (H k x Hx) as (x' & _ & ?). by exists x'. }
  rewrite Hr. f_equal. pose proof (decode_all_lookup d _ r (NoDup_fst_map_to_list _) Hr) as Hl.
  apply map_eq. intros k. apply option_eq. intros x. rewrite Hl. split.
  - intros (b & Hb & Hx). apply Hin in Hb as (y & Hy & ->). destruct (H k y Hy) as (x' & Hx' & E). congruence.
  - intros Hx. destruct (Hdom k) as [y Hy]; [by eexists|]. destruct (H k y Hy) as (x' & Hx' & E).
    exists (enc y). split; [apply Hin; by exists y|]. congruence.
Qed.

Lemma foldl_insert_lookup (l : list (string * json)) : NoDup l.*1 -> forall (acc : gmap string json) k,
  foldl (fun acc kv => <[kv.1 := kv.2]> acc) acc l !! k =
  match List.find (fun kv => String.eqb kv.1 k) l with Some kv => Some kv.2 | None => acc !! k end.
Proof.
  induction l as [|[k' v] l IH]; intros Hn acc k; [done|]. apply NoDup_cons in Hn as [Hk Hn]. cbn [foldl List.find fst snd].
  rewrite IH by done. destruct (String.eqb_spec k' k) as [->|Hne].
  - destruct (List.find _ l) as [kv|] eqn:Hf; [|by rewrite lookup_insert_eq]. exfalso. apply Hk.
    apply List.find_some in Hf as [Hin Heq%String.eqb_eq]. subst k. apply list_elem_of_fmap. exists kv.
    split; [done|]. by apply list_elem_of_In.
  - by rewrite lookup_insert_ne.
Qed.

Definition map_members {A} (enc : A -> json) (m : gmap string A) : list (string * json) :=
  omap (fun k => x ← m !! k; Some (k, enc x)) (sortedKeys m).

Lemma map_members_keys {A} (enc : A -> json) (m : gmap string A) : NoDup (map_members enc m).*1.
Proof.
  assert (Hn : NoDup (sortedKeys m)) by (unfold sortedKeys; rewrite merge_sort_Permutation; apply NoDup_fst_map_to_list).
  unfold map_members. induction Hn as [|k l Hk _ IH]; [constructor|]. cbn [omap list_omap].
  destruct (m !! k) as [x|] eqn:Hx; [|done]. cbn. constructor; [|done].
  intros ([k' v] & E & Hin)%list_elem_of_fmap. simpl in E. subst k'.
  apply list_elem_of_omap in Hin as (k' & Hin & E). destruct (m !! k') as [y|]; [|done]. by injection E as -> _.
Qed.

Lemma dec_map_doc {A} (enc : A -> json) (m : gmap string A) p : dec_raws p (map_doc enc m) ∅ = Done (enc <$> m) None.
Proof.
  cbn [dec_raws map_doc]. f_equal. fold (map_members enc m). apply map_eq. intros k.
  rewrite foldl_insert_lookup by apply map_members_keys. rewrite lookup_fmap, lookup_empty.
  destruct (List.find _ _) as [[k' v]|] eqn:Hf.
  - apply List.find_some in Hf as [Hin Heq%String.eqb_eq]. simpl in Heq. subst k'.
    apply list_elem_of_In, list_elem_of_omap in Hin as (k' & _ & E). destruct (m !! k') as [x|] eqn:Hx; [|done].
    injection E as <- <-. by rewrite Hx.
  - destruct (m !! k) as [x|] eqn:Hx; [|done]. exfalso.
    assert (Hin : (k, enc x) ∈ map_members enc m).
    { apply list_elem_of_omap. exists k. rewrite Hx. split; [|done]. apply elem_of_sortedKeys. by exists x. }
    apply list_elem_of_In in Hin. pose proof (List.find_none _ _ Hf _ Hin) as Hk. simpl in Hk. by rewrite String.eqb_refl in Hk.
Qed.

(** ** What is read back *)

(** The floats of a profile, and the profile with each in lowest terms: two
    rationals with one value are one float. *)
Definition floats_of (p : Profile) : list float64 :=
  P_Speed p :: match P_Temperature p with Some t => [t] | None => [] end ++
  match P_TurnDetection p with Some td => match TD_Threshold td with Some t => [t] | None => [] end | None => [] end.

Definition canon_detection (td : TurnDetection) : TurnDetection :=
  MkTurnDetection (TD_Type td) (option_map Qred (TD_Threshold td)) (TD_PrefixPaddingMs td) (TD_SilenceDurationMs td)
    (TD_Eagerness td) (CreateResponse td) (InterruptResponse td).

Definition canon (p : Profile) : Profile :=
  MkProfile (P_Name p) (P_ASR p) (P_LLM p) (P_TTS p) (P_Instructions p) (option_map Qred (P_Temperature p))
    (P_MaxOutputTokens p) (P_OutputModalities p) (P_Voice p) (Qred (P_Speed p)) (P_ASRLanguage p) (P_ASRModel p)
    (P_Transcription p) (option_map canon_detection (P_TurnDetection p)) (P_ToolChoice p).

Definition same_config (c c' : RuntimeConfig) : Prop :=
  Providers c = Providers c' /\ canon <$> Profiles c = canon <$> Profiles c' /\ DefaultProfileName c = DefaultProfileName c'.

Section readback.
Context (Quote : string -> string) (FormatFloat : float64 -> string).

Definition reads (f : float64) : Prop := exists g, ParseFloat (FormatFloat f) = Some g /\ (g == f)%Q.

Lemma provider_readback f name p : PI_Name p = name ->
  DecodeProviderInstance Quote (Doc (provider_doc p) Nothing) f name = inl p.
Proof.
  intros <-. destruct p as [n t k [o|]]; unfold DecodeProviderInstance; simpl;
    by destruct (String.eqb_spec n EmptyString) as [->|].
Qed.

(** A profile as decoding and validation leave it. *)
Definition storable (p : Profile) : Prop :=
  profile_form p /\ max_tokens_ok (P_MaxOutputTokens p) /\ Mode (P_ToolChoice p) <> ToolChoiceFunction /\
  Mode (P_ToolChoice p) <> EmptyString /\ TC_Name (P_ToolChoice p) = EmptyString /\
  on_some turn_detection_ok (P_TurnDetection p) /\ Forall reads (floats_of p).

Lemma reads_ptr f p old : reads f -> exists g, dec_ptr (0#1)%Q dec_float p (JNum (FormatFloat f)) old = Done (Some g) None /\ (g == f)%Q.
Proof. intros (g & Hg & He). exists g. split; [|done]. simpl. by rewrite Hg. Qed.

Lemma reads_float f : reads f -> exists g, (forall p old, dec_float p (JNum (FormatFloat f)) old = Done g None) /\ (g == f)%Q.
Proof. intros (g & Hg & He). exists g. split; [|done]. intros p old. simpl. by rewrite Hg. Qed.

Lemma int_ptr n p old : int64_range n -> 0 <= n -> dec_ptr 0 dec_int p (JInt n) old = Done (Some n) None.
Proof. intros Hr Hn. simpl. rewrite Atoi_Itoa by (unfold int64_range in Hr; lia). done. Qed.

Lemma strings_readback p old l : dec_strings p (JArr (map JStr l)) old = Done l None.
Proof.
  simpl. enough (He : dec_elems p old (map JStr l) = (l, None)) by by rewrite He.
  revert old. induction l as [|x l IH]; intros old; [done|]. simpl. by rewrite IH.
Qed.

Lemma transcription_readback p t old : (forall o, old = Some o -> o = no_transcription) ->
  dec_ptr no_transcription (dec_struct true transcription_fields) p (transcription_doc t) old = Done (Some t) None.
Proof.
  intros Ho. assert (Hd : default no_transcription old = no_transcription) by (destruct old; [by apply Ho|done]).
  unfold dec_ptr, transcription_doc, fomit, fstr. rewrite Hd. destruct t as [mo la pr]. cbn [Tr_Model Tr_Language Tr_Prompt].
  destruct (String.eqb_spec mo EmptyString) as [->|?], (String.eqb_spec la EmptyString) as [->|?],
    (String.eqb_spec pr EmptyString) as [->|?]; reflexivity.
Qed.

Lemma detection_readback p td old : turn_detection_ok td -> detection_form td ->
  (forall f, TD_Threshold td = Some f -> reads f) ->
  (forall o, old = Some o -> TD_Threshold o = None /\ TD_PrefixPaddingMs o = None /\ TD_SilenceDurationMs o = None /\ TD_Eagerness o = None) ->
  exists td', dec_ptr no_turn_detection (dec_struct true turn_detection_fields) p (turnDetection_doc FormatFloat td) old =
    Done (Some td') None /\ canon_detection td' = canon_detection td /\ turn_detection_ok td'.
Proof.
  intros Hok [Hp Hs] Hf Ho.
  assert (Hd : exists ty cr ir, default no_turn_detection old = MkTurnDetection ty None None None None cr ir).
  { destruct old as [o|]; [|by eexists _, _, _]. destruct (Ho o eq_refl) as (? & ? & ? & ?). destruct o; simpl in *; subst.
    by eexists _, _, _. }
  destruct Hd as (ty0 & cr0 & ir0 & Hd). unfold dec_ptr, turnDetection_doc. rewrite Hd.
  destruct td as [ty th pp sd eg cr ir]. unfold turn_detection_ok in Hok. simpl in *.
  destruct th as [th|], pp as [pp|], sd as [sd|], eg as [eg|]; try done; simpl in *.
  - destruct Hok as (-> & Ht & Hp0 & Hs0). destruct (Hf th eq_refl) as (g & Hg & He). rewrite Hg.
    rewrite !Atoi_Itoa by (unfold int64_range in *; lia). eexists. split; [reflexivity|]. unfold canon_detection. simpl.
    split; [by rewrite (Qred_complete _ _ He)|]. unfold turn_detection_ok. simpl. rewrite He. done.
  - eexists. split; [reflexivity|]. done.
Qed.

Lemma dec_step {S} (fs : list (field S)) p k v m s f s1 : resolve fs k = Some f ->
  f_dec f (joinPath p (f_name f)) v s = Done s1 None ->
  dec_members true fs p ((k, v) :: m) s None = dec_members true fs p m s1 None.
Proof. intros Hr H. cbn [dec_members]. by rewrite Hr, H. Qed.

Lemma toolChoice_readback tc : Mode tc <> ToolChoiceFunction -> Mode tc <> EmptyString -> TC_Name tc = EmptyString ->
  UnmarshalToolChoice (toolChoice_json tc) = Some tc.
Proof.
  destruct tc as [mo name]. unfold toolChoice_json. simpl. intros Hf He ->.
  destruct (String.eqb_spec mo ToolChoiceFunction) as [|_]; [done|]. by destruct (String.eqb_spec mo EmptyString).
Qed.

Lemma maxTokens_readback t : max_tokens_form t -> max_tokens_ok t -> UnmarshalMaxOutputTokens (maxTokens_json t) = Some t.
Proof.
  intros [Hr Hi] Hok. destruct t as [[|] n]; unfold maxTokens_json, max_tokens_ok in *; simpl in *; [by rewrite Hi|].
  destruct Hok as [|Hok]; [done|]. rewrite Atoi_Itoa by (unfold MaxOutputTokensLimit in *; lia). done.
Qed.

Lemma dec_method_Some {A} (f : json -> option A) v x : f v = Some x -> forall p old, dec_method f p v old = Done x None.
Proof. intros H p old. unfold dec_method. by rewrite H. Qed.

Lemma floats_of_reads p : Forall reads (floats_of p) -> reads (P_Speed p) /\ on_some reads (P_Temperature p) /\
  (forall td f, P_TurnDetection p = Some td -> TD_Threshold td = Some f -> reads f).
Proof.
  unfold floats_of. rewrite Forall_cons, Forall_app. intros (Hs & Ht & Hd). split; [done|]. split.
  - destruct (P_Temperature p); [|done]. by apply Forall_cons_1 in Ht as [? _].
  - intros td f E Ef. rewrite E, Ef in Hd. by apply Forall_cons_1 in Hd as [? _].
Qed.

(** The optional temperature, and what follows it. *)
Lemma temperature_readback o : on_some reads o -> exists o', option_map Qred o' = option_map Qred o /\
  forall s m, P_Temperature s = None ->
    dec_members true profile_fields EmptyString (omit "temperature" (fun f => JNum (FormatFloat f)) o ++ m) s None =
    dec_members true profile_fields EmptyString m (MkProfile (P_Name s) (P_ASR s) (P_LLM s) (P_TTS s) (P_Instructions s) o'
      (P_MaxOutputTokens s) (P_OutputModalities s) (P_Voice s) (P_Speed s) (P_ASRLanguage s) (P_ASRModel s)
      (P_Transcription s) (P_TurnDetection s) (P_ToolChoice s)) None.
Proof.
  destruct o as [t|]; cbn [on_some]; intros Hr.
  - destruct (reads_ptr t "temperature" None Hr) as (t' & Ht & He). exists (Some t'). split.
    + simpl. by rewrite (Qred_complete _ _ He).
    + intros s m Hs. cbn [omit app]. erewrite dec_step; [done|reflexivity|]. cbn [f_dec fld f_name]. rewrite Hs. cbn [joinPath String.eqb].
      by rewrite Ht.
  - exists None. split; [done|]. intros [] m Hs. simpl in Hs. by subst.
Qed.

Lemma transcription_field_readback o :
  dec_ptr no_transcription (dec_struct true transcription_fields) "transcription" (nullable transcription_doc o)
    (P_Transcription DefaultProfile) = Done o None.
Proof. destruct o as [t|]; [|done]. apply transcription_readback. by intros o [= <-]. Qed.

Lemma detection_field_readback o : on_some turn_detection_ok o -> on_some detection_form o ->
  (forall td f, o = Some td -> TD_Threshold td = Some f -> reads f) ->
  exists o', option_map canon_detection o' = option_map canon_detection o /\ option_map ApplyDefaults o' = o' /\
    dec_ptr no_turn_detection (dec_struct true turn_detection_fields) "turn_detection"
      (nullable (turnDetection_doc FormatFloat) o) (P_TurnDetection DefaultProfile) = Done o' None.
Proof.
  destruct o as [td|]; simpl; intros Hok Hf Hr; [|by exists None].
  destruct (detection_readback "turn_detection" td (P_TurnDetection DefaultProfile)) as (td' & H1 & H2 & H3);
    [done|done|by intros f; apply Hr|by intros o [= <-]|].
  exists (Some td'). simpl. rewrite H2. split; [done|]. split; [|done]. by rewrite ApplyDefaults_ok_stable.
Qed.

Lemma DecodeProfile_done v f name p : dec_struct true profile_fields EmptyString (JObj v) DefaultProfile = Done p None ->
  DecodeProfile Quote (Doc (JObj v) Nothing) f name =
    inl (default_detection (if String.eqb (P_Name p) EmptyString then rename_profile name p else p)).
Proof. intros H. unfold DecodeProfile, strictDecode. by rewrite H. Qed.

(** The next member: its field is found by computation; what its decoder gives is
    computed too, or is [H]. *)
Ltac reduce_fields :=
  cbn [f_dec fld f_name dec_string dec_method joinPath String.eqb P_Name P_ASR P_LLM P_TTS P_Instructions P_Temperature
       P_MaxOutputTokens P_OutputModalities P_Voice P_Speed P_ASRLanguage P_ASRModel P_Transcription P_TurnDetection
       P_ToolChoice DefaultProfile].
Ltac member := erewrite dec_step; [|reflexivity|reduce_fields; reflexivity].
Ltac member_by H := erewrite dec_step; [|reflexivity|reduce_fields; rewrite H; reduce_fields; reflexivity].

Lemma profile_readback f p : storable p -> exists p', canon p' = canon p /\
  DecodeProfile Quote (Doc (profile_doc FormatFloat p) Nothing) f (P_Name p) = inl p'.
Proof.
  intros ((Hmf & Hdf) & Hmo & Htf & Hte & Htn & Hdo & (Hsp & Htp & Hth)%floats_of_reads).
  pose proof (dec_method_Some _ _ _ (maxTokens_readback _ Hmf Hmo)) as Em.
  pose proof (dec_method_Some _ _ _ (toolChoice_readback _ Htf Hte Htn)) as Ec.
  destruct (reads_float _ Hsp) as (sp & Es & Hs).
  destruct (temperature_readback _ Htp) as (temp & Hte' & Et).
  destruct (detection_field_readback _ Hdo Hdf Hth) as (td & Hd & Ha & Ed).
  pose proof (transcription_field_readback (P_Transcription p)) as Er.
  pose proof (fun q old => strings_readback q old (P_OutputModalities p)) as Eo.
  cbn [P_Transcription P_TurnDetection DefaultProfile] in Er, Ed.
  eexists. split; cycle 1.
  - unfold profile_doc. erewrite DecodeProfile_done.
    2: { cbn [dec_struct]. unfold fstr. cbn [app]. do 5 member. rewrite Et by reflexivity. reduce_fields. cbn [app].
         member_by Em. member_by Eo. member. member_by Es. do 2 member. member_by Er. member_by Ed. member_by Ec.
         reflexivity. }
    reflexivity.
  - reduce_fields. unfold canon, default_detection, rename_profile.
    destruct (String.eqb_spec (P_Name p) EmptyString); reduce_fields; by rewrite Ha, Hd, Hte', (Qred_complete _ _ Hs).
Qed.

(** Decoded and validated. *)
Lemma decoded_storable raw f c prefix known : DecodeRuntimeConfig Quote raw f = inl c -> validateRuntime prefix known c = None ->
  (forall name p, Profiles c !! name = Some p -> TC_Name (P_ToolChoice p) = EmptyString /\ Forall reads (floats_of p)) ->
  (forall name p, Profiles c !! name = Some p -> P_Name p = name /\ storable p) /\
  (forall name p, Providers c !! name = Some p -> PI_Name p = name).
Proof.
  intros Hd Hv Hp. unfold validateRuntime in Hv. rewrite !and_then_None in Hv. destruct Hv as (Hprov & Hprof & _). split.
  - intros name p Hn. destruct (Hp name p Hn) as [Htn Hfl].
    pose proof (first_error_keys _ _ Hprof name p Hn) as Hv. simpl in Hv. apply and_then_None in Hv as [Hv _].
    unfold validateProfile in Hv. rewrite !and_then_None, !reject_if_None, !negb_bool_decide_false, !opt_check_None in Hv.
    destruct Hv as (Hname & _ & Hmo & _ & _ & Htc & _ & _ & Htd). split; [done|].
    assert (Htc' : Mode (P_ToolChoice p) <> ToolChoiceFunction /\ Mode (P_ToolChoice p) <> EmptyString).
    { split; intros E; rewrite E, !elem_of_cons in Htc;
        by destruct Htc as [?|[?|[?|?%elem_of_nil]]]. }
    destruct Htc' as [Hf He].
    split; [|split; [by eapply validateMaxOutputTokens_spec|]; split; [exact Hf|]; split; [exact He|]; split; [done|]; split; [|done]].
    + unfold DecodeRuntimeConfig in Hd. destruct (strictDecode _ _ _ _ _) as [doc|]; [|done].
      destruct (decode_all _ _) as [ps|]; [|done].
      destruct (decode_all _ (map_to_list (doc_Profiles doc))) as [qs|] eqn:Hq; [|done]. injection Hd as <-.
      apply (decode_all_lookup _ _ _ (NoDup_fst_map_to_list _) Hq) in Hn as (b & _ & Hb). by eapply DecodeProfile_form.
    + destruct (P_TurnDetection p) as [td|]; [|done]. by eapply validateTurnDetection_spec, Htd.
  - intros name p Hn. pose proof (first_error_keys _ _ Hprov name p Hn) as Hv. unfold validateProvider in Hv.
    apply and_then_None in Hv as [Hv _]. by rewrite reject_if_None, negb_bool_decide_false in Hv.
Qed.

(** C36. What a write accepted is what a restart reads: a runtime configuration
    that was decoded (from a request, the state file or the seed) and validated,
    encoded for the state file and decoded again, is the same configuration,
    secrets, opaque provider options, null detection and every default included
    (floats by value, where the text of a float reads back as it). The only
    thing encoding can lose is the function name next to a tool choice that is
    not the function form. *)
Theorem stored_config_reads_back raw f c prefix known :
  DecodeRuntimeConfig Quote raw f = inl c -> validateRuntime prefix known c = None ->
  (forall name p, Profiles c !! name = Some p -> TC_Name (P_ToolChoice p) = EmptyString /\ Forall reads (floats_of p)) ->
  exists c', DecodeRuntimeConfig Quote (MarshalRuntimeConfig FormatFloat c) EmptyString = inl c' /\ same_config c' c.
Proof.
  intros Hd Hv Hp. destruct (decoded_storable _ _ _ _ _ Hd Hv Hp) as [Hpr Hps].
  set (dp := fun name body => DecodeProfile Quote (Doc body Nothing) (joinPath EmptyString ("profiles." ++ name)) name).
  set (back := fun p => match dp (P_Name p) (profile_doc FormatFloat p) with inl q => q | inr _ => p end).
  assert (Hb : forall name p, Profiles c !! name = Some p -> canon (back p) = canon p /\ dp name (profile_doc FormatFloat p) = inl (back p)).
  { intros name p Hn. destruct (Hpr name p Hn) as [<- Hs].
    destruct (profile_readback (joinPath EmptyString ("profiles." ++ P_Name p)) p Hs) as (q & Hc & Hq).
    unfold back, dp. by rewrite Hq. }
  exists {| Providers := Providers c; Profiles := back <$> Profiles c; DefaultProfileName := DefaultProfileName c |}. split.
  - unfold DecodeRuntimeConfig, MarshalRuntimeConfig, strictDecode. cbn [dec_struct].
    erewrite dec_step; [|reflexivity|cbn [f_dec fld f_name doc_Providers]; rewrite dec_map_doc; reflexivity].
    erewrite dec_step; [|reflexivity|cbn [f_dec fld f_name doc_Profiles]; rewrite dec_map_doc; reflexivity].
    erewrite dec_step; [|reflexivity|reflexivity].
    cbn [dec_members doc_Providers doc_Profiles doc_Settings].
    rewrite (decode_all_map provider_doc _ (Providers c) (Providers c)).
    + rewrite (decode_all_map (profile_doc FormatFloat) _ (Profiles c) (back <$> Profiles c)); [done| |].
      * intros k p Hk. exists (back p). rewrite lookup_fmap, Hk. split; [done|]. by apply (Hb k p).
      * intros k. by rewrite lookup_fmap, fmap_is_Some.
    + intros k p Hk. exists p. split; [done|]. apply provider_readback. by apply Hps.
    + done.
  - split; [done|]. split; [|done]. cbn [Profiles]. apply map_eq. intros k. rewrite !lookup_fmap.
    destruct (Profiles c !! k) as [p|] eqn:Hk; [|done]. simpl. f_equal. by apply (Hb k p).
Qed.
End readback.

(** ** What an accepted profile document says *)

(** The parts of a profile, by the name of their field. *)
Definition profile_parts : list (string * (Profile -> Profile -> Prop)) :=
  [("name", fun p q => P_Name p = P_Name q); ("asr", fun p q => P_ASR p = P_ASR q);
   ("llm", fun p q => P_LLM p = P_LLM q); ("tts", fun p q => P_TTS p = P_TTS q);
   ("instructions", fun p q => P_Instructions p = P_Instructions q);
   ("temperature", fun p q => P_Temperature p = P_Temperature q);
   ("max_output_tokens", fun p q => P_MaxOutputTokens p = P_MaxOutputTokens q);
   ("output_modalities", fun p q => P_OutputModalities p = P_OutputModalities q);
   ("voice", fun p q => P_Voice p = P_Voice q); ("speed", fun p q => P_Speed p = P_Speed q);
   ("asr_language", fun p q => P_ASRLanguage p = P_ASRLanguage q);
   ("asr_model", fun p q => P_ASRModel p = P_ASRModel q);
   ("transcription", fun p q => P_Transcription p = P_Transcription q);
   ("turn_detection", fun p q => P_TurnDetection p = P_TurnDetection q);
   ("tool_choice", fun p q => P_ToolChoice p = P_ToolChoice q)].

(** The field a member of a document goes to. *)
Definition names {S} (fs : list (field S)) (k n : string) : Prop := exists f, resolve fs k = Some f /\ f_name f = n.

Lemma fld_sets {S A} name (get : S -> A) set d p v s s' :
  f_dec (fld name get set d) p v s = Done s' None -> exists x, s' = set x s.
Proof. cbn. destruct (d p v (get s)) as [x e|]; [|done]. intros [= <- ->]. by exists x. Qed.

Lemma other_fields_kept f p v s s' n (same : Profile -> Profile -> Prop) : In f profile_fields -> In (n, same) profile_parts ->
  f_name f <> n -> f_dec f p v s = Done s' None -> same s DefaultProfile -> same s' DefaultProfile.
Proof.
  intros Hf Hn Hne Hd Hs. unfold profile_fields in Hf. cbn [In] in Hf.
  repeat (destruct Hf as [<-|Hf];
    [apply fld_sets in Hd as [x ->]; cbn [f_name fld] in Hne; cbn [In profile_parts] in Hn;
     repeat (destruct Hn as [[= <- <-]|Hn]; [first [done | exact Hs]|]); destruct Hn|]).
  destruct Hf.
Qed.

Lemma after_decode_same n same q name : In (n, same) profile_parts -> same q DefaultProfile ->
  same (default_detection (if String.eqb (P_Name q) EmptyString then rename_profile name q else q))
    (default_detection (rename_profile name DefaultProfile)).
Proof.
  intros Hn Hs. cbn [In profile_parts] in Hn.
  repeat (destruct Hn as [[= <- <-]|Hn];
    [destruct (String.eqb (P_Name q) EmptyString) eqn:He; cbn in *; rewrite ?Hs in *; done|]). destruct Hn.
Qed.

(** Decoding a profile is strict and starts from the defaults: an accepted
    document is one JSON object (no other JSON value after it), each of its members
    is a field of the profile, exactly or up to the case of its letters, and every
    part of the profile that no member names has its documented default: the name
    it is stored under, and server_vad with its defaults filled in for the
    detection. *)
Theorem profile_decoding_strict Quote raw f name p : DecodeProfile Quote raw f name = inl p ->
  exists m rest, raw = Doc (JObj m) rest /\ rest <> Token /\
    Forall (fun kv => exists n, names profile_fields kv.1 n) m /\
    (forall n same, In (n, same) profile_parts -> (forall kv, In kv m -> ~ names profile_fields kv.1 n) ->
       same p (default_detection (rename_profile name DefaultProfile))).
Proof.
  unfold DecodeProfile, strictDecode. destruct raw as [|v rest]; [done|].
  destruct v as [| | | | |m]; try (by destruct rest). intros H. exists m, rest.
  assert (Hq : exists q, rest <> Token /\ dec_members true profile_fields EmptyString m DefaultProfile None = Done q None /\
    default_detection (if String.eqb (P_Name q) EmptyString then rename_profile name q else q) = p).
  { destruct rest; cbn [dec_struct] in H; [| done |]; destruct (dec_members _ _ _ _ _ _) as [q [e|]|]; try done;
      injection H as <-; by exists q. }
  destruct Hq as (q & Hr & Hd & <-). split; [done|]. split; [done|]. split.
  - apply dec_members_known in Hd. eapply Forall_impl; [exact Hd|]. intros kv [g Hg]. by exists (f_name g), g.
  - intros n same Hn Hno. apply (after_decode_same n); [done|].
    apply (dec_members_ind _ _ (fun s => same s DefaultProfile) _ _ _ Hd).
    + cbn [In profile_parts] in Hn. repeat (destruct Hn as [[= <- <-]|Hn]; [done|]). destruct Hn.
    + intros k v g s1 s2 Hin Hg Hs1 H1. eapply other_fields_kept; [by eapply resolve_In|exact Hn| |exact H1|exact Hs1].
      intros E. apply (Hno (k, v) Hin). by exists g.
Qed.

(** ** Concrete documents *)

Definition demo_quote (k : string) : string := k.
Definition demo_float (f : float64) : string := if Qeq_bool f (1 # 2)%Q then "0.5" else "1".

Definition demo_provider (key : string) : json := JObj [("type", JStr "mock"); ("API_KEY", JStr key)].

Definition demo_doc : json := JObj
  [("providers", JObj [("ears", demo_provider "{env.EARS}"); ("brain", demo_provider "k1"); ("mouth", demo_provider "k2")]);
   ("profiles", JObj [("front", JObj [("asr", JStr "ears"); ("llm", JStr "brain"); ("tts", JStr "mouth");
      ("temperature", JNum "0.5"); ("max_output_tokens", JNum "100"); ("turn_detection", JObj [("prefix_padding_ms", JNum "20")])])]);
   ("settings", JObj [("default_profile", JStr "front")])].

Lemma demo_decodes : exists c p, DecodeRuntimeConfig demo_quote (Doc demo_doc Nothing) EmptyString = inl c /\
  validateRuntime EmptyString None c = None /\ Profiles c = {[ "front" := p ]} /\
  TC_Name (P_ToolChoice p) = EmptyString /\ Forall (reads demo_float) (floats_of p).
Proof.
  eexists _, _. split; [vm_compute; reflexivity|]. split; [vm_compute; reflexivity|]. split; [reflexivity|].
  split; [reflexivity|]. unfold floats_of, reads, demo_float. cbn.
  repeat constructor; eexists; (split; [vm_compute; reflexivity|by vm_compute]).
Qed.

Lemma stored_config_reads_back_witness : exists c c',
  DecodeRuntimeConfig demo_quote (Doc demo_doc Nothing) EmptyString = inl c /\
  DecodeRuntimeConfig demo_quote (MarshalRuntimeConfig demo_float c) EmptyString = inl c' /\ same_config c' c.
Proof.
  destruct demo_decodes as (c & p & Hd & Hv & Hp & Ht & Hf). exists c.
  destruct (stored_config_reads_back demo_quote demo_float _ _ c EmptyString None Hd Hv) as (c' & H1 & H2).
  - intros name q Hq. rewrite Hp in Hq. apply lookup_singleton_Some in Hq as [_ <-]. by split.
  - exists c'. exact (conj Hd (conj H1 H2)).
Defined.

Lemma profile_decoding_strict_witness : exists p, DecodeProfile demo_quote (Doc (JObj [("Voice", JStr "verse")]) Nothing) EmptyString "front" = inl p /\
  P_Voice p = "verse" /\ P_Name p = "front" /\ P_Speed p = 1%Q.
Proof.
  eexists. split; [vm_compute; reflexivity|]. split; [reflexivity|].
  destruct (profile_decoding_strict demo_quote (Doc (JObj [("Voice", JStr "verse")]) Nothing) EmptyString "front" _ eq_refl)
    as (m & rest & [= <- <-] & _ & _ & H).
  assert (Hno : forall n, n <> "voice" -> forall kv, In kv [("Voice", JStr "verse")] -> ~ names profile_fields kv.1 n).
  { intros n Hn kv [<-|[]] (f & [= <-] & E). by apply Hn. }
  split; [apply (H "name" (fun p q => P_Name p = P_Name q))|apply (H "speed" (fun p q => P_Speed p = P_Speed q))];
    try (by apply Hno); cbn; tauto.
Defined.

(** An error can name the wrong field: an unknown "providers" inside the
    settings is reported as the document's own, valid "providers". *)
Theorem unknown_field_misnamed :
  DecodeRuntimeConfig demo_quote
    (Doc (JObj [("providers", JObj []); ("settings", JObj [("providers", JNull)])]) Nothing)
    EmptyString = inr (field_err "providers").
Proof. vm_compute. reflexivity. Qed.

(** What follows a document is looked at only as far as one JSON token: text
    that is no JSON at all is accepted there. *)
Theorem trailing_garbage_accepted Quote v f name :
  DecodeProfile Quote (Doc v NoToken) f name = DecodeProfile Quote (Doc v Nothing) f name /\
  DecodeRuntimeConfig Quote (Doc v NoToken) f = DecodeRuntimeConfig Quote (Doc v Nothing) f /\
  DecodeProfile Quote (Doc v Token) f name = inr (field_err (orRoot f)).
Proof. done. Qed.
