(* ===== verification/ConfigLoad.v ===== *)
(** * Loading the static configuration ([internal/config/load.go, config.go])

    [Parse] as a function of the document and the environment: placeholders are
    expanded in every string of the parsed tree except under "bootstrap", the
    tree is encoded again (its keys sorted) and decoded strictly over
    [DefaultConfig]. [Load] is [Parse] of the file's content, [Validate] the check
    of the whole static configuration, with the seed decoded as the store does.

    Durations are nanoseconds; [ParseDuration] is [time.ParseDuration], with its
    64-bit arithmetic. Go walks an object in no fixed order: of several unset
    variables the first in the order of the members is the one named here.

    Shown: expansion fails exactly when a string outside the seed has an unset
    variable, and names its path; the seed is loaded as it is written, whatever
    the environment; what validation accepts; and that the seed of another
    spelling is expanded. *)

From S2P Require Import Admin Utf8.
From S2P Require Export ConfigDecode.
From Stdlib Require Import QArith Ascii.
#[local] Open Scope string_scope.
#[local] Open Scope Z_scope.

(** ** Durations *)

Definition unit_of (u : string) : option Z :=
  if String.eqb u "ns" then Some 1
  else if String.eqb u "us" then Some 1000
  else if String.eqb u (String (byte 194) (String (byte 181) "s")) then Some 1000
  else if String.eqb u (String (byte 206) (String (byte 188) "s")) then Some 1000
  else if String.eqb u "ms" then Some 1000000
  else if String.eqb u "s" then Some 1000000000
  else if String.eqb u "m" then Some 60000000000
  else if String.eqb u "h" then Some 3600000000000
  else None.

Fixpoint leadingInt (x : Z) (s : string) : option (Z * string) :=
  match s with
  | String c s' =>
      match digit c with
      | None => Some (x, s)
      | Some d =>
          if 2 ^ 63 / 10 <? x then None
          else let x := x * 10 + d in if 2 ^ 63 <? x then None else leadingInt x s'
      end
  | EmptyString => Some (x, EmptyString)
  end.

(** [overflow]: further digits are skipped. *)
Fixpoint leadingFraction (x : Z) (scale : float64) (overflow : bool) (s : string) : Z * float64 * string :=
  match s with
  | String c s' =>
      match digit c with
      | None => (x, scale, s)
      | Some d =>
          if overflow || ((2 ^ 63 - 1) / 10 <? x) then leadingFraction x scale true s'
          else
            let y := x * 10 + d in
            if 2 ^ 63 <? y then leadingFraction x scale true s'
            else leadingFraction y (fmul scale (10 # 1)%Q) false s'
      end
  | EmptyString => (x, scale, EmptyString)
  end.

Definition is_dot (c : Ascii.ascii) : bool := Ascii.eqb c (byte 46).
Definition unit_end (c : Ascii.ascii) : bool := is_dot c || is_some (digit c).

(** The unit's name, up to the next number. *)
Fixpoint unit_name (s : string) : string * string :=
  match s with
  | String c s' => if unit_end c then (EmptyString, s) else let '(u, r) := unit_name s' in (String c u, r)
  | EmptyString => (EmptyString, EmptyString)
  end.

(** One number with its unit: its nanoseconds, and what follows. *)
Definition duration_part (s : string) : option (Z * string) :=
  match s with
  | String c _ =>
      if negb (unit_end c) then None
      else
        '(v, s1) ← leadingInt 0 s;
        let pre := negb (String.length s1 =? String.length s)%nat in
        let '(f, scale, s2, post) :=
          match s1 with
          | String c1 r =>
              if is_dot c1 then
                let '(f, scale, s2) := leadingFraction 0 (1 # 1)%Q false r in
                (f, scale, s2, negb (String.length s2 =? String.length r)%nat)
              else (0, (1 # 1)%Q, s1, false)
          | EmptyString => (0, (1 # 1)%Q, s1, false)
          end in
        if negb pre && negb post then None
        else
          let '(u, s3) := unit_name s2 in
          if String.eqb u EmptyString then None
          else
            unit ← unit_of u;
            if 2 ^ 63 / unit <? v then None
            else
              let v := v * unit in
              if 0 <? f then
                let v := v + to_int (fmul (of_int f) (fdiv (of_int unit) scale)) in
                if 2 ^ 63 <? v then None else Some (v, s3)
              else Some (v, s3)
  | EmptyString => None
  end.

(** Each part takes at least one character off [s]. *)
Fixpoint duration_loop (fuel : nat) (d : Z) (s : string) : option Z :=
  match fuel, s with
  | S fuel, String _ _ =>
      '(v, s') ← duration_part s;
      let d := (d + v) mod 2 ^ 64 in
      if 2 ^ 63 <? d then None else duration_loop fuel d s'
  | _, _ => Some d
  end.

Definition ParseDuration (s : string) : option Z :=
  let '(neg, s) :=
    match s with
    | String c r => if Ascii.eqb c (byte 45) then (true, r) else if Ascii.eqb c (byte 43) then (false, r) else (false, s)
    | EmptyString => (false, s)
    end in
  if String.eqb s "0" then Some 0
  else if String.eqb s EmptyString then None
  else
    d ← duration_loop (String.length s) 0 s;
    if neg : bool then Some (- d) else if 2 ^ 63 - 1 <? d then None else Some d.

(** [Duration.UnmarshalJSON]; null decodes as the empty string, which is none. *)
Definition UnmarshalDuration (v : json) : option Z :=
  match v with
  | JStr s => ParseDuration s
  | JNull => ParseDuration EmptyString
  | _ => None
  end.

(** ** The static configuration *)

Record Auth := MkAuth { APIKey : string; AdminAPIKey : string }.
Record AdminConfig := MkAdminConfig { A_Listen : string; StateFile : string }.
Record Observability := MkObservability { LogLevel : string; OTelEndpoint : string }.

Record Config := MkConfig {
  Listen : string;
  C_Auth : Auth;
  C_Admin : AdminConfig;
  C_Limits : Limits;
  C_Observability : Observability;
  Bootstrap : option json
}.

Definition second : Z := 1000000000.

Definition DefaultConfig : Config :=
  {| Listen := ":8080";
     C_Auth := MkAuth EmptyString EmptyString;
     C_Admin := MkAdminConfig "127.0.0.1:8081" "cascade-state.json";
     C_Limits :=
       {| MaxSessions := 100; SessionTimeout := 30 * 60 * second; InputAudioQueueFrames := 200;
          InputAudioBufferMaxMs := 60000; ASRFinalTimeout := 2 * second; OutputEventQueue := 256;
          ClientWriteTimeout := 10 * second; ClientMaxMessageBytes := Z.shiftl 16 20 |};
     C_Observability := MkObservability "info" EmptyString;
     Bootstrap := None |}.

Definition auth_fields : list (field Auth) :=
  [fld "api_key" APIKey (fun x s => MkAuth x (AdminAPIKey s)) dec_string;
   fld "admin_api_key" AdminAPIKey (fun x s => MkAuth (APIKey s) x) dec_string].

Definition admin_fields : list (field AdminConfig) :=
  [fld "listen" A_Listen (fun x s => MkAdminConfig x (StateFile s)) dec_string;
   fld "state_file" StateFile (fun x s => MkAdminConfig (A_Listen s) x) dec_string].

Definition observability_fields : list (field Observability) :=
  [fld "log_level" LogLevel (fun x s => MkObservability x (OTelEndpoint s)) dec_string;
   fld "otel_endpoint" OTelEndpoint (fun x s => MkObservability (LogLevel s) x) dec_string].

Definition limits_fields : list (field Limits) :=
  [fld "max_sessions" MaxSessions (fun x s => MkLimits x (SessionTimeout s) (InputAudioQueueFrames s)
     (InputAudioBufferMaxMs s) (ASRFinalTimeout s) (OutputEventQueue s) (ClientWriteTimeout s) (ClientMaxMessageBytes s)) dec_int;
   fld "session_timeout" SessionTimeout (fun x s => MkLimits (MaxSessions s) x (InputAudioQueueFrames s)
     (InputAudioBufferMaxMs s) (ASRFinalTimeout s) (OutputEventQueue s) (ClientWriteTimeout s) (ClientMaxMessageBytes s))
     (dec_method UnmarshalDuration);
   fld "input_audio_queue_frames" InputAudioQueueFrames (fun x s => MkLimits (MaxSessions s) (SessionTimeout s) x
     (InputAudioBufferMaxMs s) (ASRFinalTimeout s) (OutputEventQueue s) (ClientWriteTimeout s) (ClientMaxMessageBytes s)) dec_int;
   fld "input_audio_buffer_max_ms" InputAudioBufferMaxMs (fun x s => MkLimits (MaxSessions s) (SessionTimeout s)
     (InputAudioQueueFrames s) x (ASRFinalTimeout s) (OutputEventQueue s) (ClientWriteTimeout s) (ClientMaxMessageBytes s)) dec_int;
   fld "asr_final_timeout" ASRFinalTimeout (fun x s => MkLimits (MaxSessions s) (SessionTimeout s)
     (InputAudioQueueFrames s) (InputAudioBufferMaxMs s) x (OutputEventQueue s) (ClientWriteTimeout s) (ClientMaxMessageBytes s))
     (dec_method UnmarshalDuration);
   fld "output_event_queue" OutputEventQueue (fun x s => MkLimits (MaxSessions s) (SessionTimeout s)
     (InputAudioQueueFrames s) (InputAudioBufferMaxMs s) (ASRFinalTimeout s) x (ClientWriteTimeout s) (ClientMaxMessageBytes s)) dec_int;
   fld "client_write_timeout" ClientWriteTimeout (fun x s => MkLimits (MaxSessions s) (SessionTimeout s)
     (InputAudioQueueFrames s) (InputAudioBufferMaxMs s) (ASRFinalTimeout s) (OutputEventQueue s) x (ClientMaxMessageBytes s))
     (dec_method UnmarshalDuration);
   fld "client_max_message_bytes" ClientMaxMessageBytes (fun x s => MkLimits (MaxSessions s) (SessionTimeout s)
     (InputAudioQueueFrames s) (InputAudioBufferMaxMs s) (ASRFinalTimeout s) (OutputEventQueue s) (ClientWriteTimeout s) x) dec_int].

Definition bootstrapKey := "bootstrap".

Definition config_fields : list (field Config) :=
  [fld "listen" Listen (fun x s => MkConfig x (C_Auth s) (C_Admin s) (C_Limits s) (C_Observability s) (Bootstrap s)) dec_string;
   fld "auth" C_Auth (fun x s => MkConfig (Listen s) x (C_Admin s) (C_Limits s) (C_Observability s) (Bootstrap s))
     (dec_struct true auth_fields);
   fld "admin" C_Admin (fun x s => MkConfig (Listen s) (C_Auth s) x (C_Limits s) (C_Observability s) (Bootstrap s))
     (dec_struct true admin_fields);
   fld "limits" C_Limits (fun x s => MkConfig (Listen s) (C_Auth s) (C_Admin s) x (C_Observability s) (Bootstrap s))
     (dec_struct true limits_fields);
   fld "observability" C_Observability (fun x s => MkConfig (Listen s) (C_Auth s) (C_Admin s) (C_Limits s) x (Bootstrap s))
     (dec_struct true observability_fields);
   fld bootstrapKey Bootstrap (fun x s => MkConfig (Listen s) (C_Auth s) (C_Admin s) (C_Limits s) (C_Observability s) x) dec_raw].

(** ** Expansion *)

Section load.
Context (Quote : string -> string) (lookupEnv : string -> option string).

Fixpoint expandEnv (node : json) (p : string) : json + FieldError :=
  match node with
  | JObj m =>
      match (fix go (l : list (string * json)) : list (string * json) + FieldError :=
               match l with
               | [] => inl []
               | (k, child) :: l =>
                   match (if String.eqb p EmptyString && String.eqb k bootstrapKey then inl child
                          else expandEnv child (joinPath p k)) with
                   | inr e => inr e
                   | inl x => match go l with inl xs => inl ((k, x) :: xs) | inr e => inr e end
                   end
               end) m with
      | inl m' => inl (JObj m')
      | inr e => inr e
      end
  | JArr l =>
      match (fix go (i : nat) (l : list json) : list json + FieldError :=
               match l with
               | [] => inl []
               | child :: l =>
                   match expandEnv child (index_path p i) with
                   | inr e => inr e
                   | inl x => match go (S i) l with inl xs => inl (x :: xs) | inr e => inr e end
                   end
               end) 0%nat l with
      | inl l' => inl (JArr l')
      | inr e => inr e
      end
  | JStr s => match ExpandEnv lookupEnv p s with inl s' => inl (JStr s') | inr e => inr e end
  | _ => inl node
  end.

(** [json.Marshal] of a tree: the keys of an object are sorted. *)
Definition key_le (a b : string * json) : Prop := str_le a.1 b.1.
#[local] Instance key_le_dec a b : Decision (key_le a b).
Proof. unfold key_le. apply _. Defined.

Fixpoint normalize (v : json) : json :=
  match v with
  | JObj m => JObj (merge_sort key_le (map (fun kv => (kv.1, normalize kv.2)) m))
  | JArr l => JArr (map normalize l)
  | _ => v
  end.

Definition Parse (raw : document) : Config + cfgErr :=
  match raw with
  | Malformed | Doc _ Token => inr OtherErr
  | Doc v _ =>
      match tree_of v with
      | JObj _ as tree =>
          match expandEnv tree EmptyString with
          | inr e => inr (FieldErr e)
          | inl expanded =>
              match dec_struct true config_fields EmptyString (normalize expanded) DefaultConfig with
              | Done c None => inl c
              | Done _ (Some e) => inr (decodeError Quote e expanded)
              | Abort => inr OtherErr
              end
          end
      | _ => inr OtherErr
      end
  end.

(** [Load]; [None]: the file cannot be read. *)
Definition Load_ (file : option document) : Config + cfgErr :=
  match file with Some raw => Parse raw | None => inr OtherErr end.

(** ** Validation *)

Definition logLevels := ["debug"; "info"; "warn"; "error"].

Definition blank (s : string) : bool := String.eqb (TrimSpace s) EmptyString.

(** [Config.Validate]: [None] is a nil error. *)
Definition ValidateConfig (known : ProviderLookup) (c : Config) : option cfgErr :=
  let check (v : verdict) (k : option cfgErr) := match v with Some e => Some (FieldErr e) | None => k end in
  check (reject_if (blank (Listen c)) "listen")
  (check (reject_if (String.eqb (APIKey (C_Auth c)) EmptyString) "auth.api_key")
  (check (if String.eqb (AdminAPIKey (C_Auth c)) EmptyString then None
          else reject_if (String.eqb (AdminAPIKey (C_Auth c)) (APIKey (C_Auth c))) "auth.admin_api_key" ;!
               reject_if (blank (A_Listen (C_Admin c))) "admin.listen" ;!
               reject_if (blank (StateFile (C_Admin c))) "admin.state_file")
  (match (match Bootstrap c with
          | None => None
          | Some b =>
              match DecodeRuntimeConfig Quote (Doc b Nothing) bootstrapKey with
              | inr e => Some e
              | inl rc => option_map FieldErr (validateRuntime "bootstrap." known rc)
              end
          end) with
   | Some e => Some e
   | None =>
       check (validateLimits "limits" (C_Limits c))
       (check (reject_if (negb (existsb (String.eqb (LogLevel (C_Observability c))) logLevels)) "observability.log_level")
        None)
   end))).
End load.

(** ** Expansion is exact *)

(** Induction over a tree with its members. *)
Fixpoint json_tree_ind (P : json -> Prop) (Hnull : P JNull) (Hbool : forall b, P (JBool b)) (Hnum : forall l, P (JNum l))
  (Hstr : forall s, P (JStr s)) (Harr : forall l, Forall P l -> P (JArr l))
  (Hobj : forall m, Forall (fun kv => P kv.2) m -> P (JObj m)) (v : json) : P v :=
  let rec := json_tree_ind P Hnull Hbool Hnum Hstr Harr Hobj in
  match v with
  | JNull => Hnull
  | JBool b => Hbool b
  | JNum l => Hnum l
  | JStr s => Hstr s
  | JArr l => Harr l ((fix go (l : list json) : Forall P l :=
      match l with [] => Forall_nil_2 P | x :: l => Forall_cons_2 P x l (rec x) (go l) end) l)
  | JObj m => Hobj m ((fix go (m : list (string * json)) : Forall (fun kv => P kv.2) m :=
      match m with [] => Forall_nil_2 _ | kv :: m => Forall_cons_2 _ kv m (rec kv.2) (go m) end) m)
  end.

(** A member of the top-level object that is not expanded. *)
Definition exempt (p k : string) : bool := String.eqb p EmptyString && String.eqb k bootstrapKey.

(** The strings that are expanded, with their paths, in order. *)
Fixpoint strings_at (v : json) (p : string) : list (string * string) :=
  match v with
  | JStr s => [(p, s)]
  | JObj m =>
      (fix go (l : list (string * json)) : list (string * string) :=
         match l with
         | [] => []
         | (k, c) :: l => ((if exempt p k then [] else strings_at c (joinPath p k)) ++ go l)%list
         end) m
  | JArr l =>
      (fix go (i : nat) (l : list json) : list (string * string) :=
         match l with [] => [] | c :: l => (strings_at c (index_path p i) ++ go (S i) l)%list end) 0%nat l
  | _ => []
  end.

Section exact.
Context (lookupEnv : string -> option string).

(** The tree with every string replaced. *)
Fixpoint replaced (v : json) (p : string) : json :=
  match v with
  | JStr s => JStr (expand_loop lookupEnv (String.length s) s).1
  | JObj m =>
      JObj ((fix go (l : list (string * json)) : list (string * json) :=
         match l with
         | [] => []
         | (k, c) :: l => (k, if exempt p k then c else replaced c (joinPath p k)) :: go l
         end) m)
  | JArr l =>
      JArr ((fix go (i : nat) (l : list json) : list json :=
         match l with [] => [] | c :: l => replaced c (index_path p i) :: go (S i) l end) 0%nat l)
  | _ => v
  end.

Definition unset_at (ps : string * string) : verdict :=
  match ExpandEnv lookupEnv ps.1 ps.2 with inl _ => None | inr e => Some e end.

Definition expansion (v : json) (p : string) : json + FieldError :=
  match first_error unset_at (strings_at v p) with None => inl (replaced v p) | Some e => inr e end.

Lemma first_error_app {A} (f : A -> verdict) l1 l2 : first_error f (l1 ++ l2)%list = (first_error f l1 ;! first_error f l2).
Proof. induction l1 as [|x l1 IH]; simpl; [done|]. rewrite IH. by destruct (f x). Qed.

Lemma expandEnv_expansion v : forall p, expandEnv lookupEnv v p = expansion v p.
Proof.
  unfold expansion. induction v as [| | |s|l IH|m IH] using json_tree_ind; intros p; try done.
  - cbn. unfold unset_at, ExpandEnv. cbn [fst snd]. by destruct (expand_loop lookupEnv (String.length s) s) as [out [n|]].
  - cbn [expandEnv strings_at replaced]. generalize 0%nat. induction IH as [|c l Hc _ IHl]; intros i; [done|].
    rewrite Hc, first_error_app. destruct (first_error unset_at (strings_at c _)); simpl; [done|].
    specialize (IHl (S i)). cbn in IHl.
    match type of IHl with context [match ?go (S i) l with inl _ => _ | inr _ => _ end] => destruct (go (S i) l) end;
      destruct (first_error unset_at _); try done; by injection IHl as ->.
  - cbn [expandEnv strings_at replaced]. induction IH as [|[k c] m Hc _ IHm]; [done|]. cbn [snd] in Hc.
    rewrite first_error_app. fold (exempt p k). destruct (exempt p k) eqn:He.
    + cbn [first_error and_then].
      match type of IHm with context [match ?go m with inl _ => _ | inr _ => _ end] => destruct (go m) end;
        destruct (first_error unset_at _); try done; by injection IHm as ->.
    + rewrite Hc. destruct (first_error unset_at (strings_at c _)); simpl; [done|].
      match type of IHm with context [match ?go m with inl _ => _ | inr _ => _ end] => destruct (go m) end;
        destruct (first_error unset_at _); try done; by injection IHm as ->.
Qed.
End exact.


(** ** The seed *)

Lemma last_wins_In l kv : In kv (last_wins l) -> In kv l.
Proof.
  unfold last_wins. induction l as [|x l IH]; [done|]. cbn [foldr]. destruct (existsb _ _); [by right; apply IH|].
  intros [->|H]; [by left|right; by apply IH].
Qed.

Lemma existsb_key k (l : list (string * json)) : existsb (fun kv => String.eqb k kv.1) l = true <-> k ∈ l.*1.
Proof.
  rewrite list_elem_of_fmap, List.existsb_exists. split.
  - intros (kv & Hin & E%String.eqb_eq). exists kv. by rewrite list_elem_of_In.
  - intros (kv & -> & Hin). exists kv. rewrite String.eqb_refl. by rewrite <- list_elem_of_In.
Qed.

Lemma last_wins_keys l : NoDup (last_wins l).*1.
Proof.
  unfold last_wins. induction l as [|[k v] l IH]; [constructor|]. cbn [foldr fst].
  destruct (existsb _ _) eqn:He; [done|]. cbn [fmap list_fmap fst]. constructor; [|done].
  intros Hin. apply existsb_key in Hin. congruence.
Qed.

Lemma last_wins_map (f : json -> json) l :
  last_wins (map (fun kv => (kv.1, f kv.2)) l) = map (fun kv => (kv.1, f kv.2)) (last_wins l).
Proof.
  unfold last_wins. induction l as [|[k v] l IH]; [done|]. cbn [map foldr fst snd]. rewrite IH.
  replace (existsb _ (map _ _)) with (existsb (fun kv' => String.eqb k kv'.1)
    (foldr (fun kv acc => if existsb (fun kv' => String.eqb kv.1 kv'.1) acc then acc else kv :: acc) [] l)).
  - by destruct (existsb _ _).
  - clear IH. induction (foldr _ _ l) as [|x r IH]; [done|]. simpl. by rewrite IH.
Qed.

Lemma assoc_map (f : json -> json) k l : assoc k (map (fun kv => (kv.1, f kv.2)) l) = option_map f (assoc k l).
Proof. induction l as [|[k' v] l IH]; [done|]. simpl. by destruct (String.eqb k k'). Qed.

Lemma assoc_In k l v : NoDup l.*1 -> assoc k l = Some v <-> (k, v) ∈ l.
Proof.
  induction l as [|[k' v'] l IH]; [intros _; split; [done|by intros ?%elem_of_nil]|]. cbn [fmap list_fmap fst].
  intros [Hk Hn]%NoDup_cons. cbn [assoc]. rewrite elem_of_cons. destruct (String.eqb_spec k k') as [->|Hne].
  - split; [by intros [= ->]; left|]. intros [[= ->]|Hin]; [done|]. destruct Hk. apply list_elem_of_fmap. by exists (k', v).
  - rewrite IH by done. naive_solver.
Qed.

Lemma assoc_perm k l l' : NoDup l.*1 -> l ≡ₚ l' -> assoc k l = assoc k l'.
Proof.
  intros Hn Hp. apply option_eq. intros v. rewrite assoc_In by done. rewrite assoc_In by (by rewrite <- Hp). by rewrite Hp.
Qed.

(** The seed of a decoded configuration: the member of that name. *)
Lemma seed_decoded p m : NoDup m.*1 -> (forall kv, In kv m -> names config_fields kv.1 bootstrapKey -> kv.1 = bootstrapKey) ->
  forall s c, dec_members true config_fields p m s None = Done c None ->
  Bootstrap c = match assoc bootstrapKey m with Some v => Some v | None => Bootstrap s end.
Proof.
  induction m as [|[k v] m IH]; intros Hn Hk s c H; [by injection H as <-|].
  apply NoDup_cons in Hn as [Hnk Hn]. apply dec_members_cons in H as (f & s1 & Hr & H1 & H).
  rewrite (IH Hn (fun kv Hin => Hk kv (or_intror Hin)) s1 c H). cbn [assoc].
  pose proof (resolve_In _ _ _ Hr) as Hin. unfold config_fields in Hin. cbn [In] in Hin.
  destruct (String.eqb_spec bootstrapKey k) as [<-|Hne].
  - assert (Ha : assoc bootstrapKey m = None).
    { destruct (assoc bootstrapKey m) as [w|] eqn:E; [|done]. apply assoc_In in E; [|done]. destruct Hnk.
      apply list_elem_of_fmap. by exists (bootstrapKey, w). }
    rewrite Ha. vm_compute in Hr. injection Hr as <-. cbn in H1. by injection H1 as <-.
  - destruct (assoc bootstrapKey m); [done|].
    repeat (destruct Hin as [<-|Hin];
      [first [ apply fld_sets in H1 as [x ->]; reflexivity
             | exfalso; apply Hne; symmetry; apply (Hk (k, v) (or_introl eq_refl)); by eexists ]|]).
    destruct Hin.
Qed.

Lemma sorted_members m : JObj (merge_sort key_le (map (fun kv => (kv.1, normalize kv.2)) m)) = normalize (JObj m).
Proof. done. Qed.

(** The members of the expanded top-level object. *)
Lemma expandEnv_top lookupEnv m w : expandEnv lookupEnv (JObj m) EmptyString = inl w ->
  exists m', w = JObj m' /\ m'.*1 = m.*1 /\ assoc bootstrapKey m' = assoc bootstrapKey m.
Proof.
  rewrite expandEnv_expansion. unfold expansion. destruct (first_error _ _); [done|]. intros [= <-]. cbn [replaced].
  eexists. split; [reflexivity|]. induction m as [|[k c] m [IH1 IH2]]; [done|]. cbn [fmap list_fmap fst assoc]. split.
  - f_equal. exact IH1.
  - destruct (String.eqb_spec bootstrapKey k) as [<-|_]; [done|]. exact IH2.
Qed.

Lemma map_keys (f : json -> json) (m : list (string * json)) : (map (fun kv => (kv.1, f kv.2)) m).*1 = m.*1.
Proof. induction m as [|[k v] m IH]; [done|]. cbn [map fmap list_fmap fst snd]. f_equal. exact IH. Qed.

Lemma Parse_members Quote lookupEnv m rest c : Parse Quote lookupEnv (Doc (JObj m) rest) = inl c ->
  exists m', expandEnv lookupEnv (tree_of (JObj m)) EmptyString = inl (JObj m') /\
    dec_members true config_fields EmptyString (merge_sort key_le (map (fun kv => (kv.1, normalize kv.2)) m')) DefaultConfig None =
      Done c None /\
    m'.*1 = (last_wins m).*1 /\ assoc bootstrapKey m' = option_map tree_of (assoc bootstrapKey (last_wins m)).
Proof.
  unfold Parse. intros H. assert (H' : match expandEnv lookupEnv (tree_of (JObj m)) EmptyString with
    | inr e => inr (FieldErr e)
    | inl expanded =>
        match dec_struct true config_fields EmptyString (normalize expanded) DefaultConfig with
        | Done c None => inl c
        | Done _ (Some e) => inr (decodeError Quote e expanded)
        | Abort => inr OtherErr
        end
    end = inl c) by (by destruct rest). clear H.
  destruct (expandEnv _ _ _) as [w|] eqn:He; [|done]. pose proof He as He'. cbn [tree_of] in He'.
  apply expandEnv_top in He' as (m' & -> & Hkeys & Hb). exists m'. split; [done|].
  rewrite last_wins_map, map_keys in Hkeys. rewrite last_wins_map, assoc_map in Hb.
  rewrite <- sorted_members in H'. cbn [dec_struct] in H'. destruct (dec_members _ _ _ _ _ _) as [c' [e|]|]; [done| |done].
  by injection H' as ->.
Qed.

(** C37. The seed block is loaded as it is written: the bootstrap of a loaded
    configuration is the document's last "bootstrap" member, its placeholders
    unexpanded (as a tree: of repeated keys the last, keys in order), so it does
    not depend on the environment, as long as no other key of the document is a
    spelling of "bootstrap" in other letter case. *)
Theorem seed_verbatim Quote lookupEnv m rest c : Parse Quote lookupEnv (Doc (JObj m) rest) = inl c ->
  (forall kv, In kv m -> names config_fields kv.1 bootstrapKey -> kv.1 = bootstrapKey) ->
  Bootstrap c = option_map (fun b => normalize (tree_of b)) (assoc bootstrapKey (last_wins m)).
Proof.
  intros (m' & _ & Hd & Hkeys & Hb)%Parse_members Hk. set (u := merge_sort _ _) in Hd.
  assert (Hperm : map (fun kv => (kv.1, normalize kv.2)) m' ≡ₚ u) by (symmetry; apply merge_sort_Permutation).
  assert (Hn : NoDup (map (fun kv => (kv.1, normalize kv.2)) m').*1) by (rewrite map_keys, Hkeys; apply last_wins_keys).
  assert (Hu : NoDup u.*1) by by rewrite <- Hperm.
  rewrite (seed_decoded _ u Hu) with (2 := Hd).
  - rewrite <- (assoc_perm _ _ u Hn Hperm), assoc_map, Hb. by destruct (assoc bootstrapKey (last_wins m)).
  - intros kv Hin Hname. apply list_elem_of_In in Hin. rewrite <- Hperm in Hin.
    assert (Hin' : kv.1 ∈ (last_wins m).*1).
    { rewrite <- Hkeys, <- (map_keys normalize). apply list_elem_of_fmap. by exists kv. }
    apply list_elem_of_fmap in Hin' as (kv' & E & Hin'%list_elem_of_In%last_wins_In). rewrite E in *. by apply Hk.
Qed.

(** ** What validation accepts *)

Definition limits_ok (l : Limits) : Prop :=
  Forall (fun n => 0 < n) [MaxSessions l; InputAudioQueueFrames l; InputAudioBufferMaxMs l; OutputEventQueue l;
    ClientMaxMessageBytes l; SessionTimeout l; ASRFinalTimeout l; ClientWriteTimeout l].

Lemma validateLimits_ok p l : validateLimits p l = None <-> limits_ok l.
Proof.
  unfold validateLimits, limits_ok. rewrite and_then_None, !first_error_None, !Forall_cons, !Forall_nil, !reject_if_None.
  rewrite !Z.leb_gt. tauto.
Qed.

(** C39. Validation of the static configuration is exact: it accepts a
    configuration if and only if it has an address to listen on and an API key, an
    admin key (if any) that differs from it and comes with an address and a state
    file, a seed (if any) that decodes and validates as the store will require,
    limits and timeouts that are all positive, and a known log level. *)
Theorem config_validation_exact Quote known c : ValidateConfig Quote known c = None <->
  blank (Listen c) = false /\ APIKey (C_Auth c) <> EmptyString /\
  (AdminAPIKey (C_Auth c) = EmptyString \/
   AdminAPIKey (C_Auth c) <> APIKey (C_Auth c) /\ blank (A_Listen (C_Admin c)) = false /\ blank (StateFile (C_Admin c)) = false) /\
  (forall b, Bootstrap c = Some b -> exists rc, DecodeRuntimeConfig Quote (Doc b Nothing) bootstrapKey = inl rc /\
     validateRuntime "bootstrap." known rc = None) /\
  limits_ok (C_Limits c) /\ LogLevel (C_Observability c) ∈ logLevels.
Proof.
  unfold ValidateConfig. rewrite <- (validateLimits_ok "limits").
  assert (Hl : LogLevel (C_Observability c) ∈ logLevels <-> existsb (String.eqb (LogLevel (C_Observability c))) logLevels = true).
  { rewrite list_elem_of_In, List.existsb_exists. split; [intros H; eexists; split; [exact H|apply String.eqb_refl]|].
    by intros (x & Hx & ->%String.eqb_eq). }
  rewrite Hl. clear Hl. generalize (existsb (String.eqb (LogLevel (C_Observability c))) logLevels). intros lv.
  destruct (blank (Listen c)); simpl; [naive_solver|].
  destruct (String.eqb_spec (APIKey (C_Auth c)) EmptyString); simpl; [naive_solver|].
  assert (Ha : (if String.eqb (AdminAPIKey (C_Auth c)) EmptyString then None
    else reject_if (String.eqb (AdminAPIKey (C_Auth c)) (APIKey (C_Auth c))) "auth.admin_api_key" ;!
         reject_if (blank (A_Listen (C_Admin c))) "admin.listen" ;!
         reject_if (blank (StateFile (C_Admin c))) "admin.state_file") = None <->
    (AdminAPIKey (C_Auth c) = EmptyString \/ AdminAPIKey (C_Auth c) <> APIKey (C_Auth c) /\
     blank (A_Listen (C_Admin c)) = false /\ blank (StateFile (C_Admin c)) = false)).
  { destruct (String.eqb_spec (AdminAPIKey (C_Auth c)) EmptyString) as [|Hne]; [tauto|].
    rewrite !and_then_None, !reject_if_None, String.eqb_neq. tauto. }
  rewrite <- Ha. clear Ha. destruct (if String.eqb _ _ then None else _) as [e|]; [naive_solver|].
  destruct (Bootstrap c) as [b|].
  - destruct (DecodeRuntimeConfig Quote (Doc b Nothing) bootstrapKey) as [rc|e] eqn:Hd.
    2: { split; [done|]. intros (_ & _ & _ & H & _). destruct (H b eq_refl) as (rc & H1 & _). congruence. }
    destruct (validateRuntime "bootstrap." known rc) as [e|] eqn:Hv; simpl.
    + split; [done|]. intros (_ & _ & _ & H & _). destruct (H b eq_refl) as (rc' & H1 & H2). congruence.
    + assert (Hb : forall b0, Some b = Some b0 -> exists rc0, DecodeRuntimeConfig Quote (Doc b0 Nothing) bootstrapKey = inl rc0 /\
        validateRuntime "bootstrap." known rc0 = None) by (intros b0 [= <-]; exists rc; exact (conj Hd Hv)).
      destruct (validateLimits "limits" (C_Limits c)); [naive_solver|]. destruct lv; simpl; naive_solver.
  - destruct (validateLimits "limits" (C_Limits c)); [naive_solver|]. destruct lv; simpl; naive_solver.
Qed.

(** ** Concrete configurations *)

(** The file config.example.json. *)
Definition example_config : json := JObj [("listen", JStr ":8080");
    ("auth", JObj [("api_key", JStr "{env.REALTIME_API_KEY}");
    ("admin_api_key", JStr "{env.ADMIN_API_KEY}")]);
    ("admin", JObj [("listen", JStr "127.0.0.1:8081");
    ("state_file", JStr "cascade-state.json")]);
    ("limits", JObj [("max_sessions", JNum "100");
    ("session_timeout", JStr "30m");
    ("input_audio_queue_frames", JNum "200");
    ("input_audio_buffer_max_ms", JNum "60000");
    ("asr_final_timeout", JStr "2s");
    ("output_event_queue", JNum "256");
    ("client_write_timeout", JStr "10s");
    ("client_max_message_bytes", JNum "16777216")]);
    ("observability", JObj [("log_level", JStr "info");
    ("otel_endpoint", JStr "")]);
    ("bootstrap", JObj [("providers", JObj [("deepgram-asr", JObj [("name", JStr "deepgram-asr");
    ("type", JStr "deepgram");
    ("api_key", JStr "{env.DEEPGRAM_API_KEY}");
    ("options", JObj [("model", JStr "nova-3");
    ("smart_format", JBool true)])]);
    ("openai-llm", JObj [("name", JStr "openai-llm");
    ("type", JStr "openai");
    ("api_key", JStr "{env.OPENAI_API_KEY}");
    ("options", JObj [("model", JStr "gpt-6-luna");
    ("base_url", JStr "https://api.openai.com/v1")])]);
    ("openai-tts", JObj [("name", JStr "openai-tts");
    ("type", JStr "openai");
    ("api_key", JStr "{env.OPENAI_API_KEY}");
    ("options", JObj [("model", JStr "gpt-realtime-2.1-mini")])])]);
    ("profiles", JObj [("default", JObj [("name", JStr "default");
    ("asr", JStr "deepgram-asr");
    ("llm", JStr "openai-llm");
    ("tts", JStr "openai-tts");
    ("instructions", JStr "You are a concise voice assistant.");
    ("max_output_tokens", JStr "inf");
    ("output_modalities", JArr [JStr "audio"]);
    ("voice", JStr "alloy");
    ("speed", JNum "1.0");
    ("asr_language", JStr "");
    ("asr_model", JStr "");
    ("transcription", JObj []);
    ("turn_detection", JObj [("type", JStr "server_vad");
    ("threshold", JNum "0.5");
    ("prefix_padding_ms", JNum "300");
    ("silence_duration_ms", JNum "500");
    ("create_response", JBool true);
    ("interrupt_response", JBool true)])])]);
    ("settings", JObj [("default_profile", JStr "default")])])].

Definition demo_env (name : string) : option string :=
  if String.eqb name "REALTIME_API_KEY" then Some "rt-key" else if String.eqb name "ADMIN_API_KEY" then Some "admin-key"
  else if String.eqb name "SECRET" then Some "s3cret" else None.

(** The example configuration loads where only the gateway's own keys are set,
    and validates; its seed is kept. *)
Lemma example_config_loads : exists c, Parse demo_quote demo_env (Doc example_config Nothing) = inl c /\
  ValidateConfig demo_quote None c = None /\ APIKey (C_Auth c) = "rt-key" /\
  SessionTimeout (C_Limits c) = 30 * 60 * second /\ is_Some (Bootstrap c).
Proof.
  eexists. split; [vm_compute; reflexivity|]. split; [vm_compute; reflexivity|]. split; [reflexivity|].
  split; [reflexivity|]. by eexists.
Qed.

Example durations : map ParseDuration ["1h30m"; "1.5s"; "-2ms"; "0"; "5"; EmptyString; "1e3s"; ".5m"] =
  [Some 5400000000000; Some 1500000000; Some (-2000000); Some 0; None; None; None; Some 30000000000].
Proof. vm_compute. reflexivity. Qed.

Definition seed (key : string) : json :=
  JObj [("providers", JObj [("ears", JObj [("type", JStr "mock"); ("api_key", JStr key)])])].

Definition seeded (k : string) : list (string * json) :=
  [("auth", JObj [("api_key", JStr "{env.REALTIME_API_KEY}")]); (k, seed "{env.SECRET}")].

Definition sorted_seed (key : string) : json :=
  JObj [("providers", JObj [("ears", JObj [("api_key", JStr key); ("type", JStr "mock")])])].

Lemma seeded_names kv : In kv (seeded "bootstrap") -> names config_fields kv.1 bootstrapKey -> kv.1 = bootstrapKey.
Proof.
  intros [<-|[<-|[]]]; [|done]. intros (f & H & E). apply (f_equal (option_map f_name)) in H. cbn [option_map] in H.
  rewrite E in H. vm_compute in H. discriminate.
Qed.

Lemma seed_verbatim_witness : exists c, Parse demo_quote demo_env (Doc (JObj (seeded "bootstrap")) Nothing) = inl c /\
  Bootstrap c = Some (sorted_seed "{env.SECRET}").
Proof.
  eexists. split; [vm_compute; reflexivity|].
  refine (eq_trans (seed_verbatim demo_quote demo_env (seeded "bootstrap") Nothing _ _ seeded_names) _);
    [vm_compute; reflexivity|reflexivity].
Defined.

(** The seed's exemption goes by the exact name only: under a key the decoder
    accepts as the seed although its letters are in another case, the placeholder
    is expanded and the secret itself becomes part of the seed, which the state
    file is written from. *)
Theorem capitalised_seed_is_expanded : exists c,
  Parse demo_quote demo_env (Doc (JObj (seeded "Bootstrap")) Nothing) = inl c /\
  ValidateConfig demo_quote None c = None /\ Bootstrap c = Some (sorted_seed "s3cret").
Proof. eexists. split; [vm_compute; reflexivity|]. split; vm_compute; reflexivity. Qed.
