(* ===== verification/Mock.v ===== *)
(** * The mock providers ([internal/provider/mock])

    The scripted transcriber, generator and synthesizer that are registered as
    provider "mock". [asr] is a transcription stream: what its goroutine does
    with each item of its queue. [generate] is a generation. [tts] is a synthesis
    stream: [tts_step] is a call, one chunk a call sends after it has let go of the
    lock, the close of the queue, or a read.

    The context is cancelled after a given number of sends ([budget]; [None]:
    never): a send that finds it cancelled gives up, as all later ones do, and a
    read takes nothing. Delays only matter where they see a cancellation; a bounded
    queue delays a send. The time of the cancellation and the counters tests read
    ([Streams], [Requests], ...) have no effect and are left out, as is the decoding
    of a script from its options.

    Shown: a transcription's finals are the script's utterances and their spans
    tile the audio pushed; a generation is its script, a cancelled one the
    beginning of it; the chunks of a text tile its audio and time each of its
    characters once. *)

From S2P Require Export Audio Provider Utf8.
#[local] Open Scope string_scope.
#[local] Open Scope list_scope.
#[local] Open Scope Z_scope.

(** ** The transcriber ([asr.go]) *)

(** Milliseconds; a delay is only ever positive or not. *)
Record ASRScript := MkASRScript {
  Utterances : list string;
  PartialAfterMs : Z;
  FinalAfterMs : Z;
  EndOfTurnAfterFinal : bool;
  FinalDelay : Z;
  OpenErr : error;
  StreamErr : error
}.

(** An item of the queue; [late]: the context is cancelled during the delay
    before a final. *)
Inductive asrInput := InPcm (n : Z) (late : bool) | InFinalize (late : bool).

Record asr := MkAsr {
  pending : list string;
  msSincePartial : Z;
  msSinceFinal : Z;
  totalMs : Z;
  partialSent : bool;
  errSent : bool;
  emitted : list ASREvent;
  budget : option nat;
  running : bool
}.

Section asr.
Context (script : ASRScript).

Definition asr_open (b : option nat) : asr :=
  {| pending := Utterances script; msSincePartial := 0; msSinceFinal := 0; totalMs := 0; partialSent := false;
     errSent := false; emitted := []; budget := b; running := true |}.

Definition OpenStream (b : option nat) : asr + string :=
  match OpenErr script with Some err => inr err | None => inl (asr_open b) end.

Definition event (k : ASREventKind) (text : string) (s e : Z) (err : string) : ASREvent :=
  {| AE_Kind := k; AE_Text := text; AE_StartMs := s; AE_EndMs := e; AE_Err := err |}.

(** The result says whether the goroutine goes on. *)
Definition emit (ev : ASREvent) (s : asr) : asr * bool :=
  let sent b := MkAsr (pending s) (msSincePartial s) (msSinceFinal s) (totalMs s) (partialSent s) (errSent s)
    (emitted s ++ [ev]) b (running s) in
  match budget s with
  | Some O => (s, false)
  | Some (S k) => (sent (Some k), true)
  | None => (sent None, true)
  end.

Definition nextText (s : asr) : string := match pending s with text :: _ => text | [] => EmptyString end.

Definition final (late : bool) (s : asr) : asr * bool :=
  if (0 <? FinalDelay script) && late then (s, false)
  else
    let text := nextText s in
    let start := totalMs s - msSinceFinal s in
    let s := MkAsr (tail (pending s)) 0 0 (totalMs s) false (errSent s) (emitted s) (budget s) (running s) in
    let '(s, ok) := emit (event ASRFinal text start (totalMs s) EmptyString) s in
    if negb ok then (s, false)
    else if EndOfTurnAfterFinal script then emit (event ASREndOfTurn EmptyString 0 0 EmptyString) s else (s, true).

Definition handle (i : asrInput) (s : asr) : asr * bool :=
  match i with
  | InFinalize late => final late s
  | InPcm n late =>
      match StreamErr script, errSent s with
      | Some err, false =>
          emit (event ASRError EmptyString 0 0 err)
            (MkAsr (pending s) (msSincePartial s) (msSinceFinal s) (totalMs s) (partialSent s) true (emitted s) (budget s) (running s))
      | _, _ =>
          let ms := BytesToMs n in
          let s := MkAsr (pending s) (msSincePartial s + ms) (msSinceFinal s + ms) (totalMs s + ms) (partialSent s) (errSent s)
            (emitted s) (budget s) (running s) in
          let '(s, ok) :=
            if (0 <? PartialAfterMs script) && negb (partialSent s) && (PartialAfterMs script <=? msSincePartial s) then
              let text := nextText s in
              let half := String.substring 0 (String.length text / 2) text in
              emit (event ASRPartial half 0 0 EmptyString)
                (MkAsr (pending s) (msSincePartial s) (msSinceFinal s) (totalMs s) true (errSent s) (emitted s) (budget s) (running s))
            else (s, true) in
          if negb ok then (s, false)
          else if (0 <? FinalAfterMs script) && (FinalAfterMs script <=? msSinceFinal s) then final late s
          else (s, true)
      end
  end.

(** One round of [run]. *)
Definition asr_round (s : asr) (i : asrInput) : asr :=
  if running s then
    let '(s, ok) := handle i s in
    MkAsr (pending s) (msSincePartial s) (msSinceFinal s) (totalMs s) (partialSent s) (errSent s) (emitted s) (budget s) ok
  else s.

Definition asr_run (b : option nat) (l : list asrInput) : asr := foldl asr_round (asr_open b) l.

(** *** Its finals *)

Definition is_final (e : ASREvent) : bool := match AE_Kind e with ASRFinal => true | _ => false end.
Definition finals (s : asr) : list ASREvent := List.filter is_final (emitted s).

(** Spans that follow each other from [a] to [b]. *)
Fixpoint spans (a : Z) (l : list ASREvent) (b : Z) : Prop :=
  match l with
  | [] => a = b
  | e :: l => AE_StartMs e = a /\ spans (AE_EndMs e) l b
  end.

Lemma spans_snoc a l b e c : spans a l b -> AE_StartMs e = b -> AE_EndMs e = c -> spans a (l ++ [e]) c.
Proof. revert a. induction l as [|x l IH]; intros a; simpl; [intros -> -> ->; done|]. intros [H1 H2] He Hc. split; [done|]. by apply IH. Qed.

(** The script's utterances, then nothing. *)
Fixpoint said (n : nat) (l : list string) : list string :=
  match n with
  | O => []
  | S n => match l with x :: l => x :: said n l | [] => EmptyString :: said n [] end
  end.

Lemma said_snoc n l : said (S n) l = said n l ++ [match drop n l with x :: _ => x | [] => EmptyString end].
Proof.
  revert l. induction n as [|n IH]; intros [|x l]; [done..| |]; cbn [drop].
  - specialize (IH []). rewrite drop_nil in IH. cbn [said app] in *. f_equal. exact IH.
  - specialize (IH l). cbn [said app] in *. f_equal. exact IH.
Qed.

(** What the finals emitted so far say; while the goroutine goes on, the next
    span starts where the last one ended. *)
Definition asr_inv (s : asr) (ok : bool) : Prop :=
  exists n upto, map AE_Text (finals s) = said n (Utterances script) /\ spans 0 (finals s) upto /\ upto <= totalMs s /\
    (ok = true -> pending s = drop n (Utterances script) /\ upto = totalMs s - msSinceFinal s) /\ 0 <= msSinceFinal s.

Lemma mock_emit_spec ev s s' ok : emit ev s = (s', ok) -> pending s' = pending s /\ totalMs s' = totalMs s /\
  msSinceFinal s' = msSinceFinal s /\ finals s' = finals s ++ (if ok && is_final ev then [ev] else []).
Proof.
  unfold emit, finals. destruct (budget s) as [[|k]|]; intros [= <- <-]; cbn [emitted pending totalMs msSinceFinal];
    (split; [done|]); (split; [done|]); (split; [done|]); rewrite ?List.filter_app; cbn [List.filter andb];
    rewrite ?app_nil_r; by destruct (is_final ev).
Qed.

Lemma asr_inv_same s s' ok ok' : asr_inv s ok -> (ok' = true -> ok = true) -> pending s' = pending s -> totalMs s' = totalMs s ->
  msSinceFinal s' = msSinceFinal s -> finals s' = finals s -> asr_inv s' ok'.
Proof. intros (n & u & H) Ho E1 E2 E3 E4. exists n, u. rewrite E1, E2, E3, E4. naive_solver. Qed.

Lemma drop_tail (l : list string) n : tail (drop n l) = drop (S n) l.
Proof. revert n. induction l as [|x l IH]; intros [|n]; try done. exact (IH n). Qed.

Lemma final_inv late s s' ok : asr_inv s true -> final late s = (s', ok) -> asr_inv s' ok /\ totalMs s' = totalMs s.
Proof.
  intros (n & upto & Ht & Hs & Hu & Hg & Hm) H. destruct (Hg eq_refl) as [Hp He]. unfold final in H.
  destruct (_ && late); [injection H as <- <-; split; [by exists n, upto|done]|].
  destruct (emit _ _) as [s1 ok1] eqn:H1. apply mock_emit_spec in H1 as (E1 & E2 & E3 & E4).
  cbn [pending totalMs msSinceFinal] in E1, E2, E3. unfold finals at 2 in E4. cbn [emitted] in E4. fold (finals s) in E4.
  assert (Hi : asr_inv s1 ok1).
  { destruct ok1; cbn [andb is_final AE_Kind event] in E4.
    - exists (S n), (totalMs s). rewrite E1, E2, E3, E4, map_app, said_snoc, Ht, Hp, drop_tail. split; [unfold nextText; by rewrite Hp|].
      split; [eapply spans_snoc; [exact Hs| |]; simpl; lia|]. repeat split; lia.
    - rewrite app_nil_r in E4. exists n, upto. rewrite E2, E3, E4. repeat split; try done. }
  destruct ok1; cbn [negb] in H; [|injection H as <- <-; by split].
  destruct (EndOfTurnAfterFinal script); [|injection H as <- <-; by split].
  apply mock_emit_spec in H as (F1 & F2 & F3 & F4). split; [|congruence].
  eapply asr_inv_same; [exact Hi|done|congruence..|]. rewrite F4. destruct ok; by rewrite app_nil_r.
Qed.
Definition input_ms (i : asrInput) : Z := match i with InPcm n _ => BytesToMs n | InFinalize _ => 0 end.
Definition input_ok (i : asrInput) : Prop := match i with InPcm n _ => 0 <= n | InFinalize _ => True end.

Lemma handle_inv i s s' ok : input_ok i -> asr_inv s true -> handle i s = (s', ok) ->
  asr_inv s' ok /\ totalMs s' <= totalMs s + input_ms i.
Proof.
  intros Hi Hs H. destruct i as [n late|late]; [|apply final_inv in H as [H ->]; [split; [done|simpl; lia]|done]].
  cbn [handle input_ms] in *. pose proof (BytesToMs_nonneg n Hi) as Hms.
  destruct (match StreamErr script, errSent s with Some err, false => Some err | _, _ => None end) as [err|] eqn:Herr.
  - assert (H' : emit (event ASRError EmptyString 0 0 err) (MkAsr (pending s) (msSincePartial s) (msSinceFinal s) (totalMs s)
      (partialSent s) true (emitted s) (budget s) (running s)) = (s', ok)).
    { destruct (StreamErr script), (errSent s); simplify_eq; exact H. }
    apply mock_emit_spec in H' as (E1 & E2 & E3 & E4). cbn in E1, E2, E3. split; [|lia].
    eapply asr_inv_same; [exact Hs|done|done|done|done|]. rewrite E4. destruct ok; by rewrite app_nil_r.
  - match type of H with match _ with Some _ => match _ with true => ?k | false => _ end | None => _ end = _ => assert (H' : k = (s', ok)) end.
    { destruct (StreamErr script), (errSent s); simplify_eq; exact H. }
    clear H Herr. cbv zeta in H'. set (s0 := MkAsr (pending s) _ _ _ _ _ _ _ _) in H'.
    assert (H0 : asr_inv s0 true).
    { destruct Hs as (k & u & H1 & H2 & H3 & H4 & H5). destruct (H4 eq_refl) as [H6 H7].
      exists k, u. split; [done|]. split; [done|]. simpl. repeat split; try lia. done. }
    destruct (if _ && _ && _ then _ else _) as [s1 ok1] eqn:H1.
    assert (Hs1 : asr_inv s1 ok1 /\ totalMs s1 = totalMs s0).
    { destruct (_ && _ && _); [|by injection H1 as <- <-]. apply mock_emit_spec in H1 as (E1 & E2 & E3 & E4). split; [|exact E2].
      eapply asr_inv_same; [exact H0|done|done|done|done|]. rewrite E4. destruct ok1; by rewrite app_nil_r. }
    destruct Hs1 as [Hs1 Ht1]. change (totalMs s0) with (totalMs s + BytesToMs n) in Ht1.
    destruct ok1; cbn [negb] in H'; [|injection H' as <- <-; split; [done|lia]].
    destruct (_ && (_ <=? msSinceFinal s1)); [|injection H' as <- <-; split; [done|lia]].
    apply final_inv in H' as [H' ->]; [split; [done|lia]|done].
Qed.

(** The mock transcriber keeps its script and its clock: whatever is pushed, in
    pieces of any size, however finals are asked for and whenever the context is
    cancelled, the finals it has emitted say the script's utterances in order (then
    nothing), their spans follow each other without gap or overlap from the start
    of the stream, within the audio pushed; and while it runs the next one starts
    where the last ended. *)
Theorem mock_finals_exact b l : Forall input_ok l ->
  let s := asr_run b l in
  exists upto, map AE_Text (finals s) = said (length (finals s)) (Utterances script) /\ spans 0 (finals s) upto /\
    upto <= totalMs s <= foldr (fun i n => input_ms i + n) 0 l /\ (running s = true -> upto = totalMs s - msSinceFinal s).
Proof.
  intros Hl. unfold asr_run.
  assert (H : asr_inv (foldl asr_round (asr_open b) l) (running (foldl asr_round (asr_open b) l)) /\
    totalMs (foldl asr_round (asr_open b) l) <= totalMs (asr_open b) + foldr (fun i n => input_ms i + n) 0 l).
  { assert (H0 : asr_inv (asr_open b) (running (asr_open b))) by (exists 0%nat, 0; by repeat split).
    revert H0. generalize (asr_open b). induction Hl as [|i l Hi _ IH]; intros s Hs; cbn [foldl foldr]; [split; [done|lia]|].
    unfold asr_round at 2 4 6. destruct (running s) eqn:Hr.
    - destruct (handle i s) as [s' ok] eqn:H. destruct (handle_inv _ _ _ _ Hi Hs H) as [H1 H2].
      destruct (IH (MkAsr (pending s') (msSincePartial s') (msSinceFinal s') (totalMs s') (partialSent s') (errSent s')
        (emitted s') (budget s') ok)) as [H3 H4]; [|split; [exact H3|cbn [totalMs] in H4; lia]].
      eapply asr_inv_same; [exact H1|done..].
    - rewrite <- Hr in Hs. destruct (IH s Hs) as [H3 H4]. split; [done|].
      assert (0 <= input_ms i) by (destruct i; simpl in *; [by apply BytesToMs_nonneg|lia]). lia. }
  destruct H as [(n & upto & Ht & Hs & Hu & Hg & _) Hb]. exists upto. cbn [totalMs asr_open] in Hb.
  assert (Hn : n = length (finals (foldl asr_round (asr_open b) l))).
  { rewrite <- (length_map AE_Text), Ht. clear. generalize (Utterances script). induction n as [|n IH]; intros [|x l]; simpl; auto. }
  rewrite <- Hn. split; [done|]. split; [done|]. split; [lia|]. intros Hr. by apply Hg in Hr as [_ ?].
Qed.
End asr.

Definition demo_script : ASRScript := MkASRScript ["hello there"; "bye"] 40 100 true 0 None None.
Definition demo_inputs : list asrInput := [InPcm 960 false; InPcm 1920 false; InPcm 3840 false; InFinalize false; InPcm 96 false].

Lemma mock_finals_exact_witness : exists upto,
  map (fun e => (AE_Text e, AE_StartMs e, AE_EndMs e)) (finals (asr_run demo_script None demo_inputs)) =
    [("hello there", 0, 140); ("bye", 140, 140)] /\
  spans 0 (finals (asr_run demo_script None demo_inputs)) upto.
Proof.
  destruct (mock_finals_exact demo_script None demo_inputs) as (upto & _ & H & _); [repeat constructor; done|].
  exists upto. split; [vm_compute; reflexivity|exact H].
Defined.

(** ** The generator ([llm.go]) *)

Record LLMScript := MkLLMScript {
  Tokens : list string;
  L_FinishReason : FinishReason;
  L_Usage : Usage;
  Block : bool;
  BlockAfter : Z;
  L_Err : error;
  ChatErr : error;
  L_ToolCall : option ToolCall;
  BlockAfterToolCall : bool
}.

Definition normalizeScript (s : LLMScript) : LLMScript :=
  if String.eqb (L_FinishReason s) EmptyString
  then MkLLMScript (Tokens s) FinishStop (L_Usage s) (Block s) (BlockAfter s) (L_Err s) (ChatErr s) (L_ToolCall s) (BlockAfterToolCall s)
  else s.

Definition canceled := "context canceled".

(** What a step of a generation comes to: it goes on with this many sends left, or
    has returned, or waits for a cancellation that does not come. *)
Inductive gen := Go (b : option nat) | Returned | Stuck.

Definition gen_send (c : LLMChunk) (out : list LLMChunk) (b : option nat) : list LLMChunk * gen :=
  match b with
  | Some O => (out, Returned)
  | Some (S k) => (out ++ [c], Go (Some k))
  | None => (out ++ [c], Go None)
  end.

(** [room]: the channel has room for the error. *)
Definition block (room : bool) (out : list LLMChunk) (b : option nat) : list LLMChunk * gen :=
  match b with
  | None => (out, Stuck)
  | Some _ => (if room then out ++ [LLMError canceled] else out, Returned)
  end.

Section llm.
Context (script : LLMScript) (room : bool).

Fixpoint gen_tokens (i : Z) (toks : list string) (out : list LLMChunk) (b : option nat) : list LLMChunk * gen :=
  match toks with
  | [] => (out, Go b)
  | tok :: toks =>
      if Block script && (i =? BlockAfter script) then block room out b
      else
        match gen_send (LLMTextDelta tok) out b with
        | (out, Go b) => gen_tokens (i + 1) toks out b
        | r => r
        end
  end.

Definition gen_end (out : list LLMChunk) (b : option nat) : list LLMChunk * gen :=
  let r :=
    match L_Err script with
    | Some err => gen_send (LLMError err) out b
    | None => gen_send (LLMDone (L_FinishReason script) (L_Usage script)) out b
    end in
  (r.1, Returned).

Definition generate (b : option nat) : list LLMChunk * gen :=
  match gen_tokens 0 (Tokens script) [] b with
  | (out, Go b) =>
      if Block script && (zlen (Tokens script) <=? BlockAfter script) then block room out b
      else
        match L_ToolCall script with
        | Some tc =>
            match gen_send (LLMToolCall tc) out b with
            | (out, Go b) => if BlockAfterToolCall script then block room out b else gen_end out b
            | r => r
            end
        | None => gen_end out b
        end
  | r => r
  end.

Definition Chat_ (b : option nat) : (list LLMChunk * gen) + string :=
  match ChatErr script with Some err => inr err | None => inl (generate b) end.

(** *** Its reference *)

(** The whole script, and after how many chunks it blocks. *)
Definition whole : list LLMChunk :=
  map LLMTextDelta (Tokens script) ++ match L_ToolCall script with Some tc => [LLMToolCall tc] | None => [] end ++
  [match L_Err script with Some err => LLMError err | None => LLMDone (L_FinishReason script) (L_Usage script) end].

Definition blocks_after : option nat :=
  if Block script && (0 <=? BlockAfter script) then Some (Nat.min (Z.to_nat (BlockAfter script)) (length (Tokens script)))
  else if BlockAfterToolCall script && match L_ToolCall script with Some _ => true | None => false end
  then Some (S (length (Tokens script)))
  else None.

Definition generate_ref (b : option nat) : list LLMChunk * gen :=
  match blocks_after, b with
  | None, None => (whole, Returned)
  | None, Some k => (take k whole, Returned)
  | Some n, None => (take n whole, Stuck)
  | Some n, Some k => if (k <? n)%nat then (take k whole, Returned)
                      else (take n whole ++ (if room then [LLMError canceled] else []), Returned)
  end.

Definition left_of (b : option nat) (n : nat) : option nat := match b with Some k => Some (k - n)%nat | None => None end.
Definition enough (b : option nat) (n : nat) : bool := match b with Some k => (n <=? k)%nat | None => true end.

(** Tokens that are not blocked on. *)
Lemma gen_tokens_go toks : forall i out b,
  (Block script = true -> ~ (i <= BlockAfter script < i + Z.of_nat (length toks))) ->
  gen_tokens i toks out b =
    if enough b (length toks) then (out ++ map LLMTextDelta toks, Go (left_of b (length toks)))
    else (out ++ map LLMTextDelta (take (default 0%nat b) toks), Returned).
Proof.
  induction toks as [|tok toks IH]; intros i out b Hb; cbn [gen_tokens length map].
  - rewrite app_nil_r. destruct b as [k|]; [|done]. simpl. by rewrite Nat.sub_0_r.
  - destruct (Block script && (i =? BlockAfter script)) eqn:Hblk.
    { apply andb_true_iff in Hblk as [H1 H2%Z.eqb_eq]. destruct (Hb H1). cbn [length]. lia. }
    assert (Hb' : Block script = true -> ~ (i + 1 <= BlockAfter script < i + 1 + Z.of_nat (length toks))).
    { intros H1 H2. apply (Hb H1). cbn [length]. lia. }
    destruct b as [[|k]|]; cbn [gen_send].
    + simpl. by rewrite app_nil_r.
    + rewrite IH by done. cbn [enough left_of]. rewrite <- !app_assoc. simpl. by destruct (_ <=? k)%nat.
    + rewrite IH by done. cbn [enough left_of]. by rewrite <- !app_assoc.
Qed.

(** Tokens one of which is blocked on. *)
Lemma gen_tokens_block toks : forall i out b, Block script = true -> i <= BlockAfter script < i + Z.of_nat (length toks) ->
  let n := Z.to_nat (BlockAfter script - i) in
  gen_tokens i toks out b =
    if enough b n then block room (out ++ map LLMTextDelta (take n toks)) (left_of b n)
    else (out ++ map LLMTextDelta (take (default 0%nat b) toks), Returned).
Proof.
  induction toks as [|tok toks IH]; intros i out b Hb Hi n; cbn [length] in Hi; [lia|]. cbn [gen_tokens]. rewrite Hb.
  destruct (Z.eqb_spec i (BlockAfter script)) as [E|Hne]; cbn [andb].
  - replace n with 0%nat by (unfold n; lia). cbn. rewrite app_nil_r. by destruct b as [[|k]|].
  - assert (Hn : n = S (Z.to_nat (BlockAfter script - (i + 1)))) by (unfold n; lia).
    rewrite Hn. destruct b as [[|k]|]; cbn [gen_send].
    + simpl. by rewrite app_nil_r.
    + rewrite IH by (done || lia). cbn [enough left_of]. rewrite <- !app_assoc. simpl. by destruct (_ <=? k)%nat.
    + rewrite IH by (done || lia). cbn [enough left_of]. by rewrite <- !app_assoc.
Qed.
Lemma gen_end_exact out k : gen_end out k = ((if enough k 1 then out ++ [match L_Err script with Some err => LLMError err
  | None => LLMDone (L_FinishReason script) (L_Usage script) end] else out), Returned).
Proof. unfold gen_end. destruct (L_Err script); by destruct k as [[|k]|]. Qed.

(** A mock generation is its script: uncancelled, its chunks are the tokens one
    by one, the tool call if there is one, and exactly one terminal chunk (the
    scripted error, or done with the finish reason and usage); where the script
    blocks it stops there for good. Cancelled after [k] chunks they are the first
    [k] of these and the generation returns, at the point where it blocks with the
    context's error as the last chunk if there is room for it. *)
Theorem mock_generation_exact b : generate b = generate_ref b.
Proof.
  unfold generate, generate_ref, blocks_after.
  destruct (Block script && (0 <=? BlockAfter script)) eqn:Hblk.
  - apply andb_true_iff in Hblk as [Hb H0%Z.leb_le]. unfold zlen.
    destruct (Z.ltb_spec (BlockAfter script) (Z.of_nat (length (Tokens script)))) as [Hlt|Hge].
    + rewrite gen_tokens_block by (done || lia). rewrite Z.sub_0_r. cbn [app]. set (n := Z.to_nat (BlockAfter script)).
      rewrite (Nat.min_l n) by lia. unfold whole. rewrite take_app_le by (rewrite length_map; lia).
      destruct b as [k|]; cbn [enough left_of default]; [|by rewrite <- fmap_take].
      destruct (Nat.ltb_spec k n), (Nat.leb_spec n k); try lia; cbn [block].
      * by rewrite take_app_le, <- fmap_take by (rewrite length_map; lia).
      * rewrite <- fmap_take. destruct room; by rewrite ?app_nil_r.
    + rewrite gen_tokens_go by lia. cbn [app]. rewrite (Nat.min_r (Z.to_nat _)) by lia. unfold whole.
      rewrite (take_app_length' (map _ _)) by (by rewrite length_map).
      rewrite Hb, (proj2 (Z.leb_le _ _) Hge). cbn [andb]. destruct b as [k|]; cbn [enough left_of default]; [|done].
      destruct (Nat.ltb_spec k (length (Tokens script))), (Nat.leb_spec (length (Tokens script)) k); try lia; cbn [block].
      * by rewrite take_app_le, <- fmap_take by (rewrite length_map; lia).
      * destruct room; by rewrite ?app_nil_r.
  - assert (Hn : Block script = true -> BlockAfter script < 0).
    { intros Hb. rewrite Hb in Hblk. by apply Z.leb_gt in Hblk. }
    rewrite gen_tokens_go by (intros H%Hn; lia). cbn [app].
    assert (Hend : Block script && (zlen (Tokens script) <=? BlockAfter script) = false).
    { destruct (Block script); [|done]. apply Z.leb_gt. specialize (Hn eq_refl). unfold zlen. lia. }
    rewrite Hend. clear Hend Hn Hblk. unfold whole. set (toks := map LLMTextDelta (Tokens script)).
    assert (Hl : length toks = length (Tokens script)) by apply length_map. rewrite <- Hl.
    set (fin := match L_Err script with Some err => LLMError err | None => _ end).
    destruct b as [k|]; cbn [enough left_of default].
    + destruct (Nat.leb_spec (length toks) k) as [Hk|Hk].
      * assert (Htk : forall r, take k (toks ++ r) = toks ++ take (k - length toks) r) by (intros r; by rewrite take_app, take_ge).
        assert (Htn : forall r, take (S (length toks)) (toks ++ r) = toks ++ take 1 r).
        { intros r. rewrite take_app, take_ge by lia. do 2 f_equal. lia. }
        rewrite Htk. remember (k - length toks)%nat as j eqn:Hj.
        destruct (L_ToolCall script) as [tc|]; cbn [gen_send app take]; rewrite ?andb_false_r.
        -- destruct (BlockAfterToolCall script); cbn [andb]; rewrite ?Htn; destruct j as [|j]; cbn [gen_send block].
           ++ destruct (Nat.ltb_spec k (S (length toks))); [|lia]. cbn [take]. by rewrite app_nil_r.
           ++ destruct (Nat.ltb_spec k (S (length toks))); [lia|]. cbn [take]. by destruct room; rewrite ?app_nil_r.
           ++ cbn [take]. by rewrite app_nil_r.
           ++ rewrite gen_end_exact. fold fin. destruct j; cbn [enough Nat.leb take]; by rewrite <- ?app_assoc, ?take_nil.
        -- rewrite gen_end_exact. fold fin. destruct j; cbn [enough Nat.leb take]; by rewrite ?app_nil_r, ?take_nil.
      * assert (Htk : forall r, take k (toks ++ r) = map LLMTextDelta (take k (Tokens script))).
        { intros r. rewrite take_app_le by lia. unfold toks. by rewrite <- fmap_take. }
        rewrite Htk. destruct (_ && _); [|done]. by destruct (Nat.ltb_spec k (S (length toks))); [|lia].
    + destruct (L_ToolCall script) as [tc|]; cbn [gen_send]; [destruct (BlockAfterToolCall script); cbn [andb block]|];
        rewrite ?gen_end_exact; cbn [enough]; rewrite ?andb_false_r; fold fin;
        rewrite <- ?app_assoc; [|done..]. rewrite take_app, take_ge by lia. by replace (S (length toks) - length toks)%nat with 1%nat by lia.
Qed.
End llm.

(** ** The synthesizer ([tts.go]) *)

Record TTSScript := MkTTSScript {
  T_IncrementalText : bool;
  T_Alignment : bool;
  MsPerRune : Z;
  ChunkMs : Z;
  FirstChunkDelay : Z;
  SynthErr : error
}.

Definition defaultMsPerRune : Z := 10.

Definition NewTTS (s : TTSScript) : TTSScript :=
  if MsPerRune s <=? 0 then MkTTSScript (T_IncrementalText s) (T_Alignment s) defaultMsPerRune (ChunkMs s) (FirstChunkDelay s) (SynthErr s) else s.

Definition ttsSegmentQueue : nat := 64.

(** [read]: the chunks [ReadAudio] returned; [sending]: those a call has built
    and is sending, [ending] when it then closes the queue. *)
Record tts := MkTts {
  text : string;
  buffered : string;
  runeCount : Z;
  audioMs : Z;
  ended : bool;
  closed : bool;
  queue : list AudioChunk;
  shut : bool;
  sending : list AudioChunk;
  ending : bool;
  read : list AudioChunk;
  panicked : bool
}.

Definition tts_open : tts :=
  {| text := EmptyString; buffered := EmptyString; runeCount := 0; audioMs := 0; ended := false; closed := false; queue := [];
     shut := false; sending := []; ending := false; read := []; panicked := false |}.

Section tts.
Context (script : TTSScript).

Definition Synthesize : tts + string := match SynthErr script with Some err => inr err | None => inl tts_open end.

(** The characters that start in the [n] milliseconds from [off]. *)
Definition chunk_timings (count ms len off n : Z) : list CharTiming :=
  map (fun i => MkCharTiming (i64 (count + i)) (i64 (ms + i64 (i * MsPerRune script))))
    (List.filter (fun i => (off <=? i64 (i * MsPerRune script)) && (i64 (i * MsPerRune script) <? i64 (off + n))) (seqZ 0 len)).

Fixpoint chunks_loop (fuel : nat) (count ms len total chunkMs off : Z) : list AudioChunk :=
  match fuel with
  | O => []
  | S fuel =>
      if off <? total then
        let n := Z.min chunkMs (i64 (total - off)) in
        MkAudioChunk (replicate (Z.to_nat (MsToBytes n)) 0) (if T_Alignment script then chunk_timings count ms len off n else []) ::
        chunks_loop fuel count ms len total chunkMs (i64 (off + chunkMs))
      else []
  end.

Definition chunks (count ms : Z) (t : string) : list AudioChunk * Z * Z :=
  let len := RuneCount (bytes_of t) in
  let total := i64 (len * MsPerRune script) in
  let chunkMs := if (ChunkMs script <=? 0) || (total <? ChunkMs script) then total else ChunkMs script in
  (chunks_loop (Z.to_nat total) count ms len total chunkMs 0, i64 (count + len), i64 (ms + total)).

(** The calls of the pipeline, one chunk sent, the queue's close at the end of
    [EndInput], a read. *)
Inductive tts_label := Write (t : string) | End | Send | Shut | Close | Read.

Definition tts_step (s : tts) (l : tts_label) : tts :=
  let '(MkTts tx bu rc am en cl q sh out ei rd pa) := s in
  if pa then s else
  match l with
  | Write t =>
      if en || cl then s
      else match out with
           | _ :: _ => s
           | [] =>
               if negb (T_IncrementalText script) then MkTts (tx +:+ t) (bu +:+ t) rc am en cl q sh out ei rd pa
               else let '(cs, rc, am) := chunks rc am t in MkTts (tx +:+ t) bu rc am en cl q sh cs ei rd pa
           end
  | End =>
      if en then s
      else match out with
           | _ :: _ => s
           | [] =>
               if String.eqb bu EmptyString then MkTts tx bu rc am true cl q sh out true rd pa
               else let '(cs, rc, am) := chunks rc am bu in MkTts tx EmptyString rc am true cl q sh cs true rd pa
           end
  | Send =>
      match out with
      | [] => s
      | c :: out =>
          if sh then MkTts tx bu rc am en cl q sh out ei rd true
          else if (length q <? ttsSegmentQueue)%nat then MkTts tx bu rc am en cl (q ++ [c]) sh out ei rd pa
          else s
      end
  | Shut =>
      if ei then match out with [] => MkTts tx bu rc am en cl q true out false rd pa | _ :: _ => s end else s
  | Close => if en then MkTts tx bu rc am en true q sh out ei rd pa else MkTts tx bu rc am true true q true out ei rd pa
  | Read => match q with c :: q => MkTts tx bu rc am en cl q sh out ei (rd ++ [c]) pa | [] => s end
  end.

Definition tts_run (ls : list tts_label) : tts := foldl tts_step tts_open ls.

(** *** Its audio *)

(** The characters that start between [a] and [b] in the stream. *)
Definition timed (a b : Z) : list CharTiming :=
  map (fun i => MkCharTiming i (i * MsPerRune script))
    (List.filter (fun i => (a <=? i * MsPerRune script) && (i * MsPerRune script <? b)) (seqZ 0 b)).

(** Chunks of silence that follow each other from [a] to [b], each with the
    timings of its own characters. *)
Fixpoint tiled (a : Z) (l : list AudioChunk) (b : Z) : Prop :=
  match l with
  | [] => a = b
  | c :: l => exists n, 0 < n /\ PCM c = replicate (Z.to_nat (48 * n)) 0 /\
      Chunk_Alignment c = (if T_Alignment script then timed a (a + n) else []) /\ tiled (a + n) l b
  end.

Lemma tiled_app a l b l' c : tiled a l b -> tiled b l' c -> tiled a (l ++ l') c.
Proof. revert a. induction l as [|x l IH]; intros a; simpl; [by intros ->|]. intros (n & ? & ? & ? & ?) ?. exists n. eauto. Qed.

Lemma filter_none {A} (P : A -> bool) l : Forall (fun x => P x = false) l -> List.filter P l = [].
Proof. induction 1 as [|x l Hx _ IH]; simpl; [done|]. by rewrite Hx. Qed.

Lemma filter_seqZ_le (P : Z -> bool) x y : 0 <= x <= y -> (forall i, 0 <= i -> P i = true -> i < x) ->
  List.filter P (seqZ 0 y) = List.filter P (seqZ 0 x).
Proof.
  intros Hxy HP. replace y with (x + (y - x)) by lia. rewrite seqZ_app, List.filter_app by lia. rewrite (filter_none P (seqZ (0 + x) _)).
  - apply app_nil_r.
  - apply Forall_forall. intros i Hi%elem_of_seqZ. destruct (P i) eqn:E; [|done]. apply HP in E; lia.
Qed.

Lemma filter_shift (P : Z -> bool) c n : List.filter P (seqZ c n) = map (Z.add c) (List.filter (fun i => P (c + i)) (seqZ 0 n)).
Proof.
  rewrite <- (Z.add_0_r c) at 1. rewrite <- fmap_add_seqZ. induction (seqZ 0 n) as [|x l IH]; [done|].
  cbn [fmap list_fmap List.filter map]. change (list_fmap _ _ (Z.add c) l) with (Z.add c <$> l) in *. rewrite IH. by destruct (P (c + x)).
Qed.

Context (m_pos : 0 < MsPerRune script).

Lemma chunk_timings_exact count len off n : 0 <= count -> 0 <= off -> 0 < n -> off + n <= len * MsPerRune script ->
  (count + len) * MsPerRune script * 48 < 2 ^ 63 ->
  chunk_timings count (count * MsPerRune script) len off n = timed (count * MsPerRune script + off) (count * MsPerRune script + (off + n)).
Proof.
  intros Hc Ho Hn Hl Hb. unfold chunk_timings, timed. set (m := MsPerRune script) in *.
  assert (Hlen : 0 < len) by nia.
  transitivity (map (fun i => MkCharTiming i (i * m))
    (List.filter (fun i => (count * m + off <=? i * m) && (i * m <? count * m + (off + n))) (seqZ 0 (count + len)))).
  - rewrite seqZ_app, List.filter_app by lia. rewrite (filter_none _ (seqZ 0 count)), app_nil_l, Z.add_0_l, (filter_shift _ count), map_map.
    2:{ apply Forall_forall. intros i Hi%elem_of_seqZ. apply andb_false_iff. left. apply Z.leb_gt. nia. }
    assert (Hi : Forall (fun i => 0 <= i < len) (seqZ 0 len)) by (apply Forall_forall; intros i Hi%elem_of_seqZ; lia).
    rewrite (i64_id (off + n)) by (unfold in_i64; nia).
    induction Hi as [|i l Hi _ IH]; [done|]. cbn [List.filter map].
    assert (Him : 0 <= i * m <= len * m) by nia. assert (Hcm : 0 <= count * m /\ count <= count * m /\ i <= i * m) by nia.
    rewrite (i64_id (i * m)) by (unfold in_i64; lia).
    rewrite Z.mul_add_distr_r.
    replace (off <=? i * m) with (count * m + off <=? count * m + i * m) by (apply Bool.eq_iff_eq_true; rewrite !Z.leb_le; lia).
    replace (i * m <? off + n) with (count * m + i * m <? count * m + (off + n)) by (apply Bool.eq_iff_eq_true; rewrite !Z.ltb_lt; lia).
    destruct (_ && _); [|exact IH]. cbn [map]. rewrite IH, (i64_id (count + i)), (i64_id (i * m)), (i64_id (count * m + i * m)) by (unfold in_i64; lia). do 2 f_equal. lia.
  - f_equal. set (b := count * m + (off + n)).
    assert (HP : forall i, 0 <= i -> (count * m + off <=? i * m) && (i * m <? b) = true -> i < count + len /\ i < b).
    { intros i Hi [_ H%Z.ltb_lt]%andb_true_iff. unfold b in *. nia. }
    destruct (Z.le_ge_cases (count + len) b).
    + symmetry. apply filter_seqZ_le; [nia|]. intros i Hi H1. by apply HP.
    + apply filter_seqZ_le; [unfold b; nia|]. intros i Hi H1. by apply HP.
Qed.

Lemma chunks_loop_exact count len total chunkMs base : 0 <= count -> base = count * MsPerRune script -> total = len * MsPerRune script ->
  (count + len) * MsPerRune script * 48 < 2 ^ 63 -> 0 < chunkMs <= total -> forall fuel off, 0 <= off -> total - off <= Z.of_nat fuel ->
  tiled (base + Z.min off total) (chunks_loop fuel count base len total chunkMs off) (base + total).
Proof.
  intros Hc Hba Ht Hb Hm. assert (Htot : 48 * total < 2 ^ 63) by nia.
  induction fuel as [|fuel IH]; intros off Ho Hf; cbn [chunks_loop tiled]; [lia|].
  destruct (Z.ltb_spec off total) as [Hlt|Hge]; cbn [tiled]; [|lia].
  rewrite (i64_id (total - off)) by (unfold in_i64; lia). set (n := Z.min chunkMs (total - off)).
  assert (Hn : 0 < n /\ off + n = Z.min (off + chunkMs) total) by (unfold n; lia). destruct Hn as [Hn Hoff].
  exists n. cbn [PCM Chunk_Alignment]. rewrite MsToBytes_small by (unfold in_i64; lia). rewrite (Z.mul_comm n), Z.min_l by lia.
  split; [exact Hn|]. split; [reflexivity|]. split.
  - destruct (T_Alignment script); [|reflexivity]. rewrite Hba, chunk_timings_exact by lia. f_equal. lia.
  - rewrite <- Z.add_assoc, Hoff. destruct (Z.le_ge_cases (off + chunkMs) (2 ^ 63 - 1)) as [Hle|Hge].
    + rewrite i64_id by (unfold in_i64; lia). apply IH; lia.
    + lia.
Qed.

(** A text's chunks tile the stretch after the audio so far. *)
Lemma chunks_exact count t : 0 <= count ->
  (count + RuneCount (bytes_of t)) * MsPerRune script * 48 < 2 ^ 63 ->
  exists cs, chunks count (count * MsPerRune script) t =
    (cs, count + RuneCount (bytes_of t), (count + RuneCount (bytes_of t)) * MsPerRune script) /\
  tiled (count * MsPerRune script) cs ((count + RuneCount (bytes_of t)) * MsPerRune script).
Proof.
  intros Hc Hb. unfold chunks. set (len := RuneCount (bytes_of t)) in *. assert (Hl : 0 <= len) by (unfold len, RuneCount, zlen; lia).
  set (m := MsPerRune script) in *. assert (Hm : 0 <= len * m /\ len <= len * m /\ count <= count * m /\ 0 <= count * m) by nia.
  rewrite Z.mul_add_distr_r in Hb |- *.
  rewrite (i64_id (len * m)), (i64_id (count + len)), (i64_id (count * m + len * m)) by (unfold in_i64; lia).
  set (chunkMs := if (ChunkMs script <=? 0) || _ then _ else _). eexists. split; [reflexivity|].
  destruct (Z.eq_dec (len * m) 0) as [E|E]; [rewrite E; simpl; lia|].
  assert (Hch : 0 < chunkMs <= len * m).
  { unfold chunkMs. destruct (Z.leb_spec (ChunkMs script) 0), (Z.ltb_spec (len * m) (ChunkMs script)); cbn [orb]; lia. }
  pose proof (chunks_loop_exact count len (len * m) chunkMs (count * m) Hc eq_refl eq_refl) as H.
  rewrite Z.mul_add_distr_r in H. specialize (H ltac:(fold m; lia) Hch (Z.to_nat (len * m)) 0).
  rewrite Z.min_l, Z.add_0_r in H by lia. apply H; lia.
Qed.

Definition writes (ls : list tts_label) : list string := omap (fun l => match l with Write t => Some t | _ => None end) ls.
Definition size (l : list string) : Z := foldr (fun t n => zlen (bytes_of t) + n) 0 l.
Definition count_runes (l : list string) : Z := foldr (fun t n => RuneCount (bytes_of t) + n) 0 l.
Definition made (s : tts) : list AudioChunk := read s ++ queue s ++ sending s.

Lemma writes_snoc ls l : writes (ls ++ [l]) = writes ls ++ match l with Write t => [t] | _ => [] end.
Proof. unfold writes. rewrite omap_app. by destruct l. Qed.
Lemma size_app l l' : size (l ++ l') = size l + size l'.
Proof. induction l as [|t l IH]; simpl; [done|]. fold (size (l ++ l')) (size l). lia. Qed.
Lemma size_nonneg l : 0 <= size l.
Proof. induction l as [|t l IH]; simpl; [done|]. fold (size l). unfold zlen. lia. Qed.
Lemma count_runes_app l l' : count_runes (l ++ l') = count_runes l + count_runes l'.
Proof. induction l as [|t l IH]; simpl; [done|]. fold (count_runes (l ++ l')) (count_runes l). lia. Qed.
Lemma RuneCount_le t : 0 <= RuneCount (bytes_of t) <= zlen (bytes_of t).
Proof. unfold RuneCount, zlen. pose proof (runes_length (bytes_of t)). lia. Qed.
Definition joined (ws : list string) : string := foldr String.append EmptyString ws.
Lemma joined_snoc ws t : joined (ws ++ [t]) = joined ws +:+ t.
Proof.
  induction ws as [|w ws IH]; cbn [joined foldr app] in *; apply bytes_of_inj; rewrite !bytes_of_app; [by rewrite app_nil_r|].
  fold (joined (ws ++ [t])) (joined ws) in *. rewrite IH, bytes_of_app. by rewrite app_assoc.
Qed.

(** What the caller has been promised, from its calls alone: the writes that were
    taken, and whether the input goes on ([None]), was ended ([Some true]) or was
    cut off by a [Close]. A call waits while the one before it is still sending. *)
Definition hear (s : tts) (w : list string * option bool) (l : tts_label) : list string * option bool :=
  match l, w.2, sending s with
  | Write t, None, [] => (w.1 ++ [t], None)
  | End, None, [] => (w.1, Some true)
  | Close, None, _ => (w.1, Some false)
  | _, _, _ => w
  end.

Definition heard (ls : list tts_label) : list string * option bool :=
  (foldl (fun x l => (tts_step x.1 l, hear x.1 x.2 l)) (tts_open, ([], None)) ls).2.

Lemma mock_heard_snoc ls l : heard (ls ++ [l]) = hear (tts_run ls) (heard ls) l.
Proof.
  unfold heard. rewrite foldl_app. cbn [foldl snd]. f_equal. unfold tts_run.
  enough (H : forall s w, (foldl (fun x l => (tts_step x.1 l, hear x.1 x.2 l)) (s, w) ls).1 = foldl tts_step s ls) by apply H.
  clear. induction ls as [|l ls IH]; intros s w; [done|]. apply IH.
Qed.

(** What of the text has been spoken: every write at once, or all of it when the
    input is ended. *)
Definition spoken (s : tts) (w : list string * option bool) : Prop :=
  if T_IncrementalText script then buffered s = EmptyString /\ runeCount s = count_runes w.1
  else if bool_decide (w.2 = Some true) then buffered s = EmptyString /\ runeCount s = RuneCount (bytes_of (text s))
  else buffered s = text s /\ runeCount s = 0.

Record tts_inv (ls : list tts_label) (s : tts) (w : list string * option bool) : Prop := MkTtsInv {
  ti_ws : sublist w.1 (writes ls);
  ti_text : text s = joined w.1;
  ti_count : 0 <= runeCount s /\ runeCount s + zlen (bytes_of (buffered s)) <= zlen (bytes_of (text s)) <= size (writes ls);
  ti_ms : audioMs s = runeCount s * MsPerRune script;
  ti_tiled : panicked s = false -> tiled 0 (made s) (audioMs s);
  ti_spoken : spoken s w;
  ti_ended : ended s = is_some w.2;
  ti_over : panicked s || closed s = true -> ended s = true;
  ti_shut : shut s = true -> closed s = true \/ (sending s = [] /\ ended s = true);
  ti_ending : ending s = true -> ended s = true;
  ti_closed : panicked s || closed s = true -> Close ∈ ls
}.

(** A call that builds the chunks of [t], all of which is now accounted for. *)
Lemma speak_tiled s t : panicked s = false -> 0 <= runeCount s -> audioMs s = runeCount s * MsPerRune script -> sending s = [] ->
  tiled 0 (made s) (audioMs s) -> (runeCount s + RuneCount (bytes_of t)) * MsPerRune script * 48 < 2 ^ 63 ->
  exists cs, chunks (runeCount s) (audioMs s) t =
    (cs, runeCount s + RuneCount (bytes_of t), (runeCount s + RuneCount (bytes_of t)) * MsPerRune script) /\
  tiled 0 (read s ++ queue s ++ cs) ((runeCount s + RuneCount (bytes_of t)) * MsPerRune script).
Proof.
  intros _ Hc Hm Hs Ht Hb. destruct (chunks_exact (runeCount s) t Hc Hb) as (cs & H1 & H2). exists cs. rewrite Hm. split; [exact H1|].
  unfold made in Ht. rewrite Hs, app_nil_r, Hm in Ht. rewrite app_assoc. eapply tiled_app; [exact Ht|exact H2].
Qed.

Lemma writes_more ls l : sublist (writes ls) (writes (ls ++ [l])) /\ size (writes ls) <= size (writes (ls ++ [l])).
Proof.
  rewrite writes_snoc, size_app. split; [by apply sublist_inserts_r|].
  pose proof (size_nonneg (match l with Write t => [t] | _ => [] end)). lia.
Qed.

(** A step that builds no chunks. *)
Lemma tts_inv_keep ls l s s' w w' : tts_inv ls s w -> text s' = text s -> buffered s' = buffered s -> runeCount s' = runeCount s ->
  audioMs s' = audioMs s -> w'.1 = w.1 ->
  (T_IncrementalText script = false -> buffered s = EmptyString /\ w.2 <> Some true /\ w'.2 = Some true \/ (w'.2 = Some true <-> w.2 = Some true)) ->
  ended s' = is_some w'.2 -> (panicked s' = false -> panicked s = false /\ made s' = made s) ->
  (panicked s' || closed s' = true -> ended s' = true) ->
  (shut s' = true -> closed s' = true \/ (sending s' = [] /\ ended s' = true)) -> (ending s' = true -> ended s' = true) ->
  (panicked s' || closed s' = true -> Close ∈ ls ++ [l]) ->
  tts_inv (ls ++ [l]) s' w'.
Proof.
  intros [Hw Ht Hc Hm Hti Hsp He Ho Hsh Hen Hcl] E1 E2 E3 E4 E0 E5 E5' E6 E7 E8 E9 E10. destruct (writes_more ls l) as [W1 W2].
  split; rewrite ?E1, ?E2, ?E3, ?E4, ?E0; try done.
  - by etrans.
  - lia.
  - intros Hp. destruct (E6 Hp) as [Hp' ->]. by apply Hti.
  - unfold spoken in *. rewrite E1, E2, E3, E0. destruct (T_IncrementalText script); [done|].
    destruct (E5 eq_refl) as [(Hb & Hn & Hy)|Hi].
    + rewrite (bool_decide_eq_false_2 _ Hn) in Hsp. rewrite (bool_decide_eq_true_2 _ Hy). destruct Hsp as [Hbt Hr].
      rewrite Hb in Hbt. by rewrite <- Hbt, Hr.
    + by rewrite (bool_decide_ext _ _ Hi).
Qed.

(** A step that changes nothing, where the caller is promised nothing new. *)
Lemma tts_inv_same ls l s w : tts_inv ls s w -> tts_inv (ls ++ [l]) s w.
Proof.
  intros Hs. pose proof Hs as [_ _ _ _ _ _ He Ho Hsh Hen Hcl]. eapply tts_inv_keep; [exact Hs|done..| |done|done|done|done|done|].
  - intros _. by right.
  - intros H%Hcl. apply elem_of_app. by left.
Qed.

Lemma bounded_product a r b : a + r <= b -> 48 * MsPerRune script * b < 2 ^ 63 -> (a + r) * MsPerRune script * 48 < 2 ^ 63.
Proof. intros. nia. Qed.

Lemma write_inv ls s w t : tts_inv ls s w -> 48 * MsPerRune script * size (writes (ls ++ [Write t])) < 2 ^ 63 ->
  tts_inv (ls ++ [Write t]) (tts_step s (Write t)) (hear s w (Write t)).
Proof.
  intros Hs Hb. pose proof Hs as [Hw Ht Hc Hm Hti Hsp He Ho Hsh Hen Hcl]. pose proof (tts_inv_same ls (Write t) s w Hs) as Hno.
  assert (Hj : joined (w.1 ++ [t]) = text s +:+ t) by (rewrite joined_snoc; by f_equal).
  assert (Hsub : sublist (w.1 ++ [t]) (writes (ls ++ [Write t]))) by (rewrite writes_snoc; by apply sublist_app).
  assert (Hsz : size (writes (ls ++ [Write t])) = size (writes ls) + zlen (bytes_of t)) by (rewrite writes_snoc, size_app; simpl; lia).
  pose proof (RuneCount_le t) as Hr. destruct w as [ws stop].
  destruct s as [tx bu rc am en cl q sh out ei rd pa]. cbn [text buffered runeCount audioMs panicked sending ended closed shut ending fst snd] in *.
  cbn [tts_step hear fst snd sending]. destruct stop as [stop|]; cbn [is_some] in He; subst en; [by destruct pa|].
  destruct pa, cl; cbn [orb] in *; try (by discriminate (Ho eq_refl)). destruct out as [|c out]; [|done].
  assert (Hz : zlen (bytes_of (tx +:+ t)) = zlen (bytes_of tx) + zlen (bytes_of t)) by (rewrite bytes_of_app; apply zlen_app).
  assert (Hsh' : sh = true -> False) by (intros H; destruct (Hsh H) as [|[_ ?]]; done).
  unfold spoken in Hsp. cbn [buffered runeCount text fst snd] in Hsp. rewrite bool_decide_eq_false_2 in Hsp by done.
  destruct (T_IncrementalText script) eqn:Hinc; cbn [negb].
  - destruct (speak_tiled (MkTts tx bu rc am false false q sh [] ei rd false) t) as (cs & E & Hcs); try done; try by apply Hti.
    { cbn; lia. }
    { cbn. apply (bounded_product rc _ (size (writes (ls ++ [Write t])))); unfold zlen in *; lia. }
    cbn in E, Hcs. rewrite E. split; cbn [text buffered runeCount audioMs panicked sending ended closed shut ending fst snd is_some]; try done; try lia.
    unfold spoken. rewrite Hinc. cbn [buffered runeCount fst]. rewrite count_runes_app. destruct Hsp as [-> ->]. split; [done|]. simpl. lia.
  - destruct Hsp as [-> ->].
    split; cbn [text buffered runeCount audioMs panicked sending ended closed shut ending fst snd is_some]; try done; try lia.
    unfold spoken. by rewrite Hinc.
Qed.

Lemma end_inv ls s w : tts_inv ls s w -> 48 * MsPerRune script * size (writes (ls ++ [End])) < 2 ^ 63 ->
  tts_inv (ls ++ [End]) (tts_step s End) (hear s w End).
Proof.
  intros Hs Hb. pose proof Hs as [Hw Ht Hc Hm Hti Hsp He Ho Hsh Hen Hcl]. destruct (writes_more ls End) as [W1 W2].
  pose proof (tts_inv_same ls End s w Hs) as Hno. destruct w as [ws stop].
  destruct s as [tx bu rc am en cl q sh out ei rd pa]. cbn [text buffered runeCount audioMs panicked sending ended closed shut ending fst snd] in *.
  cbn [tts_step hear fst snd sending]. destruct stop as [stop|]; cbn [is_some] in He; subst en; [by destruct pa|].
  destruct pa, cl; cbn [orb] in *; try (by discriminate (Ho eq_refl)). destruct out as [|c out]; [|done].
  assert (Hsh' : sh = true -> False) by (intros H; by destruct (Hsh H) as [|[_ ?]]).
  destruct (String.eqb_spec bu EmptyString) as [->|Hbu].
  { eapply tts_inv_keep; [exact Hs|try done..]. intros _. by left. }
  pose proof (RuneCount_le bu) as Hr.
  destruct (speak_tiled (MkTts tx bu rc am false false q sh [] ei rd false) bu) as (cs & E & Hcs); try done; try by apply Hti.
  { cbn; lia. }
  { cbn. apply (bounded_product rc _ (size (writes (ls ++ [End])))); unfold zlen in *; lia. }
  cbn in E, Hcs. rewrite E. unfold spoken in Hsp. cbn in Hsp. destruct (T_IncrementalText script) eqn:Hinc; [by destruct Hsp|].
  destruct Hsp as [-> ->].
  split; cbn [text buffered runeCount audioMs panicked sending ended closed shut ending fst snd is_some]; try done; try lia.
  - by etrans.
  - change (zlen (bytes_of EmptyString)) with 0. lia.
  - unfold spoken. rewrite Hinc. cbn [runeCount buffered text snd]. rewrite bool_decide_eq_true_2 by done. split; [done|lia].
Qed.

Lemma close_inv ls s w : tts_inv ls s w -> tts_inv (ls ++ [Close]) (tts_step s Close) (hear s w Close).
Proof.
  intros Hs. pose proof Hs as [_ _ _ _ _ _ He Ho Hsh Hen Hcl]. pose proof (tts_inv_same ls Close s w Hs) as Hno.
  destruct w as [ws stop]. destruct s as [tx bu rc am en cl q sh out ei rd pa].
  cbn [sending ended closed shut ending panicked fst snd] in *. cbn [tts_step hear fst snd].
  assert (Hin : Close ∈ ls ++ [Close]) by (apply elem_of_app; right; by apply list_elem_of_singleton).
  destruct stop as [stop|]; cbn [is_some] in He; subst en.
  - destruct pa; [done|]. eapply tts_inv_keep; [exact Hs|..]; cbn; auto.
  - destruct pa; [by discriminate (Ho eq_refl)|]. eapply tts_inv_keep; [exact Hs|..]; cbn; auto. intros _. by right.
Qed.

Lemma tts_step_inv ls l s w : tts_inv ls s w -> 48 * MsPerRune script * size (writes (ls ++ [l])) < 2 ^ 63 ->
  tts_inv (ls ++ [l]) (tts_step s l) (hear s w l).
Proof.
  intros Hs Hb. destruct l as [t| | | | |]; [by apply write_inv|by apply end_inv| | |by apply close_inv|];
    pose proof Hs as [_ _ _ _ _ _ He Ho Hsh Hen Hcl]; clear Hb;
    match goal with |- tts_inv (_ ++ [?l]) _ _ => pose proof (tts_inv_same ls l s w Hs) as Hno end;
    destruct s as [tx bu rc am en cl q sh out ei rd pa]; cbn [sending ended closed shut ending panicked] in *; cbn [tts_step hear];
    (destruct pa; [done|]); cbn [orb] in Hcl, Ho.
  - destruct out as [|c out]; [done|]. destruct sh.
    + assert (Hcl' : cl = true) by by destruct (Hsh eq_refl) as [|[? _]].
      eapply tts_inv_keep; [exact Hs|..]; cbn; auto; [done|]. intros _. apply elem_of_app. left. by apply Hcl.
    + destruct (_ <? _)%nat; [|done]. eapply tts_inv_keep; [exact Hs|..]; cbn; auto;
        [|done|intros H%Hcl; apply elem_of_app; by left].
      intros _. split; [done|]. unfold made. cbn. by rewrite <- app_assoc.
  - destruct ei; [|done]. destruct out; [|done]. eapply tts_inv_keep; [exact Hs|..]; cbn; auto.
    intros H%Hcl. apply elem_of_app. by left.
  - destruct q as [|c q]; [done|]. eapply tts_inv_keep; [exact Hs|..]; cbn; auto; [|intros H%Hcl; apply elem_of_app; by left].
    intros _. split; [done|]. unfold made. cbn. by rewrite <- app_assoc.
Qed.

Lemma tts_run_inv ls : 48 * MsPerRune script * size (writes ls) < 2 ^ 63 -> tts_inv ls (tts_run ls) (heard ls).
Proof.
  induction ls as [|l ls IH] using rev_ind; intros Hb.
  - split; try done. unfold spoken, tts_run. simpl. by destruct (T_IncrementalText script).
  - destruct (writes_more ls l) as [_ Hw]. rewrite mock_heard_snoc. unfold tts_run at 1. rewrite foldl_app.
    apply tts_step_inv; [apply IH; nia|done].
Qed.

(** Sends and reads alone deliver all that was made. *)
Lemma drained s : panicked s = false -> (sending s <> [] -> shut s = false) -> exists ds, Forall (fun l => l = Send \/ l = Read) ds /\
  let s' := foldl tts_step s ds in sending s' = [] /\ queue s' = [] /\ read s' = made s /\ panicked s' = false.
Proof.
  remember (2 * length (sending s) + length (queue s))%nat as n eqn:Hn. revert s Hn.
  induction n as [n IH] using lt_wf_ind. intros s Hn Hp Hsh. destruct s as [tx bu rc am en cl q sh out ei rd pa].
  cbn [sending queue panicked shut] in *. subst pa. destruct q as [|c q].
  - destruct out as [|c out].
    + exists []. split; [done|]. unfold made. cbn. by rewrite app_nil_r.
    + rewrite (Hsh ltac:(done)) in *.
      destruct (IH (2 * length out + 1)%nat ltac:(simpl in *; lia) (MkTts tx bu rc am en cl [c] false out ei rd false) eq_refl eq_refl
        (fun _ => eq_refl)) as (ds & Hd & H).
      exists (Send :: ds). split; [constructor; [by left|done]|]. exact H.
  - destruct (IH (2 * length out + length q)%nat ltac:(simpl in *; lia) (MkTts tx bu rc am en cl q sh out ei (rd ++ [c]) false) eq_refl eq_refl
      Hsh) as (ds & Hd & H).
    exists (Read :: ds). split; [constructor; [by right|done]|]. revert H. unfold made. cbn. by rewrite <- !app_assoc.
Qed.

(** C40. The mock synthesizer speaks its text exactly. Whatever is written, ended,
    closed and read in whatever order, every write is taken until the input is ended
    or the stream closed, and none after; the chunks read, queued and still being
    sent are silence that follows from the start of the stream, each with the
    timings of exactly the characters that start in it, up to [MsPerRune]
    milliseconds for each character spoken: those of every write taken where text is
    incremental, else none before the end of the input and at it those of the whole
    text, after which nothing is left unspoken. Unless the stream is closed, reading
    on gets all of them. The goroutine that sends panics only after a [Close]. *)
Theorem mock_audio_tiles ls : 48 * MsPerRune script * size (writes ls) < 2 ^ 63 ->
  let s := tts_run ls in let (ws, stop) := heard ls in
  text s = joined ws /\ ended s = is_some stop /\
  buffered s = (if T_IncrementalText script || bool_decide (stop = Some true) then EmptyString else joined ws) /\
  runeCount s = (if T_IncrementalText script then count_runes ws
                 else if bool_decide (stop = Some true) then RuneCount (bytes_of (joined ws)) else 0) /\
  (panicked s = false -> tiled 0 (made s) (runeCount s * MsPerRune script)) /\
  (Close ∉ ls -> exists ds, Forall (fun l => l = Send \/ l = Read) ds /\
     let s' := tts_run (ls ++ ds) in sending s' = [] /\ queue s' = [] /\ tiled 0 (read s') (runeCount s * MsPerRune script)) /\
  (panicked s = true -> Close ∈ ls).
Proof.
  intros Hb. cbv zeta. destruct (tts_run_inv ls Hb) as [Hw Ht Hc Hm Hti Hsp He Ho Hsh Hen Hcl].
  destruct (heard ls) as [ws stop]. cbn [fst snd] in *. unfold spoken in Hsp. cbn [fst snd] in Hsp. rewrite Hm in Hti.
  split; [done|]. split; [done|]. split; [|split; [|split; [done|split]]].
  - destruct (T_IncrementalText script); [by destruct Hsp|]. simpl. destruct (bool_decide _); destruct Hsp as [-> _]; done.
  - destruct (T_IncrementalText script); [by destruct Hsp|]. destruct (bool_decide _); destruct Hsp as [_ ->]; [|done]. by rewrite Ht.
  - intros Hno. assert (Hn : panicked (tts_run ls) = false /\ closed (tts_run ls) = false).
    { destruct (panicked _) eqn:E1, (closed _) eqn:E2; try done; destruct Hno; by apply Hcl; rewrite ?E1, ?E2. }
    destruct Hn as [Hp Hnc].
    destruct (drained (tts_run ls) Hp) as (ds & Hd & H1 & H2 & H3 & _).
    { intros Hne. destruct (shut (tts_run ls)); [|done]. destruct (Hsh eq_refl) as [?|[? _]]; congruence. }
    exists ds. split; [done|]. unfold tts_run at 1 2 3. rewrite foldl_app. fold (tts_run ls). rewrite H3. auto.
  - intros Hp. apply Hcl. by rewrite Hp.
Qed.
End tts.

Definition demo_tts (incremental : bool) : TTSScript := MkTTSScript incremental true 10 20 0 None.
Definition demo_calls : list tts_label := [Write "abc"; Send; Read; Send; Write "de"; Send; End; Shut; Read; Read].
Definition demo_whole : list tts_label := [Write "abc"; Write "de"; End; Send; Send; Send; Shut; Write "f"; Read; Read; Read].

Lemma mock_audio_tiles_witness :
  (map (fun c => (zlen (PCM c), map (fun t => (CharIndex t, CT_StartMs t)) (Chunk_Alignment c))) (read (tts_run (demo_tts true) demo_calls)) =
    [(960, [(0, 0); (1, 10)]); (480, [(2, 20)]); (960, [(3, 30); (4, 40)])] /\
   text (tts_run (demo_tts true) demo_calls) = joined ["abc"; "de"]) /\
  runeCount (tts_run (demo_tts false) demo_whole) = 5 /\ buffered (tts_run (demo_tts false) demo_whole) = EmptyString.
Proof.
  pose proof (mock_audio_tiles (demo_tts true) ltac:(done) demo_calls ltac:(done)) as H1.
  pose proof (mock_audio_tiles (demo_tts false) ltac:(done) demo_whole ltac:(done)) as H2.
  cbv zeta in H1, H2. replace (heard (demo_tts true) demo_calls) with (["abc"; "de"], Some true) in H1 by (vm_compute; reflexivity).
  replace (heard (demo_tts false) demo_whole) with (["abc"; "de"], Some true) in H2 by (vm_compute; reflexivity).
  destruct H1 as (Ht & _), H2 as (_ & _ & Hb & Hr & _). split; [split; [vm_compute; reflexivity|exact Ht]|].
  split; [|exact Hb]. rewrite Hr. vm_compute. reflexivity.
Defined.

(** A write that has not sent all its chunks when the stream is closed sends on a
    closed channel. *)
Example mock_write_close_panics : panicked (tts_run (demo_tts true) [Write "abc"; Send; Close; Send]) = true.
Proof. vm_compute. reflexivity. Qed.
